(* ===== verification/_CoqProject ===== *)
-Q . S2P
Prelude.v
Bytes.v
Errors.v
Floats.v
Effects.v
Termination.v
Libraries.v
Instances.v
TypeRegistry.v
Os.v
HelperProtocol.v
Decimal.v
ClockWait.v
JsonCodec.v
ServiceInvoker.v
ServiceInvokerLemmas.v
HelperMain.v
InFlight.v
ServiceFence.v
ServiceResources.v
ServiceTermination.v
PublisherRegistry.v
PublishLemmas.v
PublishTermination.v
PublisherConcurrency.v
RegistryRefinement.v
Regex.v
Validation.v
ValidationLemmas.v
InstanceSpec.v
InstanceSpecLemmas.v
ToolsAdapter.v
AdapterLifecycle.v
AdapterOperations.v
MasterWatch.v
MasterWatchLemmas.v
Calendar.v
Probe.v
ProbeDemo.v
ProbeLemmas.v
ProbeRuns.v
ProbeSnapshot.v
ProbeMain.v
