(* ===== verification/Prelude.v ===== *)
(** * XGC2 ROS1 Tools Adapter: a verification development

    The package [xgc_ros1_tools_adapter] (src/src/xgc_ros1_tools_adapter, C++) gives an
    Adapter Runtime two native ROS 1 operations, publishing to a topic and calling a
    service, and installs two command line tools.  This library models its C++ code
    as pure functions, atomic sections on a registry, step relations, and
    computations that talk to their surroundings, and proves what the operations
    promise: above all that an error tells the truth about side effects.  An error
    that is not of class "uncertain" means that no message was handed to roscpp and
    that no native service call was made.

    ** The parts of the program and the files that model them

    Shared vocabulary.
    - Prelude: results, guards, error propagation; Bytes: bytes and machine words;
      Floats: binary32 and binary64; Decimal: integer texts of the C++ library;
      Calendar: UTC dates ([gmtime_r], [put_time]); Regex: the [std::regex] patterns
      used.  Integers are [Z]; where the source stores or computes them at a width
      the wrap-around, the range test or the saturation is written out.
    - Errors (error.hpp): [Ros1ToolsError] and the other exceptions.
    - Effects: computations over a world (a tick and a local state) with events and
      exceptions, their loops, and weakest preconditions; Termination: computations
      that end.
    - Libraries: interfaces, with laws, of JsonCpp, ros_babel_fish and roscpp's times;
      Instances: concrete instances that satisfy the laws; Os: answers of clocks,
      cancellation and sockets.

    Data.
    - JsonCodec (json_codec.hpp, json_codec.cpp): JSON to dynamic messages and back.
    - TypeRegistry (type_registry.cpp): type resolution and its errors.
    - HelperProtocol (service_helper_protocol.hpp): the 64-byte frames.  The program
      sends the struct as it lies in memory and has no encoder; [frame_bytes] and
      [frame_of_bytes] state that object representation, which the C++ rules and the
      platform fix (declaration order, little endian, no padding).

    Service calls: every call runs in a one-shot helper process.
    - ServiceInvoker (service_invoker.cpp): [call] in the Adapter process, with
      [HelperProcess], the commit and the two waits; HelperMain
      (service_helper_main.cpp): the helper; InFlight: the shared permit counter.
    - ServiceInvokerLemmas, ServiceFence, ServiceResources, ServiceTermination: what
      the two processes guarantee together, for every prefix of the helper's run.

    Publishing.
    - PublisherRegistry (publisher_registry.cpp): the cache of shared entries, its
      sections under the mutex, master generations, [publish].
    - PublishLemmas, PublishTermination, PublisherConcurrency, RegistryRefinement.

    The adapter.
    - Validation and InstanceSpec (tools_adapter.cpp): fields, names, host names,
      URIs, [FromInstanceSpec]; ValidationLemmas, InstanceSpecLemmas.
    - ToolsAdapter (tools_adapter.cpp): contracts, lifecycle, [Publish],
      [CallService], error classes; AdapterLifecycle, AdapterOperations.
    - MasterWatch (main.cpp): start-up, the watch of the ROS master, exit status;
      MasterWatchLemmas.

    Tools.
    - ClockWait (clock_wait.hpp, clock_wait_main.cpp): waiting for simulated time.
    - Probe (probe_main.cpp): questions to a master, a node, a topic, a TCP port, and
      pose snapshots; ProbeDemo, ProbeLemmas, ProbeRuns, ProbeSnapshot, ProbeMain.

    ** How they interact

    [MasterWatch.main] builds a [ToolsAdapter], binds its capabilities and watches the
    master through the adapter's registry.  [ToolsAdapter.Publish] and [CallService]
    validate a request ([Validation]), run [PublisherRegistry.publish] and
    [ServiceInvoker.call], and report the outcome.  Both use [TypeRegistry] and
    [JsonCodec].  [ServiceInvoker.call] and [HelperMain.runHelper] meet on a stream
    socket: [ServiceFence] relates any finished call with any prefix of a helper run
    whose received bytes are a prefix of the bytes sent.  Threads meet in the registry
    (sections of [PublisherRegistry], before each of which the registry may have
    changed) and in the permit counter ([InFlight]).

    ** Surroundings

    What the code asks of the outside (clocks, cancellation, sockets, processes,
    roscpp, the master, other threads) is a function of the tick, in the records [Os],
    [Processes], [PublishEnv], [NodeEnv], [ProbeEnv]; theorems quantify over these
    records.  A call that blocks is one that may have nothing yet for any number of
    ticks: so the probe's standard input has, at each tick, a byte, its end, or
    nothing ([InputAnswer]), and the read of a snapshot's request waits without a
    limit as the code does.  Code that is not in the repository (JsonCpp, ros_babel_fish, roscpp's
    names and times, the contract compiled into the program, protobuf) appears as type
    classes; theorems assume only the law classes or hypotheses they name, and every
    such theorem has a witness with concrete instances.

    ** What the theorems show

    - Truthful errors: ServiceFence, PublishLemmas, AdapterOperations.
    - Successes are the native results: the same files.
    - Resources and limits: ServiceResources, InFlight, PublisherConcurrency.
    - Refinement: the registry of shared objects implements a plain cache
      (RegistryRefinement).
    - Termination: ServiceTermination, PublishTermination, ClockWait, ProbeMain; and
      the watch notices a lost master (MasterWatchLemmas).  The probe ends only under
      a condition on its input: [ProbeMain.snapshot_waits_for_its_input] shows that
      neither the deadline nor a signal ends the read of a snapshot's request.
    - Exact acceptance: which instance specifications, host names, contracts, frames,
      integers and snapshot sources are accepted (InstanceSpecLemmas,
      ValidationLemmas, AdapterLifecycle, HelperProtocol, JsonCodec, ProbeLemmas).
    - Round trips: the codec, the printed times; and ranges: what is decoded fits its
      field, a [float32] included.
    - Invariants: capability activation over every sequence of lifecycle calls; the
      order of the steps of the process and its exit status; the checks between the
      probes of the watch.
    - The probe: exit status 0 means an answer in time; a snapshot holds valid poses.

    ** Bounds and fuel

    - [codec_fuel] is two more than the configured nesting depth: the depth check
      fails first ([JsonCodec.codec_errors_typed]).
    - The loops of effectful code take a number of turns from their surroundings
      ([loop_bound], [watch_bound], [probe_bound]); a run that uses it up has no
      result.  Safety theorems hold for every bound.  The termination theorems ask
      only for a bound larger than the tick at which the request is cancelled or its
      deadline has passed (and, for a snapshot, its input has ended), so they show
      that the loops themselves end.
    - The label loop of [validateHostname] recurses on the length of the text, and
      [to_digits] on the binary length of the number; both are shown to be enough.
    - [year_lengths] covers 1970 to 2169, more than the seconds of a [uint32_t] reach.

    ** Not modelled

    - The text written to standard error and the log lines: no behaviour depends on
      them.
    - The Runtime SDK, protobuf's serialisation of schema references ([SchemaBytes])
      and the generated contract header ([Contract]): code outside the repository or
      generated by the build; they are parameters.
    - scripts/rosbag_recorder.py, the manifest tools under tools/, the packaging
      scripts and the tests: not part of the C++ program.
    - Memory exhaustion ([std::bad_alloc]) and data races: the sections under a mutex
      and the atomic operations are single steps.  Copying and destroying C++ objects
      has no step unless it has an effect (descriptors, processes, permits, leases). *)

From Stdlib Require Export ZArith Lia Ascii.
From Stdlib Require String.
From stdpp Require Export gmap strings list.

Create HintDb xgc.
Create Rewrite HintDb xgc.

(** ** Results: a value, or the exception the C++ code throws *)

Inductive result (E A : Type) : Type :=
| Ok (a : A)
| Err (e : E).
Arguments Ok {E A} a.
Arguments Err {E A} e.

#[export] Instance result_ret E : MRet (result E) := λ A a, Ok a.
#[export] Instance result_bind E : MBind (result E) := λ A B f r,
  match r with Ok a => f a | Err e => Err e end.
#[export] Instance result_throw E : MThrow E (result E) := λ A e, Err e.
#[export] Instance result_eq_dec {E A} `{EqDecision E, EqDecision A} :
  EqDecision (result E A).
Proof. solve_decision. Defined.

Definition is_Ok {E A} (r : result E A) : bool :=
  match r with Ok _ => true | Err _ => false end.

(** [throw_if b e]: the shape [if (b) throw e;] of a guard. *)
Definition throw_if {E} (b : bool) (e : E) : result E unit :=
  if b then Err e else Ok tt.

Section result_lemmas.
Context {E : Type}.

Lemma bind_Ok {A B} (r : result E A) (f : A → result E B) b :
  r ≫= f = Ok b ↔ ∃ a, r = Ok a ∧ f a = Ok b.
Proof. destruct r; cbn; naive_solver. Qed.

Lemma bind_Err {A B} (r : result E A) (f : A → result E B) e :
  r ≫= f = Err e ↔ r = Err e ∨ ∃ a, r = Ok a ∧ f a = Err e.
Proof. destruct r; cbn; naive_solver. Qed.

Lemma throw_if_Ok b (e : E) u : throw_if b e = Ok u ↔ b = false.
Proof. destruct b, u; cbn; naive_solver. Qed.

Lemma throw_if_Err b (e e' : E) : throw_if b e = Err e' ↔ b = true ∧ e = e'.
Proof. destruct b; cbn; naive_solver. Qed.

Lemma throw_bind_Ok {A} b (e : E) (k : unit → result E A) a :
  throw_if b e ≫= k = Ok a ↔ b = false ∧ k tt = Ok a.
Proof. destruct b; cbn; naive_solver. Qed.

Lemma Ok_inj {A} (a b : A) : Ok (E:=E) a = Ok b ↔ a = b.
Proof. naive_solver. Qed.
End result_lemmas.

(** [guards] turns a chain of guards that ends in [Ok] into the conjunction of
    their negated conditions. *)
Ltac guards := repeat (rewrite throw_bind_Ok; cbn beta); rewrite ?Ok_inj.

(** [res_inv H] takes apart a hypothesis [H : r = Ok _] (or [Err _]) about a
    chain of monadic steps and guards. *)
Ltac res_inv_step H :=
  lazymatch type of H with
  | _ ≫= _ = Ok _ =>
      apply bind_Ok in H;
      let a := fresh "a" in let H1 := fresh "Hr" in
      destruct H as (a & H1 & H); res_inv_step H1
  | throw_if _ _ = Ok _ => apply throw_if_Ok in H
  | throw_if _ _ = Err _ => apply throw_if_Err in H as [H ?]
  | _ => idtac
  end.

Ltac res_inv H := repeat (progress res_inv_step H); simplify_eq.

(** ** Where errors come from *)

(** [fails_with P r]: if [r] is an error, it satisfies [P]. *)
Definition fails_with {E A} (P : E → Prop) (r : result E A) : Prop :=
  match r with Ok _ => True | Err e => P e end.

Section fails_with.
Context {E : Type} (P : E → Prop).

Lemma fails_with_Err {A} (r : result E A) e : fails_with P r → r = Err e → P e.
Proof. by intros ? ->. Qed.

Lemma fails_ok {A} (a : A) : fails_with P (Ok a).
Proof. done. Qed.

Lemma fails_err {A} e : P e → fails_with P (Err (A:=A) e).
Proof. done. Qed.

Lemma fails_throw b e : (b = true → P e) → fails_with P (throw_if b e).
Proof. destruct b; cbn; auto. Qed.

Lemma fails_bind {A B} (r : result E A) (f : A → result E B) :
  fails_with P r → (∀ a, r = Ok a → fails_with P (f a)) → fails_with P (r ≫= f).
Proof. destruct r; cbn; auto. Qed.

Lemma fails_impl {A} (Q : E → Prop) (r : result E A) :
  (∀ e, Q e → P e) → fails_with Q r → fails_with P r.
Proof. destruct r; cbn; auto. Qed.
End fails_with.

#[export] Hint Resolve fails_ok fails_err : xgc.

(** Walk through a chain of steps, leaving the errors of its leaves. *)
Ltac fails_step :=
  lazymatch goal with
  | |- fails_with _ (Ok _) => apply fails_ok
  | |- fails_with _ (Err _) => apply fails_err
  | |- fails_with _ (throw_if _ _) => apply fails_throw; intros _
  | |- fails_with _ (_ ≫= _) => apply fails_bind; [|intros ? ?]
  | |- fails_with _ (if ?b then _ else _) => destruct b eqn:?
  | |- fails_with _ (match ?x with _ => _ end) => destruct x eqn:?
  | |- fails_with _ (let _ := _ in _) => cbv zeta
  end.
Ltac fails := repeat fails_step; try done.
