(* ===== verification/Bytes.v ===== *)
(** * Bytes and machine integers

    A byte ([std::uint8_t], [char]) is an [ascii]; a buffer is a list of bytes;
    a [std::string] is a [string] whose bytes are [string_bytes].  Unsigned
    w-bit integers are [Z] with their wrap-around written out ([u16], [u32],
    [u64]).  [le_encode]/[le_decode] give the in-memory representation of an
    unsigned integer on the little-endian targets the package is built for. *)

From S2P Require Import Prelude.
Local Open Scope Z_scope.

Abbreviation byte := ascii.

Definition byte_val (b : byte) : Z := Z.of_N (N_of_ascii b).
Definition byte_of (z : Z) : byte := ascii_of_N (Z.to_N (z mod 256)).

Definition string_bytes (s : string) : list byte := String.list_ascii_of_string s.
Definition bytes_string (l : list byte) : string := String.string_of_list_ascii l.

Definition u16 (z : Z) : Z := z mod 2 ^ 16.
Definition u32 (z : Z) : Z := z mod 2 ^ 32.
Definition u64 (z : Z) : Z := z mod 2 ^ 64.

Definition in_width (w z : Z) : bool := (0 <=? z) && (z <? 2 ^ w).

Fixpoint le_encode (n : nat) (z : Z) : list byte :=
  match n with
  | O => []
  | S n => byte_of z :: le_encode n (z / 256)
  end.

Fixpoint le_decode (l : list byte) : Z :=
  match l with
  | [] => 0
  | b :: l => byte_val b + 256 * le_decode l
  end.

(** ** Lemmas *)

Lemma byte_val_bound b : 0 <= byte_val b < 256.
Proof. unfold byte_val. pose proof (N_ascii_bounded b). lia. Qed.
#[export] Hint Resolve byte_val_bound : xgc.

Lemma byte_of_val b : byte_of (byte_val b) = b.
Proof.
  unfold byte_of. rewrite Z.mod_small by apply byte_val_bound.
  unfold byte_val. rewrite N2Z.id. apply ascii_N_embedding.
Qed.

Lemma byte_val_of z : byte_val (byte_of z) = z mod 256.
Proof.
  unfold byte_val, byte_of. pose proof (Z.mod_pos_bound z 256).
  rewrite N_ascii_embedding by lia. lia.
Qed.

Lemma bytes_string_bytes s : bytes_string (string_bytes s) = s.
Proof. apply String.string_of_list_ascii_of_string. Qed.

Lemma string_bytes_string l : string_bytes (bytes_string l) = l.
Proof. apply String.list_ascii_of_string_of_list_ascii. Qed.

Lemma length_string_bytes s : length (string_bytes s) = String.length s.
Proof. unfold string_bytes. induction s; cbn; congruence. Qed.

Lemma length_le_encode n z : length (le_encode n z) = n.
Proof. revert z. induction n; cbn; intros; f_equal; auto. Qed.
#[export] Hint Rewrite length_le_encode byte_of_val byte_val_of
  bytes_string_bytes string_bytes_string length_string_bytes : xgc.

Lemma le_decode_bound l : 0 <= le_decode l < 256 ^ Z.of_nat (length l).
Proof.
  induction l as [|b l IH]; cbn [le_decode length]; [lia|].
  rewrite Nat2Z.inj_succ, Z.pow_succ_r by lia.
  pose proof (byte_val_bound b). lia.
Qed.

Lemma le_decode_encode n z : le_decode (le_encode n z) = z mod 256 ^ Z.of_nat n.
Proof.
  revert z. induction n as [|n IH]; intros z; cbn [le_encode le_decode].
  - now rewrite Z.mod_1_r.
  - rewrite IH, byte_val_of, Nat2Z.inj_succ, Z.pow_succ_r by lia.
    now rewrite Z.rem_mul_r by (try apply Z.pow_pos_nonneg; lia).
Qed.

Lemma le_encode_decode l : le_encode (length l) (le_decode l) = l.
Proof.
  induction l as [|b l IH]; cbn [le_decode le_encode length]; [done|].
  pose proof (byte_val_bound b) as Hb. f_equal.
  - rewrite <- (byte_of_val b) at 2. unfold byte_of.
    rewrite Z.mul_comm, Z_mod_plus_full. done.
  - rewrite Z.mul_comm, Z.div_add, Z.div_small by lia. apply IH.
Qed.

Lemma in_width_spec w z : in_width w z = true ↔ 0 <= z < 2 ^ w.
Proof. unfold in_width. rewrite andb_true_iff, Z.leb_le, Z.ltb_lt. done. Qed.

Lemma in_width_u32 z : in_width 32 (u32 z) = true.
Proof. apply in_width_spec, Z.mod_pos_bound; lia. Qed.

Lemma u32_small z : 0 <= z < 2 ^ 32 → u32 z = z.
Proof. apply Z.mod_small. Qed.
