(* ===== verification/Errors.v ===== *)
(** * Typed errors (include/.../error.hpp)

    A failing operation throws a [Ros1ToolsError] carrying a stable code, an
    error class and a message.  C++ code also lets other exceptions through:
    [StdExn] stands for any other [std::exception] and [OtherExn] for a thrown
    object that is not one; the handlers of the program tell the three apart. *)

From S2P Require Import Prelude.

Record Ros1ToolsError := MkError {
  code : string;
  errorClass : string;
  what : string
}.

#[export] Instance Ros1ToolsError_eq_dec : EqDecision Ros1ToolsError.
Proof. solve_decision. Defined.

Inductive exn :=
| Typed (e : Ros1ToolsError)
| StdExn (what : string)
| OtherExn.

#[export] Instance exn_eq_dec : EqDecision exn.
Proof. solve_decision. Defined.

Abbreviation fallible := (result exn).

Definition permanentError (code message : string) : exn :=
  Typed (MkError code "permanent" message).
Definition transientError (code message : string) : exn :=
  Typed (MkError code "transient" message).
Definition uncertainError (code message : string) : exn :=
  Typed (MkError code "uncertain" message).
Definition cancelledError (code message : string) : exn :=
  Typed (MkError code "cancelled" message).
Definition deadlineError (code message : string) : exn :=
  Typed (MkError code "deadline" message).
Definition rejectedError (code message : string) : exn :=
  Typed (MkError code "rejected" message).
Definition resourceExhaustedError (code message : string) : exn :=
  Typed (MkError code "resource-exhausted" message).

(** The class an exception is reported under by its thrower, [None] for an
    exception that is not a [Ros1ToolsError]. *)
Definition exn_class (x : exn) : option string :=
  match x with Typed e => Some (errorClass e) | _ => None end.

Definition is_uncertain (x : exn) : bool := bool_decide (exn_class x = Some "uncertain").
Definition is_permanent (x : exn) : bool := bool_decide (exn_class x = Some "permanent").

Definition exn_code (x : exn) : option string :=
  match x with Typed e => Some (code e) | _ => None end.

(** [exception.what()]; an exception that is not a [std::exception] has none. *)
Definition exn_what (x : exn) : string :=
  match x with Typed e => what e | StdExn w => w | OtherExn => "" end.

(** An exception of another library: not a [Ros1ToolsError]. *)
Definition foreign (x : exn) : Prop := exn_class x = None.

(** Not a typed error of class "uncertain". *)
Definition certain_error (x : exn) : Prop := is_uncertain x = false.

Lemma foreign_certain x : foreign x → certain_error x.
Proof. unfold foreign, certain_error, is_uncertain. intros ->. done. Qed.
#[export] Hint Resolve foreign_certain : xgc.
