(* ===== verification/Floats.v ===== *)
(** * IEEE 754 numbers

    C++ [double] and [float] as the Standard Library's [spec_float] at binary64
    and binary32 precision: finiteness, the float32 range test the codec makes,
    and the two conversions.  The lemmas show that widening a float to a double
    is exact, that it stays within the float32 range, that narrowing it again gives
    the float back, and that narrowing any double within the range gives a finite
    float. *)

From Stdlib Require Import SpecFloat.
From S2P Require Import Prelude.
Local Open Scope Z_scope.

Abbreviation double := spec_float.
Abbreviation float := spec_float.

(** [std::isfinite] *)
Definition is_finite (x : spec_float) : bool :=
  match x with S754_zero _ | S754_finite _ _ _ => true | _ => false end.

Definition valid_double (x : double) : bool := valid_binary 53 1024 x.
Definition valid_float (x : float) : bool := valid_binary 24 128 x.

(** Rounding to another format, to nearest, ties to even. *)
Definition convert (prec emax : Z) (x : spec_float) : spec_float :=
  match x with
  | S754_finite s m e => binary_round prec emax s m e
  | _ => x
  end.

Definition float_of_double (x : double) : float := convert 24 128 x.
Definition double_of_float (x : float) : double := convert 53 1024 x.

(** [std::numeric_limits<float>::max()], (2^24 - 1) * 2^104, as a double. *)
Definition FLT_MAX : double := S754_finite false 9007198717870080 75.
Definition NEG_FLT_MAX : double := S754_finite true 9007198717870080 75.

Definition outside_float32 (x : double) : bool :=
  SFltb x NEG_FLT_MAX || SFltb FLT_MAX x.

(** ** Lemmas: shifting mantissas *)

Lemma iter_pos_iter {A} (f : A → A) n x : SpecFloat.iter_pos f n x = Pos.iter f x n.
Proof.
  revert x. induction n as [n IH|n IH|]; intros x; cbn; [| |done].
  - by rewrite !IH, !Pos.iter_swap.
  - by rewrite !IH.
Qed.

Definition shifted (m k : positive) : positive := Pos.iter xO m k.

Lemma shifted_mul m k : Zpos (shifted m k) = Zpos m * 2 ^ Zpos k.
Proof.
  unfold shifted. induction k as [|k IH] using Pos.peano_ind; [cbn; lia|].
  rewrite Pos.iter_succ, Pos2Z.inj_xO, IH, Pos2Z.inj_succ, Z.pow_succ_r by lia. lia.
Qed.

Lemma digits_shifted m k : digits2_pos (shifted m k) = (digits2_pos m + k)%positive.
Proof.
  unfold shifted. induction k as [|k IH] using Pos.peano_ind; cbn; [lia|].
  rewrite Pos.iter_succ. cbn. rewrite IH. lia.
Qed.

Lemma shr_shifted m k :
  Pos.iter shr_1 {| shr_m := Zpos (shifted m k); shr_r := false; shr_s := false |} k =
  {| shr_m := Zpos m; shr_r := false; shr_s := false |}.
Proof.
  unfold shifted. induction k as [|k IH] using Pos.peano_ind; [done|].
  rewrite Pos.iter_succ_r, Pos.iter_succ. exact IH.
Qed.

Lemma digits2_pos_bound m : 2 ^ (Zpos (digits2_pos m) - 1) <= Zpos m < 2 ^ Zpos (digits2_pos m).
Proof.
  induction m as [m IH|m IH|]; cbn [digits2_pos]; [| |cbn; lia].
  all: rewrite Pos2Z.inj_succ; replace (Z.succ (Zpos (digits2_pos m)) - 1)
    with (Z.succ (Zpos (digits2_pos m) - 1)) by lia;
    rewrite !Z.pow_succ_r by lia; lia.
Qed.

(** ** Lemmas: rounding an exactly representable number *)

Section rounding.
Context (prec emax : Z) (Hprec : 0 < prec) (Hemax : prec < emax).

(** Rounding what already has the target's precision changes nothing. *)
Lemma round_aux_canonical s m e :
  SpecFloat.bounded prec emax m e = true →
  binary_round_aux prec emax s (Zpos m) e loc_Exact = S754_finite s m e.
Proof.
  unfold bounded, canonical_mantissa. rewrite andb_true_iff, Z.eqb_eq, Z.leb_le.
  intros [Hc He]. unfold binary_round_aux, shr_fexp. cbn [Zdigits2 shr_record_of_loc].
  rewrite Hc, Z.sub_diag. cbn [shr shr_m loc_of_shr_record round_nearest_even Zdigits2].
  rewrite Hc, Z.sub_diag. cbn. apply Z.leb_le in He. by rewrite He.
Qed.

(** A short mantissa is shifted left to full precision. *)
Lemma round_widen s m e k :
  fexp prec emax (Zpos (digits2_pos m) + e) = e - Zpos k →
  SpecFloat.bounded prec emax (shifted m k) (e - Zpos k) = true →
  binary_round prec emax s m e = S754_finite s (shifted m k) (e - Zpos k).
Proof.
  intros Hf Hb. unfold binary_round, shl_align. rewrite Hf.
  replace (e - Zpos k - e) with (Zneg k) by lia. by apply round_aux_canonical.
Qed.

(** A mantissa that is a shifted canonical one is shifted back. *)
Lemma round_narrow s m e k :
  SpecFloat.bounded prec emax m e = true →
  binary_round prec emax s (shifted m k) (e - Zpos k) = S754_finite s m e.
Proof.
  intros Hb. pose proof Hb as Hb'. unfold bounded, canonical_mantissa in Hb'.
  rewrite andb_true_iff, Z.eqb_eq, Z.leb_le in Hb'. destruct Hb' as [Hc He].
  assert (Zpos (digits2_pos (shifted m k)) + (e - Zpos k) = Zpos (digits2_pos m) + e) as Hd
    by (rewrite digits_shifted; lia).
  unfold binary_round, shl_align. rewrite Hd, Hc.
  replace (e - (e - Zpos k)) with (Zpos k) by lia.
  unfold binary_round_aux, shr_fexp. cbn [Zdigits2 shr_record_of_loc]. rewrite Hd, Hc.
  replace (e - (e - Zpos k)) with (Zpos k) by lia. cbn [shr]. rewrite iter_pos_iter, shr_shifted.
  cbn [shr_m loc_of_shr_record round_nearest_even Zdigits2].
  replace (e - Zpos k + Zpos k) with e by lia. rewrite Hc, Z.sub_diag. cbn.
  apply Z.leb_le in He. by rewrite He.
Qed.
End rounding.

(** ** Widening and narrowing floats *)

(** The shift that brings a float's mantissa to 53 bits. *)
Lemma float_widening m e :
  SpecFloat.bounded 24 128 m e = true →
  ∃ k, (∀ s, binary_round 53 1024 s m e = S754_finite s (shifted m k) (e - Zpos k)) ∧
       Zpos (digits2_pos m) + Zpos k = 53 ∧
       e = Z.max (Zpos (digits2_pos m) + e - 24) (-149) ∧ e <= 104.
Proof.
  unfold bounded, canonical_mantissa. rewrite andb_true_iff, Z.eqb_eq, Z.leb_le.
  unfold fexp, emin. intros [Hc He]. change (3 - 128 - 24) with (-149) in Hc.
  assert (Zpos (digits2_pos m) <= 24) by lia.
  assert (∃ k, Zpos k = 53 - Zpos (digits2_pos m)) as [k Hk].
  { exists (Z.to_pos (53 - Zpos (digits2_pos m))). rewrite Z2Pos.id; lia. }
  exists k. split_and!; [|lia..]. intros s. apply round_widen.
  - unfold fexp, emin. lia.
  - unfold bounded, canonical_mantissa, fexp, emin. rewrite digits_shifted.
    rewrite andb_true_iff, Z.eqb_eq, Z.leb_le, Pos2Z.inj_add. lia.
Qed.

Lemma double_of_float_finite x : is_finite (double_of_float x) = true → is_finite x = true.
Proof. by destruct x. Qed.

Lemma is_finite_double_of_float x :
  valid_float x = true → is_finite x = true → is_finite (double_of_float x) = true.
Proof.
  destruct x as [| | |s m e]; try done. intros Hv _.
  destruct (float_widening m e Hv) as (k & Hr & _). cbn. by rewrite Hr.
Qed.

Lemma float_of_double_of_float x :
  valid_float x = true → float_of_double (double_of_float x) = x.
Proof.
  destruct x as [| | |s m e]; try done. intros Hv.
  destruct (float_widening m e Hv) as (k & Hr & _). cbn. rewrite Hr. cbn.
  by apply round_narrow.
Qed.

Lemma compare_le_not_gt (a b : positive) :
  Zpos a <= Zpos b → Pos.compare_cont Eq a b ≠ Gt.
Proof.
  intros H. change (Pos.compare_cont Eq a b) with (a ?= b)%positive.
  destruct (Pos.compare_spec a b); done || lia.
Qed.

Lemma compare_ge_not_lt (a b : positive) :
  Zpos a <= Zpos b → Pos.compare_cont Eq b a ≠ Lt.
Proof.
  intros H. change (Pos.compare_cont Eq b a) with (b ?= a)%positive.
  destruct (Pos.compare_spec b a); done || lia.
Qed.

Lemma double_of_float_in_range x :
  valid_float x = true → is_finite x = true → outside_float32 (double_of_float x) = false.
Proof.
  destruct x as [| | |s m e]; try done. intros Hv _.
  destruct (float_widening m e Hv) as (k & Hr & Hk & Hc & He). cbn. rewrite Hr.
  assert (Zpos (shifted m k) < 2 ^ 53 ∧ (e - Zpos k = 75 → Zpos (shifted m k) <= 9007198717870080))
    as [_ Hm].
  { pose proof (digits2_pos_bound m) as Hb. rewrite shifted_mul. split.
    - replace 53 with (Zpos (digits2_pos m) + Zpos k) by lia. rewrite Z.pow_add_r by lia. nia.
    - intros. assert (Zpos k = 29) as -> by lia.
      replace (Zpos (digits2_pos m)) with 24 in Hb by lia. lia. }
  unfold outside_float32, SFltb, FLT_MAX, NEG_FLT_MAX, SFcompare.
  destruct s; [rewrite orb_false_r|cbn [orb]].
  - destruct (Z.compare_spec (e - Zpos k) 75) as [E|E|E]; [|done|lia].
    pose proof (compare_le_not_gt _ _ (Hm E)). by destruct (Pos.compare_cont _ _ _).
  - destruct (Z.compare_spec 75 (e - Zpos k)) as [E|E|E]; [|lia|done].
    pose proof (compare_ge_not_lt _ _ (Hm (eq_sym E))). by destruct (Pos.compare_cont _ _ _).
Qed.

(** A float widened to a double is a double. *)
Lemma valid_double_of_float x : valid_float x = true → valid_double (double_of_float x) = true.
Proof.
  destruct x as [| | |s m e]; try done. intros Hv.
  destruct (float_widening m e Hv) as (k & Hr & Hk & Hc & He). cbn. rewrite Hr. cbn.
  unfold bounded, canonical_mantissa, fexp, emin. rewrite digits_shifted.
  rewrite andb_true_iff, Z.eqb_eq, Z.leb_le, Pos2Z.inj_add. lia.
Qed.

(** ** Narrowing a double within the float32 range *)

Lemma shr_iter_div mrs n :
  0 <= shr_m mrs → shr_m (Pos.iter shr_1 mrs n) = shr_m mrs / 2 ^ Zpos n.
Proof.
  assert (∀ r, 0 <= shr_m r → shr_m (shr_1 r) = shr_m r / 2) as Hone.
  { intros [m r s]. destruct m as [|[p|p|]|]; cbn [shr_m]; intros; cbn; [done| | |done|lia].
    - rewrite Pos2Z.inj_xI. apply (Z.div_unique_pos _ _ _ 1); lia.
    - rewrite Pos2Z.inj_xO. apply (Z.div_unique_pos _ _ _ 0); lia. }
  intros H. induction n as [|n IH] using Pos.peano_ind; [by apply Hone|].
  rewrite Pos.iter_succ, Hone, IH, Z.div_div, Pos2Z.inj_succ, Z.pow_succ_r, Z.mul_comm
    by (rewrite ?IH; lia || apply Z.div_pos; lia).
  done.
Qed.

(** Rounding to nearest moves a mantissa up by at most one, and an exact one not at all. *)
Lemma round_nearest_even_near m l :
  round_nearest_even m l = m ∨ (round_nearest_even m l = m + 1 ∧ l ≠ loc_Exact).
Proof. destruct l as [|[]]; cbn; try destruct (Z.even m); auto. Qed.

Lemma Zdigits2_le m n : 0 <= n → 0 <= m < 2 ^ n → Zdigits2 m <= n.
Proof.
  intros Hn Hm. destruct m as [|p|]; [done| |lia]. cbn [Zdigits2].
  pose proof (digits2_pos_bound p). apply Z.lt_succ_r, Z.nle_gt. intros Hlt.
  assert (2 ^ n <= 2 ^ (Zpos (digits2_pos p) - 1)) by (apply Z.pow_le_mono_r; lia). lia.
Qed.

Lemma compare_not_gt (a b : positive) : Pos.compare_cont Eq a b ≠ Gt → Zpos a <= Zpos b.
Proof. exact (Pos2Z.pos_le_pos a b). Qed.

Lemma compare_not_lt (a b : positive) : Pos.compare_cont Eq b a ≠ Lt → Zpos a <= Zpos b.
Proof.
  intros H. apply Pos2Z.pos_le_pos, Pos.ge_le. exact H.
Qed.

(** The largest double within the range is the largest float. *)
Lemma not_outside_float32 s m e :
  valid_double (S754_finite s m e) = true → outside_float32 (S754_finite s m e) = false →
  e <= 75 ∧ (e = 75 → Zpos m <= 9007198717870080).
Proof.
  intros _ H. apply orb_false_iff in H as [H1 H2].
  unfold SFltb, FLT_MAX, NEG_FLT_MAX, SFcompare in *.
  destruct s.
  - destruct (Z.compare_spec e 75) as [E|E|E]; [|lia|done]. split; [lia|intros _].
    apply compare_not_gt. intros X. by rewrite X in H1.
  - destruct (Z.compare_spec 75 e) as [E|E|E]; [|done|lia]. split; [lia|intros _].
    apply compare_not_lt. intros X. by rewrite X in H2.
Qed.

(** A mantissa of at most 24 bits, or exactly 2^24 below the largest exponent, is a finite float. *)
Lemma round_up_finite s k e :
  0 <= k → -149 <= e <= 104 → k < 2 ^ 24 ∨ (k = 2 ^ 24 ∧ e <= 103) →
  is_finite (let '(mrs, e') := shr_fexp 24 128 k e loc_Exact in
             match shr_m mrs with
             | Z0 => S754_zero s
             | Zpos m => if e' <=? 128 - 24 then S754_finite s m e' else S754_infinity s
             | _ => S754_nan
             end) = true.
Proof.
  intros Hk He [H|[-> H]]; unfold shr_fexp, shr_record_of_loc, fexp, emin.
  - pose proof (Zdigits2_le k 24 ltac:(lia) ltac:(lia)).
    destruct (Z.max _ _ - e) as [|p|p] eqn:E; cbn [shr shr_m]; [|lia|].
    all: destruct k as [|k|k]; [done| |lia]; rewrite (proj2 (Z.leb_le _ _)); [done|lia].
  - change (Zdigits2 (2 ^ 24)) with 25. replace (Z.max _ _ - e) with 1 by lia. cbn.
    by rewrite (proj2 (Z.leb_le _ _)) by lia.
Qed.

(** The mantissa of a double, shifted right to the float's precision and rounded. *)
Lemma narrowed_mantissa m e p :
  SpecFloat.bounded 53 1024 m e = true → e <= 75 → (e = 75 → Zpos m <= 9007198717870080) →
  fexp 24 128 (Zpos (digits2_pos m) + e) = e + Zpos p →
  let mrs := Pos.iter shr_1 {| shr_m := Zpos m; shr_r := false; shr_s := false |} p in
  let k := round_nearest_even (shr_m mrs) (loc_of_shr_record mrs) in
  0 <= k ∧ (k < 2 ^ 24 ∨ (k = 2 ^ 24 ∧ e + Zpos p <= 103)).
Proof.
  intros Hc He Hmax Hf mrs k. unfold bounded, canonical_mantissa, fexp, emin in Hc, Hf.
  apply andb_true_iff in Hc as [Hc _]. apply Z.eqb_eq in Hc.
  change (3 - 128 - 24) with (-149) in Hf. change (3 - 1024 - 53) with (-1074) in Hc.
  assert (shr_m mrs = Zpos m / 2 ^ Zpos p) as Hq by (unfold mrs; by rewrite shr_iter_div).
  pose proof (digits2_pos_bound m) as Hd.
  assert (2 ^ Zpos (digits2_pos m) <= 2 ^ 24 * 2 ^ Zpos p) as Hp
    by (rewrite <- Z.pow_add_r by lia; apply Z.pow_le_mono_r; lia).
  assert (0 <= shr_m mrs < 2 ^ 24) as Hm.
  { rewrite Hq. split; [apply Z.div_pos; lia|]. apply Z.div_lt_upper_bound; lia. }
  destruct (round_nearest_even_near (shr_m mrs) (loc_of_shr_record mrs)) as [Hk|[Hk Hl]];
    fold k in Hk; [lia|].
  destruct (decide (k < 2 ^ 24)) as [?|?]; [lia|]. split; [lia|]. right. split; [lia|].
  destruct (decide (e + Zpos p <= 103)) as [?|?]; [done|]. exfalso.
  assert (e = 75) as -> by lia. assert (p = 29%positive) as -> by lia. specialize (Hmax eq_refl).
  assert (m = shifted 16777215 29) as ->.
  { enough (Zpos m = 9007198717870080) as Hm' by (injection Hm' as ->; done).
    pose proof (Z.mul_div_le (Zpos m) (2 ^ 29)). lia. }
  unfold mrs in Hl. by rewrite shr_shifted in Hl.
Qed.

Lemma is_finite_float_of_double x :
  valid_double x = true → is_finite x = true → outside_float32 x = false →
  is_finite (float_of_double x) = true.
Proof.
  destruct x as [| | |s m e]; try done. intros Hv _ Hr.
  destruct (not_outside_float32 s m e Hv Hr) as [He Hmax]. cbn in Hv |- *.
  pose proof Hv as Hb. unfold bounded, canonical_mantissa, fexp, emin in Hb.
  rewrite andb_true_iff, Z.eqb_eq, Z.leb_le in Hb.
  set (f := fexp 24 128 (Zpos (digits2_pos m) + e)).
  assert (f = Z.max (Zpos (digits2_pos m) + e - 24) (-149)) as Hf by done.
  destruct (f - e) as [|p|p] eqn:E.
  - unfold binary_round, shl_align. fold f. rewrite E.
    rewrite round_aux_canonical; [done|]. unfold bounded, canonical_mantissa. fold f.
    rewrite andb_true_iff, Z.eqb_eq, Z.leb_le. lia.
  - unfold binary_round, shl_align. fold f. rewrite E.
    unfold binary_round_aux, shr_fexp at 1. cbn [Zdigits2 shr_record_of_loc]. fold f. rewrite E.
    cbn [shr]. rewrite iter_pos_iter.
    destruct (narrowed_mantissa m e p Hv He Hmax) as [Hk0 Hk]; [fold f; lia|].
    apply round_up_finite; [done|lia|done].
  - erewrite round_widen; [done|fold f; lia|].
    unfold bounded, canonical_mantissa. rewrite digits_shifted.
    replace (Zpos (digits2_pos m + p) + (e - Zpos p)) with (Zpos (digits2_pos m) + e) by lia.
    fold f. rewrite andb_true_iff, Z.eqb_eq, Z.leb_le. lia.
Qed.
