(* ===== verification/Effects.v ===== *)
(** * Effectful code

    A computation of the effectful components runs in a [world]: a tick that
    counts the interactions with the surroundings made so far, and the mutable
    state of the component.  It emits the events its interactions cause and ends
    with a result, with an exception, or with nothing, when a loop used up its
    bound (or the C++ code has no defined behaviour).  What the surroundings
    answer at each tick is a function of the tick, over which every theorem
    quantifies: an answer sequence exists for each behaviour of the outside.

    [wp] is the weakest precondition of a computation.  Its first argument says
    what a computation without a result may do: [True] gives partial and [False]
    total correctness. *)

From S2P Require Import Prelude Errors.

Record world (st : Type) := MkWorld { tick : nat; local : st }.
Arguments MkWorld {st}.
Arguments tick {st}.
Arguments local {st}.

Record run (ev st A : Type) := MkRun {
  outcome : option (fallible A);
  events : list ev;
  after : world st
}.
Arguments MkRun {ev st A}.
Arguments outcome {ev st A}.
Arguments events {ev st A}.
Arguments after {ev st A}.

Definition comp (ev st A : Type) : Type := world st → run ev st A.

Section comp.
Context {ev st : Type}.

#[global] Instance comp_ret : MRet (comp ev st) := λ A a w, MkRun (Some (Ok a)) [] w.

#[global] Instance comp_bind : MBind (comp ev st) := λ A B f m w,
  match m w with
  | MkRun (Some (Ok a)) e w' =>
      let r := f a w' in MkRun (outcome r) (e ++ events r) (after r)
  | MkRun (Some (Err x)) e w' => MkRun (Some (Err x)) e w'
  | MkRun None e w' => MkRun None e w'
  end.

Definition throw {A} (x : exn) : comp ev st A := λ w, MkRun (Some (Err x)) [] w.

(** [if (b) throw x;] *)
Definition throw_when (b : bool) (x : exn) : comp ev st unit :=
  if b then throw x else mret tt.

(** No result. *)
Definition no_result {A} : comp ev st A := λ w, MkRun None [] w.

(** A pure step that may throw. *)
Definition lift {A} (r : fallible A) : comp ev st A := λ w, MkRun (Some r) [] w.

(** Interactions: one tick each. *)
Definition ask {A} (answer : nat → A) : comp ev st A := λ w,
  MkRun (Some (Ok (answer (tick w)))) [] (MkWorld (S (tick w)) (local w)).

Definition emit (e : ev) : comp ev st unit := λ w, MkRun (Some (Ok tt)) [e] w.

Definition get : comp ev st st := λ w, MkRun (Some (Ok (local w))) [] w.

Definition modify (f : st → st) : comp ev st unit := λ w,
  MkRun (Some (Ok tt)) [] (MkWorld (tick w) (f (local w))).

Definition when (b : bool) (m : comp ev st unit) : comp ev st unit :=
  if b then m else mret tt.

(** [try { m } catch ...]: the handler decides what to do with the exception. *)
Definition try_catch {A} (m : comp ev st A) (handler : exn → comp ev st A)
    : comp ev st A := λ w,
  match m w with
  | MkRun (Some (Err x)) e w' =>
      let r := handler x w' in MkRun (outcome r) (e ++ events r) (after r)
  | r => r
  end.

(** A scope whose destructor [cleanup] runs when the scope is left, by a
    result or by an exception. *)
Definition with_cleanup {A} (m : comp ev st A) (cleanup : comp ev st unit)
    : comp ev st A := λ w,
  match m w with
  | MkRun (Some r) e w' =>
      match cleanup w' with
      | MkRun (Some (Ok _)) e' w'' => MkRun (Some r) (e ++ e') w''
      | MkRun (Some (Err x)) e' w'' => MkRun (Some (Err x)) (e ++ e') w''
      | MkRun None e' w'' => MkRun None (e ++ e') w''
      end
  | r => r
  end.

(** A loop of at most [bound] turns; a turn goes on with [inl] and leaves with
    [inr]. *)
Fixpoint loop {X A} (bound : nat) (body : X → comp ev st (X + A)) (x : X) : comp ev st A :=
  match bound with
  | O => no_result
  | S bound =>
      r ← body x;
      match r with
      | inl x => loop bound body x
      | inr a => mret a
      end
  end.
End comp.

Lemma comp_bind_assoc {ev st A B C} (m : comp ev st A) (f : A → comp ev st B)
    (g : B → comp ev st C) w :
  ((m ≫= f) ≫= g) w = (m ≫= (λ a, f a ≫= g)) w.
Proof.
  unfold mbind, comp_bind.
  destruct (m w) as [[[a|x]|] e w']; [|done..].
  destruct (f a w') as [[[b|x]|] e' w'']; cbn; [|done..].
  by rewrite app_assoc.
Qed.

(** ** Weakest preconditions *)

Section wp.
Context {ev st : Type} (div : Prop).

Abbreviation post A := (fallible A → list ev → world st → Prop).

Definition wp {A} (m : comp ev st A) (Q : post A) (w : world st) : Prop :=
  match m w with
  | MkRun (Some r) e w' => Q r e w'
  | MkRun None _ _ => div
  end.

(** [Q] after the events [e]. *)
Definition after_events {A} (e : list ev) (Q : post A) : post A :=
  λ r e' w, Q r (e ++ e') w.

Lemma wp_mono {A} (m : comp ev st A) (Q Q' : post A) w :
  wp m Q w → (∀ r e w', Q r e w' → Q' r e w') → wp m Q' w.
Proof. unfold wp. destruct (m w) as [[r|] e w']; auto. Qed.

Lemma wp_run {A} (m : comp ev st A) (Q : post A) w r e w' :
  wp m Q w → m w = MkRun (Some r) e w' → Q r e w'.
Proof. unfold wp. by intros ? E; rewrite E in *. Qed.

Lemma wp_ret {A} (a : A) (Q : post A) w : Q (Ok a) [] w → wp (mret a) Q w.
Proof. done. Qed.

Lemma wp_throw {A} x (Q : post A) w : Q (Err x) [] w → wp (throw x) Q w.
Proof. done. Qed.

Lemma wp_throw_when b x (Q : post unit) w :
  (b = true → Q (Err x) [] w) → (b = false → Q (Ok tt) [] w) → wp (throw_when b x) Q w.
Proof. destruct b; cbn; auto. Qed.

Lemma wp_lift {A} r (Q : post A) w : Q r [] w → wp (lift r) Q w.
Proof. done. Qed.

Lemma wp_no_result {A} (Q : post A) w : div → wp no_result Q w.
Proof. done. Qed.

Lemma wp_ask {A} (f : nat → A) (Q : post A) w :
  Q (Ok (f (tick w))) [] (MkWorld (S (tick w)) (local w)) → wp (ask f) Q w.
Proof. done. Qed.

Lemma wp_emit e (Q : post unit) w : Q (Ok tt) [e] w → wp (emit e) Q w.
Proof. done. Qed.

Lemma wp_get (Q : post st) w : Q (Ok (local w)) [] w → wp get Q w.
Proof. done. Qed.

Lemma wp_modify f (Q : post unit) w :
  Q (Ok tt) [] (MkWorld (tick w) (f (local w))) → wp (modify f) Q w.
Proof. done. Qed.

Lemma wp_bind {A B} (m : comp ev st A) (f : A → comp ev st B) (Q : post B) w :
  wp m (λ r e w', match r with
                  | Ok a => wp (f a) (after_events e Q) w'
                  | Err x => Q (Err x) e w'
                  end) w →
  wp (m ≫= f) Q w.
Proof.
  unfold wp, mbind, comp_bind, after_events.
  destruct (m w) as [[[a|x]|] e w']; [|done..].
  destruct (f a w') as [[r|] e' w'']; done.
Qed.

Lemma wp_bind_assoc {A B C} (m : comp ev st A) (f : A → comp ev st B)
    (g : B → comp ev st C) (Q : post C) w :
  wp (m ≫= (λ a, f a ≫= g)) Q w → wp ((m ≫= f) ≫= g) Q w.
Proof. unfold wp. by rewrite comp_bind_assoc. Qed.

Lemma wp_try_catch {A} (m : comp ev st A) h (Q : post A) w :
  wp m (λ r e w', match r with
                  | Ok a => Q (Ok a) e w'
                  | Err x => wp (h x) (after_events e Q) w'
                  end) w →
  wp (try_catch m h) Q w.
Proof.
  unfold wp, try_catch, after_events. destruct (m w) as [[[a|x]|] e w']; [done| |done].
  destruct (h x w') as [[r|] e' w'']; done.
Qed.

Lemma wp_with_cleanup {A} (m : comp ev st A) c (Q : post A) w :
  wp m (λ r e w', wp c (λ r' e' w'', Q (match r' with Ok _ => r | Err x => Err x end)
                                       (e ++ e') w'') w') w →
  wp (with_cleanup m c) Q w.
Proof.
  unfold wp, with_cleanup. destruct (m w) as [[r|] e w']; [|done].
  destruct (c w') as [[[|]|] e' w'']; done.
Qed.

Lemma wp_when b m (Q : post unit) w :
  (b = true → wp m Q w) → (b = false → Q (Ok tt) [] w) → wp (when b m) Q w.
Proof. destruct b; cbn; auto. Qed.

(** Partial correctness of a loop, by an invariant on the loop variable, the
    events so far and the world. *)
Lemma wp_loop {X A} (body : X → comp ev st (X + A)) (Inv : X → list ev → world st → Prop)
    (Q : post A) bound :
  div →
  (∀ x e w, Inv x e w →
     wp (body x) (λ r e' w', match r with
                             | Ok (inl x') => Inv x' (e ++ e') w'
                             | Ok (inr a) => Q (Ok a) (e ++ e') w'
                             | Err z => Q (Err z) (e ++ e') w'
                             end) w) →
  ∀ x e w, Inv x e w → wp (loop bound body x) (after_events e Q) w.
Proof.
  intros Hdiv Hbody. induction bound as [|bound IH]; intros x e w HI.
  { by apply wp_no_result. }
  cbn [loop]. apply wp_bind. eapply wp_mono; [by apply Hbody|]. cbn beta.
  intros [[x'|a]|z] e' w' H.
  - eapply wp_mono; [by apply (IH _ _ _ H)|]. unfold after_events.
    intros. by rewrite app_assoc.
  - apply wp_ret. unfold after_events. by rewrite app_nil_r.
  - done.
Qed.

(** Total correctness, by a measure that every turn that goes on decreases. *)
Lemma wp_loop_total {X A} (body : X → comp ev st (X + A))
    (Inv : X → list ev → world st → Prop) (measure : X → world st → nat)
    (Q : post A) :
  (∀ x e w, Inv x e w →
     wp (body x) (λ r e' w', match r with
                             | Ok (inl x') => Inv x' (e ++ e') w' ∧
                                              (measure x' w' < measure x w)%nat
                             | Ok (inr a) => Q (Ok a) (e ++ e') w'
                             | Err z => Q (Err z) (e ++ e') w'
                             end) w) →
  ∀ bound x e w, (measure x w < bound)%nat → Inv x e w →
    wp (loop bound body x) (after_events e Q) w.
Proof.
  intros Hbody bound. induction bound as [|bound IH]; intros x e w Hm HI; [lia|].
  cbn [loop]. apply wp_bind. eapply wp_mono; [by apply Hbody|]. cbn beta.
  intros [[x'|a]|z] e' w' H.
  - destruct H as [H Hlt]. eapply wp_mono; [apply (IH x' (e ++ e')); [lia|done]|].
    unfold after_events. intros. by rewrite app_assoc.
  - apply wp_ret. unfold after_events. by rewrite app_nil_r.
  - done.
Qed.
End wp.

(** ** All outcomes

    [wpo m Q w]: [Q] holds of however the run ends, a missing result included.
    A theorem about the events of such runs also covers a process that is stopped
    in the middle of one. *)

Section wpo.
Context {ev st : Type}.

Abbreviation opost A := (option (fallible A) → list ev → world st → Prop).

Definition wpo {A} (m : comp ev st A) (Q : opost A) (w : world st) : Prop :=
  Q (outcome (m w)) (events (m w)) (after (m w)).

Definition shifted {A} (e : list ev) (Q : opost A) : opost A := λ o e' w, Q o (e ++ e') w.

Lemma wpo_mono {A} (m : comp ev st A) (Q Q' : opost A) w :
  wpo m Q w → (∀ o e w', Q o e w' → Q' o e w') → wpo m Q' w.
Proof. unfold wpo. auto. Qed.

Lemma wpo_ret {A} (a : A) (Q : opost A) w : Q (Some (Ok a)) [] w → wpo (mret a) Q w.
Proof. done. Qed.

Lemma wpo_no_result {A} (Q : opost A) w : Q None [] w → wpo no_result Q w.
Proof. done. Qed.

Lemma wpo_ask {A} (f : nat → A) (Q : opost A) w :
  Q (Some (Ok (f (tick w)))) [] (MkWorld (S (tick w)) (local w)) → wpo (ask f) Q w.
Proof. done. Qed.

Lemma wpo_emit e (Q : opost unit) w : Q (Some (Ok tt)) [e] w → wpo (emit e) Q w.
Proof. done. Qed.

Lemma wpo_bind {A B} (m : comp ev st A) (f : A → comp ev st B) (Q : opost B) w :
  wpo m (λ o e w', match o with
                   | Some (Ok a) => wpo (f a) (shifted e Q) w'
                   | Some (Err x) => Q (Some (Err x)) e w'
                   | None => Q None e w'
                   end) w →
  wpo (m ≫= f) Q w.
Proof.
  unfold wpo, mbind, comp_bind, shifted.
  by destruct (m w) as [[[a|x]|] e w'].
Qed.

(** [Q] must hold at every point where the bound may end the loop. *)
Lemma wpo_loop {X A} (body : X → comp ev st (X + A)) (Inv : X → list ev → world st → Prop)
    (Q : opost A) bound :
  (∀ x e w, Inv x e w → Q None e w) →
  (∀ x e w, Inv x e w →
     wpo (body x) (λ o e' w', match o with
                              | Some (Ok (inl x')) => Inv x' (e ++ e') w'
                              | Some (Ok (inr a)) => Q (Some (Ok a)) (e ++ e') w'
                              | Some (Err z) => Q (Some (Err z)) (e ++ e') w'
                              | None => Q None (e ++ e') w'
                              end) w) →
  ∀ x e w, Inv x e w → wpo (loop bound body x) (shifted e Q) w.
Proof.
  intros Hstop Hbody. induction bound as [|bound IH]; intros x e w HI.
  { apply wpo_no_result. unfold shifted. rewrite app_nil_r. eauto. }
  cbn [loop]. apply wpo_bind. eapply wpo_mono; [by apply Hbody|]. cbn beta.
  intros [[[x'|a]|z]|] e' w' Hb; [| |done..].
  - eapply wpo_mono; [by apply (IH _ _ _ Hb)|]. unfold shifted.
    intros. by rewrite app_assoc.
  - apply wpo_ret. unfold shifted. by rewrite app_nil_r.
Qed.

Lemma wpo_loop_start {X A} (body : X → comp ev st (X + A))
    (Inv : X → list ev → world st → Prop) (Q : opost A) bound x w :
  Inv x [] w →
  (∀ x e w, Inv x e w → Q None e w) →
  (∀ x e w, Inv x e w →
     wpo (body x) (λ o e' w', match o with
                              | Some (Ok (inl x')) => Inv x' (e ++ e') w'
                              | Some (Ok (inr a)) => Q (Some (Ok a)) (e ++ e') w'
                              | Some (Err z) => Q (Some (Err z)) (e ++ e') w'
                              | None => Q None (e ++ e') w'
                              end) w) →
  wpo (loop bound body x) Q w.
Proof. intros HI Hstop Hbody. exact (wpo_loop body Inv Q bound Hstop Hbody x [] w HI). Qed.
End wpo.

(** The events so far, without empty pieces; and the end of a computation. *)
Ltac wpo_norm := unfold shifted; cbn beta iota; rewrite ?app_nil_l, ?app_nil_r.
Ltac wpo_leave := apply wpo_ret; wpo_norm.

(** [wp] with the events of a leading empty prefix. *)
Lemma after_nil {ev st A} (Q : fallible A → list ev → world st → Prop) r e w :
  after_events [] Q r e w = Q r e w.
Proof. done. Qed.

(** Step through a computation: [wp_step] applies the rule of its head. *)
Ltac wp_step :=
  lazymatch goal with
  | |- wp _ (mret _) _ _ => apply wp_ret
  | |- wp _ (throw _) _ _ => apply wp_throw
  | |- wp _ (throw_when _ _) _ _ => apply wp_throw_when; intros ?
  | |- wp _ (lift _) _ _ => apply wp_lift
  | |- wp _ (ask _) _ _ => apply wp_ask
  | |- wp _ (emit _) _ _ => apply wp_emit
  | |- wp _ get _ _ => apply wp_get
  | |- wp _ (modify _) _ _ => apply wp_modify
  | |- wp _ (_ ≫= _) _ _ => apply wp_bind
  | |- wp _ (when _ _) _ _ => apply wp_when; intros ?
  | |- wp _ (if ?b then _ else _) _ _ => destruct b eqn:?
  | |- wp _ (match ?x with _ => _ end) _ _ => destruct x eqn:?
  | |- wp _ (let _ := _ in _) _ _ => cbv zeta
  end; unfold after_events; cbn beta iota; rewrite ?app_nil_l, ?app_nil_r.
Ltac wp_steps := repeat wp_step.

(** ** Silent computations: no event, no change of state, no exception *)

Definition silent {ev st A} (m : comp ev st A) : Prop :=
  ∀ w, wp True m (λ r e w', e = [] ∧ local w' = local w ∧ is_Ok r = true) w.

Section silent.
Context {ev st : Type}.

Lemma silent_ret {A} (a : A) : silent (mret (M:=comp ev st) a).
Proof. intros w. by apply wp_ret. Qed.

Lemma silent_ask {A} (f : nat → A) : silent (ask (ev:=ev) (st:=st) f).
Proof. intros w. by apply wp_ask. Qed.

Lemma silent_no_result {A} : silent (no_result (ev:=ev) (st:=st) (A:=A)).
Proof. done. Qed.

Lemma silent_bind {A B} (m : comp ev st A) (f : A → comp ev st B) :
  silent m → (∀ a, silent (f a)) → silent (m ≫= f).
Proof.
  intros Hm Hf w. apply wp_bind. eapply wp_mono; [apply Hm|].
  intros [a|x] e w' (-> & Hl & Hok); [|done].
  eapply wp_mono; [apply Hf|]. intros r e w'' (-> & Hl' & Hok').
  split; [done|]. split; [congruence|done].
Qed.

Lemma silent_loop {X A} n (body : X → comp ev st (X + A)) x :
  (∀ x, silent (body x)) → silent (loop n body x).
Proof.
  intros Hb. revert x. induction n as [|n IH]; intros x; cbn [loop];
    [apply silent_no_result|].
  apply silent_bind; [done|]. intros [x'|a]; [apply IH|apply silent_ret].
Qed.

(** Running a silent computation first. *)
Lemma wp_silent {A} (m : comp ev st A) (Q : fallible A → list ev → world st → Prop) w :
  silent m → (∀ a w', local w' = local w → Q (Ok a) [] w') → wp True m Q w.
Proof.
  intros Hm HQ. eapply wp_mono; [apply Hm|].
  intros [a|x] e w' (-> & Hl & Hok); [by apply HQ|done].
Qed.

Lemma wp_bind_silent {A B} (m : comp ev st A) (f : A → comp ev st B)
    (Q : fallible B → list ev → world st → Prop) w :
  silent m → (∀ a w', local w' = local w → wp True (f a) Q w') → wp True (m ≫= f) Q w.
Proof. intros Hm Hf. apply wp_bind, wp_silent; [done|]. cbn. apply Hf. Qed.
End silent.

#[export] Hint Resolve silent_ret silent_ask silent_no_result : xgc.

(** Prove silence by the structure of the computation. *)
Ltac silent_tac :=
  repeat first
    [ apply silent_ret | apply silent_ask | apply silent_no_result
    | apply silent_loop; intros ?
    | apply silent_bind; [|intros ?]
    | solve [auto with xgc]
    | lazymatch goal with
      | |- silent (if ?b then _ else _) => destruct b
      | |- silent (match ?x with _ => _ end) => destruct x
      end ].
