(* ===== verification/Termination.v ===== *)
(** * Computations that end

    Total correctness in its plainest form: a computation ends when it has a result
    from every world.  A loop ends when a turn can go on only before some tick and
    takes time; its bound then only has to exceed that tick. *)

From S2P Require Import Prelude Errors Effects.

(** [ends m]: [m] has a result from every world. *)
Definition ends {ev st A} (m : comp ev st A) : Prop :=
  ∀ w, wp False m (λ _ _ w', (tick w <= tick w')%nat) w.

Section ends.
Context {ev st : Type}.

Lemma ends_ret {A} (a : A) : ends (mret (M:=comp ev st) a).
Proof. intros w. by apply wp_ret. Qed.
Lemma ends_throw {A} x : ends (throw (ev:=ev) (st:=st) (A:=A) x).
Proof. intros w. by apply wp_throw. Qed.
Lemma ends_throw_when b x : ends (throw_when (ev:=ev) (st:=st) b x).
Proof. destruct b; [apply ends_throw|apply ends_ret]. Qed.
Lemma ends_lift {A} (r : fallible A) : ends (lift (ev:=ev) (st:=st) r).
Proof. intros w. by apply wp_lift. Qed.
Lemma ends_ask {A} (f : nat → A) : ends (ask (ev:=ev) (st:=st) f).
Proof. intros w. apply wp_ask. cbn. lia. Qed.
Lemma ends_emit (e : ev) : ends (emit (st:=st) e).
Proof. intros w. by apply wp_emit. Qed.
Lemma ends_get : ends (get (ev:=ev) (st:=st)).
Proof. intros w. by apply wp_get. Qed.
Lemma ends_modify f : ends (modify (ev:=ev) (st:=st) f).
Proof. intros w. by apply wp_modify. Qed.

Lemma ends_bind {A B} (m : comp ev st A) (f : A → comp ev st B) :
  ends m → (∀ a, ends (f a)) → ends (m ≫= f).
Proof.
  intros Hm Hf w. apply wp_bind. eapply wp_mono; [apply Hm|].
  intros [a|x] e w' Hle; [|done]. eapply wp_mono; [apply Hf|].
  intros r e' w'' Hle'. unfold after_events. cbn beta in *. lia.
Qed.

Lemma ends_try_catch {A} (m : comp ev st A) h :
  ends m → (∀ x, ends (h x)) → ends (try_catch m h).
Proof.
  intros Hm Hh w. apply wp_try_catch. eapply wp_mono; [apply Hm|].
  intros [a|x] e w' Hle; [done|]. eapply wp_mono; [apply Hh|].
  intros r e' w'' Hle'. unfold after_events. cbn beta in *. lia.
Qed.

Lemma ends_with_cleanup {A} (m : comp ev st A) c :
  ends m → ends c → ends (with_cleanup m c).
Proof.
  intros Hm Hc w. apply wp_with_cleanup. eapply wp_mono; [apply Hm|].
  intros r e w' Hle. eapply wp_mono; [apply Hc|]. intros r' e' w'' Hle'. cbn beta in *. lia.
Qed.

(** A turn of a loop: it may go on only before tick [N], and then takes time. *)
Definition turn {X A} (N : nat) (m : comp ev st (X + A)) : Prop :=
  ∀ w, wp False m (λ r _ w', (tick w <= tick w')%nat ∧
                     ∀ x, r = Ok (inl x) → (tick w < tick w')%nat ∧ (tick w < N)%nat) w.

Lemma ends_loop {X A} N bound (body : X → comp ev st (X + A)) x :
  (N < bound)%nat → (∀ x, turn N (body x)) → ends (loop bound body x).
Proof.
  intros HN Hb w.
  apply (wp_loop_total False body (λ _ _ w', (tick w <= tick w')%nat)
           (λ _ w', (N - tick w')%nat) (λ _ _ w', (tick w <= tick w')%nat)) with (e := []);
    [|lia|done].
  intros x1 e w1 Hle. eapply wp_mono; [apply Hb|]. cbn beta.
  intros [[x2|a]|z] e' w2 [Hle2 Hgo]; [|lia..]. destruct (Hgo x2 eq_refl). lia.
Qed.

Lemma turn_leave {X A} N (a : A) : turn N (mret (M:=comp ev st) (inr (A:=X) a)).
Proof. intros w. apply wp_ret. split; [done|]. by intros x [=]. Qed.
End ends.

#[export] Hint Resolve ends_ret ends_throw ends_throw_when ends_lift ends_ask ends_emit ends_get
  ends_modify turn_leave : xgc.

Ltac ends_tac :=
  repeat first
    [ solve [auto with xgc]
    | apply ends_bind; [|intros ?]
    | apply ends_with_cleanup
    | apply ends_try_catch; [|intros ?]
    | lazymatch goal with
      | |- ends (when ?b _) => unfold when
      | |- ends (let _ := _ in _) => cbv zeta
      | |- ends (if ?b then _ else _) => destruct b
      | |- ends (match ?x with _ => _ end) => destruct x
      end ].
