(* ===== verification/Libraries.v ===== *)
(** * Interfaces of the libraries the codec is written against

    JsonCpp, ros_babel_fish and roscpp's time types are not part of this
    repository.  Each is a type class: the operations the sources call, and in a
    second class the documented behaviour that the theorems rely on.  The models
    of the components are parametric in them. *)

From Stdlib Require Import SpecFloat.
From S2P Require Import Prelude Bytes Errors Floats.
Local Open Scope Z_scope.

(** ** JsonCpp: [Json::Value] *)

Class JsonCpp (J : Type) := {
  isString : J → bool;
  isIntegral : J → bool;
  isUInt64 : J → bool;
  isInt64 : J → bool;
  isNumeric : J → bool;
  isBool : J → bool;
  isObject : J → bool;
  isArray : J → bool;
  asString : J → string;
  asUInt64 : J → Z;
  asInt64 : J → Z;
  asDouble : J → double;
  asBool : J → bool;
  jsize : J → nat;                       (* size() *)
  at_index : J → nat → J;                (* operator[](ArrayIndex) *)
  getMemberNames : J → list string;
  isMember : J → string → bool;
  at_key : J → string → J;               (* operator[](key) *)
  ofBool : bool → J;                     (* Json::Value(...) *)
  ofUInt : Z → J;
  ofInt : Z → J;
  ofUInt64 : Z → J;
  ofString : string → J;
  ofDouble : double → J;
  emptyArray : J;
  emptyObject : J;
  jappend : J → J → J;                   (* append(value) *)
  set_key : J → string → J → J           (* value[key] = item *)
}.

(** What the documentation of [Json::Value] says of these operations. *)
Class JsonCppLaws (J : Type) `{JsonCpp J} := {
  members_of_object v k : isObject v = true → k ∈ getMemberNames v ↔ isMember v k = true;
  ofBool_is b : isBool (ofBool b) = true ∧ asBool (ofBool b) = b;
  ofUInt_is n : 0 <= n < 2 ^ 32 →
    isString (ofUInt n) = false ∧ isIntegral (ofUInt n) = true ∧
    isUInt64 (ofUInt n) = true ∧ asUInt64 (ofUInt n) = n;
  ofInt_is z : - 2 ^ 31 <= z < 2 ^ 31 →
    isString (ofInt z) = false ∧ isIntegral (ofInt z) = true ∧
    isUInt64 (ofInt z) = (0 <=? z) ∧ (0 <= z → asUInt64 (ofInt z) = z) ∧
    asInt64 (ofInt z) = z;
  ofString_is s : isString (ofString s) = true ∧ asString (ofString s) = s;
  ofDouble_is d : valid_double d = true →
    isNumeric (ofDouble d) = true ∧ asDouble (ofDouble d) = d;
  asDouble_valid v : valid_double (asDouble v) = true;   (* its result is a double *)
  emptyArray_is : isArray emptyArray = true ∧ jsize emptyArray = 0%nat;
  jappend_is a v : isArray a = true →
    isArray (jappend a v) = true ∧ jsize (jappend a v) = S (jsize a) ∧
    at_index (jappend a v) (jsize a) = v ∧
    (∀ i, (i < jsize a)%nat → at_index (jappend a v) i = at_index a i);
  emptyObject_is k : isObject emptyObject = true ∧ isMember emptyObject k = false;
  set_key_is o k v k' : isObject o = true →
    isObject (set_key o k v) = true ∧
    isMember (set_key o k v) k' = bool_decide (k' = k) || isMember o k' ∧
    at_key (set_key o k v) k' = if decide (k' = k) then v else at_key o k'
}.

(** ** roscpp: [ros::Time], [ros::Duration] *)

(** The constructors normalise their arguments and may throw. *)
Class RosTime := {
  ros_Time : Z → Z → fallible (Z * Z);
  ros_Duration : Z → Z → fallible (Z * Z)
}.

(** A pair that is already normalised is kept, a constructed duration is
    normalised, and the exceptions thrown are roscpp's. *)
Class RosTimeLaws `{RosTime} := {
  ros_Time_normal sec nsec :
    0 <= sec < 2 ^ 32 → 0 <= nsec < 10 ^ 9 → ros_Time sec nsec = Ok (sec, nsec);
  ros_Duration_normal sec nsec :
    - 2 ^ 31 <= sec < 2 ^ 31 → 0 <= nsec < 10 ^ 9 → ros_Duration sec nsec = Ok (sec, nsec);
  ros_Duration_range sec nsec sec' nsec' :
    ros_Duration sec nsec = Ok (sec', nsec') →
    - 2 ^ 31 <= sec' < 2 ^ 31 ∧ 0 <= nsec' < 10 ^ 9;
  ros_Time_foreign sec nsec : fails_with foreign (ros_Time sec nsec);
  ros_Duration_foreign sec nsec : fails_with foreign (ros_Duration sec nsec)
}.

(** ** ros_babel_fish: dynamic messages *)

(** [ros_babel_fish::MessageTypes] *)
Inductive MessageType :=
| TNone | TBool | TUInt8 | TUInt16 | TUInt32 | TUInt64 | TInt8 | TInt16 | TInt32 | TInt64
| TFloat32 | TFloat64 | TString | TTime | TDuration | TCompound | TArray.

#[export] Instance MessageType_eq_dec : EqDecision MessageType.
Proof. solve_decision. Defined.

(** The value of a scalar message, as [value<T>()] returns it for the type [T]
    that [type()] announces. *)
Inductive Scalar :=
| VBool (b : bool)
| VUInt8 (z : Z) | VUInt16 (z : Z) | VUInt32 (z : Z) | VUInt64 (z : Z)
| VInt8 (z : Z) | VInt16 (z : Z) | VInt32 (z : Z) | VInt64 (z : Z)
| VFloat32 (f : float) | VFloat64 (f : double)
| VString (s : string)
| VTime (sec nsec : Z) | VDuration (sec nsec : Z).

Definition scalar_type (s : Scalar) : MessageType :=
  match s with
  | VBool _ => TBool
  | VUInt8 _ => TUInt8 | VUInt16 _ => TUInt16 | VUInt32 _ => TUInt32 | VUInt64 _ => TUInt64
  | VInt8 _ => TInt8 | VInt16 _ => TInt16 | VInt32 _ => TInt32 | VInt64 _ => TInt64
  | VFloat32 _ => TFloat32 | VFloat64 _ => TFloat64
  | VString _ => TString | VTime _ _ => TTime | VDuration _ _ => TDuration
  end.

(** What a message shows through [type()], [as<...>()], [value<T>()], [keys()],
    [values()], [elementType()], [isFixedSize()], [length()] and [operator[]]. *)
Inductive View (M : Type) :=
| ScalarMessage (s : Scalar)
| CompoundMessage (keys : list string) (values : list M)
| ArrayMessage (elementType : MessageType) (isFixedSize : bool) (elements : list Scalar)
| CompoundArrayMessage (isFixedSize : bool) (elements : list M)
| OtherArrayMessage (length : nat)   (* elements of a type the codec does not handle *)
| OtherMessage.                      (* None, or a type the codec does not handle *)
Arguments ScalarMessage {M}.
Arguments CompoundMessage {M}.
Arguments ArrayMessage {M}.
Arguments CompoundArrayMessage {M}.
Arguments OtherArrayMessage {M}.
Arguments OtherMessage {M}.

(** Mutation through a [Message&] is a function to the mutated message:
    [set_values] and [set_child] give the message after its children were
    modified through the references [values()] and [operator[]] return. *)
Class BabelFish (M : Type) := {
  view : M → View M;
  set_scalar : M → Scalar → M;              (* operator= *)
  set_values : M → list M → M;
  array_assign : M → nat → Scalar → M;      (* ArrayMessage<T>::assign *)
  array_append : M → Scalar → M;            (* ArrayMessage<T>::append *)
  empty_child : M → M;                      (* the message appendEmpty() adds *)
  append_empty : M → M;                     (* CompoundArrayMessage::appendEmpty *)
  set_child : M → nat → M → M
}.

Class BabelFishLaws (M : Type) `{BabelFish M} := {
  view_set_scalar m s s' : view m = ScalarMessage s → scalar_type s' = scalar_type s →
    view (set_scalar m s') = ScalarMessage s';
  view_set_values m ks vs vs' : view m = CompoundMessage ks vs → length vs' = length vs →
    view (set_values m vs') = CompoundMessage ks vs';
  view_array_assign m t l i s : view m = ArrayMessage t true l → scalar_type s = t →
    (i < length l)%nat → view (array_assign m i s) = ArrayMessage t true (<[i:=s]> l);
  view_array_append m t l s : view m = ArrayMessage t false l → scalar_type s = t →
    view (array_append m s) = ArrayMessage t false (l ++ [s]);
  view_append_empty m l : view m = CompoundArrayMessage false l →
    view (append_empty m) = CompoundArrayMessage false (l ++ [empty_child m]) ∧
    empty_child (append_empty m) = empty_child m;
  view_set_child m f l i c : view m = CompoundArrayMessage f l → (i < length l)%nat →
    view (set_child m i c) = CompoundArrayMessage f (<[i:=c]> l) ∧
    empty_child (set_child m i c) = empty_child m;
  array_element_type m t f l : view m = ArrayMessage t f l →
    t ≠ TCompound ∧ t ≠ TArray ∧ t ≠ TNone ∧ Forall (λ s, scalar_type s = t) l
}.

(** ** ros_babel_fish: types, templates and serialisation *)

(** [ServiceDescription]: [None] for a null [request] or [response] pointer,
    [Some None] for one whose [message_template] is null. *)
Record ServiceDescription (T : Type) := MkServiceDescription {
  md5 : string;
  request_description : option (option T);
  response_description : option (option T)
}.
Arguments MkServiceDescription {T}.
Arguments md5 {T}.
Arguments request_description {T}.
Arguments response_description {T}.

(** Pointers that a call may return null are options.  [B] is the serialised
    form ([BabelFishMessage]) and [T] a message template. *)
Class BabelFishTypes (M T B : Type) := {
  babel_createMessage : string → fallible (option M);
  babel_getServiceDescription : string → fallible (option (ServiceDescription T));
  babel_translateMessage : M → fallible (option B);
  createEmptyMessageFromTemplate : T → fallible (option M);
  (* the message read from a buffer, and how many bytes of it were read *)
  createMessageFromTemplate : T → list byte → fallible (option M * Z);
  sizeInBytes : M → Z;
  writeToStream : M → list byte;
  serialized_size : B → Z
}.

(** The library throws none of this program's own exceptions. *)
Class BabelFishTypesLaws (M T B : Type) `{BabelFishTypes M T B} := {
  getServiceDescription_foreign type :
    fails_with foreign (babel_getServiceDescription type);
  createEmpty_foreign t : fails_with foreign (createEmptyMessageFromTemplate t)
}.
