(* ===== verification/Instances.v ===== *)
(** * Concrete instances of the library interfaces

    Trees for [Json::Value] and for dynamic messages, and roscpp's normalising
    time constructors.  They show that the laws of [Libraries] can hold together
    and give the examples of the development something to compute with; no
    theorem about the program depends on them. *)

From Stdlib Require Import SpecFloat.
From S2P Require Import Prelude Bytes Errors Floats Libraries.
Local Open Scope Z_scope.

(** ** JSON values *)

Inductive json :=
| JNull | JBool (b : bool) | JInt (z : Z) | JUInt (z : Z) | JReal (d : double)
| JString (s : string) | JArray (l : list json) | JObject (l : list (string * json)).

Fixpoint assoc {A} (l : list (string * A)) (k : string) : option A :=
  match l with
  | [] => None
  | (k', v) :: l => if bool_decide (k = k') then Some v else assoc l k
  end.

Fixpoint assoc_set {A} (l : list (string * A)) (k : string) (v : A) : list (string * A) :=
  match l with
  | [] => [(k, v)]
  | (k', v') :: l => if bool_decide (k = k') then (k, v) :: l else (k', v') :: assoc_set l k v
  end.

Lemma assoc_set_lookup {A} (l : list (string * A)) k v k' :
  assoc (assoc_set l k v) k' = if decide (k' = k) then Some v else assoc l k'.
Proof.
  induction l as [|[k0 v0] l IH]; cbn.
  - case_bool_decide; case_decide; naive_solver.
  - repeat (case_bool_decide || case_decide || cbn); try naive_solver.
    all: rewrite ?IH; repeat case_decide; naive_solver.
Qed.

Lemma assoc_is_Some {A} (l : list (string * A)) k : k ∈ l.*1 ↔ is_Some (assoc l k).
Proof.
  induction l as [|[k0 v0] l IH]; cbn.
  - split; [set_solver|by intros [? ?]].
  - rewrite elem_of_cons, IH. case_bool_decide; naive_solver.
Qed.

(** An integer as a double, rounded. *)
Definition double_of_Z (z : Z) : double := binary_normalize 53 1024 z 0 false.

(** A [spec_float] stored as a double. *)
Definition as_double (x : spec_float) : double :=
  if valid_double x then x else S754_zero false.

Lemma as_double_valid x : valid_double (as_double x) = true.
Proof. unfold as_double. by destruct (valid_double x) eqn:E. Qed.

#[export] Instance json_cpp : JsonCpp json := {|
  isString v := match v with JString _ => true | _ => false end;
  isIntegral v := match v with JInt _ | JUInt _ => true | _ => false end;
  isUInt64 v := match v with JInt z => 0 <=? z | JUInt _ => true | _ => false end;
  isInt64 v := match v with JInt _ => true | JUInt z => z <? 2 ^ 63 | _ => false end;
  isNumeric v := match v with JInt _ | JUInt _ | JReal _ => true | _ => false end;
  isBool v := match v with JBool _ => true | _ => false end;
  isObject v := match v with JObject _ => true | _ => false end;
  isArray v := match v with JArray _ => true | _ => false end;
  asString v := match v with JString s => s | _ => "" end;
  asUInt64 v := match v with JInt z | JUInt z => z | _ => 0 end;
  asInt64 v := match v with JInt z | JUInt z => z | _ => 0 end;
  asDouble v := as_double (match v with JInt z | JUInt z => double_of_Z z | JReal d => d
                           | _ => S754_zero false end);
  asBool v := match v with JBool b => b | _ => false end;
  jsize v := match v with JArray l => length l | JObject l => length l | _ => 0%nat end;
  at_index v i := match v with JArray l => default JNull (l !! i) | _ => JNull end;
  getMemberNames v := match v with JObject l => l.*1 | _ => [] end;
  isMember v k := match v with JObject l => bool_decide (is_Some (assoc l k)) | _ => false end;
  at_key v k := match v with JObject l => default JNull (assoc l k) | _ => JNull end;
  ofBool := JBool;
  ofUInt := JUInt;
  ofInt := JInt;
  ofUInt64 := JUInt;
  ofString := JString;
  ofDouble := JReal;
  emptyArray := JArray [];
  emptyObject := JObject [];
  jappend v x := match v with JArray l => JArray (l ++ [x]) | _ => v end;
  set_key v k x := match v with JObject l => JObject (assoc_set l k x) | _ => v end
|}.

#[export] Instance json_cpp_laws : JsonCppLaws json.
Proof.
  split; cbn; try done.
  - intros [] k ?; try done. rewrite bool_decide_eq_true. apply assoc_is_Some.
  - intros d Hd. unfold as_double. by rewrite Hd.
  - intros v. apply as_double_valid.
  - intros [] v ?; try done. split; [done|]. split; [rewrite length_app; cbn; lia|]. split.
    + by rewrite lookup_app_r, Nat.sub_diag.
    + intros i Hi. by rewrite lookup_app_l.
  - intros [] k v k' ?; try done. split; [done|]. rewrite assoc_set_lookup.
    case_decide; subst; (split; [|done]).
    + by rewrite (bool_decide_true (k = k)).
    + by rewrite (bool_decide_false (k' = k)).
Qed.

(** ** Times *)

Definition normalise (lo hi sec nsec : Z) : fallible (Z * Z) :=
  let sec' := sec + nsec / 10 ^ 9 in
  if (lo <=? sec') && (sec' <=? hi) then Ok (sec', nsec mod 10 ^ 9)
  else Err (StdExn "Time is out of dual 32-bit range").

#[export] Instance ros_time : RosTime := {|
  ros_Time := normalise 0 (2 ^ 32 - 1);
  ros_Duration := normalise (- 2 ^ 31) (2 ^ 31 - 1)
|}.

Lemma normalise_normal lo hi sec nsec :
  lo <= sec <= hi → 0 <= nsec < 10 ^ 9 → normalise lo hi sec nsec = Ok (sec, nsec).
Proof.
  intros Hs Hn. unfold normalise. rewrite Z.div_small, Z.mod_small, Z.add_0_r by lia.
  by rewrite !(proj2 (Z.leb_le _ _)) by lia.
Qed.

#[export] Instance ros_time_laws : RosTimeLaws.
Proof.
  split; cbn [ros_Time ros_Duration ros_time].
  - intros. apply normalise_normal; lia.
  - intros. apply normalise_normal; lia.
  - intros sec nsec sec' nsec'. unfold normalise.
    destruct (_ && _) eqn:E; [|done]. apply andb_true_iff in E.
    rewrite !Z.leb_le in E. intros [= <- <-].
    pose proof (Z.mod_pos_bound nsec (10 ^ 9) ltac:(lia)). lia.
  - intros. unfold normalise. by destruct (_ && _).
  - intros. unfold normalise. by destruct (_ && _).
Qed.

(** ** Dynamic messages *)

Inductive msg :=
| MScalar (s : Scalar)
| MCompound (keys : list string) (values : list msg)
| MArray (t : MessageType) (fixed : bool) (elements : list Scalar)
| MCompoundArray (fixed : bool) (element : msg) (elements : list msg)
| MNone.

(** Only arrays of scalars of one type are arrays of that type. *)
Definition well_typed_array (t : MessageType) (l : list Scalar) : bool :=
  bool_decide (t ≠ TCompound ∧ t ≠ TArray ∧ t ≠ TNone ∧ Forall (λ s, scalar_type s = t) l).

#[export] Instance msg_babel : BabelFish msg := {|
  view m :=
    match m with
    | MScalar s => ScalarMessage s
    | MCompound ks vs => CompoundMessage ks vs
    | MArray t f l => if well_typed_array t l then ArrayMessage t f l
                      else OtherArrayMessage (length l)
    | MCompoundArray f _ l => CompoundArrayMessage f l
    | MNone => OtherMessage
    end;
  set_scalar m s := match m with MScalar _ => MScalar s | _ => m end;
  set_values m vs := match m with MCompound ks _ => MCompound ks vs | _ => m end;
  array_assign m i s := match m with MArray t f l => MArray t f (<[i:=s]> l) | _ => m end;
  array_append m s := match m with MArray t f l => MArray t f (l ++ [s]) | _ => m end;
  empty_child m := match m with MCompoundArray _ e _ => e | _ => MNone end;
  append_empty m := match m with MCompoundArray f e l => MCompoundArray f e (l ++ [e]) | _ => m end;
  set_child m i c := match m with MCompoundArray f e l => MCompoundArray f e (<[i:=c]> l) | _ => m end
|}.

Lemma view_msg_array m t f l :
  view m = ArrayMessage t f l → m = MArray t f l ∧ well_typed_array t l = true.
Proof. destruct m; cbn; try done. destruct (well_typed_array _ _) eqn:E; naive_solver. Qed.

Lemma well_typed_app t l l' :
  well_typed_array t l = true → Forall (λ s, scalar_type s = t) l' →
  well_typed_array t (l ++ l') = true.
Proof. unfold well_typed_array. rewrite !bool_decide_eq_true, Forall_app. tauto. Qed.

Lemma well_typed_insert t l i s :
  well_typed_array t l = true → scalar_type s = t → well_typed_array t (<[i:=s]> l) = true.
Proof.
  unfold well_typed_array. rewrite !bool_decide_eq_true. intros (?&?&?&?) ?.
  split_and!; [done..|]. by apply Forall_insert.
Qed.

#[export] Instance msg_babel_laws : BabelFishLaws msg.
Proof.
  split.
  - intros [] s1 s2; cbn; try done. by destruct (well_typed_array _ _).
  - intros [] ks1 vs1 vs2; cbn; try done; [naive_solver|]. by destruct (well_typed_array _ _).
  - intros m t l i s [-> Hw]%view_msg_array Hs _. cbn. by rewrite well_typed_insert.
  - intros m t l s [-> Hw]%view_msg_array Hs. cbn. rewrite well_typed_app; [done..|].
    by constructor.
  - intros [] l1; cbn; try done; [by destruct (well_typed_array _ _)|]. naive_solver.
  - intros [] f1 l1 i1 c1; cbn; try done; [by destruct (well_typed_array _ _)|]. naive_solver.
  - intros m t f l [-> Hw]%view_msg_array. by apply bool_decide_eq_true in Hw.
Qed.

(** ** Types and serialisation

    One service type, [demo_srvs/Toggle], with a boolean and a 32-bit number in
    the request and a boolean in the response, and one message type. *)

Fixpoint wire (m : msg) : list byte :=
  match m with
  | MScalar (VBool b) => [byte_of (if b then 1 else 0)]
  | MScalar (VUInt32 z) => le_encode 4 z
  | MCompound _ values => (fix go l := match l with [] => [] | v :: l => wire v ++ go l end) values
  | _ => []
  end.

(** Reads a message of the template's shape off the front of a buffer. *)
Fixpoint parse (template : msg) (l : list byte) : option (msg * list byte) :=
  match template with
  | MScalar (VBool _) =>
      match l with [] => None | b :: l => Some (MScalar (VBool (negb (byte_val b =? 0))), l) end
  | MScalar (VUInt32 _) =>
      if Nat.ltb (length l) 4 then None
      else Some (MScalar (VUInt32 (le_decode (take 4 l))), drop 4 l)
  | MCompound keys values =>
      match (fix go vs l :=
               match vs with
               | [] => Some ([], l)
               | v :: vs =>
                   match parse v l with
                   | None => None
                   | Some (v, l) => match go vs l with None => None
                                    | Some (vs, l) => Some (v :: vs, l) end
                   end
               end) values l with
      | None => None
      | Some (values, l) => Some (MCompound keys values, l)
      end
  | _ => None
  end.

Definition toggle_request : msg :=
  MCompound ["on"; "level"] [MScalar (VBool false); MScalar (VUInt32 0)].
Definition toggle_response : msg := MCompound ["success"] [MScalar (VBool false)].
Definition toggle_description : ServiceDescription msg :=
  MkServiceDescription "0123456789abcdef0123456789abcdef"
    (Some (Some toggle_request)) (Some (Some toggle_response)).

#[export] Instance msg_types : BabelFishTypes msg msg (list byte) := {|
  babel_createMessage type :=
    if bool_decide (type = "demo_msgs/Flag") then Ok (Some toggle_response)
    else Err (StdExn "unknown type");
  babel_getServiceDescription type :=
    if bool_decide (type = "demo_srvs/Toggle") then Ok (Some toggle_description) else Ok None;
  babel_translateMessage m := Ok (Some (wire m));
  createEmptyMessageFromTemplate t := Ok (Some t);
  createMessageFromTemplate t l :=
    match parse t l with
    | None => Ok (None, 0)
    | Some (m, rest) => Ok (Some m, Z.of_nat (length l) - Z.of_nat (length rest))
    end;
  sizeInBytes m := Z.of_nat (length (wire m));
  writeToStream := wire;
  serialized_size l := Z.of_nat (length l)
|}.

#[export] Instance msg_types_laws : BabelFishTypesLaws msg msg (list byte).
Proof. split; cbn; [|done]. intros type. by case_bool_decide. Qed.
