(* ===== verification/TypeRegistry.v ===== *)
(** * The type registry (src/type_registry.cpp)

    Resolution of message and service types through ros_babel_fish, with the
    library's exceptions turned into typed errors.  The mutex serialises calls
    into the library and does not appear: each call is one atomic step. *)

From S2P Require Import Prelude Bytes Errors Libraries.

(** [catch (const std::exception&)] around [r]. *)
Definition catch_std {A} (r : fallible A) (handler : exn → exn) : fallible A :=
  match r with
  | Ok a => Ok a
  | Err OtherExn => Err OtherExn
  | Err x => Err (handler x)
  end.

Definition typeFailure (kind type : string) (exception : exn) : string :=
  "unable to resolve ROS1 " +:+ kind +:+ " type '" +:+ type +:+ "': " +:+
  exn_what exception.

Section types.
Context {M T B : Type} `{BabelFishTypes M T B}.

Definition createMessage (type : string) : fallible (option M) :=
  catch_std (babel_createMessage type)
    (λ exception, permanentError "message_type_not_found"
                    (typeFailure "message" type exception)).

(** The [catch (const Ros1ToolsError&)] clause rethrows. *)
Definition resolveService (type : string) : fallible (ServiceDescription T) :=
  match (description ← babel_getServiceDescription type;
         match description with
         | None => Err (permanentError "service_type_not_found"
                          ("unable to resolve ROS1 service type '" +:+ type +:+ "'"))
         | Some description => Ok description
         end) with
  | Err (StdExn w) =>
      Err (permanentError "service_type_not_found" (typeFailure "service" type (StdExn w)))
  | r => r
  end.

Definition createServiceRequest (description : ServiceDescription T) : fallible (option M) :=
  match request_description description with
  | Some (Some message_template) => createEmptyMessageFromTemplate message_template
  | _ => Err (permanentError "invalid_service_description"
                "ROS1 service request description is incomplete")
  end.

Definition createServiceResponse (description : ServiceDescription T) : fallible (option M) :=
  match response_description description with
  | Some (Some message_template) => createEmptyMessageFromTemplate message_template
  | _ => Err (permanentError "invalid_service_description"
                "ROS1 service response description is incomplete")
  end.

Definition serialize (message : option M) : fallible (option B) :=
  match message with
  | None => Err (permanentError "invalid_message" "ROS1 message is empty")
  | Some message =>
      catch_std (babel_translateMessage message)
        (λ exception, permanentError "message_serialization_failed"
           ("unable to serialize ROS1 message: " +:+ exn_what exception))
  end.

(** What [advertise] does with the answer of [babel_fish_.advertise]. *)
Definition advertise_result {P} (type topic : string) (answer : fallible P) : fallible P :=
  catch_std answer
    (λ exception, permanentError "publisher_advertise_failed"
       ("unable to advertise ROS1 topic '" +:+ topic +:+ "' as '" +:+ type +:+ "': " +:+
        exn_what exception)).
End types.

(** ** Errors *)

Lemma catch_std_fails {A} (P : exn → Prop) (r : fallible A) h :
  P OtherExn → (∀ x, P (h x)) → fails_with P (catch_std r h).
Proof. destruct r as [|[| |]]; cbn; auto. Qed.

Section type_errors.
Context {M T B : Type} `{BabelFishTypes M T B} `{!BabelFishTypesLaws M T B}.

Lemma createMessage_fails t : fails_with certain_error (createMessage t).
Proof. by apply catch_std_fails. Qed.

Lemma serialize_fails (m : option M) : fails_with certain_error (serialize m).
Proof. destruct m; [by apply catch_std_fails|done]. Qed.

Lemma advertise_fails {P} t topic (r : fallible P) :
  fails_with certain_error (advertise_result t topic r).
Proof. by apply catch_std_fails. Qed.

Lemma createEmpty_fails (t : T) :
  fails_with certain_error (createEmptyMessageFromTemplate t).
Proof. eapply fails_impl; [apply foreign_certain|apply createEmpty_foreign]. Qed.

Lemma createServiceRequest_fails d : fails_with certain_error (createServiceRequest d).
Proof. unfold createServiceRequest. fails. apply createEmpty_fails. Qed.

Lemma createServiceResponse_fails d : fails_with certain_error (createServiceResponse d).
Proof. unfold createServiceResponse. fails. apply createEmpty_fails. Qed.

Lemma resolveService_fails t : fails_with certain_error (resolveService t).
Proof.
  unfold resolveService. pose proof (getServiceDescription_foreign t) as Hf.
  destruct (babel_getServiceDescription t) as [[d|]|[e|w|]]; try done.
Qed.
End type_errors.
