(* ===== verification/Os.v ===== *)
(** * The operating system as the service call sees it

    Answers of the clocks, of the cancellation callback and of socket calls, by
    tick, and the primitive computations built on them. *)

From S2P Require Import Prelude Bytes Errors Effects.
Local Open Scope Z_scope.

Inductive errno := EINTR | EAGAIN | EWOULDBLOCK | EOTHER (number : Z).

#[export] Instance errno_eq_dec : EqDecision errno.
Proof. solve_decision. Defined.

(** [errno != EAGAIN && errno != EWOULDBLOCK] *)
Definition not_again (e : errno) : bool :=
  match e with EAGAIN | EWOULDBLOCK => false | _ => true end.

Definition POLLIN : Z := 1.
Definition POLLOUT : Z := 4.
Definition POLLERR : Z := 8.
Definition POLLHUP : Z := 16.
Definition POLLNVAL : Z := 32.

(** [(revents & mask) != 0] *)
Definition has_event (revents mask : Z) : bool := negb (Z.land revents mask =? 0).
Definition poll_failure : Z := Z.lor (Z.lor POLLERR POLLHUP) POLLNVAL.

Inductive PollAnswer :=
| PollError (e : errno)
| PollTimeout
| PollEvents (revents : Z).

(** An interrupted or failed call, or the number of bytes the call took (the
    bytes themselves for [recv]); at most as many as were asked for. *)
Inductive SendAnswer := SendError (e : errno) | SendCount (n : nat).
Inductive RecvAnswer := RecvError (e : errno) | RecvBytes (l : list byte).

Record Os := MkOs {
  loop_bound : nat;
  cancel_at : nat → bool;
  system_nanos : nat → Z;
  steady_nanos : nat → Z;
  poll_at : nat → PollAnswer;
  send_at : nat → SendAnswer;
  recv_at : nat → RecvAnswer;
  strerror : errno → string
}.

(** Events on the socket are shared by both ends of the protocol. *)
Class SocketEvent (ev : Type) := {
  Sent : list byte → ev;
  Received : list byte → ev
}.

Section primitives.
Context {ev st : Type} `{SocketEvent ev} (os : Os).

Definition system_now : comp ev st Z := ask (system_nanos os).
Definition steady_now : comp ev st Z := ask (steady_nanos os).
Definition poll (timeout : Z) : comp ev st PollAnswer := ask (poll_at os).

(** [send] accepts a prefix of the bytes. *)
Definition send (bytes : list byte) : comp ev st SendAnswer :=
  answer ← ask (send_at os);
  match answer with
  | SendCount n =>
      let n := Nat.min n (length bytes) in
      when (negb (Nat.eqb n 0)) (emit (Sent (take n bytes)));;
      mret (SendCount n)
  | SendError e => mret (SendError e)
  end.

(** [recv] returns at most [size] bytes, none at the end of the stream. *)
Definition recv (size : nat) : comp ev st RecvAnswer :=
  answer ← ask (recv_at os);
  match answer with
  | RecvBytes l =>
      let l := take size l in
      when (negb (bool_decide (l = []))) (emit (Received l));;
      mret (RecvBytes l)
  | RecvError e => mret (RecvError e)
  end.
End primitives.
