(* ===== verification/HelperProtocol.v ===== *)
(** * The private service-helper protocol (include/.../service_helper_protocol.hpp)

    The Adapter and its one-shot helper exchange 64-byte frames over an
    inherited socketpair.  This file has the frame record, the constructors
    and validators of the header, the object representation of a frame
    ([frame_bytes], [frame_of_bytes]), which is what the raw reads and writes of the
    sources put on the socket, and the theorem that each validator accepts exactly
    the frames its constructor builds. *)

From S2P Require Import Prelude Bytes.
Local Open Scope Z_scope.

Definition kServiceHelperProtocolMagic : Z := 0x58325253.
Definition kServiceHelperProtocolVersion : Z := 1.
Definition kMaximumServiceNameBytes : Z := 4096.
Definition kServiceMd5Bytes : Z := 32.
Definition kMaximumServicePayloadBytes : Z := 8 * 1024 * 1024.
Definition kMaximumServiceWaitMilliseconds : Z := 300000.

Inductive ServiceHelperFrameKind := kRequest | kReadyFrame | kCommit | kResponse.
Inductive ServiceHelperReadyStatus := kReady | kServiceUnavailable | kReadyProtocolError.
Inductive ServiceHelperResponseStatus :=
| kCompleted | kCallFailed | kResponseTooLarge | kResponseProtocolError.

Definition frame_kind_value (k : ServiceHelperFrameKind) : Z :=
  match k with kRequest => 1 | kReadyFrame => 2 | kCommit => 3 | kResponse => 4 end.
Definition ready_status_value (s : ServiceHelperReadyStatus) : Z :=
  match s with kReady => 1 | kServiceUnavailable => 2 | kReadyProtocolError => 3 end.
Definition response_status_value (s : ServiceHelperResponseStatus) : Z :=
  match s with
  | kCompleted => 1 | kCallFailed => 2 | kResponseTooLarge => 3
  | kResponseProtocolError => 4
  end.

Record ServiceHelperFrame := MkFrame {
  magic : Z;
  version : Z;
  kind : Z;
  request_id : Z;
  status : Z;
  service_name_bytes : Z;
  service_md5_bytes : Z;
  payload_bytes : Z;
  wait_for_service_ms : Z;
  reserved : list byte
}.

(** [ServiceHelperFrame frame{};]: every field zero. *)
Definition zero_reserved : list byte := replicate 28 "000"%char.

Fixpoint serviceHelperBytesAreZero (l : list byte) : bool :=
  match l with
  | [] => true
  | b :: l => if negb (byte_val b =? 0) then false else serviceHelperBytesAreZero l
  end.

Definition hex_character (c : byte) : bool :=
  let character := byte_val c in
  let decimal := (byte_val "0" <=? character) && (character <=? byte_val "9") in
  let lower_hex := (byte_val "a" <=? character) && (character <=? byte_val "f") in
  let upper_hex := (byte_val "A" <=? character) && (character <=? byte_val "F") in
  negb (negb decimal && negb lower_hex && negb upper_hex).

Definition validServiceMd5 (value : string) : bool :=
  if negb (Z.of_nat (String.length value) =? kServiceMd5Bytes) then false
  else forallb hex_character (string_bytes value).

Definition makeServiceHelperRequest
    (request_id service_name_bytes service_md5_bytes payload_bytes
     wait_for_service_ms : Z) : ServiceHelperFrame :=
  MkFrame kServiceHelperProtocolMagic kServiceHelperProtocolVersion
    (frame_kind_value kRequest) request_id 0
    (u32 service_name_bytes) (u32 service_md5_bytes) (u32 payload_bytes)
    wait_for_service_ms zero_reserved.

Definition makeServiceHelperReady (request_id : Z) (status : ServiceHelperReadyStatus)
    : ServiceHelperFrame :=
  MkFrame kServiceHelperProtocolMagic kServiceHelperProtocolVersion
    (frame_kind_value kReadyFrame) request_id (ready_status_value status)
    0 0 0 0 zero_reserved.

Definition makeServiceHelperCommit (request_id : Z) : ServiceHelperFrame :=
  MkFrame kServiceHelperProtocolMagic kServiceHelperProtocolVersion
    (frame_kind_value kCommit) request_id 0 0 0 0 0 zero_reserved.

Definition makeServiceHelperResponse (request_id : Z)
    (status : ServiceHelperResponseStatus) (payload_bytes : Z) : ServiceHelperFrame :=
  MkFrame kServiceHelperProtocolMagic kServiceHelperProtocolVersion
    (frame_kind_value kResponse) request_id (response_status_value status)
    0 0 (u32 payload_bytes) 0 zero_reserved.

Definition validServiceHelperFrameBase (frame : ServiceHelperFrame) : bool :=
  (magic frame =? kServiceHelperProtocolMagic) &&
  (version frame =? kServiceHelperProtocolVersion) &&
  negb (request_id frame =? 0) &&
  serviceHelperBytesAreZero (reserved frame).

Definition validateServiceHelperRequest (frame : ServiceHelperFrame) : bool :=
  validServiceHelperFrameBase frame &&
  (kind frame =? frame_kind_value kRequest) &&
  (status frame =? 0) && (service_name_bytes frame >? 0) &&
  (service_name_bytes frame <=? kMaximumServiceNameBytes) &&
  (service_md5_bytes frame =? kServiceMd5Bytes) &&
  (payload_bytes frame <=? kMaximumServicePayloadBytes) &&
  (wait_for_service_ms frame <=? kMaximumServiceWaitMilliseconds).

Definition validateServiceHelperReady (frame : ServiceHelperFrame) (id : Z) : bool :=
  if negb (validServiceHelperFrameBase frame) || negb (request_id frame =? id) ||
     negb (kind frame =? frame_kind_value kReadyFrame) ||
     negb (service_name_bytes frame =? 0) || negb (service_md5_bytes frame =? 0) ||
     negb (payload_bytes frame =? 0) || negb (wait_for_service_ms frame =? 0)
  then false
  else
    (status frame =? ready_status_value kReady) ||
    (status frame =? ready_status_value kServiceUnavailable) ||
    (status frame =? ready_status_value kReadyProtocolError).

Definition validateServiceHelperCommit (frame : ServiceHelperFrame) (id : Z) : bool :=
  validServiceHelperFrameBase frame && (request_id frame =? id) &&
  (kind frame =? frame_kind_value kCommit) &&
  (status frame =? 0) && (service_name_bytes frame =? 0) &&
  (service_md5_bytes frame =? 0) && (payload_bytes frame =? 0) &&
  (wait_for_service_ms frame =? 0).

Definition validateServiceHelperResponse (frame : ServiceHelperFrame) (id : Z) : bool :=
  if negb (validServiceHelperFrameBase frame) || negb (request_id frame =? id) ||
     negb (kind frame =? frame_kind_value kResponse) ||
     negb (service_name_bytes frame =? 0) || negb (service_md5_bytes frame =? 0) ||
     negb (wait_for_service_ms frame =? 0) ||
     (payload_bytes frame >? kMaximumServicePayloadBytes)
  then false
  else if status frame =? response_status_value kCompleted then true
  else
    (payload_bytes frame =? 0) &&
    ((status frame =? response_status_value kCallFailed) ||
     (status frame =? response_status_value kResponseTooLarge) ||
     (status frame =? response_status_value kResponseProtocolError)).

(** ** The object representation of a frame

    The sources have no encoder: both ends send and receive the struct as it lies in
    memory ([&frame], [sizeof(frame)]).  What that memory holds is fixed by the
    language and the platform, and these two functions state it: members in the
    order of their declaration, little endian, at the offsets 0, 4, 6, 8, 16, 20, 24,
    28, 32 and 36, where each is aligned without padding, and 64 bytes in all, as
    the [static_assert] after the struct demands. *)

Definition frame_size : nat := 64.

Definition frame_bytes (f : ServiceHelperFrame) : list byte :=
  le_encode 4 (magic f) ++ le_encode 2 (version f) ++ le_encode 2 (kind f) ++
  le_encode 8 (request_id f) ++ le_encode 4 (status f) ++
  le_encode 4 (service_name_bytes f) ++ le_encode 4 (service_md5_bytes f) ++
  le_encode 4 (payload_bytes f) ++ le_encode 4 (wait_for_service_ms f) ++
  reserved f.

Definition field (offset size : nat) (l : list byte) : Z :=
  le_decode (take size (drop offset l)).

Definition frame_of_bytes (l : list byte) : ServiceHelperFrame :=
  MkFrame (field 0 4 l) (field 4 2 l) (field 6 2 l) (field 8 8 l) (field 16 4 l)
    (field 20 4 l) (field 24 4 l) (field 28 4 l) (field 32 4 l) (drop 36 l).

(** The widths of the C++ fields. *)
Definition frame_wf (f : ServiceHelperFrame) : bool :=
  in_width 32 (magic f) && in_width 16 (version f) && in_width 16 (kind f) &&
  in_width 64 (request_id f) && in_width 32 (status f) &&
  in_width 32 (service_name_bytes f) && in_width 32 (service_md5_bytes f) &&
  in_width 32 (payload_bytes f) && in_width 32 (wait_for_service_ms f) &&
  (Z.of_nat (length (reserved f)) =? 28).

(** ** Lemmas on the object representation *)

Lemma frame_wf_spec f :
  frame_wf f = true ↔
  0 <= magic f < 2 ^ 32 ∧ 0 <= version f < 2 ^ 16 ∧ 0 <= kind f < 2 ^ 16 ∧
  0 <= request_id f < 2 ^ 64 ∧ 0 <= status f < 2 ^ 32 ∧
  0 <= service_name_bytes f < 2 ^ 32 ∧ 0 <= service_md5_bytes f < 2 ^ 32 ∧
  0 <= payload_bytes f < 2 ^ 32 ∧ 0 <= wait_for_service_ms f < 2 ^ 32 ∧
  length (reserved f) = 28%nat.
Proof.
  unfold frame_wf. rewrite !andb_true_iff, !in_width_spec, Z.eqb_eq. lia.
Qed.

Lemma length_frame_bytes f :
  length (reserved f) = 28%nat → length (frame_bytes f) = frame_size.
Proof.
  intros H. unfold frame_bytes. rewrite !length_app, !length_le_encode, H. done.
Qed.

(** Reading [size] bytes at [offset] back out of an encoded field. *)
Lemma field_app offset size pre z post :
  length pre = offset → 0 <= z < 256 ^ Z.of_nat size →
  field offset size (pre ++ le_encode size z ++ post) = z.
Proof.
  intros <- Hz. unfold field. rewrite drop_app_length.
  replace (take size _) with (le_encode size z).
  - rewrite le_decode_encode. now apply Z.mod_small.
  - rewrite take_app_le by (rewrite length_le_encode; lia).
    now rewrite take_ge by (rewrite length_le_encode; lia).
Qed.

Lemma le_encode_field offset size l :
  (offset + size <= length l)%nat →
  le_encode size (field offset size l) = take size (drop offset l).
Proof.
  intros H. unfold field. rewrite <- (le_encode_decode (take size (drop offset l))) at 2.
  f_equal. rewrite length_take, length_drop. lia.
Qed.

Lemma field_bound offset size l :
  (offset + size <= length l)%nat →
  0 <= field offset size l < 256 ^ Z.of_nat size.
Proof.
  intros H. unfold field. pose proof (le_decode_bound (take size (drop offset l))) as B.
  rewrite length_take, length_drop in B. now replace (_ `min` _)%nat with size in B by lia.
Qed.

Lemma frame_of_bytes_wf l : length l = frame_size → frame_wf (frame_of_bytes l) = true.
Proof.
  intros H. assert (length l = 64%nat) as H' by exact H.
  apply frame_wf_spec. cbn -[Z.pow drop field].
  repeat match goal with
  | |- 0 <= field ?o ?s l < _ => exact (field_bound o s l ltac:(lia))
  | |- _ ∧ _ => split
  end.
  rewrite length_drop. lia.
Qed.

Lemma frame_of_frame_bytes f : frame_wf f = true → frame_of_bytes (frame_bytes f) = f.
Proof.
  rewrite frame_wf_spec. intros (?&?&?&?&?&?&?&?&?&?).
  destruct f as [mg v k i s n m p w r]; cbn -[Z.pow] in *.
  unfold frame_of_bytes; f_equal; try reflexivity;
  match goal with
  | |- field ?o ?s ?l = ?z =>
      exact (field_app o s (take o l) z (drop (o + s) l) eq_refl ltac:(cbn; lia))
  end.
Qed.

Lemma frame_bytes_of_bytes l :
  length l = frame_size → frame_bytes (frame_of_bytes l) = l.
Proof.
  intros H. assert (length l = 64%nat) as H' by exact H.
  unfold frame_bytes, frame_of_bytes; cbn -[le_encode field drop].
  rewrite !le_encode_field by lia.
  repeat match goal with
  | |- context [take ?n (drop ?m l) ++ drop ?k l] =>
      replace (drop k l) with (drop n (drop m l)) by (rewrite drop_drop; f_equal; lia);
      rewrite (take_drop n (drop m l))
  end.
  apply drop_0.
Qed.

Lemma frame_bytes_inj f g :
  frame_wf f = true → frame_wf g = true → frame_bytes f = frame_bytes g → f = g.
Proof.
  intros Hf Hg H. now rewrite <- (frame_of_frame_bytes f), H, frame_of_frame_bytes.
Qed.

(** ** Lemmas on the validators *)

Lemma bytes_are_zero_spec l :
  serviceHelperBytesAreZero l = true ↔ l = replicate (length l) "000"%char.
Proof.
  induction l as [|b l IH]; cbn; [done|].
  destruct (Z.eqb_spec (byte_val b) 0) as [Hb|Hb]; cbn.
  - rewrite <- (byte_of_val b), Hb. change (byte_of 0) with "000"%char.
    rewrite IH. split; congruence.
  - split; [done|]. intros [= -> _]. done.
Qed.

Lemma frame_base_spec f :
  frame_wf f = true →
  validServiceHelperFrameBase f = true ↔
  magic f = kServiceHelperProtocolMagic ∧ version f = kServiceHelperProtocolVersion ∧
  request_id f ≠ 0 ∧ reserved f = zero_reserved.
Proof.
  rewrite frame_wf_spec. intros Hwf. unfold validServiceHelperFrameBase.
  rewrite !andb_true_iff, !Z.eqb_eq, negb_true_iff, Z.eqb_neq, bytes_are_zero_spec.
  replace (length (reserved f)) with 28%nat by lia. tauto.
Qed.

Lemma base_ok k id s n m p w :
  id ≠ 0 →
  validServiceHelperFrameBase
    (MkFrame kServiceHelperProtocolMagic kServiceHelperProtocolVersion k id s n m p w
       zero_reserved) = true.
Proof.
  intros H. unfold validServiceHelperFrameBase; cbn -[Z.eqb].
  destruct (Z.eqb_spec id 0); [done|]. reflexivity.
Qed.

(** [frame_bool] turns a validator's boolean conditions into equations and
    inequalities on the frame's fields. *)
Ltac frame_bool :=
  repeat rewrite ?andb_true_iff, ?orb_true_iff, ?negb_true_iff, ?orb_false_iff,
    ?negb_false_iff, ?Z.eqb_eq, ?Z.eqb_neq, ?Z.leb_le, ?Z.gtb_lt, ?Z.gtb_ltb, ?Z.ltb_ge.

Ltac frame_ext f :=
  destruct f; unfold makeServiceHelperRequest, makeServiceHelperReady,
    makeServiceHelperCommit, makeServiceHelperResponse; cbn -[Z.pow u32] in *;
  rewrite ?u32_small by lia; f_equal; lia || congruence.

Lemma validate_request_iff f :
  frame_wf f = true →
  validateServiceHelperRequest f = true ↔
  ∃ id name payload wait,
    f = makeServiceHelperRequest id name kServiceMd5Bytes payload wait ∧
    0 < id < 2 ^ 64 ∧ 0 < name <= kMaximumServiceNameBytes ∧
    0 <= payload <= kMaximumServicePayloadBytes ∧
    0 <= wait <= kMaximumServiceWaitMilliseconds.
Proof.
  intros Hwf. pose proof (proj1 (frame_wf_spec f) Hwf) as B.
  unfold validateServiceHelperRequest. frame_bool. rewrite frame_base_spec by done.
  unfold kServiceMd5Bytes, kMaximumServiceNameBytes, kMaximumServicePayloadBytes,
    kMaximumServiceWaitMilliseconds, frame_kind_value. split.
  - intros [[[[[[[(?&?&?&?) ?] ?] ?] ?] ?] ?] ?].
    exists (request_id f), (service_name_bytes f), (payload_bytes f), (wait_for_service_ms f).
    split; [|lia]. frame_ext f.
  - intros (id & name & payload & wait & -> & ? & ? & ? & ?).
    cbn -[u32] in *. rewrite !u32_small by lia. repeat split; lia || done.
Qed.

Lemma validate_ready_iff f id :
  frame_wf f = true →
  validateServiceHelperReady f id = true ↔
  0 < id < 2 ^ 64 ∧ ∃ s, f = makeServiceHelperReady id s.
Proof.
  intros Hwf. pose proof (proj1 (frame_wf_spec f) Hwf) as B.
  unfold validateServiceHelperReady. split.
  - destruct (_ || _) eqn:E; [done|]. revert E. frame_bool. rewrite frame_base_spec by done.
    intros [[[[[[(?&?&?&?) ?] ?] ?] ?] ?] ?] Hs. split; [lia|].
    destruct Hs as [[Hs|Hs]|Hs]; [exists kReady|exists kServiceUnavailable|
      exists kReadyProtocolError]; frame_ext f.
  - intros [Hid [s ->]]. unfold makeServiceHelperReady. rewrite base_ok by lia.
    cbn -[Z.eqb]. rewrite Z.eqb_refl. now destruct s.
Qed.

Lemma validate_commit_iff f id :
  frame_wf f = true →
  validateServiceHelperCommit f id = true ↔
  0 < id < 2 ^ 64 ∧ f = makeServiceHelperCommit id.
Proof.
  intros Hwf. pose proof (proj1 (frame_wf_spec f) Hwf) as B.
  unfold validateServiceHelperCommit. frame_bool. rewrite frame_base_spec by done. split.
  - intros [[[[[[[(?&?&?&?) ?] ?] ?] ?] ?] ?] ?]. split; [lia|]. frame_ext f.
  - intros [Hid ->]. cbn. repeat split; lia || done.
Qed.

Lemma validate_response_iff f id :
  frame_wf f = true →
  validateServiceHelperResponse f id = true ↔
  0 < id < 2 ^ 64 ∧ ∃ s payload,
    f = makeServiceHelperResponse id s payload ∧
    0 <= payload <= kMaximumServicePayloadBytes ∧ (s ≠ kCompleted → payload = 0).
Proof.
  intros Hwf. pose proof (proj1 (frame_wf_spec f) Hwf) as B.
  unfold validateServiceHelperResponse, kMaximumServicePayloadBytes. split.
  - destruct (_ || _) eqn:E; [done|]. revert E. frame_bool. rewrite frame_base_spec by done.
    intros [[[[[[(?&?&?&?) ?] ?] ?] ?] ?] ?] Hs. split; [lia|].
    assert (∃ s, status f = response_status_value s ∧ (s ≠ kCompleted → payload_bytes f = 0))
      as (s & Hs1 & Hs2).
    { destruct (Z.eqb_spec (status f) (response_status_value kCompleted)) as [Es|Es].
      { by exists kCompleted. }
      revert Hs. frame_bool. intros [? [[?|?]|?]];
        [exists kCallFailed|exists kResponseTooLarge|exists kResponseProtocolError]; done. }
    exists s, (payload_bytes f). split; [|split; [lia|done]]. frame_ext f.
  - intros (Hid & s & p & -> & Hp & Hs). unfold makeServiceHelperResponse.
    rewrite base_ok by lia. rewrite u32_small by lia.
    cbn -[Z.eqb Z.gtb]. rewrite Z.eqb_refl.
    destruct (Z.gtb_spec p (8 * 1024 * 1024)); [lia|].
    destruct s; try done; now rewrite Hs by done.
Qed.

Ltac frame_consts :=
  cbn -[u32 Z.pow]; unfold kServiceHelperProtocolMagic, kServiceHelperProtocolVersion.

Lemma commit_wf id : 0 <= id < 2 ^ 64 → frame_wf (makeServiceHelperCommit id) = true.
Proof. intros. apply frame_wf_spec. frame_consts. lia. Qed.

Lemma ready_wf id s : 0 <= id < 2 ^ 64 → frame_wf (makeServiceHelperReady id s) = true.
Proof. intros. apply frame_wf_spec. destruct s; frame_consts; lia. Qed.

Lemma response_wf id s p :
  0 <= id < 2 ^ 64 → frame_wf (makeServiceHelperResponse id s p) = true.
Proof.
  intros. apply frame_wf_spec.
  pose proof (proj1 (in_width_spec _ _) (in_width_u32 p)). destruct s; frame_consts; lia.
Qed.

Lemma request_wf id n m p w :
  0 <= id < 2 ^ 64 → 0 <= w < 2 ^ 32 →
  frame_wf (makeServiceHelperRequest id n m p w) = true.
Proof.
  intros. apply frame_wf_spec. frame_consts.
  pose proof (proj1 (in_width_spec _ _) (in_width_u32 p)).
  pose proof (proj1 (in_width_spec _ _) (in_width_u32 n)).
  pose proof (proj1 (in_width_spec _ _) (in_width_u32 m)). lia.
Qed.
#[export] Hint Resolve commit_wf ready_wf response_wf request_wf : xgc.

(** ** Theorems *)

(** C34: Each validator accepts exactly the frames that the matching constructor
    builds for a non-zero request id and in-limit sizes; in particular a frame
    of one kind, or for another request, is never accepted as another. *)
Theorem validators_accept_exactly_constructed f id :
  frame_wf f = true →
  (validateServiceHelperRequest f = true ↔
     ∃ id name payload wait,
       f = makeServiceHelperRequest id name kServiceMd5Bytes payload wait ∧
       0 < id < 2 ^ 64 ∧ 0 < name <= kMaximumServiceNameBytes ∧
       0 <= payload <= kMaximumServicePayloadBytes ∧
       0 <= wait <= kMaximumServiceWaitMilliseconds) ∧
  (validateServiceHelperReady f id = true ↔
     0 < id < 2 ^ 64 ∧ ∃ s, f = makeServiceHelperReady id s) ∧
  (validateServiceHelperCommit f id = true ↔
     0 < id < 2 ^ 64 ∧ f = makeServiceHelperCommit id) ∧
  (validateServiceHelperResponse f id = true ↔
     0 < id < 2 ^ 64 ∧ ∃ s payload,
       f = makeServiceHelperResponse id s payload ∧
       0 <= payload <= kMaximumServicePayloadBytes ∧ (s ≠ kCompleted → payload = 0)).
Proof.
  intros H. split_and!;
    [by apply validate_request_iff|by apply validate_ready_iff|
     by apply validate_commit_iff|by apply validate_response_iff].
Qed.

Lemma validators_accept_exactly_constructed_witness :
  validateServiceHelperCommit (makeServiceHelperCommit 41) 41 = true.
Proof.
  apply (validators_accept_exactly_constructed (makeServiceHelperCommit 41) 41 eq_refl).
  split; [lia|reflexivity].
Defined.

(** The examples of service_helper_protocol_test.cpp. *)
Example md5_accepts : validServiceMd5 "0123456789abcdef0123456789ABCDEF" = true.
Proof. reflexivity. Qed.
Example md5_rejects :
  validServiceMd5 "0123456789abcdef" = false ∧
  validServiceMd5 "0123456789abcdef0123456789abcdeg" = false.
Proof. split; reflexivity. Qed.
