(* ===== verification/Decimal.v ===== *)
(** * Decimal integers of the C++ standard library

    [to_string] models [std::to_string] on integers, [strto] the scanning that
    [strtol]/[std::stoll]/[std::stoull] share (leading white space, an optional
    sign, the longest run of digits), and [stoll], [stoull], [stoul] the
    conversions with their range errors on 64-bit types.  The lemmas say that
    printing then scanning is the identity and that canonical digit strings are
    exactly the printed ones. *)

From S2P Require Import Prelude Bytes Errors.
Local Open Scope Z_scope.

Definition is_digit (c : byte) : bool :=
  (byte_val "0" <=? byte_val c) && (byte_val c <=? byte_val "9").
Definition digit_val (c : byte) : Z := byte_val c - byte_val "0".
Definition digit_char (d : Z) : byte := byte_of (48 + d).

(** [isspace] in the "C" locale: tab, newline, VT, FF, CR and space. *)
Definition is_space (c : byte) : bool :=
  (byte_val c =? 32) || ((9 <=? byte_val c) && (byte_val c <=? 13)).

Fixpoint digits_value (acc : Z) (l : list byte) : Z :=
  match l with
  | [] => acc
  | c :: l => digits_value (acc * 10 + digit_val c) l
  end.

(** The digits of a non-negative integer; [fuel] bounds their number. *)
Fixpoint to_digits_aux (fuel : nat) (n : Z) (acc : list byte) : list byte :=
  match fuel with
  | O => acc
  | S fuel =>
      let acc := digit_char (n mod 10) :: acc in
      if n <? 10 then acc else to_digits_aux fuel (n / 10) acc
  end.

Definition to_digits (n : Z) : list byte :=
  to_digits_aux (S (Z.to_nat (Z.log2 n))) n [].

Arguments to_digits : simpl never.

Definition to_string (z : Z) : string :=
  bytes_string (if z <? 0 then "-"%char :: to_digits (- z) else to_digits z).

(** Scanning: skipped white space, sign, digits. *)
Fixpoint skip_space (l : list byte) : list byte :=
  match l with
  | c :: l' => if is_space c then skip_space l' else l
  | [] => []
  end.

Fixpoint digit_prefix (l : list byte) : list byte :=
  match l with
  | c :: l => if is_digit c then c :: digit_prefix l else []
  | [] => []
  end.

Definition scan_sign (l : list byte) : bool * list byte :=
  match l with
  | "-"%char :: l => (true, l)
  | "+"%char :: l => (false, l)
  | _ => (false, l)
  end.

(** [None]: no conversion could be performed.  Otherwise the sign, the
    magnitude and the number of characters consumed. *)
Definition strto (s : string) : option (bool * Z * nat) :=
  let l := string_bytes s in
  let l1 := skip_space l in
  let '(neg, l2) := scan_sign l1 in
  let ds := digit_prefix l2 in
  match ds with
  | [] => None
  | _ => Some (neg, digits_value 0 ds, (length l - (length l2 - length ds))%nat)
  end.

Definition INT64_MIN : Z := - 2 ^ 63.
Definition INT64_MAX : Z := 2 ^ 63 - 1.
Definition UINT64_MAX : Z := 2 ^ 64 - 1.
Definition UINT32_MAX : Z := 2 ^ 32 - 1.
Definition INT_MAX : Z := 2 ^ 31 - 1.

Definition stoll (s : string) : fallible (Z * nat) :=
  match strto s with
  | None => Err (StdExn "stoll")
  | Some (neg, m, consumed) =>
      let v := if neg : bool then - m else m in
      if (v <? INT64_MIN) || (v >? INT64_MAX) then Err (StdExn "stoll")
      else Ok (v, consumed)
  end.

Definition stoull (s : string) : fallible (Z * nat) :=
  match strto s with
  | None => Err (StdExn "stoull")
  | Some (neg, m, consumed) =>
      if m >? UINT64_MAX then Err (StdExn "stoull")
      else Ok (if neg : bool then u64 (- m) else m, consumed)
  end.

(** [unsigned long] has 64 bits on the package's targets. *)
Definition stoul (s : string) : fallible Z :=
  match strto s with
  | None => Err (StdExn "stoul")
  | Some (neg, m, _) =>
      if m >? UINT64_MAX then Err (StdExn "stoul")
      else Ok (if neg : bool then u64 (- m) else m)
  end.

(** ** Lemmas: values *)

Lemma is_digit_spec c : is_digit c = true ↔ 0 <= digit_val c <= 9.
Proof.
  unfold is_digit, digit_val. change (byte_val "0") with 48. change (byte_val "9") with 57.
  rewrite andb_true_iff, !Z.leb_le. lia.
Qed.

Lemma digit_val_char d : 0 <= d <= 9 → digit_val (digit_char d) = d.
Proof.
  intros. unfold digit_val, digit_char. rewrite byte_val_of.
  change (byte_val "0") with 48. rewrite Z.mod_small; lia.
Qed.

Lemma digit_char_val c : is_digit c = true → digit_char (digit_val c) = c.
Proof.
  rewrite is_digit_spec. unfold digit_char, digit_val. change (byte_val "0") with 48.
  intros. replace (48 + (byte_val c - 48)) with (byte_val c) by lia. apply byte_of_val.
Qed.

Lemma is_digit_char d : 0 <= d <= 9 → is_digit (digit_char d) = true.
Proof. intros. apply is_digit_spec. rewrite digit_val_char; lia. Qed.

Lemma digits_value_app acc l1 l2 :
  digits_value acc (l1 ++ l2) = digits_value (digits_value acc l1) l2.
Proof. revert acc. induction l1; cbn; auto. Qed.

Lemma digits_value_snoc acc l c :
  digits_value acc (l ++ [c]) = digits_value acc l * 10 + digit_val c.
Proof. by rewrite digits_value_app. Qed.

Abbreviation all_digits l := (Forall (λ c, is_digit c = true) l).

Lemma digits_value_nonneg acc l : 0 <= acc → all_digits l → acc <= digits_value acc l.
Proof.
  intros Ha Hl. revert acc Ha. induction Hl as [|c l Hc Hl IH]; cbn; intros acc Ha; [lia|].
  apply is_digit_spec in Hc. specialize (IH (acc * 10 + digit_val c)). lia.
Qed.

(** ** Lemmas: printing *)

Lemma digits_value_acc acc l :
  digits_value acc l = acc * 10 ^ Z.of_nat (length l) + digits_value 0 l.
Proof.
  revert acc. induction l as [|c l IH]; intros acc; cbn [digits_value length]; [lia|].
  rewrite (IH (acc * 10 + _)), (IH (0 * 10 + _)), Nat2Z.inj_succ, Z.pow_succ_r by lia. ring.
Qed.

Lemma digits_value_bound l :
  all_digits l → 0 <= digits_value 0 l < 10 ^ Z.of_nat (length l).
Proof.
  induction 1 as [|c l Hc Hl IH]; cbn [digits_value length]; [lia|].
  apply is_digit_spec in Hc.
  rewrite digits_value_acc, Nat2Z.inj_succ, Z.pow_succ_r by lia. nia.
Qed.

Lemma to_digits_aux_app fuel n acc :
  to_digits_aux fuel n acc = to_digits_aux fuel n [] ++ acc.
Proof.
  revert n acc. induction fuel as [|fuel IH]; intros; cbn; [done|].
  destruct (n <? 10); [done|].
  rewrite IH, (IH _ [_]), <- app_assoc. done.
Qed.

Lemma to_digits_aux_fuel f1 f2 n acc :
  0 <= n → n < 2 ^ Z.of_nat f1 → n < 2 ^ Z.of_nat f2 → (0 < f1)%nat → (0 < f2)%nat →
  to_digits_aux f1 n acc = to_digits_aux f2 n acc.
Proof.
  revert f2 n acc. induction f1 as [|f1 IH]; intros [|f2] n acc H0 H1 H2 ? ?; try lia.
  cbn. destruct (Z.ltb_spec n 10); [done|].
  assert (n / 10 < 2 ^ Z.of_nat f1 ∧ n / 10 < 2 ^ Z.of_nat f2) as [? ?].
  { rewrite !Nat2Z.inj_succ, !Z.pow_succ_r in * by lia. split; apply Z.div_lt_upper_bound; lia. }
  assert (1 <= n / 10) by (apply Z.div_le_lower_bound; lia).
  apply IH; try lia; destruct f1, f2; cbn in *; lia.
Qed.

Lemma mod10_bound n : 0 <= n mod 10 <= 9.
Proof. pose proof (Z.mod_pos_bound n 10 ltac:(lia)). lia. Qed.
#[local] Hint Resolve mod10_bound is_digit_char : core.

Lemma log2_fuel n : 0 <= n → n < 2 ^ Z.of_nat (S (Z.to_nat (Z.log2 n))).
Proof.
  intros H. rewrite Nat2Z.inj_succ, Z2Nat.id by apply Z.log2_nonneg.
  destruct (Z.eq_dec n 0) as [->|]; [done|]. apply Z.log2_spec. lia.
Qed.

Lemma to_digits_step n :
  0 <= n →
  to_digits n = if n <? 10 then [digit_char n]
                else to_digits (n / 10) ++ [digit_char (n mod 10)].
Proof.
  intros H. unfold to_digits at 1. cbn [to_digits_aux].
  destruct (Z.ltb_spec n 10); [by rewrite Z.mod_small by lia|].
  rewrite to_digits_aux_app. f_equal.
  assert (1 <= n / 10) by (apply Z.div_le_lower_bound; lia).
  assert (1 <= Z.log2 n) by (apply (Z.log2_le_mono 2); lia).
  apply to_digits_aux_fuel; try lia; [|apply log2_fuel; lia].
  rewrite Z2Nat.id by lia. pose proof (Z.log2_spec n ltac:(lia)) as [_ Hn].
  rewrite Z.pow_succ_r in Hn by lia. apply Z.div_lt_upper_bound; lia.
Qed.

(** Strong induction along the digits of a number. *)
Lemma digits_ind (P : Z → Prop) :
  (∀ n, 0 <= n < 10 → P n) → (∀ n, 10 <= n → P (n / 10) → P n) → ∀ n, 0 <= n → P n.
Proof.
  intros H1 H2 n Hn. revert n Hn. apply (Zlt_0_ind P). intros n IH Hn.
  destruct (decide (n < 10)); [apply H1; lia|]. apply H2; [lia|]. apply IH.
  split; [apply Z.div_pos; lia|]. apply Z.div_lt; lia.
Qed.

Lemma digits_value_to_digits n : 0 <= n → digits_value 0 (to_digits n) = n.
Proof.
  revert n. apply digits_ind; [intros n Hn|intros n Hn IH]; rewrite to_digits_step by lia.
  - destruct (Z.ltb_spec n 10); [|lia]. cbn [digits_value]. rewrite digit_val_char; lia.
  - destruct (Z.ltb_spec n 10); [lia|].
    rewrite digits_value_snoc, IH, digit_val_char by done.
    pose proof (Z.div_mod n 10). lia.
Qed.

Lemma all_digits_to_digits n : 0 <= n → all_digits (to_digits n).
Proof.
  revert n. apply digits_ind; [intros n Hn|intros n Hn IH]; rewrite to_digits_step by lia.
  - destruct (Z.ltb_spec n 10); [|lia]. constructor; [apply is_digit_char; lia|constructor].
  - destruct (Z.ltb_spec n 10); [lia|]. apply Forall_app. split; [done|].
    constructor; [auto|constructor].
Qed.

(** Canonical digit strings: not empty, digits only, and no leading zero
    unless the string is "0". *)
Definition canonical_digits (l : list byte) : Prop :=
  l ≠ [] ∧ all_digits l ∧ (head l = Some "0"%char → l = ["0"%char]).

Lemma to_digits_head n :
  0 <= n → ∃ c l, to_digits n = c :: l ∧ (n ≠ 0 → c ≠ "0"%char).
Proof.
  revert n. apply digits_ind; [intros n Hn|intros n Hn IH]; rewrite to_digits_step by lia.
  - destruct (Z.ltb_spec n 10); [|lia]. eexists _, _; split; [done|].
    intros Hn0 E. apply (f_equal digit_val) in E. rewrite digit_val_char in E by lia. done.
  - destruct IH as (c & l & E & Hc). destruct (Z.ltb_spec n 10); [lia|]. rewrite E.
    eexists _, _; split; [done|]. intros _. apply Hc.
    assert (1 <= n / 10) by (apply Z.div_le_lower_bound; lia). lia.
Qed.

Lemma canonical_to_digits n : 0 <= n → canonical_digits (to_digits n).
Proof.
  intros Hn. destruct (to_digits_head n Hn) as (c & l & E & Hc).
  split_and!; [by rewrite E|by apply all_digits_to_digits|].
  rewrite E; cbn. intros [= ->]. destruct (decide (n = 0)) as [->|]; [|naive_solver].
  by vm_compute in E.
Qed.

Lemma to_digits_canonical l :
  canonical_digits l → to_digits (digits_value 0 l) = l.
Proof.
  intros (Hne & Hall & Hz). induction l as [|c l IH] using rev_ind; [done|].
  apply Forall_app in Hall as [Hall Hc]. rewrite Forall_singleton in Hc.
  pose proof (proj1 (is_digit_spec c) Hc) as Bc.
  rewrite digits_value_snoc.
  destruct l as [|c0 l].
  { change (digits_value 0 [] * 10 + digit_val c) with (digit_val c).
    rewrite to_digits_step by lia. destruct (Z.ltb_spec (digit_val c) 10); [|lia].
    by rewrite digit_char_val. }
  assert (c0 ≠ "0"%char) as Hc0.
  { intros ->. specialize (Hz eq_refl). by destruct l. }
  specialize (IH ltac:(done) Hall ltac:(cbn; congruence)).
  inversion Hall as [|?? Hd Hl]; subst. apply is_digit_spec in Hd as Bd.
  assert (digit_val c0 ≠ 0).
  { intros E. apply Hc0. rewrite <- (digit_char_val c0) by done. by rewrite E. }
  assert (1 <= digits_value 0 (c0 :: l)).
  { cbn. etrans; [|apply digits_value_nonneg; [|done]]; lia. }
  rewrite to_digits_step by lia.
  destruct (Z.ltb_spec (digits_value 0 (c0 :: l) * 10 + digit_val c) 10); [lia|].
  rewrite Z.div_add_l, Z.div_small, Z.add_0_r, IH by lia. f_equal.
  rewrite Z.add_comm, Z_mod_plus_full, Z.mod_small by lia. by rewrite digit_char_val.
Qed.

(** ** Lemmas: scanning what was printed *)

Lemma digit_prefix_all l : all_digits l → digit_prefix l = l.
Proof. induction 1 as [|c l Hc _ IH]; cbn; [done|]. by rewrite Hc, IH. Qed.

Lemma digit_not_space c : is_digit c = true → is_space c = false.
Proof.
  rewrite is_digit_spec. unfold digit_val, is_space. change (byte_val "0") with 48.
  intros. destruct (Z.eqb_spec (byte_val c) 32), (Z.leb_spec 9 (byte_val c)),
    (Z.leb_spec (byte_val c) 13); cbn; lia || done.
Qed.

Lemma scan_sign_digit c l : is_digit c = true → scan_sign (c :: l) = (false, c :: l).
Proof.
  rewrite is_digit_spec. intros H. unfold scan_sign.
  destruct c as [[] [] [] [] [] [] [] []]; try reflexivity; vm_compute in H;
    destruct H; exfalso; congruence.
Qed.

(** [signed_digits neg l]: an optional minus sign followed by digits. *)
Definition signed_digits (neg : bool) (l : list byte) : list byte :=
  if neg then "-"%char :: l else l.

Lemma strto_signed_digits neg l :
  l ≠ [] → all_digits l →
  strto (bytes_string (signed_digits neg l)) =
    Some (neg, digits_value 0 l, length (signed_digits neg l)).
Proof.
  intros Hne Hall. unfold strto. rewrite string_bytes_string.
  destruct l as [|c l]; [done|]. inversion Hall as [|?? Hc _]; subst.
  destruct neg; cbn [signed_digits skip_space].
  - change (is_space "-") with false. cbn [scan_sign].
    rewrite digit_prefix_all by done. cbn [length]. do 2 f_equal. lia.
  - rewrite (digit_not_space c Hc), scan_sign_digit by done.
    rewrite digit_prefix_all by done. cbn [length]. do 2 f_equal. lia.
Qed.

Lemma to_string_signed z :
  to_string z = bytes_string (signed_digits (z <? 0) (to_digits (Z.abs z))).
Proof.
  unfold to_string. destruct (Z.ltb_spec z 0); cbn;
    [rewrite Z.abs_neq by lia|rewrite Z.abs_eq by lia]; done.
Qed.

Lemma strto_to_string z :
  strto (to_string z) = Some (z <? 0, Z.abs z, String.length (to_string z)).
Proof.
  rewrite to_string_signed. pose proof (canonical_to_digits (Z.abs z) ltac:(lia)) as (?&?&_).
  rewrite strto_signed_digits by done. rewrite digits_value_to_digits by lia.
  by rewrite <- length_string_bytes, string_bytes_string.
Qed.

Lemma stoll_to_string z :
  stoll (to_string z) =
    if (z <? INT64_MIN) || (z >? INT64_MAX) then Err (StdExn "stoll")
    else Ok (z, String.length (to_string z)).
Proof.
  unfold stoll. rewrite strto_to_string.
  replace (if z <? 0 then - Z.abs z else Z.abs z) with z by (destruct (Z.ltb_spec z 0); lia).
  done.
Qed.

Lemma stoull_to_string z :
  0 <= z →
  stoull (to_string z) =
    if z >? UINT64_MAX then Err (StdExn "stoull") else Ok (z, String.length (to_string z)).
Proof.
  intros H. unfold stoull. rewrite strto_to_string.
  destruct (Z.ltb_spec z 0); [lia|]. by rewrite Z.abs_eq by lia.
Qed.

Lemma to_string_inj z1 z2 : to_string z1 = to_string z2 → z1 = z2.
Proof.
  intros H. apply (f_equal strto) in H. rewrite !strto_to_string in H.
  injection H as H1 H2 _. destruct (Z.ltb_spec z1 0), (Z.ltb_spec z2 0); lia.
Qed.

(** ** Padded digits *)

(** [std::setw(width) << std::setfill(fill)] before a number *)
Definition pad_left (width : nat) (fill : byte) (l : list byte) : list byte :=
  replicate (width - length l) fill ++ l.

Lemma length_to_digits k n :
  (0 < k)%nat → 0 <= n < 10 ^ Z.of_nat k → (length (to_digits n) <= k)%nat.
Proof.
  intros Hk [H0 Hn]. revert k Hk Hn. revert n H0.
  apply (digits_ind (λ n, ∀ k, (0 < k)%nat → n < 10 ^ Z.of_nat k → (length (to_digits n) <= k)%nat));
    [intros n Hn|intros n Hn IH]; intros k Hk Hb; rewrite to_digits_step by lia;
    destruct (Z.ltb_spec n 10); try lia.
  - cbn. lia.
  - destruct k as [|k]; [lia|]. rewrite length_app. cbn [length].
    rewrite Nat2Z.inj_succ, Z.pow_succ_r in Hb by lia.
    assert (n / 10 < 10 ^ Z.of_nat k) as Hb' by (apply Z.div_lt_upper_bound; lia).
    destruct k as [|k]; [cbn in *; lia|]. specialize (IH (S k) ltac:(lia) Hb'). lia.
Qed.

Lemma length_pad_digits k n :
  (0 < k)%nat → 0 <= n < 10 ^ Z.of_nat k → length (pad_left k "0" (to_digits n)) = k.
Proof.
  intros Hk Hn. pose proof (length_to_digits k n Hk Hn). unfold pad_left.
  rewrite length_app, length_replicate. lia.
Qed.

Lemma length_pad_nsec nsec :
  0 <= nsec < 10 ^ 9 → length (pad_left 9 "0" (to_digits nsec)) = 9%nat.
Proof. apply (length_pad_digits 9). lia. Qed.

Lemma all_digits_pad k l : all_digits l → all_digits (pad_left k "0" l).
Proof. intros. apply Forall_app. split; [by apply Forall_replicate|done]. Qed.

Lemma digits_value_pad k l : digits_value 0 (pad_left k "0" l) = digits_value 0 l.
Proof.
  unfold pad_left. rewrite digits_value_app. f_equal.
  induction (k - length l)%nat as [|n IH]; [done|]. cbn [replicate digits_value]. exact IH.
Qed.

Lemma string_bytes_app s1 s2 : string_bytes (s1 +:+ s2) = string_bytes s1 ++ string_bytes s2.
Proof. unfold string_bytes. induction s1 as [|c s1 IH]; [done|]. exact (f_equal (cons c) IH). Qed.

Lemma to_string_bytes n : 0 <= n → string_bytes (to_string n) = to_digits n.
Proof.
  intros. unfold to_string. rewrite string_bytes_string. by destruct (Z.ltb_spec n 0); [lia|].
Qed.
