(* ===== verification/ClockWait.v ===== *)
(** * Waiting for the simulation clock
      (include/.../clock_wait.hpp, src/clock_wait_main.cpp)

    [clockTarget] reads decimal seconds as integer nanoseconds, rounding up;
    [ClockWait.observe] compares integer stamps with that target.  The theorems
    say that the comparison is the exact one on the decimal value, and which
    texts are accepted. *)

From S2P Require Import Prelude Bytes Errors Decimal.
Local Open Scope Z_scope.

(** ** [clockTarget] *)

(** [text.find(c)] on the bytes of a string: [None] is [npos]. *)
Fixpoint find_char (c : byte) (l : list byte) : option nat :=
  match l with
  | [] => None
  | b :: l => if decide (b = c) then Some 0%nat else S <$> find_char c l
  end.

(** The loop over the characters of [whole]. *)
Fixpoint whole_seconds (seconds : Z) (whole : list byte) : fallible Z :=
  match whole with
  | [] => Ok seconds
  | digit :: whole =>
      if negb (is_digit digit) || (seconds >? UINT32_MAX / 10)
      then Err (StdExn "target is outside ROS time")
      else
        let seconds := u64 (seconds * 10 + digit_val digit) in
        if seconds >? UINT32_MAX then Err (StdExn "target is outside ROS time")
        else whole_seconds seconds whole
  end.

(** The loop over the characters of [fraction], [i] the index reached. *)
Fixpoint fraction_nanos (i : nat) (nanos : Z) (round_up : bool) (fraction : list byte)
    : fallible (Z * bool) :=
  match fraction with
  | [] => Ok (nanos, round_up)
  | digit :: fraction =>
      if negb (is_digit digit) then Err (StdExn "invalid decimal target")
      else if Nat.ltb i 9
      then fraction_nanos (S i) (u64 (nanos * 10 + digit_val digit)) round_up fraction
      else fraction_nanos (S i) nanos (round_up || negb (bool_decide (digit = "0"%char)))
             fraction
  end.

(** [for (i = fraction.size(); i < 9; ++i) nanos *= 10;] *)
Fixpoint pad_nanos (steps : nat) (nanos : Z) : Z :=
  match steps with
  | O => nanos
  | S steps => pad_nanos steps (u64 (nanos * 10))
  end.

(** The nanoseconds of [fraction = text.substr(point + 1)]. *)
Definition target_fraction (fraction : list byte) : fallible Z :=
  throw_if (Nat.eqb (length fraction) 0) (StdExn "target has an empty fraction");;
  '(nanos, round_up) ← fraction_nanos 0 0 false fraction;
  Ok (u64 (pad_nanos (9 - length fraction) nanos + (if round_up : bool then 1 else 0))).

Definition clockTarget (text : string) : fallible Z :=
  let bytes := string_bytes text in
  let point := find_char "." bytes in
  let whole := match point with Some p => take p bytes | None => bytes end in
  throw_if (Nat.eqb (length whole) 0 || (Z.of_nat (length bytes) >? 128))
    (StdExn "target must be bounded nonnegative decimal seconds");;
  seconds ← whole_seconds 0 whole;
  nanos ← match point with
          | None => Ok 0
          | Some p => target_fraction (drop (S p) bytes)
          end;
  throw_if ((seconds =? UINT32_MAX) && negb (nanos =? 0))
    (StdExn "target is outside ROS time");;
  Ok (u64 (seconds * 1000000000 + nanos)).

(** ** [class ClockWait] *)

Record ClockWait := MkClockWait {
  target_ : Z;
  previous_ : Z;
  observed_ : bool
}.

Definition newClockWait (seconds : string) : fallible ClockWait :=
  target ← clockTarget seconds;
  Ok (MkClockWait target 0 false).

Definition clock_stamp (sec nsec : Z) : Z := u64 (sec * 1000000000 + nsec).

(** A throw leaves the object as it was: both checks precede the stores. *)
Definition observe (wait : ClockWait) (sec nsec : Z) : fallible (bool * ClockWait) :=
  throw_if (nsec >=? 1000000000) (StdExn "invalid clock nanoseconds");;
  let stamp := clock_stamp sec nsec in
  throw_if (observed_ wait && (stamp <? previous_ wait))
    (StdExn "simulation clock moved backwards");;
  Ok (stamp >=? target_ wait, MkClockWait (target_ wait) stamp true).

(** ** The command (clock_wait_main.cpp) *)

(** [value.find_first_not_of("0123456789") != npos] *)
Definition has_non_digit (value : string) : bool :=
  negb (forallb is_digit (string_bytes value)).

(** The option loop, from argument 1 on. *)
Fixpoint clock_options (arguments : list string) (target topic : string) (timeout : Z)
    : fallible (string * string * Z) :=
  match arguments with
  | [] => Ok (target, topic, timeout)
  | [_] => Err (StdExn "option requires a value")
  | key :: value :: rest =>
      if bool_decide (key = "--target-seconds") && bool_decide (target = "")
      then clock_options rest value topic timeout
      else if bool_decide (key = "--clock-topic")
      then clock_options rest target value timeout
      else if bool_decide (key = "--timeout-seconds")
      then
        throw_if (bool_decide (value = "") || has_non_digit value)
          (StdExn "timeout must be integer seconds");;
        parsed ← stoul value;
        throw_if ((parsed <? 1) || (parsed >? 86400))
          (StdExn "timeout must be 1..86400 seconds");;
        clock_options rest target topic parsed
      else Err (StdExn ("unknown or repeated option: " +:+ key))
  end.

(** Everything before [ros::init]: options, topic name, target.  The name
    check is roscpp's [ros::names::validate]. *)
Definition clock_setup (names_validate : string → bool) (arguments : list string)
    : fallible (string * Z * ClockWait) :=
  '(target, topic, timeout) ← clock_options (tail arguments) "" "/clock" 300;
  throw_if (negb (bool_decide (head (string_bytes topic) = Some "/"%char))
            || negb (names_validate topic))
    (StdExn "clock topic must be an absolute ROS name");;
  wait ← newClockWait target;
  Ok (topic, timeout, wait).

(** A delivered clock message, with the steady-clock reading its callback takes. *)
Record ClockMessage := MkClockMessage { cm_now : Z; cm_sec : Z; cm_nsec : Z }.

(** What one turn of the main loop reads from its surroundings: the loop
    condition's flags, the publisher count, the flags again, the steady clock,
    and the messages [callAvailable] delivers. *)
Record ClockPoll := MkClockPoll {
  loop_stop : bool;
  loop_ok : bool;
  publishers : Z;
  recheck_stop : bool;
  recheck_ok : bool;
  poll_now : Z;
  delivered : list ClockMessage
}.

Record WaitState := MkWaitState {
  ws_wait : ClockWait;
  reached : bool;
  failure : string;
  stamp : Z * Z
}.

Inductive WaitExit :=
| ExitReached (sec nsec : Z)   (* prints the stamp and returns 0 *)
| ExitStopped                  (* returns 130 *)
| ExitFailed (message : string). (* prints the message and returns 1 *)

Inductive WaitLoop :=
| Looping (st : WaitState)     (* no further turn was observed *)
| LoopLeft (st : WaitState)    (* the loop condition became false *)
| LoopExit (e : WaitExit).     (* return or throw from the body *)

(** The subscription callback. *)
Definition clock_callback (deadline : Z) (st : WaitState) (message : ClockMessage)
    : WaitState :=
  if reached st || negb (bool_decide (failure st = "")) then st
  else
    match (throw_if (cm_now message >=? deadline) (StdExn "simulation wait timed out");;
           observe (ws_wait st) (cm_sec message) (cm_nsec message)) with
    | Ok (b, wait) => MkWaitState wait b (failure st) (cm_sec message, cm_nsec message)
    | Err error => MkWaitState (ws_wait st) (reached st) (exn_what error) (stamp st)
    end.

Fixpoint wait_loop (deadline : Z) (st : WaitState) (polls : list ClockPoll) : WaitLoop :=
  match polls with
  | [] => Looping st
  | p :: polls =>
      if negb (loop_stop p) && loop_ok p && negb (reached st)
         && bool_decide (failure st = "")
      then
        if recheck_stop p || negb (recheck_ok p) then LoopExit ExitStopped
        else if publishers p >? 1
        then LoopExit (ExitFailed "clock must have exactly one publisher")
        else if observed_ (ws_wait st) && (publishers p =? 0)
        then LoopExit (ExitFailed "clock publisher disconnected")
        else if poll_now p >=? deadline
        then LoopExit (ExitFailed "simulation wait timed out")
        else wait_loop deadline (foldl (clock_callback deadline) st (delivered p)) polls
      else LoopLeft st
  end.

(** After the loop: [stop] and [count] are the final reads of the stop flag and
    of the number of publishers. *)
Definition wait_finish (st : WaitState) (stop : bool) (count : Z) : WaitExit :=
  if stop then ExitStopped
  else if negb (bool_decide (failure st = "")) then ExitFailed (failure st)
  else if negb (reached st) then ExitStopped
  else if count >? 1 then ExitFailed "clock must have exactly one publisher"
  else ExitReached (stamp st).1 (stamp st).2.

Definition wait_start (wait : ClockWait) : WaitState := MkWaitState wait false "" (0, 0).

Definition clock_wait (deadline : Z) (wait : ClockWait) (polls : list ClockPoll)
    (stop : bool) (count : Z) : option WaitExit :=
  match wait_loop deadline (wait_start wait) polls with
  | Looping _ => None
  | LoopLeft st => Some (wait_finish st stop count)
  | LoopExit e => Some e
  end.

(** The [reachedSeconds] number of the printed result. *)
Definition reached_seconds (sec nsec : Z) : string :=
  to_string sec +:+ "." +:+ bytes_string (pad_left 9 "0" (string_bytes (to_string nsec))).

(** ** The decimal value of a target text *)

(** [decimal_text text whole fraction]: the text is [whole] or
    [whole.fraction], digits on both sides, neither side empty. *)
Definition decimal_text (text : string) (whole fraction : list byte) : Prop :=
  whole ≠ [] ∧ all_digits whole ∧ all_digits fraction ∧
  ((string_bytes text = whole ∧ fraction = []) ∨
   (string_bytes text = whole ++ "."%char :: fraction ∧ fraction ≠ [])).

(** The value in units of [10 ^ - length fraction] seconds. *)
Definition decimal_units (whole fraction : list byte) : Z :=
  digits_value 0 (whole ++ fraction).

(** Ceiling division. *)
Definition cdiv (a b : Z) : Z := (a + b - 1) / b.

(** The least number of nanoseconds that is not below the decimal value. *)
Definition decimal_nanos (whole fraction : list byte) : Z :=
  cdiv (decimal_units whole fraction * 10 ^ 9) (10 ^ Z.of_nat (length fraction)).

(** ** Lemmas: ceiling division and digit values *)

Lemma cdiv_add a b c : 0 < b → cdiv (a * b + c) b = a + cdiv c b.
Proof.
  intros. unfold cdiv. replace (a * b + c + b - 1) with (a * b + (c + b - 1)) by lia.
  by rewrite Z.div_add_l by lia.
Qed.

Lemma cdiv_mul a b : 0 < b → cdiv (a * b) b = a.
Proof.
  intros. rewrite <- (Z.add_0_r (a * b)), cdiv_add by lia. unfold cdiv.
  rewrite Z.div_small; lia.
Qed.

Lemma cdiv_small c b : 0 < b → 0 < c <= b → cdiv c b = 1.
Proof.
  intros. unfold cdiv. replace (c + b - 1) with (1 * b + (c - 1)) by lia.
  rewrite Z.div_add_l, Z.div_small; lia.
Qed.

(** A number of whole steps reaches the ceiling exactly when it reaches the
    value itself. *)
Lemma cdiv_le a b n : 0 < b → cdiv a b <= n ↔ a <= n * b.
Proof.
  intros Hb. unfold cdiv. split; intros H.
  - pose proof (Z.div_mod (a + b - 1) b ltac:(lia)).
    pose proof (Z.mod_pos_bound (a + b - 1) b Hb). nia.
  - apply Z.lt_succ_r, Z.div_lt_upper_bound; [done|]. nia.
Qed.

Lemma cdiv_scale a b k : 0 < b → 0 < k → cdiv (a * k) (b * k) = cdiv a b.
Proof.
  intros Hb Hk. apply Z.le_antisymm.
  - apply cdiv_le; [nia|]. pose proof (proj1 (cdiv_le a b _ Hb) (Z.le_refl _)). nia.
  - apply cdiv_le; [done|]. pose proof (proj1 (cdiv_le (a * k) (b * k) _ ltac:(nia)) (Z.le_refl _)).
    nia.
Qed.

Lemma pow10_pos n : 0 < 10 ^ Z.of_nat n.
Proof. apply Z.pow_pos_nonneg; lia. Qed.
#[local] Hint Resolve pow10_pos : core.

Definition nonzero_digit (c : byte) : bool := negb (bool_decide (c = "0"%char)).

Lemma nonzero_digit_spec c :
  is_digit c = true → nonzero_digit c = true ↔ 0 < digit_val c.
Proof.
  intros Hc. unfold nonzero_digit. rewrite negb_true_iff, bool_decide_eq_false.
  apply is_digit_spec in Hc as Bc. split; intros H.
  - destruct (decide (digit_val c = 0)) as [E|]; [|lia].
    destruct H. by rewrite <- (digit_char_val c), E.
  - intros ->. by vm_compute in H.
Qed.

Lemma existsb_nonzero l :
  all_digits l → existsb nonzero_digit l = true ↔ 0 < digits_value 0 l.
Proof.
  induction 1 as [|c l Hc Hl IH]; cbn [existsb digits_value]; [done|].
  rewrite orb_true_iff, IH, nonzero_digit_spec, (digits_value_acc (0 * 10 + _)) by done.
  apply is_digit_spec in Hc. pose proof (digits_value_bound l Hl).
  pose proof (pow10_pos (length l)) as Hp. revert Hp.
  generalize (10 ^ Z.of_nat (length l)); intros P HP. rewrite Z.mul_0_l, Z.add_0_l.
  destruct (decide (digit_val c = 0)) as [->|]; [lia|].
  assert (0 < digit_val c * P) by (apply Z.mul_pos_pos; lia). split; [lia|]. intros; left; lia.
Qed.

Lemma all_digits_take n l : all_digits l → all_digits (take n l).
Proof. apply Forall_take. Qed.
Lemma all_digits_drop n l : all_digits l → all_digits (drop n l).
Proof. apply Forall_drop. Qed.
#[local] Hint Resolve all_digits_take all_digits_drop : core.

(** ** Lemmas: the loops of [clockTarget] *)

Lemma u64_small z : 0 <= z < 2 ^ 64 → u64 z = z.
Proof. apply Z.mod_small. Qed.

Lemma whole_seconds_spec s l n :
  0 <= s <= UINT32_MAX →
  whole_seconds s l = Ok n ↔
  all_digits l ∧ n = digits_value s l ∧ digits_value s l <= UINT32_MAX.
Proof.
  revert s. induction l as [|c l IH]; intros s Hs; cbn [whole_seconds digits_value].
  { split; [intros [= <-]; split_and!; [constructor|done|lia]|]. by intros (_ & -> & _). }
  rewrite Forall_cons. destruct (is_digit c) eqn:Hc; cbn [negb orb]; [|naive_solver].
  apply is_digit_spec in Hc as Bc. unfold UINT32_MAX in *.
  rewrite u64_small by lia.
  assert (all_digits l → s * 10 + digit_val c <= digits_value (s * 10 + digit_val c) l) as Hmono.
  { intros. apply digits_value_nonneg; [lia|done]. }
  destruct (Z.gtb_spec s ((2 ^ 32 - 1) / 10)) as [Hgt|Hle].
  { split; [done|]. intros ((_ & Hl) & _ & Hv). specialize (Hmono Hl).
    change ((2 ^ 32 - 1) / 10) with 429496729 in Hgt. lia. }
  destruct (Z.gtb_spec (s * 10 + digit_val c) (2 ^ 32 - 1)).
  { split; [done|]. intros ((_ & Hl) & _ & Hv). specialize (Hmono Hl). lia. }
  rewrite IH by lia. naive_solver.
Qed.

Lemma fraction_nanos_round i nanos r l n r' :
  (9 <= i)%nat →
  fraction_nanos i nanos r l = Ok (n, r') ↔
  all_digits l ∧ n = nanos ∧ r' = r || existsb nonzero_digit l.
Proof.
  revert i r. induction l as [|c l IH]; intros i r Hi; cbn [fraction_nanos existsb].
  { rewrite orb_false_r. naive_solver. }
  rewrite Forall_cons. destruct (is_digit c) eqn:Hc; cbn [negb]; [|naive_solver].
  destruct (Nat.ltb_spec i 9); [lia|]. fold (nonzero_digit c).
  rewrite IH by lia. rewrite orb_assoc. naive_solver.
Qed.

Lemma fraction_nanos_spec i nanos r l n r' :
  0 <= nanos < 10 ^ Z.of_nat i → (i <= 9)%nat →
  fraction_nanos i nanos r l = Ok (n, r') ↔
  all_digits l ∧ n = digits_value nanos (take (9 - i) l) ∧
  r' = r || existsb nonzero_digit (drop (9 - i) l).
Proof.
  revert i nanos r. induction l as [|c l IH]; intros i nanos r Hn Hi; cbn [fraction_nanos].
  { rewrite take_nil, drop_nil, orb_false_r. cbn. naive_solver. }
  rewrite Forall_cons. destruct (is_digit c) eqn:Hc; cbn [negb]; [|naive_solver].
  apply is_digit_spec in Hc as Bc. destruct (Nat.ltb_spec i 9).
  - replace (9 - i)%nat with (S (9 - S i)) by lia. cbn [take drop digits_value].
    assert (10 ^ Z.of_nat (S i) <= 10 ^ 9) by (apply Z.pow_le_mono_r; lia).
    rewrite Nat2Z.inj_succ, Z.pow_succ_r in * by lia.
    rewrite u64_small by lia.
    rewrite IH by (rewrite ?Nat2Z.inj_succ, ?Z.pow_succ_r; lia). naive_solver.
  - replace i with 9%nat by lia. cbn [take drop digits_value existsb Nat.sub].
    fold (nonzero_digit c). rewrite fraction_nanos_round by lia.
    rewrite orb_assoc. naive_solver.
Qed.

Lemma pad_nanos_spec k n :
  0 <= n → n * 10 ^ Z.of_nat k < 2 ^ 64 → pad_nanos k n = n * 10 ^ Z.of_nat k.
Proof.
  revert n. induction k as [|k IH]; intros n Hn Hk; cbn [pad_nanos]; [lia|].
  rewrite Nat2Z.inj_succ, Z.pow_succ_r in * by lia. pose proof (pow10_pos k).
  rewrite u64_small by nia. rewrite IH by nia. ring.
Qed.

(** The nanoseconds the fraction contributes, rounded up. *)
Lemma fraction_ceiling l :
  all_digits l →
  digits_value 0 (take 9 l) * 10 ^ Z.of_nat (9 - length l)
    + (if existsb nonzero_digit (drop 9 l) then 1 else 0)
  = cdiv (digits_value 0 l * 10 ^ 9) (10 ^ Z.of_nat (length l)).
Proof.
  intros Hl. destruct (decide (length l <= 9)%nat).
  - rewrite take_ge, drop_ge by lia. cbn [existsb].
    replace (10 ^ 9) with (10 ^ Z.of_nat (9 - length l) * 10 ^ Z.of_nat (length l))
      by (rewrite <- Z.pow_add_r by lia; f_equal; lia).
    rewrite Z.mul_assoc, cdiv_mul by done. lia.
  - replace (9 - length l)%nat with 0%nat by lia.
    pose proof (length_drop l 9) as Hd.
    replace (10 ^ Z.of_nat (length l)) with (10 ^ Z.of_nat (length (drop 9 l)) * 10 ^ 9)
      by (rewrite Hd, <- Z.pow_add_r by lia; f_equal; lia).
    rewrite cdiv_scale by done.
    rewrite <- (take_drop 9 l) at 3. rewrite digits_value_app.
    rewrite (digits_value_acc (digits_value 0 (take 9 l))), cdiv_add by done. change (10 ^ Z.of_nat 0) with 1. rewrite Z.mul_1_r. f_equal.
    pose proof (digits_value_bound (drop 9 l) ltac:(auto)) as Hb.
    destruct (existsb _ _) eqn:E.
    + apply existsb_nonzero in E; [|auto]. rewrite cdiv_small; lia.
    + assert (digits_value 0 (drop 9 l) = 0) as ->.
      { destruct (decide (0 < digits_value 0 (drop 9 l))) as [Hp|]; [|lia].
        apply existsb_nonzero in Hp; [congruence|auto]. }
      unfold cdiv. rewrite Z.div_small; [done|]. lia.
Qed.

Lemma decimal_nanos_split whole fraction :
  decimal_nanos whole fraction =
    digits_value 0 whole * 10 ^ 9
    + cdiv (digits_value 0 fraction * 10 ^ 9) (10 ^ Z.of_nat (length fraction)).
Proof.
  unfold decimal_nanos, decimal_units. rewrite digits_value_app.
  rewrite (digits_value_acc (digits_value 0 whole)), Z.mul_add_distr_r, <- cdiv_add by done. f_equal. ring.
Qed.

Lemma fraction_ceiling_bound l :
  all_digits l →
  0 <= cdiv (digits_value 0 l * 10 ^ 9) (10 ^ Z.of_nat (length l)) <= 10 ^ 9.
Proof.
  intros Hl. pose proof (digits_value_bound l Hl). split.
  - apply Z.div_pos; [|done]. pose proof (pow10_pos (length l)). lia.
  - apply cdiv_le; [done|]. nia.
Qed.

(** What the fraction part of [clockTarget] computes. *)
Lemma target_fraction_spec fraction nanos :
  target_fraction fraction = Ok nanos ↔
  fraction ≠ [] ∧ all_digits fraction ∧
  nanos = cdiv (digits_value 0 fraction * 10 ^ 9) (10 ^ Z.of_nat (length fraction)).
Proof.
  unfold target_fraction. destruct (decide (fraction = [])) as [->|Hne]; [naive_solver|].
  destruct (Nat.eqb_spec (length fraction) 0) as [E|_]; [by destruct fraction|].
  cbn [throw_if mbind result_bind].
  assert (all_digits fraction →
    digits_value 0 (take 9 fraction) * 10 ^ Z.of_nat (9 - length fraction) < 10 ^ 9) as Hlt.
  { intros Hd. pose proof (digits_value_bound _ (all_digits_take 9 _ Hd)) as B.
    rewrite length_take in B.
    apply Z.lt_le_trans with
      (10 ^ Z.of_nat (9 `min` length fraction) * 10 ^ Z.of_nat (9 - length fraction)).
    - pose proof (pow10_pos (9 - length fraction)). nia.
    - rewrite <- Z.pow_add_r by lia. apply Z.pow_le_mono_r; lia. }
  destruct (fraction_nanos 0 0 false fraction) as [[n r]|e] eqn:E.
  - apply fraction_nanos_spec in E as (Hd & -> & ->); [|lia..]. specialize (Hlt Hd).
    cbn [orb Nat.sub mbind result_bind]. pose proof (digits_value_bound _ (all_digits_take 9 _ Hd)).
    rewrite pad_nanos_spec by lia. rewrite fraction_ceiling by done.
    pose proof (fraction_ceiling_bound _ Hd). rewrite u64_small by lia. naive_solver.
  - split; [done|]. intros (_ & Hd & _).
    assert (fraction_nanos 0 0 false fraction =
      Ok (digits_value 0 (take 9 fraction), existsb nonzero_digit (drop 9 fraction))) as E'.
    { apply fraction_nanos_spec; [lia..|done]. }
    congruence.
Qed.

Lemma find_char_Some c l p :
  find_char c l = Some p → l = take p l ++ c :: drop (S p) l ∧ c ∉ take p l.
Proof.
  revert p. induction l as [|b l IH]; intros p; cbn [find_char]; [done|].
  case_decide as E; [intros [= <-]; subst; cbn; set_solver|].
  destruct (find_char c l) as [q|]; [|done]. intros [= <-].
  destruct (IH q eq_refl) as [Hl Hn]. cbn [take drop app]. split; [by f_equal|].
  set_solver.
Qed.

Lemma find_char_None c l : find_char c l = None → c ∉ l.
Proof.
  induction l as [|b l IH]; cbn [find_char]; [set_solver|].
  case_decide; [done|]. destruct (find_char c l); [done|]. set_solver.
Qed.

Lemma find_char_app c l1 l2 :
  c ∉ l1 → find_char c (l1 ++ c :: l2) = Some (length l1).
Proof.
  induction l1 as [|b l1 IH]; intros H; cbn [find_char app length].
  - by rewrite decide_True.
  - rewrite decide_False by set_solver. rewrite IH by set_solver. done.
Qed.

Lemma find_char_notin c l : c ∉ l → find_char c l = None.
Proof.
  induction l as [|b l IH]; intros H; cbn [find_char]; [done|].
  rewrite decide_False by set_solver. by rewrite IH by set_solver.
Qed.

Lemma point_not_digit l : all_digits l → "."%char ∉ l.
Proof. intros H Hin. rewrite Forall_forall in H. by specialize (H _ Hin). Qed.

(** The range check and the result of [clockTarget]. *)
Lemma target_result_spec seconds nanos t :
  0 <= seconds <= UINT32_MAX → 0 <= nanos <= 10 ^ 9 →
  (throw_if ((seconds =? UINT32_MAX) && negb (nanos =? 0))
     (StdExn "target is outside ROS time");;
   Ok (u64 (seconds * 1000000000 + nanos))) = Ok t ↔
  t = seconds * 10 ^ 9 + nanos ∧ t <= UINT32_MAX * 10 ^ 9.
Proof.
  intros Hs Hn. assert (UINT32_MAX = 4294967295) as HM by done.
  rewrite u64_small by lia. change (10 ^ 9) with 1000000000 in *.
  destruct (Z.eqb_spec seconds UINT32_MAX), (Z.eqb_spec nanos 0); cbn;
    split; intros H; simplify_eq; try (split; lia); destruct H as [-> H]; lia || done.
Qed.

Lemma optional_fraction_spec fraction nanos :
  (match fraction with None => Ok 0 | Some f => target_fraction f end) = Ok nanos ↔
  (∀ f, fraction = Some f → f ≠ [] ∧ all_digits f) ∧
  nanos = cdiv (digits_value 0 (default [] fraction) * 10 ^ 9)
               (10 ^ Z.of_nat (length (default [] fraction))).
Proof.
  destruct fraction as [f|]; cbn [default]; [rewrite target_fraction_spec; naive_solver|].
  change (cdiv _ _) with 0. naive_solver.
Qed.

(** [clockTarget] once the text is cut at its first point. *)
Lemma clockTarget_cut text whole fraction t :
  (string_bytes text = whole ∧ ("."%char ∉ whole) ∧ fraction = None) ∨
  (∃ f, string_bytes text = whole ++ "."%char :: f ∧ ("."%char ∉ whole) ∧ fraction = Some f) →
  clockTarget text = Ok t ↔
  whole ≠ [] ∧ (String.length text <= 128)%nat ∧ all_digits whole ∧
  (∀ f, fraction = Some f → f ≠ [] ∧ all_digits f) ∧
  t = decimal_nanos whole (default [] fraction) ∧ t <= UINT32_MAX * 10 ^ 9.
Proof.
  intros Hcut. unfold clockTarget.
  assert ((match find_char "." (string_bytes text) with
           | Some p => take p (string_bytes text) | None => string_bytes text end) = whole ∧
          (match find_char "." (string_bytes text) with
           | Some p => target_fraction (drop (S p) (string_bytes text)) | None => Ok 0 end)
          = (match fraction with None => Ok 0 | Some f => target_fraction f end))
    as [-> ->].
  { destruct Hcut as [(-> & Hn & ->)|(f & -> & Hn & ->)].
    - by rewrite find_char_notin.
    - rewrite find_char_app by done. rewrite take_app_length. split; [done|].
      rewrite drop_app_ge by lia. f_equal.
      by replace (S (length whole) - length whole)%nat with 1%nat by lia. }
  clear Hcut. rewrite length_string_bytes, decimal_nanos_split. split.
  - intros H. res_inv_step H. res_inv_step H. res_inv_step H.
    apply whole_seconds_spec in Hr0 as (Hd & -> & Hmax); [|done].
    apply optional_fraction_spec in Hr1 as [Hf ->].
    apply target_result_spec in H as [-> Ht]; [|pose proof (digits_value_bound _ Hd); lia|].
    + apply orb_false_iff in Hr as [Hw%Nat.eqb_neq Hl]. rewrite Z.gtb_ltb, Z.ltb_ge in Hl.
      split_and!; try done; [by destruct whole|lia].
    + apply fraction_ceiling_bound. destruct fraction as [f|]; [by apply Hf|constructor].
  - intros (Hw & Hl & Hd & Hf & -> & Ht).
    assert (all_digits (default [] fraction)) as Hd'.
    { destruct fraction as [f|]; [by apply Hf|constructor]. }
    pose proof (fraction_ceiling_bound _ Hd') as Hb. pose proof (digits_value_bound _ Hd).
    apply bind_Ok. exists tt. split.
    { apply throw_if_Ok, orb_false_iff. rewrite Nat.eqb_neq, Z.gtb_ltb, Z.ltb_ge.
      split; [by destruct whole|lia]. }
    apply bind_Ok. exists (digits_value 0 whole). split.
    { apply whole_seconds_spec; [done|]. split_and!; try done. lia. }
    apply bind_Ok. eexists. split; [by apply optional_fraction_spec|].
    apply target_result_spec; [lia|done|]. done.
Qed.

Lemma clockTarget_spec text t :
  clockTarget text = Ok t ↔
  ∃ whole fraction,
    decimal_text text whole fraction ∧ (String.length text <= 128)%nat ∧
    t = decimal_nanos whole fraction ∧ t <= UINT32_MAX * 10 ^ 9.
Proof.
  split.
  - intros H. destruct (find_char "." (string_bytes text)) as [p|] eqn:E.
    + apply find_char_Some in E as [E Hn].
      destruct (proj1 (clockTarget_cut text (take p (string_bytes text))
        (Some (drop (S p) (string_bytes text))) t ltac:(right; eauto)) H) as (?&?&?&Hf&?&?).
      destruct (Hf _ eq_refl).
      exists (take p (string_bytes text)), (drop (S p) (string_bytes text)).
      unfold decimal_text. split_and!; eauto.
    + apply find_char_None in E.
      destruct (proj1 (clockTarget_cut text (string_bytes text) None t ltac:(left; eauto)) H)
        as (?&?&?&_&?&?).
      exists (string_bytes text), []. unfold decimal_text. split_and!; eauto.
  - intros (whole & fraction & (Hw & Hd & Hd' & [[E ->]|[E Hf]]) & Hl & -> & Ht).
    + apply (clockTarget_cut text whole None); [left|naive_solver].
      auto using point_not_digit.
    + apply (clockTarget_cut text whole (Some fraction)); [right|naive_solver].
      eauto using point_not_digit.
Qed.

Lemma decimal_nanos_le whole fraction n :
  decimal_nanos whole fraction <= n ↔
  decimal_units whole fraction * 10 ^ 9 <= n * 10 ^ Z.of_nat (length fraction).
Proof. unfold decimal_nanos. by apply cdiv_le. Qed.

Lemma clock_stamp_exact sec nsec :
  0 <= sec <= UINT32_MAX → 0 <= nsec < 2 ^ 32 → clock_stamp sec nsec = sec * 10 ^ 9 + nsec.
Proof.
  intros Hs Hn. unfold clock_stamp. assert (UINT32_MAX = 4294967295) as HM by done.
  by rewrite u64_small by lia.
Qed.

(** Once a fresh object has accepted a stamp its fields are the target and that
    stamp, whatever was observed before. *)
Lemma observe_spec wait sec nsec b wait' :
  observe wait sec nsec = Ok (b, wait') ↔
  nsec < 10 ^ 9 ∧ (observed_ wait = true → previous_ wait <= clock_stamp sec nsec) ∧
  b = (clock_stamp sec nsec >=? target_ wait) ∧
  wait' = MkClockWait (target_ wait) (clock_stamp sec nsec) true.
Proof.
  unfold observe, throw_if. change (10 ^ 9) with 1000000000.
  rewrite !Z.geb_leb. destruct (Z.leb_spec 1000000000 nsec);
    cbn [mbind result_bind]; [split; [done|lia]|].
  destruct (observed_ wait); cbn [andb]; [|naive_solver].
  destruct (Z.ltb_spec (clock_stamp sec nsec) (previous_ wait)); [|naive_solver].
  split; [done|]. intros (_ & Hp & _). specialize (Hp eq_refl). lia.
Qed.

(** ** Lemmas: the main loop *)

Definition message_stamp (m : ClockMessage) : Z := clock_stamp (cm_sec m) (cm_nsec m).

(** Messages that arrived before the deadline, carry valid nanoseconds, stay
    below the target and never go backwards. *)
Definition waiting_samples (target deadline : Z) (ms : list ClockMessage) : Prop :=
  Forall (λ m, cm_now m < deadline ∧ cm_nsec m < 10 ^ 9 ∧ message_stamp m < target) ms ∧
  (∀ pre a b post, ms = pre ++ a :: b :: post → message_stamp a <= message_stamp b).

(** [first_reached target deadline ms m]: [m] is the first message of [ms] whose
    stamp is at or past the target; it and those before it are in order, valid
    and in time. *)
Definition first_reached (target deadline : Z) (ms : list ClockMessage)
    (m : ClockMessage) : Prop :=
  ∃ pre post,
    ms = pre ++ m :: post ∧ waiting_samples target deadline pre ∧
    cm_now m < deadline ∧ cm_nsec m < 10 ^ 9 ∧ target <= message_stamp m ∧
    (∀ a, last pre = Some a → message_stamp a <= message_stamp m).

(** The state reached after the messages [seen]. *)
Definition wait_inv (target deadline : Z) (seen : list ClockMessage) (st : WaitState) : Prop :=
  failure st ≠ "" ∨
  (if reached st
   then ∃ m, first_reached target deadline seen m ∧ stamp st = (cm_sec m, cm_nsec m)
   else waiting_samples target deadline seen ∧
        ws_wait st = MkClockWait target (from_option message_stamp 0 (last seen))
                       (bool_decide (seen ≠ []))).

Lemma waiting_samples_snoc target deadline ms m :
  waiting_samples target deadline ms →
  cm_now m < deadline → cm_nsec m < 10 ^ 9 → message_stamp m < target →
  (∀ a, last ms = Some a → message_stamp a <= message_stamp m) →
  waiting_samples target deadline (ms ++ [m]).
Proof.
  intros [Hall Hord] H1 H2 H3 H4. split; [apply Forall_app; auto|].
  intros pre a b post E. destruct post as [|c post _] using rev_ind.
  - replace (pre ++ [a; b]) with ((pre ++ [a]) ++ [b]) in E by by rewrite <- app_assoc.
    apply app_inj_tail in E as [-> ->]. apply H4, last_snoc.
  - rewrite app_comm_cons, app_comm_cons, app_assoc in E. apply app_inj_tail in E as [-> ->].
    by eapply Hord.
Qed.

Lemma first_reached_app target deadline ms ms' m :
  first_reached target deadline ms m → first_reached target deadline (ms ++ ms') m.
Proof.
  intros (pre & post & -> & H). exists pre, (post ++ ms'). by rewrite <- app_assoc.
Qed.

Lemma clock_callback_inv target deadline seen st m :
  wait_inv target deadline seen st →
  wait_inv target deadline (seen ++ [m]) (clock_callback deadline st m).
Proof.
  intros Hinv. unfold clock_callback.
  destruct (decide (failure st = "")) as [Ef|Ef]; [|left; case_bool_decide; [done|];
    by rewrite orb_true_r].
  rewrite bool_decide_true, orb_false_r by done. destruct Hinv as [|Hinv]; [done|].
  destruct (reached st) eqn:Er.
  { right. rewrite Er. destruct Hinv as (m' & Hm & Hs). eauto using first_reached_app. }
  destruct Hinv as [Hw Ews].
  destruct (_ ≫= _) as [[b wait]|e] eqn:E; cycle 1.
  { left. cbn. apply bind_Err in E as [E|(u & _ & E)].
    - by apply throw_if_Err in E as [_ <-].
    - unfold observe in E. apply bind_Err in E as [E|(u' & _ & E)].
      + by apply throw_if_Err in E as [_ <-].
      + apply bind_Err in E as [E|(? & _ & E)]; [by apply throw_if_Err in E as [_ <-]|done]. }
  res_inv_step E. rewrite Z.geb_leb, Z.leb_gt in Hr.
  apply observe_spec in E as (Hn & Hp & Eb & ->).
  fold (message_stamp m) in Hp, Eb |- *. rewrite Ews in Hp, Eb |- *. cbn [target_ previous_ observed_] in *.
  assert (∀ a, last seen = Some a → message_stamp a <= message_stamp m) as Hlast.
  { intros a' Ea. rewrite Ea in Hp. apply Hp. apply bool_decide_true. by intros ->. }
  right. cbn [reached failure stamp ws_wait]. destruct b.
  - exists m. split; [|done]. rewrite Z.geb_leb in Eb. symmetry in Eb. apply Z.leb_le in Eb.
    exists seen, []. by split_and!.
  - rewrite Z.geb_leb in Eb. symmetry in Eb. apply Z.leb_gt in Eb.
    split; [by apply waiting_samples_snoc|]. rewrite last_snoc. cbn. f_equal.
    symmetry. apply bool_decide_true. by destruct seen.
Qed.

Lemma clock_callbacks_inv target deadline ms seen st :
  wait_inv target deadline seen st →
  wait_inv target deadline (seen ++ ms) (foldl (clock_callback deadline) st ms).
Proof.
  revert seen st. induction ms as [|m ms IH]; intros seen st H; cbn; [by rewrite app_nil_r|].
  replace (seen ++ m :: ms) with ((seen ++ [m]) ++ ms) by by rewrite <- app_assoc.
  by apply IH, clock_callback_inv.
Qed.

Lemma wait_loop_inv target deadline polls seen st st' :
  wait_inv target deadline seen st →
  wait_loop deadline st polls = LoopLeft st' →
  ∃ seen' rest,
    seen ++ concat (delivered <$> polls) = seen' ++ rest ∧ wait_inv target deadline seen' st'.
Proof.
  revert seen st. induction polls as [|p polls IH]; intros seen st Hinv; cbn [wait_loop]; [done|].
  destruct (_ && _); [|intros [= <-]; eauto].
  destruct (_ || _); [done|]. destruct (_ >? _); [done|]. destruct (_ && _); [done|].
  destruct (_ >=? _); [done|]. intros H.
  apply (IH (seen ++ delivered p)) in H; [|by apply clock_callbacks_inv].
  cbn [fmap list_fmap concat]. by rewrite app_assoc.
Qed.

Lemma wait_loop_deadline deadline polls st st' :
  Exists (λ p, deadline <= poll_now p) polls → wait_loop deadline st polls ≠ Looping st'.
Proof.
  intros Hex. revert st. induction Hex as [p polls Hp|p polls _ IH]; intros st; cbn [wait_loop].
  - rewrite Z.geb_leb. apply Z.leb_le in Hp. rewrite Hp. repeat case_match; done.
  - repeat case_match; done || apply IH.
Qed.

Lemma wait_start_inv target deadline :
  wait_inv target deadline [] (wait_start (MkClockWait target 0 false)).
Proof. right. cbn. split; [|done]. split; [constructor|]. by intros [|? ?]. Qed.

(** ** Lemmas: the printed stamp *)

Lemma reached_seconds_bytes sec nsec :
  0 <= sec → 0 <= nsec →
  string_bytes (reached_seconds sec nsec) =
    to_digits sec ++ "."%char :: pad_left 9 "0" (to_digits nsec).
Proof.
  intros. unfold reached_seconds.
  by rewrite !string_bytes_app, string_bytes_string, !to_string_bytes by done.
Qed.

(** ** Theorems *)


(** C36: [clockTarget] accepts exactly the texts of at most 128 characters that
    are decimal seconds within ROS time, and returns their value in nanoseconds
    rounded up to the next integer; no arithmetic wraps. *)
Theorem clockTarget_exact text t :
  clockTarget text = Ok t ↔
  ∃ whole fraction,
    decimal_text text whole fraction ∧ (String.length text <= 128)%nat ∧
    t = decimal_nanos whole fraction ∧ t <= UINT32_MAX * 10 ^ 9.
Proof. apply clockTarget_spec. Qed.

(** A stamp is reported as reached exactly when it is at least the decimal
    target as a rational number: for a target text of value
    [units / 10 ^ digits] seconds, [sec + nsec / 10 ^ 9 >= units / 10 ^ digits]
    (both sides multiplied out), so no rounding residue enters the test. *)
Theorem observe_is_exact_comparison text wait sec nsec b wait' :
  newClockWait text = Ok wait →
  0 <= sec <= UINT32_MAX → 0 <= nsec →
  observe wait sec nsec = Ok (b, wait') →
  ∃ whole fraction,
    decimal_text text whole fraction ∧
    (b = true ↔
     decimal_units whole fraction * 10 ^ 9
       <= (sec * 10 ^ 9 + nsec) * 10 ^ Z.of_nat (length fraction)).
Proof.
  intros Hnew Hs Hn H. unfold newClockWait in Hnew. res_inv Hnew.
  apply clockTarget_spec in Hr as (whole & fraction & Hd & _ & -> & _).
  exists whole, fraction. split; [done|].
  apply observe_spec in H as (? & _ & -> & _). cbn [target_].
  rewrite Z.geb_leb, Z.leb_le, clock_stamp_exact by lia. apply decimal_nanos_le.
Qed.

Lemma observe_is_exact_comparison_witness :
  ∃ whole fraction,
    decimal_text "0.0000000001" whole fraction ∧
    (true = true ↔
     decimal_units whole fraction * 10 ^ 9
       <= (0 * 10 ^ 9 + 1) * 10 ^ Z.of_nat (length fraction)).
Proof.
  apply (observe_is_exact_comparison "0.0000000001" (MkClockWait 1 0 false) 0 1 true
           (MkClockWait 1 1 true)); [reflexivity|unfold UINT32_MAX; lia|lia|reflexivity].
Defined.

(** C37: When the command succeeds it prints the first delivered sample at or past
    the target: every earlier sample was below it, all of them were valid,
    non-decreasing and received before the wall-clock deadline. *)
Theorem clock_wait_reports_first_sample text wait deadline polls stop count sec nsec :
  newClockWait text = Ok wait →
  clock_wait deadline wait polls stop count = Some (ExitReached sec nsec) →
  ∃ m, first_reached (target_ wait) deadline (concat (delivered <$> polls)) m ∧
       cm_sec m = sec ∧ cm_nsec m = nsec.
Proof.
  intros Hnew H. unfold newClockWait in Hnew. res_inv Hnew. cbn [target_].
  unfold clock_wait in H. destruct (wait_loop _ _ _) as [|st|e] eqn:E; [done| |].
  - eapply wait_loop_inv in E as (seen & rest & E & Hinv); [|apply wait_start_inv].
    cbn [app] in E. rewrite E. unfold wait_finish in H. destruct stop; [done|].
    case_bool_decide as Hf; [|done]. destruct Hinv as [|Hinv]; [done|].
    destruct (reached st); [|done]. cbn in H. destruct (count >? 1); [done|].
    destruct Hinv as (m & Hm & Es). rewrite Es in H. simplify_eq/=.
    eauto using first_reached_app.
  - exfalso. clear -E H. simplify_eq. revert E.
    generalize (wait_start (MkClockWait a 0 false)).
    induction polls as [|p polls IH]; intros st; cbn [wait_loop]; [done|].
    repeat case_match; naive_solver.
Qed.

Lemma clock_wait_reports_first_sample_witness :
  ∃ m, first_reached 12300000000 100
         (concat (delivered <$>
            [MkClockPoll false true 1 false true 5
               [MkClockMessage 6 12 0; MkClockMessage 7 12 300000000]])) m ∧
       cm_sec m = 12 ∧ cm_nsec m = 300000000.
Proof.
  apply (clock_wait_reports_first_sample "12.3" (MkClockWait 12300000000 0 false) 100
    [MkClockPoll false true 1 false true 5
       [MkClockMessage 6 12 0; MkClockMessage 7 12 300000000];
     MkClockPoll false true 1 false true 8 []] false 1); reflexivity.
Defined.

(** C38: The wall-clock timeout bounds the command: once one turn of the loop
    reads a time at or past the deadline, the command has returned. *)
Theorem clock_wait_times_out wait deadline polls stop count :
  Exists (λ p, deadline <= poll_now p) polls →
  clock_wait deadline wait polls stop count ≠ None.
Proof.
  intros Hex. unfold clock_wait. pose proof (wait_loop_deadline deadline polls) as Hd.
  destruct (wait_loop _ _ _) eqn:E; [|done|done]. by apply Hd in E.
Qed.

Lemma clock_wait_times_out_witness :
  clock_wait 300 (MkClockWait 12300000000 0 false)
    [MkClockPoll false true 1 false true 5 [MkClockMessage 6 12 0];
     MkClockPoll false true 1 false true 300 []] false 1 ≠ None.
Proof.
  apply clock_wait_times_out. apply Exists_cons_tl, Exists_cons_hd. cbn. lia.
Defined.

(** The printed [reachedSeconds] text denotes the reached stamp exactly: read
    back as a target it is the stamp's own nanosecond count, for every stamp that
    is itself a possible target. *)
Theorem reached_seconds_roundtrip sec nsec :
  0 <= sec <= UINT32_MAX → 0 <= nsec < 10 ^ 9 →
  clock_stamp sec nsec <= UINT32_MAX * 10 ^ 9 →
  clockTarget (reached_seconds sec nsec) = Ok (clock_stamp sec nsec).
Proof.
  intros Hs Hn Hmax. apply clockTarget_spec.
  exists (to_digits sec), (pad_left 9 "0" (to_digits nsec)).
  pose proof (canonical_to_digits sec ltac:(lia)) as (Hw & Hd & _).
  pose proof (length_pad_nsec nsec Hn) as Hlen.
  split_and!.
  - split_and!; [done..|apply all_digits_pad, all_digits_to_digits; lia|right].
    split; [apply reached_seconds_bytes; lia|]. intros E. by rewrite E in Hlen.
  - rewrite <- length_string_bytes, reached_seconds_bytes, length_app by lia.
    cbn [length]. rewrite Hlen. pose proof (length_to_digits 10 sec ltac:(lia)) as Hl.
    unfold UINT32_MAX in Hs. cbn in Hl. lia.
  - rewrite decimal_nanos_split, Hlen, digits_value_pad, !digits_value_to_digits by lia.
    rewrite cdiv_mul by lia. rewrite clock_stamp_exact by lia. done.
  - done.
Qed.

Lemma reached_seconds_roundtrip_witness :
  clockTarget (reached_seconds 12 300000000) = Ok (clock_stamp 12 300000000).
Proof.
  apply reached_seconds_roundtrip; [unfold UINT32_MAX; lia|lia|].
  vm_compute. discriminate.
Defined.
