(* ===== verification/JsonCodec.v ===== *)
(** * The JSON codec (include/.../json_codec.hpp, src/json_codec.cpp)

    Conversion between JSON values and dynamic ROS messages.  The recursion of
    [decodeValue] and [encodeValue] is bounded by the configured nesting depth;
    the model recurses on a fuel two larger ([codec_fuel]), which the depth check
    never lets run out ([codec_errors_typed]). *)

From Stdlib Require Import SpecFloat.
From S2P Require Import Prelude Bytes Errors Decimal Floats Libraries Instances.
Local Open Scope Z_scope.

Record Limits := MkLimits {
  maximum_depth : Z;
  maximum_array_elements : Z
}.

Definition default_limits : Limits := MkLimits 64 1000000.

(** The constructor's check. *)
Definition newJsonCodec (limits : Limits) : fallible Limits :=
  throw_if ((maximum_depth limits =? 0) || (maximum_array_elements limits =? 0))
    (permanentError "invalid_configuration" "JSON codec limits must be greater than zero");;
  Ok limits.

Definition codecError (path message : string) : exn :=
  permanentError "invalid_message_payload" (path +:+ ": " +:+ message).

Definition checkDepth (depth maximum : Z) (path : string) : fallible unit :=
  throw_if (depth >? maximum) (codecError path "maximum message nesting depth exceeded").

(** [path + "[" + std::to_string(index) + "]"] *)
Definition item_path (path : string) (index : nat) : string :=
  path +:+ "[" +:+ to_string (Z.of_nat index) +:+ "]".

Definition member_path (path key : string) : string := path +:+ "." +:+ key.

Section codec.
Context {J : Type} `{JsonCpp J} `{RosTime}.

(** ** Scalars from JSON *)

Definition integerText (value : J) (path : string) : fallible string :=
  if isString value then
    let text := string_bytes (asString value) in
    throw_if (bool_decide (text = []))
      (codecError path "integer string must not be empty");;
    let first_digit := if bool_decide (head text = Some "-"%char) then 1%nat else 0%nat in
    throw_if
      (match text !! first_digit with
       | None => true
       | Some c =>
           negb (is_digit c) ||
           (bool_decide (c = "0"%char) && negb (Nat.eqb (length text) (first_digit + 1)))
       end)
      (codecError path "integer string must use canonical decimal syntax");;
    throw_if (negb (forallb is_digit (drop (first_digit + 1) text)))
      (codecError path "integer string must use canonical decimal syntax");;
    throw_if (bool_decide (asString value = "-0"))
      (codecError path "integer string must use canonical decimal syntax");;
    Ok (asString value)
  else if isIntegral value then
    if isUInt64 value then Ok (to_string (asUInt64 value))
    else Ok (to_string (asInt64 value))
  else Err (codecError path "expected an integer or decimal integer string").

(** [signedInteger<T>] for a [width]-bit [T]. *)
Definition signedInteger (width : Z) (value : J) (path : string) : fallible Z :=
  text ← integerText value path;
  '(parsed, consumed) ←
    match stoll text with
    | Ok r => Ok r
    | Err _ => Err (codecError path "signed integer is outside the supported range")
    end;
  throw_if (negb (Nat.eqb consumed (String.length text))
            || (parsed <? - 2 ^ (width - 1)) || (parsed >? 2 ^ (width - 1) - 1))
    (codecError path "signed integer is outside the ROS field range");;
  Ok parsed.

(** [unsignedInteger<T>] for a [width]-bit [T]. *)
Definition unsignedInteger (width : Z) (value : J) (path : string) : fallible Z :=
  text ← integerText value path;
  throw_if (bool_decide (head (string_bytes text) = Some "-"%char))
    (codecError path "unsigned integer must not be negative");;
  '(parsed, consumed) ←
    match stoull text with
    | Ok r => Ok r
    | Err _ => Err (codecError path "unsigned integer is outside the supported range")
    end;
  throw_if (negb (Nat.eqb consumed (String.length text)) || (parsed >? 2 ^ width - 1))
    (codecError path "unsigned integer is outside the ROS field range");;
  Ok parsed.

Definition floatingPoint (value : J) (path : string) : fallible double :=
  throw_if (negb (isNumeric value)) (codecError path "expected a finite JSON number");;
  let result := asDouble value in
  throw_if (negb (is_finite result))
    (codecError path "non-finite floating point values are not supported");;
  Ok result.

(** The [Float32] case of [decodeValue] and the lambda of the array case. *)
Definition float32Value (value : J) (path : string) : fallible float :=
  parsed ← floatingPoint value path;
  throw_if (outside_float32 parsed)
    (codecError path "number is outside the ROS float32 range");;
  Ok (float_of_double parsed).

Definition booleanValue (value : J) (path : string) : fallible bool :=
  throw_if (negb (isBool value)) (codecError path "expected a boolean");;
  Ok (asBool value).

Definition stringValue (value : J) (path : string) : fallible string :=
  throw_if (negb (isString value)) (codecError path "expected a string");;
  Ok (asString value).

(** The loop over [getMemberNames()]: the first member not allowed. *)
Fixpoint reject_members (members allowed : list string) (path : string) : fallible unit :=
  match members with
  | [] => Ok tt
  | member :: members =>
      if bool_decide (member ∈ allowed) then reject_members members allowed path
      else Err (codecError (member_path path member) "unknown field")
  end.

Definition rejectUnknownMembers (value : J) (allowed : list string) (path : string)
    : fallible unit :=
  reject_members (getMemberNames value) allowed path.

Definition timeValue (value : J) (path : string) : fallible (Z * Z) :=
  throw_if (negb (isObject value)) (codecError path "expected {secs, nsecs} for ROS time");;
  rejectUnknownMembers value ["secs"; "nsecs"] path;;
  throw_if (negb (isMember value "secs") || negb (isMember value "nsecs"))
    (codecError path "ROS time requires secs and nsecs");;
  secs ← unsignedInteger 32 (at_key value "secs") (path +:+ ".secs");
  nsecs ← unsignedInteger 32 (at_key value "nsecs") (path +:+ ".nsecs");
  throw_if (nsecs >=? 1000000000)
    (codecError (path +:+ ".nsecs") "ROS time nanoseconds must be below 1e9");;
  ros_Time secs nsecs.

Definition durationValue (value : J) (path : string) : fallible (Z * Z) :=
  throw_if (negb (isObject value)) (codecError path "expected {secs, nsecs} for ROS duration");;
  rejectUnknownMembers value ["secs"; "nsecs"] path;;
  throw_if (negb (isMember value "secs") || negb (isMember value "nsecs"))
    (codecError path "ROS duration requires secs and nsecs");;
  secs ← signedInteger 32 (at_key value "secs") (path +:+ ".secs");
  nsecs ← signedInteger 32 (at_key value "nsecs") (path +:+ ".nsecs");
  throw_if ((nsecs <=? -1000000000) || (nsecs >=? 1000000000))
    (codecError (path +:+ ".nsecs") "ROS duration nanoseconds must be between -1e9 and 1e9");;
  ros_Duration secs nsecs.

(** The conversion that both switches of [decodeValue] select for a scalar
    type, of a field or of an array element. *)
Definition decodeScalar (type : MessageType) (value : J) (path : string) : fallible Scalar :=
  match type with
  | TBool => b ← booleanValue value path; Ok (VBool b)
  | TUInt8 => z ← unsignedInteger 8 value path; Ok (VUInt8 z)
  | TUInt16 => z ← unsignedInteger 16 value path; Ok (VUInt16 z)
  | TUInt32 => z ← unsignedInteger 32 value path; Ok (VUInt32 z)
  | TUInt64 => z ← unsignedInteger 64 value path; Ok (VUInt64 z)
  | TInt8 => z ← signedInteger 8 value path; Ok (VInt8 z)
  | TInt16 => z ← signedInteger 16 value path; Ok (VInt16 z)
  | TInt32 => z ← signedInteger 32 value path; Ok (VInt32 z)
  | TInt64 => z ← signedInteger 64 value path; Ok (VInt64 z)
  | TFloat32 => f ← float32Value value path; Ok (VFloat32 f)
  | TFloat64 => f ← floatingPoint value path; Ok (VFloat64 f)
  | TString => s ← stringValue value path; Ok (VString s)
  | TTime => '(sec, nsec) ← timeValue value path; Ok (VTime sec nsec)
  | TDuration => '(sec, nsec) ← durationValue value path; Ok (VDuration sec nsec)
  | TNone | TCompound | TArray => Err (codecError path "unsupported ROS array element type")
  end.

(** ** Scalars to JSON *)

Definition encodeTime (sec nsec : Z) : J :=
  set_key (set_key emptyObject "secs" (ofUInt sec)) "nsecs" (ofUInt nsec).

Definition encodeDuration (sec nsec : Z) : J :=
  set_key (set_key emptyObject "secs" (ofInt sec)) "nsecs" (ofInt nsec).

Definition encodeScalar (s : Scalar) (path : string) : fallible J :=
  match s with
  | VBool b => Ok (ofBool b)
  | VUInt8 z | VUInt16 z | VUInt32 z => Ok (ofUInt z)
  | VUInt64 z => Ok (ofString (to_string z))
  | VInt8 z | VInt16 z | VInt32 z => Ok (ofInt z)
  | VInt64 z => Ok (ofString (to_string z))
  | VFloat32 f =>
      throw_if (negb (is_finite f))
        (codecError path "non-finite float32 cannot be represented as JSON");;
      Ok (ofDouble (double_of_float f))
  | VFloat64 f =>
      throw_if (negb (is_finite f))
        (codecError path "non-finite float64 cannot be represented as JSON");;
      Ok (ofDouble f)
  | VString s => Ok (ofString s)
  | VTime sec nsec => Ok (encodeTime sec nsec)
  | VDuration sec nsec => Ok (encodeDuration sec nsec)
  end.

(** ** Messages *)

Context {M : Type} `{BabelFish M}.
Context (limits : Limits).

(** [length] and [fixed] are the array's [length()] and [isFixedSize()]. *)
Definition validateArrayInput (value : J) (fixed : bool) (length : nat)
    (path : string) : fallible unit :=
  throw_if (negb (isArray value)) (codecError path "expected an array");;
  throw_if (Z.of_nat (jsize value) >? maximum_array_elements limits)
    (codecError path "maximum array element count exceeded");;
  throw_if (fixed && negb (Nat.eqb (jsize value) length))
    (codecError path ("fixed ROS array requires exactly " +:+
                      to_string (Z.of_nat length) +:+ " elements"));;
  throw_if (negb fixed && negb (Nat.eqb length 0))
    (codecError path "dynamic ROS array target must be empty before decoding").

(** The element loop of [decodePrimitiveArray], [count] elements from [index]. *)
Fixpoint decode_items (type : MessageType) (fixed : bool) (value : J) (path : string)
    (index count : nat) (message : M) : fallible M :=
  match count with
  | O => Ok message
  | S count =>
      item ← decodeScalar type (at_index value index) (item_path path index);
      decode_items type fixed value path (S index) count
        (if fixed then array_assign message index item else array_append message item)
  end.

Definition decodePrimitiveArray (type : MessageType) (fixed : bool) (length : nat)
    (value : J) (message : M) (path : string) : fallible M :=
  validateArrayInput value fixed length path;;
  decode_items type fixed value path 0 (jsize value) message.

(** The element loop of [encodePrimitiveArray] and of the compound-array case,
    which differ in the element type and its encoder. *)
Fixpoint encode_elements {A} (encoder : A → string → fallible J) (path : string)
    (index : nat) (elements : list A) (result : J) : fallible J :=
  match elements with
  | [] => Ok result
  | element :: elements =>
      item ← encoder element (item_path path index);
      encode_elements encoder path (S index) elements (jappend result item)
  end.

Definition encodePrimitiveArray (elements : list Scalar) (path : string) : fallible J :=
  encode_elements encodeScalar path 0 elements emptyArray.

Section recursion.
(** The recursive call on a member or element. *)
Context (decode_child : J → M → string → fallible M).
Context (encode_child : M → string → fallible J).

(** The member loop of a compound: absent members keep their value. *)
Fixpoint decode_members (value : J) (path : string) (keys : list string)
    (values : list M) : fallible (list M) :=
  match keys, values with
  | key :: keys, child :: values =>
      child ← (if isMember value key
               then decode_child (at_key value key) child (member_path path key)
               else Ok child);
      values ← decode_members value path keys values;
      Ok (child :: values)
  | _, _ => Ok []
  end.

(** The element loop of a compound array. *)
Fixpoint decode_children (fixed : bool) (value : J) (path : string)
    (index count : nat) (message : M) : fallible M :=
  match count with
  | O => Ok message
  | S count =>
      let message := if fixed then message else append_empty message in
      match view message with
      | CompoundArrayMessage _ elements =>
          match elements !! index with
          | Some child =>
              child ← decode_child (at_index value index) child (item_path path index);
              decode_children fixed value path (S index) count
                (set_child message index child)
          | None => Err OtherExn
          end
      | _ => Err OtherExn
      end
  end.

Fixpoint encode_members (path : string) (keys : list string) (values : list M)
    (result : J) : fallible J :=
  match keys, values with
  | key :: keys, child :: values =>
      item ← encode_child child (member_path path key);
      encode_members path keys values (set_key result key item)
  | _, _ => Ok result
  end.
End recursion.

Fixpoint decodeValue (fuel : nat) (value : J) (message : M) (path : string) (depth : Z)
    : fallible M :=
  match fuel with
  | O => Err OtherExn
  | S fuel =>
      checkDepth depth (maximum_depth limits) path;;
      match view message with
      | ScalarMessage s =>
          s ← decodeScalar (scalar_type s) value path;
          Ok (set_scalar message s)
      | CompoundMessage keys values =>
          throw_if (negb (isObject value)) (codecError path "expected an object");;
          rejectUnknownMembers value keys path;;
          throw_if (negb (Nat.eqb (length keys) (length values)))
            (codecError path "invalid dynamic message field table");;
          values ← decode_members
                     (λ v m p, decodeValue fuel v m p (depth + 1)) value path keys values;
          Ok (set_values message values)
      | ArrayMessage type fixed elements =>
          decodePrimitiveArray type fixed (length elements) value message path
      | CompoundArrayMessage fixed elements =>
          validateArrayInput value fixed (length elements) path;;
          decode_children (λ v m p, decodeValue fuel v m p (depth + 1))
            fixed value path 0 (jsize value) message
      | OtherArrayMessage _ => Err (codecError path "unsupported ROS array element type")
      | OtherMessage => Err (codecError path "unsupported ROS message field type")
      end
  end.

Fixpoint encodeValue (fuel : nat) (message : M) (path : string) (depth : Z) : fallible J :=
  match fuel with
  | O => Err OtherExn
  | S fuel =>
      checkDepth depth (maximum_depth limits) path;;
      match view message with
      | ScalarMessage s => encodeScalar s path
      | CompoundMessage keys values =>
          throw_if (negb (Nat.eqb (length keys) (length values)))
            (codecError path "invalid dynamic message field table");;
          encode_members (λ m p, encodeValue fuel m p (depth + 1)) path keys values emptyObject
      | ArrayMessage _ _ elements =>
          throw_if (Z.of_nat (length elements) >? maximum_array_elements limits)
            (codecError path "maximum array element count exceeded");;
          encodePrimitiveArray elements path
      | CompoundArrayMessage _ elements =>
          throw_if (Z.of_nat (length elements) >? maximum_array_elements limits)
            (codecError path "maximum array element count exceeded");;
          encode_elements (λ m p, encodeValue fuel m p (depth + 1)) path 0 elements emptyArray
      | OtherArrayMessage length =>
          throw_if (Z.of_nat length >? maximum_array_elements limits)
            (codecError path "maximum array element count exceeded");;
          Err (codecError path "unsupported ROS array element type")
      | OtherMessage => Err (codecError path "unsupported ROS message field type")
      end
  end.

(** Depths 0 to [maximum_depth] pass the check and the next one throws. *)
Definition codec_fuel : nat := S (S (Z.to_nat (maximum_depth limits))).

Definition decode (value : J) (message : M) : fallible M :=
  decodeValue codec_fuel value message "$" 0.

Definition encode (message : M) : fallible J :=
  encodeValue codec_fuel message "$" 0.
End codec.

(** ** Lemmas: canonical integer texts *)

Definition is_minus (neg : bool) (text : list byte) : Prop :=
  bool_decide (head text = Some "-"%char) = neg.

(** The checks of [integerText] on a text of the given sign. *)
Lemma canonical_checks neg l :
  (neg = false → head l ≠ Some "-"%char) →
  (match signed_digits neg l !! (if neg then 1%nat else 0%nat) with
   | None => true
   | Some c =>
       negb (is_digit c) ||
       (bool_decide (c = "0"%char) &&
        negb (Nat.eqb (length (signed_digits neg l)) ((if neg then 1%nat else 0%nat) + 1)))
   end = false ∧
   negb (forallb is_digit (drop ((if neg then 1 else 0) + 1) (signed_digits neg l))) = false) ↔
  canonical_digits l.
Proof.
  intros Hneg. assert (∀ l', forallb is_digit l' = true ↔ all_digits l') as Hall.
  { intros l'. induction l' as [|c l' IH]; cbn; [done|].
    rewrite andb_true_iff, IH, Forall_cons. done. }
  destruct l as [|c l].
  { split; [|by intros [? _]]. destruct neg; cbn; naive_solver. }
  assert (negb (is_digit c) || (bool_decide (c = "0"%char) && negb (Nat.eqb (length l) 0)) = false ∧
          negb (forallb is_digit l) = false ↔ canonical_digits (c :: l)) as Hc.
  { unfold canonical_digits. rewrite orb_false_iff, !negb_false_iff, andb_false_iff, Hall,
      bool_decide_eq_false, negb_false_iff, Nat.eqb_eq, Forall_cons. cbn.
    split.
    - intros [[? Hz] ?]. split_and!; [done..|]. intros [= ->].
      destruct Hz as [|Hz]; [done|]. by destruct l.
    - intros (_ & [? ?] & Hz). split; [split; [done|]|done].
      destruct (decide (c = "0"%char)) as [->|]; [right|by left].
      by injection (Hz eq_refl) as ->. }
  destruct neg; exact Hc.
Qed.

Lemma to_string_canonical s :
  (∃ z, s = to_string z) ↔
  ∃ neg l, string_bytes s = signed_digits neg l ∧ canonical_digits l ∧
           ¬ (neg = true ∧ l = ["0"%char]).
Proof.
  split.
  - intros [z ->]. exists (z <? 0), (to_digits (Z.abs z)).
    rewrite to_string_signed, string_bytes_string. split; [done|].
    split; [apply canonical_to_digits; lia|]. intros [Hz E].
    apply (f_equal (digits_value 0)) in E. rewrite digits_value_to_digits in E by lia.
    change (digits_value 0 _) with 0 in E. lia.
  - intros (neg & l & E & Hc & Hz). pose proof (to_digits_canonical l Hc) as Hl.
    pose proof Hc as (_ & Hd & _). pose proof (digits_value_nonneg 0 l ltac:(lia) Hd) as Hv.
    exists (if neg then - digits_value 0 l else digits_value 0 l).
    rewrite <- (bytes_string_bytes s), E, to_string_signed. f_equal. destruct neg.
    + assert (digits_value 0 l ≠ 0) as Hnz.
      { intros E0. apply Hz. split; [done|]. by rewrite <- Hl, E0. }
      rewrite Z.abs_opp, Z.abs_eq, Hl by done. by rewrite (proj2 (Z.ltb_lt _ _)) by lia.
    + rewrite Z.abs_eq, Hl by done. by rewrite (proj2 (Z.ltb_ge _ _)) by lia.
Qed.

Section codec_lemmas.
Context {J : Type} `{JsonCpp J} `{RosTime}.

(** [denotes_int v z]: [v] is the canonical decimal string of [z], or an
    integral JSON number of value [z]. *)
Definition denotes_int (v : J) (z : Z) : Prop :=
  if isString v then asString v = to_string z
  else isIntegral v = true ∧ z = if isUInt64 v then asUInt64 v else asInt64 v.

Lemma integerText_spec v path text :
  integerText v path = Ok text ↔ ∃ z, denotes_int v z ∧ text = to_string z.
Proof.
  unfold integerText, denotes_int. destruct (isString v) eqn:Es; cycle 1.
  { destruct (isIntegral v), (isUInt64 v); naive_solver. }
  trans (text = asString v ∧ ∃ z, asString v = to_string z); [|naive_solver].
  rewrite to_string_canonical. set (s := asString v).
  guards. rewrite bool_decide_eq_false. set (neg := bool_decide (head _ = _)).
  assert (∃ l, string_bytes s = signed_digits neg l ∧ (neg = false → head l ≠ Some "-"%char))
    as (l & El & Hl).
  { subst neg. case_bool_decide as E; [|by exists (string_bytes s)].
    destruct (string_bytes s) as [|c l]; [done|]. injection E as ->. by exists l. }
  pose proof (canonical_checks neg l Hl) as Hc. rewrite El.
  assert (bool_decide (s = "-0") = false ↔ ¬ (neg = true ∧ l = ["0"%char])) as Hz.
  { rewrite bool_decide_eq_false. apply not_iff_compat. split.
    - intros Es0. rewrite Es0 in El. destruct neg; [by injection El as <-|].
      exfalso. cbn in El. subst l. by apply Hl.
    - intros [-> ->]. by rewrite <- (bytes_string_bytes s), El. }
  split.
  - intros (_ & ? & ? & ? & <-). split; [done|]. exists neg, l. tauto.
  - intros (-> & neg' & l' & E & Hcl & Hz').
    assert (neg' = neg ∧ l' = l) as [-> ->].
    { destruct neg, neg'; cbn in E; simplify_eq; try done.
      - exfalso. destruct Hcl as (_ & Hd & _). by inversion Hd.
      - exfalso. by apply Hl. }
    split; [|tauto]. destruct Hcl as (Hne & _). by destruct neg, l.
Qed.

Lemma denotes_int_inj v z1 z2 : denotes_int v z1 → denotes_int v z2 → z1 = z2.
Proof.
  unfold denotes_int. destruct (isString v); [|intros [_ ->] [_ ->]; done].
  intros E1 E2. apply to_string_inj. congruence.
Qed.

Lemma integerText_denotes v path z :
  denotes_int v z → integerText v path = Ok (to_string z).
Proof. intros. apply integerText_spec. eauto. Qed.

Lemma signedInteger_spec width v path z :
  0 < width <= 64 →
  signedInteger width v path = Ok z ↔
  denotes_int v z ∧ - 2 ^ (width - 1) <= z <= 2 ^ (width - 1) - 1.
Proof.
  intros Hw. assert (2 ^ (width - 1) <= 2 ^ 63) by (apply Z.pow_le_mono_r; lia).
  assert (∀ z0, signedInteger width v path = Ok z →
            denotes_int v z0 → z0 = z ∧ - 2 ^ (width - 1) <= z <= 2 ^ (width - 1) - 1) as Hfwd.
  { intros z0 Hz Hd. unfold signedInteger in Hz. rewrite (integerText_denotes _ _ _ Hd) in Hz.
    cbn [mbind result_bind] in Hz. rewrite stoll_to_string in Hz.
    destruct (_ || _); [done|]. revert Hz. cbn [mbind result_bind]. guards.
    rewrite !orb_false_iff, Z.ltb_ge, Z.gtb_ltb, Z.ltb_ge. lia. }
  split.
  - intros Hz. assert (∃ z0, denotes_int v z0) as [z0 Hz0].
    { unfold signedInteger in Hz. apply bind_Ok in Hz as (text & Ht & _).
      apply integerText_spec in Ht as (z0 & ? & _). eauto. }
    destruct (Hfwd z0 Hz Hz0) as [<- ?]. done.
  - intros [Hd Hz]. unfold signedInteger. rewrite (integerText_denotes _ _ _ Hd).
    cbn [mbind result_bind]. rewrite stoll_to_string. unfold INT64_MIN, INT64_MAX.
    rewrite Z.gtb_ltb, (proj2 (Z.ltb_ge _ _)), (proj2 (Z.ltb_ge _ _)) by lia. cbn [orb].
    cbn [mbind result_bind]. guards. rewrite Nat.eqb_refl, !orb_false_iff, Z.gtb_ltb, !Z.ltb_ge.
    split; [lia|done].
Qed.

Lemma unsignedInteger_spec width v path z :
  0 < width <= 64 →
  unsignedInteger width v path = Ok z ↔ denotes_int v z ∧ 0 <= z < 2 ^ width.
Proof.
  intros Hw. assert (2 ^ width <= 2 ^ 64) by (apply Z.pow_le_mono_r; lia).
  assert (∀ z0, bool_decide (head (string_bytes (to_string z0)) = Some "-"%char) = (z0 <? 0)) as Hs.
  { intros z0. rewrite to_string_signed, string_bytes_string.
    destruct (Z.ltb_spec z0 0); [done|]. cbn [signed_digits]. apply bool_decide_false.
    intros E. pose proof (all_digits_to_digits (Z.abs z0) ltac:(lia)) as Hd.
    destruct (to_digits (Z.abs z0)) as [|c l]; [done|]. injection E as ->. by inversion Hd. }
  unfold unsignedInteger. rewrite bind_Ok. split.
  - intros (text & Ht & Hz). apply integerText_spec in Ht as (z0 & Hd & ->).
    revert Hz. guards. rewrite Hs, Z.ltb_ge. intros [Hnn Hz].
    rewrite stoull_to_string in Hz by done. destruct (_ >? _); [done|].
    revert Hz. cbn [mbind result_bind]. guards.
    rewrite orb_false_iff, Z.gtb_ltb, Z.ltb_ge. intros [[_ ?] <-]. split; [done|lia].
  - intros [Hd Hz]. exists (to_string z). split; [by apply integerText_denotes|].
    guards. rewrite Hs, Z.ltb_ge. split; [lia|]. rewrite stoull_to_string by lia.
    unfold UINT64_MAX. rewrite Z.gtb_ltb, (proj2 (Z.ltb_ge _ _)) by lia.
    cbn [mbind result_bind]. guards. rewrite Nat.eqb_refl, Z.gtb_ltb.
    cbn [negb orb]. rewrite Z.ltb_ge. split; [lia|done].
Qed.

(** ** Lemmas: error classes *)

(** A rejected payload: permanent, with the codec's code. *)
Definition payload_error (e : exn) : Prop :=
  exn_code e = Some "invalid_message_payload" ∧ exn_class e = Some "permanent".

(** ... or an exception thrown by a roscpp time constructor. *)
Definition decode_error (e : exn) : Prop :=
  payload_error e ∨ ∃ sec nsec, ros_Time sec nsec = Err e ∨ ros_Duration sec nsec = Err e.

Lemma codecError_payload path message : payload_error (codecError path message).
Proof. done. Qed.

Lemma codecError_decode path message : decode_error (codecError path message).
Proof. by left. Qed.

Lemma reject_members_fails members allowed path :
  fails_with payload_error (reject_members members allowed path).
Proof. induction members as [|m ms IH]; cbn [reject_members]; fails. Qed.

Lemma integerText_fails v path : fails_with decode_error (integerText v path).
Proof. unfold integerText. fails; apply codecError_decode. Qed.

Lemma signedInteger_fails w v path : fails_with decode_error (signedInteger w v path).
Proof.
  unfold signedInteger. fails; try apply integerText_fails; apply codecError_decode.
Qed.

Lemma unsignedInteger_fails w v path : fails_with decode_error (unsignedInteger w v path).
Proof.
  unfold unsignedInteger. fails; try apply integerText_fails; apply codecError_decode.
Qed.

Lemma decodeScalar_fails t v path : fails_with decode_error (decodeScalar t v path).
Proof.
  pose proof codecError_decode as Hc.
  assert (∀ ms allowed p, fails_with decode_error (reject_members ms allowed p)) as Hm.
  { intros ms al p. pose proof (reject_members_fails ms al p). unfold decode_error.
    destruct (reject_members ms al p); cbn in *; auto. }
  destruct t; cbn [decodeScalar];
    unfold booleanValue, float32Value, floatingPoint, stringValue, timeValue, durationValue,
      rejectUnknownMembers; fails; auto using signedInteger_fails, unsignedInteger_fails.
  - destruct (ros_Time a2 a3) eqn:E; cbn; [done|]. right. eauto.
  - destruct (ros_Duration a2 a3) eqn:E; cbn; [done|]. right. eauto.
Qed.

(** ** Lemmas: one scalar there and back *)

(** Values a ROS field of the type can hold, and times with normalised
    nanoseconds. *)
Definition scalar_wf (s : Scalar) : Prop :=
  match s with
  | VBool _ | VString _ => True
  | VUInt8 z => 0 <= z < 2 ^ 8
  | VUInt16 z => 0 <= z < 2 ^ 16
  | VUInt32 z => 0 <= z < 2 ^ 32
  | VUInt64 z => 0 <= z < 2 ^ 64
  | VInt8 z => - 2 ^ 7 <= z < 2 ^ 7
  | VInt16 z => - 2 ^ 15 <= z < 2 ^ 15
  | VInt32 z => - 2 ^ 31 <= z < 2 ^ 31
  | VInt64 z => - 2 ^ 63 <= z < 2 ^ 63
  | VFloat32 f => valid_float f = true
  | VFloat64 f => valid_double f = true
  | VTime sec nsec => 0 <= sec < 2 ^ 32 ∧ 0 <= nsec < 10 ^ 9
  | VDuration sec nsec => - 2 ^ 31 <= sec < 2 ^ 31 ∧ 0 <= nsec < 10 ^ 9
  end.

(** What decoding establishes by its own checks: integers, times and durations
    in the range of their type, and floating point numbers that are finite in
    the field's own precision, so a [float32] that did not overflow. *)
Definition scalar_in_range (s : Scalar) : Prop :=
  match s with
  | VFloat32 f | VFloat64 f => is_finite f = true
  | _ => scalar_wf s
  end.

Context `{!JsonCppLaws J} `{!RosTimeLaws}.

Lemma reject_members_ok members allowed path :
  reject_members members allowed path = Ok tt ↔ ∀ k, k ∈ members → k ∈ allowed.
Proof.
  induction members as [|m ms IH]; cbn [reject_members]; [set_solver|].
  case_bool_decide; [rewrite IH; set_solver|]. split; [done|]. set_solver.
Qed.

Lemma denotes_ofUInt n : 0 <= n < 2 ^ 32 → denotes_int (ofUInt n) n.
Proof.
  intros Hn. destruct (ofUInt_is n Hn) as (Ea&Eb&Ec&Ed). unfold denotes_int.
  by rewrite Ea, Ec.
Qed.

Lemma denotes_ofInt z : - 2 ^ 31 <= z < 2 ^ 31 → denotes_int (ofInt z) z.
Proof.
  intros Hz. destruct (ofInt_is z Hz) as (Ea&Eb&Ec&Ed&Ee). unfold denotes_int.
  rewrite Ea, Ec. split; [done|]. destruct (Z.leb_spec 0 z); [by rewrite Ed|done].
Qed.

Lemma denotes_ofString z : denotes_int (ofString (to_string z)) z.
Proof.
  destruct (ofString_is (to_string z)) as [Ea Eb]. unfold denotes_int. by rewrite Ea.
Qed.

(** The object [{secs, nsecs}] both time encoders build. *)
Definition time_object (secs nsecs : J) : J :=
  set_key (set_key emptyObject "secs" secs) "nsecs" nsecs.

Lemma time_object_spec (secs nsecs : J) path :
  let v := time_object secs nsecs in
  isObject v = true ∧ rejectUnknownMembers v ["secs"; "nsecs"] path = Ok tt ∧
  isMember v "secs" = true ∧ isMember v "nsecs" = true ∧
  at_key v "secs" = secs ∧ at_key v "nsecs" = nsecs.
Proof.
  unfold time_object. destruct (emptyObject_is "") as [He _].
  destruct (set_key_is emptyObject "secs" secs "" He) as (Ea & _ & _).
  pose proof (λ k, set_key_is _ "nsecs" nsecs k Ea) as Hn.
  pose proof (λ k, set_key_is _ "secs" secs k He) as Hs. cbv zeta. split_and!.
  - apply (Hn "").
  - apply reject_members_ok. intros k Hk%members_of_object; [|apply (Hn "")].
    destruct (Hn k) as (_ & E & _), (Hs k) as (_ & E' & _), (emptyObject_is k) as [_ E''].
    rewrite E, E', E'', orb_false_r in Hk. do 2 case_bool_decide; set_solver.
  - destruct (Hn "secs") as (_ & -> & _), (Hs "secs") as (_ & -> & _). done.
  - destruct (Hn "nsecs") as (_ & -> & _). done.
  - destruct (Hn "secs") as (_ & _ & ->), (Hs "secs") as (_ & _ & ->). done.
  - destruct (Hn "nsecs") as (_ & _ & ->). done.
Qed.

Lemma decode_time sec nsec path :
  0 <= sec < 2 ^ 32 → 0 <= nsec < 10 ^ 9 →
  timeValue (encodeTime sec nsec) path = Ok (sec, nsec).
Proof.
  intros Hs Hn. unfold timeValue, encodeTime.
  destruct (time_object_spec (ofUInt sec) (ofUInt nsec) path) as (Ea&Eb&Ec&Ed&Ee&Ef).
  unfold time_object in *. rewrite Ea, Ec, Ed, Ee, Ef, Eb. cbn [negb orb throw_if mbind result_bind].
  rewrite (proj2 (unsignedInteger_spec 32 (ofUInt sec) _ sec ltac:(lia)))
    by (split; [apply denotes_ofUInt|]; lia).
  cbn [mbind result_bind].
  rewrite (proj2 (unsignedInteger_spec 32 (ofUInt nsec) _ nsec ltac:(lia)))
    by (split; [apply denotes_ofUInt|]; lia).
  cbn [mbind result_bind]. rewrite Z.geb_leb, (proj2 (Z.leb_gt _ _)) by lia.
  by apply ros_Time_normal.
Qed.

Lemma decode_duration sec nsec path :
  - 2 ^ 31 <= sec < 2 ^ 31 → 0 <= nsec < 10 ^ 9 →
  durationValue (encodeDuration sec nsec) path = Ok (sec, nsec).
Proof.
  intros Hs Hn. unfold durationValue, encodeDuration.
  destruct (time_object_spec (ofInt sec) (ofInt nsec) path) as (Ea&Eb&Ec&Ed&Ee&Ef).
  unfold time_object in *. rewrite Ea, Ec, Ed, Ee, Ef, Eb. cbn [negb orb throw_if mbind result_bind].
  rewrite (proj2 (signedInteger_spec 32 (ofInt sec) _ sec ltac:(lia)))
    by (split; [apply denotes_ofInt|]; lia).
  cbn [mbind result_bind].
  rewrite (proj2 (signedInteger_spec 32 (ofInt nsec) _ nsec ltac:(lia)))
    by (split; [apply denotes_ofInt|]; lia).
  cbn [mbind result_bind].
  rewrite Z.geb_leb, (proj2 (Z.leb_gt _ _)), (proj2 (Z.leb_gt _ _)) by lia.
  by apply ros_Duration_normal.
Qed.

Lemma decode_encode_scalar s j path path' :
  scalar_wf s → encodeScalar s path = Ok j → decodeScalar (scalar_type s) j path' = Ok s.
Proof.
  assert (∀ w z v, 0 < w <= 64 → denotes_int v z → 0 <= z < 2 ^ w →
            unsignedInteger w v path' = Ok z) as Hu.
  { intros. by apply unsignedInteger_spec. }
  assert (∀ w z v, 0 < w <= 64 → denotes_int v z → - 2 ^ (w - 1) <= z < 2 ^ (w - 1) →
            signedInteger w v path' = Ok z) as Hi.
  { intros. apply signedInteger_spec; [done|]. split; [done|lia]. }
  destruct s; cbn [scalar_wf encodeScalar scalar_type decodeScalar]; intros Hwf Hj;
    try (injection Hj as <-).
  - unfold booleanValue. destruct (ofBool_is b) as [-> ->]. done.
  - rewrite (Hu 8 z) by (try apply denotes_ofUInt; lia). done.
  - rewrite (Hu 16 z) by (try apply denotes_ofUInt; lia). done.
  - rewrite (Hu 32 z) by (try apply denotes_ofUInt; lia). done.
  - rewrite (Hu 64 z) by (try apply denotes_ofString; lia). done.
  - rewrite (Hi 8 z) by (try apply denotes_ofInt; lia). done.
  - rewrite (Hi 16 z) by (try apply denotes_ofInt; lia). done.
  - rewrite (Hi 32 z) by (try apply denotes_ofInt; lia). done.
  - rewrite (Hi 64 z) by (try apply denotes_ofString; lia). done.
  - revert Hj. guards. rewrite negb_false_iff. intros [Hf <-].
    unfold float32Value, floatingPoint. destruct (ofDouble_is (double_of_float f)) as [-> ->];
      [by apply valid_double_of_float|].
    rewrite is_finite_double_of_float by done.
    cbn [negb throw_if mbind result_bind].
    rewrite double_of_float_in_range, float_of_double_of_float by done. done.
  - revert Hj. guards. rewrite negb_false_iff. intros [Hf <-].
    unfold floatingPoint. destruct (ofDouble_is f) as [-> ->]; [done|]. by rewrite Hf.
  - unfold stringValue. destruct (ofString_is s) as [-> ->]. done.
  - by rewrite decode_time by lia.
  - by rewrite decode_duration by lia.
Qed.

(** The range check keeps narrowing from overflowing to infinity. *)
Lemma float32Value_finite v path f : float32Value v path = Ok f → is_finite f = true.
Proof.
  unfold float32Value, floatingPoint. intros Hx. apply bind_Ok in Hx as (x & Hd & Hx).
  res_inv Hd. res_inv Hx. rewrite negb_false_iff in *. apply is_finite_float_of_double; [apply asDouble_valid|done..].
Qed.

(** A decoded scalar has the type of its field and lies in the type's range. *)
Lemma decodeScalar_range t v path s :
  decodeScalar t v path = Ok s → scalar_type s = t ∧ scalar_in_range s.
Proof.
  assert (∀ w z, 0 < w <= 64 → unsignedInteger w v path = Ok z → 0 <= z < 2 ^ w) as Hu.
  { intros w z Hw Hz. by apply unsignedInteger_spec in Hz as [_ ?]. }
  assert (∀ w z, 0 < w <= 64 → signedInteger w v path = Ok z →
            - 2 ^ (w - 1) <= z < 2 ^ (w - 1)) as Hi.
  { intros w z Hw Hz. apply signedInteger_spec in Hz as [_ ?]; [lia|done]. }
  destruct t; cbn [decodeScalar]; intros Hd; try done;
    apply bind_Ok in Hd as (x & Hx & Hd); try (injection Hd as <-);
    cbn [scalar_type scalar_in_range scalar_wf]; try (split; [done|]); try done.
  all: try (apply Hu in Hx; lia). all: try (apply Hi in Hx; cbn in *; lia).
  - by apply float32Value_finite in Hx.
  - unfold floatingPoint in Hx. res_inv Hx. by rewrite negb_false_iff in *.
  - destruct x as [sec nsec]. injection Hd as <-. split; [done|]. cbn.
    unfold timeValue in Hx. res_inv Hx.
    match goal with H : unsignedInteger _ (at_key _ "secs") _ = Ok ?x,
      H' : unsignedInteger _ (at_key _ "nsecs") _ = Ok ?y |- _ =>
      apply unsignedInteger_spec in H as [_ ?]; [|lia];
      apply unsignedInteger_spec in H' as [_ ?]; [|lia] end.
    rewrite Z.geb_leb, Z.leb_gt in *. rewrite ros_Time_normal in Hx by lia.
    injection Hx as <- <-. lia.
  - destruct x as [sec nsec]. injection Hd as <-. split; [done|]. cbn.
    unfold durationValue in Hx. res_inv Hx. by apply ros_Duration_range in Hx.
Qed.
End codec_lemmas.

(** ** Lemmas: the element and member loops *)

Section loops.
Context {J : Type} `{JsonCpp J} `{!JsonCppLaws J}.

Lemma encode_elements_spec {A} (enc : A → string → fallible J) path l i r j :
  isArray r = true → encode_elements enc path i l r = Ok j →
  isArray j = true ∧ jsize j = (jsize r + length l)%nat ∧
  (∀ k, (k < jsize r)%nat → at_index j k = at_index r k) ∧
  ∀ k x, l !! k = Some x →
    enc x (item_path path (i + k)) = Ok (at_index j (jsize r + k)).
Proof.
  revert i r. induction l as [|x l IH]; intros i r Hr He; cbn [encode_elements] in He.
  { injection He as <-. cbn. rewrite Nat.add_0_r. done. }
  apply bind_Ok in He as (item & Hitem & He).
  destruct (jappend_is r item Hr) as (Ha & Hs & Hlast & Hold).
  destruct (IH _ _ Ha He) as (Hj & Hsz & Hk & Hx). split_and!; [done|cbn; lia|..].
  - intros k Hlt. rewrite Hk by lia. by apply Hold.
  - intros [|k] y Hy; cbn in Hy.
    + injection Hy as ->. rewrite !Nat.add_0_r, Hk, Hlast by lia. done.
    + rewrite Hs in Hx. specialize (Hx k y Hy).
      by rewrite <- !Nat.add_succ_comm.
Qed.

Context {M : Type}.

Lemma encode_members_spec (enc : M → string → fallible J) path ks vs r j :
  NoDup ks → length ks = length vs → isObject r = true →
  encode_members enc path ks vs r = Ok j →
  isObject j = true ∧
  (∀ k, isMember j k = bool_decide (k ∈ ks) || isMember r k) ∧
  (∀ k, k ∉ ks → at_key j k = at_key r k) ∧
  Forall2 (λ k v, enc v (member_path path k) = Ok (at_key j k)) ks vs.
Proof.
  revert vs r. induction ks as [|k ks IH]; intros [|v vs] r Hnd Hlen Hr He; try done.
  { injection He as <-. split_and!; [done| |done|constructor].
    intros k. by rewrite bool_decide_false by set_solver. }
  cbn [encode_members] in He. apply bind_Ok in He as (item & Hitem & He).
  apply NoDup_cons in Hnd as [Hk Hnd]. injection Hlen as Hlen.
  pose proof (λ k', set_key_is r k item k' Hr) as Hset.
  destruct (IH vs _ Hnd Hlen (proj1 (Hset k)) He) as (Ho & Hm & Hat & Hall).
  split_and!; [done|..].
  - intros k'. rewrite Hm. destruct (Hset k') as (_ & -> & _).
    rewrite orb_assoc, <- bool_decide_or. f_equal. apply bool_decide_ext. rewrite elem_of_cons. tauto.
  - intros k' [Hne ?]%not_elem_of_cons. rewrite Hat by done.
    destruct (Hset k') as (_ & _ & ->). by rewrite decide_False.
  - constructor; [|done]. rewrite Hat by done.
    destruct (Hset k) as (_ & _ & ->). by rewrite decide_True.
Qed.

Lemma decode_members_spec (dec : J → M → string → fallible M) (R : M → M → Prop)
    value path ks vs vs0 :
  (∀ k, k ∈ ks → isMember value k = true) →
  Forall2 (λ k v0v, ∃ v', dec (at_key value k) (fst v0v) (member_path path k) = Ok v' ∧
             R (snd v0v) v') ks (zip vs0 vs) →
  length vs0 = length vs → length ks = length vs →
  ∃ vs', decode_members dec value path ks vs0 = Ok vs' ∧ Forall2 R vs vs'.
Proof.
  revert vs vs0. induction ks as [|k ks IH]; intros [|v vs] [|v0 vs0] Hm Hall Hl Hl';
    try done; cbn [decode_members]; [by exists []|].
  cbn [zip] in Hall. apply Forall2_cons in Hall as [(v' & Hv' & HR) Hall].
  rewrite Hm by set_solver. cbn [fst snd] in *. rewrite Hv'. cbn [mbind result_bind].
  destruct (IH vs vs0) as (vs' & -> & HR'); [set_solver|done|cbn in *; lia..|].
  exists (v' :: vs'). split; [done|]. by constructor.
Qed.

Context `{RosTime} `{BabelFish M} `{!BabelFishLaws M}.

Lemma decode_items_fixed t v path l i m :
  ∀ ls, view m = ArrayMessage t true l → (i + length ls = length l)%nat →
  Forall (λ s, scalar_type s = t) ls →
  (∀ k s, ls !! k = Some s →
     decodeScalar t (at_index v (i + k)) (item_path path (i + k)) = Ok s) →
  ∃ m', decode_items t true v path i (length ls) m = Ok m' ∧
        view m' = ArrayMessage t true (take i l ++ ls).
Proof.
  intros ls. revert i l m. induction ls as [|s ls IH]; intros i l m Hv Hlen Ht Hk.
  { exists m. split; [done|]. rewrite app_nil_r, Hv, take_ge; [done|]. cbn in Hlen. lia. }
  apply Forall_cons in Ht as [Hs Ht]. cbn in Hlen. cbn [length decode_items].
  pose proof (Hk 0%nat s eq_refl) as H0s. rewrite Nat.add_0_r in H0s. rewrite H0s.
  cbn [mbind result_bind].
  destruct (IH (S i) (<[i:=s]> l) (array_assign m i s)) as (m' & Hm' & Hv').
  - apply view_array_assign; [done..|lia].
  - rewrite length_insert. lia.
  - done.
  - intros k x Hx. rewrite !Nat.add_succ_comm. by apply (Hk (S k)).
  - exists m'. split; [done|]. rewrite Hv'. f_equal.
    rewrite take_S_r with (x := s) by (rewrite list_lookup_insert_eq; [done|lia]).
    rewrite take_insert_ge by lia. by rewrite <- app_assoc.
Qed.

Lemma decode_items_dynamic t v path l i m :
  ∀ ls, view m = ArrayMessage t false l →
  Forall (λ s, scalar_type s = t) ls →
  (∀ k s, ls !! k = Some s →
     decodeScalar t (at_index v (i + k)) (item_path path (i + k)) = Ok s) →
  ∃ m', decode_items t false v path i (length ls) m = Ok m' ∧
        view m' = ArrayMessage t false (l ++ ls).
Proof.
  intros ls. revert i l m. induction ls as [|s ls IH]; intros i l m Hv Ht Hk.
  { exists m. by rewrite app_nil_r. }
  apply Forall_cons in Ht as [Hs Ht]. cbn [length decode_items].
  pose proof (Hk 0%nat s eq_refl) as H0s. rewrite Nat.add_0_r in H0s. rewrite H0s.
  cbn [mbind result_bind].
  destruct (IH (S i) (l ++ [s]) (array_append m s)) as (m' & Hm' & Hv').
  - by apply view_array_append.
  - done.
  - intros k x Hx. rewrite !Nat.add_succ_comm. by apply (Hk (S k)).
  - exists m'. split; [done|]. by rewrite Hv', <- app_assoc.
Qed.

(** The children decoded so far are the first [i]; each next target is the
    existing element ([fixed]) or a fresh one. *)
Lemma decode_children_spec (dec : J → M → string → fallible M) (R : M → M → Prop)
    fixed v path xs :
  ∀ i m l done_,
  view m = CompoundArrayMessage fixed l →
  (if fixed then (i + length xs)%nat = length l else i = length l) →
  Forall2 R done_ (take i l) →
  (∀ k x, xs !! k = Some x → ∃ c, 
     (if fixed then l !! (i + k)%nat = Some c else c = empty_child m) ∧
     ∃ c', dec (at_index v (i + k)) c (item_path path (i + k)) = Ok c' ∧ R x c') →
  ∃ m' l', decode_children dec fixed v path i (length xs) m = Ok m' ∧
     view m' = CompoundArrayMessage fixed l' ∧ Forall2 R (done_ ++ xs) l'.
Proof.
  induction xs as [|x xs IH]; intros i m l d Hv Hlen Hd Hk.
  { exists m, l. cbn in *. rewrite app_nil_r. split_and!; [done..|].
    rewrite take_ge in Hd; [done|]. destruct fixed; lia. }
  cbn [length decode_children].
  destruct (Hk 0%nat x eq_refl) as (c & Hc & c' & Hdec & HR). rewrite Nat.add_0_r in *.
  set (m1 := if fixed then m else append_empty m).
  set (l1 := if fixed then l else l ++ [c]).
  assert (view m1 = CompoundArrayMessage fixed l1 ∧ empty_child m1 = empty_child m) as [Hv1 He1].
  { subst m1 l1. destruct fixed; [done|]. subst c. by apply view_append_empty. }
  assert (l1 !! i = Some c) as Hi.
  { subst l1. destruct fixed; [done|]. subst i. by rewrite lookup_app_r, Nat.sub_diag. }
  rewrite Hv1, Hi, Hdec. cbn [mbind result_bind].
  assert (i < length l1)%nat as Hlt by (by apply lookup_lt_Some in Hi).
  assert (if fixed then length l1 = length l else length l1 = S (length l)) as Hl1.
  { subst l1. destruct fixed; [done|]. rewrite length_app. cbn. lia. }
  destruct (view_set_child m1 fixed l1 i c' Hv1 Hlt) as [Hv2 He2].
  destruct (IH (S i) _ _ (d ++ [x]) Hv2) as (m' & l' & Hm' & Hv' & HR').
  - rewrite length_insert. destruct fixed; cbn in Hlen; lia.
  - rewrite take_S_r with (x := c') by (rewrite list_lookup_insert_eq; done).
    rewrite take_insert_ge by lia. apply Forall2_app; [|by repeat constructor].
    subst l1. destruct fixed; [done|]. by rewrite take_app_le by lia.
  - intros k y Hy. destruct (Hk (S k) y Hy) as (c2 & Hc2 & Hrest).
    exists c2. rewrite <- Nat.add_succ_comm in Hc2. split.
    + destruct fixed; [rewrite list_lookup_insert_ne by lia; done|]. by rewrite He2, He1.
    + destruct Hrest as (c3 & Hc3 & HR3). exists c3. by rewrite <- !Nat.add_succ_comm in *.
  - exists m', l'. split; [done|]. split; [done|]. by rewrite <- app_assoc in HR'.
Qed.
End loops.

(** ** Messages there and back *)

Section messages.
Context {J M : Type} `{JsonCpp J} `{!JsonCppLaws J} `{RosTime} `{!RosTimeLaws}
        `{BabelFish M} `{!BabelFishLaws M}.
Context (limits : Limits).

(** Two messages with the same content. *)
Inductive msg_eq (m m' : M) : Prop :=
| eq_scalar s : view m = ScalarMessage s → view m' = ScalarMessage s → msg_eq m m'
| eq_compound ks vs vs' :
    view m = CompoundMessage ks vs → view m' = CompoundMessage ks vs' →
    Forall2 msg_eq vs vs' → msg_eq m m'
| eq_array t f l :
    view m = ArrayMessage t f l → view m' = ArrayMessage t f l → msg_eq m m'
| eq_compound_array f l l' :
    view m = CompoundArrayMessage f l → view m' = CompoundArrayMessage f l' →
    Forall2 msg_eq l l' → msg_eq m m'.

(** [target m m0]: [m0] is a message of the type of [m] as a type registry
    creates it, with empty dynamic arrays, and [m] holds values of its types. *)
Inductive target (m m0 : M) : Prop :=
| target_scalar s s0 :
    view m = ScalarMessage s → view m0 = ScalarMessage s0 →
    scalar_type s = scalar_type s0 → scalar_wf s → target m m0
| target_compound ks vs vs0 :
    view m = CompoundMessage ks vs → view m0 = CompoundMessage ks vs0 →
    NoDup ks → length ks = length vs → Forall2 target vs vs0 → target m m0
| target_array t f l l0 :
    view m = ArrayMessage t f l → view m0 = ArrayMessage t f l0 →
    (if f then length l = length l0 else l0 = []) → Forall scalar_wf l → target m m0
| target_fixed_array l l0 :
    view m = CompoundArrayMessage true l → view m0 = CompoundArrayMessage true l0 →
    Forall2 target l l0 → target m m0
| target_dynamic_array l :
    view m = CompoundArrayMessage false l → view m0 = CompoundArrayMessage false [] →
    Forall (λ c, target c (empty_child m0)) l → target m m0.

(** What an encoder produced, [validateArrayInput] accepts. *)
Lemma validate_encoded (v : J) (f : bool) (n len : nat) path :
  isArray v = true → jsize v = n → (Z.of_nat n >? maximum_array_elements limits) = false →
  (if f then len = n else len = 0%nat) →
  validateArrayInput limits v f len path = Ok tt.
Proof.
  intros Ha Hn Hmax Hf. unfold validateArrayInput. rewrite Ha, Hn, Hmax.
  destruct f; subst; by rewrite ?Nat.eqb_refl.
Qed.

Definition roundtrips (fuel : nat) (depth : Z) (m m0 : M) : Prop :=
  ∀ path path' j, encodeValue (J:=J) limits fuel m path depth = Ok j →
    ∃ m', decodeValue limits fuel j m0 path' depth = Ok m' ∧ msg_eq m m'.

Lemma roundtrip_compound fuel depth ks vs vs0 m m0 path path' j :
  view m = CompoundMessage ks vs → view m0 = CompoundMessage ks vs0 →
  NoDup ks → length ks = length vs →
  Forall2 (roundtrips fuel (depth + 1)) vs vs0 →
  encodeValue (J:=J) limits (S fuel) m path depth = Ok j →
  ∃ m', decodeValue limits (S fuel) j m0 path' depth = Ok m' ∧ msg_eq m m'.
Proof.
  intros Hv Hv0 Hnd Hlen Hall He. pose proof (Forall2_length _ _ _ Hall) as Hlen0.
  cbn [encodeValue decodeValue] in *. rewrite Hv in He. rewrite Hv0.
  unfold checkDepth in *. apply throw_bind_Ok in He as [Hd He].
  rewrite Hd. cbn [throw_if mbind result_bind].
  apply throw_bind_Ok in He as [_ He].
  destruct (emptyObject_is "") as [Heo _].
  destruct (encode_members_spec _ _ _ _ _ _ Hnd Hlen Heo He) as (Ho & Hm & _ & Hk).
  rewrite Ho. cbn [negb throw_if mbind result_bind].
  assert (∀ k, isMember j k = true ↔ k ∈ ks) as Hmem.
  { intros k. rewrite Hm. destruct (emptyObject_is k) as [_ ->].
    rewrite orb_false_r. apply bool_decide_eq_true. }
  unfold rejectUnknownMembers. rewrite (proj2 (reject_members_ok _ _ _))
    by (intros k; rewrite members_of_object, Hmem; done).
  rewrite Hlen, Hlen0, Nat.eqb_refl. cbn [negb throw_if mbind result_bind].
  destruct (decode_members_spec (λ v m p, decodeValue limits fuel v m p (depth + 1))
              msg_eq j path' ks vs vs0) as (vs' & -> & HR).
  - intros k. apply Hmem.
  - apply Forall2_same_length_lookup. apply Forall2_same_length_lookup in Hk as [_ Hk].
    apply Forall2_same_length_lookup in Hall as [_ Hall].
    split; [rewrite length_zip; lia|]. intros i k [v0 v] Hki Hz.
    apply lookup_zip_Some in Hz as [Hv0i Hvi]. cbn.
    eapply (Hall i v v0); [done..|]. by apply (Hk i).
  - done.
  - done.
  - cbn [mbind result_bind]. eexists. split; [done|].
    eapply eq_compound; [done| |done]. eapply view_set_values; [done|].
    by rewrite <- (Forall2_length _ _ _ HR).
Qed.

Lemma roundtrip_array fuel depth t (f : bool) l l0 m m0 path path' j :
  view m = ArrayMessage t f l → view m0 = ArrayMessage t f l0 →
  (if f then length l = length l0 else l0 = []) → Forall scalar_wf l →
  encodeValue (J:=J) limits (S fuel) m path depth = Ok j →
  ∃ m', decodeValue limits (S fuel) j m0 path' depth = Ok m' ∧ msg_eq m m'.
Proof.
  intros Hv Hv0 Hf Hwf He. cbn [encodeValue decodeValue] in *. rewrite Hv in He. rewrite Hv0.
  unfold checkDepth in *. apply throw_bind_Ok in He as [Hd He].
  rewrite Hd. cbn [throw_if mbind result_bind].
  apply throw_bind_Ok in He as [Hmax He].
  destruct (encode_elements_spec _ _ _ _ _ _ (proj1 emptyArray_is) He) as (Ha & Hs & _ & Hk).
  rewrite (proj2 emptyArray_is) in *. cbn in Hs, Hk.
  unfold decodePrimitiveArray. rewrite (validate_encoded _ _ (length l)); [|done..|].
  2: { destruct f; [done|]. by subst. }
  cbn [mbind result_bind]. rewrite Hs.
  pose proof (array_element_type m t f l Hv) as (_ & _ & _ & Ht).
  assert (∀ k s, l !! k = Some s →
            decodeScalar t (at_index j (0 + k)) (item_path path' (0 + k)) = Ok s) as Hdec.
  { intros k s Hks. cbn. rewrite Forall_lookup in Ht, Hwf. rewrite <- (Ht _ _ Hks).
    eapply decode_encode_scalar; eauto. }
  destruct f.
  - destruct (decode_items_fixed t j path' l0 0 m0 l Hv0) as (m' & -> & Hm'); [done..|].
    exists m'. split; [done|]. by eapply eq_array.
  - subst l0. destruct (decode_items_dynamic t j path' [] 0 m0 l Hv0) as (m' & -> & Hm');
      [done..|]. exists m'. split; [done|]. by eapply eq_array.
Qed.

Lemma roundtrip_compound_array fuel depth (f : bool) l l0 m m0 path path' j :
  view m = CompoundArrayMessage f l → view m0 = CompoundArrayMessage f l0 →
  (if f then length l = length l0 else l0 = []) →
  (∀ k c, l !! k = Some c → ∃ c0,
     (if f then l0 !! k = Some c0 else c0 = empty_child m0) ∧
     roundtrips fuel (depth + 1) c c0) →
  encodeValue (J:=J) limits (S fuel) m path depth = Ok j →
  ∃ m', decodeValue limits (S fuel) j m0 path' depth = Ok m' ∧ msg_eq m m'.
Proof.
  intros Hv Hv0 Hf Hall He. cbn [encodeValue decodeValue] in *. rewrite Hv in He. rewrite Hv0.
  unfold checkDepth in *. apply throw_bind_Ok in He as [Hd He].
  rewrite Hd. cbn [throw_if mbind result_bind].
  apply throw_bind_Ok in He as [Hmax He].
  destruct (encode_elements_spec _ _ _ _ _ _ (proj1 emptyArray_is) He) as (Ha & Hs & _ & Hk).
  rewrite (proj2 emptyArray_is) in *. cbn in Hs, Hk.
  rewrite (validate_encoded _ _ (length l)); [|done..|].
  2: { destruct f; [done|]. by subst. }
  cbn [mbind result_bind]. rewrite Hs.
  destruct (decode_children_spec (λ v m p, decodeValue limits fuel v m p (depth + 1))
              msg_eq f j path' l 0 m0 l0 [] Hv0) as (m' & l' & -> & Hm' & HR).
  - destruct f; [done|]. by subst.
  - constructor.
  - intros k c Hkc. destruct (Hall k c Hkc) as (c0 & Hc0 & Hrt). exists c0. split; [done|].
    eapply Hrt. by apply Hk.
  - exists m'. split; [done|]. by eapply eq_compound_array.
Qed.

Lemma roundtrip_value fuel : ∀ depth m m0, target m m0 → roundtrips fuel depth m m0.
Proof.
  induction fuel as [|fuel IH]; intros depth m m0 Ht path path' j He; [done|].
  destruct Ht as [s s0 Hv Hv0 Hst Hwf|ks vs vs0 Hv Hv0 Hnd Hlen Hall|t f l l0 Hv Hv0 Hf Hwf
                 |l l0 Hv Hv0 Hall|l Hv Hv0 Hall].
  - cbn [encodeValue decodeValue] in *. rewrite Hv in He. rewrite Hv0.
    unfold checkDepth in *. apply throw_bind_Ok in He as [Hd He].
    rewrite Hd, <- Hst. cbn [throw_if mbind result_bind].
    rewrite (decode_encode_scalar s j path path' Hwf He). eexists. split; [done|].
    eapply eq_scalar; [done|]. by eapply view_set_scalar.
  - eapply roundtrip_compound; [done..| |done]. eapply Forall2_impl; [done|]. eauto.
  - by eapply roundtrip_array.
  - eapply roundtrip_compound_array; [done..|by apply (Forall2_length _ _ _ Hall)| |done].
    intros k c Hk. destruct (Forall2_lookup_l _ _ _ _ _ Hall Hk) as (c0 & ? & ?). eauto.
  - eapply roundtrip_compound_array; [done..| |done].
    intros k c Hk. rewrite Forall_lookup in Hall. eauto.
Qed.

(** C29: encoding a message to JSON and decoding the result into a freshly
    created message of the same type reproduces the message: whenever [encode]
    succeeds, [decode] accepts its output and every field, array element and
    nested message comes back unchanged. *)
Theorem decode_encode m m0 j :
  target m m0 → encode (J:=J) limits m = Ok j →
  ∃ m', decode limits j m0 = Ok m' ∧ msg_eq m m'.
Proof. intros Ht He. by eapply roundtrip_value. Qed.

(** ** Which errors a conversion can raise, and that fuel never runs out *)

Lemma encodeScalar_fails s path : fails_with payload_error (encodeScalar (J:=J) s path).
Proof. destruct s; cbn [encodeScalar]; fails. Qed.

Lemma encode_elements_fails {A} (enc : A → string → fallible J) path :
  (∀ x p, fails_with payload_error (enc x p)) →
  ∀ l i r, fails_with payload_error (encode_elements enc path i l r).
Proof. intros He l. induction l as [|x l IH]; intros i r; cbn [encode_elements]; fails; auto. Qed.

Lemma encode_members_fails (enc : M → string → fallible J) path :
  (∀ x p, fails_with payload_error (enc x p)) →
  ∀ ks vs r, fails_with payload_error (encode_members enc path ks vs r).
Proof.
  intros He ks. induction ks as [|k ks IH]; intros [|v vs] r; cbn [encode_members]; fails; auto.
Qed.

(** The fuel is enough at a depth the check can still reach. *)
Definition fuel_covers (fuel : nat) (depth : Z) : Prop :=
  depth <= maximum_depth limits + 1 ∧ maximum_depth limits + 2 - depth <= Z.of_nat fuel.

Lemma fuel_covers_next fuel depth :
  fuel_covers (S fuel) depth → (depth >? maximum_depth limits) = false →
  fuel_covers fuel (depth + 1).
Proof. unfold fuel_covers. rewrite Z.gtb_ltb, Z.ltb_ge. lia. Qed.

Lemma encodeValue_fails fuel : ∀ m path depth, fuel_covers fuel depth →
  fails_with payload_error (encodeValue (J:=J) limits fuel m path depth).
Proof.
  induction fuel as [|fuel IH]; intros m path depth Hf.
  { unfold fuel_covers in Hf. lia. }
  cbn [encodeValue]. unfold checkDepth. apply fails_bind; [fails|].
  intros [] Hd%throw_if_Ok. pose proof (fuel_covers_next _ _ Hf Hd) as Hnext.
  destruct (view m); fails; auto using encodeScalar_fails.
  - apply encode_members_fails. auto.
  - unfold encodePrimitiveArray. apply encode_elements_fails. apply encodeScalar_fails.
  - apply encode_elements_fails. auto.
Qed.

Lemma decode_items_fails t f v path n :
  ∀ i m, fails_with decode_error (decode_items (J:=J) (M:=M) t f v path i n m).
Proof.
  induction n as [|n IH]; intros i m; cbn [decode_items]; fails.
  all: auto using decodeScalar_fails.
Qed.

Lemma decode_members_fails (dec : J → M → string → fallible M) v path ks :
  (∀ v m p, fails_with decode_error (dec v m p)) →
  ∀ vs, fails_with decode_error (decode_members dec v path ks vs).
Proof.
  intros Hd. induction ks as [|k ks IH]; intros [|x vs]; cbn [decode_members]; fails; auto.
Qed.

Lemma decode_children_fails (dec : J → M → string → fallible M) fixed v path n :
  (∀ v m p, fails_with decode_error (dec v m p)) →
  ∀ i m l, view m = CompoundArrayMessage fixed l →
  (if fixed then (i + n)%nat = length l else i = length l) →
  fails_with decode_error (decode_children dec fixed v path i n m).
Proof.
  intros Hd. induction n as [|n IH]; intros i m l Hv Hl; cbn [decode_children]; [done|].
  set (m1 := if fixed then m else append_empty m).
  set (l1 := if fixed then l else l ++ [empty_child m]).
  assert (view m1 = CompoundArrayMessage fixed l1) as Hv1.
  { subst m1 l1. destruct fixed; [done|]. by apply view_append_empty. }
  assert (length l1 = if fixed then length l else S (length l)) as Hl1.
  { subst l1. destruct fixed; [done|]. rewrite length_app. cbn. lia. }
  assert (i < length l1)%nat as Hi by (destruct fixed; lia).
  rewrite Hv1. destruct (lookup_lt_is_Some_2 l1 i Hi) as [c Hc]. rewrite Hc.
  apply fails_bind; [auto|intros c' _]. eapply IH; [by apply view_set_child|].
  rewrite length_insert. destruct fixed; lia.
Qed.

Lemma validateArrayInput_fails (v : J) f n path :
  fails_with decode_error (validateArrayInput limits v f n path).
Proof. unfold validateArrayInput. fails; apply codecError_decode. Qed.

Lemma decodeValue_fails fuel : ∀ v m path depth, fuel_covers fuel depth →
  fails_with decode_error (decodeValue (J:=J) (M:=M) limits fuel v m path depth).
Proof.
  induction fuel as [|fuel IH]; intros v m path depth Hf.
  { unfold fuel_covers in Hf. lia. }
  cbn [decodeValue]. unfold checkDepth. apply fails_bind; [fails; apply codecError_decode|].
  intros [] Hd%throw_if_Ok. pose proof (fuel_covers_next _ _ Hf Hd) as Hnext.
  destruct (view m) as [s|ks vs|t f l|f l|n|] eqn:Hv; try apply codecError_decode.
  - fails. apply decodeScalar_fails.
  - fails; try apply codecError_decode; [|by apply decode_members_fails; auto].
    eapply fails_impl; [|apply reject_members_fails]. by left.
  - unfold decodePrimitiveArray. fails; auto using validateArrayInput_fails, decode_items_fails.
  - apply fails_bind; [apply validateArrayInput_fails|]. intros [] Hok.
    eapply decode_children_fails; [auto|done|].
    unfold validateArrayInput in Hok. revert Hok. guards.
    rewrite throw_if_Ok. destruct f; cbn; rewrite ?negb_false_iff, !Nat.eqb_eq; lia.
Qed.

Lemma codec_fuel_covers : 0 <= maximum_depth limits → fuel_covers (codec_fuel limits) 0.
Proof. unfold fuel_covers, codec_fuel. lia. Qed.

(** No codec error is of class "uncertain". *)
Lemma decode_certain (v : J) (m : M) :
  0 <= maximum_depth limits → fails_with certain_error (decode limits v m).
Proof.
  intros Hmax. eapply fails_impl; [|by apply decodeValue_fails, codec_fuel_covers].
  intros x [[_ Hx]|(sec & nsec & Hx)].
  - unfold certain_error, is_uncertain. by rewrite Hx.
  - apply foreign_certain.
    destruct Hx as [Hx|Hx]; [pose proof (ros_Time_foreign sec nsec) as Hf
                            |pose proof (ros_Duration_foreign sec nsec) as Hf];
      by rewrite Hx in Hf.
Qed.

(** C31: both conversions always terminate with a result or a typed error, whatever
    the JSON value and the message: a failing [encode] raises the permanent
    "invalid_message_payload" error, a failing [decode] that error or one that a
    roscpp time constructor threw; the nesting bound is never exceeded
    silently. *)
Theorem codec_errors_typed (v : J) (m : M) e :
  0 <= maximum_depth limits →
  (encode (J:=J) limits m = Err e → payload_error e) ∧
  (decode limits v m = Err e → decode_error e).
Proof.
  intros Hmax. pose proof (codec_fuel_covers Hmax). split.
  - apply fails_with_Err. by apply encodeValue_fails.
  - apply fails_with_Err. by apply decodeValue_fails.
Qed.

(** ** Decoding keeps every field in the range of its ROS type *)

(** Every scalar in the message, and in the children a dynamic array would
    append, lies in the range of its type. *)
Inductive in_range (m : M) : Prop :=
| range_scalar s : view m = ScalarMessage s → scalar_in_range s → in_range m
| range_compound ks vs :
    view m = CompoundMessage ks vs → length ks = length vs → Forall in_range vs → in_range m
| range_array t f l : view m = ArrayMessage t f l → Forall scalar_in_range l → in_range m
| range_compound_array f l :
    view m = CompoundArrayMessage f l → in_range (empty_child m) → Forall in_range l →
    in_range m
| range_other_array n : view m = OtherArrayMessage n → in_range m
| range_other : view m = OtherMessage → in_range m.

Lemma decode_items_range t f (v : J) path n :
  ∀ i m m' l, view m = ArrayMessage t f l → Forall scalar_in_range l →
  (if f then (i + n)%nat = length l else True) →
  decode_items t f v path i n m = Ok m' → in_range m'.
Proof.
  induction n as [|n IH]; intros i m m' l Hv Hl Hlen Hd; cbn [decode_items] in Hd.
  { injection Hd as <-. by eapply range_array. }
  apply bind_Ok in Hd as (s & Hs & Hd). apply decodeScalar_range in Hs as [Hst Hsr].
  destruct f.
  - eapply IH in Hd; [done|apply view_array_assign; [done..|lia]| |].
    + by apply Forall_insert.
    + rewrite length_insert. lia.
  - eapply IH in Hd; [done|by apply view_array_append| |done].
    apply Forall_app. by split; [|constructor].
Qed.

Lemma decode_members_range (dec : J → M → string → fallible M) v path ks :
  (∀ v m p m', in_range m → dec v m p = Ok m' → in_range m') →
  ∀ vs vs', length ks = length vs → Forall in_range vs →
  decode_members dec v path ks vs = Ok vs' →
  length vs' = length vs ∧ Forall in_range vs'.
Proof.
  intros Hdec. induction ks as [|k ks IH]; intros [|x vs] vs' Hlen Hr Hd;
    cbn [decode_members] in Hd; try done; [by injection Hd as <-|].
  apply Forall_cons in Hr as [Hx Hr].
  apply bind_Ok in Hd as (x' & Hx' & Hd). apply bind_Ok in Hd as (ys & Hys & Hd).
  injection Hd as <-. cbn in Hlen. injection Hlen as Hlen.
  destruct (IH vs ys Hlen Hr Hys) as [? ?].
  split; [cbn; lia|]. constructor; [|done].
  destruct (isMember v k); [eauto|by injection Hx' as <-].
Qed.

Lemma decode_children_range (dec : J → M → string → fallible M) fixed v path n :
  (∀ v m p m', in_range m → dec v m p = Ok m' → in_range m') →
  ∀ i m m' l, view m = CompoundArrayMessage fixed l → in_range (empty_child m) →
  Forall in_range l →
  decode_children dec fixed v path i n m = Ok m' → in_range m'.
Proof.
  intros Hdec. induction n as [|n IH]; intros i m m' l Hv He Hl Hd;
    cbn [decode_children] in Hd.
  { injection Hd as <-. by eapply range_compound_array. }
  set (m1 := if fixed then m else append_empty m) in *.
  set (l1 := if fixed then l else l ++ [empty_child m]).
  assert (view m1 = CompoundArrayMessage fixed l1 ∧ empty_child m1 = empty_child m) as [Hv1 He1].
  { subst m1 l1. destruct fixed; [done|]. by apply view_append_empty. }
  assert (Forall in_range l1) as Hl1.
  { subst l1. destruct fixed; [done|]. apply Forall_app. by split; [|constructor]. }
  rewrite Hv1 in Hd. destruct (l1 !! i) as [c|] eqn:Hc; [|done].
  apply bind_Ok in Hd as (c' & Hc' & Hd).
  destruct (view_set_child m1 fixed l1 i c' Hv1 (lookup_lt_Some _ _ _ Hc)) as [Hv2 He2].
  eapply IH in Hd; [done|done|by rewrite He2, He1|].
  apply Forall_insert; [done|]. rewrite Forall_lookup in Hl1. eauto.
Qed.

Lemma decodeValue_range fuel : ∀ (v : J) m path depth m',
  in_range m → decodeValue limits fuel v m path depth = Ok m' → in_range m'.
Proof.
  induction fuel as [|fuel IH]; intros v m path depth m' Hr Hd; [done|].
  cbn [decodeValue] in Hd. apply throw_bind_Ok in Hd as [_ Hd].
  inversion Hr as [s Hv Hs|ks vs Hv Hlen Hvs|t f l Hv Hl|f l Hv He Hl|n Hv|Hv];
    rewrite Hv in Hd; try done.
  - apply bind_Ok in Hd as (s' & Hs' & Hd). injection Hd as <-.
    apply decodeScalar_range in Hs' as [Ht Hs'].
    eapply range_scalar; [by eapply view_set_scalar|done].
  - apply throw_bind_Ok in Hd as [_ Hd]. apply bind_Ok in Hd as ([] & _ & Hd).
    apply throw_bind_Ok in Hd as [_ Hd]. apply bind_Ok in Hd as (vs' & Hvs' & Hd).
    injection Hd as <-. apply decode_members_range in Hvs' as [Hl' Hr']; [|by eauto|done..].
    eapply range_compound; [by eapply view_set_values|lia|done].
  - unfold decodePrimitiveArray in Hd. apply bind_Ok in Hd as ([] & Hok & Hd).
    eapply decode_items_range; [done..| |done].
    unfold validateArrayInput in Hok. revert Hok. guards. rewrite throw_if_Ok.
    destruct f; cbn; rewrite ?negb_false_iff, ?Nat.eqb_eq; [lia|done].
  - apply bind_Ok in Hd as ([] & _ & Hd). eapply decode_children_range; [|done..].
    cbn beta. eauto.
Qed.

(** C30: decoding never stores an out-of-range value: if every scalar of the target
    message lies in the range of its ROS type, so does every scalar of the message
    that [decode] produces, whatever the JSON value - integers within their width,
    [float32] and [float64] values that are finite in their own precision, and
    normalised times and durations. *)
Theorem decode_in_range (v : J) (m m' : M) :
  in_range m → decode limits v m = Ok m' → in_range m'.
Proof. apply decodeValue_range. Qed.
End messages.

(** ** Integer fields *)

Section integers.
Context {J : Type} `{JsonCpp J}.

(** C32: an integer field of a ROS message accepts exactly the JSON values that
    denote an integer of its width - a canonical decimal string (no sign on
    zero, no leading zero, no blank, nothing after the digits) or an integral
    JSON number - and yields that integer; it accepts no other value, so nothing
    is ever wrapped or truncated. *)
Theorem integer_fields_exact (width : Z) (v : J) (path : string) (z : Z) :
  0 < width <= 64 →
  (signedInteger width v path = Ok z ↔
     denotes_int v z ∧ - 2 ^ (width - 1) <= z <= 2 ^ (width - 1) - 1) ∧
  (unsignedInteger width v path = Ok z ↔ denotes_int v z ∧ 0 <= z < 2 ^ width).
Proof. intros Hw. split; [by apply signedInteger_spec|by apply unsignedInteger_spec]. Qed.
End integers.

Lemma integer_fields_exact_witness :
  signedInteger 8 (JString "-128") "$" = Ok (-128) ∧
  unsignedInteger 64 (JString "18446744073709551615") "$" = Ok (2 ^ 64 - 1).
Proof.
  split; apply integer_fields_exact; try lia; (split; [|lia]); vm_compute; reflexivity.
Defined.

(** What the integer syntax refuses. *)
Example noncanonical_integers_rejected :
  Forall (λ s, is_Ok (signedInteger 64 (JString s) "$") = false)
    [""; "-"; "-0"; "00"; "01"; "-01"; "+1"; " 1"; "1 "; "1.0"; "1e3"; "0x10";
     "9223372036854775808"; "-9223372036854775809"].
Proof. repeat constructor; vm_compute; reflexivity. Qed.

(** ** A message there and back, evaluated *)

Module Sample.
Definition item (z : Z) : msg := MCompound ["x"] [MScalar (VFloat64 (double_of_Z z))].

Definition message : msg :=
  MCompound ["id"; "stamp"; "flags"; "items"; "fixed"]
    [MScalar (VInt64 (-5)); MScalar (VTime 12 345); MArray TUInt8 false [VUInt8 1; VUInt8 255];
     MCompoundArray false (item 0) [item 7; item (-9)]; MArray TBool true [VBool true]].

Definition fresh : msg :=
  MCompound ["id"; "stamp"; "flags"; "items"; "fixed"]
    [MScalar (VInt64 0); MScalar (VTime 0 0); MArray TUInt8 false [];
     MCompoundArray false (item 0) []; MArray TBool true [VBool false]].

Definition encoded : json :=
  Eval vm_compute in
    match encode (J:=json) default_limits message with Ok j => j | Err _ => JNull end.

Lemma message_target : target message fresh.
Proof.
  assert (∀ z, valid_double (double_of_Z z) = true → target (item z) (item 0)) as Hitem.
  { intros z Hz. eapply target_compound; [reflexivity..|repeat constructor; set_solver|done|].
    repeat constructor. by eapply target_scalar. }
  eapply target_compound; [reflexivity..| |done|].
  { apply (bool_decide_unpack _). vm_compute. exact I. }
  repeat apply Forall2_cons_2; [..|constructor].
  - eapply target_scalar; [reflexivity..|cbn; lia].
  - eapply target_scalar; [reflexivity..|cbn; lia].
  - eapply target_array; [reflexivity..|done|]. repeat constructor; cbn; lia.
  - eapply target_dynamic_array; [reflexivity..|]. repeat constructor; by apply Hitem.
  - eapply target_array; [reflexivity..|done|]. repeat constructor.
Qed.

Lemma fresh_in_range : in_range fresh.
Proof.
  assert (in_range (item 0)) as Hitem.
  { eapply range_compound; [reflexivity|done|]. apply Forall_singleton.
    by eapply range_scalar. }
  eapply range_compound; [reflexivity|done|]. repeat apply Forall_cons_2; [..|constructor].
  - eapply range_scalar; [reflexivity|cbn; lia].
  - eapply range_scalar; [reflexivity|cbn; lia].
  - eapply range_array; [reflexivity|done].
  - by eapply range_compound_array.
  - eapply range_array; [reflexivity|]. repeat constructor.
Qed.
End Sample.

Lemma decode_encode_witness :
  ∃ m', decode default_limits Sample.encoded Sample.fresh = Ok m' ∧ msg_eq Sample.message m'.
Proof.
  apply (decode_encode default_limits Sample.message Sample.fresh Sample.encoded).
  - exact Sample.message_target.
  - vm_compute. reflexivity.
Defined.

Lemma decode_in_range_witness : in_range Sample.message.
Proof.
  apply (decode_in_range default_limits Sample.encoded Sample.fresh Sample.message).
  - exact Sample.fresh_in_range.
  - vm_compute. reflexivity.
Defined.

Lemma codec_errors_typed_witness :
  payload_error (codecError "$" "unsupported ROS message field type").
Proof.
  apply (codec_errors_typed (J:=json) default_limits JNull MNone _ ltac:(cbn; lia)).
  vm_compute. reflexivity.
Defined.
