(* ===== verification/ServiceInvoker.v ===== *)
(** * The service invoker (src/service_invoker.cpp)

    [ServiceInvoker::call] of the Adapter process: every native service call runs
    in a one-shot helper process.  The computations below are the functions of
    the source; [Os] answers for clocks, cancellation and the socket, [Processes]
    for process control and the shared atomics.  The events of a run record the
    bytes put on and taken from the helper socket, descriptors opened and closed,
    the helper's life, and the in-flight permit. *)

From S2P Require Import Prelude Bytes Errors Effects Decimal Libraries TypeRegistry Os HelperProtocol JsonCodec.
Local Open Scope Z_scope.

Record ServiceCallRequest (J : Type) := MkServiceCallRequest {
  req_service : string;
  req_service_type : string;
  req_request : J;
  req_wait_for_service_ms : Z;
  req_call_timeout_ms : Z;
  req_deadline_unix_nanos : Z;
  req_has_cancellation : bool   (* the callback is set *)
}.
Arguments MkServiceCallRequest {J}.
Arguments req_service {J}.
Arguments req_service_type {J}.
Arguments req_request {J}.
Arguments req_wait_for_service_ms {J}.
Arguments req_call_timeout_ms {J}.
Arguments req_deadline_unix_nanos {J}.
Arguments req_has_cancellation {J}.

Record ServiceCallResult (J : Type) := MkServiceCallResult {
  res_service : string;
  res_service_type : string;
  res_response : J;
  res_duration_ms : Z
}.
Arguments MkServiceCallResult {J}.
Arguments res_service {J}.
Arguments res_service_type {J}.
Arguments res_response {J}.
Arguments res_duration_ms {J}.

(** The members of [HelperProcess]. *)
Record HelperProcess := MkHelperProcess { process_id_ : Z; socket_fd_ : Z }.
Definition newHelperProcess : HelperProcess := MkHelperProcess (-1) (-1).

Inductive call_event :=
| CallSent (bytes : list byte)
| CallReceived (bytes : list byte)
| FdOpened (fd : Z)
| FdClosed (fd : Z)
| Spawned (path : list byte) (pid : Z)
| Killed (pid : Z)
| Reaped (pid : Z)
| PermitAcquired
| PermitReleased.

#[export] Instance call_socket : SocketEvent call_event :=
  {| Sent := CallSent; Received := CallReceived |}.

(** Answers of the calls that manage the helper process, and of the atomic
    operations on counters that other threads share. *)
Record Processes := MkProcesses {
  readlink_at : nat → result errno (list byte);
  socketpair_at : nat → result errno (Z * Z);
  dupfd_at : nat → result errno Z;
  spawn_actions_at : nat → option errno;         (* None: success *)
  posix_spawn_at : nat → result errno Z;
  kill_at : nat → option errno;
  waitpid_at : nat → option errno;
  load_at : nat → Z;
  compare_exchange_at : nat → option Z;          (* None: exchanged; else the value seen *)
  fetch_add_at : nat → Z
}.

(** ** Clock arithmetic *)

(** [SteadyClock::time_point::max()], in nanoseconds. *)
Definition time_max : Z := INT64_MAX.

Definition kHelperSocketDescriptor : Z := 198.
Definition kServiceHelperExecutable : string := "xgc_ros1_tools_adapter_service_helper".
Definition kCancellationPollInterval : Z := 5.
Definition PATH_MAX : nat := 4096.

(** The values [runtimeDeadline] computes from its clock readings. *)
Definition deadline_from (deadline_unix_nanos system_now_nanos steady_now : Z) : Z :=
  if deadline_unix_nanos <=? system_now_nanos then steady_now
  else
    let remaining := deadline_unix_nanos - system_now_nanos in
    let maximum_remaining := time_max - steady_now in
    if remaining >=? maximum_remaining then time_max else steady_now + remaining.

(** The values [pollTimeout] computes from its clock reading. *)
Definition timeout_from (deadline now : Z) : Z :=
  if now >=? deadline then 0
  else
    let remaining := Z.quot (deadline - now) 1000000 in
    Z.max 1 (Z.min kCancellationPollInterval (remaining + 1)).

Inductive PreCommitIoResult :=
| kPreComplete | kPreCancelled | kPreDeadline
| kPreTransportError (error : string).   (* with the text stored in [*error] *)

Inductive PostCommitIoResult :=
| kPostComplete | kPostCancelled | kRuntimeDeadline | kCallTimeout
| kPostTransportError (error : string).

(** ** The executable's sibling *)

(** The characters before the first NUL. *)
Fixpoint c_string (l : list byte) : list byte :=
  match l with
  | [] => []
  | c :: l => if bool_decide (c = "000"%char) then [] else c :: c_string l
  end.

Fixpoint rfind (c : byte) (l : list byte) : option nat :=
  match l with
  | [] => None
  | c' :: l =>
      match rfind c l with
      | Some i => Some (S i)
      | None => if bool_decide (c' = c) then Some O else None
      end
  end.

Definition sibling_path (current : list byte) (sibling : string) : option (list byte) :=
  match rfind "/" current with
  | None => None
  | Some separator => Some (take (separator + 1) current ++ string_bytes sibling)
  end.

Section invoker.
Context (os : Os) (proc : Processes).
Abbreviation call_comp := (comp call_event HelperProcess).

Definition deadlineExpired (deadline_unix_nanos : Z) : call_comp bool :=
  if deadline_unix_nanos <=? 0 then mret false
  else
    now_nanos ← system_now os;
    mret (now_nanos >=? deadline_unix_nanos).

Definition runtimeDeadline (deadline_unix_nanos : Z) : call_comp Z :=
  if deadline_unix_nanos <=? 0 then mret time_max
  else
    system_now_nanos ← system_now os;
    steady ← steady_now os;
    mret (deadline_from deadline_unix_nanos system_now_nanos steady).

Definition pollTimeout (deadline : Z) : call_comp Z :=
  if deadline =? time_max then mret kCancellationPollInterval
  else
    now ← steady_now os;
    mret (timeout_from deadline now).

Definition currentExecutableSibling (sibling : string) : call_comp (result string (list byte)) :=
  answer ← ask (readlink_at proc);
  match answer with
  | Err e => mret (Err ("cannot resolve /proc/self/exe: " +:+ strerror os e))
  | Ok target =>
      let target := take PATH_MAX target in
      if Nat.eqb (length target) PATH_MAX
      then mret (Err "resolved executable path exceeds PATH_MAX")
      else
        match sibling_path (c_string target) sibling with
        | None => mret (Err "resolved executable has no parent directory")
        | Some path => mret (Ok path)
        end
  end.

(** ** [HelperProcess] *)

(** One turn of the loop that moves a socket off the helper's descriptor. *)
Definition relocate (fd : Z) : call_comp (result errno Z) :=
  if negb (fd =? kHelperSocketDescriptor) then mret (Ok fd)
  else
    answer ← ask (dupfd_at proc);
    match answer with
    | Err e => mret (Err e)
    | Ok replacement =>
        emit (FdOpened replacement);;
        emit (FdClosed fd);;
        mret (Ok replacement)
    end.

Definition relocate_failed (s0 s1 : Z) (e : errno) : call_comp (result string unit) :=
  emit (FdClosed s0);;
  emit (FdClosed s1);;
  mret (Err ("cannot relocate service helper socket: " +:+ strerror os e)).

(** [if (spawn_error == 0) spawn_error = m;] *)
Definition unless_failed (spawn_error : option errno) (m : call_comp (option errno))
    : call_comp (option errno) :=
  match spawn_error with None => m | Some e => mret (Some e) end.

(** From the file actions on. *)
Definition spawn_helper (helper_path : list byte) (s0 s1 : Z) : call_comp (result string unit) :=
  spawn_error ← ask (spawn_actions_at proc);
  spawn_error ← unless_failed spawn_error (ask (spawn_actions_at proc));
  spawn_error ← unless_failed spawn_error (ask (spawn_actions_at proc));
  spawn_error ← unless_failed spawn_error (ask (spawn_actions_at proc));
  child ← match spawn_error with
          | Some e => mret (Err e)
          | None => ask (posix_spawn_at proc)
          end;
  match child with Ok pid => emit (Spawned helper_path pid) | Err _ => mret tt end;;
  emit (FdClosed s1);;
  match child with
  | Err e =>
      emit (FdClosed s0);;
      mret (Err ("cannot start service helper: " +:+ strerror os e))
  | Ok pid =>
      modify (λ _, MkHelperProcess pid s0);;
      mret (Ok tt)
  end.

Definition start : call_comp (result string unit) :=
  helper_path ← currentExecutableSibling kServiceHelperExecutable;
  match helper_path with
  | Err error => mret (Err error)
  | Ok helper_path =>
      sockets ← ask (socketpair_at proc);
      match sockets with
      | Err e => mret (Err ("cannot create service helper socket: " +:+ strerror os e))
      | Ok (s0, s1) =>
          emit (FdOpened s0);;
          emit (FdOpened s1);;
          moved0 ← relocate s0;
          match moved0 with
          | Err e => relocate_failed s0 s1 e
          | Ok s0 =>
              moved1 ← relocate s1;
              match moved1 with
              | Err e => relocate_failed s0 s1 e
              | Ok s1 => spawn_helper helper_path s0 s1
              end
          end
      end
  end.

(** [do result = f(); while (result < 0 && errno == EINTR);] *)
Definition retry_interrupted (answer : nat → option errno) (done : call_event) : call_comp unit :=
  loop (loop_bound os)
    (λ _ : unit,
       r ← ask answer;
       match r with
       | Some EINTR => mret (inl tt)
       | Some _ => mret (inr tt)
       | None => emit done;; mret (inr tt)
       end) tt.

Definition terminateAndReap : call_comp unit :=
  helper ← get;
  when (socket_fd_ helper >=? 0)
    (emit (FdClosed (socket_fd_ helper));;
     modify (λ h, MkHelperProcess (process_id_ h) (-1)));;
  if process_id_ helper <=? 0 then mret tt
  else
    retry_interrupted (kill_at proc) (Killed (process_id_ helper));;
    retry_interrupted (waitpid_at proc) (Reaped (process_id_ helper));;
    modify (λ h, MkHelperProcess (-1) (socket_fd_ h)).

(** ** The in-flight permit *)

Definition acquireInFlight (maximum : Z) : call_comp bool :=
  current ← ask (load_at proc);
  loop (loop_bound os)
    (λ current : Z,
       if current >=? maximum then mret (inr false)
       else
         r ← ask (compare_exchange_at proc);
         match r with
         | None => emit PermitAcquired;; mret (inr true)
         | Some seen => mret (inl seen)
         end) current.

Definition nextRequestId : call_comp Z :=
  loop (loop_bound os)
    (λ _ : unit,
       fetched ← ask (fetch_add_at proc);
       let selected := u64 fetched in
       if negb (selected =? 0) then mret (inr selected) else mret (inl tt)) tt.

(** ** Waiting, writing and reading *)

Context {J : Type} (request : ServiceCallRequest J).

Definition cancellationRequested : call_comp bool :=
  if req_has_cancellation request then ask (cancel_at os) else mret false.

Definition requirePreDispatchAllowed : call_comp unit :=
  cancelled ← cancellationRequested;
  if cancelled : bool
  then throw (cancelledError "service_call_cancelled"
                "ROS1 service call was cancelled before dispatch")
  else
    expired ← deadlineExpired (req_deadline_unix_nanos request);
    if expired : bool
    then throw (deadlineError "service_deadline_elapsed"
                  "ROS1 service deadline elapsed before dispatch")
    else mret tt.

(** [deadlineExpired(...) || SteadyClock::now() >= deadline] *)
Definition deadline_passed (deadline : Z) : call_comp bool :=
  expired ← deadlineExpired (req_deadline_unix_nanos request);
  if expired : bool then mret true
  else
    now ← steady_now os;
    mret (now >=? deadline).

(** The two checks that open each turn of the pre-commit loops. *)
Definition precommit_stop (deadline : Z) : call_comp (option PreCommitIoResult) :=
  cancelled ← cancellationRequested;
  if cancelled : bool then mret (Some kPreCancelled)
  else
    passed ← deadline_passed deadline;
    mret (if passed : bool then Some kPreDeadline else None).

Definition waitPreCommitEvent (mask deadline : Z) : call_comp PreCommitIoResult :=
  loop (loop_bound os)
    (λ _ : unit,
       stop ← precommit_stop deadline;
       match stop with
       | Some result => mret (inr result)
       | None =>
           timeout ← pollTimeout deadline;
           answer ← poll os timeout;
           match answer with
           | PollError EINTR => mret (inl tt)
           | PollError e => mret (inr (kPreTransportError (strerror os e)))
           | PollTimeout => mret (inl tt)
           | PollEvents revents =>
               if has_event revents mask then mret (inr kPreComplete)
               else if has_event revents poll_failure
               then mret (inr (kPreTransportError "service helper disconnected"))
               else mret (inl tt)
           end
       end) tt.

(** The loop variable is what remains to be sent. *)
Definition writePreCommit (input : list byte) (deadline : Z) : call_comp PreCommitIoResult :=
  loop (loop_bound os)
    (λ rest : list byte,
       if bool_decide (rest = []) then mret (inr kPreComplete)
       else
         stop ← precommit_stop deadline;
         match stop with
         | Some result => mret (inr result)
         | None =>
             sent ← send os rest;
             match sent with
             | SendCount O =>
                 mret (inr (kPreTransportError "service helper socket closed"))
             | SendCount n => mret (inl (drop n rest))
             | SendError EINTR => mret (inl rest)
             | SendError e =>
                 if not_again e then mret (inr (kPreTransportError (strerror os e)))
                 else
                   waited ← waitPreCommitEvent POLLOUT deadline;
                   match waited with
                   | kPreComplete => mret (inl rest)
                   | _ => mret (inr waited)
                   end
             end
         end) input.

(** The loop variable is what has been read; the buffer comes with the result. *)
Definition readPreCommit (size : nat) (deadline : Z)
    : call_comp (PreCommitIoResult * list byte) :=
  loop (loop_bound os)
    (λ output : list byte,
       if Nat.leb size (length output) then mret (inr (kPreComplete, output))
       else
         stop ← precommit_stop deadline;
         match stop with
         | Some result => mret (inr (result, output))
         | None =>
             received ← recv os (size - length output);
             match received with
             | RecvBytes [] =>
                 mret (inr (kPreTransportError "service helper disconnected", output))
             | RecvBytes l => mret (inl (output ++ l))
             | RecvError EINTR => mret (inl output)
             | RecvError e =>
                 if not_again e
                 then mret (inr (kPreTransportError (strerror os e), output))
                 else
                   waited ← waitPreCommitEvent POLLIN deadline;
                   match waited with
                   | kPreComplete => mret (inl output)
                   | _ => mret (inr (waited, output))
                   end
             end
         end) [].

Definition failPreCommit (result : PreCommitIoResult) : exn :=
  match result with
  | kPreCancelled =>
      cancelledError "service_call_cancelled"
        "ROS1 service call was cancelled before dispatch"
  | kPreDeadline =>
      deadlineError "service_deadline_elapsed"
        "ROS1 service deadline elapsed before dispatch"
  | kPreTransportError transport_error =>
      transientError "service_helper_unavailable"
        ("ROS1 service helper failed before dispatch: " +:+ transport_error)
  | kPreComplete =>
      transientError "service_helper_unavailable"
        "ROS1 service helper failed before dispatch"
  end.

(** The checks before each [recv] after the commit, and at the end. *)
Definition postcommit_stop (runtime_deadline call_deadline : Z)
    : call_comp (option PostCommitIoResult) :=
  cancelled ← cancellationRequested;
  if cancelled : bool then mret (Some kPostCancelled)
  else
    now ← steady_now os;
    expired ← deadlineExpired (req_deadline_unix_nanos request);
    if expired || (now >=? runtime_deadline) then mret (Some kRuntimeDeadline)
    else if now >=? call_deadline then mret (Some kCallTimeout)
    else mret None.

Definition readPostCommit (size : nat) (runtime_deadline call_deadline : Z)
    : call_comp (PostCommitIoResult * list byte) :=
  loop (loop_bound os)
    (λ output : list byte,
       stop ← postcommit_stop runtime_deadline call_deadline;
       match stop with
       | Some result => mret (inr (result, output))
       | None =>
           if Nat.leb size (length output) then mret (inr (kPostComplete, output))
           else
             received ← recv os (size - length output);
             match received with
             | RecvBytes [] =>
                 mret (inr (kPostTransportError "service helper disconnected", output))
             | RecvBytes l => mret (inl (output ++ l))
             | RecvError EINTR => mret (inl output)
             | RecvError e =>
                 if not_again e
                 then mret (inr (kPostTransportError (strerror os e), output))
                 else
                   timeout ← pollTimeout (Z.min runtime_deadline call_deadline);
                   answer ← poll os timeout;
                   match answer with
                   | PollError EINTR => mret (inl output)
                   | PollError e => mret (inr (kPostTransportError (strerror os e), output))
                   | PollTimeout => mret (inl output)
                   | PollEvents revents =>
                       if has_event revents POLLIN then mret (inl output)
                       else if has_event revents poll_failure
                       then mret (inr (kPostTransportError "service helper disconnected",
                                       output))
                       else mret (inl output)
                   end
             end
       end) [].

Definition failPostCommit (result : PostCommitIoResult) (service : string) : exn :=
  match result with
  | kPostCancelled =>
      uncertainError "service_call_cancelled"
        ("ROS1 service call to '" +:+ service +:+
         "' was cancelled after commit; the server may have executed the request")
  | kRuntimeDeadline =>
      uncertainError "service_deadline_elapsed"
        ("ROS1 service call to '" +:+ service +:+
         "' crossed its Runtime deadline after commit; the server may have executed the request")
  | kCallTimeout =>
      uncertainError "service_call_timeout"
        ("ROS1 service call to '" +:+ service +:+
         "' exceeded callTimeoutMs after commit; the server may have executed the request")
  | kPostTransportError transport_error =>
      uncertainError "service_call_failed"
        ("ROS1 service helper failed after commit for '" +:+ service +:+ "': " +:+
         transport_error)
  | kPostComplete =>
      uncertainError "service_call_failed"
        ("ROS1 service helper failed after commit for '" +:+ service +:+ "'")
  end.
End invoker.

(** ** [ServiceInvoker::call] *)

Definition newServiceInvoker (maximum_in_flight : Z) : fallible Z :=
  throw_if (maximum_in_flight =? 0)
    (permanentError "invalid_configuration"
       "maximum in-flight service calls must be greater than zero");;
  Ok maximum_in_flight.

Section call.
Context {J M T B : Type} `{JsonCpp J} `{RosTime} `{BabelFish M} `{BabelFishTypes M T B}.
Context (os : Os) (proc : Processes).
Context (limits : Limits) (maximum_in_flight : Z).
Abbreviation call_comp := (comp call_event HelperProcess).

Definition serializeServiceRequest (message : M) : fallible (list byte) :=
  let payload_size := sizeInBytes message in
  throw_if ((payload_size >? kMaximumServicePayloadBytes) || (payload_size >? UINT32_MAX))
    (permanentError "service_request_too_large"
       "serialized ROS1 service request exceeds the helper limit");;
  if payload_size =? 0 then Ok []
  else
    let written := writeToStream message in
    throw_if (negb (Z.of_nat (length written) =? payload_size))
      (permanentError "service_request_serialization_failed"
         "serialized ROS1 service request length changed");;
    Ok written.

(** Up to the permit: the description, which [resolveService] never leaves
    null, and the serialised request. *)
Definition prepare (request : ServiceCallRequest J) : call_comp (ServiceDescription T * list byte) :=
  requirePreDispatchAllowed os request;;
  description ← lift (resolveService (req_service_type request));
  dynamic_request ← lift (createServiceRequest description);
  dynamic_response_template ← lift (createServiceResponse (M:=M) description);
  throw_when (bool_decide (dynamic_response_template = None))
    (permanentError "invalid_service_description"
       "ROS1 service response description is incomplete");;
  match dynamic_request with
  | None => no_result
  | Some dynamic_request =>
      dynamic_request ← lift (decode limits (req_request request) dynamic_request);
      request_payload ← lift (serializeServiceRequest dynamic_request);
      requirePreDispatchAllowed os request;;
      throw_when (negb (validServiceMd5 (md5 description)))
        (permanentError "invalid_service_description"
           "ROS1 service description has an invalid MD5 digest");;
      throw_when (bool_decide (req_service request = "") ||
                  (Z.of_nat (String.length (req_service request)) >? kMaximumServiceNameBytes))
        (permanentError "invalid_service_name"
           "ROS1 service name exceeds the helper protocol limit");;
      mret (description, request_payload)
  end.

(** [helper.terminateAndReap(); throw x;] *)
Definition abandon {A} (x : exn) : call_comp A :=
  terminateAndReap os proc;;
  throw x.

(** The lambda [send_precommit], and the write of the commit frame. *)
Definition send_precommit (request : ServiceCallRequest J) (runtime_deadline : Z)
    (data : list byte) : call_comp unit :=
  result ← writePreCommit os request data runtime_deadline;
  match result with
  | kPreComplete => mret tt
  | _ => abandon (failPreCommit result)
  end.

(** From the request frame to the readiness of the helper. *)
Definition precommit (request : ServiceCallRequest J) (description : ServiceDescription T)
    (request_payload : list byte) (runtime_deadline id : Z) : call_comp unit :=
  let request_frame :=
    makeServiceHelperRequest id (Z.of_nat (String.length (req_service request)))
      (Z.of_nat (String.length (md5 description))) (Z.of_nat (length request_payload))
      (req_wait_for_service_ms request) in
  let send_precommit := send_precommit request runtime_deadline in
  send_precommit (frame_bytes request_frame);;
  send_precommit (string_bytes (req_service request));;
  send_precommit (string_bytes (md5 description));;
  when (negb (bool_decide (request_payload = []))) (send_precommit request_payload);;
  ready_result ← readPreCommit os request frame_size runtime_deadline;
  match ready_result with
  | (kPreComplete, output) =>
      let ready := frame_of_bytes output in
      if negb (validateServiceHelperReady ready id)
      then abandon (transientError "service_helper_protocol_error"
                      "ROS1 service helper returned an invalid pre-commit frame")
      else if status ready =? ready_status_value kServiceUnavailable
      then abandon (transientError "service_unavailable"
                      ("ROS1 service '" +:+ req_service request +:+
                       "' was not available before waitForServiceMs elapsed"))
      else if negb (status ready =? ready_status_value kReady)
      then abandon (transientError "service_helper_protocol_error"
                      "ROS1 service helper rejected the pre-commit request")
      else mret tt
  | (result, _) => abandon (failPreCommit result)
  end.

(** The last check before the commit, and the commit frame. *)
Definition commit_request (request : ServiceCallRequest J) (runtime_deadline id : Z)
    : call_comp unit :=
  requirePreDispatchAllowed os request;;
  send_precommit request runtime_deadline (frame_bytes (makeServiceHelperCommit id)).

(** [readPostCommit], then [failPostCommit] unless complete. *)
Definition read_response (request : ServiceCallRequest J) (size : nat)
    (runtime_deadline call_deadline : Z) : call_comp (list byte) :=
  result ← readPostCommit os request size runtime_deadline call_deadline;
  match result with
  | (kPostComplete, output) => mret output
  | (result, _) => abandon (failPostCommit result (req_service request))
  end.

(** The response message of a completed call. *)
Definition decode_response (description : ServiceDescription T) (response_payload : list byte)
    : call_comp J :=
  match response_description description with
  | Some (Some message_template) =>
      answer ← lift (createMessageFromTemplate message_template response_payload);
      match answer with
      | (Some dynamic_response, bytes_read) =>
          throw_when (negb (bytes_read =? Z.of_nat (length response_payload)))
            (uncertainError "invalid_service_response"
               "ROS1 service response length did not match its type");;
          lift (encode limits dynamic_response)
      | (None, _) =>
          throw (uncertainError "invalid_service_response"
                   "ROS1 service response length did not match its type")
      end
  | _ => no_result
  end.

(** The [try] block after the commit. *)
Definition await_response (request : ServiceCallRequest J) (description : ServiceDescription T)
    (started_at runtime_deadline id : Z) : call_comp (ServiceCallResult J) :=
  now ← steady_now os;
  let call_deadline := now + req_call_timeout_ms request * 1000000 in
  header ← read_response request frame_size runtime_deadline call_deadline;
  let response := frame_of_bytes header in
  if negb (validateServiceHelperResponse response id)
  then abandon (uncertainError "invalid_service_response"
                  "ROS1 service helper returned an invalid post-commit frame")
  else
    response_payload ←
      (if payload_bytes response =? 0 then mret []
       else read_response request (Z.to_nat (payload_bytes response))
              runtime_deadline call_deadline);
    terminateAndReap os proc;;
    throw_when (status response =? response_status_value kCallFailed)
      (uncertainError "service_call_failed"
         ("ROS1 service call to '" +:+ req_service request +:+ "' failed after commit"));;
    throw_when (status response =? response_status_value kResponseTooLarge)
      (uncertainError "service_response_too_large"
         "ROS1 service response exceeded the helper limit after commit");;
    throw_when (negb (status response =? response_status_value kCompleted))
      (uncertainError "invalid_service_response" "ROS1 service helper failed after commit");;
    decoded_response ← decode_response description response_payload;
    finished ← steady_now os;
    mret (MkServiceCallResult (req_service request) (req_service_type request)
            decoded_response (u64 (Z.quot (finished - started_at) 1000000))).

(** The [catch] clauses of the [try] block. *)
Definition after_commit (x : exn) : exn :=
  match x with
  | Typed error =>
      if bool_decide (errorClass error = "uncertain") then x
      else uncertainError "service_result_failed"
             ("ROS1 service processing failed after commit: " +:+ what error)
  | StdExn message =>
      uncertainError "service_result_failed"
        ("ROS1 service processing failed after commit: " +:+ message)
  | OtherExn =>
      uncertainError "service_result_failed" "ROS1 service processing failed after commit"
  end.

Definition call_with_helper (request : ServiceCallRequest J)
    (description : ServiceDescription T) (request_payload : list byte) (started_at : Z)
    : call_comp (ServiceCallResult J) :=
  started ← start os proc;
  match started with
  | Err transport_error =>
      requirePreDispatchAllowed os request;;
      throw (transientError "service_helper_unavailable"
               ("unable to start ROS1 service helper: " +:+ transport_error))
  | Ok _ =>
      runtime_deadline ← runtimeDeadline os (req_deadline_unix_nanos request);
      id ← nextRequestId os proc;
      precommit request description request_payload runtime_deadline id;;
      commit_request request runtime_deadline id;;
      try_catch (await_response request description started_at runtime_deadline id)
        (λ x, throw (after_commit x))
  end.

Definition call (request : ServiceCallRequest J) : call_comp (ServiceCallResult J) :=
  started_at ← steady_now os;
  prepared ← prepare request;
  let '(description, request_payload) := prepared in
  acquired ← acquireInFlight os proc maximum_in_flight;
  if negb acquired
  then throw (resourceExhaustedError "service_call_busy"
                "maximum concurrent ROS1 service calls reached")
  else
    with_cleanup
      (modify (λ _, newHelperProcess);;
       with_cleanup (call_with_helper request description request_payload started_at)
         (terminateAndReap os proc))
      (emit PermitReleased).
End call.
