(* ===== verification/ServiceInvokerLemmas.v ===== *)
(** * What a service call puts on the socket, and what it holds

    Lemmas about the computations of [ServiceInvoker]: which bytes each of them
    sends and receives, which descriptors, child processes and permits it holds
    when it ends. *)

From S2P Require Import Prelude Bytes Errors Effects Decimal Libraries TypeRegistry Os HelperProtocol JsonCodec ServiceInvoker.
Local Open Scope Z_scope.

(** ** Bytes on the socket *)

Definition event_sent (e : call_event) : list byte :=
  match e with CallSent l => l | _ => [] end.
Definition event_received (e : call_event) : list byte :=
  match e with CallReceived l => l | _ => [] end.
Definition sent (es : list call_event) : list byte := es ≫= event_sent.
Definition received (es : list call_event) : list byte := es ≫= event_received.

Lemma sent_app e1 e2 : sent (e1 ++ e2) = sent e1 ++ sent e2.
Proof. apply bind_app. Qed.
Lemma received_app e1 e2 : received (e1 ++ e2) = received e1 ++ received e2.
Proof. apply bind_app. Qed.
#[export] Hint Rewrite sent_app received_app : xgc.

(** Events of the socket only. *)
Definition io_event (e : call_event) : Prop :=
  match e with CallSent _ | CallReceived _ => True | _ => False end.
(** Events of processes, descriptors and permits only. *)
Definition no_io (es : list call_event) : Prop := sent es = [] ∧ received es = [].

(** ** Silent parts *)

Section silence.
Context (os : Os) (proc : Processes) {J : Type} (request : ServiceCallRequest J).

Lemma deadlineExpired_silent d : silent (deadlineExpired os d).
Proof. unfold deadlineExpired, system_now. silent_tac. Qed.
Hint Resolve deadlineExpired_silent : xgc.

Lemma runtimeDeadline_silent d : silent (runtimeDeadline os d).
Proof. unfold runtimeDeadline, system_now, steady_now. silent_tac. Qed.

Lemma pollTimeout_silent d : silent (pollTimeout os d).
Proof. unfold pollTimeout, steady_now. silent_tac. Qed.
Hint Resolve pollTimeout_silent : xgc.

Lemma currentExecutableSibling_silent s : silent (currentExecutableSibling os proc s).
Proof. unfold currentExecutableSibling. silent_tac. Qed.

Lemma nextRequestId_silent : silent (nextRequestId os proc).
Proof. unfold nextRequestId. silent_tac. Qed.

Lemma cancellationRequested_silent : silent (cancellationRequested os request).
Proof. unfold cancellationRequested. silent_tac. Qed.
Hint Resolve cancellationRequested_silent : xgc.

Lemma deadline_passed_silent d : silent (deadline_passed os request d).
Proof. unfold deadline_passed, steady_now. silent_tac. Qed.

Lemma precommit_stop_silent d : silent (precommit_stop os request d).
Proof. unfold precommit_stop, deadline_passed, steady_now. silent_tac. Qed.
Hint Resolve precommit_stop_silent : xgc.

Lemma postcommit_stop_silent d d' : silent (postcommit_stop os request d d').
Proof. unfold postcommit_stop, steady_now. silent_tac. Qed.

Lemma waitPreCommitEvent_silent m d : silent (waitPreCommitEvent os request m d).
Proof. unfold waitPreCommitEvent, poll. silent_tac. Qed.
End silence.
#[export] Hint Resolve deadlineExpired_silent runtimeDeadline_silent pollTimeout_silent
  currentExecutableSibling_silent nextRequestId_silent cancellationRequested_silent
  precommit_stop_silent postcommit_stop_silent waitPreCommitEvent_silent : xgc.

(** ** Writing and reading *)

Section io.
Context (os : Os) {J : Type} (request : ServiceCallRequest J).

(** A [send] either takes a nonempty prefix, or takes nothing. *)
Lemma wp_send bytes (Q : fallible SendAnswer → list call_event → world HelperProcess → Prop) w :
  (∀ w', local w' = local w → Q (Ok (SendCount 0)) [] w') →
  (∀ err w', local w' = local w → Q (Ok (SendError err)) [] w') →
  (∀ n w', local w' = local w → (n < length bytes)%nat →
     Q (Ok (SendCount (S n))) [CallSent (take (S n) bytes)] w') →
  wp True (send os bytes) Q w.
Proof.
  intros H0 He Hn. unfold send. do 2 wp_step. destruct (send_at os (tick w)) as [err|n].
  { wp_step. by apply He. }
  cbv zeta. destruct (Nat.min n (length bytes)) as [|k] eqn:Hk; cbn [Nat.eqb negb when].
  - wp_steps. by apply H0.
  - wp_steps. apply Hn; [done|lia].
Qed.

Lemma wp_recv size (Q : fallible RecvAnswer → list call_event → world HelperProcess → Prop) w :
  (∀ w', local w' = local w → Q (Ok (RecvBytes [])) [] w') →
  (∀ err w', local w' = local w → Q (Ok (RecvError err)) [] w') →
  (∀ b l w', local w' = local w → (length (b :: l) <= size)%nat →
     Q (Ok (RecvBytes (b :: l))) [CallReceived (b :: l)] w') →
  wp True (recv os size) Q w.
Proof.
  intros H0 He Hn. unfold recv. do 2 wp_step. destruct (recv_at os (tick w)) as [err|l].
  { wp_step. by apply He. }
  cbv zeta. destruct (take size l) as [|b l'] eqn:Hl.
  - rewrite bool_decide_true by done. cbn [negb when]. wp_steps. by apply H0.
  - rewrite bool_decide_false by done. cbn [negb when]. wp_steps. apply Hn; [done|].
    rewrite <- Hl, length_take. lia.
Qed.

(** The opening checks stop a loop, but not by completing it. *)
Lemma wp_precommit_stop d {A} (k : option PreCommitIoResult → comp call_event HelperProcess A) Q w :
  (∀ stop w', local w' = local w → stop ≠ Some kPreComplete → wp True (k stop) Q w') →
  wp True (precommit_stop os request d ≫= k) Q w.
Proof.
  intros Hk. unfold precommit_stop. apply wp_bind_assoc.
  apply wp_bind_silent; [auto with xgc|]. intros [|] w1 Hl1.
  { apply wp_bind. wp_step. by apply Hk. }
  apply wp_bind_assoc. apply wp_bind_silent; [apply deadline_passed_silent|].
  intros b w2 Hl2. apply wp_bind. wp_step. apply Hk; [congruence|by destruct b].
Qed.

Lemma wp_postcommit_stop d d' {A} (k : option PostCommitIoResult → comp call_event HelperProcess A)
    Q w :
  (∀ stop w', local w' = local w → stop ≠ Some kPostComplete → wp True (k stop) Q w') →
  wp True (postcommit_stop os request d d' ≫= k) Q w.
Proof.
  intros Hk. unfold postcommit_stop. apply wp_bind_assoc.
  apply wp_bind_silent; [auto with xgc|]. intros [|] w1 Hl1.
  { apply wp_bind. wp_step. by apply Hk. }
  apply wp_bind_assoc. apply wp_bind_silent; [unfold steady_now; auto with xgc|].
  intros now w2 Hl2. apply wp_bind_assoc. apply wp_bind_silent; [auto with xgc|].
  intros b w3 Hl3. destruct (b || _); [|destruct (now >=? d')]; apply wp_bind; wp_step;
    apply Hk; congruence.
Qed.

Lemma writePreCommit_spec input d w :
  wp True (writePreCommit os request input d)
    (λ r e w', local w' = local w ∧ Forall io_event e ∧ received e = [] ∧
       ∃ rest, sent e ++ rest = input ∧
         match r with
         | Ok kPreComplete => rest = []
         | Ok _ => rest ≠ []
         | Err _ => False
         end) w.
Proof.
  unfold writePreCommit.
  apply (wp_loop True _ (λ rest e w0, local w0 = local w ∧ Forall io_event e ∧
           received e = [] ∧ sent e ++ rest = input)) with (e := []); [done| |done].
  intros rest e w1 (Hl & Hio & Hr & Hs). case_bool_decide as Hrest.
  { wp_step. split_and!; [done..|]. exists []. by rewrite <- Hs, Hrest. }
  apply wp_precommit_stop. intros [stop|] w2 Hl2 Hne.
  { wp_step. split_and!; [congruence|done..|]. exists rest. split; [done|]. by destruct stop. }
  apply wp_bind, wp_send.
  - intros w3 Hl3. wp_step. split_and!; [congruence|done..|]. by exists rest.
  - intros err w3 Hl3. destruct err; cbn [not_again]; try (wp_step; split_and!;
      [congruence|done..|]; by (done || exists rest)).
    all: apply wp_bind_silent; [auto with xgc|]; intros waited w4 Hl4.
    all: destruct waited; wp_step; split_and!; try done; try congruence; by exists rest.
  - intros n w3 Hl3 Hn. wp_step. rewrite received_app, sent_app, Hr. cbn.
    rewrite app_nil_r. split_and!; [congruence| |done|].
    + apply Forall_app. split; [done|]. by repeat constructor.
    + by rewrite <- app_assoc, take_drop.
Qed.

(** What the reading loops have read. *)
Definition read_inv (size : nat) (h : HelperProcess) (output : list byte)
    (e : list call_event) (w : world HelperProcess) : Prop :=
  local w = h ∧ Forall io_event e ∧ sent e = [] ∧ received e = output ∧
  (length output <= size)%nat.

Lemma read_inv_step size h output e w b l :
  read_inv size h output e w → (length (b :: l) <= size - length output)%nat →
  read_inv size h (output ++ b :: l) (e ++ [CallReceived (b :: l)]) w.
Proof.
  intros (Hl & Hio & Hs & Hr & Hlen) Hn. split_and!; [done| |..].
  - apply Forall_app. split; [done|]. by repeat constructor.
  - by rewrite sent_app, Hs.
  - rewrite received_app, Hr. cbn. by rewrite app_nil_r.
  - rewrite length_app. lia.
Qed.

Lemma read_inv_world size h output e w w' :
  read_inv size h output e w → local w' = local w → read_inv size h output e w'.
Proof. unfold read_inv. intros (?&?) ?. split; [congruence|done]. Qed.

Lemma readPreCommit_spec size d w :
  wp True (readPreCommit os request size d)
    (λ r e w', match r with
               | Ok (result, output) =>
                   read_inv size (local w) output e w' ∧
                   (result = kPreComplete → length output = size)
               | Err _ => False
               end) w.
Proof.
  unfold readPreCommit.
  apply (wp_loop True _ (read_inv size (local w))) with (e := []); [done| |].
  2: { split_and!; [done..|cbn; lia]. }
  intros output e w1 HI. destruct (Nat.leb_spec size (length output)) as [Hle|Hgt].
  { wp_step. split; [done|]. destruct HI as (_ & _ & _ & _ & Hlen). lia. }
  apply wp_precommit_stop. intros [stop|] w2 Hl2 Hne.
  { wp_step. split; [by eapply read_inv_world|]. by intros ->. }
  assert (read_inv size (local w) output e w2) as HI2 by (by eapply read_inv_world).
  apply wp_bind, wp_recv.
  - intros w3 Hl3. wp_step. split; [by eapply read_inv_world|done].
  - intros err w3 Hl3. assert (read_inv size (local w) output e w3) as HI3
      by (by eapply read_inv_world).
    destruct err; cbn [not_again]; try (wp_step; done).
    all: apply wp_bind_silent; [auto with xgc|]; intros waited w4 Hl4.
    all: assert (read_inv size (local w) output e w4) as HI4 by (by eapply read_inv_world).
    all: destruct waited; wp_step; done.
  - intros b l w3 Hl3 Hn. wp_step. apply read_inv_step; [by eapply read_inv_world|done].
Qed.

Lemma readPostCommit_spec size d d' w :
  wp True (readPostCommit os request size d d')
    (λ r e w', match r with
               | Ok (result, output) =>
                   read_inv size (local w) output e w' ∧
                   (result = kPostComplete → length output = size)
               | Err _ => False
               end) w.
Proof.
  unfold readPostCommit.
  apply (wp_loop True _ (read_inv size (local w))) with (e := []); [done| |].
  2: { split_and!; [done..|cbn; lia]. }
  intros output e w1 HI. apply wp_postcommit_stop. intros [stop|] w2 Hl2 Hne.
  { wp_step. split; [by eapply read_inv_world|]. by intros ->. }
  assert (read_inv size (local w) output e w2) as HI2 by (by eapply read_inv_world).
  destruct (Nat.leb_spec size (length output)) as [Hle|Hgt].
  { wp_step. split; [done|]. destruct HI2 as (_ & _ & _ & _ & Hlen). lia. }
  apply wp_bind, wp_recv.
  - intros w3 Hl3. wp_step. split; [by eapply read_inv_world|done].
  - intros err w3 Hl3. assert (read_inv size (local w) output e w3) as HI3
      by (by eapply read_inv_world).
    destruct err; cbn [not_again]; try (wp_step; done).
    all: apply wp_bind_silent; [auto with xgc|]; intros timeout w4 Hl4.
    all: apply wp_bind_silent; [unfold poll; auto with xgc|]; intros answer w5 Hl5.
    all: assert (read_inv size (local w) output e w5) as HI5
           by (eapply read_inv_world; [exact HI3|congruence]).
    all: wp_steps; done.
  - intros b l w3 Hl3 Hn. wp_step. apply read_inv_step; [by eapply read_inv_world|done].
Qed.
End io.

(** ** Process management is off the socket *)

Lemma no_io_nil : no_io [].
Proof. done. Qed.

Lemma no_io_app e1 e2 : no_io e1 → no_io e2 → no_io (e1 ++ e2).
Proof.
  intros [Ea Eb] [Ec Ed]. split; [by rewrite sent_app, Ea, Ec|by rewrite received_app, Eb, Ed].
Qed.

#[export] Hint Resolve no_io_nil no_io_app : xgc.

(** No exception and nothing on the socket. *)
Definition off_socket {A} (m : comp call_event HelperProcess A) : Prop :=
  ∀ w, wp True m (λ r e _, is_Ok r = true ∧ no_io e) w.

Section off_socket.
Context (os : Os) (proc : Processes).

Lemma off_socket_bind {A B} (m : comp call_event HelperProcess A) (f : A → comp _ _ B) :
  off_socket m → (∀ a, off_socket (f a)) → off_socket (m ≫= f).
Proof.
  intros Hm Hf w. apply wp_bind. eapply wp_mono; [apply Hm|]. intros [a|x] e w' [Ho He]; [|done].
  eapply wp_mono; [apply Hf|]. intros r e' w'' [? ?]. split; [done|]. by apply no_io_app.
Qed.

Lemma off_socket_silent {A} (m : comp call_event HelperProcess A) : silent m → off_socket m.
Proof. intros Hm w. eapply wp_mono; [apply Hm|]. intros r e w' (-> & _ & ?). done. Qed.

Lemma off_socket_emit e : no_io [e] → off_socket (emit e).
Proof. intros ? w. by apply wp_emit. Qed.

Lemma off_socket_get : off_socket get.
Proof. intros w. by apply wp_get. Qed.

Lemma off_socket_modify f : off_socket (modify f).
Proof. intros w. by apply wp_modify. Qed.

Lemma off_socket_loop {X A} n (body : X → comp call_event HelperProcess (X + A)) x :
  (∀ x, off_socket (body x)) → off_socket (loop n body x).
Proof.
  intros Hb. revert x. induction n as [|n IH]; intros x; [done|].
  cbn [loop]. apply off_socket_bind; [done|]. intros [x'|a]; [done|].
  apply off_socket_silent, silent_ret.
Qed.
End off_socket.

Ltac off_socket_tac :=
  repeat first
    [ solve [apply off_socket_silent; auto with xgc]
    | apply off_socket_emit; split; reflexivity
    | apply off_socket_get | apply off_socket_modify
    | apply off_socket_loop; intros ?
    | apply off_socket_bind; [|intros ?]
    | solve [auto with xgc]
    | lazymatch goal with
      | |- off_socket (when ?b _) => unfold when
      | |- off_socket (if ?b then _ else _) => destruct b
      | |- off_socket (match ?x with _ => _ end) => destruct x
      end ].

Section processes.
Context (os : Os) (proc : Processes).

Lemma retry_off_socket answer ev : no_io [ev] → off_socket (retry_interrupted os answer ev).
Proof.
  intros Hev. unfold retry_interrupted. off_socket_tac. by apply off_socket_emit.
Qed.

Lemma terminateAndReap_off_socket : off_socket (terminateAndReap os proc).
Proof.
  unfold terminateAndReap. off_socket_tac.
  all: by apply retry_off_socket.
Qed.

Lemma start_off_socket : off_socket (start os proc).
Proof.
  unfold start, relocate, relocate_failed, spawn_helper, unless_failed. off_socket_tac.
Qed.

Lemma acquireInFlight_off_socket m : off_socket (acquireInFlight os proc m).
Proof. unfold acquireInFlight. off_socket_tac. Qed.

Lemma nextRequestId_spec w :
  wp True (nextRequestId os proc)
    (λ r e w', e = [] ∧ local w' = local w ∧ ∃ id, r = Ok id ∧ 0 < id < 2 ^ 64) w.
Proof.
  unfold nextRequestId.
  apply (wp_loop True _ (λ _ e w0, e = [] ∧ local w0 = local w)) with (e := []);
    [done| |done].
  intros _ e w1 [-> Hl]. wp_steps; [|done].
  split; [done|]. split; [done|]. eexists. split; [done|].
  match goal with H : negb (u64 ?z =? 0) = true |- _ =>
    apply negb_true_iff, Z.eqb_neq in H; unfold u64 in *;
    pose proof (Z.mod_pos_bound z (2 ^ 64) ltac:(lia)) end. lia.
Qed.
End processes.

(** ** The phases of a call *)

Lemma failPreCommit_certain result : certain_error (failPreCommit result).
Proof. by destruct result. Qed.

Lemma failPostCommit_uncertain result service : is_uncertain (failPostCommit result service) = true.
Proof. by destruct result. Qed.

Lemma after_commit_uncertain x : is_uncertain (after_commit x) = true.
Proof.
  destruct x as [e|w|]; cbn; [|done..]. case_bool_decide as Hc; [|done].
  unfold is_uncertain. cbn. by rewrite Hc.
Qed.

Section phases.
Context {J M T B : Type} `{JsonCpp J} `{!JsonCppLaws J} `{RosTime} `{!RosTimeLaws}
  `{BabelFish M} `{!BabelFishLaws M} `{BabelFishTypes M T B} `{!BabelFishTypesLaws M T B}.
Context (os : Os) (proc : Processes) (limits : Limits) (request : ServiceCallRequest J).
Context (limits_ok : 0 <= maximum_depth limits).

(** The bytes a request puts on the socket before the commit, and the commit. *)
Definition request_frame (description : ServiceDescription T) (payload : list byte) (id : Z)
    : ServiceHelperFrame :=
  makeServiceHelperRequest id (Z.of_nat (String.length (req_service request)))
    (Z.of_nat (String.length (md5 description))) (Z.of_nat (length payload))
    (req_wait_for_service_ms request).

Definition request_stream (description : ServiceDescription T) (payload : list byte) (id : Z)
    : list byte :=
  frame_bytes (request_frame description payload id) ++ string_bytes (req_service request) ++
  string_bytes (md5 description) ++ payload.

Definition commit_stream (id : Z) : list byte := frame_bytes (makeServiceHelperCommit id).

(** A strict prefix. *)
Definition cut_short (l full : list byte) : Prop := ∃ rest, l ++ rest = full ∧ rest ≠ [].

Lemma cut_short_app l full rest : cut_short l full → cut_short l (full ++ rest).
Proof.
  intros (r & <- & Hr). exists (r ++ rest). rewrite app_assoc. split; [done|]. by destruct r.
Qed.

Lemma cut_short_app_l pre l full : cut_short l full → cut_short (pre ++ l) (pre ++ full).
Proof. intros (r & <- & Hr). exists r. by rewrite app_assoc. Qed.

(** [abandon x] throws [x] and leaves the socket alone. *)
Lemma abandon_spec {A} (x : exn) w :
  wp True (abandon (A:=A) os proc x) (λ r e _, r = Err x ∧ no_io e) w.
Proof.
  unfold abandon. apply wp_bind. eapply wp_mono; [apply terminateAndReap_off_socket|].
  intros [u|z] e w' [Hok He]; [|done]. wp_step. done.
Qed.

Lemma send_precommit_spec deadline data w :
  wp True (send_precommit os proc request deadline data)
    (λ r e _, received e = [] ∧
       match r with
       | Ok _ => sent e = data
       | Err x => certain_error x ∧ cut_short (sent e) data
       end) w.
Proof.
  unfold send_precommit. apply wp_bind. eapply wp_mono; [apply writePreCommit_spec|].
  intros [result|x] e w' (_ & _ & Hr & rest & Hs & Hrest); [|done].
  destruct result as [| | |error].
  { wp_step. subst rest. by rewrite app_nil_r in Hs. }
  all: eapply wp_mono; [apply abandon_spec|].
  all: intros r e' w'' [-> [Hs' Hr']]; unfold after_events.
  all: rewrite received_app, sent_app, Hr, Hr', Hs', !app_nil_r.
  all: split; [done|]; split; [apply failPreCommit_certain|exists rest; exact (conj Hs Hrest)].
Qed.

(** Sending one more piece of a stream. *)
Lemma wp_send_piece {A} deadline piece (k : unit → comp call_event HelperProcess A)
    (Q : fallible A → list call_event → world HelperProcess → Prop) w :
  (∀ x e w', certain_error x → received e = [] → cut_short (sent e) piece → Q (Err x) e w') →
  (∀ e w', received e = [] → sent e = piece →
     wp True (k tt) (λ r e' w'', Q r (e ++ e') w'') w') →
  wp True (send_precommit os proc request deadline piece ≫= k) Q w.
Proof.
  intros He Hk. apply wp_bind. eapply wp_mono; [apply send_precommit_spec|].
  intros [[]|x] e w' [Hr Hs]; [by apply Hk|]. destruct Hs. by apply He.
Qed.

(** A ready frame of the helper that accepts the request. *)
Definition accepts_request (id : Z) (bytes : list byte) : Prop :=
  length bytes = frame_size ∧
  validateServiceHelperReady (frame_of_bytes bytes) id = true ∧
  status (frame_of_bytes bytes) = ready_status_value kReady.

Lemma read_ready_spec deadline id w :
  wp True
    (ready_result ← readPreCommit os request frame_size deadline;
     match ready_result with
     | (kPreComplete, output) =>
         let ready := frame_of_bytes output in
         if negb (validateServiceHelperReady ready id)
         then abandon os proc (transientError "service_helper_protocol_error"
                         "ROS1 service helper returned an invalid pre-commit frame")
         else if status ready =? ready_status_value kServiceUnavailable
         then abandon os proc (transientError "service_unavailable"
                         ("ROS1 service '" +:+ req_service request +:+
                          "' was not available before waitForServiceMs elapsed"))
         else if negb (status ready =? ready_status_value kReady)
         then abandon os proc (transientError "service_helper_protocol_error"
                         "ROS1 service helper rejected the pre-commit request")
         else mret tt
     | (result, _) => abandon os proc (failPreCommit result)
     end)
    (λ r e _, sent e = [] ∧
       match r with
       | Ok _ => accepts_request id (received e)
       | Err x => certain_error x
       end) w.
Proof.
  assert (∀ x e w', certain_error x → sent e = [] →
            wp True (abandon (A:=unit) os proc x) (after_events e (λ r e0 _,
               sent e0 = [] ∧ match r with Ok _ => accepts_request id (received e0)
                              | Err x => certain_error x end)) w') as Habandon.
  { intros x e w' Hx He. eapply wp_mono; [apply abandon_spec|].
    intros r e' w'' [-> [Hs _]]. unfold after_events. by rewrite sent_app, He, Hs. }
  apply wp_bind. eapply wp_mono; [apply readPreCommit_spec|].
  intros [[result output]|x] e w' HI; [|done].
  destruct HI as ((_ & _ & Hs & Hr & _) & Hlen).
  destruct result; try (apply Habandon; [apply failPreCommit_certain|done]).
  cbv zeta. destruct (validateServiceHelperReady _ _) eqn:Hval; cbn [negb];
    [|by apply Habandon].
  destruct (_ =? ready_status_value kServiceUnavailable); [by apply Habandon|].
  destruct (_ =? ready_status_value kReady) eqn:Hst; cbn [negb]; [|by apply Habandon].
  apply wp_ret. unfold after_events. rewrite app_nil_r. split; [done|].
  rewrite Hr. split; [by apply Hlen|]. split; [done|]. by apply Z.eqb_eq in Hst.
Qed.

Lemma precommit_spec description payload deadline id w :
  wp True (precommit os proc request description payload deadline id)
    (λ r e _,
       match r with
       | Ok _ => sent e = request_stream description payload id ∧
                 accepts_request id (received e)
       | Err x => certain_error x ∧ sent e `prefix_of` request_stream description payload id
       end) w.
Proof.
  unfold precommit, request_stream. cbv zeta. fold (request_frame description payload id).
  assert (∀ l full, cut_short l full → l `prefix_of` full) as Hcut.
  { intros l full (rest & <- & _). by eexists. }
  apply wp_send_piece.
  { intros x e w' Hx _ Hs. split; [done|]. by apply Hcut, cut_short_app. }
  intros e1 w1 Hr1 Hs1. apply wp_send_piece.
  { intros x e w' Hx _ Hs. split; [done|]. rewrite sent_app, Hs1.
    by apply Hcut, cut_short_app_l, cut_short_app. }
  intros e2 w2 Hr2 Hs2. apply wp_send_piece.
  { intros x e w' Hx _ Hs. split; [done|]. rewrite !sent_app, Hs1, Hs2.
    by apply Hcut, cut_short_app_l, cut_short_app_l, cut_short_app. }
  intros e3 w3 Hr3 Hs3. apply wp_bind.
  assert (∀ Q : fallible unit → list call_event → world HelperProcess → Prop,
    (∀ x e w', certain_error x → cut_short (sent e) payload → Q (Err x) e w') →
    (∀ e w', received e = [] → sent e = payload → Q (Ok tt) e w') →
    wp True (when (negb (bool_decide (payload = [])))
               (send_precommit os proc request deadline payload)) Q w3) as Hpayload.
  { intros Q HE HO. case_bool_decide as Hp; cbn [negb when].
    - apply wp_ret. by apply HO.
    - eapply wp_mono; [apply send_precommit_spec|].
      intros [[]|x] e w' [Hr Hs]; [by apply HO|]. destruct Hs. by apply HE. }
  apply Hpayload.
  { intros x e w' Hx Hs. split; [done|]. rewrite !sent_app, Hs1, Hs2, Hs3.
    by apply Hcut, cut_short_app_l, cut_short_app_l, cut_short_app_l. }
  intros e4 w4 Hr4 Hs4. eapply wp_mono; [apply read_ready_spec|].
  intros r e5 w5 [Hs5 Hr5]. unfold after_events.
  rewrite !sent_app, !received_app, Hs1, Hs2, Hs3, Hs4, Hs5, Hr1, Hr2, Hr3, Hr4, app_nil_r.
  destruct r; done.
Qed.

Lemma requirePreDispatchAllowed_spec w :
  wp True (requirePreDispatchAllowed os request)
    (λ r e w', e = [] ∧ local w' = local w ∧ fails_with certain_error r) w.
Proof.
  unfold requirePreDispatchAllowed. apply wp_bind_silent; [auto with xgc|].
  intros [|] w1 Hl1; [by wp_step|]. apply wp_bind_silent; [auto with xgc|].
  intros [|] w2 Hl2; wp_step; split_and!; done || congruence.
Qed.

Lemma wp_dispatch_check {A} (k : unit → comp call_event HelperProcess A)
    (Q : fallible A → list call_event → world HelperProcess → Prop) w :
  (∀ x w', certain_error x → local w' = local w → Q (Err x) [] w') →
  (∀ w', local w' = local w → wp True (k tt) Q w') →
  wp True (requirePreDispatchAllowed os request ≫= k) Q w.
Proof.
  intros He Hk. apply wp_bind. eapply wp_mono; [apply requirePreDispatchAllowed_spec|].
  intros [[]|x] e w' (-> & Hl & Hx); [by apply Hk|]. by apply He.
Qed.

Lemma commit_request_spec deadline id w :
  wp True (commit_request os proc request deadline id)
    (λ r e _, received e = [] ∧
       match r with
       | Ok _ => sent e = commit_stream id
       | Err x => certain_error x ∧ cut_short (sent e) (commit_stream id)
       end) w.
Proof.
  unfold commit_request. apply wp_dispatch_check.
  - intros x w' Hx _. split; [done|]. split; [done|]. by eexists.
  - intros w' _. apply send_precommit_spec.
Qed.

Lemma serialize_request_spec (m : M) payload :
  serializeServiceRequest m = Ok payload →
  Z.of_nat (length payload) <= kMaximumServicePayloadBytes ∧
  Z.of_nat (length payload) = sizeInBytes m.
Proof.
  unfold serializeServiceRequest. intros Hs. apply throw_bind_Ok in Hs as [Hmax Hs].
  apply orb_false_iff in Hmax as [Hmax _]. rewrite Z.gtb_ltb, Z.ltb_ge in Hmax.
  destruct (sizeInBytes m =? 0) eqn:E.
  - injection Hs as <-. apply Z.eqb_eq in E. cbn. lia.
  - apply throw_bind_Ok in Hs as [Hlen Hs]. injection Hs as <-.
    apply negb_false_iff, Z.eqb_eq in Hlen. lia.
Qed.

(** What [prepare] hands on. *)
Definition prepared_ok (description : ServiceDescription T) (payload : list byte) : Prop :=
  resolveService (req_service_type request) = Ok description ∧
  validServiceMd5 (md5 description) = true ∧
  1 <= Z.of_nat (String.length (req_service request)) <= kMaximumServiceNameBytes ∧
  Z.of_nat (length payload) <= kMaximumServicePayloadBytes ∧
  ∃ fresh message, createServiceRequest description = Ok (Some fresh) ∧
    decode limits (req_request request) fresh = Ok message ∧
    serializeServiceRequest message = Ok payload.

Lemma prepare_spec w :
  wp True (prepare os limits request)
    (λ r e w', e = [] ∧ local w' = local w ∧
       match r with
       | Ok (description, payload) => prepared_ok description payload
       | Err x => certain_error x
       end) w.
Proof.
  unfold prepare. apply wp_bind. eapply wp_mono; [apply requirePreDispatchAllowed_spec|].
  intros [[]|x] e1 w1 (-> & Hl1 & Hx); [|done]. clear Hx.
  assert (∀ {A X} (r : fallible X) (k : X → comp call_event HelperProcess A) Q w,
    fails_with certain_error r → (∀ x, certain_error x → Q (Err x) [] w) →
    (∀ a, r = Ok a → wp True (k a) Q w) → wp True (lift r ≫= k) Q w) as Hlift.
  { intros A X r k Q w0 Hr He Hk. apply wp_bind, wp_lift. destruct r; [by apply Hk|by apply He]. }
  assert (∀ x, certain_error x → [] = @nil call_event ∧ local w1 = local w ∧ certain_error x)
    as Herr by done.
  unfold after_events. cbn [app].
  apply Hlift; [apply resolveService_fails|exact Herr|]. intros description Hd.
  apply Hlift; [apply createServiceRequest_fails|exact Herr|]. intros fresh Hfresh.
  apply Hlift; [apply createServiceResponse_fails|exact Herr|]. intros tmpl Htmpl.
  apply wp_bind, wp_throw_when; [by intros _|]. intros _. unfold after_events. cbn [app].
  destruct fresh as [fresh|]; [|done].
  apply Hlift; [by apply decode_certain|exact Herr|]. intros message Hm.
  apply Hlift; [|exact Herr|].
  { unfold serializeServiceRequest. fails. }
  intros payload Hp. apply wp_dispatch_check.
  { intros x w2 Hx Hl2. split_and!; [done|congruence|done]. }
  intros w2 Hl2.
  apply wp_bind, wp_throw_when; [intros _; split_and!; [done|congruence|done]|].
  intros Hmd5%negb_false_iff. unfold after_events. cbn [app].
  apply wp_bind, wp_throw_when; [intros _; split_and!; [done|congruence|done]|].
  intros Hname%orb_false_iff. wp_step. split_and!; [done|congruence|].
  destruct Hname as [Hne Hlen]. rewrite bool_decide_eq_false in Hne.
  rewrite Z.gtb_ltb, Z.ltb_ge in Hlen. split_and!; [done..| |done| |].
  - destruct (req_service request); [done|]. cbn. lia.
  - by apply serialize_request_spec in Hp as [? _].
  - by exists fresh, message.
Qed.

(** ** After the commit *)

Lemma read_response_spec size d d' w :
  wp True (read_response os proc request size d d')
    (λ r e _, sent e = [] ∧
       match r with
       | Ok output => received e = output ∧ length output = size
       | Err x => True
       end) w.
Proof.
  unfold read_response. apply wp_bind. eapply wp_mono; [apply readPostCommit_spec|].
  intros [[result output]|x] e w' HI; [|done].
  destruct HI as ((_ & _ & Hs & Hr & _) & Hlen).
  destruct result; [wp_step; by auto|..].
  all: eapply wp_mono; [apply abandon_spec|]; intros r e' w'' [-> [Hs' _]].
  all: unfold after_events; by rewrite sent_app, Hs, Hs'.
Qed.

(** [response_json description payload json]: the payload is one complete
    message of the response type, which encodes to [json]. *)
Definition response_json (description : ServiceDescription T) (payload : list byte)
    (json : J) : Prop :=
  ∃ template message, response_description description = Some (Some template) ∧
    createMessageFromTemplate template payload =
      Ok (Some message, Z.of_nat (length payload)) ∧
    encode limits message = Ok json.

Lemma decode_response_spec description payload w :
  wp True (decode_response limits description payload)
    (λ r e _, e = [] ∧ match r with
                       | Ok json => response_json description payload json
                       | Err _ => True
                       end) w.
Proof.
  unfold decode_response. destruct (response_description description) as [[t|]|] eqn:Hd;
    [|done..].
  apply wp_bind, wp_lift. destruct (createMessageFromTemplate t payload) as [[[m|] n]|x] eqn:Hm;
    [|done..].
  unfold after_events. cbn [app]. apply wp_bind, wp_throw_when; [done|].
  intros Hn%negb_false_iff. apply Z.eqb_eq in Hn. subst n. unfold after_events.
  apply wp_lift. split; [done|]. destruct (encode limits m) eqn:He; [|done].
  by exists t, m.
Qed.

(** A response of the helper: a valid header that announces [length payload]
    bytes of a completed call. *)
Definition completed_response (id : Z) (header payload : list byte) : Prop :=
  length header = frame_size ∧
  validateServiceHelperResponse (frame_of_bytes header) id = true ∧
  status (frame_of_bytes header) = response_status_value kCompleted ∧
  Z.of_nat (length payload) = payload_bytes (frame_of_bytes header).

Lemma payload_bytes_nonneg l : 0 <= payload_bytes (frame_of_bytes l).
Proof. apply le_decode_bound. Qed.

Lemma await_response_spec description started d id w :
  wp True (await_response os proc limits request description started d id)
    (λ r e _, sent e = [] ∧
       match r with
       | Ok result => ∃ header payload, received e = header ++ payload ∧
           completed_response id header payload ∧
           res_service result = req_service request ∧
           res_service_type result = req_service_type request ∧
           response_json description payload (res_response result)
       | Err _ => True
       end) w.
Proof.
  unfold await_response. apply wp_bind_silent; [unfold steady_now; auto with xgc|].
  intros now w1 _. cbv zeta. apply wp_bind. eapply wp_mono; [apply read_response_spec|].
  intros [header|x] e1 w2 [Hs1 Hr1]; [|done]. destruct Hr1 as [Hr1 Hlen1].
  destruct (validateServiceHelperResponse _ _) eqn:Hval; cbn [negb].
  2: { eapply wp_mono; [apply abandon_spec|]. intros r e' w'' [-> [Hs' _]].
       unfold after_events. by rewrite sent_app, Hs1, Hs'. }
  apply wp_bind. set (n := payload_bytes _) in *.
  apply (wp_mono True) with (Q := λ r e _, sent e = [] ∧
    match r with Ok payload => received e = payload ∧ Z.of_nat (length payload) = n
    | Err _ => True end).
  { destruct (n =? 0) eqn:En; [apply wp_ret; apply Z.eqb_eq in En; rewrite En; done|].
    eapply wp_mono; [apply read_response_spec|]. intros [payload|x] e w' [? Hp]; [|done].
    destruct Hp as [? Hlen]. split_and!; [done..|]. rewrite Hlen.
    pose proof (payload_bytes_nonneg header). lia. }
  intros [payload|x] e2 w3 [Hs2 Hr2]; unfold after_events; [|by rewrite sent_app, Hs1, Hs2].
  destruct Hr2 as [Hr2 Hlen2]. apply wp_bind.
  eapply wp_mono; [apply terminateAndReap_off_socket|].
  intros [u|x] e3 w4 [Hok [Hs3 Hr3]]; [|done]. unfold after_events.
  assert (sent (e1 ++ e2 ++ e3) = []) as Hs by (by rewrite !sent_app, Hs1, Hs2, Hs3).
  do 3 (apply wp_bind, wp_throw_when; [intros _; by rewrite ?app_nil_r|];
        intros ?Hst; unfold after_events).
  apply wp_bind. eapply wp_mono; [apply decode_response_spec|].
  intros [json|x] e4 w5 [-> Hj]; [|by rewrite !app_nil_r].
  unfold after_events. apply wp_bind_silent; [unfold steady_now; auto with xgc|].
  intros fin w6 _. apply wp_ret. rewrite !app_nil_r. split; [done|].
  exists header, payload. rewrite !received_app, Hr1, Hr2, Hr3, app_nil_r.
  split; [done|]. split; [|done].
  split_and!; [done..| |done]. by apply Z.eqb_eq, negb_false_iff.
Qed.

(** ** The whole call *)

(** What the socket carried in a call of request id [id]. *)
Definition call_io (description : ServiceDescription T) (payload : list byte) (id : Z)
    (r : fallible (ServiceCallResult J)) (e : list call_event) : Prop :=
  let full := request_stream description payload id ++ commit_stream id in
  match r with
  | Ok result =>
      sent e = full ∧
      ∃ ready header response, received e = ready ++ header ++ response ∧
        accepts_request id ready ∧ completed_response id header response ∧
        res_service result = req_service request ∧
        res_service_type result = req_service_type request ∧
        response_json description response (res_response result)
  | Err x => if is_uncertain x then sent e = full else cut_short (sent e) full
  end.

Lemma commit_stream_nonempty id : commit_stream id ≠ [].
Proof. done. Qed.

Lemma call_io_early description payload id x e :
  certain_error x → sent e `prefix_of` request_stream description payload id →
  call_io description payload id (Err x) e.
Proof.
  unfold call_io, certain_error. intros -> [rest ->].
  exists (rest ++ commit_stream id). rewrite app_assoc. split; [done|].
  intros [_ E]%app_eq_nil. by apply commit_stream_nonempty in E.
Qed.

Lemma call_with_helper_spec description payload started w :
  wp True (call_with_helper os proc limits request description payload started)
    (λ r e _, ∃ id, 0 < id < 2 ^ 64 ∧ call_io description payload id r e) w.
Proof.
  unfold call_with_helper. apply wp_bind. eapply wp_mono; [apply start_off_socket|].
  intros [[u|error]|x] e1 w1 [Hok [Hs1 Hr1]]; [| |done].
  2: { assert (∀ x, certain_error x →
         ∃ id, 0 < id < 2 ^ 64 ∧ call_io description payload id (Err x) e1) as Hearly.
       { intros x Hx. exists 1. split; [lia|]. apply call_io_early; [done|].
         rewrite Hs1. apply prefix_nil. }
       apply wp_dispatch_check; intros; [|apply wp_throw]; unfold after_events;
         rewrite app_nil_r; by apply Hearly. }
  apply wp_bind_silent; [auto with xgc|]. intros deadline w2 _.
  apply wp_bind. eapply wp_mono; [apply nextRequestId_spec|].
  intros r e2 w3 (-> & _ & id & -> & Hid). apply wp_bind.
  eapply wp_mono; [apply precommit_spec|]. intros [u2|x] e3 w4 Hpre; unfold after_events.
  2: { exists id. split; [done|]. destruct Hpre as [Hx Hpre]. apply call_io_early; [done|].
       cbn [app]. by rewrite sent_app, Hs1. }
  destruct Hpre as [Hs3 Hr3]. apply wp_bind.
  eapply wp_mono; [apply commit_request_spec|]. intros [u3|x] e4 w5 [Hr4 Hs4];
    unfold after_events.
  2: { exists id. split; [done|]. destruct Hs4 as [Hx Hs4]. unfold call_io, certain_error in *.
       cbn [app]. rewrite Hx, !sent_app, Hs1, Hs3. cbn [app]. by apply cut_short_app_l. }
  cbn [app].
  assert (sent (e1 ++ e3 ++ e4) = request_stream description payload id ++ commit_stream id)
    as Hfull by (by rewrite !sent_app, Hs1, Hs3, Hs4).
  apply wp_try_catch. eapply wp_mono; [apply await_response_spec|].
  intros [result|x] e5 w6 [Hs5 Hres]; unfold after_events.
  - exists id. split; [done|]. destruct Hres as (header & response & Hr5 & Hres). split.
    + rewrite !app_assoc, sent_app, <- !app_assoc, Hfull, Hs5. by rewrite app_nil_r.
    + exists (received e3), header, response.
      rewrite !received_app, Hr1, Hr4, Hr5. done.
  - apply wp_throw. exists id. split; [done|]. unfold call_io. rewrite after_commit_uncertain.
    rewrite app_nil_r, !app_assoc, sent_app, <- !app_assoc, Hfull, Hs5. by rewrite app_nil_r.
Qed.

Lemma call_io_quiet description payload id r e1 e e2 :
  no_io e1 → no_io e2 → call_io description payload id r e →
  call_io description payload id r (e1 ++ e ++ e2).
Proof.
  intros [Hs1 Hr1] [Hs2 Hr2]. unfold call_io.
  rewrite !sent_app, !received_app, Hs1, Hs2, Hr1, Hr2, !app_nil_r. done.
Qed.

(** A call ends before the helper exists, with an error and nothing on the
    socket, or with the traffic of one request id. *)
Definition call_outcome (r : fallible (ServiceCallResult J)) (e : list call_event) : Prop :=
  (∃ x, r = Err x ∧ certain_error x ∧ no_io e) ∨
  (∃ description payload id, prepared_ok description payload ∧ 0 < id < 2 ^ 64 ∧
     call_io description payload id r e).

Lemma call_spec maximum w :
  wp True (call os proc limits maximum request) (λ r e _, call_outcome r e) w.
Proof.
  unfold call. apply wp_bind_silent; [unfold steady_now; auto with xgc|]. intros started w1 _.
  apply wp_bind. eapply wp_mono; [apply prepare_spec|].
  intros [[description payload]|x] e w2 (-> & _ & Hp); unfold after_events; cbn [app].
  2: { left. by exists x. }
  apply wp_bind. eapply wp_mono; [apply acquireInFlight_off_socket|].
  intros [b|x] e1 w3 [Hok He1]; [|done]. unfold after_events.
  destruct b; cbn [negb].
  2: { apply wp_throw. left. eexists. split; [done|]. rewrite app_nil_r. done. }
  apply wp_with_cleanup, wp_bind, wp_modify. unfold after_events. cbn [app].
  apply wp_with_cleanup. eapply wp_mono; [apply call_with_helper_spec|].
  intros r e2 w4 (id & Hid & Hio). eapply wp_mono; [apply terminateAndReap_off_socket|].
  intros [u|x] e3 w5 [Hok3 He3]; [|done]. apply wp_emit. right.
  exists description, payload, id. split; [done|]. split; [done|].
  rewrite <- app_assoc. apply call_io_quiet; [done| |done]. by apply no_io_app.
Qed.
End phases.


(** ** Deadlines in machine arithmetic *)

Definition int64 (z : Z) : Prop := INT64_MIN <= z <= INT64_MAX.

(** C39: the steady-clock deadline of a call is the steady time now plus what is left
    until the Runtime deadline, saturated at the latest representable time point;
    neither it nor any difference computed on the way leaves 64 bits. *)
Theorem runtime_deadline_saturates deadline system steady :
  0 < deadline <= INT64_MAX → 0 <= system <= INT64_MAX → 0 <= steady <= INT64_MAX →
  deadline_from deadline system steady =
    Z.min time_max (steady + Z.max 0 (deadline - system)) ∧
  int64 (deadline - system) ∧ int64 (time_max - steady) ∧
  int64 (deadline_from deadline system steady).
Proof.
  unfold deadline_from, time_max, int64, INT64_MIN, INT64_MAX. intros Hd Hs Ht.
  destruct (Z.leb_spec deadline system); [lia|]. cbv zeta.
  destruct (Z.geb_spec (deadline - system) (2 ^ 63 - 1 - steady)); lia.
Qed.

Lemma runtime_deadline_saturates_witness :
  deadline_from 5000 2000 100 = 3100 ∧ deadline_from INT64_MAX 0 7 = time_max.
Proof.
  split; apply runtime_deadline_saturates; unfold INT64_MAX; lia.
Defined.

(** A wait for the helper never blocks longer than the cancellation interval of
    5 ms: the poll timeout lies between 0 and 5, is 0 exactly when the deadline has
    been reached, and is otherwise at least 1 and at most one millisecond more than
    the time left, so a wait neither spins nor outlasts the deadline. *)
Theorem poll_timeout_bounded deadline now :
  0 <= timeout_from deadline now <= 5 ∧
  (timeout_from deadline now = 0 ↔ deadline <= now) ∧
  (now < deadline → (timeout_from deadline now - 1) * 1000000 <= deadline - now).
Proof.
  unfold timeout_from, kCancellationPollInterval.
  destruct (Z.geb_spec now deadline) as [Hge|Hlt]; [lia|].
  rewrite Z.quot_div_nonneg by lia.
  pose proof (Z.div_mod (deadline - now) 1000000 ltac:(lia)) as Hdm.
  pose proof (Z.mod_pos_bound (deadline - now) 1000000 ltac:(lia)).
  pose proof (Z.div_pos (deadline - now) 1000000 ltac:(lia) ltac:(lia)). lia.
Qed.
