(* ===== verification/HelperMain.v ===== *)
(** * The service helper process (src/service_helper_main.cpp)

    The one-shot process that owns a native service call: it reads a request from
    the inherited socket, resolves the service, reports readiness, waits for the
    commit frame, makes the call and sends the response back.  The process can be
    killed at any moment, so its theorems speak of every prefix of its events. *)

From S2P Require Import Prelude Bytes Errors Effects Decimal Os HelperProtocol.
Local Open Scope Z_scope.

Definition kHelperUsageExit : Z := 64.
Definition kHelperLifecycleExit : Z := 70.
Definition STDERR_FILENO : Z := 2.

(** ** Before the protocol *)

(** [std::strtol(value, &end, 10)] accepted to its last character, within
    [long] (otherwise [errno] is set) and within [0 .. INT_MAX]. *)
Definition parse_descriptor_text (value : string) : option Z :=
  match strto value with
  | None => None
  | Some (negative, magnitude, consumed) =>
      let parsed := if negative : bool then - magnitude else magnitude in
      if (parsed <? INT64_MIN) || (parsed >? INT64_MAX) then None
      else if negb (Nat.eqb consumed (String.length value)) then None
      else if (parsed <? 0) || (parsed >? INT_MAX) then None
      else Some parsed
  end.

Definition parseFileDescriptor (value : string) : option Z :=
  if bool_decide (value = "") then None else parse_descriptor_text value.

(** [answer]: size and socket type, when [getsockopt(SO_TYPE)] succeeds. *)
Definition validHelperSocket (descriptor : Z) (answer : option (Z * Z)) : bool :=
  if descriptor <=? STDERR_FILENO then false
  else
    match answer with
    | Some (size, socket_type) => (size =? 4) && (socket_type =? 1)   (* SOCK_STREAM *)
    | None => false
    end.

(** [peer]: size and pid, when [getsockopt(SO_PEERCRED)] succeeds; the two
    readings of [getppid] surround [prctl]. *)
Definition installParentDeathFence (peer : option (Z * Z)) (ppid_before : Z)
    (prctl_ok : bool) (ppid_after : Z) : bool :=
  match peer with
  | None => false
  | Some (peer_size, pid) =>
      if negb (peer_size =? 12) || (pid <=? 1) || negb (ppid_before =? pid) then false
      else if negb prctl_ok then false
      else ppid_after =? pid
  end.

(** What [opendir], [dirfd], [readdir] and [closedir] answer. *)
Record FdDirectory := MkFdDirectory {
  directory_fd : Z;
  entries : list string;
  read_failed : bool;
  close_failed : bool
}.

(** The descriptors the loop over the entries closes. *)
Fixpoint closed_descriptors (entries : list string) (helper_socket directory_fd : Z)
    : list Z :=
  match entries with
  | [] => []
  | entry :: entries =>
      match parse_descriptor_text entry with
      | None => closed_descriptors entries helper_socket directory_fd
      | Some descriptor =>
          if (descriptor =? 0) || (descriptor =? 1) || (descriptor =? 2) ||
             (descriptor =? helper_socket) || (descriptor =? directory_fd)
          then closed_descriptors entries helper_socket directory_fd
          else descriptor :: closed_descriptors entries helper_socket directory_fd
      end
  end.

Definition closeInheritedFileDescriptors (helper_socket : Z) (directory : option FdDirectory)
    : bool * list Z :=
  match directory with
  | None => (false, [])
  | Some d =>
      if directory_fd d <? 0 then (false, [])
      else
        (negb (read_failed d) && negb (close_failed d),
         closed_descriptors (entries d) helper_socket (directory_fd d))
  end.

(** ** Serialised messages *)

(** [ros::SerializedMessage]: [message_start] as an offset from [buf], [None]
    for a null pointer; a non-null [buf] holds [num_bytes] bytes. *)
Record SerializedMessage := MkSerializedMessage {
  num_bytes : Z;
  buf : option (list byte);
  message_start : option Z
}.

(** The request buffer: the length as four little-endian bytes, then the payload. *)
Definition serviceRequest (payload : list byte) : SerializedMessage :=
  MkSerializedMessage (Z.of_nat (length payload) + 4)
    (Some (le_encode 4 (u32 (Z.of_nat (length payload))) ++ payload)) (Some 4).

Definition responsePayload (response : SerializedMessage) : option (list byte) :=
  if num_bytes response =? 0 then Some []
  else
    match buf response, message_start response with
    | Some buffer, Some offset =>
        if offset <? 0 then None
        else if offset >? num_bytes response then None
        else Some (take (Z.to_nat (num_bytes response - offset)) (drop (Z.to_nat offset) buffer))
    | _, _ => None
    end.

(** ** The protocol *)

(** How [client.call] ended. *)
Inductive NativeAnswer :=
| NativeThrew
| NativeFailed
| NativeReturned (response : SerializedMessage).

Inductive helper_event :=
| HelperSent (bytes : list byte)
| HelperReceived (bytes : list byte)
| NativeCall (service md5 : list byte) (request : SerializedMessage) (answer : NativeAnswer).

#[export] Instance helper_socket : SocketEvent helper_event :=
  {| Sent := HelperSent; Received := HelperReceived |}.

Record HelperRos := MkHelperRos {
  names_validate : string → bool;
  exists_at : nat → bool;             (* ros::service::exists *)
  ros_ok_at : nat → bool;
  client_at : nat → bool;             (* false: creating the client threw *)
  native_at : nat → NativeAnswer
}.

Definition validAbsoluteServiceName (ros : HelperRos) (service : string) : bool :=
  bool_decide (head (string_bytes service) = Some "/"%char) && negb (bool_decide (service = "/"))
  && names_validate ros service.

(** The payload the helper answers with, after a call that returned. *)
Definition response_frame_of (id : Z) (answer : NativeAnswer) : ServiceHelperFrame * list byte :=
  match answer with
  | NativeThrew | NativeFailed => (makeServiceHelperResponse id kCallFailed 0, [])
  | NativeReturned response =>
      match responsePayload response with
      | None => (makeServiceHelperResponse id kResponseProtocolError 0, [])
      | Some data =>
          if Z.of_nat (length data) >? kMaximumServicePayloadBytes
          then (makeServiceHelperResponse id kResponseTooLarge 0, [])
          else (makeServiceHelperResponse id kCompleted (Z.of_nat (length data)), data)
      end
  end.

Section helper.
Context (os : Os) (ros : HelperRos).
Abbreviation helper_comp := (comp helper_event unit).

Definition waitForSocket (mask : Z) : helper_comp bool :=
  loop (loop_bound os)
    (λ _ : unit,
       answer ← poll os (-1);
       match answer with
       | PollError EINTR => mret (inl tt)
       | PollError _ | PollTimeout => mret (inr false)
       | PollEvents revents =>
           mret (inr (negb (has_event revents poll_failure) && has_event revents mask))
       end) tt.

(** The bytes read, or [None] where the source returns false. *)
Definition readExact (size : nat) : helper_comp (option (list byte)) :=
  loop (loop_bound os)
    (λ output : list byte,
       if Nat.leb size (length output) then mret (inr (Some output))
       else
         received ← recv os (size - length output);
         match received with
         | RecvBytes [] => mret (inr None)
         | RecvBytes l => mret (inl (output ++ l))
         | RecvError EINTR => mret (inl output)
         | RecvError e =>
             if not_again e then mret (inr None)
             else
               ready ← waitForSocket POLLIN;
               mret (if ready : bool then inl output else inr None)
         end) [].

Definition writeExact (input : list byte) : helper_comp bool :=
  loop (loop_bound os)
    (λ rest : list byte,
       if bool_decide (rest = []) then mret (inr true)
       else
         sent ← send os rest;
         match sent with
         | SendCount O => mret (inr false)
         | SendCount n => mret (inl (drop n rest))
         | SendError EINTR => mret (inl rest)
         | SendError e =>
             if not_again e then mret (inr false)
             else
               ready ← waitForSocket POLLOUT;
               mret (if ready : bool then inl rest else inr false)
         end) input.

Definition serviceAvailable (wait_for_service_ms : Z) : helper_comp bool :=
  start ← steady_now os;
  let deadline := start + wait_for_service_ms * 1000000 in
  loop (loop_bound os)
    (λ _ : unit,
       found ← ask (exists_at ros);
       if found : bool then mret (inr true)
       else
         ok ← ask (ros_ok_at ros);
         if negb ok || (wait_for_service_ms =? 0) then mret (inr false)
         else
           now ← steady_now os;
           mret (if now >=? deadline then inr false else inl tt)) tt.

(** The header, if it is read completely and valid; the three variable parts. *)
Definition read_request : helper_comp (option (ServiceHelperFrame * list byte * list byte * list byte)) :=
  header ← readExact frame_size;
  match header with
  | None => mret None
  | Some header =>
      let request_frame := frame_of_bytes header in
      if negb (validateServiceHelperRequest request_frame) then mret None
      else
        service ← readExact (Z.to_nat (service_name_bytes request_frame));
        match service with
        | None => mret None
        | Some service =>
            md5 ← readExact (Z.to_nat (service_md5_bytes request_frame));
            match md5 with
            | None => mret None
            | Some md5 =>
                payload ← (if payload_bytes request_frame =? 0 then mret (Some [])
                           else readExact (Z.to_nat (payload_bytes request_frame)));
                match payload with
                | None => mret None
                | Some payload => mret (Some (request_frame, service, md5, payload))
                end
            end
        end
  end.

(** [writeExact(frame); return 0;] *)
Definition answer_and_exit (frame : ServiceHelperFrame) : helper_comp Z :=
  written ← writeExact (frame_bytes frame);
  mret 0.

(** From the received commit on. *)
Definition dispatch (id : Z) (service md5 payload : list byte) : helper_comp Z :=
  answer ← ask (native_at ros);
  emit (NativeCall service md5 (serviceRequest payload) answer);;
  let '(frame, data) := response_frame_of id answer in
  written ← writeExact (frame_bytes frame);
  if negb written || bool_decide (data = []) then mret 0
  else
    written ← writeExact data;
    mret 0.

Definition runHelper : helper_comp Z :=
  request ← read_request;
  match request with
  | None => mret 0
  | Some (request_frame, service, md5, payload) =>
      let id := request_id request_frame in
      if negb (validAbsoluteServiceName ros (bytes_string service)) ||
         negb (validServiceMd5 (bytes_string md5))
      then answer_and_exit (makeServiceHelperReady id kReadyProtocolError)
      else
        available ← serviceAvailable (wait_for_service_ms request_frame);
        if negb available
        then answer_and_exit (makeServiceHelperReady id kServiceUnavailable)
        else
          client ← ask (client_at ros);
          if negb client
          then answer_and_exit (makeServiceHelperReady id kReadyProtocolError)
          else
            written ← writeExact (frame_bytes (makeServiceHelperReady id kReady));
            if negb written then mret 0
            else
              commit ← readExact frame_size;
              match commit with
              | None => mret 0
              | Some commit =>
                  if negb (validateServiceHelperCommit (frame_of_bytes commit) id) then mret 0
                  else dispatch id service md5 payload
              end
  end.
End helper.

(** What [main] asks of the system before [runHelper]. *)
Record HelperStart := MkHelperStart {
  start_socket_type : option (Z * Z);
  start_peer : option (Z * Z);
  start_ppid_before : Z;
  start_prctl_ok : bool;
  start_ppid_after : Z;
  start_directory : option FdDirectory
}.

(** The exit code of a start that fails, or the descriptor to serve and the
    descriptors closed. *)
Definition helper_main (arguments : list string) (s : HelperStart) : result Z (Z * list Z) :=
  match arguments with
  | [_; descriptor] =>
      match parseFileDescriptor descriptor with
      | None => Err kHelperUsageExit
      | Some socket_fd =>
          if negb (validHelperSocket socket_fd (start_socket_type s)) then Err kHelperUsageExit
          else if negb (installParentDeathFence (start_peer s) (start_ppid_before s)
                          (start_prctl_ok s) (start_ppid_after s))
          then Err kHelperLifecycleExit
          else
            let '(complete, closed) :=
              closeInheritedFileDescriptors socket_fd (start_directory s) in
            if negb complete then Err kHelperLifecycleExit else Ok (socket_fd, closed)
      end
  | _ => Err kHelperUsageExit
  end.

(** ** Events of the helper *)

Definition helper_sent (es : list helper_event) : list byte :=
  es ≫= λ e, match e with HelperSent l => l | _ => [] end.
Definition helper_received (es : list helper_event) : list byte :=
  es ≫= λ e, match e with HelperReceived l => l | _ => [] end.
Definition is_native (e : helper_event) : bool :=
  match e with NativeCall _ _ _ _ => true | _ => false end.
(** The native calls made, as events. *)
Definition natives (es : list helper_event) : list helper_event := base.filter is_native es.

Lemma helper_sent_app e1 e2 : helper_sent (e1 ++ e2) = helper_sent e1 ++ helper_sent e2.
Proof. apply bind_app. Qed.
Lemma helper_received_app e1 e2 :
  helper_received (e1 ++ e2) = helper_received e1 ++ helper_received e2.
Proof. apply bind_app. Qed.
Lemma natives_app e1 e2 : natives (e1 ++ e2) = natives e1 ++ natives e2.
Proof. apply filter_app. Qed.

Lemma natives_call service md5 request answer es :
  natives (NativeCall service md5 request answer :: es) =
  NativeCall service md5 request answer :: natives es.
Proof. done. Qed.

(** Events that neither send nor call. *)
Definition only_receives (es : list helper_event) : Prop := helper_sent es = [] ∧ natives es = [].
Definition only_sends (es : list helper_event) : Prop := helper_received es = [] ∧ natives es = [].

Section helper_io.
Context (os : Os) (ros : HelperRos).

(** No event, whatever the outcome, and no exception. *)
Definition mute {A} (m : comp helper_event unit A) : Prop :=
  ∀ w, wpo m (λ o e _, e = [] ∧ match o with Some (Err _) => False | _ => True end) w.

Lemma mute_bind {A B} (m : comp helper_event unit A) (f : A → comp _ _ B) :
  mute m → (∀ a, mute (f a)) → mute (m ≫= f).
Proof.
  intros Hm Hf w. apply wpo_bind. eapply wpo_mono; [apply Hm|].
  intros [[a|x]|] e w' [-> Ho]; [|done..]. eapply wpo_mono; [apply Hf|].
  intros o e w'' [-> Ho']. done.
Qed.

Lemma mute_loop {X A} n (body : X → comp helper_event unit (X + A)) x :
  (∀ x, mute (body x)) → mute (loop n body x).
Proof.
  intros Hb. revert x. induction n as [|n IH]; intros x; [done|].
  cbn [loop]. apply mute_bind; [done|]. by intros [x'|a].
Qed.

Lemma mute_ask {A} (f : nat → A) : mute (ask f).
Proof. done. Qed.
Lemma mute_ret {A} (a : A) : mute (mret a).
Proof. done. Qed.

Lemma wpo_bind_mute {A B} (m : comp helper_event unit A) (f : A → comp _ _ B)
    (Q : option (fallible B) → list helper_event → world unit → Prop) w :
  mute m → (∀ w', Q None [] w') → (∀ a w', wpo (f a) Q w') → wpo (m ≫= f) Q w.
Proof.
  intros Hm Hn Hf. apply wpo_bind. eapply wpo_mono; [apply Hm|].
  intros [[a|x]|] e w' [-> Ho]; [apply Hf|done|apply Hn].
Qed.

Lemma waitForSocket_mute mask : mute (waitForSocket os mask).
Proof.
  unfold waitForSocket, poll. apply mute_loop. intros _. apply mute_bind; [apply mute_ask|].
  intros [[]| |]; apply mute_ret.
Qed.

Lemma serviceAvailable_mute ms : mute (serviceAvailable os ros ms).
Proof.
  unfold serviceAvailable, steady_now. apply mute_bind; [apply mute_ask|]. intros now.
  apply mute_loop. intros _. apply mute_bind; [apply mute_ask|]. intros [|]; [apply mute_ret|].
  apply mute_bind; [apply mute_ask|]. intros ok. destruct (_ || _); [apply mute_ret|].
  apply mute_bind; [apply mute_ask|]. intros. apply mute_ret.
Qed.

Lemma wpo_helper_send bytes (Q : option (fallible SendAnswer) → list helper_event → world unit → Prop) w :
  (∀ w', Q (Some (Ok (SendCount 0))) [] w') →
  (∀ err w', Q (Some (Ok (SendError err))) [] w') →
  (∀ n w', (n < length bytes)%nat →
     Q (Some (Ok (SendCount (S n)))) [HelperSent (take (S n) bytes)] w') →
  wpo (send os bytes) Q w.
Proof.
  intros H0 He Hn. unfold send. apply wpo_bind, wpo_ask.
  destruct (send_at os (tick w)) as [err|n]; [apply wpo_ret; by apply He|].
  cbv zeta. destruct (Nat.min n (length bytes)) as [|k] eqn:Hk; cbn [Nat.eqb negb when].
  - apply wpo_bind, wpo_ret, wpo_ret. by apply H0.
  - apply wpo_bind, wpo_emit, wpo_ret. apply Hn. lia.
Qed.

Lemma wpo_helper_recv size (Q : option (fallible RecvAnswer) → list helper_event → world unit → Prop) w :
  (∀ w', Q (Some (Ok (RecvBytes []))) [] w') →
  (∀ err w', Q (Some (Ok (RecvError err))) [] w') →
  (∀ b l w', (length (b :: l) <= size)%nat →
     Q (Some (Ok (RecvBytes (b :: l)))) [HelperReceived (b :: l)] w') →
  wpo (recv os size) Q w.
Proof.
  intros H0 He Hn. unfold recv. apply wpo_bind, wpo_ask.
  destruct (recv_at os (tick w)) as [err|l]; [apply wpo_ret; by apply He|].
  cbv zeta. destruct (take size l) as [|b l'] eqn:Hl.
  - rewrite bool_decide_true by done. cbn [negb when].
    apply wpo_bind, wpo_ret, wpo_ret. by apply H0.
  - rewrite bool_decide_false by done. cbn [negb when].
    apply wpo_bind, wpo_emit, wpo_ret. apply Hn. rewrite <- Hl, length_take. lia.
Qed.

Lemma readExact_spec size w :
  wpo (readExact os size)
    (λ o e _, only_receives e ∧
       match o with
       | Some (Ok (Some output)) => helper_received e = output ∧ length output = size
       | Some (Err _) => False
       | _ => True
       end) w.
Proof.
  unfold readExact.
  apply (wpo_loop_start _ (λ output e _, only_receives e ∧ helper_received e = output ∧
                                         (length output <= size)%nat)).
  - split_and!; [done..|cbn; lia].
  - intros output e w0 [? _]. done.
  - intros output e w0 (Ho & Hr & Hlen).
    destruct (Nat.leb_spec size (length output)) as [Hle|Hgt].
    { wpo_leave. split_and!; [done..|lia]. }
    apply wpo_bind, wpo_helper_recv.
    + intros w1. by wpo_leave.
    + intros err w1. destruct err; cbn [not_again]; try (wpo_leave; done).
      all: apply wpo_bind_mute; [apply waitForSocket_mute| |].
      all: try (intros; wpo_norm; done).
      all: intros [|] w2; wpo_leave; done.
    + intros b l w1 Hb. wpo_leave. destruct Ho as [Hs Hn].
      split_and!.
      * split; [by rewrite helper_sent_app, Hs|by rewrite natives_app, Hn].
      * rewrite helper_received_app, Hr. cbn. by rewrite app_nil_r.
      * rewrite length_app. lia.
Qed.

Lemma writeExact_spec input w :
  wpo (writeExact os input)
    (λ o e _, only_sends e ∧ helper_sent e `prefix_of` input ∧
       match o with
       | Some (Ok true) => helper_sent e = input
       | Some (Err _) => False
       | _ => True
       end) w.
Proof.
  unfold writeExact.
  apply (wpo_loop_start _ (λ rest e _, only_sends e ∧ helper_sent e ++ rest = input)); [done|..].
  - intros rest e w0 [? <-]. split_and!; [done| |done]. by eexists.
  - intros rest e w0 [Ho Hs]. assert (helper_sent e `prefix_of` input) as Hpre
      by (rewrite <- Hs; by eexists).
    case_bool_decide as Hrest.
    { wpo_leave. split_and!; [done..|].
      by rewrite <- Hs, Hrest, app_nil_r. }
    apply wpo_bind, wpo_helper_send.
    + intros w1. by wpo_leave.
    + intros err w1. destruct err; cbn [not_again]; try (wpo_leave; done).
      all: apply wpo_bind_mute; [apply waitForSocket_mute| |].
      all: try (intros; wpo_norm; done).
      all: intros [|] w2; wpo_leave; done.
    + intros n w1 Hn. wpo_leave. destruct Ho as [Hr Hna]. split.
      * split; [by rewrite helper_received_app, Hr|by rewrite natives_app, Hna].
      * rewrite helper_sent_app. cbn. by rewrite app_nil_r, <- app_assoc, take_drop.
Qed.
End helper_io.

(** ** The run of a helper *)

(** [header] announces the three parts. *)
Definition request_parts (header service md5 payload : list byte) : Prop :=
  length header = frame_size ∧
  validateServiceHelperRequest (frame_of_bytes header) = true ∧
  Z.of_nat (length service) = service_name_bytes (frame_of_bytes header) ∧
  Z.of_nat (length md5) = service_md5_bytes (frame_of_bytes header) ∧
  Z.of_nat (length payload) = payload_bytes (frame_of_bytes header).

Definition response_stream (id : Z) (answer : NativeAnswer) : list byte :=
  frame_bytes (response_frame_of id answer).1 ++ (response_frame_of id answer).2.

(** The events of a helper that made the native call: before it, it received a
    valid request and its commit and sent one ready frame; after it, it sent
    (a part of) the response. *)
Definition called_after_commit (es : list helper_event) : Prop :=
  ∃ header service md5 payload commit answer before after,
    let id := request_id (frame_of_bytes header) in
    es = before ++ NativeCall service md5 (serviceRequest payload) answer :: after ∧
    natives before = [] ∧ only_sends after ∧
    helper_received before = header ++ service ++ md5 ++ payload ++ commit ∧
    request_parts header service md5 payload ∧ length commit = frame_size ∧
    validateServiceHelperCommit (frame_of_bytes commit) id = true ∧
    helper_sent before = frame_bytes (makeServiceHelperReady id kReady) ∧
    helper_sent after `prefix_of` response_stream id answer.

Definition helper_safe (es : list helper_event) : Prop :=
  (natives es = [] ∧ (length (helper_sent es) <= frame_size)%nat) ∨ called_after_commit es.

Section run_helper.
Context (os : Os) (ros : HelperRos).

Lemma only_receives_app e1 e2 : only_receives e1 → only_receives e2 → only_receives (e1 ++ e2).
Proof.
  intros [Ea Eb] [Ec Ed]. split.
  - by rewrite helper_sent_app, Ea, Ec.
  - by rewrite natives_app, Eb, Ed.
Qed.

Lemma only_sends_app e1 e2 : only_sends e1 → only_sends e2 → only_sends (e1 ++ e2).
Proof.
  intros [Ea Eb] [Ec Ed]. split.
  - by rewrite helper_received_app, Ea, Ec.
  - by rewrite natives_app, Eb, Ed.
Qed.

Lemma field_nonneg offset size l : 0 <= field offset size l.
Proof. apply le_decode_bound. Qed.

Lemma read_request_spec w :
  wpo (read_request os)
    (λ o e _, only_receives e ∧
       match o with
       | Some (Ok (Some (f, service, md5, payload))) => ∃ header,
           f = frame_of_bytes header ∧ request_parts header service md5 payload ∧
           helper_received e = header ++ service ++ md5 ++ payload
       | Some (Err _) => False
       | _ => True
       end) w.
Proof.
  unfold read_request. apply wpo_bind. eapply wpo_mono; [apply readExact_spec|].
  intros [[[header|]|]|] e1 w1 [He1 Ho1]; [|by wpo_leave|done..].
  destruct Ho1 as [Hr1 Hl1]. cbv zeta.
  destruct (validateServiceHelperRequest _) eqn:Hval; cbn [negb]; [|by wpo_leave].
  apply wpo_bind. eapply wpo_mono; [apply readExact_spec|].
  intros [[[service|]|]|] e2 w2 [He2 Ho2]; wpo_norm;
    [|wpo_leave; split; [by apply only_receives_app|done]|done|].
  2: { split; [by apply only_receives_app|done]. }
  destruct Ho2 as [Hr2 Hl2]. apply wpo_bind. eapply wpo_mono; [apply readExact_spec|].
  intros [[[md5|]|]|] e3 w3 [He3 Ho3]; wpo_norm;
    [|wpo_leave; split; [by repeat apply only_receives_app|done]|done|].
  2: { split; [by repeat apply only_receives_app|done]. }
  destruct Ho3 as [Hr3 Hl3]. apply wpo_bind.
  set (n := payload_bytes _).
  apply wpo_mono with (Q := λ o e0 _, only_receives e0 ∧
    match o with
    | Some (Ok (Some payload)) => helper_received e0 = payload ∧ Z.of_nat (length payload) = n
    | Some (Err _) => False | _ => True end).
  { destruct (n =? 0) eqn:En; [wpo_leave; apply Z.eqb_eq in En; rewrite En; done|].
    eapply wpo_mono; [apply readExact_spec|]. intros [[[payload|]|]|] e' w' [? Hp]; [|done..].
    destruct Hp as [? Hlen]. split_and!; [done..|]. rewrite Hlen.
    pose proof (field_nonneg 28 4 header). cbn in n. unfold n. lia. }
  intros [[[payload|]|]|] e4 w4 [He4 Ho4]; wpo_norm;
    [|wpo_leave; split; [by repeat apply only_receives_app|done]|done|].
  2: { split; [by repeat apply only_receives_app|done]. }
  destruct Ho4 as [Hr4 Hl4]. wpo_leave. split; [by repeat apply only_receives_app|].
  exists header. split; [done|]. split.
  - split_and!; [done..| | |done]; cbn in *;
      [pose proof (field_nonneg 20 4 header)|pose proof (field_nonneg 24 4 header)]; lia.
  - rewrite !helper_received_app. congruence.
Qed.

(** Replying with one frame instead of calling. *)
Lemma answer_and_exit_spec id status w :
  wpo (answer_and_exit os (makeServiceHelperReady id status))
    (λ _ e _, only_sends e ∧ (length (helper_sent e) <= frame_size)%nat) w.
Proof.
  assert (∀ e, helper_sent e `prefix_of` frame_bytes (makeServiceHelperReady id status) →
            (length (helper_sent e) <= frame_size)%nat) as Hlen.
  { intros e Hpre%prefix_length. by rewrite length_frame_bytes in Hpre. }
  unfold answer_and_exit. apply wpo_bind. eapply wpo_mono; [apply writeExact_spec|].
  intros [[b|x]|] e w' (He & Hpre & Ho); [wpo_leave|done|]; split; auto.
Qed.

Lemma dispatch_spec id service md5 payload w :
  wpo (dispatch os ros id service md5 payload)
    (λ _ e _, ∃ answer after,
       e = NativeCall service md5 (serviceRequest payload) answer :: after ∧
       only_sends after ∧ helper_sent after `prefix_of` response_stream id answer) w.
Proof.
  unfold dispatch, response_stream. apply wpo_bind, wpo_ask, wpo_bind, wpo_emit.
  set (answer := native_at ros (tick w)).
  destruct (response_frame_of id answer) as [frame data] eqn:Hf.
  apply wpo_bind. eapply wpo_mono; [apply writeExact_spec|].
  intros [[b|x]|] e1 w1 (He1 & Hpre1 & Ho1); wpo_norm; [|done|].
  2: { exists answer, e1. rewrite Hf. split; [done|]. split; [done|].
       by apply prefix_app_r. }
  destruct b; cbn [negb orb].
  2: { wpo_leave. exists answer, e1. rewrite Hf. split; [done|]. split; [done|].
       by apply prefix_app_r. }
  case_bool_decide as Hd.
  { wpo_leave. exists answer, e1. rewrite Hf. split; [done|]. split; [done|].
    by apply prefix_app_r. }
  apply wpo_bind. eapply wpo_mono; [apply writeExact_spec|].
  intros o e2 w2 (He2 & Hpre2 & Ho2).
  assert (∃ answer0 after, [NativeCall service md5 (serviceRequest payload) answer] ++ e1 ++ e2 =
    NativeCall service md5 (serviceRequest payload) answer0 :: after ∧ only_sends after ∧
    helper_sent after `prefix_of`
      frame_bytes (response_frame_of id answer0).1 ++ (response_frame_of id answer0).2) as Hall.
  { exists answer, (e1 ++ e2). rewrite Hf. split; [done|]. split; [by apply only_sends_app|].
    rewrite helper_sent_app, Ho1. by apply prefix_app. }
  destruct o as [[b|x]|]; [wpo_leave|done|wpo_norm]; done.
Qed.

Lemma runHelper_spec w : wpo (runHelper os ros) (λ _ e _, helper_safe e) w.
Proof.
  assert (∀ e e', only_receives e → only_sends e' → (length (helper_sent e') <= frame_size)%nat →
            helper_safe (e ++ e')) as Hsafe.
  { intros e e' [Hs Hn] [_ Hn'] Hlen. left.
    by rewrite natives_app, Hn, Hn', helper_sent_app, Hs. }
  assert (∀ e, only_receives e → helper_safe e) as Hquiet.
  { intros e He. rewrite <- (app_nil_r e). apply Hsafe; [done..|cbn; lia]. }
  unfold runHelper. apply wpo_bind. eapply wpo_mono; [apply read_request_spec|].
  intros [[[[[[f service] md5] payload]|]|]|] e1 w1 [He1 Ho1]; [|wpo_leave; by auto|done|by auto].
  destruct Ho1 as (header & -> & Hparts & Hr1).
  set (id := request_id (frame_of_bytes header)).
  destruct (_ || _).
  { eapply wpo_mono; [apply answer_and_exit_spec|]. intros o e2 w2 [? ?]. by apply Hsafe. }
  apply wpo_bind_mute; [apply serviceAvailable_mute|intros; wpo_norm; by auto|].
  intros [|] w2; cbn [negb].
  2: { eapply wpo_mono; [apply answer_and_exit_spec|]. intros o e2 w3 [? ?]. by apply Hsafe. }
  apply wpo_bind_mute; [apply mute_ask|intros; wpo_norm; by auto|].
  intros [|] w3; cbn [negb].
  2: { eapply wpo_mono; [apply answer_and_exit_spec|]. intros o e2 w4 [? ?]. by apply Hsafe. }
  apply wpo_bind. eapply wpo_mono; [apply writeExact_spec|].
  intros o e2 w4 (He2 & Hpre2 & Ho2).
  assert (length (helper_sent e2) <= frame_size)%nat as Hlen2.
  { apply prefix_length in Hpre2. by rewrite length_frame_bytes in Hpre2. }
  destruct o as [[[|]|x]|]; wpo_norm; [|wpo_leave; by apply Hsafe|done|by apply Hsafe].
  cbn [negb]. apply wpo_bind. eapply wpo_mono; [apply readExact_spec|].
  intros o e3 w5 [He3 Ho3].
  assert (helper_safe (e1 ++ e2 ++ e3)) as H3.
  { left. destruct He1 as [Ha Hb], He2 as [_ Hd], He3 as [He Hf].
    split; [by rewrite !natives_app, Hb, Hd, Hf|].
    by rewrite !helper_sent_app, Ha, He, app_nil_r. }
  destruct o as [[[commit|]|x]|]; wpo_norm; [|by wpo_leave|done..].
  destruct Ho3 as [Hr3 Hl3].
  destruct (validateServiceHelperCommit _ _) eqn:Hval; cbn [negb]; [|by wpo_leave].
  eapply wpo_mono; [apply dispatch_spec|]. intros o e4 w6 (answer & after & -> & Hafter & Hs4).
  wpo_norm. right. exists header, service, md5, payload, commit, answer, (e1 ++ e2 ++ e3), after.
  destruct He1 as [Hs1 Hn1], He2 as [Hr2 Hn2], He3 as [Hs3 Hn3]. cbv zeta.
  rewrite !natives_app, !helper_received_app, !helper_sent_app, Hn1, Hn2, Hn3, Hr1, Hr2, Hr3,
    Hs1, Hs3, Ho2. cbn [app].
  rewrite <- !app_assoc, app_nil_r. split_and!; done.
Qed.
End run_helper.
