(* ===== verification/InFlight.v ===== *)
(** * The in-flight limit under concurrency

    Concurrent calls of [ServiceInvoker] share one atomic counter.  Each thread
    runs [acquireInFlight] (load, then a weak compare-exchange until it succeeds
    or the limit is reached), makes its call, and decrements the counter in the
    destructor of [InFlightPermit].  A state is the counter and what each thread
    is doing; a step is one atomic operation of one thread. *)

From S2P Require Import Prelude Bytes.
From stdpp Require Import relations.
Local Open Scope Z_scope.

Inductive permit_thread :=
| Outside                  (* not in acquireInFlight, no permit *)
| Trying (current : Z)     (* in the loop, with its last known value *)
| Holding.                 (* owns an InFlightPermit *)

#[export] Instance permit_thread_eq_dec : EqDecision permit_thread.
Proof. solve_decision. Defined.

Record permit_state := MkPermitState { in_flight : Z; threads : list permit_thread }.

Inductive permit_step (maximum : Z) : permit_state → permit_state → Prop :=
| permit_load n ts i :
    ts !! i = Some Outside →
    permit_step maximum (MkPermitState n ts) (MkPermitState n (<[i := Trying n]> ts))
| permit_busy n ts i current :
    ts !! i = Some (Trying current) → (current >=? maximum) = true →
    permit_step maximum (MkPermitState n ts) (MkPermitState n (<[i := Outside]> ts))
| permit_exchanged n ts i :
    ts !! i = Some (Trying n) → (n >=? maximum) = false →
    permit_step maximum (MkPermitState n ts) (MkPermitState (u32 (n + 1)) (<[i := Holding]> ts))
| permit_retry n ts i current :      (* also spuriously, when current = n *)
    ts !! i = Some (Trying current) → (current >=? maximum) = false →
    permit_step maximum (MkPermitState n ts) (MkPermitState n (<[i := Trying n]> ts))
| permit_release n ts i :
    ts !! i = Some Holding →
    permit_step maximum (MkPermitState n ts) (MkPermitState (u32 (n - 1)) (<[i := Outside]> ts)).

Definition permit_start (count : nat) : permit_state := MkPermitState 0 (replicate count Outside).

Definition is_holding (t : permit_thread) : bool := bool_decide (t = Holding).
Fixpoint holders (ts : list permit_thread) : Z :=
  match ts with
  | [] => 0
  | t :: ts => (if is_holding t then 1 else 0) + holders ts
  end.

Lemma holders_nonneg ts : 0 <= holders ts.
Proof. induction ts as [|t ts IH]; cbn; [lia|]. destruct (is_holding t); lia. Qed.

Lemma holders_insert ts i t t' :
  ts !! i = Some t →
  holders (<[i := t']> ts) =
  holders ts - (if is_holding t then 1 else 0) + (if is_holding t' then 1 else 0).
Proof.
  revert i. induction ts as [|t0 ts IH]; intros [|i] Hi; simplify_eq/=; [lia|].
  change (list_insert i t' ts) with (<[i := t']> ts). rewrite (IH i Hi). lia.
Qed.

(** The counter is the number of permits held, and within the limit. *)
Definition permit_inv (maximum : Z) (s : permit_state) : Prop :=
  in_flight s = holders (threads s) ∧ in_flight s <= maximum.

Lemma permit_step_inv maximum s s' :
  0 < maximum < 2 ^ 32 → permit_inv maximum s → permit_step maximum s s' → permit_inv maximum s'.
Proof.
  intros Hmax [Hcount Hle] Hstep. unfold permit_inv.
  destruct Hstep as [n ts i Hi|n ts i c Hi Hc|n ts i Hi Hc|n ts i c Hi Hc|n ts i Hi];
    cbn [in_flight threads] in *; rewrite (holders_insert _ _ _ _ Hi); cbn [is_holding].
  - change (is_holding Outside) with false. change (is_holding (Trying n)) with false. lia.
  - change (is_holding Outside) with false. change (is_holding (Trying c)) with false. lia.
  - change (is_holding Holding) with true. change (is_holding (Trying n)) with false.
    rewrite Z.geb_leb, Z.leb_gt in Hc. pose proof (holders_nonneg ts).
    rewrite u32_small by lia. lia.
  - change (is_holding (Trying n)) with false. change (is_holding (Trying c)) with false. lia.
  - change (is_holding Holding) with true. change (is_holding Outside) with false.
    pose proof (holders_nonneg (<[i:=Outside]> ts)) as Hnn.
    rewrite (holders_insert _ _ _ _ Hi) in Hnn.
    change (is_holding Holding) with true in Hnn. change (is_holding Outside) with false in Hnn.
    rewrite u32_small by lia. lia.
Qed.

Lemma holders_start count : holders (replicate count Outside) = 0.
Proof. induction count as [|count IH]; [done|]. cbn. by rewrite IH. Qed.

(** C33: under any interleaving of concurrent service calls, the shared counter
    equals the number of calls that hold a permit, never wraps, and never exceeds
    the configured maximum. *)
Theorem permits_never_exceed_maximum maximum count s :
  0 < maximum < 2 ^ 32 → rtc (permit_step maximum) (permit_start count) s →
  in_flight s = holders (threads s) ∧ 0 <= in_flight s <= maximum.
Proof.
  intros Hmax Hr. enough (permit_inv maximum s) as [Hc Hle].
  { pose proof (holders_nonneg (threads s)). lia. }
  assert (permit_inv maximum (permit_start count)) as Hstart.
  { split; cbn; [by rewrite holders_start|lia]. }
  revert Hstart. induction Hr as [s|s1 s2 s3 Hstep _ IH]; [done|]. intros HI.
  apply IH. by eapply permit_step_inv.
Qed.

(** Two threads race for one permit: one gets it. *)
Lemma permits_never_exceed_maximum_witness :
  let s := MkPermitState 1 [Holding; Trying 1] in
  in_flight s = holders (threads s) ∧ 0 <= in_flight s <= 1.
Proof.
  apply (permits_never_exceed_maximum 1 2); [lia|].
  eapply rtc_l; [by apply (permit_load _ _ _ 0)|].
  eapply rtc_l; [by apply (permit_load _ _ _ 1)|].
  eapply rtc_l; [by apply (permit_exchanged _ _ _ 0)|].
  eapply rtc_l; [by apply (permit_retry _ _ _ 1 0)|].
  apply rtc_refl.
Defined.
