(* ===== verification/ServiceFence.v ===== *)
(** * The two processes of a service call together

    The Adapter ([ServiceInvoker.call]) and the helper ([HelperMain.runHelper])
    share one stream socket: what one end has received is a prefix of what the
    other end has sent.  The theorems of this file relate a finished call to any
    prefix of the run of its helper, so they also hold for a helper that the call
    killed. *)

From S2P Require Import Prelude Bytes Errors Effects Decimal Libraries Instances TypeRegistry Os HelperProtocol JsonCodec ServiceInvoker ServiceInvokerLemmas HelperMain.
Local Open Scope Z_scope.

(** ** Prefixes of a helper's run *)

Lemma prefix_of_self {A} (l : list A) : l `prefix_of` l.
Proof. done. Qed.

Lemma prefix_split {A} (l l1 l2 : list A) x :
  l `prefix_of` l1 ++ x :: l2 →
  l `prefix_of` l1 ∨ ∃ l2', l = l1 ++ x :: l2' ∧ l2' `prefix_of` l2.
Proof.
  intros [k E]. revert l E. induction l1 as [|a l1 IH]; intros [|b l] E; cbn in *.
  - left. done.
  - injection E as -> ->. right. exists l. split; [done|]. by eexists.
  - left. apply prefix_nil.
  - injection E as -> E. destruct (IH l E) as [Hp|(l2' & -> & Hp)].
    + left. by apply prefix_cons.
    + right. by exists l2'.
Qed.

Lemma helper_sent_prefix e' e : e' `prefix_of` e → helper_sent e' `prefix_of` helper_sent e.
Proof. intros [k ->]. rewrite helper_sent_app. by eexists. Qed.

Lemma natives_prefix e' e : e' `prefix_of` e → natives e = [] → natives e' = [].
Proof. intros [k ->]. rewrite natives_app. by intros [? _]%app_eq_nil. Qed.

Lemma only_sends_prefix e' e : e' `prefix_of` e → only_sends e → only_sends e'.
Proof.
  intros [k ->] [Hr Hn]. rewrite helper_received_app in Hr. rewrite natives_app in Hn.
  apply app_eq_nil in Hr, Hn. by destruct Hr, Hn.
Qed.

Lemma helper_safe_prefix e' e : e' `prefix_of` e → helper_safe e → helper_safe e'.
Proof.
  intros Hpre [[Hn Hlen]|Hcalled].
  { left. split; [by eapply natives_prefix|].
    apply helper_sent_prefix, prefix_length in Hpre. lia. }
  destruct Hcalled as (header & service & md5 & payload & commit & answer & before & after & Hc).
  cbv zeta in Hc. destruct Hc as (-> & Hn & Hafter & Hr & Hparts & Hcl & Hval & Hs & Hs').
  destruct (prefix_split _ _ _ _ Hpre) as [Hp|(after' & -> & Hp)].
  - left. split; [by eapply natives_prefix|].
    apply helper_sent_prefix, prefix_length in Hp. rewrite Hs, length_frame_bytes in Hp by done.
    done.
  - right. exists header, service, md5, payload, commit, answer, before, after'.
    cbv zeta. split_and!; try done.
    + by eapply only_sends_prefix.
    + trans (helper_sent after); [|done]. by apply helper_sent_prefix.
Qed.

Section fence.
Context {J M T B : Type} `{JsonCpp J} `{!JsonCppLaws J} `{RosTime} `{!RosTimeLaws}
  `{BabelFish M} `{!BabelFishLaws M} `{BabelFishTypes M T B} `{!BabelFishTypesLaws M T B}.
Context (limits : Limits) (limits_ok : 0 <= maximum_depth limits).
Context (request : ServiceCallRequest J).
Context (wait_width : 0 <= req_wait_for_service_ms request < 2 ^ 32).

(** The request header as the helper reads it back. *)
Lemma request_header description payload id :
  prepared_ok limits request description payload → 0 < id < 2 ^ 64 →
  let frame := request_frame request description payload id in
  length (frame_bytes frame) = frame_size ∧
  frame_of_bytes (frame_bytes frame) = frame ∧
  service_name_bytes frame = Z.of_nat (String.length (req_service request)) ∧
  service_md5_bytes frame = Z.of_nat (String.length (md5 description)) ∧
  payload_bytes frame = Z.of_nat (length payload).
Proof.
  intros (_ & Hmd5 & Hname & Hpay & _) Hid frame.
  assert (Z.of_nat (String.length (md5 description)) = 32) as Hlen.
  { unfold validServiceMd5 in Hmd5. destruct (_ =? kServiceMd5Bytes) eqn:E; [|done].
    by apply Z.eqb_eq in E. }
  unfold kMaximumServiceNameBytes, kMaximumServicePayloadBytes in *.
  split; [by apply length_frame_bytes|]. split.
  - apply frame_of_frame_bytes, request_wf; lia.
  - cbn. rewrite !u32_small; lia.
Qed.

(** The bytes of a helper that called are the whole stream of the request. *)
Lemma helper_consumed_all description payload id header service md5' payload' commit :
  prepared_ok limits request description payload → 0 < id < 2 ^ 64 →
  request_parts header service md5' payload' → length commit = frame_size →
  (header ++ service ++ md5' ++ payload' ++ commit) `prefix_of`
    request_stream request description payload id ++ commit_stream id →
  header = frame_bytes (request_frame request description payload id) ∧
  service = string_bytes (req_service request) ∧ md5' = string_bytes (md5 description) ∧
  payload' = payload ∧ commit = commit_stream id.
Proof.
  intros Hprep Hid (Hlh & _ & Hls & Hlm & Hlp) Hlc [rest E].
  destruct (request_header description payload id Hprep Hid) as (Hlf & Hf & Hn & Hm & Hp).
  unfold request_stream in E. rewrite <- !app_assoc in E.
  apply app_inj_1 in E as [<- E]; [|by rewrite Hlf, Hlh].
  rewrite Hf, Hn in Hls. rewrite Hf, Hm in Hlm. rewrite Hf, Hp in Hlp.
  apply app_inj_1 in E as [<- E]; [|rewrite length_string_bytes; lia].
  apply app_inj_1 in E as [<- E]; [|rewrite length_string_bytes; lia].
  apply app_inj_1 in E as [<- E]; [|lia].
  rewrite <- (app_nil_r (commit_stream id)) in E.
  apply app_inj_1 in E as [<- E]; [done|].
  unfold commit_stream. by rewrite Hlc, length_frame_bytes.
Qed.

(** The parties of a call: its finished run, and what the helper did of its own
    run before it ended or was killed. *)
Context (os : Os) (proc : Processes) (maximum : Z) (w w' : world HelperProcess).
Context (r : fallible (ServiceCallResult J)) (e : list call_event).
Context (call_ran : call os proc limits maximum request w = MkRun (Some r) e w').
Context (hos : Os) (ros : HelperRos) (hw : world unit) (eh : list helper_event).
Context (helper_ran : eh `prefix_of` events (runHelper hos ros hw)).
Context (request_delivered : helper_received eh `prefix_of` sent e).

Lemma call_ended : call_outcome limits request r e.
Proof.
  pose proof (call_spec os proc limits request limits_ok maximum w) as Hc.
  exact (wp_run True _ _ _ _ _ _ Hc call_ran).
Qed.

Lemma helper_ended : helper_safe eh.
Proof. eapply helper_safe_prefix; [exact helper_ran|]. apply runHelper_spec. Qed.

(** If the helper called, the call had sent its whole stream. *)
Lemma helper_called_cases :
  natives eh = [] ∨
  ∃ description payload id answer before after,
    prepared_ok limits request description payload ∧ 0 < id < 2 ^ 64 ∧
    call_io limits request description payload id r e ∧
    sent e = request_stream request description payload id ++ commit_stream id ∧
    eh = before ++ NativeCall (string_bytes (req_service request))
           (string_bytes (md5 description)) (serviceRequest payload) answer :: after ∧
    natives before = [] ∧ only_sends after ∧
    helper_sent before = frame_bytes (makeServiceHelperReady id kReady) ∧
    helper_sent after `prefix_of` response_stream id answer.
Proof.
  destruct helper_ended as [[Hn _]|Hcalled]; [by left|]. right.
  destruct Hcalled as (header & service & md5' & payload' & commit & answer & before & after & Hc).
  cbv zeta in Hc. destruct Hc as (Heh & Hn & Hafter & Hr & Hparts & Hlc & _ & Hs & Hs').
  assert (header ++ service ++ md5' ++ payload' ++ commit `prefix_of` sent e) as Hsent.
  { trans (helper_received eh); [|done]. rewrite Heh, helper_received_app, Hr. by eexists. }
  destruct call_ended as [(x & -> & _ & [Hse _])|(description & payload & id & Hprep & Hid & Hio)].
  { exfalso. apply prefix_length in Hsent. rewrite Hse, length_app in Hsent.
    destruct Hparts as [Hlh _]. rewrite Hlh in Hsent. unfold frame_size in Hsent. cbn in Hsent. lia. }
  pose proof (request_header description payload id Hprep Hid) as (_ & Hframe & _).
  set (full := request_stream request description payload id ++ commit_stream id).
  assert (sent e `prefix_of` full) as Hfull.
  { unfold call_io in Hio. destruct r as [v|x]; [by destruct Hio as [-> _]|].
    destruct (is_uncertain x); [by rewrite Hio|]. destruct Hio as (rest & Erest & _).
    fold full in Erest. rewrite <- Erest. by eexists. }
  destruct (helper_consumed_all description payload id header service md5' payload' commit)
    as (-> & -> & -> & -> & ->); [done..|by trans (sent e)|].
  rewrite Hframe in *.
  exists description, payload, id, answer, before, after.
  do 3 (split; [done|]). split; [|by split_and!].
  apply prefix_length_eq; [done|]. apply prefix_length in Hsent.
  unfold full, request_stream. rewrite <- !app_assoc. done.
Qed.

Lemma certain_failure_fence x :
  r = Err x → is_uncertain x = false → natives eh = [].
Proof.
  intros Hr Hx. destruct helper_called_cases as
    [Hn|(description & payload & id & answer & before & after & _ & _ & Hio & Hs & _)]; [done|].
  exfalso. unfold call_io in Hio. rewrite Hr, Hx in Hio.
  destruct Hio as (rest & E & Hne). apply Hne.
  apply (f_equal length) in E. rewrite <- Hs, length_app in E. by destruct rest; [|cbn in E; lia].
Qed.

(** C1: the commit fence. A service call that ends with an error not marked
    "uncertain" never caused a native service call: if the helper process, up to
    any point of its run, has entered the native call, then the call either
    succeeded or reported its outcome as uncertain. *)
Theorem certain_failure_made_no_native_call x :
  r = Err x → is_uncertain x = false → natives eh = [].
Proof. apply certain_failure_fence. Qed.

(** C3: the helper makes at most one native call per request, and that call names
    exactly the requested service and the MD5 of its resolved type, and carries
    exactly the serialised request behind its four-byte length. *)
Theorem native_call_is_the_request :
  natives eh = [] ∨
  ∃ description payload answer,
    prepared_ok limits request description payload ∧
    natives eh = [NativeCall (string_bytes (req_service request))
                    (string_bytes (md5 description)) (serviceRequest payload) answer].
Proof.
  destruct helper_called_cases as
    [Hn|(description & payload & id & answer & before & after & Hp & _ & _ & _ & Heh & Hb & Ha & _)];
    [by left|]. right.
  exists description, payload, answer. split; [done|]. rewrite Heh, natives_app, Hb.
  destruct Ha as [_ Ha]. cbn [app]. rewrite natives_call. by rewrite Ha.
Qed.

(** The response bytes of a completed native call. *)
Lemma response_frame_completed id answer header payload rest :
  0 <= id < 2 ^ 64 →
  length header = frame_size → header ++ payload ++ rest = response_stream id answer →
  status (frame_of_bytes header) = response_status_value kCompleted →
  Z.of_nat (length payload) = payload_bytes (frame_of_bytes header) →
  ∃ response, answer = NativeReturned response ∧ responsePayload response = Some payload.
Proof.
  intros Hid Hlh E Hst Hlp. unfold response_stream in E.
  assert (∃ s n, (response_frame_of id answer).1 = makeServiceHelperResponse id s n) as (s & n & Ef).
  { unfold response_frame_of. destruct answer as [| |resp]; [by eauto..|].
    destruct (responsePayload resp); [destruct (_ >? _)|]; eauto. }
  apply app_inj_1 in E as [-> E]; [|by rewrite Hlh, Ef, length_frame_bytes].
  assert (frame_of_bytes (frame_bytes (response_frame_of id answer).1) =
          (response_frame_of id answer).1) as Hframe.
  { rewrite Ef. apply frame_of_frame_bytes. by apply response_wf. }
  rewrite Hframe in *. clear Hframe Ef. unfold response_frame_of in *.
  destruct answer as [| |resp]; [done..|]. exists resp. split; [done|].
  destruct (responsePayload resp) as [data|]; [|done].
  destruct (_ >? _) eqn:Hmax; [done|]. cbn in *. rewrite Z.gtb_ltb, Z.ltb_ge in Hmax.
  unfold kMaximumServicePayloadBytes in Hmax. rewrite u32_small in Hlp by lia.
  assert (rest = []) as ->; [|by rewrite app_nil_r in E; subst].
  apply (f_equal length) in E. rewrite length_app in E. apply nil_length_inv. lia.
Qed.

Lemma success_fence result :
  received e `prefix_of` helper_sent eh → r = Ok result →
  ∃ description payload response data,
    prepared_ok limits request description payload ∧
    natives eh = [NativeCall (string_bytes (req_service request))
                    (string_bytes (md5 description)) (serviceRequest payload)
                    (NativeReturned response)] ∧
    responsePayload response = Some data ∧
    response_json limits description data (res_response result).
Proof.
  intros Hback Hres. destruct helper_called_cases as
    [Hn|(description & payload & id & answer & before & after & Hp & Hid & Hio & _ & Heh & Hb
         & Ha & Hs & Hs')].
  - exfalso. destruct helper_ended as [[_ Hlen]|Hc].
    + destruct call_ended as [(x & Hx & _)|(d & p & id & _ & _ & Hio)]; [congruence|].
      unfold call_io in Hio. rewrite Hres in Hio.
      destruct Hio as (_ & ready & header & resp & Er & [Hlr _] & [Hlh _] & _).
      apply prefix_length in Hback. rewrite Er, !length_app, Hlr, Hlh in Hback.
      unfold frame_size in *. lia.
    + destruct Hc as (? & ? & ? & ? & ? & ? & ? & ? & -> & _).
      rewrite natives_app in Hn. by apply app_eq_nil in Hn as [_ ?].
  - unfold call_io in Hio. rewrite Hres in Hio.
    destruct Hio as (_ & ready & header & resp & Er & [Hlr _] & (Hlh & _ & Hst & Hlp) & _ & _ & Hj).
    rewrite Er, Heh, helper_sent_app, Hs in Hback. destruct Hback as [k Hback].
    change (helper_sent (?x :: ?l)) with (helper_sent l) in Hback.
    rewrite <- !app_assoc in Hback.
    apply app_inj_1 in Hback as [_ Hback]; [|by rewrite Hlr, length_frame_bytes].
    destruct Hs' as [k' Hs'].
    destruct (response_frame_completed id answer header resp (k ++ k')) as (response & -> & Hdata);
      [lia|done| |done..|].
    { rewrite Hs'. cbn in Hback. rewrite Hback, <- !app_assoc. done. }
    exists description, payload, response, resp. split; [done|]. split; [|done].
    rewrite Heh, natives_app, Hb. cbn [app]. rewrite natives_call.
    by destruct Ha as [_ ->].
Qed.

(** C2: a successful service call reports what the service answered: the helper
    made the native call, it returned, and the JSON of the result is the codec's
    encoding of exactly the response message that the native call produced. *)
Theorem success_is_the_native_response result :
  received e `prefix_of` helper_sent eh → r = Ok result →
  ∃ description payload response data,
    prepared_ok limits request description payload ∧
    natives eh = [NativeCall (string_bytes (req_service request))
                    (string_bytes (md5 description)) (serviceRequest payload)
                    (NativeReturned response)] ∧
    responsePayload response = Some data ∧
    response_json limits description data (res_response result).
Proof. apply success_fence. Qed.
End fence.

(** ** A call evaluated

    A request to [/toggle] whose helper is ready at once and whose service
    answers with one byte; and the same request with a helper that disappears
    before it is ready. *)

Module Demo.
Definition request : ServiceCallRequest json :=
  MkServiceCallRequest "/toggle" "demo_srvs/Toggle"
    (JObject [("on", JBool true); ("level", JInt 7)]) 100 1000 0 false.

Definition ready : list byte := frame_bytes (makeServiceHelperReady 5 kReady).
Definition response : list byte := frame_bytes (makeServiceHelperResponse 5 kCompleted 1).

Definition os (recv : nat → RecvAnswer) : Os :=
  MkOs 40 (λ _, false) (λ _, 1000) (λ t, Z.of_nat t) (λ _, PollTimeout) (λ _, SendCount 1000)
    recv (λ _, "error").

Definition answers (t : nat) : RecvAnswer :=
  RecvBytes (if Nat.ltb t 25 then ready else if Nat.ltb t 28 then response else [byte_of 1]).

Definition processes : Processes :=
  MkProcesses (λ _, Ok (string_bytes "/opt/bin/adapter")) (λ _, Ok (7, 8)) (λ _, Ok 200)
    (λ _, None) (λ _, Ok 4242) (λ _, None) (λ _, None) (λ _, 0) (λ _, None) (λ _, 5).

Definition start_world : world HelperProcess := MkWorld 0 newHelperProcess.
Definition completed := call (os answers) processes default_limits 4 request start_world.
Definition lost := call (os (λ _, RecvBytes [])) processes default_limits 4 request start_world.

Definition result : ServiceCallResult json :=
  MkServiceCallResult "/toggle" "demo_srvs/Toggle" (JObject [("success", JBool true)]) 0.

(** The helper's end: it reads the request piece by piece. *)
Definition stream : list byte := sent (events completed).
Definition helper_os (available : list byte) : Os :=
  os (λ t, RecvBytes (drop (nth t [0; 64; 71; 103]%nat 108%nat) available)).
Definition ros : HelperRos :=
  MkHelperRos (λ _, true) (λ _, true) (λ _, true) (λ _, true)
    (λ _, NativeReturned (MkSerializedMessage 5 (Some (map byte_of [1; 0; 0; 0; 1])) (Some 4))).
Definition helper_trace : list helper_event :=
  events (runHelper (helper_os stream) ros (MkWorld 0 tt)).
(** The helper of the lost call got the request but no commit. *)
Definition lost_trace : list helper_event :=
  events (runHelper (helper_os (sent (events lost))) ros (MkWorld 0 tt)).

Lemma completed_run : completed = MkRun (Some (Ok result)) (events completed) (after completed).
Proof. vm_compute. reflexivity. Qed.

Definition lost_error : exn :=
  transientError "service_helper_unavailable"
    "ROS1 service helper failed before dispatch: service helper disconnected".

Lemma lost_run : lost = MkRun (Some (Err lost_error)) (events lost) (after lost).
Proof. vm_compute. reflexivity. Qed.
End Demo.

Lemma certain_failure_made_no_native_call_witness : natives Demo.lost_trace = [].
Proof.
  eapply (certain_failure_made_no_native_call default_limits ltac:(cbn; lia) Demo.request
            ltac:(cbn; lia) _ _ 4 _ _ _ _ Demo.lost_run
            (Demo.helper_os (sent (events Demo.lost))) Demo.ros (MkWorld 0 tt)).
  - apply prefix_of_self.
  - apply (bool_decide_unpack _). vm_compute. exact I.
  - reflexivity.
  - reflexivity.
Defined.

Lemma native_call_is_the_request_witness :
  natives Demo.helper_trace = [] ∨
  ∃ description payload answer,
    prepared_ok default_limits Demo.request description payload ∧
    natives Demo.helper_trace =
      [NativeCall (string_bytes "/toggle") (string_bytes (md5 description))
         (serviceRequest payload) answer].
Proof.
  eapply (native_call_is_the_request default_limits ltac:(cbn; lia) Demo.request
            ltac:(cbn; lia) _ _ 4 _ _ _ _ Demo.completed_run
            (Demo.helper_os Demo.stream) Demo.ros (MkWorld 0 tt)).
  - apply prefix_of_self.
  - apply (bool_decide_unpack _). vm_compute. exact I.
Defined.

Lemma success_is_the_native_response_witness :
  ∃ description payload response data,
    prepared_ok default_limits Demo.request description payload ∧
    natives Demo.helper_trace =
      [NativeCall (string_bytes "/toggle") (string_bytes (md5 description))
         (serviceRequest payload) (NativeReturned response)] ∧
    responsePayload response = Some data ∧
    response_json default_limits description data (res_response Demo.result).
Proof.
  eapply (success_is_the_native_response default_limits ltac:(cbn; lia) Demo.request
            ltac:(cbn; lia) _ _ 4 _ _ _ _ Demo.completed_run
            (Demo.helper_os Demo.stream) Demo.ros (MkWorld 0 tt)).
  - apply prefix_of_self.
  - apply (bool_decide_unpack _). vm_compute. exact I.
  - apply (bool_decide_unpack _). vm_compute. exact I.
  - reflexivity.
Defined.

(** The demonstration is not vacuous: the native call is made in one case and
    not in the other. *)
Example demo_calls :
  length (natives Demo.helper_trace) = 1%nat ∧ length (natives Demo.lost_trace) = 0%nat ∧
  length (helper_received Demo.lost_trace) = 108%nat.
Proof. vm_compute. auto. Qed.
