(* ===== verification/ServiceResources.v ===== *)
(** * What a service call holds

    Whatever the outcome of a call, the descriptors it opened are closed, the helper
    process it spawned is reaped, and its in-flight permit is given back. *)

From stdpp Require Import gmultiset.
From S2P Require Import Prelude Bytes Errors Effects Decimal Libraries Instances TypeRegistry Os HelperProtocol JsonCodec ServiceInvoker ServiceInvokerLemmas ServiceFence.
Local Open Scope Z_scope.

(** ** Holdings *)

Record holdings := MkHoldings {
  open_fds : gmultiset Z;
  children : gmultiset Z;
  permits : Z
}.

Definition hold_step (h : holdings) (e : call_event) : holdings :=
  match e with
  | FdOpened fd => MkHoldings (open_fds h ⊎ {[+ fd +]}) (children h) (permits h)
  | FdClosed fd => MkHoldings (open_fds h ∖ {[+ fd +]}) (children h) (permits h)
  | Spawned _ pid => MkHoldings (open_fds h) (children h ⊎ {[+ pid +]}) (permits h)
  | Reaped pid => MkHoldings (open_fds h) (children h ∖ {[+ pid +]}) (permits h)
  | PermitAcquired => MkHoldings (open_fds h) (children h) (permits h + 1)
  | PermitReleased => MkHoldings (open_fds h) (children h) (permits h - 1)
  | _ => h
  end.

Definition held (h : holdings) (es : list call_event) : holdings := foldl hold_step h es.
Definition nothing_held : holdings := MkHoldings ∅ ∅ 0.

Lemma held_app h e1 e2 : held h (e1 ++ e2) = held (held h e1) e2.
Proof. apply foldl_app. Qed.

Lemma held_io h es : Forall io_event es → held h es = h.
Proof. induction 1 as [|e es He _ IH]; [done|]. cbn. by destruct e. Qed.

Ltac hold_norm :=
  cbn [held foldl hold_step open_fds children permits app local socket_fd_ process_id_].

(** What a [HelperProcess] object owns, beside [p] permits. *)
Definition owned (p : Z) (h : HelperProcess) : holdings :=
  MkHoldings (if socket_fd_ h >=? 0 then {[+ socket_fd_ h +]} else ∅)
    (if process_id_ h <=? 0 then ∅ else {[+ process_id_ h +]}) p.

(** The events of a balanced computation take what its helper object owned before
    to what it owns after. *)
Definition balanced {A} (m : comp call_event HelperProcess A) : Prop :=
  ∀ p w, wp True m (λ _ e w', held (owned p (local w)) e = owned p (local w')) w.

Section balanced.
Abbreviation call_comp := (comp call_event HelperProcess).

Lemma balanced_bind {A B} (m : call_comp A) (f : A → call_comp B) :
  balanced m → (∀ a, balanced (f a)) → balanced (m ≫= f).
Proof.
  intros Hm Hf p w. apply wp_bind. eapply wp_mono; [apply (Hm p)|].
  intros [a|x] e w' He; [|done]. eapply wp_mono; [apply (Hf a p)|].
  intros r e' w'' He'. unfold after_events. by rewrite held_app, He, He'.
Qed.

Lemma balanced_after {A} (m : call_comp A) h p e w :
  balanced m → held h e = owned p (local w) →
  wp True m (after_events e (λ _ e' w', held h e' = owned p (local w'))) w.
Proof.
  intros Hm He. eapply wp_mono; [apply (Hm p)|]. intros r e' w' He'.
  unfold after_events. by rewrite held_app, He, He'.
Qed.

Lemma balanced_silent {A} (m : call_comp A) : silent m → balanced m.
Proof. intros Hm p w. eapply wp_mono; [apply Hm|]. by intros r e w' (-> & -> & _). Qed.

Lemma balanced_throw {A} x : balanced (throw (A:=A) x).
Proof. intros p w. by apply wp_throw. Qed.

Lemma balanced_lift {A} (r : fallible A) : balanced (lift r).
Proof. intros p w. by apply wp_lift. Qed.

Lemma balanced_throw_when b x : balanced (throw_when b x).
Proof. intros p w. apply wp_throw_when; done. Qed.

Lemma balanced_try_catch {A} (m : call_comp A) h :
  balanced m → (∀ x, balanced (h x)) → balanced (try_catch m h).
Proof.
  intros Hm Hh p w. apply wp_try_catch. eapply wp_mono; [apply (Hm p)|].
  intros [a|x] e w' He; [done|]. eapply wp_mono; [apply (Hh x p)|].
  intros r e' w'' He'. unfold after_events. by rewrite held_app, He, He'.
Qed.

Lemma balanced_io {A} (m : call_comp A) :
  (∀ w, wp True m (λ _ e w', local w' = local w ∧ Forall io_event e) w) → balanced m.
Proof.
  intros Hm p w. eapply wp_mono; [apply Hm|]. intros r e w' [-> He]. by apply held_io.
Qed.
End balanced.

Section resources.
Context {J M T B : Type} `{JsonCpp J} `{!JsonCppLaws J} `{RosTime} `{!RosTimeLaws}
  `{BabelFish M} `{!BabelFishLaws M} `{BabelFishTypes M T B} `{!BabelFishTypesLaws M T B}.
Context (os : Os) (proc : Processes) (limits : Limits) (request : ServiceCallRequest J).
Context (limits_ok : 0 <= maximum_depth limits).

(** The operating system: [waitpid] on an own child can only be interrupted,
    descriptors are not negative and process ids are positive. *)
Context (waitpid_ok : ∀ t, waitpid_at proc t = None ∨ waitpid_at proc t = Some EINTR).
Context (sockets_ok : ∀ t s0 s1, socketpair_at proc t = Ok (s0, s1) → 0 <= s0 ∧ 0 <= s1).
Context (dup_ok : ∀ t fd, dupfd_at proc t = Ok fd → 0 <= fd).
Context (pid_ok : ∀ t pid, posix_spawn_at proc t = Ok pid → 0 < pid).

(** [retry_interrupted] of a call that succeeds in the end emits its event. *)
Lemma retry_spec answer ev w :
  (∀ t, answer t = None ∨ answer t = Some EINTR) →
  wp True (retry_interrupted os answer ev) (λ r e w', r = Ok tt ∧ e = [ev] ∧ local w' = local w) w.
Proof.
  intros Hans. unfold retry_interrupted.
  apply (wp_loop True _ (λ _ e w0, e = [] ∧ local w0 = local w)) with (e := []); [done| |done].
  intros _ e w1 [-> Hl]. do 2 wp_step.
  destruct (Hans (tick w1)) as [->| ->]; wp_steps; done.
Qed.

Lemma retry_local answer ev w :
  wp True (retry_interrupted os answer ev)
    (λ r e w', r = Ok tt ∧ (e = [] ∨ e = [ev]) ∧ local w' = local w) w.
Proof.
  unfold retry_interrupted.
  apply (wp_loop True _ (λ _ e w0, e = [] ∧ local w0 = local w)) with (e := []); [done| |done].
  intros _ e w1 [-> Hl]. do 2 wp_step. destruct (answer (tick w1)) as [[]|]; wp_steps; auto.
Qed.

Lemma terminateAndReap_spec p w :
  wp True (terminateAndReap os proc)
    (λ _ e w', held (owned p (local w)) e = MkHoldings ∅ ∅ p ∧
               owned p (local w') = MkHoldings ∅ ∅ p) w.
Proof.
  unfold terminateAndReap. apply wp_bind, wp_get. unfold after_events. cbn [app].
  destruct (local w) as [pid fd] eqn:Hw. cbn [socket_fd_ process_id_].
  apply wp_bind, (wp_mono True) with (Q := λ r e w', r = Ok tt ∧
    local w' = MkHelperProcess pid (if fd >=? 0 then -1 else fd) ∧
    held (owned p (MkHelperProcess pid fd)) e =
      MkHoldings ∅ (if pid <=? 0 then ∅ else {[+ pid +]}) p).
  { unfold owned. destruct (fd >=? 0) eqn:Hfd; cbn [when socket_fd_ process_id_].
    - wp_steps. split; [done|]. split; [cbn; by rewrite Hw|]. hold_norm. rewrite Hfd.
      f_equal. multiset_solver.
    - wp_steps. split; [done|]. split; [done|]. hold_norm. by rewrite Hfd. }
  intros r e w1 (-> & Hl1 & He). unfold after_events.
  assert (((if fd >=? 0 then -1 else fd) >=? 0) = false) as Hfd'.
  { destruct (Z.geb_spec fd 0); [done|]. rewrite Z.geb_leb. apply Z.leb_gt. lia. }
  destruct (pid <=? 0) eqn:Hpid.
  { apply wp_ret. rewrite app_nil_r, He, Hl1. unfold owned. cbn. by rewrite Hpid, Hfd'. }
  apply wp_bind. eapply wp_mono; [apply retry_local|]. intros r e2 w2 (-> & He2 & Hl2).
  unfold after_events. apply wp_bind. eapply wp_mono; [by apply retry_spec|].
  intros r e3 w3 (-> & -> & Hl3). unfold after_events. apply wp_modify.
  rewrite app_nil_r, !held_app, He, Hl3, Hl2, Hl1. cbn [owned process_id_ socket_fd_].
  split; [|unfold owned; cbn; by rewrite Hfd'].
  replace (held _ e2) with (MkHoldings ∅ {[+ pid +]} p) by (destruct He2 as [->| ->]; done).
  hold_norm. f_equal. multiset_solver.
Qed.

Lemma terminateAndReap_balanced : balanced (terminateAndReap os proc).
Proof.
  intros p w. eapply wp_mono; [apply terminateAndReap_spec|]. intros r e w' [-> ->]. done.
Qed.

Lemma wp_relocate fd (Q : fallible (result errno Z) → list call_event → world HelperProcess → Prop) w :
  0 <= fd →
  (∀ err w', local w' = local w → Q (Ok (Err err)) [] w') →
  (∀ fd' e w', 0 <= fd' → local w' = local w →
     (∀ X ch p, held (MkHoldings ({[+ fd +]} ⊎ X) ch p) e = MkHoldings ({[+ fd' +]} ⊎ X) ch p) →
     Q (Ok (Ok fd')) e w') →
  wp True (relocate proc fd) Q w.
Proof.
  intros Hfd He Hok. unfold relocate. destruct (negb _); [apply wp_ret; by apply Hok|].
  apply wp_bind, wp_ask. destruct (dupfd_at proc (tick w)) as [fd'|err] eqn:Hd.
  - wp_steps. apply Hok; [by eapply dup_ok|done|]. intros X ch p. hold_norm. f_equal. multiset_solver.
  - wp_steps. by apply He.
Qed.

(** Both sockets open, and nothing else. *)
Definition both (s0 s1 p : Z) : holdings := MkHoldings ({[+ s0 +]} ⊎ {[+ s1 +]}) ∅ p.

Lemma relocate_failed_spec s0 s1 err p w :
  local w = newHelperProcess →
  wp True (relocate_failed os s0 s1 err)
    (λ _ e w', held (both s0 s1 p) e = owned p (local w')) w.
Proof.
  intros Hw. unfold relocate_failed. wp_steps. hold_norm. rewrite Hw. unfold both, owned.
  hold_norm. change (-1 >=? 0) with false. change (-1 <=? 0) with true. cbn iota.
  f_equal. multiset_solver.
Qed.

Lemma spawn_helper_spec path s0 s1 p w :
  0 <= s0 → local w = newHelperProcess →
  wp True (spawn_helper os proc path s0 s1)
    (λ _ e w', held (both s0 s1 p) e = owned p (local w')) w.
Proof.
  intros Hs0 Hw. unfold spawn_helper.
  assert (∀ o, silent (unless_failed o (ask (spawn_actions_at proc)))) as Hsilent
    by (intros [|]; silent_tac).
  do 3 (apply wp_bind_silent; [solve [auto with xgc|apply Hsilent]|]; intros ? ? ?).
  apply wp_bind_silent; [apply Hsilent|]. intros spawn_error w0 Hl0. apply wp_bind.
  apply (wp_mono True) with (Q := λ r e w', ∃ child, r = Ok child ∧ e = [] ∧
    local w' = newHelperProcess ∧ (∀ pid, child = Ok pid → 0 < pid)).
  { destruct spawn_error; [apply wp_ret|apply wp_ask]; eexists;
      (split; [done|]); (split; [done|]); (split; [cbn; congruence|]); [done|].
    intros pid. apply pid_ok. }
  intros r e w1 (child & -> & -> & Hl1 & Hpid). unfold after_events. cbn [app].
  destruct child as [pid|err]; wp_steps; hold_norm; unfold both, owned; hold_norm.
  - specialize (Hpid pid eq_refl). rewrite Z.geb_leb, (proj2 (Z.leb_le _ _)) by lia.
    rewrite (proj2 (Z.leb_gt _ _)) by lia. f_equal; multiset_solver.
  - rewrite Hl1. hold_norm. change (-1 >=? 0) with false. change (-1 <=? 0) with true.
    cbn iota. f_equal. multiset_solver.
Qed.

(** [start] leaves nothing behind when it fails; when it succeeds, the object
    owns the socket and the process. *)
Lemma start_balanced p w :
  local w = newHelperProcess →
  wp True (start os proc) (λ _ e w', held (owned p (local w)) e = owned p (local w')) w.
Proof.
  intros Hw. unfold start. apply wp_bind_silent; [auto with xgc|].
  intros [path|error] w1 Hl1; [|apply wp_ret; by rewrite Hl1].
  apply wp_bind, wp_ask. unfold after_events. cbn [app].
  destruct (socketpair_at proc (tick w1)) as [[s0 s1]|err] eqn:Hsock;
    [|wp_steps; hold_norm; by rewrite Hl1].
  destruct (sockets_ok _ _ _ Hsock) as [Hs0 Hs1]. cbv beta iota.
  apply wp_bind, wp_emit. unfold after_events. apply wp_bind, wp_emit. unfold after_events.
  assert (∀ e, held (owned p (local w)) ([FdOpened s0] ++ [FdOpened s1] ++ e) =
               held (both s0 s1 p) e) as Hopen.
  { intros e. rewrite Hw, !held_app. unfold owned, both. hold_norm. f_equal.
    change (-1 >=? 0) with false. change (-1 <=? 0) with true. cbn iota.
    f_equal. multiset_solver. }
  apply wp_bind, wp_relocate; [done|..].
  { intros err w2 Hl2. unfold after_events.
    eapply wp_mono; [apply (relocate_failed_spec _ _ _ p); rewrite Hl2; hold_norm; congruence|].
    intros r e w3 He. cbn beta. rewrite app_nil_l. by rewrite Hopen. }
  intros s0' e0 w2 Hs0' Hl2 He0. unfold after_events.
  assert (∀ e, held (both s0 s1 p) (e0 ++ e) = held (both s0' s1 p) e) as Hmove.
  { intros e. rewrite held_app. unfold both. by rewrite He0. }
  apply wp_bind, wp_relocate; [done|..].
  { intros err w3 Hl3. unfold after_events.
    eapply wp_mono; [apply (relocate_failed_spec _ _ _ p); rewrite Hl3, Hl2; hold_norm; congruence|].
    intros r e w4 He. cbn beta. by rewrite Hopen, Hmove. }
  intros s1' e1 w3 Hs1' Hl3 He1. unfold after_events.
  eapply wp_mono; [apply (spawn_helper_spec _ _ _ p); [done|]; rewrite Hl3, Hl2; hold_norm; congruence|].
  intros r e w4 He. cbn beta. rewrite Hopen, Hmove, held_app. unfold both in *.
  by rewrite (comm_L _ {[+ s0' +]} {[+ s1 +]}), He1, (comm_L _ {[+ s1' +]} {[+ s0' +]}).
Qed.

Lemma writePreCommit_balanced data d : balanced (writePreCommit os request data d).
Proof.
  apply balanced_io. intros w. eapply wp_mono; [apply writePreCommit_spec|].
  by intros r e w' (? & ? & _).
Qed.

Lemma readPreCommit_balanced n d : balanced (readPreCommit os request n d).
Proof.
  apply balanced_io. intros w. eapply wp_mono; [apply readPreCommit_spec|].
  intros [[result output]|x] e w' HI; [|done]. by destruct HI as [(? & ? & _) _].
Qed.

Lemma readPostCommit_balanced n d d' : balanced (readPostCommit os request n d d').
Proof.
  apply balanced_io. intros w. eapply wp_mono; [apply readPostCommit_spec|].
  intros [[result output]|x] e w' HI; [|done]. by destruct HI as [(? & ? & _) _].
Qed.

Hint Resolve terminateAndReap_balanced writePreCommit_balanced readPreCommit_balanced
  readPostCommit_balanced balanced_throw balanced_lift balanced_throw_when : xgc.

Ltac balanced_tac :=
  repeat first
    [ solve [auto with xgc]
    | solve [apply balanced_silent; auto with xgc]
    | apply balanced_bind; [|intros ?]
    | lazymatch goal with
      | |- balanced (when ?b _) => unfold when
      | |- balanced (let _ := _ in _) => cbv zeta
      | |- balanced (if ?b then _ else _) => destruct b
      | |- balanced (match ?x with _ => _ end) => destruct x
      end ].

Lemma requirePreDispatchAllowed_balanced : balanced (requirePreDispatchAllowed os request).
Proof. unfold requirePreDispatchAllowed. balanced_tac. Qed.
Hint Resolve requirePreDispatchAllowed_balanced : xgc.

Lemma abandon_balanced {A} x : balanced (abandon (A:=A) os proc x).
Proof. unfold abandon. balanced_tac. Qed.
Hint Resolve abandon_balanced : xgc.

Lemma send_precommit_balanced d data : balanced (send_precommit os proc request d data).
Proof. unfold send_precommit. balanced_tac. Qed.
Hint Resolve send_precommit_balanced : xgc.

Lemma precommit_balanced description payload d id :
  balanced (precommit (T:=T) os proc request description payload d id).
Proof. unfold precommit. cbv zeta. balanced_tac. Qed.

Lemma read_response_balanced n d d' : balanced (read_response os proc request n d d').
Proof. unfold read_response. balanced_tac. Qed.
Hint Resolve read_response_balanced : xgc.

Lemma decode_response_balanced description payload :
  balanced (decode_response (J:=J) limits description payload).
Proof. unfold decode_response. balanced_tac. Qed.
Hint Resolve decode_response_balanced : xgc.

Lemma await_response_balanced description started d id :
  balanced (await_response os proc limits request description started d id).
Proof. unfold await_response, steady_now. balanced_tac. Qed.

Lemma call_with_helper_balanced description payload started p w :
  local w = newHelperProcess →
  wp True (call_with_helper os proc limits request description payload started)
    (λ _ e w', held (owned p (local w)) e = owned p (local w')) w.
Proof.
  intros Hw. unfold call_with_helper. apply wp_bind. eapply wp_mono; [by apply (start_balanced p)|].
  intros [started'|x] e w' He; [|done]. apply balanced_after; [|done].
  destruct started'; unfold commit_request; balanced_tac.
  apply balanced_try_catch; [apply await_response_balanced|]. intros. apply balanced_throw.
Qed.

Lemma acquireInFlight_spec maximum w :
  wp True (acquireInFlight os proc maximum)
    (λ r e w', local w' = local w ∧
       ∃ b, r = Ok b ∧ e = if b : bool then [PermitAcquired] else []) w.
Proof.
  unfold acquireInFlight. apply wp_bind, wp_ask. unfold after_events.
  apply (wp_loop True _ (λ _ e w0, e = [] ∧ local w0 = local w)) with (e := []); [done| |done].
  intros current e w1 [-> Hl]. destruct (current >=? maximum); wp_steps; eauto.
Qed.

(** C4: whatever happens to a service call - success, any error, cancellation,
    timeout, a dead helper - when it returns, every descriptor it opened is
    closed, the helper process it spawned has been reaped, and the in-flight
    permit it took has been given back. *)
Theorem call_releases_everything maximum w r e w' :
  call os proc limits maximum request w = MkRun (Some r) e w' →
  held nothing_held e = nothing_held.
Proof.
  enough (wp True (call os proc limits maximum request)
            (λ _ e _, held nothing_held e = nothing_held) w) as Hwp
    by (intros Hrun; exact (wp_run True _ _ _ _ _ _ Hwp Hrun)).
  unfold call. apply wp_bind_silent; [unfold steady_now; auto with xgc|]. intros started w1 _.
  apply wp_bind. eapply wp_mono; [by apply prepare_spec|].
  intros [[description payload]|x] e1 w2 (-> & _ & _); [|done]. unfold after_events. cbn [app].
  apply wp_bind. eapply wp_mono; [apply acquireInFlight_spec|].
  intros r1 e1 w3 (_ & b & -> & ->). unfold after_events.
  destruct b; cbn [negb]; [|by apply wp_throw].
  apply wp_with_cleanup, wp_bind, wp_modify. unfold after_events. cbn [app].
  apply wp_with_cleanup.
  eapply wp_mono; [by apply (call_with_helper_balanced _ _ _ 1)|].
  intros r2 e2 w4 He2. eapply wp_mono; [apply (terminateAndReap_spec 1)|].
  intros r3 e3 w5 [He3 _]. apply wp_emit.
  change (PermitAcquired :: ?l) with ([PermitAcquired] ++ l). rewrite !held_app.
  change (held nothing_held [PermitAcquired]) with (owned 1 newHelperProcess).
  cbn [local] in He2. rewrite He2, He3. reflexivity.
Qed.
End resources.

Lemma call_releases_everything_witness :
  held nothing_held (events Demo.completed) = nothing_held ∧
  held nothing_held (events Demo.lost) = nothing_held.
Proof.
  split.
  - apply (call_releases_everything (Demo.os Demo.answers) Demo.processes default_limits Demo.request
             ltac:(cbn; lia) ltac:(by left) ltac:(cbn; naive_solver lia) ltac:(cbn; naive_solver lia)
             ltac:(cbn; naive_solver lia) _ _ _ _ _ Demo.completed_run).
  - apply (call_releases_everything (Demo.os (λ _, RecvBytes [])) Demo.processes default_limits
             Demo.request ltac:(cbn; lia) ltac:(by left) ltac:(cbn; naive_solver lia)
             ltac:(cbn; naive_solver lia) ltac:(cbn; naive_solver lia) _ _ _ _ _ Demo.lost_run).
Defined.
