(* ===== verification/ServiceTermination.v ===== *)
(** * A service call returns

    Total correctness of [ServiceInvoker.call]: from some tick on the request is
    cancelled, or its Runtime deadline has passed, and the kernel no longer
    interrupts the clean-up; then the call returns, however the helper behaves.
    Every loop is given more turns than that tick, and each turn takes at least
    one tick, so no loop uses its bound up. *)

From S2P Require Import Prelude Bytes Errors Effects Termination Decimal Libraries Instances TypeRegistry Os HelperProtocol JsonCodec ServiceInvoker ServiceInvokerLemmas ServiceFence.
Local Open Scope Z_scope.

Section termination.
Context {J M T B : Type} `{JsonCpp J} `{RosTime} `{BabelFish M} `{BabelFishTypes M T B}.
Context (os : Os) (proc : Processes) (limits : Limits) (request : ServiceCallRequest J).
Context (N : nat) (bound_ok : (N < loop_bound os)%nat).

(** From tick [N] on the request is cancelled, or its deadline has passed. *)
Definition stopped_from : Prop :=
  (req_has_cancellation request = true ∧ ∀ t, (N <= t)%nat → cancel_at os t = true) ∨
  (0 < req_deadline_unix_nanos request ∧
   ∀ t, (N <= t)%nat → req_deadline_unix_nanos request <= system_nanos os t).
Context (stops : stopped_from).
(** System calls are not interrupted for ever, and contended atomics succeed. *)
Context (kill_ok : ∀ t, (N <= t)%nat → kill_at proc t ≠ Some EINTR).
Context (wait_ok : ∀ t, (N <= t)%nat → waitpid_at proc t ≠ Some EINTR).
Context (exchange_ok : ∀ t, (N <= t)%nat → compare_exchange_at proc t = None).
Context (fetch_ok : ∀ t, (N <= t)%nat → u64 (fetch_add_at proc t) ≠ 0).

Lemma ends_cancelled : ends (cancellationRequested os request).
Proof. unfold cancellationRequested. ends_tac. Qed.
Lemma ends_deadlineExpired d : ends (deadlineExpired os d).
Proof. unfold deadlineExpired, system_now. ends_tac. Qed.
Lemma ends_pollTimeout d : ends (pollTimeout os d).
Proof. unfold pollTimeout, steady_now. ends_tac. Qed.
Lemma ends_runtimeDeadline d : ends (runtimeDeadline os d).
Proof. unfold runtimeDeadline, system_now, steady_now. ends_tac. Qed.
Hint Resolve ends_cancelled ends_deadlineExpired ends_pollTimeout ends_runtimeDeadline : xgc.

(** The answers of the two checks, from tick [N] on. *)
Lemma cancelled_spec w :
  wp False (cancellationRequested os request)
    (λ r _ w', (tick w <= tick w')%nat ∧ ∃ b, r = Ok b ∧
       ((N <= tick w)%nat → req_has_cancellation request = true →
        (∀ t, (N <= t)%nat → cancel_at os t = true) → b = true)) w.
Proof.
  unfold cancellationRequested. destruct (req_has_cancellation request); [apply wp_ask|apply wp_ret].
  - split; [cbn; lia|]. eexists. split; [done|]. auto.
  - split; [done|]. eexists. by split.
Qed.

Lemma expired_spec w :
  wp False (deadlineExpired os (req_deadline_unix_nanos request))
    (λ r _ w', (tick w <= tick w')%nat ∧ ∃ b, r = Ok b ∧
       ((N <= tick w)%nat → 0 < req_deadline_unix_nanos request →
        (∀ t, (N <= t)%nat → req_deadline_unix_nanos request <= system_nanos os t) →
        b = true)) w.
Proof.
  unfold deadlineExpired, system_now. destruct (Z.leb_spec (req_deadline_unix_nanos request) 0).
  - apply wp_ret. split; [done|]. eexists. split; [done|]. lia.
  - wp_steps. split; [cbn; lia|]. eexists. split; [done|]. intros Hle _ Hs.
    rewrite Z.geb_leb. apply Z.leb_le. by apply Hs.
Qed.

(** A check that lets a loop go on took time, and only before tick [N]. *)
Definition stops_late {R} (m : comp call_event HelperProcess (option R)) : Prop :=
  ∀ w, wp False m (λ r _ w', (tick w <= tick w')%nat ∧
                     ∃ s, r = Ok s ∧ (s = None → (tick w < tick w')%nat ∧ (tick w < N)%nat)) w.

Lemma precommit_stop_late d : stops_late (precommit_stop os request d).
Proof.
  intros w. unfold precommit_stop, deadline_passed, steady_now. apply wp_bind.
  eapply wp_mono; [apply cancelled_spec|]. intros r e1 w1 (Hle1 & b & -> & Hb).
  destruct b; [apply wp_ret; split; [done|]; by eexists|].
  apply wp_bind, wp_bind. eapply wp_mono; [apply expired_spec|].
  intros r e2 w2 (Hle2 & c & -> & Hc).
  destruct c; wp_steps; (split; [cbn; lia|]); eexists; (split; [done|]); [done|].
  intros _. split; [cbn; lia|]. destruct (Nat.lt_ge_cases (tick w) N) as [|Hge]; [done|].
  exfalso. destruct stops as [[Hhas Hall]|[Hpos Hall]].
  - by discriminate (Hb Hge Hhas Hall).
  - discriminate Hc; [lia|done..].
Qed.

Lemma postcommit_stop_late d d' : stops_late (postcommit_stop os request d d').
Proof.
  intros w. unfold postcommit_stop, steady_now. apply wp_bind.
  eapply wp_mono; [apply cancelled_spec|]. intros r e1 w1 (Hle1 & b & -> & Hb).
  destruct b; [apply wp_ret; split; [done|]; by eexists|].
  apply wp_bind, wp_ask. apply wp_bind. eapply wp_mono; [apply expired_spec|].
  intros r e2 w2 (Hle2 & c & -> & Hc). cbn [tick] in Hle2.
  destruct c; cbn [orb]; [|destruct (_ >=? d); [|destruct (_ >=? d')]]; wp_steps;
    (split; [cbn; lia|]); eexists; (split; [done|]); try done.
  intros _. split; [cbn; lia|]. destruct (Nat.lt_ge_cases (tick w) N) as [|Hge]; [done|].
  exfalso. destruct stops as [[Hhas Hall]|[Hpos Hall]].
  - by discriminate (Hb Hge Hhas Hall).
  - discriminate Hc; [cbn; lia|done..].
Qed.

Lemma turn_late {R X A} (check : comp call_event HelperProcess (option R)) (f : R → A)
    (rest : comp call_event HelperProcess (X + A)) :
  stops_late check → ends rest →
  turn N (stop ← check; match stop with Some result => mret (inr (f result)) | None => rest end).
Proof.
  intros Hcheck Hrest w. apply wp_bind. eapply wp_mono; [apply Hcheck|].
  intros r e w1 (Hle & s & -> & Hs). destruct s as [result|].
  - apply wp_ret. split; [done|]. by intros x [=].
  - destruct (Hs eq_refl) as [Hlt HN]. eapply wp_mono; [apply Hrest|].
    intros r e' w2 Hle2. unfold after_events. cbn beta in *. split; [lia|]. intros. lia.
Qed.

Lemma ends_waitPreCommitEvent mask d : ends (waitPreCommitEvent os request mask d).
Proof.
  unfold waitPreCommitEvent. apply (ends_loop N); [done|]. intros _.
  apply (turn_late _ (λ r, r)); [apply precommit_stop_late|]. unfold poll. ends_tac.
Qed.
Hint Resolve ends_waitPreCommitEvent : xgc.

Lemma ends_send bytes : ends (send (ev:=call_event) (st:=HelperProcess) os bytes).
Proof. unfold send. ends_tac. Qed.
Lemma ends_recv n : ends (recv (ev:=call_event) (st:=HelperProcess) os n).
Proof. unfold recv. ends_tac. Qed.
Hint Resolve ends_send ends_recv : xgc.

Lemma ends_writePreCommit data d : ends (writePreCommit os request data d).
Proof.
  unfold writePreCommit. apply (ends_loop N); [done|]. intros rest.
  case_bool_decide; [apply turn_leave|].
  apply (turn_late _ (λ r, r)); [apply precommit_stop_late|]. ends_tac.
Qed.

Lemma ends_readPreCommit n d : ends (readPreCommit os request n d).
Proof.
  unfold readPreCommit. apply (ends_loop N); [done|]. intros output.
  destruct (Nat.leb _ _); [apply turn_leave|].
  apply (turn_late _ (λ r, (r, output))); [apply precommit_stop_late|]. ends_tac.
Qed.

Lemma ends_readPostCommit n d d' : ends (readPostCommit os request n d d').
Proof.
  unfold readPostCommit. apply (ends_loop N); [done|]. intros output.
  apply (turn_late _ (λ r, (r, output))); [apply postcommit_stop_late|]. unfold poll. ends_tac.
Qed.

Lemma ends_retry answer ev :
  (∀ t, (N <= t)%nat → answer t ≠ Some EINTR) → ends (retry_interrupted os answer ev).
Proof.
  intros Ha. unfold retry_interrupted. apply (ends_loop N); [done|]. intros _ w.
  apply wp_bind, wp_ask. pose proof (Ha (tick w)) as Hw.
  destruct (answer (tick w)) as [[]|]; wp_steps; (split; [cbn; lia|]); try (by intros x [=]).
  intros _ _. split; [cbn; lia|]. apply Nat.nle_gt. intros Hle. by apply Hw.
Qed.

Lemma ends_terminateAndReap : ends (terminateAndReap os proc).
Proof.
  pose proof (ends_retry (kill_at proc)) as Hk. pose proof (ends_retry (waitpid_at proc)) as Hw.
  unfold terminateAndReap. ends_tac.
Qed.
Hint Resolve ends_writePreCommit ends_readPreCommit ends_readPostCommit
  ends_terminateAndReap : xgc.

Lemma ends_nextRequestId : ends (nextRequestId os proc).
Proof.
  unfold nextRequestId. apply (ends_loop N); [done|]. intros _ w. apply wp_bind, wp_ask.
  unfold after_events. cbn [app].
  destruct (u64 (fetch_add_at proc (tick w)) =? 0) eqn:E; cbn [negb]; apply wp_ret;
    (split; [cbn; lia|]); [|by intros x [=]].
  intros _ _. split; [cbn; lia|]. apply Nat.nle_gt. intros Hle.
  apply (fetch_ok _ Hle). by apply Z.eqb_eq.
Qed.

Lemma ends_acquireInFlight maximum : ends (acquireInFlight os proc maximum).
Proof.
  unfold acquireInFlight. apply ends_bind; [apply ends_ask|]. intros current.
  apply (ends_loop N); [done|]. intros c. destruct (c >=? maximum); [apply turn_leave|].
  intros w. apply wp_bind, wp_ask. pose proof (exchange_ok (tick w)) as Hx.
  destruct (compare_exchange_at proc (tick w)) as [seen|]; wp_steps;
    (split; [cbn; lia|]); [|by intros x [=]].
  intros _ _. split; [cbn; lia|]. apply Nat.nle_gt. intros Hle. by discriminate (Hx Hle).
Qed.
Hint Resolve ends_nextRequestId ends_acquireInFlight : xgc.

Lemma ends_requirePreDispatchAllowed : ends (requirePreDispatchAllowed os request).
Proof. unfold requirePreDispatchAllowed. ends_tac. Qed.
Lemma ends_start : ends (start os proc).
Proof.
  unfold start, currentExecutableSibling, relocate, relocate_failed, spawn_helper, unless_failed.
  ends_tac.
Qed.
Lemma ends_abandon {A} x : ends (abandon (A:=A) os proc x).
Proof. unfold abandon. ends_tac. Qed.
Hint Resolve ends_requirePreDispatchAllowed ends_start ends_abandon : xgc.

Lemma ends_send_precommit d data : ends (send_precommit os proc request d data).
Proof. unfold send_precommit. ends_tac. Qed.
Lemma ends_read_response n d d' : ends (read_response os proc request n d d').
Proof. unfold read_response. ends_tac. Qed.
Hint Resolve ends_send_precommit ends_read_response : xgc.

Lemma ends_await_response (description : ServiceDescription T) template started d id :
  response_description description = Some (Some template) →
  ends (await_response os proc limits request description started d id).
Proof.
  intros Hd. unfold await_response, decode_response, steady_now. rewrite Hd. ends_tac.
Qed.

Lemma ends_call_with_helper (description : ServiceDescription T) template payload started :
  response_description description = Some (Some template) →
  ends (call_with_helper os proc limits request description payload started).
Proof.
  intros Hd. pose proof (λ d id, ends_await_response description template started d id Hd).
  unfold call_with_helper, precommit, commit_request. ends_tac.
Qed.

(** The library's templates give messages, not null pointers. *)
Context (templates_ok : ∀ t : T, createEmptyMessageFromTemplate t ≠ Ok None).

Lemma prepare_total w :
  wp False (prepare os limits request)
    (λ r _ w', (tick w <= tick w')%nat ∧
       ∀ description payload, r = Ok (description, payload) →
         ∃ template, response_description description = Some (Some template)) w.
Proof.
  unfold prepare. apply wp_bind. eapply wp_mono; [apply ends_requirePreDispatchAllowed|].
  intros [u|x] e w1 Hle; [|by split]. cbn beta in Hle.
  apply wp_bind, wp_lift. destruct (resolveService _) as [description|x]; [|by split].
  apply wp_bind, wp_lift. destruct (createServiceRequest description) as [fresh|x] eqn:Hreq; [|by split].
  apply wp_bind, wp_lift.
  destruct (createServiceResponse description) as [tmpl|x] eqn:Hres; [|by split].
  assert (∃ template, response_description description = Some (Some template)) as Ht.
  { unfold createServiceResponse in Hres.
    destruct (response_description description) as [[t|]|]; [by eauto|done..]. }
  apply wp_bind, wp_throw_when; [by split|]. intros _.
  destruct fresh as [fresh|].
  2: { exfalso. unfold createServiceRequest in Hreq.
       destruct (request_description description) as [[t|]|]; [|done..].
       by apply (templates_ok t). }
  apply wp_bind, wp_lift. destruct (decode _ _ _); [|by split].
  apply wp_bind, wp_lift. destruct (serializeServiceRequest _); [|by split].
  apply wp_bind. eapply wp_mono; [apply ends_requirePreDispatchAllowed|].
  intros [u2|x] e2 w2 Hle2; cbn beta in Hle2; [|unfold after_events; split; [lia|done]].
  do 2 (apply wp_bind, wp_throw_when; [intros _; unfold after_events; split; [lia|done]|];
        intros _).
  apply wp_ret. unfold after_events. split; [lia|]. by intros d p [= <- <-].
Qed.

(** C5: a service call always returns. Once the request is cancelled or its
    Runtime deadline has passed (and the kernel stops interrupting the clean-up),
    [call] ends with a result or an error, no matter what the helper process
    does, sends or withholds. *)
Theorem call_returns maximum w :
  ∃ r e w', call os proc limits maximum request w = MkRun (Some r) e w'.
Proof.
  assert (wp False (call os proc limits maximum request) (λ _ _ _, True) w) as Hwp.
  { unfold call, steady_now. apply wp_bind, wp_ask, wp_bind.
    eapply wp_mono; [apply prepare_total|].
    intros [[description payload]|x] e w1 [_ Hd]; [|done].
    destruct (Hd description payload eq_refl) as [template Ht].
    pose proof (λ st, ends_call_with_helper description template payload st Ht) as Hcall.
    match goal with |- wp _ ?m _ _ => assert (ends m) as Hends by ends_tac end.
    by eapply wp_mono; [apply Hends|]. }
  unfold wp in Hwp. destruct (call os proc limits maximum request w) as [[r|] e w']; [|done].
  by exists r, e, w'.
Qed.
End termination.

(** The demonstration request with a deadline, and a helper that never answers. *)
Definition silent_request : ServiceCallRequest json :=
  MkServiceCallRequest "/toggle" "demo_srvs/Toggle"
    (JObject [("on", JBool true); ("level", JInt 7)]) 100 1000 5000 false.

Definition silent_os : Os :=
  MkOs 60 (λ _, false) (λ t, 100 * Z.of_nat t) (λ t, 100 * Z.of_nat t) (λ _, PollTimeout)
    (λ _, SendCount 1000) (λ _, RecvError EAGAIN) (λ _, "error").

Lemma call_returns_witness :
  ∃ r e w', call silent_os Demo.processes default_limits 4 silent_request Demo.start_world =
            MkRun (Some r) e w'.
Proof.
  apply (call_returns silent_os Demo.processes default_limits silent_request 50).
  - cbn. lia.
  - right. cbn. split; [lia|]. intros. lia.
  - done.
  - done.
  - done.
  - done.
  - done.
Defined.

Example silent_helper_reaches_the_deadline :
  outcome (call silent_os Demo.processes default_limits 4 silent_request Demo.start_world) =
  Some (Err (deadlineError "service_deadline_elapsed"
               "ROS1 service deadline elapsed before dispatch")).
Proof. vm_compute. reflexivity. Qed.
