(* ===== verification/PublisherRegistry.v ===== *)
(** * The publisher registry (src/publisher_registry.cpp)

    A bounded cache of advertised publishers, one per topic, whose entries are
    shared objects: a publishing call leases the entry of its topic, releases it
    when it enters the native dispatch (or when it fails before), and goes on with
    its own copy of the publisher handle.  [store] is the heap of entry objects
    and [entries_] maps topics to object identities, so that a call can hold an
    entry that the cache has already dropped.

    The sections the source runs under its mutex are the atomic functions
    [lease], [release], [refresh], [bind_generation] and [clear].  [publish]
    composes them; before each of them other threads may have changed the
    registry, in any way [interfere_at] chooses. *)

From Stdlib Require Import SpecFloat.
From S2P Require Import Prelude Bytes Errors Effects Decimal Floats Libraries TypeRegistry Os JsonCodec.
Local Open Scope Z_scope.

Record PublishRequest (J : Type) := MkPublishRequest {
  pub_topic : string;
  pub_message_type : string;
  pub_message : J;
  pub_count : Z;
  pub_rate_hz : double;
  pub_latch : bool;
  pub_queue_size : Z;
  pub_wait_for_subscribers_ms : Z;
  pub_deadline_unix_nanos : Z;
  pub_has_cancellation : bool
}.
Arguments MkPublishRequest {J}.
Arguments pub_topic {J}.
Arguments pub_message_type {J}.
Arguments pub_message {J}.
Arguments pub_count {J}.
Arguments pub_rate_hz {J}.
Arguments pub_latch {J}.
Arguments pub_queue_size {J}.
Arguments pub_wait_for_subscribers_ms {J}.
Arguments pub_deadline_unix_nanos {J}.
Arguments pub_has_cancellation {J}.

Record PublishResult := MkPublishResult {
  result_topic : string;
  result_message_type : string;
  serialized_bytes : Z;
  published_count : Z;
  subscriber_count : Z
}.

Inductive MasterBindingState := Unbound | Bound | Changed | Unavailable.

#[export] Instance MasterBindingState_eq_dec : EqDecision MasterBindingState.
Proof. solve_decision. Defined.

(** [publisher]: whether the handle is valid. *)
Record Entry := MkEntry {
  message_type : string;
  latch : bool;
  queue_size : Z;
  publisher : bool;
  active_calls : nat;
  native_dispatch_committed : bool
}.

Record Registry := MkRegistry {
  store : gmap nat Entry;
  next_entry : nat;                 (* the identity of the next object *)
  entries_ : gmap string nat;
  master_generation_ : Z;
  maximum_publishers_ : Z
}.

Definition newPublisherRegistry (maximum_publishers : Z) : fallible Registry :=
  throw_if (maximum_publishers =? 0)
    (permanentError "invalid_configuration"
       "maximum cached ROS1 publishers must be greater than zero");;
  Ok (MkRegistry ∅ 0 ∅ 0 maximum_publishers).

(** ** The sections under the mutex *)

Definition set_entries (reg : Registry) (entries : gmap string nat) : Registry :=
  MkRegistry (store reg) (next_entry reg) entries (master_generation_ reg)
    (maximum_publishers_ reg).

Definition set_entry (reg : Registry) (p : nat) (entry : Entry) : Registry :=
  MkRegistry (<[p := entry]> (store reg)) (next_entry reg) (entries_ reg)
    (master_generation_ reg) (maximum_publishers_ reg).

Definition set_generation (reg : Registry) (generation : Z) : Registry :=
  MkRegistry (store reg) (next_entry reg) (entries_ reg) generation (maximum_publishers_ reg).

Definition registry_size (reg : Registry) : Z := Z.of_nat (size (entries_ reg)).

(** [mutex_] section of [publish]: the leased entry and its publisher handle.
    [advertised] is what [types_.advertise] answers if it is called; an exception
    leaves the registry as it was. *)
Definition lease (topic type : string) (latched : bool) (queue : Z) (advertised : fallible bool)
    (reg : Registry) : fallible (nat * bool * Registry) :=
  match entries_ reg !! topic with
  | None =>
      throw_if (registry_size reg >=? maximum_publishers_ reg)
        (resourceExhaustedError "publisher_capacity_exhausted"
           "maximum cached ROS1 publishers reached; replace or stop the Adapter instance before publishing another topic");;
      handle ← advertised;
      let p := next_entry reg in
      Ok (p, handle,
          MkRegistry (<[p := MkEntry type latched queue handle 1 false]> (store reg)) (S p)
            (<[topic := p]> (entries_ reg)) (master_generation_ reg) (maximum_publishers_ reg))
  | Some p =>
      match store reg !! p with
      | None => Err OtherExn            (* a cached entry is an object *)
      | Some entry =>
          throw_if (negb (bool_decide (message_type entry = type))
                    || negb (eqb (latch entry) latched) || negb (queue_size entry =? queue))
            (permanentError "publisher_configuration_conflict"
               ("topic '" +:+ topic +:+
                "' is already cached with a different type, latch, or queueSize"));;
          Ok (p, publisher entry,
              set_entry reg p
                (MkEntry (message_type entry) (latch entry) (queue_size entry) (publisher entry)
                   (S (active_calls entry)) (native_dispatch_committed entry)))
      end
  end.

(** [PublisherRegistry::release] *)
Definition release (topic : string) (p : nat) (committed : bool) (reg : Registry) : Registry :=
  match store reg !! p with
  | None => reg
  | Some entry =>
      let entry :=
        MkEntry (message_type entry) (latch entry) (queue_size entry) (publisher entry)
          (if Nat.ltb 0 (active_calls entry) then active_calls entry - 1 else active_calls entry)%nat
          (native_dispatch_committed entry || committed) in
      let reg := set_entry reg p entry in
      if bool_decide (entries_ reg !! topic = Some p) && Nat.eqb (active_calls entry) 0
         && negb (native_dispatch_committed entry)
      then set_entries reg (delete topic (entries_ reg))
      else reg
  end.

(** The section of [refreshMasterGeneration], [current] being positive. *)
Definition refresh (current : Z) (reg : Registry) : fallible unit * Registry :=
  if master_generation_ reg =? 0 then (Ok tt, set_generation reg current)
  else if negb (master_generation_ reg =? current)
  then (Err (transientError "ros_master_generation_changed"
               "ROS1 master process generation changed; this Adapter process is bound to the previous master and must be recycled"),
        set_entries reg ∅)
  else (Ok tt, reg).

(** The last section of [probeMasterBinding], and the one of its failure paths. *)
Definition bind_generation (current : Z) (reg : Registry) : MasterBindingState * Registry :=
  if master_generation_ reg =? 0 then (Bound, set_generation reg current)
  else if negb (master_generation_ reg =? current) then (Changed, reg)
  else (Bound, reg).

Definition unavailable_state (reg : Registry) : MasterBindingState :=
  if master_generation_ reg =? 0 then Unbound else Unavailable.

Definition clear (reg : Registry) : Registry := set_entries reg ∅.

(** ** Master generations *)

(** What [ros::master::execute("getPid", ...)] leaves behind. *)
Inductive MasterAnswer := MasterFailed | MasterInt (value : Z) | MasterOtherType.

Definition currentMasterGeneration (answer : MasterAnswer) : fallible Z :=
  match answer with
  | MasterInt value =>
      throw_if (value <=? 0)
        (transientError "ros_master_generation_unavailable"
           "ROS1 master process generation is unavailable");;
      Ok value
  | _ => Err (transientError "ros_master_generation_unavailable"
                "ROS1 master process generation is unavailable")
  end.

(** [probeMasterBinding], given the answer of the provider: the state and the value
    stored in [*current_out]. *)
Definition probeMasterBinding (answer : fallible Z) (reg : Registry)
    : MasterBindingState * Z * Registry :=
  match answer with
  | Err _ => (unavailable_state reg, 0, reg)
  | Ok current =>
      if current <=? 0 then (unavailable_state reg, current, reg)
      else let '(state, reg) := bind_generation current reg in (state, current, reg)
  end.

(** ** Publishing *)

(** [duration_cast<nanoseconds>(duration<double>(1.0 / rate))]: the quotient and
    the product are rounded doubles, the cast truncates. *)
Definition double_one : double := S754_finite false 4503599627370496 (-52).
Definition double_billion : double := S754_finite false 8388608000000000 (-23).

Definition truncate (x : double) : Z :=
  match x with
  | S754_finite s m e =>
      let magnitude := if 0 <=? e then Zpos m * 2 ^ e else Z.div (Zpos m) (2 ^ (- e)) in
      if s then - magnitude else magnitude
  | _ => 0
  end.

Definition interval_nanos (rate : double) : Z :=
  truncate (SFmul 53 1024 (SFdiv 53 1024 double_one rate) double_billion).

Inductive publish_event :=
| Leased (topic : string) (p : nat)
| Released (topic : string) (p : nat) (committed : bool)
| NativePublish.

(** Answers of roscpp, of the generation provider and of the other threads. *)
Record PublishEnv := MkPublishEnv {
  generation_at : nat → fallible Z;
  advertise_at : nat → fallible bool;
  subscribers_at : nat → fallible Z;
  pub_ros_ok_at : nat → bool;
  native_publish_at : nat → fallible unit;
  interfere_at : nat → Registry → Registry
}.

Section publish.
Context {J M T B : Type} `{JsonCpp J} `{RosTime} `{BabelFish M} `{BabelFishTypes M T B}.
Context (os : Os) (env : PublishEnv) (limits : Limits) (request : PublishRequest J).
Abbreviation pub_comp := (comp publish_event Registry).

Definition pub_deadlineExpired : pub_comp bool :=
  if pub_deadline_unix_nanos request <=? 0 then mret false
  else
    now_nanos ← system_now os;
    mret (now_nanos >=? pub_deadline_unix_nanos request).

Definition pub_cancellationRequested : pub_comp bool :=
  if pub_has_cancellation request then ask (cancel_at os) else mret false.

Definition requireDispatchAllowed : pub_comp unit :=
  cancelled ← pub_cancellationRequested;
  if cancelled : bool
  then throw (cancelledError "publish_cancelled"
                "ROS1 topic publish was cancelled before dispatch")
  else
    expired ← pub_deadlineExpired;
    if expired : bool
    then throw (deadlineError "publish_deadline_elapsed"
                  "ROS1 topic publish deadline elapsed before dispatch")
    else mret tt.

Definition requireContinuationAllowed : pub_comp unit :=
  cancelled ← pub_cancellationRequested;
  if cancelled : bool
  then throw (uncertainError "publish_cancelled_after_dispatch"
                "ROS1 topic publish was cancelled after native dispatch")
  else
    expired ← pub_deadlineExpired;
    if expired : bool
    then throw (uncertainError "publish_deadline_after_dispatch"
                  "ROS1 topic publish crossed its deadline after native dispatch")
    else mret tt.

Definition waitUntil (target : Z) : pub_comp unit :=
  loop (loop_bound os)
    (λ _ : unit,
       now ← steady_now os;
       if negb (now <? target) then mret (inr tt)
       else
         requireContinuationAllowed;;
         now ← steady_now os;           (* for the length of the sleep *)
         mret (inl tt)) tt.

(** A section under the mutex, after whatever other threads did. *)
Definition locked {A} (f : Registry → A * Registry) : pub_comp A :=
  interference ← ask (interfere_at env);
  modify interference;;
  reg ← get;
  let '(a, reg) := f reg in
  modify (λ _, reg);;
  mret a.

Definition refreshMasterGeneration : pub_comp unit :=
  answer ← ask (generation_at env);
  current ← lift answer;
  throw_when (current <=? 0)
    (transientError "ros_master_generation_unavailable"
       "ROS1 master process generation is invalid");;
  result ← locked (refresh current);
  lift result.

Definition lease_entry : pub_comp (nat * bool) :=
  answer ← ask (advertise_at env);
  let advertised :=
    advertise_result (pub_message_type request) (pub_topic request) answer in
  leased ← locked (λ reg,
    match lease (pub_topic request) (pub_message_type request) (pub_latch request)
            (pub_queue_size request) advertised reg with
    | Ok (p, handle, reg') => (Ok (p, handle), reg')
    | Err x => (Err x, reg)
    end);
  '(p, handle) ← lift leased;
  emit (Leased (pub_topic request) p);;
  mret (p, handle).

Definition release_entry (p : nat) (committed : bool) : pub_comp unit :=
  locked (λ reg, (tt, release (pub_topic request) p committed reg));;
  emit (Released (pub_topic request) p committed).

Definition getNumSubscribers : pub_comp Z :=
  answer ← ask (subscribers_at env);
  lift answer.

Definition ros_ok : pub_comp bool := ask (pub_ros_ok_at env).

(** [while (getNumSubscribers() == 0 && ros::ok() && now < deadline)] *)
Definition wait_for_subscribers (deadline : Z) : pub_comp unit :=
  loop (loop_bound os)
    (λ _ : unit,
       subscribers ← getNumSubscribers;
       if negb (subscribers =? 0) then mret (inr tt)
       else
         ok ← ros_ok;
         if negb ok then mret (inr tt)
         else
           now ← steady_now os;
           if negb (now <? deadline) then mret (inr tt)
           else
             requireDispatchAllowed;;
             mret (inl tt)) tt.

(** From the valid handle up to the release that crosses the boundary. *)
Definition before_dispatch (handle : bool) : pub_comp Z :=
  throw_when (negb handle)
    (transientError "publisher_unavailable"
       ("ROS1 publisher is not available for topic '" +:+ pub_topic request +:+ "'"));;
  when (pub_wait_for_subscribers_ms request >? 0)
    (start ← steady_now os;
     wait_for_subscribers (start + pub_wait_for_subscribers_ms request * 1000000);;
     requireDispatchAllowed;;
     subscribers ← getNumSubscribers;
     throw_when (subscribers =? 0)
       (transientError "subscriber_wait_timeout"
          ("no subscriber connected to topic '" +:+ pub_topic request +:+
           "' before waitForSubscribersMs elapsed")));;
  ok ← ros_ok;
  throw_when (negb ok)
    (transientError "ros_shutdown"
       "ROS1 is shutting down before the message can be published");;
  subscribers ← getNumSubscribers;
  requireDispatchAllowed;;
  mret subscribers.

(** [publisher.publish] of the serialised message, in its [try] block. *)
Definition native_publish : pub_comp unit :=
  answer ← ask (native_publish_at env);
  emit NativePublish;;
  match answer with
  | Ok _ => mret tt
  | Err OtherExn =>
      throw (uncertainError "publish_dispatch_failed"
               "ROS1 topic publish may have been dispatched")
  | Err x =>
      throw (uncertainError "publish_dispatch_failed"
               ("ROS1 topic publish may have been dispatched: " +:+ exn_what x))
  end.

(** One message: [index] messages have been published. *)
Definition publish_one (index : nat) (next_publish : Z) : pub_comp Z :=
  let next_publish :=
    if Nat.ltb 0 index then next_publish + interval_nanos (pub_rate_hz request)
    else next_publish in
  when (Nat.ltb 0 index) (waitUntil next_publish);;
  ok ← ros_ok;
  throw_when (negb ok)
    (uncertainError "ros_shutdown_after_dispatch"
       "ROS1 shut down after one or more messages may have been published");;
  requireContinuationAllowed;;
  native_publish;;
  requireContinuationAllowed;;
  mret next_publish.

(** [published] is [result.published_count]. *)
Fixpoint publish_loop (remaining index : nat) (published next_publish : Z) : pub_comp Z :=
  match remaining with
  | O => mret published
  | S remaining =>
      next_publish ← publish_one index next_publish;
      publish_loop remaining (S index) (u32 (published + 1)) next_publish
  end.

(** After the boundary. *)
Definition after_dispatch (bytes : Z) : pub_comp PublishResult :=
  now ← steady_now os;
  published ← publish_loop (Z.to_nat (pub_count request)) 0 0 now;
  subscribers ← getNumSubscribers;
  mret (MkPublishResult (pub_topic request) (pub_message_type request) (u32 bytes)
          published (u32 subscribers)).

(** The three [catch] clauses, before and after [released] is set. *)
Definition catch_before (p : nat) (x : exn) : pub_comp Z :=
  release_entry p false;;
  throw x.

Definition catch_after (x : exn) : pub_comp PublishResult :=
  match x with
  | Typed _ => throw x
  | StdExn message =>
      throw (uncertainError "publish_completion_failed"
               ("ROS1 topic publish committed but completion failed: " +:+ message))
  | OtherExn =>
      throw (uncertainError "publish_completion_failed"
               "ROS1 topic publish committed but completion failed")
  end.

Definition publish : pub_comp PublishResult :=
  requireDispatchAllowed;;
  refreshMasterGeneration;;
  message ← lift (createMessage (pub_message_type request));
  match message with
  | None => no_result
  | Some message =>
      message ← lift (decode limits (pub_message request) message);
      serialized ← lift (serialize (Some message));
      match serialized with
      | None =>
          throw (permanentError "message_serialization_failed"
                   "dynamic ROS1 serializer returned no message")
      | Some serialized =>
          leased ← lease_entry;
          let '(p, handle) := leased in
          try_catch (before_dispatch handle) (catch_before p);;
          release_entry p true;;
          try_catch (after_dispatch (serialized_size serialized)) catch_after
      end
  end.
End publish.
