(* ===== verification/PublishLemmas.v ===== *)
(** * The dispatch boundary of a publish

    What the events of [PublisherRegistry.publish] can be, for every behaviour of
    roscpp, of the master and of other threads: one lease and one release, and
    native publishes only after the release that commits the dispatch. *)

From Stdlib Require Import SpecFloat.
From S2P Require Import Prelude Bytes Errors Effects Decimal Floats Libraries Instances TypeRegistry Os JsonCodec PublisherRegistry.
Local Open Scope Z_scope.

(** [quiet P m]: [m] emits nothing, and its exceptions satisfy [P]. *)
Definition quiet {ev st A} (P : exn → Prop) (m : comp ev st A) : Prop :=
  ∀ w, wp True m (λ r e _, e = [] ∧ fails_with P r) w.

Section quiet.
Context {ev st : Type} (P : exn → Prop).

Lemma quiet_ret {A} (a : A) : quiet (ev:=ev) (st:=st) P (mret a).
Proof. intros w. by apply wp_ret. Qed.
Lemma quiet_ask {A} (f : nat → A) : quiet (ev:=ev) (st:=st) P (ask f).
Proof. intros w. by apply wp_ask. Qed.
Lemma quiet_get : quiet (ev:=ev) (st:=st) P get.
Proof. intros w. by apply wp_get. Qed.
Lemma quiet_modify f : quiet (ev:=ev) (st:=st) P (modify f).
Proof. intros w. by apply wp_modify. Qed.
Lemma quiet_throw {A} x : P x → quiet (ev:=ev) (st:=st) (A:=A) P (throw x).
Proof. intros ? w. by apply wp_throw. Qed.
Lemma quiet_throw_when b x : P x → quiet (ev:=ev) (st:=st) P (throw_when b x).
Proof. intros ? w. by apply wp_throw_when. Qed.
Lemma quiet_lift {A} (r : fallible A) : fails_with P r → quiet (ev:=ev) (st:=st) P (lift r).
Proof. intros ? w. by apply wp_lift. Qed.

Lemma quiet_bind {A B} (m : comp ev st A) (f : A → comp ev st B) :
  quiet P m → (∀ a, quiet P (f a)) → quiet P (m ≫= f).
Proof.
  intros Hm Hf w. apply wp_bind. eapply wp_mono; [apply Hm|].
  intros [a|x] e w' [-> Hx]; [|done]. eapply wp_mono; [apply Hf|].
  intros r e w'' [-> ?]. done.
Qed.

Lemma quiet_loop {X A} n (body : X → comp ev st (X + A)) x :
  (∀ x, quiet P (body x)) → quiet P (loop n body x).
Proof.
  intros Hb. revert x. induction n as [|n IH]; intros x; [done|].
  cbn [loop]. apply quiet_bind; [done|]. intros [x'|a]; [done|apply quiet_ret].
Qed.

Lemma wp_bind_quiet {A B} (m : comp ev st A) (f : A → comp ev st B)
    (Q : fallible B → list ev → world st → Prop) w :
  quiet P m → (∀ x w', P x → Q (Err x) [] w') → (∀ a w', wp True (f a) Q w') →
  wp True (m ≫= f) Q w.
Proof.
  intros Hm He Hf. apply wp_bind. eapply wp_mono; [apply Hm|].
  intros [a|x] e w' [-> Hx]; [apply Hf|by apply He].
Qed.
End quiet.

Ltac quiet_tac :=
  repeat first
    [ solve [auto with xgc]
    | apply quiet_ret | apply quiet_ask | apply quiet_get | apply quiet_modify
    | apply quiet_throw; reflexivity | apply quiet_throw_when; reflexivity
    | apply quiet_loop; intros ?
    | apply quiet_bind; [|intros ?]
    | lazymatch goal with
      | |- quiet _ (when ?b _) => unfold when
      | |- quiet _ (let _ := _ in _) => cbv zeta
      | |- quiet _ (if ?b then _ else _) => destruct b
      | |- quiet _ (match ?x with _ => _ end) => destruct x
      end ].

Section boundary.
Context {J M T B : Type} `{JsonCpp J} `{!JsonCppLaws J} `{RosTime} `{!RosTimeLaws}
  `{BabelFish M} `{!BabelFishLaws M} `{BabelFishTypes M T B} `{!BabelFishTypesLaws M T B}.
Context (os : Os) (env : PublishEnv) (limits : Limits) (request : PublishRequest J).
Context (limits_ok : 0 <= maximum_depth limits).
(** The generation provider throws no "uncertain" error (the default one throws
    transient ones), and roscpp throws none of this program's errors. *)
Context (generation_ok : ∀ t, fails_with certain_error (generation_at env t)).
Context (subscribers_ok : ∀ t, fails_with foreign (subscribers_at env t)).

Definition uncertain_error (x : exn) : Prop := is_uncertain x = true.

Lemma cancellation_quiet P : quiet P (pub_cancellationRequested os request).
Proof. unfold pub_cancellationRequested. quiet_tac. Qed.
Lemma expired_quiet P : quiet P (pub_deadlineExpired os request).
Proof. unfold pub_deadlineExpired, system_now. quiet_tac. Qed.
Hint Resolve cancellation_quiet expired_quiet : xgc.

Lemma requireDispatchAllowed_quiet : quiet certain_error (requireDispatchAllowed os request).
Proof. unfold requireDispatchAllowed. quiet_tac. Qed.
Lemma requireContinuationAllowed_quiet :
  quiet uncertain_error (requireContinuationAllowed os request).
Proof. unfold requireContinuationAllowed. quiet_tac. Qed.
Hint Resolve requireDispatchAllowed_quiet requireContinuationAllowed_quiet : xgc.

Lemma locked_quiet {A} P (f : Registry → A * Registry) : quiet P (locked env f).
Proof. unfold locked. quiet_tac. Qed.
Hint Resolve locked_quiet : xgc.

Lemma refresh_fails current reg : fails_with certain_error (refresh current reg).1.
Proof. unfold refresh. destruct (_ =? 0); [done|]. by destruct (negb _). Qed.

(** The result of a locked section comes from the section. *)
Lemma wp_locked {A B'} (f : Registry → A * Registry) (k : A → comp publish_event Registry B')
    (Q : fallible B' → list publish_event → world Registry → Prop) w :
  (∀ reg w', wp True (k (f reg).1) Q w') → wp True (locked env f ≫= k) Q w.
Proof.
  intros Hk. unfold locked. apply wp_bind_assoc, wp_bind, wp_ask. unfold after_events.
  apply wp_bind_assoc, wp_bind, wp_modify. apply wp_bind_assoc, wp_bind, wp_get.
  set (reg := local _). specialize (Hk reg). destruct (f reg) as [a reg'].
  apply wp_bind_assoc, wp_bind, wp_modify, wp_bind, wp_ret. apply Hk.
Qed.

Lemma refreshMasterGeneration_quiet : quiet certain_error (refreshMasterGeneration env).
Proof.
  unfold refreshMasterGeneration. intros w. apply wp_bind, wp_ask.
  apply wp_bind, wp_lift. pose proof (generation_ok (tick w)) as Hg.
  destruct (generation_at env (tick w)) as [current|x]; [|done].
  apply wp_bind, wp_throw_when; [done|]. intros _. unfold after_events. cbn [app].
  apply wp_locked. intros reg w'. apply wp_lift. split; [done|]. apply refresh_fails.
Qed.

Lemma subscribers_quiet : quiet foreign (getNumSubscribers env).
Proof.
  unfold getNumSubscribers. intros w. apply wp_bind, wp_ask, wp_lift. split; [done|].
  apply subscribers_ok.
Qed.

Lemma quiet_impl {ev st A} (P Q : exn → Prop) (m : comp ev st A) :
  (∀ x, P x → Q x) → quiet P m → quiet Q m.
Proof.
  intros HPQ Hm w. eapply wp_mono; [apply Hm|]. intros r e w' [-> Hr]. split; [done|].
  by eapply fails_impl.
Qed.

Lemma subscribers_certain : quiet certain_error (getNumSubscribers env).
Proof. eapply quiet_impl; [apply foreign_certain|apply subscribers_quiet]. Qed.
Hint Resolve subscribers_certain refreshMasterGeneration_quiet : xgc.

Lemma before_dispatch_quiet handle : quiet certain_error (before_dispatch os env request handle).
Proof. unfold before_dispatch, wait_for_subscribers, ros_ok, steady_now. quiet_tac. Qed.

Lemma waitUntil_quiet target : quiet uncertain_error (waitUntil os request target).
Proof. unfold waitUntil, steady_now. quiet_tac. Qed.
Hint Resolve waitUntil_quiet : xgc.

(** ** After the boundary *)

Lemma publish_one_spec index next w :
  wp True (publish_one os env request index next)
    (λ r e _, match r with
              | Ok _ => e = [NativePublish]
              | Err x => uncertain_error x ∧ (e = [] ∨ e = [NativePublish])
              end) w.
Proof.
  unfold publish_one. apply (wp_bind_quiet uncertain_error); [quiet_tac|by auto|]. intros _ w1.
  apply (wp_bind_quiet uncertain_error); [unfold ros_ok; quiet_tac|by auto|]. intros ok w2.
  apply (wp_bind_quiet uncertain_error); [quiet_tac|by auto|]. intros _ w3.
  apply (wp_bind_quiet uncertain_error); [quiet_tac|by auto|]. intros _ w4.
  unfold native_publish. apply wp_bind_assoc, wp_bind, wp_ask, wp_bind_assoc, wp_bind, wp_emit.
  unfold after_events. cbn [app].
  destruct (native_publish_at env (tick w4)) as [u|[]]; apply wp_bind;
    [apply wp_ret|apply wp_throw; split; [done|by right]..].
  unfold after_events. cbn [app]. apply wp_bind.
  eapply wp_mono; [apply requireContinuationAllowed_quiet|]. intros [[]|x] e w5 [-> Hx].
  - by apply wp_ret.
  - split; [done|by right].
Qed.

Lemma publish_loop_spec remaining : ∀ index published next w,
  0 <= published → published + Z.of_nat remaining < 2 ^ 32 →
  wp True (publish_loop os env request remaining index published next)
    (λ r e _, ∃ n, e = replicate n NativePublish ∧ (n <= remaining)%nat ∧
       match r with
       | Ok total => n = remaining ∧ total = published + Z.of_nat remaining
       | Err x => uncertain_error x
       end) w.
Proof.
  induction remaining as [|remaining IH]; intros index published next w Hp Hmax;
    cbn [publish_loop].
  { apply wp_ret. exists 0%nat. split_and!; [done..|lia]. }
  apply wp_bind. eapply wp_mono; [apply publish_one_spec|]. intros [next'|x] e w1 He.
  - subst e. rewrite u32_small by lia. eapply wp_mono; [apply IH; lia|].
    intros r e w2 (n & -> & Hn & Hr). unfold after_events. exists (S n).
    split; [done|]. split; [lia|]. destruct r; [|done]. destruct Hr as [-> ->]. lia.
  - destruct He as [Hx [-> | ->]]; [exists 0%nat|exists 1%nat]; split_and!; done || lia.
Qed.

(** The events a publish can leave, with its result. *)
Definition publish_trace (r : fallible PublishResult) (e : list publish_event) : Prop :=
  let topic := pub_topic request in
  (∃ x, r = Err x ∧ certain_error x ∧
        (e = [] ∨ ∃ p, e = [Leased topic p; Released topic p false])) ∨
  (∃ p n, e = Leased topic p :: Released topic p true :: replicate n NativePublish ∧
     match r with
     | Ok result => Z.of_nat n = pub_count request ∧ published_count result = pub_count request ∧
                    result_topic result = topic ∧
                    result_message_type result = pub_message_type request
     | Err x => uncertain_error x ∧ Z.of_nat n <= pub_count request
     end).

Context (count_width : 0 <= pub_count request < 2 ^ 32).

Lemma after_dispatch_spec bytes w :
  wp True (try_catch (after_dispatch os env request bytes) catch_after)
    (λ r e _, ∃ n, e = replicate n NativePublish ∧
       match r with
       | Ok result => Z.of_nat n = pub_count request ∧ published_count result = pub_count request ∧
                      result_topic result = pub_topic request ∧
                      result_message_type result = pub_message_type request
       | Err x => uncertain_error x ∧ Z.of_nat n <= pub_count request
       end) w.
Proof.
  apply wp_try_catch. unfold after_dispatch, steady_now. apply wp_bind, wp_ask.
  unfold after_events. cbn [app]. apply wp_bind.
  eapply wp_mono; [apply publish_loop_spec; lia|]. intros [total|x] e w1 (n & -> & Hn & Hr).
  - destruct Hr as [-> ->]. apply wp_bind. eapply wp_mono; [apply subscribers_quiet|].
    intros [subscribers|x] e w2 [-> Hx]; unfold after_events.
    + apply wp_ret. exists (Z.to_nat (pub_count request)). rewrite !app_nil_r. cbn.
      split; [done|]. split_and!; [lia..|done|done].
    + destruct x as [err|msg|]; [done|..]; apply wp_throw; rewrite !app_nil_r;
        exists (Z.to_nat (pub_count request)); (split; [done|]); (split; [done|lia]).
  - unfold after_events. destruct x as [err|msg|]; [|done..]. apply wp_throw. rewrite app_nil_r.
    exists n. split; [done|]. split; [done|lia].
Qed.

Lemma lease_entry_spec w :
  wp True (lease_entry env request)
    (λ r e _, match r with
              | Ok (p, _) => e = [Leased (pub_topic request) p]
              | Err x => certain_error x ∧ e = []
              end) w.
Proof.
  unfold lease_entry. apply wp_bind, wp_ask. cbv zeta. unfold after_events. cbn [app].
  set (advertised := advertise_result _ _ _).
  assert (fails_with certain_error advertised) as Hadv by apply advertise_fails.
  apply wp_locked. intros reg w'. set (leased := lease _ _ _ _ _ _).
  assert (fails_with certain_error leased) as Hl.
  { unfold leased, lease. fails. }
  destruct leased as [[[p handle] reg']|x]; cbn [fst].
  - wp_steps. done.
  - apply wp_bind, wp_lift. done.
Qed.

Lemma release_entry_spec p committed w :
  wp True (release_entry env request p committed)
    (λ r e _, r = Ok tt ∧ e = [Released (pub_topic request) p committed]) w.
Proof.
  unfold release_entry. apply (wp_bind_quiet (λ _, False)); [auto with xgc|done|].
  intros u w'. by apply wp_emit.
Qed.

Lemma publish_spec w : wp True (publish os env limits request) (λ r e _, publish_trace r e) w.
Proof.
  assert (∀ x, certain_error x → publish_trace (Err x) []) as Hearly.
  { intros x Hx. left. exists x. auto. }
  unfold publish. apply (wp_bind_quiet certain_error); [auto with xgc|by auto|]. intros _ w1.
  apply (wp_bind_quiet certain_error); [auto with xgc|by auto|]. intros _ w2.
  apply (wp_bind_quiet certain_error); [apply quiet_lift, createMessage_fails|by auto|].
  intros [message|] w3; [|done].
  apply (wp_bind_quiet certain_error); [by apply quiet_lift, decode_certain|by auto|].
  intros message' w4.
  apply (wp_bind_quiet certain_error); [apply quiet_lift, serialize_fails|by auto|].
  intros [serialized|] w5; [|by apply wp_throw, Hearly].
  apply wp_bind. eapply wp_mono; [apply lease_entry_spec|]. intros [[p handle]|x] e w6 He.
  2: { destruct He as [Hx ->]. by apply Hearly. }
  subst e. apply wp_bind. apply wp_try_catch.
  eapply wp_mono; [apply before_dispatch_quiet|]. intros [subscribers|x] e w7 [-> Hx].
  - unfold after_events. cbn [app]. apply wp_bind. eapply wp_mono; [apply release_entry_spec|].
    intros r e w8 [-> ->]. unfold after_events. eapply wp_mono; [apply after_dispatch_spec|].
    intros r e w9 (n & -> & Hr). right. exists p, n. split; [done|]. by destruct r.
  - unfold catch_before. apply wp_bind. eapply wp_mono; [apply release_entry_spec|].
    intros r e w8 [-> ->]. unfold after_events. apply wp_throw. left. exists x.
    split; [done|]. split; [done|]. right. by exists p.
Qed.

(** ** What a finished publish did *)

Context (w w' : world Registry) (r : fallible PublishResult) (e : list publish_event).
Context (publish_ran : publish os env limits request w = MkRun (Some r) e w').

Lemma publish_ended : publish_trace r e.
Proof. exact (wp_run True _ _ _ _ _ _ (publish_spec w) publish_ran). Qed.

(** C6: the publish fence. A publish that ends with an error not marked "uncertain"
    handed no message to roscpp: its native publish was never entered. *)
Theorem certain_publish_failure_dispatched_nothing x :
  r = Err x → is_uncertain x = false → NativePublish ∉ e.
Proof.
  intros Hr Hx. destruct publish_ended as [(x' & _ & _ & [->|[p ->]])|(p & n & -> & Hn)].
  - set_solver.
  - set_solver.
  - rewrite Hr in Hn. destruct Hn as [Hu _]. unfold uncertain_error in Hu. congruence.
Qed.

(** C7: a successful publish handed exactly [publishCount] messages to roscpp, reports
    that number, and did so after leasing the publisher of its topic once and
    releasing it once as committed. *)
Theorem publish_success_dispatches_count result :
  r = Ok result →
  published_count result = pub_count request ∧
  ∃ p, e = Leased (pub_topic request) p :: Released (pub_topic request) p true ::
           replicate (Z.to_nat (pub_count request)) NativePublish.
Proof.
  intros Hr. destruct publish_ended as [(x & Hx & _)|(p & n & -> & Hn)]; [congruence|].
  rewrite Hr in Hn. destruct Hn as (Hn & Hc & _). split; [done|]. exists p. by rewrite <- Hn, Nat2Z.id.
Qed.

(** The leases taken and given back by a list of events. *)
Definition lease_of (ev : publish_event) : list (string * nat) :=
  match ev with Leased t p => [(t, p)] | _ => [] end.
Definition release_of (ev : publish_event) : list (string * nat) :=
  match ev with Released t p _ => [(t, p)] | _ => [] end.

(** C8: whatever the outcome of a publish, the publisher entry it leased is released
    exactly once, and it leases at most one; the lease is committed exactly when the
    outcome is a success or an uncertain error. *)
Theorem publish_releases_its_lease :
  e ≫= lease_of = e ≫= release_of ∧ (length (e ≫= lease_of) <= 1)%nat ∧
  ((∃ p, Released (pub_topic request) p true ∈ e) ↔
   match r with Ok _ => True | Err x => is_uncertain x = true end).
Proof.
  assert (∀ n, replicate n NativePublish ≫= lease_of = []) as Hl.
  { induction n as [|n IH]; [done|]. cbn. by rewrite IH. }
  assert (∀ n, replicate n NativePublish ≫= release_of = []) as Hrel.
  { induction n as [|n IH]; [done|]. cbn. by rewrite IH. }
  destruct publish_ended as [(x & Hx & Hc & [->|[p ->]])|(p & n & -> & Hn)].
  - subst r. cbn. split; [done|]. split; [lia|]. unfold certain_error in Hc. rewrite Hc.
    split; [set_solver|done].
  - subst r. cbn. split; [done|]. split; [lia|]. unfold certain_error in Hc. rewrite Hc.
    split; [|done]. intros [p' Hp]. set_solver.
  - cbn. rewrite Hl, Hrel. split; [done|]. split; [cbn; lia|].
    split; [|intros _; exists p; set_solver]. intros _. destruct r as [res|x]; [done|].
    by destruct Hn.
Qed.
End boundary.

(** ** A publish evaluated *)

Module PublishDemo.
Definition request (count : Z) (cancellable : bool) : PublishRequest json :=
  MkPublishRequest "/flag" "demo_msgs/Flag" (JObject [("success", JBool true)]) count
    (double_of_Z 2) false 10 0 0 cancellable.

Definition os (cancel : nat → bool) : Os :=
  MkOs 40 cancel (λ _, 1000) (λ t, 1000000000 * Z.of_nat t) (λ _, PollTimeout)
    (λ _, SendCount 0) (λ _, RecvBytes []) (λ _, "error").

Definition env : PublishEnv :=
  MkPublishEnv (λ _, Ok 77) (λ _, Ok true) (λ _, Ok 1) (λ _, true) (λ _, Ok tt) (λ _ reg, reg).

Definition start : world Registry := MkWorld 0 (MkRegistry ∅ 0 ∅ 0 8).

Definition published := publish (os (λ _, false)) env default_limits (request 3 false) start.
(** Cancelled between the lease and the dispatch. *)
Definition cancelled := publish (os (Nat.leb 5)) env default_limits (request 3 true) start.

Definition result : PublishResult := MkPublishResult "/flag" "demo_msgs/Flag" 1 3 1.
Lemma published_run : published = MkRun (Some (Ok result)) (events published) (after published).
Proof. vm_compute. reflexivity. Qed.

Definition error : exn :=
  cancelledError "publish_cancelled" "ROS1 topic publish was cancelled before dispatch".
Lemma cancelled_run : cancelled = MkRun (Some (Err error)) (events cancelled) (after cancelled).
Proof. vm_compute. reflexivity. Qed.

(** Half a second at two messages per second. *)
Example interval_at_two_hertz : interval_nanos (double_of_Z 2) = 500000000.
Proof. vm_compute. reflexivity. Qed.
End PublishDemo.

Lemma certain_publish_failure_dispatched_nothing_witness :
  NativePublish ∉ events PublishDemo.cancelled.
Proof.
  eapply (certain_publish_failure_dispatched_nothing (PublishDemo.os (Nat.leb 5)) PublishDemo.env
            default_limits (PublishDemo.request 3 true) ltac:(cbn; lia) ltac:(done) ltac:(done)
            ltac:(cbn; lia) _ _ _ _ PublishDemo.cancelled_run PublishDemo.error); reflexivity.
Defined.

Lemma publish_success_dispatches_count_witness :
  published_count PublishDemo.result = 3 ∧
  ∃ p, events PublishDemo.published =
       Leased "/flag" p :: Released "/flag" p true :: replicate 3 NativePublish.
Proof.
  eapply (publish_success_dispatches_count (PublishDemo.os (λ _, false)) PublishDemo.env
            default_limits (PublishDemo.request 3 false) ltac:(cbn; lia) ltac:(done) ltac:(done)
            ltac:(cbn; lia) _ _ _ _ PublishDemo.published_run); reflexivity.
Defined.

Lemma publish_releases_its_lease_witness :
  events PublishDemo.cancelled ≫= lease_of = events PublishDemo.cancelled ≫= release_of ∧
  (length (events PublishDemo.cancelled ≫= lease_of) <= 1)%nat ∧
  ((∃ p, Released "/flag" p true ∈ events PublishDemo.cancelled) ↔ false = true).
Proof.
  exact (publish_releases_its_lease (PublishDemo.os (Nat.leb 5)) PublishDemo.env
           default_limits (PublishDemo.request 3 true) ltac:(cbn; lia) ltac:(done) ltac:(done)
           ltac:(cbn; lia) _ _ _ _ PublishDemo.cancelled_run).
Defined.

Example cancelled_publish_had_leased :
  events PublishDemo.cancelled = [Leased "/flag" 0; Released "/flag" 0 false].
Proof. vm_compute. reflexivity. Qed.
