(* ===== verification/PublisherConcurrency.v ===== *)
(** * The publisher registry under concurrency

    Publishing threads, the master watcher and instance re-configuration run the
    atomic sections of [PublisherRegistry] in any order.  A state is the registry
    with the leases that are held: a lease is taken by [lease] and ended by
    [release], exactly once each ([PublishLemmas.publish_releases_its_lease]). *)

From stdpp Require Import relations.
From S2P Require Import Prelude Errors PublisherRegistry.
Local Open Scope Z_scope.

Record leased_registry := MkLeased { registry : Registry; leases : list (string * nat) }.

Inductive registry_step : leased_registry → leased_registry → Prop :=
| step_lease topic type latched queue advertised p handle reg reg' ls :
    lease topic type latched queue advertised reg = Ok (p, handle, reg') →
    registry_step (MkLeased reg ls) (MkLeased reg' ((topic, p) :: ls))
| step_release topic p committed reg ls1 ls2 :
    registry_step (MkLeased reg (ls1 ++ (topic, p) :: ls2))
      (MkLeased (release topic p committed reg) (ls1 ++ ls2))
| step_refresh current reg ls :
    0 < current → registry_step (MkLeased reg ls) (MkLeased (refresh current reg).2 ls)
| step_probe answer reg ls :
    registry_step (MkLeased reg ls) (MkLeased (probeMasterBinding answer reg).2 ls)
| step_clear reg ls :
    registry_step (MkLeased reg ls) (MkLeased (clear reg) ls).

Definition registry_start (maximum : Z) : leased_registry :=
  MkLeased (MkRegistry ∅ 0 ∅ 0 maximum) [].

(** How many leases are held on an entry. *)
Fixpoint lease_count (p : nat) (ls : list (string * nat)) : nat :=
  match ls with
  | [] => 0
  | (_, q) :: ls => (if Nat.eqb q p then 1 else 0) + lease_count p ls
  end.

Lemma lease_count_app p l1 l2 : lease_count p (l1 ++ l2) = (lease_count p l1 + lease_count p l2)%nat.
Proof. induction l1 as [|[t q] l1 IH]; cbn; [done|]. rewrite IH. lia. Qed.

Lemma lease_count_pos t p ls : (t, p) ∈ ls → (0 < lease_count p ls)%nat.
Proof.
  induction ls as [|[t' q] ls IH]; [set_solver|]. intros [[= -> ->]|Hin]%elem_of_cons; cbn.
  - rewrite Nat.eqb_refl. lia.
  - specialize (IH Hin). lia.
Qed.

Lemma lease_count_zero p ls : (∀ t q, (t, q) ∈ ls → q ≠ p) → lease_count p ls = 0%nat.
Proof.
  induction ls as [|[t q] ls IH]; intros Hne; [done|]. cbn.
  rewrite (proj2 (Nat.eqb_neq q p)); [|eapply (Hne t); set_solver].
  apply IH. intros t' q' Hin. eapply (Hne t'). set_solver.
Qed.

(** What holds between sections. *)
Record registry_inv (s : leased_registry) : Prop := MkInv {
  inv_count p e : store (registry s) !! p = Some e →
    active_calls e = lease_count p (leases s) ∧ (p < next_entry (registry s))%nat;
  inv_leased t p : (t, p) ∈ leases s → is_Some (store (registry s) !! p);
  inv_cached t p : entries_ (registry s) !! t = Some p →
    ∃ e, store (registry s) !! p = Some e ∧
         ((0 < active_calls e)%nat ∨ native_dispatch_committed e = true);
  inv_topic t t' p : entries_ (registry s) !! t = Some p → (t', p) ∈ leases s → t' = t;
  inv_unique t t' p : entries_ (registry s) !! t = Some p →
    entries_ (registry s) !! t' = Some p → t' = t;
  inv_size : registry_size (registry s) <= maximum_publishers_ (registry s)
}.

Lemma registry_start_inv maximum : 0 < maximum → registry_inv (registry_start maximum).
Proof.
  intros Hmax. split; cbn; try (by intros * ?%lookup_empty_Some).
  - intros t p Hin. by apply elem_of_nil in Hin.
  - change (0 <= maximum). lia.
Qed.

(** Dropping all cached entries. *)
Lemma drop_entries_inv reg ls :
  0 <= maximum_publishers_ reg →
  registry_inv (MkLeased reg ls) → registry_inv (MkLeased (set_entries reg ∅) ls).
Proof.
  intros Hmax [Hc Hl _ _ _ _]. split; cbn in *; try done; by intros * ?%lookup_empty_Some.
Qed.

Lemma set_generation_inv reg ls g :
  registry_inv (MkLeased reg ls) → registry_inv (MkLeased (set_generation reg g) ls).
Proof. intros []. by split. Qed.

Lemma inv_maximum_nonneg s : registry_inv s → 0 <= maximum_publishers_ (registry s).
Proof. intros [_ _ _ _ _ Hs]. unfold registry_size in Hs. lia. Qed.

Lemma lease_new_inv topic type latched queue handle reg ls :
  entries_ reg !! topic = None → registry_size reg < maximum_publishers_ reg →
  registry_inv (MkLeased reg ls) →
  let p := next_entry reg in
  registry_inv (MkLeased
    (MkRegistry (<[p := MkEntry type latched queue handle 1 false]> (store reg)) (S p)
       (<[topic := p]> (entries_ reg)) (master_generation_ reg) (maximum_publishers_ reg))
    ((topic, p) :: ls)).
Proof.
  intros Hnone Hsize [Hcount Hleased Hcached Htopic Hunique _] p. cbn in *.
  assert (∀ t q, (t, q) ∈ ls → q ≠ p) as Hfresh.
  { intros t q Hin ->. destruct (Hleased _ _ Hin) as [e He]. apply Hcount in He. lia. }
  assert (∀ t q, entries_ reg !! t = Some q → q ≠ p) as Hfresh'.
  { intros t q Hq ->. destruct (Hcached _ _ Hq) as (e & He & _). apply Hcount in He. lia. }
  split; cbn.
  - intros q e [[<- <-]|[Hne He]]%lookup_insert_Some; cbn.
    + rewrite Nat.eqb_refl, (lease_count_zero p ls Hfresh). split; [done|lia].
    + rewrite (proj2 (Nat.eqb_neq p q) Hne). apply Hcount in He. split; [tauto|lia].
  - intros t q [[= -> ->]|Hin]%elem_of_cons; [by rewrite lookup_insert_eq|].
    rewrite lookup_insert_ne; [by eapply Hleased|]. symmetry. by eapply Hfresh.
  - intros t q [[<- <-]|[Hne Hq]]%lookup_insert_Some.
    + eexists. rewrite lookup_insert_eq. split; [done|]. left. cbn. lia.
    + rewrite lookup_insert_ne by (symmetry; by eapply Hfresh'). by eapply Hcached.
  - intros t t' q Hq [Heq|Hin]%elem_of_cons; apply lookup_insert_Some in Hq as [[<- <-]|[Hne Hq]].
    + by injection Heq.
    + injection Heq as -> ->. exfalso. by eapply Hfresh'.
    + exfalso. by eapply Hfresh.
    + by eapply Htopic.
  - intros t t' q [[<- <-]|[Hne Hq]]%lookup_insert_Some [[<- Hq']|[Hne' Hq']]%lookup_insert_Some;
      try done.
    + exfalso. by eapply Hfresh'.
    + exfalso. subst q. by eapply Hfresh'.
    + by eapply Hunique.
  - unfold registry_size. cbn. rewrite map_size_insert_None by done.
    unfold registry_size in Hsize. lia.
Qed.

Lemma lease_existing_inv topic p e reg ls :
  entries_ reg !! topic = Some p → store reg !! p = Some e →
  registry_inv (MkLeased reg ls) →
  registry_inv (MkLeased
    (set_entry reg p
       (MkEntry (message_type e) (latch e) (queue_size e) (publisher e) (S (active_calls e))
          (native_dispatch_committed e)))
    ((topic, p) :: ls)).
Proof.
  intros Hp He [Hcount Hleased Hcached Htopic Hunique Hsize]. cbn in *. split; cbn.
  - intros q e' [[<- <-]|[Hne He']]%lookup_insert_Some; cbn.
    + rewrite Nat.eqb_refl. destruct (Hcount _ _ He). split; [lia|done].
    + rewrite (proj2 (Nat.eqb_neq p q) Hne). by apply Hcount.
  - intros t q [[= -> ->]|Hin]%elem_of_cons; [by rewrite lookup_insert_eq|].
    apply lookup_insert_is_Some. destruct (decide (p = q)); [by left|right].
    split; [done|]. by eapply Hleased.
  - intros t q Hq. destruct (decide (p = q)) as [<-|Hne].
    + eexists. rewrite lookup_insert_eq. split; [done|]. left. cbn. lia.
    + rewrite lookup_insert_ne by done. by eapply Hcached.
  - intros t t' q Hq [[= -> ->]|Hin]%elem_of_cons; [by eapply Hunique|by eapply Htopic].
  - done.
  - done.
Qed.

(** ** Ending a lease *)

(** The object after a release. *)
Definition released_entry (e : Entry) (committed : bool) : Entry :=
  MkEntry (message_type e) (latch e) (queue_size e) (publisher e) (active_calls e - 1)
    (native_dispatch_committed e || committed).

(** A release of a held lease: the entry is dropped from the cache exactly when it
    is still the cached one, this was its last lease, and no dispatch was ever
    committed on it. *)
Lemma release_held t p committed reg ls1 ls2 :
  registry_inv (MkLeased reg (ls1 ++ (t, p) :: ls2)) →
  ∃ e, store reg !! p = Some e ∧
    release t p committed reg =
    set_entries (set_entry reg p (released_entry e committed))
      (if bool_decide (entries_ reg !! t = Some p) && Nat.eqb (lease_count p (ls1 ++ ls2)) 0
          && negb (native_dispatch_committed e || committed)
       then delete t (entries_ reg) else entries_ reg).
Proof.
  intros HI. pose proof (inv_leased _ HI t p) as [e He]; [cbn; set_solver|]. cbn in He.
  exists e. split; [done|]. destruct (inv_count _ HI p e He) as [Hc _]. cbn in Hc.
  rewrite lease_count_app in Hc. cbn in Hc. rewrite Nat.eqb_refl in Hc.
  unfold release. rewrite He. cbv zeta. cbn [active_calls native_dispatch_committed].
  rewrite (proj2 (Nat.ltb_lt 0 (active_calls e))) by lia.
  replace (lease_count p (ls1 ++ ls2)) with (active_calls e - 1)%nat
    by (rewrite lease_count_app; lia).
  cbn [set_entry entries_]. unfold released_entry.
  by destruct (bool_decide _ && _ && negb _).
Qed.

Lemma release_inv t p committed reg ls1 ls2 :
  registry_inv (MkLeased reg (ls1 ++ (t, p) :: ls2)) →
  registry_inv (MkLeased (release t p committed reg) (ls1 ++ ls2)).
Proof.
  intros HI. destruct (release_held t p committed reg ls1 ls2 HI) as (e & He & ->).
  set (drop := bool_decide _ && _ && negb _).
  destruct HI as [Hcount Hleased Hcached Htopic Hunique Hsize]. cbn in *.
  assert (∀ q, lease_count q (ls1 ++ (t, p) :: ls2) =
               ((if Nat.eqb p q then 1 else 0) + lease_count q (ls1 ++ ls2))%nat) as Hless.
  { intros q. rewrite !lease_count_app. cbn. lia. }
  assert (∀ t' q, (if drop then delete t (entries_ reg) else entries_ reg) !! t' = Some q →
            entries_ reg !! t' = Some q) as Hsub.
  { intros t' q. destruct drop; [by intros [_ ?]%lookup_delete_Some|done]. }
  split; cbn.
  - intros q e' [[<- <-]|[Hne He']]%lookup_insert_Some; cbn.
    + destruct (Hcount _ _ He) as [Hc Hlt]. rewrite Hless, Nat.eqb_refl in Hc. lia.
    + destruct (Hcount _ _ He') as [Hc Hlt]. rewrite Hless in Hc.
      rewrite (proj2 (Nat.eqb_neq p q) Hne) in Hc. lia.
  - intros t' q Hin. apply lookup_insert_is_Some. destruct (decide (p = q)); [by left|right].
    split; [done|]. apply (Hleased t'). set_solver.
  - intros t' q Hq. destruct (Hcached _ _ (Hsub _ _ Hq)) as (e' & He' & Hor).
    destruct (decide (p = q)) as [<-|Hne].
    2: { exists e'. by rewrite lookup_insert_ne. }
    eexists. rewrite lookup_insert_eq. split; [done|]. cbn. rewrite He in He'. injection He' as <-.
    destruct (Hcount _ _ He) as [Hc _]. rewrite Hless, Nat.eqb_refl in Hc.
    destruct (native_dispatch_committed e || committed) eqn:Hcom; [by right|left].
    destruct (Nat.eqb (lease_count p (ls1 ++ ls2)) 0) eqn:Hz; [|apply Nat.eqb_neq in Hz; lia].
    exfalso. assert (t = t') as <- by (eapply Htopic; [by apply Hsub|set_solver]).
    assert (drop = true) as Hdrop.
    { unfold drop. rewrite bool_decide_true by (by apply Hsub). by rewrite ?Hz, ?Hcom. }
    rewrite Hdrop in Hq. by rewrite lookup_delete_eq in Hq.
  - intros t1 t2 q Hq Hin. eapply Htopic; [by apply Hsub|]. set_solver.
  - intros t1 t2 q Hq1 Hq2. eapply Hunique; by apply Hsub.
  - unfold registry_size in *. cbn. destruct drop; [|done].
    rewrite map_size_delete. destruct (entries_ reg !! t); cbn; unfold id; lia.
Qed.

Lemma registry_step_inv s s' : registry_inv s → registry_step s s' → registry_inv s'.
Proof.
  intros HI Hstep. pose proof (inv_maximum_nonneg _ HI) as Hmax.
  destruct Hstep as [topic type latched queue advertised p handle reg reg' ls Hlease
                    |topic p committed reg ls1 ls2|current reg ls Hpos|answer reg ls|reg ls].
  - unfold lease in Hlease. destruct (entries_ reg !! topic) as [q|] eqn:Hq.
    + destruct (store reg !! q) as [e|] eqn:He; [|done]. res_inv Hlease. by apply lease_existing_inv.
    + apply throw_bind_Ok in Hlease as [Hsize Hlease]. apply bind_Ok in Hlease as (h & _ & Hlease).
      injection Hlease as <- <- <-. rewrite Z.geb_leb, Z.leb_gt in Hsize.
      by apply lease_new_inv.
  - by apply release_inv.
  - unfold refresh. destruct (_ =? 0); [by apply set_generation_inv|].
    destruct (negb _); [by apply drop_entries_inv|done].
  - unfold probeMasterBinding, bind_generation. destruct answer as [current|x]; [|done].
    destruct (current <=? 0); [done|]. destruct (_ =? 0); [by apply set_generation_inv|].
    by destruct (negb _).
  - by apply drop_entries_inv.
Qed.

Lemma registry_reachable_inv maximum s :
  0 < maximum → rtc registry_step (registry_start maximum) s → registry_inv s.
Proof.
  intros Hmax Hr. pose proof (registry_start_inv maximum Hmax) as HI. revert HI.
  induction Hr as [s|s1 s2 s3 Hstep _ IH]; [done|]. intros HI. apply IH.
  by eapply registry_step_inv.
Qed.

(** ** Theorems *)


(** Ending a lease drops the cached publisher exactly when this was the last lease
    on it, nothing was ever dispatched through it, and it is still the cached one:
    an entry that another call is using stays, and a call whose entry was dropped
    after a master change never removes the publisher that replaced it. *)
Theorem release_drops_only_idle maximum reg t p committed ls1 ls2 :
  0 < maximum →
  rtc registry_step (registry_start maximum) (MkLeased reg (ls1 ++ (t, p) :: ls2)) →
  ∃ e, store reg !! p = Some e ∧
  let idle := entries_ reg !! t = Some p ∧ lease_count p (ls1 ++ ls2) = 0%nat ∧
              native_dispatch_committed e = false ∧ committed = false in
  (idle → entries_ (release t p committed reg) = delete t (entries_ reg)) ∧
  (¬ idle → entries_ (release t p committed reg) = entries_ reg).
Proof.
  intros Hmax Hr. pose proof (registry_reachable_inv _ _ Hmax Hr) as HI.
  destruct (release_held t p committed reg ls1 ls2 HI) as (e & He & ->). exists e.
  split; [done|]. cbv zeta. cbn [set_entries entries_]. split.
  - intros (Hp & Hz & Hn & ->). by rewrite bool_decide_true, Hz, Hn.
  - intros Hidle. destruct (bool_decide (entries_ reg !! t = Some p) && _ && _) eqn:Hd; [|done].
    apply andb_true_iff in Hd as [[Hb Hz]%andb_true_iff [Hn Hcom]%negb_true_iff%orb_false_iff].
    apply bool_decide_eq_true in Hb. apply Nat.eqb_eq in Hz. tauto.
Qed.

(** Two publishes to one topic share its entry; the master changes while both are
    under way; one of them finishes. *)
Definition demo_registry : Registry :=
  (refresh 8 (set_entry
     (set_generation (MkRegistry {[0%nat := MkEntry "t" false 1 true 1 false]} 1 {["/a" := 0%nat]} 0 2) 7)
     0 (MkEntry "t" false 1 true 2 false))).2.

Lemma demo_registry_reachable :
  rtc registry_step (registry_start 2) (MkLeased demo_registry ([("/a", 0%nat)] ++ [("/a", 0%nat)])).
Proof.
  eapply rtc_l; [by apply (step_lease "/a" "t" false 1 (Ok true) 0 true)|].
  eapply rtc_l; [by apply (step_refresh 7)|].
  eapply rtc_l; [by apply (step_lease "/a" "t" false 1 (Ok true) 0 true)|].
  eapply rtc_l; [by apply (step_refresh 8)|]. apply rtc_refl.
Qed.


Lemma release_drops_only_idle_witness :
  ∃ e, store demo_registry !! 0%nat = Some e ∧
  let idle := entries_ demo_registry !! "/a" = Some 0%nat ∧
              lease_count 0 ([] ++ [("/a", 0%nat)]) = 0%nat ∧
              native_dispatch_committed e = false ∧ false = false in
  (idle → entries_ (release "/a" 0 false demo_registry) = delete "/a" (entries_ demo_registry)) ∧
  (¬ idle → entries_ (release "/a" 0 false demo_registry) = entries_ demo_registry).
Proof.
  apply (release_drops_only_idle 2 demo_registry "/a" 0 false [] [("/a", 0%nat)]); [lia|].
  exact demo_registry_reachable.
Defined.
