(* ===== verification/RegistryRefinement.v ===== *)
(** * The registry implements a cache

    The specification is a map from topics to slots: what the publisher was
    advertised with, how many calls use it, and whether a message was ever handed to
    it.  There are no objects and no identities in it.  The registry, whose entries
    are shared objects that calls keep holding after the cache has dropped them,
    refines it: seen through [cache_of], every section it runs under its mutex is the
    operation of the specification, with the same answer and the same error, and a
    call that ends a lease on a dropped entry does nothing. *)

From stdpp Require Import relations.
From S2P Require Import Prelude Errors PublisherRegistry PublisherConcurrency.
Local Open Scope Z_scope.

(** ** The specification *)

Record Slot := MkSlot {
  slot_type : string;
  slot_latch : bool;
  slot_queue : Z;
  slot_handle : bool;
  slot_users : nat;
  slot_dispatched : bool
}.

Record Cache := MkCache { slots : gmap string Slot; bound_generation : Z; capacity : Z }.

Definition set_slots (c : Cache) (m : gmap string Slot) : Cache :=
  MkCache m (bound_generation c) (capacity c).

(** The handle a call may publish with, and the cache in which it counts as a user. *)
Definition spec_lease (topic type : string) (latched : bool) (queue : Z)
    (advertised : fallible bool) (c : Cache) : fallible (bool * Cache) :=
  match slots c !! topic with
  | Some s =>
      if bool_decide (slot_type s = type) && eqb (slot_latch s) latched && (slot_queue s =? queue)
      then Ok (slot_handle s, set_slots c (<[topic := MkSlot (slot_type s) (slot_latch s)
                 (slot_queue s) (slot_handle s) (S (slot_users s)) (slot_dispatched s)]> (slots c)))
      else Err (permanentError "publisher_configuration_conflict"
                  ("topic '" +:+ topic +:+
                   "' is already cached with a different type, latch, or queueSize"))
  | None =>
      if Z.of_nat (size (slots c)) <? capacity c
      then handle ← advertised;
           Ok (handle, set_slots c (<[topic := MkSlot type latched queue handle 1 false]> (slots c)))
      else Err (resourceExhaustedError "publisher_capacity_exhausted"
                  "maximum cached ROS1 publishers reached; replace or stop the Adapter instance before publishing another topic")
  end.

(** A user leaves; a slot without users and without a dispatch is given up. *)
Definition spec_release (topic : string) (committed : bool) (c : Cache) : Cache :=
  match slots c !! topic with
  | None => c
  | Some s =>
      let users := (slot_users s - 1)%nat in
      let dispatched := slot_dispatched s || committed in
      set_slots c
        (if Nat.eqb users 0 && negb dispatched then delete topic (slots c)
         else <[topic := MkSlot (slot_type s) (slot_latch s) (slot_queue s) (slot_handle s) users
                           dispatched]> (slots c))
  end.

(** Binding to the first master seen; another master empties the cache and is
    reported. *)
Definition spec_refresh (current : Z) (c : Cache) : fallible unit * Cache :=
  if bound_generation c =? 0 then (Ok tt, MkCache (slots c) current (capacity c))
  else if bound_generation c =? current then (Ok tt, c)
  else (Err (transientError "ros_master_generation_changed"
               "ROS1 master process generation changed; this Adapter process is bound to the previous master and must be recycled"),
        set_slots c ∅).

(** The state of the binding and the generation seen, 0 for none: a probe without an
    answer tells whether there was a binding, one with an answer binds an unbound
    cache and compares otherwise. *)
Definition spec_probe (answer : fallible Z) (c : Cache) : MasterBindingState * Z * Cache :=
  let seen := match answer with Ok current => current | Err _ => 0 end in
  if 0 <? seen then
    if bound_generation c =? 0 then (Bound, seen, MkCache (slots c) seen (capacity c))
    else (if bound_generation c =? seen then Bound else Changed, seen, c)
  else (if bound_generation c =? 0 then Unbound else Unavailable, seen, c).

Inductive cache_step : Cache → Cache → Prop :=
| cache_lease topic type latched queue advertised handle c c' :
    spec_lease topic type latched queue advertised c = Ok (handle, c') → cache_step c c'
| cache_release topic committed s c :
    slots c !! topic = Some s → (0 < slot_users s)%nat →
    cache_step c (spec_release topic committed c)
| cache_release_dropped c : cache_step c c
| cache_refresh current c : 0 < current → cache_step c (spec_refresh current c).2
| cache_probe answer c : cache_step c (spec_probe answer c).2
| cache_clear c : cache_step c (set_slots c ∅).

(** ** The abstraction *)

Definition slot_of (e : Entry) : Slot :=
  MkSlot (message_type e) (latch e) (queue_size e) (publisher e) (active_calls e)
    (native_dispatch_committed e).

Definition cache_of (reg : Registry) : Cache :=
  MkCache (omap (λ p, slot_of <$> store reg !! p) (entries_ reg)) (master_generation_ reg)
    (maximum_publishers_ reg).

Lemma lookup_slots reg t :
  slots (cache_of reg) !! t = p ← entries_ reg !! t; slot_of <$> store reg !! p.
Proof. apply lookup_omap. Qed.

(** Nothing cached is missing from the store. *)
Lemma size_slots s :
  registry_inv s → size (slots (cache_of (registry s))) = size (entries_ (registry s)).
Proof.
  intros HI. rewrite <- !size_dom. f_equal. apply set_eq. intros t.
  rewrite !elem_of_dom, lookup_slots. unfold is_Some.
  destruct (entries_ (registry s) !! t) as [p|] eqn:Hp; cbn; [|naive_solver].
  destruct (inv_cached _ HI t p Hp) as (e & -> & _). cbn. naive_solver.
Qed.

(** Changing the object of a cached entry changes the slot of its topic only. *)
Lemma cache_of_set_entry reg ls t p e :
  registry_inv (MkLeased reg ls) → entries_ reg !! t = Some p →
  slots (cache_of (set_entry reg p e)) = <[t := slot_of e]> (slots (cache_of reg)).
Proof.
  intros HI Hp. apply map_eq. intros t'. rewrite lookup_slots. cbn [set_entry entries_ store].
  destruct (decide (t' = t)) as [->|Hne].
  - rewrite lookup_insert_eq, Hp. cbn. by rewrite lookup_insert_eq.
  - rewrite lookup_insert_ne, lookup_slots by done. destruct (entries_ reg !! t') as [q|] eqn:Hq; [|done].
    cbn. rewrite lookup_insert_ne; [done|]. intros <-. apply Hne. by eapply (inv_unique _ HI).
Qed.

(** Changing an object that is not cached changes nothing. *)
Lemma cache_of_set_dropped reg p e :
  (∀ t, entries_ reg !! t ≠ Some p) → cache_of (set_entry reg p e) = cache_of reg.
Proof.
  intros Hno. unfold cache_of. cbn. f_equal. apply map_eq. intros t. rewrite !lookup_omap.
  destruct (entries_ reg !! t) as [q|] eqn:Hq; [|done]. cbn. rewrite lookup_insert_ne; [done|].
  intros <-. by apply (Hno t).
Qed.

Lemma cache_of_drop_all reg : cache_of (set_entries reg ∅) = set_slots (cache_of reg) ∅.
Proof. unfold cache_of, set_slots. cbn. by rewrite omap_empty. Qed.

(** ** The operations *)

Lemma lease_refines topic type latched queue advertised reg ls :
  registry_inv (MkLeased reg ls) →
  spec_lease topic type latched queue advertised (cache_of reg) =
  match lease topic type latched queue advertised reg with
  | Ok (p, handle, reg') => Ok (handle, cache_of reg')
  | Err x => Err x
  end.
Proof.
  intros HI. unfold spec_lease, lease. rewrite lookup_slots.
  destruct (entries_ reg !! topic) as [p|] eqn:Hp; cbn [mbind option_bind].
  - destruct (inv_cached _ HI topic p Hp) as (e & He & _). cbn [registry] in He. rewrite He.
    cbn [fmap option_fmap option_map slot_of slot_type slot_latch slot_queue slot_handle slot_users slot_dispatched].
    rewrite <- (negb_involutive (bool_decide _ && _ && _)), !negb_andb.
    destruct (_ || _ || _); [done|]. cbn [throw_if mbind result_bind negb option_map].
    do 2 f_equal. match goal with |- _ = cache_of (set_entry reg p ?e') =>
      pose proof (cache_of_set_entry reg ls topic p e' HI Hp) as Hset end.
    unfold set_slots. apply (f_equal (λ m, MkCache m (master_generation_ reg) (maximum_publishers_ reg))) in Hset.
    by symmetry.
  - pose proof (size_slots _ HI) as Hsize. cbn [registry] in Hsize. rewrite Hsize.
    rewrite Z.geb_leb, Z.leb_antisym. unfold registry_size. cbn [capacity cache_of].
    destruct (Z.of_nat _ <? _); [|done]. cbn [negb throw_if mbind result_bind].
    destruct advertised as [handle|x]; [|done]. cbn [mbind result_bind]. do 2 f_equal.
    unfold set_slots, cache_of. cbn. f_equal. apply map_eq. intros t. symmetry.
    rewrite lookup_omap. destruct (decide (t = topic)) as [->|Hne].
    + rewrite !lookup_insert_eq. cbn. by rewrite lookup_insert_eq.
    + rewrite !lookup_insert_ne, lookup_omap by done.
      destruct (entries_ reg !! t) as [q|] eqn:Hq; [|done]. cbn. rewrite lookup_insert_ne; [done|].
      destruct (inv_cached _ HI t q Hq) as (e & He & _). apply (inv_count _ HI) in He. cbn in He. lia.
Qed.

Lemma release_refines topic p committed reg ls1 ls2 :
  registry_inv (MkLeased reg (ls1 ++ (topic, p) :: ls2)) →
  cache_of (release topic p committed reg) =
  if bool_decide (entries_ reg !! topic = Some p)
  then spec_release topic committed (cache_of reg) else cache_of reg.
Proof.
  intros HI. destruct (release_held topic p committed reg ls1 ls2 HI) as (e & He & ->).
  destruct (inv_count _ HI p e He) as [Hcount _]. cbn in Hcount.
  rewrite lease_count_app in Hcount. cbn in Hcount. rewrite Nat.eqb_refl in Hcount.
  replace (lease_count p (ls1 ++ ls2)) with (active_calls e - 1)%nat by (rewrite lease_count_app; lia).
  case_bool_decide as Hp.
  - unfold spec_release. rewrite lookup_slots, Hp. cbn [mbind option_bind]. rewrite He.
    cbn [fmap option_fmap option_map slot_of slot_users slot_dispatched andb].
    pose proof (cache_of_set_entry reg _ topic p (released_entry e committed) HI Hp) as Hset.
    destruct (_ && _).
    + unfold cache_of, set_slots. cbn [set_entries set_entry entries_ store master_generation_ maximum_publishers_
        bound_generation capacity slots]. f_equal. apply map_eq. intros t. rewrite lookup_omap.
      destruct (decide (t = topic)) as [->|Hne]; [by rewrite !lookup_delete_eq|].
      rewrite !lookup_delete_ne by done. pose proof (f_equal (.!! t) Hset) as Ht.
      rewrite lookup_slots, lookup_insert_ne in Ht by done. exact Ht.
    + apply (f_equal (λ m, MkCache m (master_generation_ reg) (maximum_publishers_ reg))) in Hset.
      exact Hset.
  - apply (cache_of_set_dropped reg p (released_entry e committed)).
    intros t Ht. apply Hp. rewrite (inv_topic _ HI t topic p Ht); [done|]. cbn. set_solver.
Qed.

Lemma refresh_refines current reg :
  spec_refresh current (cache_of reg) = ((refresh current reg).1, cache_of (refresh current reg).2).
Proof.
  unfold refresh, spec_refresh. cbn [bound_generation cache_of].
  destruct (_ =? 0); [done|]. destruct (_ =? current); [done|]. cbn [negb fst snd]. by rewrite cache_of_drop_all.
Qed.

Lemma probe_refines answer reg :
  spec_probe answer (cache_of reg) =
  ((probeMasterBinding answer reg).1, cache_of (probeMasterBinding answer reg).2).
Proof.
  unfold probeMasterBinding, bind_generation, unavailable_state, spec_probe. cbn [bound_generation cache_of].
  destruct answer as [current|x]; [|done]. rewrite Z.leb_antisym.
  destruct (0 <? current); [|done]. cbn [negb]. destruct (_ =? 0); [done|]. by destruct (_ =? current).
Qed.

Lemma registry_step_refines s s' :
  registry_inv s → registry_step s s' →
  cache_step (cache_of (registry s)) (cache_of (registry s')).
Proof.
  intros HI Hstep.
  destruct Hstep as [topic type latched queue advertised p handle reg reg' ls Hlease
                    |topic p committed reg ls1 ls2|current reg ls Hpos|answer reg ls|reg ls]; cbn [registry].
  - apply (cache_lease topic type latched queue advertised handle).
    rewrite (lease_refines _ _ _ _ _ _ ls HI). by rewrite Hlease.
  - rewrite (release_refines _ _ _ _ _ _ HI). case_bool_decide as Hp; [|constructor].
    destruct (inv_leased _ HI topic p) as [e He]; [cbn; set_solver|]. cbn in He.
    apply (cache_release topic committed (slot_of e)).
    + rewrite lookup_slots, Hp. cbn. by rewrite He.
    + apply (inv_count _ HI) in He as [Hc _]. cbn [slot_of slot_users]. rewrite Hc.
      apply (lease_count_pos topic). cbn. set_solver.
  - pose proof (cache_refresh current (cache_of reg) Hpos) as Hc. by rewrite refresh_refines in Hc.
  - pose proof (cache_probe answer (cache_of reg)) as Hc. by rewrite probe_refines in Hc.
  - unfold clear. rewrite cache_of_drop_all. constructor.
Qed.

(** C10: the registry refines the cache. Every interleaving of its sections is, seen
    as topics and slots, a run of the specification. In every reachable state each
    section gives the answer, the error and the new cache of the specification: a
    lease, a refresh of the master generation, a probe of the master, and clearing;
    a release is the specification's if its entry is still the cached one and
    otherwise has no effect at all. *)
Theorem registry_refines_cache maximum s :
  0 < maximum → rtc registry_step (registry_start maximum) s →
  rtc cache_step (MkCache ∅ 0 maximum) (cache_of (registry s)) ∧
  (∀ topic type latched queue advertised,
     spec_lease topic type latched queue advertised (cache_of (registry s)) =
     match lease topic type latched queue advertised (registry s) with
     | Ok (p, handle, reg) => Ok (handle, cache_of reg)
     | Err x => Err x
     end) ∧
  (∀ topic p committed, (topic, p) ∈ leases s →
     cache_of (release topic p committed (registry s)) =
     if bool_decide (entries_ (registry s) !! topic = Some p)
     then spec_release topic committed (cache_of (registry s)) else cache_of (registry s)) ∧
  (∀ current, spec_refresh current (cache_of (registry s)) =
     ((refresh current (registry s)).1, cache_of (refresh current (registry s)).2)) ∧
  (∀ answer, spec_probe answer (cache_of (registry s)) =
     ((probeMasterBinding answer (registry s)).1,
      cache_of (probeMasterBinding answer (registry s)).2)) ∧
  cache_of (clear (registry s)) = set_slots (cache_of (registry s)) ∅.
Proof.
  intros Hmax Hr. pose proof (registry_reachable_inv maximum s Hmax Hr) as HI. split_and!.
  - assert (∀ s0, registry_inv s0 → rtc registry_step s0 s →
      rtc cache_step (cache_of (registry s0)) (cache_of (registry s))) as Hrun.
    { intros s0 HI0 Hr0. induction Hr0 as [s0|s1 s2 s3 Hstep Hr0 IH]; [constructor|].
      eapply rtc_l; [by apply registry_step_refines|]. apply IH; [done|done|].
      by eapply registry_step_inv. }
    assert (cache_of (registry (registry_start maximum)) = MkCache ∅ 0 maximum) as <-.
    { unfold cache_of. cbn. by rewrite omap_empty. }
    apply Hrun; [by apply registry_start_inv|done].
  - intros. destruct s as [reg ls]. by apply (lease_refines _ _ _ _ _ _ ls).
  - intros topic p committed Hin. destruct s as [reg ls]. cbn in Hin.
    apply list_elem_of_split in Hin as (ls1 & ls2 & ->). by eapply release_refines.
  - intros. apply refresh_refines.
  - intros. apply probe_refines.
  - apply cache_of_drop_all.
Qed.

Lemma registry_refines_cache_witness :
  rtc cache_step (MkCache ∅ 0 2) (cache_of demo_registry) ∧
  (∀ topic type latched queue advertised,
     spec_lease topic type latched queue advertised (cache_of demo_registry) =
     match lease topic type latched queue advertised demo_registry with
     | Ok (p, handle, reg) => Ok (handle, cache_of reg)
     | Err x => Err x
     end) ∧
  (∀ topic p committed, (topic, p) ∈ [("/a", 0%nat); ("/a", 0%nat)] →
     cache_of (release topic p committed demo_registry) =
     if bool_decide (entries_ demo_registry !! topic = Some p)
     then spec_release topic committed (cache_of demo_registry) else cache_of demo_registry) ∧
  (∀ current, spec_refresh current (cache_of demo_registry) =
     ((refresh current demo_registry).1, cache_of (refresh current demo_registry).2)) ∧
  (∀ answer, spec_probe answer (cache_of demo_registry) =
     ((probeMasterBinding answer demo_registry).1,
      cache_of (probeMasterBinding answer demo_registry).2)) ∧
  cache_of (clear demo_registry) = set_slots (cache_of demo_registry) ∅.
Proof.
  apply (registry_refines_cache 2 (MkLeased demo_registry [("/a", 0%nat); ("/a", 0%nat)])); [lia|].
  exact demo_registry_reachable.
Defined.
