(* ===== verification/Regex.v ===== *)
(** * Regular expressions

    [std::regex] with the ECMAScript grammar, as far as the patterns of the
    program use it: character classes, literals, sequences, alternatives and
    repetitions.  [matches] is the language of an expression; [regex_match]
    decides it by Brzozowski derivatives, one character at a time.  [regex_match]
    of the library compares the whole text, so the anchors of the patterns have no
    term here. *)

From S2P Require Import Prelude Bytes.

Inductive regex :=
| Nothing
| Epsilon
| Class_ (member : byte → bool)
| Seq (r1 r2 : regex)
| Alt (r1 r2 : regex)
| Star (r : regex).

Inductive matches : regex → list byte → Prop :=
| m_epsilon : matches Epsilon []
| m_class p c : p c = true → matches (Class_ p) [c]
| m_seq r1 r2 l1 l2 : matches r1 l1 → matches r2 l2 → matches (Seq r1 r2) (l1 ++ l2)
| m_alt_l r1 r2 l : matches r1 l → matches (Alt r1 r2) l
| m_alt_r r1 r2 l : matches r2 l → matches (Alt r1 r2) l
| m_star_nil r : matches (Star r) []
| m_star_cons r l1 l2 : matches r l1 → matches (Star r) l2 → matches (Star r) (l1 ++ l2).

(** ** Derived forms *)

Definition Char (c : byte) : regex := Class_ (λ c', bool_decide (c' = c)).
Fixpoint Literal_ (l : list byte) : regex :=
  match l with [] => Epsilon | c :: l => Seq (Char c) (Literal_ l) end.
Definition Literal (s : string) : regex := Literal_ (string_bytes s).
Definition Plus (r : regex) : regex := Seq r (Star r).
Definition Opt (r : regex) : regex := Alt Epsilon r.
(** [r{n}] and [r{1,n}] *)
Fixpoint Times (n : nat) (r : regex) : regex :=
  match n with O => Epsilon | S n => Seq r (Times n r) end.
Fixpoint AtMost (n : nat) (r : regex) : regex :=
  match n with O => Epsilon | S n => Opt (Seq r (AtMost n r)) end.
Definition OneTo (n : nat) (r : regex) : regex := Seq r (AtMost (n - 1) r).

(** ** Deciding *)

Fixpoint nullable (r : regex) : bool :=
  match r with
  | Nothing | Class_ _ => false
  | Epsilon | Star _ => true
  | Seq r1 r2 => nullable r1 && nullable r2
  | Alt r1 r2 => nullable r1 || nullable r2
  end.

(** Sequences and alternatives with the empty language removed. *)
Definition seq_ (r1 r2 : regex) : regex :=
  match r1 with Nothing => Nothing | _ => Seq r1 r2 end.
Definition alt_ (r1 r2 : regex) : regex :=
  match r1, r2 with Nothing, r2 => r2 | r1, Nothing => r1 | _, _ => Alt r1 r2 end.

Fixpoint derive (c : byte) (r : regex) : regex :=
  match r with
  | Nothing | Epsilon => Nothing
  | Class_ p => if p c then Epsilon else Nothing
  | Seq r1 r2 =>
      if nullable r1 then alt_ (seq_ (derive c r1) r2) (derive c r2)
      else seq_ (derive c r1) r2
  | Alt r1 r2 => alt_ (derive c r1) (derive c r2)
  | Star r1 => seq_ (derive c r1) (Star r1)
  end.

Fixpoint regex_match_bytes (l : list byte) (r : regex) : bool :=
  match l with
  | [] => nullable r
  | c :: l => regex_match_bytes l (derive c r)
  end.
Definition regex_match (s : string) (r : regex) : bool := regex_match_bytes (string_bytes s) r.

(** ** The language of each form *)

Lemma matches_nothing l : ¬ matches Nothing l.
Proof. inversion 1. Qed.

Lemma matches_epsilon l : matches Epsilon l ↔ l = [].
Proof. split; [by inversion 1|intros ->; constructor]. Qed.

Lemma matches_class p l : matches (Class_ p) l ↔ ∃ c, l = [c] ∧ p c = true.
Proof. split; [inversion 1; eauto|intros (c & -> & ?); by constructor]. Qed.

Lemma matches_seq r1 r2 l :
  matches (Seq r1 r2) l ↔ ∃ l1 l2, l = l1 ++ l2 ∧ matches r1 l1 ∧ matches r2 l2.
Proof. split; [inversion 1; eauto 6|intros (l1 & l2 & -> & ? & ?); by constructor]. Qed.

Lemma matches_alt r1 r2 l : matches (Alt r1 r2) l ↔ matches r1 l ∨ matches r2 l.
Proof. split; [inversion 1; auto|intros [?|?]; [by apply m_alt_l|by apply m_alt_r]]. Qed.

Lemma matches_star r l :
  matches (Star r) l ↔ ∃ ls, l = concat ls ∧ Forall (matches r) ls.
Proof.
  split.
  - remember (Star r) as s eqn:Hs. induction 1 as [| | | | | |r' l1 l2 H1 _ H2 IH]; try done.
    + by exists [].
    + destruct (IH Hs) as (ls & -> & Hls). injection Hs as ->. exists (l1 :: ls). split; [done|]. by constructor.
  - intros (ls & -> & Hls). induction Hls; cbn; by constructor.
Qed.

Lemma matches_char c l : matches (Char c) l ↔ l = [c].
Proof.
  unfold Char. rewrite matches_class. split.
  - intros (c' & -> & ->%bool_decide_eq_true). done.
  - intros ->. exists c. by rewrite bool_decide_true.
Qed.

Lemma matches_literal s l : matches (Literal s) l ↔ l = string_bytes s.
Proof.
  unfold Literal. revert l. induction (string_bytes s) as [|c cs IH]; intros l; cbn.
  - apply matches_epsilon.
  - rewrite matches_seq. split.
    + intros (l1 & l2 & -> & ->%matches_char & ->%IH). done.
    + intros ->. exists [c], cs. by rewrite matches_char, IH.
Qed.

Lemma matches_opt r l : matches (Opt r) l ↔ l = [] ∨ matches r l.
Proof. unfold Opt. by rewrite matches_alt, matches_epsilon. Qed.

Lemma matches_star_class p l : matches (Star (Class_ p)) l ↔ Forall (λ c, p c = true) l.
Proof.
  rewrite matches_star. split.
  - intros (ls & -> & Hls). apply Forall_concat. eapply Forall_impl; [exact Hls|].
    intros l' (c & -> & Hc)%matches_class. by repeat constructor.
  - intros Hl. exists ((λ c, [c]) <$> l). split.
    + induction Hl; cbn; congruence.
    + apply Forall_fmap. eapply Forall_impl; [exact Hl|]. intros c Hc. by constructor.
Qed.

Lemma matches_plus_class p l :
  matches (Plus (Class_ p)) l ↔ l ≠ [] ∧ Forall (λ c, p c = true) l.
Proof.
  unfold Plus. rewrite matches_seq. split.
  - intros (l1 & l2 & -> & (c & -> & Hc)%matches_class & Hl%matches_star_class). split; [done|].
    by constructor.
  - intros [Hne Hl]. destruct Hl as [|c l Hc Hl]; [done|].
    exists [c], l. rewrite matches_class, matches_star_class. eauto.
Qed.

Lemma matches_times_class n p l :
  matches (Times n (Class_ p)) l ↔ length l = n ∧ Forall (λ c, p c = true) l.
Proof.
  revert l. induction n as [|n IH]; intros l; cbn [Times].
  - rewrite matches_epsilon. split; [intros ->; by split|]. intros [?%nil_length_inv _]. done.
  - rewrite matches_seq. split.
    + intros (l1 & l2 & -> & (c & -> & Hc)%matches_class & [<- Hl]%IH). split; [done|].
      by constructor.
    + intros [Hlen Hl]. destruct Hl as [|c l Hc Hl]; [done|]. injection Hlen as Hlen.
      exists [c], l. rewrite matches_class, IH. split; [done|]. split; [by exists c|]. by split.
Qed.

Lemma matches_atmost_class n p l :
  matches (AtMost n (Class_ p)) l ↔ (length l <= n)%nat ∧ Forall (λ c, p c = true) l.
Proof.
  revert l. induction n as [|n IH]; intros l; cbn [AtMost].
  - rewrite matches_epsilon. split; [intros ->; by split|]. intros [? _]. by apply nil_length_inv; lia.
  - rewrite matches_opt, matches_seq. split.
    + intros [->|(l1 & l2 & -> & (c & -> & Hc)%matches_class & [Hlen Hl]%IH)].
      * split; [cbn; lia|done].
      * split; [cbn; lia|]. by constructor.
    + intros [Hlen Hl]. destruct Hl as [|c l Hc Hl]; [by left|right]. cbn in Hlen.
      exists [c], l. rewrite matches_class, IH. split; [done|]. split; [eauto|]. split; [lia|done].
Qed.

Lemma matches_oneto_class n p l :
  (0 < n)%nat →
  matches (OneTo n (Class_ p)) l ↔ (1 <= length l <= n)%nat ∧ Forall (λ c, p c = true) l.
Proof.
  intros Hn. unfold OneTo. rewrite matches_seq. split.
  - intros (l1 & l2 & -> & (c & -> & Hc)%matches_class & [Hlen Hl]%matches_atmost_class).
    split; [cbn; lia|]. by constructor.
  - intros [Hlen Hl]. destruct Hl as [|c l Hc Hl]; [cbn in Hlen; lia|]. cbn in Hlen.
    exists [c], l. rewrite matches_class, matches_atmost_class. split; [done|]. split; [eauto|].
    split; [lia|done].
Qed.

(** ** The decision procedure is right *)

Lemma nullable_spec r : nullable r = true ↔ matches r [].
Proof.
  induction r as [| |p|r1 IH1 r2 IH2|r1 IH1 r2 IH2|r IH]; cbn.
  - split; [done|]. by intros ?%matches_nothing.
  - split; [constructor|done].
  - split; [done|]. by intros (c & ? & _)%matches_class.
  - rewrite andb_true_iff, IH1, IH2, matches_seq. split.
    + intros [? ?]. by exists [], [].
    + intros (l1 & l2 & [-> ->]%eq_sym%app_eq_nil & ? & ?). done.
  - by rewrite orb_true_iff, IH1, IH2, matches_alt.
  - split; [constructor|done].
Qed.

Lemma matches_seq_ r1 r2 l : matches (seq_ r1 r2) l ↔ matches (Seq r1 r2) l.
Proof.
  destruct r1; try done. cbn. rewrite matches_seq. split; [by intros ?%matches_nothing|].
  by intros (l1 & l2 & _ & ?%matches_nothing & _).
Qed.

Lemma matches_alt_ r1 r2 l : matches (alt_ r1 r2) l ↔ matches (Alt r1 r2) l.
Proof.
  rewrite matches_alt. pose proof (matches_nothing l) as Hn.
  destruct r1, r2; cbn; rewrite ?matches_alt; tauto.
Qed.

Lemma matches_cons_app r1 r2 c l :
  matches (Seq r1 r2) (c :: l) ↔
  (matches r1 [] ∧ matches r2 (c :: l)) ∨
  (∃ l1 l2, l = l1 ++ l2 ∧ matches r1 (c :: l1) ∧ matches r2 l2).
Proof.
  rewrite matches_seq. split.
  - intros ([|c' l1] & l2 & E & H1 & H2); cbn in E; [subst; by left|].
    injection E as -> ->. right. eauto.
  - intros [[H1 H2]|(l1 & l2 & -> & H1 & H2)]; [by exists [], (c :: l)|by exists (c :: l1), l2].
Qed.

Lemma matches_star_step r c l :
  matches (Star r) (c :: l) ↔ ∃ l1 l2, l = l1 ++ l2 ∧ matches r (c :: l1) ∧ matches (Star r) l2.
Proof.
  split.
  - remember (Star r) as s eqn:Hs. remember (c :: l) as cl eqn:Hcl. intros Hm. revert Hs Hcl.
    induction Hm as [| | | | | |r' l1 l2 H1 _ H2 IH]; try done. intros [= ->] E.
    destruct l1 as [|c' l1]; cbn in E; [by apply IH|]. injection E as -> <-. by exists l1, l2.
  - intros (l1 & l2 & -> & H1 & H2). by apply (m_star_cons r (c :: l1) l2).
Qed.

Lemma derive_spec c r l : matches (derive c r) l ↔ matches r (c :: l).
Proof.
  revert l. induction r as [| |p|r1 IH1 r2 IH2|r1 IH1 r2 IH2|r IH]; intros l; cbn.
  - split; by intros ?%matches_nothing.
  - split; [by intros ?%matches_nothing|by intros ?%matches_epsilon].
  - rewrite matches_class. destruct (p c) eqn:Hp.
    + rewrite matches_epsilon. split; [intros ->; by exists c|]. by intros (c' & [= -> ->] & _).
    + split; [by intros ?%matches_nothing|]. intros (c' & [= <- ->] & Hc). congruence.
  - assert (matches (seq_ (derive c r1) r2) l ↔
            ∃ l1 l2, l = l1 ++ l2 ∧ matches r1 (c :: l1) ∧ matches r2 l2) as Hs.
    { rewrite matches_seq_, matches_seq. by setoid_rewrite IH1. }
    rewrite matches_cons_app, <- nullable_spec. destruct (nullable r1).
    + rewrite matches_alt_, matches_alt, Hs, IH2. tauto.
    + rewrite Hs. naive_solver.
  - by rewrite matches_alt_, !matches_alt, IH1, IH2.
  - rewrite matches_seq_, matches_seq, matches_star_step. by setoid_rewrite IH.
Qed.

Lemma regex_match_bytes_spec l r : regex_match_bytes l r = true ↔ matches r l.
Proof.
  revert r. induction l as [|c l IH]; intros r; cbn; [apply nullable_spec|].
  by rewrite IH, derive_spec.
Qed.

Lemma regex_match_spec s r : regex_match s r = true ↔ matches r (string_bytes s).
Proof. apply regex_match_bytes_spec. Qed.

(** ** A capturing group

    [std::smatch] for a pattern [before (group) after]: the text of the group.
    The patterns of the program have at most one way to match. *)

Definition splits (l : list byte) : list (list byte * list byte) :=
  (λ n, (take n l, drop n l)) <$> seq 0 (S (length l)).

Definition captures (before group after : regex) (s : string) : list string :=
  '(l1, l) ← splits (string_bytes s);
  if negb (regex_match_bytes l1 before) then []
  else '(l2, l3) ← splits l;
       if regex_match_bytes l2 group && regex_match_bytes l3 after
       then [bytes_string l2] else [].

Definition regex_capture (before group after : regex) (s : string) : option string :=
  head (captures before group after s).

Lemma elem_of_splits l l1 l2 : (l1, l2) ∈ splits l ↔ l = l1 ++ l2.
Proof.
  unfold splits. rewrite list_elem_of_fmap. split.
  - intros (n & [= -> ->] & _). by rewrite take_drop.
  - intros ->. exists (length l1). rewrite take_app_length, drop_app_length. split; [done|].
    apply elem_of_seq. rewrite length_app. lia.
Qed.

Lemma head_Some_elem {A} (l : list A) x : head l = Some x → x ∈ l.
Proof. destruct l; [done|]. intros [= ->]. by left. Qed.

Lemma elem_of_captures before group after s g :
  g ∈ captures before group after s ↔
  ∃ l1 l2 l3, string_bytes s = l1 ++ l2 ++ l3 ∧ g = bytes_string l2 ∧
    matches before l1 ∧ matches group l2 ∧ matches after l3.
Proof.
  unfold captures. rewrite list_elem_of_bind. split.
  - intros ([l1 l] & Hg & Hs%elem_of_splits). rewrite Hs.
    destruct (negb (regex_match_bytes l1 before)) eqn:H1; [by apply elem_of_nil in Hg|].
    apply negb_false_iff, regex_match_bytes_spec in H1.
    apply list_elem_of_bind in Hg as ([l2 l3] & Hg & ->%elem_of_splits).
    destruct (_ && _) eqn:H2; [|by apply elem_of_nil in Hg]. apply list_elem_of_singleton in Hg as ->.
    apply andb_true_iff in H2 as [H2%regex_match_bytes_spec H3%regex_match_bytes_spec].
    by exists l1, l2, l3.
  - intros (l1 & l2 & l3 & Hs & -> & H1 & H2 & H3). exists (l1, l2 ++ l3).
    rewrite elem_of_splits. split; [|done]. rewrite (proj2 (regex_match_bytes_spec _ _) H1). cbn [negb].
    apply list_elem_of_bind. exists (l2, l3). rewrite elem_of_splits. split; [|done].
    rewrite (proj2 (regex_match_bytes_spec _ _) H2), (proj2 (regex_match_bytes_spec _ _) H3).
    by apply list_elem_of_singleton.
Qed.

Lemma regex_capture_Some before group after s g :
  regex_capture before group after s = Some g →
  ∃ l1 l2 l3, string_bytes s = l1 ++ l2 ++ l3 ∧ g = bytes_string l2 ∧
    matches before l1 ∧ matches group l2 ∧ matches after l3.
Proof. intros Hg%head_Some_elem. by apply elem_of_captures in Hg. Qed.

Lemma regex_capture_is_Some before group after s l1 l2 l3 :
  string_bytes s = l1 ++ l2 ++ l3 → matches before l1 → matches group l2 → matches after l3 →
  is_Some (regex_capture before group after s).
Proof.
  intros Hs H1 H2 H3. unfold regex_capture.
  assert (bytes_string l2 ∈ captures before group after s) as Hin.
  { apply elem_of_captures. eauto 10. }
  destruct (captures before group after s); [by apply elem_of_nil in Hin|]. eauto.
Qed.
