(* ===== verification/Validation.v ===== *)
(** * Validation of requests and configurations (src/tools_adapter.cpp)

    The limits and patterns of the adapter, the checks on the fields of a JSON
    request, and the checks on ROS names, ROS types and host names.  JsonCpp's
    reader, roscpp's name validation and [inet_pton] are parameters. *)

From Stdlib Require Import SpecFloat.
From S2P Require Import Prelude Bytes Errors Floats Decimal Libraries Regex.
Local Open Scope Z_scope.

Definition kMaximumQueueSize : Z := 10000.
Definition kMaximumPublishCount : Z := 10000.
(** The doubles 0.1, 1000.0 and 240.0. *)
Definition kMinimumPublishRateHz : double := S754_finite false 7205759403792794 (-56).
Definition kMaximumPublishRateHz : double := S754_finite false 8796093022208000 (-43).
Definition kMaximumPublishDurationSeconds : double := S754_finite false 8444249301319680 (-45).
Definition kMaximumWaitMilliseconds : Z := 300000.
Definition kMaximumConfigurationBytes : Z := 16 * 1024.
Definition kMaximumMasterUriBytes : Z := 2048.
Definition kMaximumNetworkIdentityBytes : Z := 255.
Definition kMaximumRosNameBytes : Z := 4096.
Definition kMaximumRosTypeBytes : Z := 512.

(** ** Character classes and patterns *)

Definition between (lo hi c : byte) : bool :=
  (byte_val lo <=? byte_val c) && (byte_val c <=? byte_val hi).
Definition is_alpha (c : byte) : bool := between "A" "Z" c || between "a" "z" c.
(** [std::isalnum] in the C locale *)
Definition isalnum (c : byte) : bool := is_alpha c || is_digit c.
Definition word_char (c : byte) : bool := isalnum c || bool_decide (c = "_"%char).
Definition uri_char (c : byte) : bool :=
  isalnum c || bool_decide (c ∈ ["."%char; "_"%char; "~"%char; "-"%char]).
Definition address_char (c : byte) : bool :=
  is_digit c || between "A" "F" c || between "a" "f" c || bool_decide (c = ":"%char).
Definition lower_hex (c : byte) : bool := is_digit c || between "a" "f" c.

(** [[A-Za-z][A-Za-z0-9_]*] *)
Definition identifier : regex := Seq (Class_ is_alpha) (Star (Class_ word_char)).

Definition rosTypePattern : regex := Seq identifier (Seq (Char "/") identifier).

Definition absoluteRosNamePattern : regex :=
  Seq (Char "/") (Seq identifier (Star (Seq (Char "/") identifier))).

(** The pattern up to the port, the port, and the rest. *)
Definition masterUriHost : regex :=
  Seq (Literal "http://")
    (Seq (Alt (Plus (Class_ uri_char))
              (Seq (Char "[") (Seq (Plus (Class_ address_char)) (Char "]"))))
         (Char ":")).
Definition masterUriPort : regex := OneTo 5 (Class_ is_digit).
Definition masterUriEnd : regex := Opt (Char "/").

Definition canonicalScopeKeyPattern : regex :=
  Seq (Literal "sha256:") (Times 64 (Class_ lower_hex)).

(** ** Fields of a JSON request *)

(** What the adapter asks of JsonCpp's reader and writer, of roscpp's
    [names::validate] ([Some error] when the name is not valid) and of
    [inet_pton]. *)
Class AdapterLibraries (J : Type) := {
  strict_parse : string → result string J;    (* CharReader::parse, strict *)
  writeString : J → fallible string;          (* Json::writeString, compact *)
  names_validate : string → option string;
  inet_pton_v4 : string → bool;
  inet_pton_v6 : string → bool
}.

(** JsonCpp throws none of this program's own exceptions. *)
Class AdapterLibrariesLaws (J : Type) `{!AdapterLibraries J} := {
  writeString_foreign value : fails_with foreign (writeString value)
}.

(** [std::to_string(double)]: the exact value with six decimals, rounded half to
    even. *)
Definition to_string_micros (n : Z) : string :=
  to_string (n / 1000000) +:+ "." +:+
  bytes_string (drop 1 (to_digits (1000000 + n mod 1000000))).

Definition round_half_even (n d : Z) : Z :=
  let q := n / d in
  let r := n mod d in
  if (2 * r <? d) || ((2 * r =? d) && Z.even q) then q else q + 1.

Definition to_string_double (x : double) : string :=
  match x with
  | S754_zero s => (if s : bool then "-" else "") +:+ "0.000000"
  | S754_infinity s => (if s : bool then "-" else "") +:+ "inf"
  | S754_nan => "nan"
  | S754_finite s m e =>
      (if s then "-" else "") +:+
      to_string_micros
        (if 0 <=? e then Zpos m * 2 ^ e * 1000000
         else round_half_even (Zpos m * 1000000) (2 ^ (- e)))
  end.

Section fields.
Context {J : Type} `{JsonCpp J} `{!AdapterLibraries J}.

Fixpoint reject_unknown (members : list string) (allowed : list string) : fallible unit :=
  match members with
  | [] => Ok tt
  | member :: members =>
      throw_if (negb (bool_decide (member ∈ allowed)))
        (permanentError "invalid_request" ("unknown request field '" +:+ member +:+ "'"));;
      reject_unknown members allowed
  end.

Definition rejectUnknownFields (request : J) (allowed : list string) : fallible unit :=
  reject_unknown (getMemberNames request) allowed.

Definition requireObject (value : J) (field : string) : fallible unit :=
  throw_if (negb (isObject value))
    (permanentError "invalid_request" (field +:+ " must be a JSON object")).

Definition requiredString (request : J) (field : string) : fallible string :=
  throw_if (negb (isMember request field) || negb (isString (at_key request field))
            || bool_decide (asString (at_key request field) = ""))
    (permanentError "invalid_request" (field +:+ " must be a non-empty string"));;
  Ok (asString (at_key request field)).

Definition requiredPossiblyEmptyString (request : J) (field : string) : fallible string :=
  throw_if (negb (isMember request field) || negb (isString (at_key request field)))
    (permanentError "invalid_configuration" (field +:+ " must be a string"));;
  Ok (asString (at_key request field)).

Definition requiredBool (request : J) (field : string) : fallible bool :=
  throw_if (negb (isMember request field) || negb (isBool (at_key request field)))
    (permanentError "invalid_request" (field +:+ " must be a boolean"));;
  Ok (asBool (at_key request field)).

Definition requiredUInt (request : J) (field : string) (minimum maximum : Z) : fallible Z :=
  throw_if (negb (isMember request field))
    (permanentError "invalid_request" (field +:+ " is required"));;
  let value := at_key request field in
  throw_if (negb (isIntegral value) || (isInt64 value && (asInt64 value <? 0)))
    (permanentError "invalid_request" (field +:+ " must be an unsigned integer"));;
  let parsed := asUInt64 value in
  throw_if ((parsed <? minimum) || (parsed >? maximum))
    (permanentError "invalid_request"
       (field +:+ " must be between " +:+ to_string minimum +:+ " and " +:+ to_string maximum));;
  Ok (u32 parsed).

Definition requiredNumber (request : J) (field : string) (minimum maximum : double)
    : fallible double :=
  throw_if (negb (isMember request field) || negb (isNumeric (at_key request field)))
    (permanentError "invalid_request" (field +:+ " must be a number"));;
  let parsed := asDouble (at_key request field) in
  throw_if (negb (is_finite parsed) || SFltb parsed minimum || SFltb maximum parsed)
    (permanentError "invalid_request"
       (field +:+ " must be between " +:+ to_string_double minimum +:+ " and " +:+
        to_string_double maximum));;
  Ok parsed.

Definition validateAbsoluteRosName (value field : string) : fallible unit :=
  throw_if (bool_decide (value = "") || (Z.of_nat (String.length value) >? kMaximumRosNameBytes)
            || bool_decide (value = "/")
            || negb (bool_decide (head (string_bytes value) = Some "/"%char))
            || negb (regex_match value absoluteRosNamePattern))
    (permanentError "invalid_ros_name" (field +:+ " must be an absolute ROS1 graph name"));;
  match names_validate value with
  | Some validation_error =>
      Err (permanentError "invalid_ros_name"
             (field +:+ " is not a valid ROS1 graph name: " +:+ validation_error))
  | None => Ok tt
  end.

Definition validateRosType (value field : string) : fallible unit :=
  throw_if ((Z.of_nat (String.length value) >? kMaximumRosTypeBytes)
            || negb (regex_match value rosTypePattern))
    (permanentError "invalid_ros_type" (field +:+ " must use package/Type syntax")).

Definition parseStrictJson (input description : string) : fallible J :=
  match strict_parse input with
  | Ok value => Ok value
  | Err parse_errors =>
      Err (permanentError "invalid_json"
             (description +:+ " is not strict JSON: " +:+ parse_errors))
  end.

Definition writeJson (value : J) : fallible string := writeString value.

Definition validateIpAddress (value : string) : fallible unit :=
  if bool_decide (value = "") then Ok tt
  else
    throw_if (negb (inet_pton_v4 value) && negb (inet_pton_v6 value))
      (permanentError "invalid_configuration" "rosIp must be an IPv4 or IPv6 address").
End fields.

Definition validateNoControlCharacters (value field : string) : fallible unit :=
  throw_if (existsb (λ c, (byte_val c <? 32) || (byte_val c =? 127)) (string_bytes value))
    (permanentError "invalid_configuration" (field +:+ " must not contain control characters")).

Definition validateLength (value : string) (maximum : Z) (field : string) : fallible unit :=
  throw_if (Z.of_nat (String.length value) >? maximum)
    (permanentError "invalid_configuration" (field +:+ " exceeds its maximum encoded length")).

(** ** Host names *)

(** [value.find(c, from)] *)
Definition find_char (c : byte) (value : list byte) (from : nat) : option nat :=
  (λ i, from + i.1)%nat <$> list_find (λ c', c' = c) (drop from value).

Definition label_char (c : byte) : bool :=
  isalnum c || bool_decide (c = "-"%char) || bool_decide (c = "_"%char).

Definition at_alnum (value : list byte) (i : nat) : bool :=
  match value !! i with Some c => isalnum c | None => false end.

Definition bad_label (value : list byte) (label_start label_end : nat) : bool :=
  let label_size := (label_end - label_start)%nat in
  Nat.eqb label_size 0 || Nat.ltb 63 label_size
  || negb (at_alnum value label_start)
  || negb (at_alnum value (label_end - 1))
  || negb (forallb label_char (take label_size (drop label_start value))).

Definition label_error : exn :=
  permanentError "invalid_configuration" "rosHostname must contain valid DNS-style labels".

(** The [while] loop; each turn moves [label_start] forward. *)
Fixpoint hostname_labels (fuel : nat) (value : list byte) (effective_size label_start : nat)
    : fallible unit :=
  match fuel with
  | O => Err OtherExn
  | S fuel =>
      if negb (Nat.ltb label_start effective_size) then Ok tt
      else
        let separator := find_char "." value label_start in
        let label_end := default effective_size separator in
        throw_if (bad_label value label_start label_end) label_error;;
        match separator with
        | None => Ok tt
        | Some separator =>
            if Nat.leb effective_size separator then Ok tt
            else hostname_labels fuel value effective_size (separator + 1)
        end
  end.

Definition validateHostname (value : string) : fallible unit :=
  if bool_decide (value = "") then Ok tt
  else
    let bytes := string_bytes value in
    let effective_size :=
      if bool_decide (last bytes = Some "."%char) then (length bytes - 1)%nat
      else length bytes in
    throw_if (Nat.eqb effective_size 0)
      (permanentError "invalid_configuration" "rosHostname is invalid");;
    hostname_labels (S (length bytes)) bytes effective_size 0.
