(* ===== verification/ValidationLemmas.v ===== *)
(** * What the validators accept

    Grammars of the accepted host names, ROS names, ROS types and master URIs,
    and the ranges of the numeric fields. *)

From Stdlib Require Import SpecFloat.
From S2P Require Import Prelude Bytes Errors Floats Decimal Libraries Instances Regex Validation.
Local Open Scope Z_scope.

(** ** Host names *)

Definition first_last_alnum (label : list byte) : Prop :=
  ∃ c d, head label = Some c ∧ last label = Some d ∧ isalnum c = true ∧ isalnum d = true.

(** A label of one to 63 letters, digits, hyphens and underscores that begins and
    ends with a letter or digit. *)
Definition valid_label (label : list byte) : Prop :=
  (length label <= 63)%nat ∧ first_last_alnum label ∧ Forall (λ c, label_char c = true) label.

Fixpoint join_labels (labels : list (list byte)) : list byte :=
  match labels with
  | [] => []
  | [label] => label
  | label :: labels => label ++ "."%char :: join_labels labels
  end.

(** Labels joined by dots, with at most two dots behind them. *)
Definition dotted_labels (l : list byte) : Prop :=
  ∃ labels dots, labels ≠ [] ∧ Forall valid_label labels ∧ (dots <= 2)%nat ∧
    l = join_labels labels ++ replicate dots "."%char.

Lemma valid_label_no_dot label : valid_label label → "."%char ∉ label.
Proof.
  intros (_ & _ & Hall) Hin. rewrite Forall_forall in Hall. by apply Hall in Hin.
Qed.

Lemma valid_label_nonempty label : valid_label label → label ≠ [].
Proof. by intros (_ & (c & d & ? & _) & _) ->. Qed.

(** Splitting at the first dot is unique. *)
Lemma first_dot_unique (l1 l2 r1 r2 : list byte) :
  "."%char ∉ l1 → "."%char ∉ l2 → l1 ++ "."%char :: r1 = l2 ++ "."%char :: r2 → l1 = l2 ∧ r1 = r2.
Proof.
  revert l2. induction l1 as [|c l1 IH]; intros [|c' l2] H1 H2 E; cbn in E.
  - by injection E.
  - injection E as <- _. exfalso. apply H2. by left.
  - injection E as -> _. exfalso. apply H1. by left.
  - injection E as -> E. apply IH in E as [-> ->]; [done|set_solver..].
Qed.

Lemma dotted_nodot l : "."%char ∉ l → dotted_labels l ↔ valid_label l.
Proof.
  intros Hl. split.
  - intros (labels & dots & Hne & Hv & _ & ->). destruct dots; [|set_solver].
    destruct Hv as [|label [|label' labels] Hlabel Hv]; [done| |].
    + by rewrite app_nil_r.
    + exfalso. apply Hl. cbn. set_solver.
  - intros Hv. exists [l], 0%nat. split; [done|]. split; [by constructor|]. split; [lia|].
    by rewrite app_nil_r.
Qed.

Lemma dotted_dot label rest :
  "."%char ∉ label →
  dotted_labels (label ++ "."%char :: rest) ↔
  valid_label label ∧ (rest = [] ∨ rest = ["."%char] ∨ dotted_labels rest).
Proof.
  intros Hl. split.
  - intros (labels & dots & Hne & Hv & Hdots & E).
    destruct Hv as [|l' [|l'' labels] Hl' Hv]; [done| |]; cbn [join_labels] in E.
    + destruct dots as [|dots]; cbn in E.
      { rewrite app_nil_r in E. exfalso. apply (valid_label_no_dot l'); [done|].
        rewrite <- E. set_solver. }
      apply first_dot_unique in E as [<- ->]; [|done|by apply valid_label_no_dot].
      split; [done|]. destruct dots as [|[|dots]]; [by left|by right; left|lia].
    + rewrite <- app_assoc in E. cbn in E.
      apply first_dot_unique in E as [<- ->]; [|done|by apply valid_label_no_dot].
      split; [done|]. right. right. by exists (l'' :: labels), dots.
  - intros [Hv [->|[->|(labels & dots & Hne & Hvs & Hdots & ->)]]].
    + exists [label], 1%nat. split; [done|]. split; [by constructor|]. split; [lia|done].
    + exists [label], 2%nat. split; [done|]. split; [by constructor|]. split; [lia|done].
    + exists (label :: labels), dots. split; [done|]. split; [by constructor|]. split; [done|].
      destruct labels; [done|]. cbn. by rewrite <- app_assoc.
Qed.

Lemma last_lookup_end {A} (l : list A) : last l = l !! (length l - 1)%nat.
Proof. rewrite last_lookup. f_equal. lia. Qed.

(** The test of the loop on the slice it looks at. *)
Lemma bad_label_spec value start label rest :
  drop start value = label ++ rest →
  bad_label value start (start + length label) = false ↔ valid_label label.
Proof.
  intros Hd. unfold bad_label, at_alnum.
  replace (start + length label - start)%nat with (length label) by lia.
  rewrite Hd, take_app_length, !orb_false_iff, !negb_false_iff.
  assert (∀ i, value !! (start + i)%nat = (label ++ rest) !! i) as Hlook.
  { intros i. by rewrite <- Hd, lookup_drop. }
  destruct (decide (label = [])) as [->|Hne].
  { cbn. split; [naive_solver|]. by intros ?%valid_label_nonempty. }
  assert (length label ≠ 0%nat) as Hsize by (by rewrite length_zero_iff_nil).
  assert (value !! start = head label) as ->.
  { rewrite <- (Nat.add_0_r start), Hlook. by destruct label. }
  replace (start + length label - 1)%nat with (start + (length label - 1))%nat
    by lia.
  rewrite Hlook, lookup_app_l by lia. rewrite <- last_lookup_end.
  rewrite forallb_forall.
  assert ((∀ x, In x label → label_char x = true) ↔ Forall (λ c, label_char c = true) label) as ->.
  { rewrite Forall_forall. by setoid_rewrite list_elem_of_In. }
  rewrite Nat.eqb_neq, Nat.ltb_ge. unfold valid_label, first_last_alnum.
  destruct (head label) as [a|] eqn:Ha; [|by destruct label].
  destruct (last label) as [b|] eqn:Hb; [|by apply last_None in Hb].
  naive_solver.
Qed.

Lemma find_dot_None c value from :
  find_char c value from = None ↔ c ∉ drop from value.
Proof.
  unfold find_char. rewrite fmap_None, list_find_None, Forall_forall. split.
  - intros Hn Hin. by apply (Hn c).
  - by intros Hn x Hx ->.
Qed.

Lemma find_dot_Some c value from separator :
  find_char c value from = Some separator →
  ∃ label rest, drop from value = (label ++ c :: rest) ∧ (c ∉ label) ∧
    separator = (from + length label)%nat.
Proof.
  unfold find_char. rewrite fmap_Some. intros ([i x] & Hf & ->).
  apply list_find_Some in Hf as (Hi & -> & Hbefore).
  exists (take i (drop from value)), (drop (S i) (drop from value)). split.
  { by rewrite take_drop_middle. }
  split.
  - intros Hin. apply list_elem_of_lookup in Hin as [j Hj].
    apply lookup_take_Some in Hj as [Hj Hlt]. exact (Hbefore _ _ Hj Hlt eq_refl).
  - apply lookup_lt_Some in Hi. cbn. rewrite length_take. lia.
Qed.

(** The part of a non-empty host name the loop covers. *)
Definition effective (value : list byte) : nat :=
  if bool_decide (last value = Some "."%char) then (length value - 1)%nat else length value.

Lemma last_suffix {A} (value suffix : list A) start :
  drop start value = suffix → suffix ≠ [] → last value = last suffix.
Proof.
  intros <- Hne. rewrite <- (take_drop start value) at 1. rewrite last_app.
  destruct (drop start value) as [|x l] eqn:E; [done|].
  destruct (last (x :: l)) eqn:Hl; [done|]. by apply last_None in Hl.
Qed.

Lemma effective_drop value start l :
  drop start value = l → l ≠ [] → effective value = (start + effective l)%nat.
Proof.
  intros Hd Hne. unfold effective. rewrite (last_suffix _ _ _ Hd Hne).
  apply (f_equal length) in Hd. rewrite length_drop in Hd.
  destruct l; [done|]. cbn in Hd |- *. case_bool_decide; lia.
Qed.

Lemma effective_le l : (effective l <= length l)%nat.
Proof. unfold effective. case_bool_decide; lia. Qed.

(** With text behind a separator, the effective part ends after the separator. *)
Lemma effective_dot label rest :
  effective (label ++ "."%char :: rest) =
  (length label + if bool_decide (rest = []) then 0 else S (effective rest))%nat.
Proof.
  rewrite (effective_drop (label ++ "."%char :: rest) (length label) ("."%char :: rest));
    [|by rewrite drop_app_length|done].
  f_equal. case_bool_decide as Hr; [by subst|].
  by rewrite (effective_drop ("."%char :: rest) 1 rest).
Qed.

(** Nothing of a rest is effective when it is a single dot. *)
Lemma effective_zero rest : rest ≠ [] → effective rest = 0%nat ↔ rest = ["."%char].
Proof.
  intros Hne. unfold effective. split; [|by intros ->].
  destruct rest as [|c [|c' rest]]; [done| |]; case_bool_decide as Hl; cbn; try lia.
  cbn in Hl. by injection Hl as ->.
Qed.

Lemma dotted_single_dot : ¬ dotted_labels ["."%char].
Proof.
  intros Hd. apply (dotted_dot [] []) in Hd as [Hv _]; [|by apply not_elem_of_nil].
  by apply valid_label_nonempty in Hv.
Qed.

Lemma hostname_labels_spec fuel value start l :
  drop start value = l → (0 < effective l)%nat → (length l < fuel)%nat →
  hostname_labels fuel value (effective value) start = Ok tt ↔ dotted_labels l.
Proof.
  revert start l. induction fuel as [|fuel IH]; intros start l Hd Hs Hf; [lia|].
  assert (l ≠ []) as Hne by (intros E; pose proof (effective_le l); rewrite E in *; cbn in *; lia). cbn [hostname_labels].
  rewrite (effective_drop value start l Hd Hne).
  rewrite (proj2 (Nat.ltb_lt _ _)) by lia. cbn [negb].
  destruct (find_char "." value start) as [separator|] eqn:Hfind; cbn [default];
    rewrite throw_bind_Ok.
  - apply find_dot_Some in Hfind as (label & rest & Hd' & Hdot & ->).
    rewrite Hd in Hd'. rewrite Hd' in *. clear Hd' l. rewrite dotted_dot, (bad_label_spec _ _ _ _ Hd) by done.
    apply and_iff_compat_l. rewrite effective_dot. case_bool_decide as Hr.
    { rewrite (proj2 (Nat.leb_le _ _)) by lia. tauto. }
    rewrite (proj2 (Nat.leb_gt _ _)) by lia.
    assert (drop (start + length label + 1) value = rest) as Hd'.
    { rewrite <- Nat.add_assoc, <- drop_drop, Hd, <- drop_drop, drop_app_length. done. }
    replace (start + (length label + S (effective rest)))%nat with (effective value)
      by (rewrite (effective_drop _ _ _ Hd' Hr); lia).
    destruct (effective rest) as [|n] eqn:He.
    + apply effective_zero in He as ->; [|done]. split; [tauto|]. intros _.
      destruct fuel; [rewrite length_app in Hf; cbn in Hf; lia|]. cbn [hostname_labels].
      rewrite (effective_drop _ _ _ Hd' Hr).
      by rewrite (proj2 (effective_zero _ Hr) eq_refl), Nat.add_0_r, Nat.ltb_irrefl.
    + rewrite (IH _ rest Hd') by (rewrite ?length_app in Hf; cbn in Hf; lia).
      split; [tauto|]. intros [?|[->|?]]; [done| |done]. done.
  - apply find_dot_None in Hfind. rewrite Hd in Hfind.
    assert (effective l = length l) as ->.
    { unfold effective. rewrite bool_decide_false; [done|].
      intros Hl. by apply last_Some_elem_of in Hl. }
    rewrite (bad_label_spec _ _ l []) by (by rewrite app_nil_r).
    rewrite dotted_nodot by done. tauto.
Qed.

(** A host name is refused with a permanent error; the loop always ends. *)
Lemma hostname_labels_fails fuel value size start :
  (length value - start < fuel)%nat →
  fails_with (λ x, is_permanent x = true) (hostname_labels fuel value size start).
Proof.
  revert start. induction fuel as [|fuel IH]; intros start Hf; [lia|]. cbn [hostname_labels].
  destruct (Nat.ltb start size); [|done]. cbn [negb].
  apply fails_bind; [by apply fails_throw|]. intros _ _.
  destruct (find_char "." value start) as [separator|] eqn:Hfind; [|done].
  destruct (Nat.leb size separator); [done|]. apply IH.
  apply find_dot_Some in Hfind as (label & rest & Hd & _ & ->).
  apply (f_equal length) in Hd. rewrite length_drop, length_app in Hd. cbn in Hd. lia.
Qed.

Lemma hostname_fails value : fails_with (λ x, is_permanent x = true) (validateHostname value).
Proof.
  unfold validateHostname. case_bool_decide; [done|].
  apply fails_bind; [by apply fails_throw|]. intros _ _. apply hostname_labels_fails. lia.
Qed.

Lemma hostname_accepted value :
  validateHostname value = Ok tt ↔ value = "" ∨ dotted_labels (string_bytes value).
Proof.
  unfold validateHostname. case_bool_decide as Hv; [tauto|].
  assert (string_bytes value ≠ []) as Hne.
  { intros E. apply Hv. by rewrite <- (bytes_string_bytes value), E. }
  fold (effective (string_bytes value)). rewrite throw_bind_Ok.
  destruct (effective (string_bytes value)) as [|n] eqn:He; cbn [Nat.eqb].
  - apply effective_zero in He; [|done]. rewrite He. split; [naive_solver|].
    intros [?|?%dotted_single_dot]; done.
  - rewrite <- He, (hostname_labels_spec _ _ 0 (string_bytes value)); [naive_solver|done|lia..].
Qed.

(** C40: a ROS host name is accepted exactly when it is empty, or consists of one or
    more DNS-style labels joined by dots, followed by at most two dots. (One dot is
    the root; the second is accepted as well, see [double_dot_accepted].) *)
Theorem hostname_accepts_exactly value :
  validateHostname value = Ok tt ↔ value = "" ∨ dotted_labels (string_bytes value).
Proof. apply hostname_accepted. Qed.

(** The empty label of a doubled final dot is not rejected; one inside is. *)
Example double_dot_accepted : validateHostname "robot.." = Ok tt.
Proof. vm_compute. reflexivity. Qed.
Example inner_double_dot_rejected : validateHostname "bad..hostname" = Err label_error.
Proof. vm_compute. reflexivity. Qed.

(** ** ROS names and types *)

(** A letter followed by letters, digits and underscores. *)
Definition is_identifier (l : list byte) : Prop :=
  ∃ c rest, l = c :: rest ∧ is_alpha c = true ∧ Forall (λ c, word_char c = true) rest.

Lemma matches_identifier l : matches identifier l ↔ is_identifier l.
Proof.
  unfold identifier. rewrite matches_seq. split.
  - intros (l1 & rest & -> & (c & -> & Hc)%matches_class & Hr%matches_star_class). by exists c, rest.
  - intros (c & rest & -> & Hc & Hr). exists [c], rest.
    rewrite matches_class, matches_star_class. eauto.
Qed.

(** Identifiers, each behind a slash. *)
Definition slashed (ids : list (list byte)) : list byte := concat (cons "/"%char <$> ids).

Lemma matches_slash_identifier l :
  matches (Seq (Char "/") identifier) l ↔ ∃ id, l = "/"%char :: id ∧ is_identifier id.
Proof.
  rewrite matches_seq. split.
  - intros (l1 & id & -> & ->%matches_char & Hid%matches_identifier). by exists id.
  - intros (id & -> & Hid). exists ["/"%char], id. by rewrite matches_char, matches_identifier.
Qed.

Lemma matches_slashed l :
  matches (Star (Seq (Char "/") identifier)) l ↔ ∃ ids, Forall is_identifier ids ∧ l = slashed ids.
Proof.
  rewrite matches_star. split.
  - intros (ls & -> & Hls). induction Hls as [|l ls Hl _ IH]; [by exists []|].
    apply matches_slash_identifier in Hl as (id & -> & Hid). destruct IH as (ids & Hids & E).
    exists (id :: ids). split; [by constructor|]. cbn. by rewrite E.
  - intros (ids & Hids & ->). exists (cons "/"%char <$> ids). split; [done|].
    apply Forall_fmap. eapply Forall_impl; [exact Hids|]. intros id Hid.
    apply matches_slash_identifier. eauto.
Qed.

Lemma matches_rosName l :
  matches absoluteRosNamePattern l ↔
  ∃ ids, ids ≠ [] ∧ Forall is_identifier ids ∧ l = slashed ids.
Proof.
  unfold absoluteRosNamePattern. rewrite matches_seq. setoid_rewrite matches_seq.
  setoid_rewrite matches_slashed. setoid_rewrite matches_identifier. split.
  - intros (l1 & l2 & -> & ->%matches_char & id & l3 & -> & Hid & ids & Hids & ->).
    exists (id :: ids). split; [done|]. by split; [constructor|].
  - intros (ids & Hne & Hids & ->). destruct Hids as [|id ids Hid Hids]; [done|].
    exists ["/"%char], (id ++ slashed ids). split; [done|]. split; [by apply matches_char|].
    exists id, (slashed ids). eauto.
Qed.

Section names.
Context {J : Type} `{JsonCpp J} `{!AdapterLibraries J}.

(** A topic or service name is accepted exactly when it has at most 4096 bytes,
    consists of one or more identifiers each behind a slash, and roscpp accepts
    it. *)
Theorem ros_name_accepts_exactly value field :
  validateAbsoluteRosName value field = Ok tt ↔
  Z.of_nat (String.length value) <= 4096 ∧ names_validate value = None ∧
  ∃ ids, ids ≠ [] ∧ Forall is_identifier ids ∧ string_bytes value = slashed ids.
Proof.
  unfold validateAbsoluteRosName.
  rewrite throw_bind_Ok, !orb_false_iff, !negb_false_iff, !bool_decide_eq_false,
    bool_decide_eq_true, regex_match_spec, matches_rosName, Z.gtb_ltb, Z.ltb_ge.
  change kMaximumRosNameBytes with 4096. split.
  - intros [((((Hne & Hlen) & Hroot) & Hhead) & Hids) Hv].
    split; [done|]. split; [|done]. by destruct (names_validate value).
  - intros (Hlen & Hv & ids & Hne & Hids & E). rewrite Hv. split; [|done].
    destruct Hids as [|id ids Hid Hids]; [done|].
    assert (value ≠ "") by (by intros ->). assert (value ≠ "/").
    { intros ->. destruct Hid as (c & rest & -> & _). done. }
    rewrite E. split; [|eauto]. by repeat split.
Qed.

(** A message or service type is accepted exactly when it has at most 512 bytes
    and is two identifiers separated by a slash. *)
Theorem ros_type_accepts_exactly value field :
  validateRosType value field = Ok tt ↔
  Z.of_nat (String.length value) <= 512 ∧
  ∃ package type, string_bytes value = package ++ "/"%char :: type ∧
    is_identifier package ∧ is_identifier type.
Proof.
  unfold validateRosType. rewrite throw_if_Ok, orb_false_iff, negb_false_iff, regex_match_spec,
    Z.gtb_ltb, Z.ltb_ge. apply and_iff_compat_l. unfold rosTypePattern.
  rewrite matches_seq. setoid_rewrite matches_slash_identifier.
  setoid_rewrite matches_identifier. naive_solver.
Qed.
End names.

(** ** Master URIs *)

Definition uri_host (host : list byte) : Prop :=
  (host ≠ [] ∧ Forall (λ c, uri_char c = true) host) ∨
  (∃ address, host = "["%char :: address ++ ["]"%char] ∧ address ≠ [] ∧
     Forall (λ c, address_char c = true) address).

(** [http://host:port] with an optional slash. *)
Definition master_uri (value : string) (host port : list byte) : Prop :=
  ∃ slash, string_bytes value = string_bytes "http://" ++ host ++ ":"%char :: port ++ slash ∧
    uri_host host ∧ (1 <= length port <= 5)%nat ∧ all_digits port ∧
    (slash = [] ∨ slash = ["/"%char]).

Lemma matches_bracketed l :
  matches (Seq (Char "[") (Seq (Plus (Class_ address_char)) (Char "]"))) l ↔
  ∃ address, l = "["%char :: address ++ ["]"%char] ∧ address ≠ [] ∧
    Forall (λ c, address_char c = true) address.
Proof.
  split.
  - intros (l1 & l2 & -> & ->%matches_char &
            (address & l3 & -> & [Hne Ha]%matches_plus_class & ->%matches_char)%matches_seq)%matches_seq.
    by exists address.
  - intros (address & -> & Hne & Ha). apply (m_seq _ _ ["["%char]); [by apply matches_char|].
    apply m_seq; [by apply matches_plus_class|by apply matches_char].
Qed.

Lemma matches_uri_host l :
  matches masterUriHost l ↔
  ∃ host, l = string_bytes "http://" ++ host ++ [":"%char] ∧ uri_host host.
Proof.
  unfold masterUriHost, uri_host. split.
  - intros (l1 & l2 & -> & ->%matches_literal &
            (host & l3 & -> & Hhost & ->%matches_char)%matches_seq)%matches_seq.
    exists host. split; [done|]. apply matches_alt in Hhost as [Hhost|Hhost].
    + left. by apply matches_plus_class.
    + right. by apply matches_bracketed.
  - intros (host & -> & Hhost). apply m_seq; [by apply matches_literal|].
    apply m_seq; [|by apply matches_char]. apply matches_alt.
    destruct Hhost; [left; by apply matches_plus_class|right; by apply matches_bracketed].
Qed.

Lemma capture_master_uri value port :
  regex_capture masterUriHost masterUriPort masterUriEnd value = Some port →
  ∃ host, master_uri value host (string_bytes port).
Proof.
  intros (l1 & l2 & l3 & E & -> & (host & -> & Hhost)%matches_uri_host & H2 & H3)%regex_capture_Some.
  apply matches_oneto_class in H2 as [Hlen Hd]; [|lia].
  apply matches_opt in H3. rewrite matches_char in H3.
  exists host, l3. rewrite string_bytes_string, E, <- !app_assoc. done.
Qed.

Lemma master_uri_captured value host port :
  master_uri value host port →
  is_Some (regex_capture masterUriHost masterUriPort masterUriEnd value).
Proof.
  intros (slash & E & Hhost & Hlen & Hd & Hslash).
  eapply (regex_capture_is_Some _ _ _ _ (string_bytes "http://" ++ host ++ [":"%char]) port slash).
  - rewrite E, <- !app_assoc. done.
  - apply matches_uri_host. eauto.
  - apply matches_oneto_class; [lia|done].
  - apply matches_opt. by rewrite matches_char.
Qed.

Lemma last_colon_unique (l1 l2 r1 r2 : list byte) :
  ":"%char ∉ r1 → ":"%char ∉ r2 → l1 ++ ":"%char :: r1 = l2 ++ ":"%char :: r2 → l1 = l2 ∧ r1 = r2.
Proof.
  revert l2. induction l1 as [|c l1 IH]; intros [|c' l2] H1 H2 E; cbn in E.
  - by injection E.
  - injection E as _ ->. exfalso. apply H1. set_solver.
  - injection E as _ <-. exfalso. apply H2. set_solver.
  - injection E as -> E. apply IH in E as [-> ->]; done.
Qed.

Lemma all_digits_no c l : all_digits l → is_digit c = false → c ∉ l.
Proof.
  rewrite Forall_forall. intros Hl Hc Hin. apply Hl in Hin. congruence.
Qed.

Lemma slash_unique (p p' s s' : list byte) :
  all_digits p → all_digits p' → s = [] ∨ s = ["/"%char] → s' = [] ∨ s' = ["/"%char] →
  p ++ s = p' ++ s' → p = p'.
Proof.
  intros Hp Hp' Hs Hs' E.
  assert (∀ l, all_digits l → "/"%char ∉ l) as Hno by (intros; by apply all_digits_no).
  destruct Hs as [->| ->], Hs' as [->| ->]; rewrite ?app_nil_r in E; subst.
  - done.
  - exfalso. apply (Hno _ Hp). set_solver.
  - exfalso. apply (Hno _ Hp'). set_solver.
  - by apply app_inj_2 in E as [-> _].
Qed.

(** A master URI determines its host and port. *)
Lemma master_uri_unique value host port host' port' :
  master_uri value host port → master_uri value host' port' → host = host' ∧ port = port'.
Proof.
  intros (s & E & _ & _ & Hp & Hs) (s' & E' & _ & _ & Hp' & Hs'). rewrite E in E'.
  apply app_inv_head in E'.
  assert (∀ p s, all_digits p → s = [] ∨ s = ["/"%char] → ":"%char ∉ p ++ s) as Hno.
  { intros p s0 Hd Hc. apply not_elem_of_app. split; [by apply all_digits_no|].
    destruct Hc; subst; set_solver. }
  apply last_colon_unique in E' as [-> Hport]; [|exact (Hno _ _ Hp Hs)|exact (Hno _ _ Hp' Hs')].
  split; [done|]. exact (slash_unique _ _ _ _ Hp Hp' Hs Hs' Hport).
Qed.

Lemma master_uri_port value host port :
  master_uri value host port →
  regex_capture masterUriHost masterUriPort masterUriEnd value = Some (bytes_string port) ∧
  stoul (bytes_string port) = Ok (digits_value 0 port).
Proof.
  intros Hu. destruct (master_uri_captured _ _ _ Hu) as [p Hp]. split.
  - rewrite Hp. f_equal. destruct (capture_master_uri _ _ Hp) as [host' Hu'].
    destruct (master_uri_unique _ _ _ _ _ Hu Hu') as [_ ->]. by rewrite bytes_string_bytes.
  - destruct Hu as (slash & _ & _ & Hlen & Hd & _). unfold stoul.
    change port with (signed_digits false port) at 1.
    rewrite strto_signed_digits by (done || (intros ->; cbn in Hlen; lia)).
    assert (digits_value 0 port < 10 ^ Z.of_nat (length port)) as Hv.
    { pose proof (digits_value_bound port Hd). lia. }
    assert (10 ^ Z.of_nat (length port) <= 10 ^ 5) by (apply Z.pow_le_mono_r; lia).
    rewrite Z.gtb_ltb, (proj2 (Z.ltb_ge _ _)); [done|]. unfold UINT64_MAX. lia.
Qed.
