(* ===== verification/InstanceSpec.v ===== *)
(** * Instance specifications (src/tools_adapter.cpp)

    The protobuf messages the adapter reads, with the fields it reads and an
    option for a submessage whose presence it tests; the contract compiled into
    the program; and [NativeContext::FromInstanceSpec], which turns a trusted
    instance specification into the identity of this ROS process. *)

From S2P Require Import Prelude Bytes Errors Effects Decimal Libraries Regex Validation.
Local Open Scope Z_scope.

(** ** xgc.v1 and xgc.adapter.v1 messages *)

Record SchemaReference := MkSchemaReference {
  message_id : Z;
  type_name : string;
  schema_version : Z;
  schema_fingerprint : Z
}.
#[export] Instance SchemaReference_eq_dec : EqDecision SchemaReference.
Proof. solve_decision. Defined.

Inductive PayloadEncoding := PAYLOAD_ENCODING_JSON | OtherEncoding (number : Z).
#[export] Instance PayloadEncoding_eq_dec : EqDecision PayloadEncoding.
Proof. solve_decision. Defined.

Record Payload := MkPayload {
  encoding : PayloadEncoding;
  schema : option SchemaReference;
  value : string
}.

(** [ResourceReference] of a scope or a subject *)
Record Scope := MkScope {
  kind : string;
  key : string;
  attributes : gmap string string
}.

Record AdapterInstanceSpec := MkAdapterInstanceSpec {
  configuration : option Payload;
  secrets_size : nat;
  scope : option Scope
}.

(** ** The compiled contract (the generated header generated_contract.hpp) *)

Record Schema := MkSchema {
  sch_message_id : Z;
  sch_type_name : string;
  sch_version : Z;
  sch_fingerprint : Z
}.

Record EndpointLimits := MkEndpointLimits {
  maximum_request_bytes : Z;
  maximum_response_bytes : Z;
  maximum_concurrency : Z;
  maximum_streams : Z;
  maximum_stream_chunk_bytes : Z;
  maximum_stream_chunk_messages : Z
}.
#[export] Instance EndpointLimits_eq_dec : EqDecision EndpointLimits.
Proof. solve_decision. Defined.

Record Endpoint := MkEndpoint {
  ep_capability_id : string;
  ep_contract_version : Z;
  ep_contract_digest : string;
  ep_endpoint_id : string;
  ep_input_schema : Schema;
  ep_output_schema : Schema;
  ep_default_timeout_ms : Z;
  ep_maximum_timeout_ms : Z;
  ep_limits : EndpointLimits
}.

Class Contract := {
  kConfiguration : Schema;
  kPublish : Endpoint;
  kService : Endpoint
}.

Definition schemaReference (source : Schema) : SchemaReference :=
  MkSchemaReference (sch_message_id source) (sch_type_name source) (sch_version source)
    (sch_fingerprint source).

Definition schemaMatches (actual : SchemaReference) (expected : Schema) : bool :=
  (message_id actual =? sch_message_id expected)
  && bool_decide (type_name actual = sch_type_name expected)
  && (schema_version actual =? sch_version expected)
  && (schema_fingerprint actual =? sch_fingerprint expected).

(** ** The native context *)

Record NativeContext := MkNativeContext {
  ros_master_uri : string;
  ros_ip : string;
  ros_hostname : string;
  scope_key : string
}.

Definition context_eqb (context other : NativeContext) : bool :=
  bool_decide (ros_master_uri context = ros_master_uri other)
  && bool_decide (ros_ip context = ros_ip other)
  && bool_decide (ros_hostname context = ros_hostname other)
  && bool_decide (scope_key context = scope_key other).

(** [1 + !ros_ip.empty() + !ros_hostname.empty()] *)
Definition identity_size (ip hostname : string) : nat :=
  (1 + (if bool_decide (ip = "") then 0 else 1) + (if bool_decide (hostname = "") then 0 else 1))%nat.

Section from_spec.
Context {J : Type} `{JsonCpp J} `{!AdapterLibraries J} `{!Contract}.

(** The payload checks. *)
Definition configuration_payload (spec : AdapterInstanceSpec) : fallible Payload :=
  match configuration spec with
  | Some payload =>
      throw_if (negb (bool_decide (encoding payload = PAYLOAD_ENCODING_JSON))
                || negb (match schema payload with
                         | Some actual => schemaMatches actual kConfiguration
                         | None => false
                         end))
        (permanentError "invalid_configuration"
           "instance configuration must use the compiled NativeContext JSON schema");;
      Ok payload
  | None =>
      Err (permanentError "invalid_configuration"
             "instance configuration must use the compiled NativeContext JSON schema")
  end.

(** The URI pattern and the port it captures. *)
Definition validateMasterUri (uri : string) : fallible unit :=
  match regex_capture masterUriHost masterUriPort masterUriEnd uri with
  | None =>
      Err (permanentError "invalid_configuration"
             "rosMasterUri must be an absolute HTTP host and port")
  | Some port =>
      master_port ← stoul port;
      throw_if ((master_port =? 0) || (master_port >? 65535))
        (permanentError "invalid_configuration"
           "rosMasterUri port must be between 1 and 65535")
  end.

(** From the JSON text: master URI, IP and host name. *)
Definition configured_identity (text : string) : fallible (string * string * string) :=
  value ← parseStrictJson text "instance configuration";
  requireObject value "instance configuration";;
  rejectUnknownFields value ["rosMasterUri"; "rosIp"; "rosHostname"];;
  uri ← requiredString value "rosMasterUri";
  ip ← requiredPossiblyEmptyString value "rosIp";
  hostname ← requiredPossiblyEmptyString value "rosHostname";
  validateNoControlCharacters uri "rosMasterUri";;
  validateNoControlCharacters ip "rosIp";;
  validateNoControlCharacters hostname "rosHostname";;
  validateLength uri kMaximumMasterUriBytes "rosMasterUri";;
  validateLength ip kMaximumNetworkIdentityBytes "rosIp";;
  validateLength hostname kMaximumNetworkIdentityBytes "rosHostname";;
  validateMasterUri uri;;
  throw_if (negb (bool_decide (ip = "")) && negb (bool_decide (hostname = "")))
    (permanentError "invalid_configuration" "rosIp and rosHostname are mutually exclusive");;
  validateIpAddress ip;;
  validateHostname hostname;;
  Ok (uri, ip, hostname).

(** The scope must name the same identity. *)
Definition scoped_key (spec : AdapterInstanceSpec) (uri ip hostname : string) : fallible string :=
  match scope spec with
  | None => Err (permanentError "invalid_scope" "instance scope must be ros1-native-context")
  | Some scope =>
      throw_if (negb (bool_decide (kind scope = "ros1-native-context")))
        (permanentError "invalid_scope" "instance scope must be ros1-native-context");;
      throw_if (negb (regex_match (key scope) canonicalScopeKeyPattern))
        (permanentError "invalid_scope"
           "instance scope key must be a canonical SHA-256 digest");;
      throw_if (negb (bool_decide (attributes scope !! "master-uri" = Some uri)))
        (permanentError "invalid_scope"
           "scope master-uri does not match instance configuration");;
      throw_if (negb (bool_decide (default "" (attributes scope !! "ip") = ip))
                || negb (bool_decide (default "" (attributes scope !! "hostname") = hostname))
                || negb (bool_decide (size (attributes scope) = identity_size ip hostname)))
        (permanentError "invalid_scope"
           "scope network identity does not match configuration");;
      Ok (key scope)
  end.

Definition FromInstanceSpec (spec : AdapterInstanceSpec) : fallible NativeContext :=
  payload ← configuration_payload spec;
  throw_if (Z.of_nat (String.length (value payload)) >? kMaximumConfigurationBytes)
    (permanentError "invalid_configuration"
       "instance configuration exceeds its maximum encoded size");;
  throw_if (negb (Nat.eqb (secrets_size spec) 0))
    (permanentError "invalid_configuration"
       "ROS1 Tools Adapter does not accept secret references");;
  '(uri, ip, hostname) ← configured_identity (value payload);
  scope_key ← scoped_key spec uri ip hostname;
  Ok (MkNativeContext uri ip hostname scope_key).
End from_spec.

(** ** The process environment *)

Section environment.
(** The answers of [setenv] and [unsetenv]: [Some message] is a failure with the
    text of its [errno]. *)
Context (answer : nat → option string).
Abbreviation env_comp := (comp Empty_set (gmap string string)).

Definition setEnvironment (name value : string) : env_comp unit :=
  failed ← ask answer;
  match failed with
  | Some message => throw (StdExn ("unable to configure " +:+ name +:+ ": " +:+ message))
  | None =>
      modify (λ environment, if bool_decide (value = "") then delete name environment
                             else <[name := value]> environment)
  end.

Definition ApplyEnvironment (context : NativeContext) : env_comp unit :=
  setEnvironment "ROS_MASTER_URI" (ros_master_uri context);;
  setEnvironment "ROS_IP" (ros_ip context);;
  setEnvironment "ROS_HOSTNAME" (ros_hostname context).
End environment.
