(* ===== verification/InstanceSpecLemmas.v ===== *)
(** * Which instance specifications are accepted, and as what

    The exact condition of [FromInstanceSpec], and the demonstration libraries,
    contract and specification the other files evaluate the adapter with. *)

From Stdlib Require Import SpecFloat.
From S2P Require Import Prelude Bytes Errors Effects Floats Decimal Libraries Instances Regex Validation ValidationLemmas InstanceSpec.
Local Open Scope Z_scope.

(** A name accepted by the pattern of scope keys. *)
Definition canonical_key (key : string) : Prop :=
  ∃ digest, string_bytes key = string_bytes "sha256:" ++ digest ∧ length digest = 64%nat ∧
    Forall (λ c, lower_hex c = true) digest.

Lemma scope_key_spec key : regex_match key canonicalScopeKeyPattern = true ↔ canonical_key key.
Proof.
  rewrite regex_match_spec. unfold canonicalScopeKeyPattern, canonical_key. rewrite matches_seq.
  split.
  - intros (l1 & digest & E & ->%matches_literal & Hd%matches_times_class). by exists digest.
  - intros (digest & -> & Hd). exists (string_bytes "sha256:"), digest.
    split; [done|]. split; [by apply matches_literal|by apply matches_times_class].
Qed.

(** The attributes that spell out a network identity: only what is configured. *)
Definition identity_attributes (uri ip hostname : string) : gmap string string :=
  let m : gmap string string := {["master-uri" := uri]} in
  let m := if bool_decide (ip = "") then m else <["ip" := ip]> m in
  if bool_decide (hostname = "") then m else <["hostname" := hostname]> m.

Lemma identity_attributes_spec uri ip hostname (m : gmap string string) :
  m !! "master-uri" = Some uri ∧ default "" (m !! "ip") = ip ∧
  default "" (m !! "hostname") = hostname ∧ size m = identity_size ip hostname ↔
  m = identity_attributes uri ip hostname.
Proof.
  unfold identity_attributes, identity_size. split.
  - intros (Hu & Hi & Hh & Hs). symmetry. apply map_subseteq_size_eq.
    + assert (∀ k x, default "" (m !! k) = x → x ≠ "" → m !! k = Some x) as Hd.
      { intros k x <- Hx. by destruct (m !! k). }
      do 2 case_bool_decide; repeat apply insert_subseteq_l; auto;
        apply map_empty_subseteq.
    + rewrite Hs. do 2 case_bool_decide;
        rewrite ?map_size_insert_None, ?map_size_singleton by (by simplify_map_eq); lia.
  - intros ->. do 2 case_bool_decide; subst;
      rewrite ?map_size_insert_None, ?map_size_singleton by (by simplify_map_eq);
      by simplify_map_eq.
Qed.

Section spec.
Context {J : Type} `{JsonCpp J} `{!AdapterLibraries J} `{!Contract}.

(** The JSON value gives these three strings and nothing else. *)
Definition identity_fields (v : J) (uri ip hostname : string) : Prop :=
  isObject v = true ∧
  Forall (λ m, m ∈ ["rosMasterUri"; "rosIp"; "rosHostname"]) (getMemberNames v) ∧
  (∀ field text, (field, text) ∈ [("rosMasterUri", uri); ("rosIp", ip); ("rosHostname", hostname)] →
     isMember v field = true ∧ isString (at_key v field) = true ∧
     asString (at_key v field) = text).

Definition printable (s : string) (maximum : Z) : Prop :=
  Forall (λ c, 32 <= byte_val c ∧ byte_val c ≠ 127) (string_bytes s) ∧
  Z.of_nat (String.length s) <= maximum.

(** A network identity roscpp can be configured with. *)
Definition valid_identity (uri ip hostname : string) : Prop :=
  uri ≠ "" ∧ printable uri 2048 ∧ printable ip 255 ∧ printable hostname 255 ∧
  (∃ host port, master_uri uri host port ∧ 1 <= digits_value 0 port <= 65535) ∧
  (ip = "" ∨ hostname = "") ∧
  (ip = "" ∨ inet_pton_v4 ip = true ∨ inet_pton_v6 ip = true) ∧
  (hostname = "" ∨ dotted_labels (string_bytes hostname)).

Lemma reject_unknown_spec members allowed :
  reject_unknown members allowed = Ok tt ↔ Forall (λ m, m ∈ allowed) members.
Proof.
  induction members as [|m members IH]; cbn [reject_unknown]; [by split|].
  rewrite throw_bind_Ok, negb_false_iff, bool_decide_eq_true, IH, Forall_cons. done.
Qed.

Lemma requiredPossiblyEmpty_spec (v : J) field s :
  requiredPossiblyEmptyString v field = Ok s ↔
  isMember v field = true ∧ isString (at_key v field) = true ∧ asString (at_key v field) = s.
Proof.
  unfold requiredPossiblyEmptyString.
  rewrite throw_bind_Ok, orb_false_iff, !negb_false_iff, Ok_inj. tauto.
Qed.

Lemma requiredString_spec (v : J) field s :
  requiredString v field = Ok s ↔
  isMember v field = true ∧ isString (at_key v field) = true ∧ asString (at_key v field) = s ∧ s ≠ "".
Proof.
  unfold requiredString.
  rewrite throw_bind_Ok, !orb_false_iff, !negb_false_iff, bool_decide_eq_false, Ok_inj.
  naive_solver.
Qed.

Lemma no_control_spec value field :
  validateNoControlCharacters value field = Ok tt ↔
  Forall (λ c, 32 <= byte_val c ∧ byte_val c ≠ 127) (string_bytes value).
Proof.
  unfold validateNoControlCharacters. rewrite throw_if_Ok. induction (string_bytes value) as [|c l IH].
  - by split.
  - cbn [existsb]. rewrite orb_false_iff, IH, Forall_cons, orb_false_iff, Z.ltb_ge, Z.eqb_neq. done.
Qed.

Lemma validateLength_spec value maximum field :
  validateLength value maximum field = Ok tt ↔ Z.of_nat (String.length value) <= maximum.
Proof. unfold validateLength. by rewrite throw_if_Ok, Z.gtb_ltb, Z.ltb_ge. Qed.

Lemma validateMasterUri_spec uri :
  validateMasterUri uri = Ok tt ↔
  ∃ host port, master_uri uri host port ∧ 1 <= digits_value 0 port <= 65535.
Proof.
  unfold validateMasterUri. split.
  - destruct (regex_capture _ _ _ uri) as [p|] eqn:Hp; [|done].
    destruct (capture_master_uri _ _ Hp) as [host Hu].
    destruct (master_uri_port _ _ _ Hu) as [_ Hs]. rewrite bytes_string_bytes in Hs. rewrite Hs. cbn.
    rewrite throw_if_Ok, orb_false_iff, Z.eqb_neq, Z.gtb_ltb, Z.ltb_ge. intros [? ?].
    exists host, (string_bytes p). split; [done|]. destruct Hu as (_ & _ & _ & _ & Hd & _).
    pose proof (digits_value_bound _ Hd). lia.
  - intros (host & port & Hu & Hr). destruct (master_uri_port _ _ _ Hu) as [-> ->]. cbn.
    rewrite throw_if_Ok, orb_false_iff, Z.eqb_neq, Z.gtb_ltb, Z.ltb_ge. lia.
Qed.

Lemma validateIp_spec ip :
  validateIpAddress ip = Ok tt ↔ ip = "" ∨ inet_pton_v4 ip = true ∨ inet_pton_v6 ip = true.
Proof.
  unfold validateIpAddress. case_bool_decide as He; [tauto|].
  rewrite throw_if_Ok. destruct (inet_pton_v4 ip), (inet_pton_v6 ip); naive_solver.
Qed.

Lemma hostname_spec value :
  validateHostname value = Ok tt ↔ value = "" ∨ dotted_labels (string_bytes value).
Proof. apply hostname_accepted. Qed.

Lemma exclusive_spec (ip hostname : string) :
  negb (bool_decide (ip = "")) && negb (bool_decide (hostname = "")) = false ↔
  ip = "" ∨ hostname = "".
Proof. do 2 case_bool_decide; naive_solver. Qed.

Lemma identity_fields_spec v uri ip hostname :
  identity_fields v uri ip hostname ∧ uri ≠ "" ↔
  requireObject v "instance configuration" = Ok tt ∧
  rejectUnknownFields v ["rosMasterUri"; "rosIp"; "rosHostname"] = Ok tt ∧
  requiredString v "rosMasterUri" = Ok uri ∧ requiredPossiblyEmptyString v "rosIp" = Ok ip ∧
  requiredPossiblyEmptyString v "rosHostname" = Ok hostname.
Proof.
  unfold identity_fields, requireObject, rejectUnknownFields.
  rewrite throw_if_Ok, negb_false_iff, reject_unknown_spec, requiredString_spec,
    !requiredPossiblyEmpty_spec.
  assert (∀ P : string → string → Prop,
    (∀ f t, (f, t) ∈ [("rosMasterUri", uri); ("rosIp", ip); ("rosHostname", hostname)] → P f t) ↔
    P "rosMasterUri" uri ∧ P "rosIp" ip ∧ P "rosHostname" hostname) as ->; [|tauto].
  intros P. split.
  - intros HP. split; [|split]; apply HP; set_solver.
  - intros (? & ? & ?) f t. rewrite !elem_of_cons. intros [[= -> ->]|[[= -> ->]|[[= -> ->]|Hn]]]; try done.
    by apply elem_of_nil in Hn.
Qed.

Lemma configured_identity_spec text uri ip hostname :
  configured_identity text = Ok (uri, ip, hostname) ↔
  (∃ v : J, strict_parse text = Ok v ∧ identity_fields v uri ip hostname) ∧
  valid_identity uri ip hostname.
Proof.
  unfold configured_identity, parseStrictJson, valid_identity, printable.
  split.
  - intros Hc. apply bind_Ok in Hc as (v & Hv & Hc).
    destruct (strict_parse text) as [v'|e] eqn:Hp; [|done]. injection Hv as ->.
    apply bind_Ok in Hc as ([] & Ho & Hc). apply bind_Ok in Hc as ([] & Hr & Hc).
    apply bind_Ok in Hc as (uri' & Hu & Hc). apply bind_Ok in Hc as (ip' & Hi & Hc).
    apply bind_Ok in Hc as (hostname' & Hh & Hc).
    do 7 (apply bind_Ok in Hc as ([] & ?%no_control_spec & Hc) ||
          apply bind_Ok in Hc as ([] & ?%validateLength_spec & Hc) ||
          apply bind_Ok in Hc as ([] & ?%validateMasterUri_spec & Hc)).
    apply throw_bind_Ok in Hc as [Hex%exclusive_spec Hc].
    apply bind_Ok in Hc as ([] & ?%validateIp_spec & Hc).
    apply bind_Ok in Hc as ([] & ?%hostname_spec & [= -> -> ->]).
    destruct (proj2 (identity_fields_spec v uri ip hostname)) as [Hf Hne]; [done|].
    split; [by exists v|]. by repeat split.
  - intros [(v & -> & Hf) (Hne & (Hpu & Hlu) & (Hpi & Hli) & (Hph & Hlh) & Hm & Hex & Hi & Hh)].
    cbn [mbind result_bind].
    destruct (proj1 (identity_fields_spec v uri ip hostname)) as (Ho & Hr & -> & -> & ->); [done|].
    rewrite Ho. cbn [mbind result_bind]. rewrite Hr. cbn [mbind result_bind].
    apply (no_control_spec _ "rosMasterUri") in Hpu as ->. apply (no_control_spec _ "rosIp") in Hpi as ->.
    apply (no_control_spec _ "rosHostname") in Hph as ->. cbn [mbind result_bind].
    rewrite !(proj2 (validateLength_spec _ _ _)) by done. cbn [mbind result_bind].
    apply validateMasterUri_spec in Hm as ->. cbn [mbind result_bind].
    apply exclusive_spec in Hex as ->. cbn [mbind result_bind throw_if].
    apply validateIp_spec in Hi as ->. apply hostname_spec in Hh as ->. done.
Qed.

Lemma scoped_key_spec spec uri ip hostname k :
  scoped_key spec uri ip hostname = Ok k ↔
  canonical_key k ∧
  scope spec = Some (MkScope "ros1-native-context" k (identity_attributes uri ip hostname)).
Proof.
  unfold scoped_key. destruct (scope spec) as [[kd k' attrs]|]; [|naive_solver].
  cbn [kind key attributes]. rewrite !throw_bind_Ok, !orb_false_iff, !negb_false_iff,
    !bool_decide_eq_true, scope_key_spec, Ok_inj.
  pose proof (identity_attributes_spec uri ip hostname attrs) as Ha. split.
  - intros (-> & Hk & Hu & ((Hi & Hh) & Hs) & <-). split; [done|].
    rewrite (proj1 Ha); [done|]. by repeat split.
  - intros (Hk & [= -> -> E]). apply Ha in E as (? & ? & ? & ?). by repeat split.
Qed.

Lemma schemaMatches_spec actual expected :
  schemaMatches actual expected = true ↔ actual = schemaReference expected.
Proof.
  unfold schemaMatches, schemaReference. destruct actual; cbn.
  rewrite !andb_true_iff, !Z.eqb_eq, bool_decide_eq_true. naive_solver.
Qed.

Lemma configuration_payload_spec spec p :
  configuration_payload spec = Ok p ↔
  configuration spec = Some p ∧ encoding p = PAYLOAD_ENCODING_JSON ∧
  schema p = Some (schemaReference kConfiguration).
Proof.
  unfold configuration_payload. destruct (configuration spec) as [q|]; [|naive_solver].
  rewrite throw_bind_Ok, orb_false_iff, !negb_false_iff, bool_decide_eq_true, Ok_inj.
  destruct (schema q) as [s|] eqn:Hs; [rewrite schemaMatches_spec|]; naive_solver.
Qed.

(** C18: the native context of an instance. A specification is accepted exactly when
    its configuration is small JSON of the compiled schema, carries no secrets,
    spells out exactly a valid network identity, and its scope has a canonical key
    and exactly the attributes of that identity; the context is then that identity
    with that key.

    This is what the program accepts, which is not everywhere what
    schemas/native-context.schema.json does.  The port of the master is one to five
    digits with a value from 1 to 65535, so [http://h:00080] is a valid identity
    here, while the schema's pattern has no port with a leading zero
    ([leading_zero_port] evaluates both); a host name may end in two dots, which the
    schema's pattern forbids.  In the other direction the program is the stricter
    one: it wants DNS-style labels and an address that [inet_pton] reads, where the
    schema only restricts the characters and the ends of a host name. *)
Theorem instance_spec_accepted_exactly spec context :
  FromInstanceSpec spec = Ok context ↔
  secrets_size spec = 0%nat ∧
  (∃ text v,
     configuration spec =
       Some (MkPayload PAYLOAD_ENCODING_JSON (Some (schemaReference kConfiguration)) text) ∧
     Z.of_nat (String.length text) <= 16384 ∧ strict_parse text = Ok v ∧
     identity_fields v (ros_master_uri context) (ros_ip context) (ros_hostname context)) ∧
  valid_identity (ros_master_uri context) (ros_ip context) (ros_hostname context) ∧
  canonical_key (scope_key context) ∧
  scope spec =
    Some (MkScope "ros1-native-context" (scope_key context)
            (identity_attributes (ros_master_uri context) (ros_ip context) (ros_hostname context))).
Proof.
  unfold FromInstanceSpec. destruct context as [uri ip hostname k]. cbn [ros_master_uri ros_ip ros_hostname scope_key]. split.
  - intros Hc. apply bind_Ok in Hc as ([e s text] & (Hp & He & Hs)%configuration_payload_spec & Hc).
    cbn in He, Hs. subst e s.
    apply throw_bind_Ok in Hc as [Hlen Hc]. apply throw_bind_Ok in Hc as [Hsec Hc].
    apply bind_Ok in Hc as ([[uri' ip'] hostname'] & [(v & Hv & Hf) Hid]%configured_identity_spec & Hc).
    apply bind_Ok in Hc as (k' & Hk%scoped_key_spec & [= -> -> -> ->]).
    apply negb_false_iff, Nat.eqb_eq in Hsec. rewrite Z.gtb_ltb, Z.ltb_ge in Hlen.
    split; [done|]. split; [by exists text, v|]. split; [done|]. done.
  - intros (Hsec & (text & v & Hp & Hlen & Hv & Hf) & Hid & Hk & Hscope).
    rewrite (proj2 (configuration_payload_spec _ _) (conj Hp (conj eq_refl eq_refl))).
    cbn [mbind result_bind value]. rewrite Z.gtb_ltb, (proj2 (Z.ltb_ge _ _)), Hsec by done.
    cbn [mbind result_bind throw_if Nat.eqb negb].
    rewrite (proj2 (configured_identity_spec text uri ip hostname)) by eauto.
    cbn [mbind result_bind]. rewrite (proj2 (scoped_key_spec spec uri ip hostname k)); done.
Qed.

Lemma FromInstanceSpec_fails spec :
  fails_with (λ x, is_permanent x = true) (FromInstanceSpec (J:=J) spec).
Proof.
  assert (∀ members allowed, fails_with (λ x, is_permanent x = true) (reject_unknown members allowed)) as Hreject.
  { intros members allowed. induction members; cbn; fails. }
  assert (∀ uri, fails_with (λ x, is_permanent x = true) (validateMasterUri uri)) as Huri.
  { intros uri. unfold validateMasterUri. destruct (regex_capture _ _ _ uri) as [p|] eqn:Hp; [|done].
    destruct (capture_master_uri _ _ Hp) as [host Hu].
    destruct (master_uri_port _ _ _ Hu) as [_ Hs]. rewrite bytes_string_bytes in Hs. rewrite Hs.
    cbn. fails. }
  assert (∀ hostname, fails_with (λ x, is_permanent x = true) (validateHostname hostname)) as Hhost.
  { intros hostname. apply hostname_fails. }
  unfold FromInstanceSpec, configuration_payload, configured_identity, scoped_key, parseStrictJson,
    requireObject, rejectUnknownFields, requiredString, requiredPossiblyEmptyString,
    validateNoControlCharacters, validateLength, validateIpAddress.
  fails; auto.
Qed.

(** An instance specification that is not accepted is refused with a permanent
    typed error: no exception of the number conversion or of another library
    escapes. *)
Theorem instance_spec_errors_permanent spec x :
  FromInstanceSpec (J:=J) spec = Err x → is_permanent x = true.
Proof. exact (fails_with_Err (λ x, is_permanent x = true) _ x (FromInstanceSpec_fails spec)). Qed.
End spec.

(** ** The environment *)

Lemma setEnvironment_run answer name value w :
  setEnvironment answer name value w =
  MkRun (Some (match answer (tick w) with
               | Some message => Err (StdExn ("unable to configure " +:+ name +:+ ": " +:+ message))
               | None => Ok tt
               end)) []
    (MkWorld (S (tick w))
       (match answer (tick w) with
        | Some _ => local w
        | None => if bool_decide (value = "") then delete name (local w)
                  else <[name := value]> (local w)
        end)).
Proof. unfold setEnvironment, ask, mbind, comp_bind. by destruct (answer (tick w)). Qed.

(** The value a variable has for a configured text: none for the empty text. *)
Definition configured (text : string) : option string :=
  if bool_decide (text = "") then None else Some text.

(** When the environment has been applied without an exception, roscpp will find
    exactly the configured master and network identity: each of the three variables
    has its text, an empty one is not set, and no other variable changed. *)
Theorem environment_is_the_context answer context w w' e :
  ApplyEnvironment answer context w = MkRun (Some (Ok tt)) e w' →
  local w' !! "ROS_MASTER_URI" = configured (ros_master_uri context) ∧
  local w' !! "ROS_IP" = configured (ros_ip context) ∧
  local w' !! "ROS_HOSTNAME" = configured (ros_hostname context) ∧
  (∀ name, name ∉ ["ROS_MASTER_URI"; "ROS_IP"; "ROS_HOSTNAME"] →
     local w' !! name = local w !! name).
Proof.
  unfold ApplyEnvironment, mbind, comp_bind. rewrite setEnvironment_run.
  destruct (answer (tick w)); [done|]. cbn [local tick]. rewrite setEnvironment_run.
  cbn [local tick]. destruct (answer (S (tick w))); [done|]. cbn [outcome events after local tick].
  rewrite setEnvironment_run. cbn [outcome events after local tick].
  destruct (answer (S (S (tick w)))); [done|]. intros [= <- <-]. cbn [local]. unfold configured.
  do 3 case_bool_decide; (split; [by simplify_map_eq|split; [by simplify_map_eq|split; [by simplify_map_eq|]]]);
    intros name Hn; apply not_elem_of_cons in Hn as [? Hn]; apply not_elem_of_cons in Hn as [? Hn];
    apply not_elem_of_cons in Hn as [? _]; by simplify_map_eq.
Qed.

(** ** A concrete adapter *)

Module AdapterDemo.
Definition configuration_text : string := "{rosMasterUri,rosIp,rosHostname}".
Definition context : NativeContext :=
  MkNativeContext "http://ros.test:11311/" "" "robot.local"
    "sha256:0123456789abcdef0123456789abcdef0123456789abcdef0123456789abcdef".
Definition configuration_value : json :=
  JObject [("rosMasterUri", JString (ros_master_uri context)); ("rosIp", JString "");
           ("rosHostname", JString "robot.local")].

(** The texts this reader knows, and the name check of a roscpp that accepts. *)
Definition publish_text : string := "{topic,messageType,message}".
Definition publish_value : json :=
  JObject [("topic", JString "/flag"); ("messageType", JString "demo_msgs/Flag");
           ("message", JObject [("success", JBool true)]); ("publishCount", JInt 3);
           ("publishRateHz", JInt 2); ("latch", JBool false); ("queueSize", JInt 10);
           ("waitForSubscribersMs", JInt 0)].
Definition service_text : string := "{service,serviceType,request}".
Definition service_value : json :=
  JObject [("service", JString "/toggle"); ("serviceType", JString "demo_srvs/Toggle");
           ("request", JObject [("on", JBool true); ("level", JInt 7)]); ("waitForServiceMs", JInt 100);
           ("callTimeoutMs", JInt 1000)].

#[global] Instance libraries : AdapterLibraries json := {|
  strict_parse text :=
    if bool_decide (text = configuration_text) then Ok configuration_value
    else if bool_decide (text = publish_text) then Ok publish_value
    else if bool_decide (text = service_text) then Ok service_value
    else Err "syntax error";
  writeString value := Ok "{event}";
  names_validate name := None;
  inet_pton_v4 text := bool_decide (text = "127.0.0.1");
  inet_pton_v6 text := bool_decide (text = "::1")
|}.

#[global] Instance libraries_laws : AdapterLibrariesLaws json.
Proof. by split. Qed.

Definition schema_of (id : Z) (name : string) : Schema := MkSchema id name 1 (id + 1000).
Definition limits : EndpointLimits := MkEndpointLimits 4096 4096 8 0 0 0.
#[global] Instance contract : Contract := {|
  kConfiguration := schema_of 1 "native-context";
  kPublish := MkEndpoint "xgc.ros1.topic.publish" 1 "digest-p" "publish" (schema_of 2 "publish-request")
                (schema_of 3 "publish-result") 1000 60000 limits;
  kService := MkEndpoint "xgc.ros1.service.call" 1 "digest-s" "call" (schema_of 4 "service-request")
                (schema_of 5 "service-result") 1000 60000 limits
|}.

Definition spec : AdapterInstanceSpec :=
  MkAdapterInstanceSpec
    (Some (MkPayload PAYLOAD_ENCODING_JSON (Some (schemaReference kConfiguration)) configuration_text))
    0
    (Some (MkScope "ros1-native-context" (scope_key context)
             (identity_attributes (ros_master_uri context) (ros_ip context) (ros_hostname context)))).

Definition foreign_spec : AdapterInstanceSpec := MkAdapterInstanceSpec None 0 None.

(** The [rosMasterUri] pattern of schemas/native-context.schema.json. *)
Definition digit_from (lo hi : byte) : regex := Class_ (between lo hi).
Definition schemaPort : regex :=
  let d := Class_ is_digit in
  Alt (Seq (digit_from "1" "9") (AtMost 3 d))
  (Alt (Seq (digit_from "1" "5") (Times 4 d))
  (Alt (Seq (Char "6") (Seq (digit_from "0" "4") (Times 3 d)))
  (Alt (Seq (Literal "65") (Seq (digit_from "0" "4") (Times 2 d)))
  (Alt (Seq (Literal "655") (Seq (digit_from "0" "2") d))
       (Seq (Literal "6553") (digit_from "0" "5")))))).
Definition schemaMasterUri : regex := Seq masterUriHost (Seq schemaPort masterUriEnd).

(** A port with leading zeros: the program accepts it, the schema does not; without
    them both do. *)
Example leading_zero_port :
  validateMasterUri "http://h:00080" = Ok tt ∧
  regex_match "http://h:00080" schemaMasterUri = false ∧
  validateMasterUri "http://h:80" = Ok tt ∧
  regex_match "http://h:80" schemaMasterUri = true.
Proof. vm_compute. done. Qed.

Lemma spec_accepted : FromInstanceSpec spec = Ok context.
Proof. vm_compute. reflexivity. Qed.

Definition environment := ApplyEnvironment (λ _, None) context (MkWorld 0 {["ROS_IP" := "10.0.0.1"]}).
End AdapterDemo.

Lemma instance_spec_errors_permanent_witness :
  is_permanent (permanentError "invalid_configuration"
    "instance configuration must use the compiled NativeContext JSON schema") = true.
Proof. apply (instance_spec_errors_permanent (J:=json) AdapterDemo.foreign_spec). reflexivity. Defined.

Lemma environment_is_the_context_witness :
  local (after AdapterDemo.environment) !! "ROS_MASTER_URI" = Some "http://ros.test:11311/" ∧
  local (after AdapterDemo.environment) !! "ROS_IP" = None ∧
  local (after AdapterDemo.environment) !! "ROS_HOSTNAME" = Some "robot.local" ∧
  (∀ name, name ∉ ["ROS_MASTER_URI"; "ROS_IP"; "ROS_HOSTNAME"] →
     local (after AdapterDemo.environment) !! name =
     local (MkWorld 0 ({["ROS_IP" := "10.0.0.1"]} : gmap string string)) !! name).
Proof.
  apply (environment_is_the_context (λ _, None) AdapterDemo.context _ (after AdapterDemo.environment) []).
  vm_compute. reflexivity.
Defined.
