(* ===== verification/ToolsAdapter.v ===== *)
(** * The tools adapter (src/tools_adapter.cpp)

    The capability contracts, the instance and capability lifecycle, and the two
    operation handlers.  A handler validates its request, runs the publisher
    registry or the service invoker, and turns the outcome, result or exception,
    into the [OperationResult] the runtime reports. *)

From Stdlib Require Import SpecFloat.
From S2P Require Import Prelude Bytes Errors Effects Floats Decimal Libraries Regex Validation InstanceSpec TypeRegistry Os JsonCodec ServiceInvoker PublisherRegistry.
Local Open Scope Z_scope.

(** ** Messages of the adapter runtime *)

Inductive InteractionMode := INTERACTION_MODE_OPERATION | OtherInteraction (number : Z).
#[export] Instance InteractionMode_eq_dec : EqDecision InteractionMode.
Proof. solve_decision. Defined.
Inductive SideEffectClass := SIDE_EFFECT_CLASS_NON_IDEMPOTENT | OtherSideEffect (number : Z).
#[export] Instance SideEffectClass_eq_dec : EqDecision SideEffectClass.
Proof. solve_decision. Defined.
Inductive IdempotencyMode := IDEMPOTENCY_MODE_REQUIRED | OtherIdempotency (number : Z).
#[export] Instance IdempotencyMode_eq_dec : EqDecision IdempotencyMode.
Proof. solve_decision. Defined.

Record CapabilityEndpointContract := MkCapabilityEndpointContract {
  endpoint_id : string;
  interaction_mode : InteractionMode;
  input_schema : option SchemaReference;
  output_schema : option SchemaReference;
  event_schema : option SchemaReference;
  side_effect_class : SideEffectClass;
  idempotency_mode : IdempotencyMode;
  deadline_required : bool;
  cancellation_supported : bool;
  default_timeout_ms : Z;
  maximum_timeout_ms : Z;
  limits : option EndpointLimits
}.

Record CapabilityContract := MkCapabilityContract {
  capability_id : string;
  contract_version : Z;
  contract_digest : string;
  endpoints : list CapabilityEndpointContract
}.

Record EnabledCapability := MkEnabledCapability {
  grant_capability_id : string;
  grant_contract_version : Z;
  grant_contract_digest : string;
  enabled_endpoint_ids : list string;
  grant_configuration : option Payload
}.

Record WorkContext := MkWorkContext {
  ctx_capability_id : string;
  ctx_endpoint_id : string;
  ctx_contract_version : Z;
  ctx_contract_digest : string;
  deadline : option Z;             (* deadline_unix_nanos *)
  subject : option Scope
}.

Record OperationRequest := MkOperationRequest {
  context : WorkContext;
  input : Payload
}.

Inductive ErrorClass :=
| ERROR_CLASS_PERMANENT | ERROR_CLASS_TRANSIENT | ERROR_CLASS_UNCERTAIN | ERROR_CLASS_REJECTED
| ERROR_CLASS_RESOURCE_EXHAUSTED | ERROR_CLASS_CANCELLED | ERROR_CLASS_DEADLINE.
#[export] Instance ErrorClass_eq_dec : EqDecision ErrorClass.
Proof. solve_decision. Defined.

(** [OperationResult::Success(payload, side_effect_committed)] and [Failure] *)
Inductive OperationResult :=
| Success (payload : Payload) (side_effect_committed : bool)
| Failure (class : ErrorClass) (error_code message : string).

(** ** Capability contracts

    A function with a [bool] result and an [error] text is a [result string]. *)

Definition findEndpoint (contract : CapabilityContract) (id : string)
    : option CapabilityEndpointContract :=
  snd <$> list_find (λ endpoint, endpoint_id endpoint = id) (endpoints contract).

Definition schema_is (actual : option SchemaReference) (expected : Schema) : bool :=
  match actual with Some actual => schemaMatches actual expected | None => false end.

Definition limits_are (actual : option EndpointLimits) (expected : EndpointLimits) : bool :=
  match actual with
  | None => false
  | Some actual =>
      (maximum_request_bytes actual =? maximum_request_bytes expected)
      && (maximum_response_bytes actual =? maximum_response_bytes expected)
      && (maximum_concurrency actual =? maximum_concurrency expected)
      && (maximum_streams actual =? maximum_streams expected)
      && (maximum_stream_chunk_bytes actual =? maximum_stream_chunk_bytes expected)
      && (maximum_stream_chunk_messages actual =? maximum_stream_chunk_messages expected)
  end.

Definition endpoint_is (endpoint : CapabilityEndpointContract) (expected : Endpoint) : bool :=
  bool_decide (interaction_mode endpoint = INTERACTION_MODE_OPERATION)
  && negb (bool_decide (input_schema endpoint = None))
  && negb (bool_decide (output_schema endpoint = None))
  && bool_decide (event_schema endpoint = None)
  && schema_is (input_schema endpoint) (ep_input_schema expected)
  && schema_is (output_schema endpoint) (ep_output_schema expected)
  && bool_decide (side_effect_class endpoint = SIDE_EFFECT_CLASS_NON_IDEMPOTENT)
  && bool_decide (idempotency_mode endpoint = IDEMPOTENCY_MODE_REQUIRED)
  && deadline_required endpoint && cancellation_supported endpoint
  && (default_timeout_ms endpoint =? ep_default_timeout_ms expected)
  && (maximum_timeout_ms endpoint =? ep_maximum_timeout_ms expected)
  && limits_are (limits endpoint) (ep_limits expected).

Definition validateExpectedContract (contract : CapabilityContract) (expected : Endpoint)
    : result string unit :=
  let endpoint := findEndpoint contract (ep_endpoint_id expected) in
  throw_if (negb (bool_decide (capability_id contract = ep_capability_id expected))
            || negb (contract_version contract =? ep_contract_version expected)
            || negb (bool_decide (contract_digest contract = ep_contract_digest expected))
            || negb (Nat.eqb (length (endpoints contract)) 1)
            || negb (match endpoint with
                     | Some endpoint => endpoint_is endpoint expected
                     | None => false
                     end))
    ("trusted bootstrap contains an unexpected " +:+ ep_capability_id expected +:+
     " capability contract").

Definition validateCapabilityGrant (grant : EnabledCapability) (expected : Endpoint)
    : result string unit :=
  throw_if (negb (bool_decide (grant_capability_id grant = ep_capability_id expected))
            || negb (grant_contract_version grant =? ep_contract_version expected)
            || negb (bool_decide (grant_contract_digest grant = ep_contract_digest expected))
            || negb (Nat.eqb (length (enabled_endpoint_ids grant)) 1)
            || negb (bool_decide (enabled_endpoint_ids grant !! 0%nat = Some (ep_endpoint_id expected)))
            || negb (match grant_configuration grant with None => true | Some _ => false end))
    ("enabled capability grant does not match the compiled " +:+ ep_capability_id expected +:+
     " contract").

Definition validateInvocationContext (context : WorkContext) (expected : Endpoint)
    : fallible unit :=
  throw_if (negb (bool_decide (ctx_capability_id context = ep_capability_id expected))
            || negb (bool_decide (ctx_endpoint_id context = ep_endpoint_id expected))
            || negb (ctx_contract_version context =? ep_contract_version expected)
            || negb (bool_decide (ctx_contract_digest context = ep_contract_digest expected)))
    (permanentError "invalid_endpoint"
       "operation context does not match its compiled capability");;
  throw_if (match deadline context with Some nanos => nanos <=? 0 | None => true end)
    (permanentError "invalid_deadline" "operation deadline is required").

(** ** The adapter object *)

Record ToolsAdapter := MkToolsAdapter {
  native_context_ : NativeContext;
  publishers_ : Registry;
  instance_spec_applied_ : bool;
  publish_enabled_ : bool;
  service_enabled_ : bool
}.

(** Defaults of the members' constructors. *)
Definition kMaximumPublishers : Z := 128.
Definition kMaximumInFlight : Z := 16.

Definition newToolsAdapter (native_context : NativeContext) : fallible ToolsAdapter :=
  _ ← newJsonCodec default_limits;
  publishers ← newPublisherRegistry kMaximumPublishers;
  _ ← newServiceInvoker kMaximumInFlight;
  Ok (MkToolsAdapter native_context publishers false false false).

Section lifecycle.
Context {J : Type} `{JsonCpp J} `{!AdapterLibraries J} `{!Contract}.

(** The specification names this adapter's context, or the text of the failure.
    Every exception of [FromInstanceSpec] is a [std::exception]
    ([InstanceSpecLemmas.instance_spec_errors_permanent]). *)
Definition same_context (spec : AdapterInstanceSpec) (adapter : ToolsAdapter)
    (different : string) : result string unit :=
  match FromInstanceSpec spec with
  | Err x => Err (exn_what x)
  | Ok context => throw_if (negb (context_eqb context (native_context_ adapter))) different
  end.

Definition ApplyInstanceSpec (spec : AdapterInstanceSpec) (adapter : ToolsAdapter)
    : result string unit * ToolsAdapter :=
  match same_context spec adapter "a running ROS1 process cannot change its native context" with
  | Err error => (Err error, adapter)
  | Ok _ => (Ok tt, MkToolsAdapter (native_context_ adapter) (publishers_ adapter) true
                      (publish_enabled_ adapter) (service_enabled_ adapter))
  end.

Definition StopPublishCapability (adapter : ToolsAdapter) : ToolsAdapter :=
  MkToolsAdapter (native_context_ adapter) (clear (publishers_ adapter))
    (instance_spec_applied_ adapter) false (service_enabled_ adapter).

Definition StopServiceCapability (adapter : ToolsAdapter) : ToolsAdapter :=
  MkToolsAdapter (native_context_ adapter) (publishers_ adapter)
    (instance_spec_applied_ adapter) (publish_enabled_ adapter) false.

Definition ClearInstanceSpec (adapter : ToolsAdapter) : ToolsAdapter :=
  let adapter := StopPublishCapability adapter in
  let adapter := StopServiceCapability adapter in
  MkToolsAdapter (native_context_ adapter) (publishers_ adapter) false
    (publish_enabled_ adapter) (service_enabled_ adapter).

(** The checks before the exchange of the flag. *)
Definition may_start (spec : AdapterInstanceSpec) (grant : EnabledCapability)
    (expected : Endpoint) (not_applied different : string) (adapter : ToolsAdapter)
    : result string unit :=
  throw_if (negb (instance_spec_applied_ adapter)) not_applied;;
  same_context spec adapter different;;
  validateCapabilityGrant grant expected.

Definition StartPublishCapability (spec : AdapterInstanceSpec) (grant : EnabledCapability)
    (adapter : ToolsAdapter) : result string unit * ToolsAdapter :=
  match may_start spec grant kPublish
          "instance spec must be applied before publish capability start"
          "publish capability instance spec does not match this native context" adapter with
  | Err error => (Err error, adapter)
  | Ok _ =>
      if publish_enabled_ adapter then (Err "publish capability is already active", adapter)
      else (Ok tt, MkToolsAdapter (native_context_ adapter) (publishers_ adapter)
                     (instance_spec_applied_ adapter) true (service_enabled_ adapter))
  end.

Definition StartServiceCapability (spec : AdapterInstanceSpec) (grant : EnabledCapability)
    (adapter : ToolsAdapter) : result string unit * ToolsAdapter :=
  match may_start spec grant kService
          "instance spec must be applied before service capability start"
          "service capability instance spec does not match this native context" adapter with
  | Err error => (Err error, adapter)
  | Ok _ =>
      if service_enabled_ adapter then (Err "service capability is already active", adapter)
      else (Ok tt, MkToolsAdapter (native_context_ adapter) (publishers_ adapter)
                     (instance_spec_applied_ adapter) (publish_enabled_ adapter) true)
  end.

Definition ProbeMasterBinding (answer : fallible Z) (adapter : ToolsAdapter)
    : MasterBindingState * Z * ToolsAdapter :=
  let '(state, current, publishers) := probeMasterBinding answer (publishers_ adapter) in
  (state, current,
   MkToolsAdapter (native_context_ adapter) publishers (instance_spec_applied_ adapter)
     (publish_enabled_ adapter) (service_enabled_ adapter)).

(** ** Binding the capabilities of the bootstrap *)

(** [bind] answers [config->BindCapability], which is given the contract and the
    callbacks of one capability; the result lists the capabilities bound so far,
    with [true] for the publish callbacks. *)
Context (bind : CapabilityContract → bool → result string unit).

Fixpoint bind_contracts (contracts : list CapabilityContract)
    (publish_bound service_bound : bool) : result string (bool * bool) :=
  match contracts with
  | [] => Ok (publish_bound, service_bound)
  | contract :: contracts =>
      '(expected, is_publish, bound) ←
        (if bool_decide (capability_id contract = ep_capability_id kPublish)
         then Ok (kPublish, true, publish_bound)
         else if bool_decide (capability_id contract = ep_capability_id kService)
         then Ok (kService, false, service_bound)
         else Err "trusted bootstrap advertises an unknown capability");
      throw_if bound
        ("trusted bootstrap contains a duplicate " +:+ ep_capability_id expected +:+
         " capability contract");;
      validateExpectedContract contract expected;;
      bind contract is_publish;;
      bind_contracts contracts (publish_bound || is_publish) (service_bound || negb is_publish)
  end.

(** [Err] with an empty text: [false] without an [error] (the last line). *)
Definition BindCapabilities (capabilities : option (list CapabilityContract))
    (adapter : option ToolsAdapter) : result string unit :=
  match capabilities, adapter with
  | Some capabilities, Some _ =>
      throw_if (negb (Nat.eqb (length capabilities) 2))
        "ROS1 tools adapter requires exactly two capability contracts";;
      '(publish_bound, service_bound) ← bind_contracts capabilities false false;
      throw_if (negb (publish_bound && service_bound)) ""
  | _, _ => Err "Runtime config and ROS1 tools adapter are required"
  end.
End lifecycle.

(** ** Operations *)

(** Protobuf's serialisation of a schema reference. *)
Class SchemaBytes := SerializeAsString : SchemaReference → string.

Section operations.
Context {J M T B : Type} `{JsonCpp J} `{!AdapterLibraries J} `{!Contract} `{!SchemaBytes}.
Context `{RosTime} `{BabelFish M} `{BabelFishTypes M T B}.

Definition parseInput (payload : Payload) (expected_schema : SchemaReference)
    (maximum_request_bytes : Z) : fallible J :=
  throw_if (negb (bool_decide (encoding payload = PAYLOAD_ENCODING_JSON))
            || negb (match schema payload with
                     | Some actual =>
                         bool_decide (SerializeAsString actual = SerializeAsString expected_schema)
                     | None => false
                     end))
    (permanentError "unsupported_input_contract"
       "capability input must use its compiled JSON schema");;
  throw_if (Z.of_nat (String.length (value payload)) >? maximum_request_bytes)
    (resourceExhaustedError "request_too_large"
       "capability input exceeds its compiled maximum request size");;
  value ← parseStrictJson (value payload) "capability input";
  requireObject value "capability input";;
  Ok value.

Definition validateSubject (native_context : NativeContext) (context : WorkContext)
    : fallible unit :=
  match subject context with
  | None =>
      Err (permanentError "invalid_subject" "invocation subject must be ros1-native-context")
  | Some subject =>
      throw_if (negb (bool_decide (kind subject = "ros1-native-context")))
        (permanentError "invalid_subject" "invocation subject must be ros1-native-context");;
      throw_if (negb (bool_decide (key subject = scope_key native_context))
                || negb (bool_decide (attributes subject !! "master-uri"
                                      = Some (ros_master_uri native_context)))
                || negb (bool_decide (default "" (attributes subject !! "ip")
                                      = ros_ip native_context))
                || negb (bool_decide (default "" (attributes subject !! "hostname")
                                      = ros_hostname native_context))
                || negb (bool_decide (size (attributes subject)
                           = identity_size (ros_ip native_context) (ros_hostname native_context))))
        (permanentError "invalid_subject"
           "invocation subject does not match this native context")
  end.

(** [static_cast<double>(count - 1u) / rate > 240.0] *)
Definition double_of_uint (n : Z) : double := binary_normalize 53 1024 n 0 false.
Definition too_long (count : Z) (rate : double) : bool :=
  SFltb kMaximumPublishDurationSeconds (SFdiv 53 1024 (double_of_uint (u32 (count - 1))) rate).

(** [request.context().deadline().deadline_unix_nanos()] *)
Definition deadline_nanos (request : OperationRequest) : Z :=
  default 0 (deadline (context request)).

(** The request of [Publish], from its opening checks on. *)
Definition publish_request (enabled : bool) (native_context : NativeContext)
    (request : OperationRequest) : fallible (PublishRequest J) :=
  throw_if (negb enabled)
    (rejectedError "publish_capability_disabled" "ROS1 topic publish capability is not active");;
  validateInvocationContext (context request) kPublish;;
  validateSubject native_context (context request);;
  input ← parseInput (input request) (schemaReference (ep_input_schema kPublish))
            (maximum_request_bytes (ep_limits kPublish));
  rejectUnknownFields input ["topic"; "messageType"; "message"; "publishCount"; "publishRateHz";
                             "latch"; "queueSize"; "waitForSubscribersMs"];;
  topic ← requiredString input "topic";
  message_type ← requiredString input "messageType";
  validateAbsoluteRosName topic "topic";;
  validateRosType message_type "messageType";;
  throw_if (negb (isMember input "message"))
    (permanentError "invalid_request" "message is required");;
  requireObject (at_key input "message") "message";;
  publish_count ← requiredUInt input "publishCount" 1 kMaximumPublishCount;
  publish_rate_hz ← requiredNumber input "publishRateHz" kMinimumPublishRateHz
                      kMaximumPublishRateHz;
  throw_if (too_long publish_count publish_rate_hz)
    (permanentError "invalid_request"
       "publishCount and publishRateHz must complete within 240 seconds");;
  latch ← requiredBool input "latch";
  queue_size ← requiredUInt input "queueSize" 1 kMaximumQueueSize;
  wait_for_subscribers_ms ← requiredUInt input "waitForSubscribersMs" 0 kMaximumWaitMilliseconds;
  Ok (MkPublishRequest topic message_type (at_key input "message") publish_count publish_rate_hz
        latch queue_size wait_for_subscribers_ms (deadline_nanos request) true).

(** The request of [CallService]. *)
Definition service_request (enabled : bool) (native_context : NativeContext)
    (request : OperationRequest) : fallible (ServiceCallRequest J) :=
  throw_if (negb enabled)
    (rejectedError "service_capability_disabled" "ROS1 service-call capability is not active");;
  validateInvocationContext (context request) kService;;
  validateSubject native_context (context request);;
  input ← parseInput (input request) (schemaReference (ep_input_schema kService))
            (maximum_request_bytes (ep_limits kService));
  rejectUnknownFields input ["service"; "serviceType"; "request"; "waitForServiceMs";
                             "callTimeoutMs"];;
  service ← requiredString input "service";
  service_type ← requiredString input "serviceType";
  validateAbsoluteRosName service "service";;
  validateRosType service_type "serviceType";;
  throw_if (negb (isMember input "request"))
    (permanentError "invalid_request" "request is required");;
  requireObject (at_key input "request") "request";;
  wait_for_service_ms ← requiredUInt input "waitForServiceMs" 0 kMaximumWaitMilliseconds;
  call_timeout_ms ← requiredUInt input "callTimeoutMs" 1 kMaximumWaitMilliseconds;
  Ok (MkServiceCallRequest service service_type (at_key input "request") wait_for_service_ms
        call_timeout_ms (deadline_nanos request) true).

Definition success (value : J) (output_schema : SchemaReference) (maximum_response_bytes : Z)
    : fallible OperationResult :=
  text ← writeJson value;
  throw_if (Z.of_nat (String.length text) >? maximum_response_bytes)
    (uncertainError "operation_result_too_large"
       "native side effect committed but its result exceeds the compiled response limit");;
  Ok (Success (MkPayload PAYLOAD_ENCODING_JSON (Some output_schema) text) true).

Definition error_class (class : string) : ErrorClass :=
  if bool_decide (class = "transient") then ERROR_CLASS_TRANSIENT
  else if bool_decide (class = "uncertain") then ERROR_CLASS_UNCERTAIN
  else if bool_decide (class = "rejected") then ERROR_CLASS_REJECTED
  else if bool_decide (class = "resource-exhausted") then ERROR_CLASS_RESOURCE_EXHAUSTED
  else if bool_decide (class = "cancelled") then ERROR_CLASS_CANCELLED
  else if bool_decide (class = "deadline") then ERROR_CLASS_DEADLINE
  else ERROR_CLASS_PERMANENT.

Definition failure (exception : exn) : OperationResult :=
  match exception with
  | Typed typed => Failure (error_class (errorClass typed)) (code typed) (what typed)
  | _ => Failure ERROR_CLASS_TRANSIENT "internal_error" (exn_what exception)
  end.

(** The [try] block around the encoding of a result. *)
Definition encode_result (code message : string) (r : fallible OperationResult)
    : fallible OperationResult :=
  match r with
  | Err (StdExn what) => Err (uncertainError code (message +:+ ": " +:+ what))
  | Err OtherExn => Err (uncertainError code message)
  | r => r
  end.

Definition published_json (published : PublishResult) : J :=
  let result := set_key emptyObject "event" (ofString "published") in
  let result := set_key result "topic" (ofString (result_topic published)) in
  let result := set_key result "messageType" (ofString (result_message_type published)) in
  let result := set_key result "serializedBytes" (ofUInt (serialized_bytes published)) in
  let result := set_key result "publishedCount" (ofUInt (published_count published)) in
  set_key result "subscriberCount" (ofUInt (subscriber_count published)).

Definition response_json_of (called : ServiceCallResult J) : J :=
  let result := set_key emptyObject "event" (ofString "response") in
  let result := set_key result "service" (ofString (res_service called)) in
  let result := set_key result "serviceType" (ofString (res_service_type called)) in
  let result := set_key result "response" (res_response called) in
  set_key result "durationMs" (ofUInt64 (res_duration_ms called)).

(** [catch (const std::exception&)] around a handler. *)
Definition report_failure {ev st} (x : exn) : comp ev st OperationResult :=
  match x with
  | OtherExn => throw OtherExn
  | _ => mret (failure x)
  end.

(** [enabled] is what the load of the flag returns. *)
Definition Publish (os : Os) (env : PublishEnv) (enabled : bool) (native_context : NativeContext)
    (request : OperationRequest) : comp publish_event Registry OperationResult :=
  try_catch
    (publish_request ← lift (publish_request enabled native_context request);
     published ← publish os env default_limits publish_request;
     lift (encode_result "publish_result_encoding_failed"
             "ROS1 message was published but its result could not be encoded"
             (success (published_json published)
                (schemaReference (ep_output_schema kPublish))
                (maximum_response_bytes (ep_limits kPublish)))))
    report_failure.

Definition CallService (os : Os) (proc : Processes) (enabled : bool)
    (native_context : NativeContext) (request : OperationRequest)
    : comp call_event HelperProcess OperationResult :=
  try_catch
    (call_request ← lift (service_request enabled native_context request);
     called ← call os proc default_limits kMaximumInFlight call_request;
     lift (encode_result "service_result_encoding_failed"
             "ROS1 service executed but its result could not be encoded"
             (success (response_json_of called)
                (schemaReference (ep_output_schema kService))
                (maximum_response_bytes (ep_limits kService)))))
    report_failure.
End operations.
