(* ===== verification/AdapterLifecycle.v ===== *)
(** * Contracts and lifecycle of the adapter

    Which contracts and grants are accepted, when the capabilities of a bootstrap
    are bound, and what every sequence of lifecycle calls preserves. *)

From stdpp Require Import relations.
From S2P Require Import Prelude Bytes Errors Libraries Instances Regex Validation ValidationLemmas InstanceSpec InstanceSpecLemmas JsonCodec ServiceInvoker PublisherRegistry ToolsAdapter.
Local Open Scope Z_scope.

(** ** Contracts *)

(** The contract a compiled endpoint stands for. *)
Definition compiled_contract (expected : Endpoint) : CapabilityContract :=
  MkCapabilityContract (ep_capability_id expected) (ep_contract_version expected)
    (ep_contract_digest expected)
    [MkCapabilityEndpointContract (ep_endpoint_id expected) INTERACTION_MODE_OPERATION
       (Some (schemaReference (ep_input_schema expected)))
       (Some (schemaReference (ep_output_schema expected))) None
       SIDE_EFFECT_CLASS_NON_IDEMPOTENT IDEMPOTENCY_MODE_REQUIRED true true
       (ep_default_timeout_ms expected) (ep_maximum_timeout_ms expected)
       (Some (ep_limits expected))].

Definition compiled_grant (expected : Endpoint) : EnabledCapability :=
  MkEnabledCapability (ep_capability_id expected) (ep_contract_version expected)
    (ep_contract_digest expected) [ep_endpoint_id expected] None.

Lemma schema_is_spec actual expected :
  schema_is actual expected = true ↔ actual = Some (schemaReference expected).
Proof.
  destruct actual as [s|]; cbn; [|naive_solver]. rewrite schemaMatches_spec. naive_solver.
Qed.

Lemma limits_are_spec actual expected : limits_are actual expected = true ↔ actual = Some expected.
Proof.
  destruct actual as [[]|], expected; cbn; [|naive_solver].
  rewrite !andb_true_iff, !Z.eqb_eq. naive_solver.
Qed.

Lemma endpoint_is_spec endpoint expected :
  endpoint_is endpoint expected = true ∧ endpoint_id endpoint = ep_endpoint_id expected ↔
  [endpoint] = endpoints (compiled_contract expected).
Proof.
  unfold endpoint_is. rewrite !andb_true_iff, !schema_is_spec, limits_are_spec, !Z.eqb_eq,
    !negb_true_iff, !bool_decide_eq_true, !bool_decide_eq_false.
  destruct endpoint; cbn. split; [naive_solver|]. intros [= -> -> -> -> -> -> -> -> -> -> -> ->].
  naive_solver.
Qed.

Lemma findEndpoint_single contract endpoint id :
  endpoints contract = [endpoint] →
  findEndpoint contract id = if bool_decide (endpoint_id endpoint = id) then Some endpoint else None.
Proof.
  intros E. unfold findEndpoint. rewrite E. cbn.
  case_decide; [by rewrite bool_decide_true|by rewrite bool_decide_false].
Qed.

Lemma contract_accepted contract expected :
  validateExpectedContract contract expected = Ok tt ↔ contract = compiled_contract expected.
Proof.
  unfold validateExpectedContract. rewrite throw_if_Ok, !orb_false_iff, !negb_false_iff, Nat.eqb_eq,
    Z.eqb_eq, !bool_decide_eq_true. split.
  - intros ((((Hid & Hv) & Hd) & Hlen) & He). destruct contract as [id v d es].
    cbn [capability_id contract_version contract_digest endpoints] in Hid, Hv, Hd, Hlen.
    destruct es as [|endpoint [|]]; [done| |done].
    rewrite (findEndpoint_single _ endpoint) in He by done.
    case_bool_decide as Hep; [|done]. subst. unfold compiled_contract.
    f_equal. by apply endpoint_is_spec.
  - intros ->. split; [by repeat split|].
    erewrite findEndpoint_single by done. cbn [endpoint_id].
    rewrite bool_decide_true by done. by apply endpoint_is_spec.
Qed.

(** Of the contracts a bootstrap can advertise for a capability, exactly the
    compiled one is accepted: identity, digest, its one endpoint with its schemas,
    modes, timeouts and limits all agree. *)
Theorem contract_accepted_exactly contract expected :
  validateExpectedContract contract expected = Ok tt ↔ contract = compiled_contract expected.
Proof. apply contract_accepted. Qed.

Lemma grant_accepted grant expected :
  validateCapabilityGrant grant expected = Ok tt ↔ grant = compiled_grant expected.
Proof.
  unfold validateCapabilityGrant, compiled_grant.
  rewrite throw_if_Ok, !orb_false_iff, !negb_false_iff, Nat.eqb_eq, Z.eqb_eq, !bool_decide_eq_true.
  destruct grant as [id v d ids [c|]]; cbn; [naive_solver|].
  split; [|intros [= -> -> -> ->]; naive_solver].
  intros (((((-> & ->) & ->) & Hlen) & Hid) & _).
  destruct ids as [|i [|]]; [done| |done]. cbn in Hid. by injection Hid as ->.
Qed.

Section lifecycle.
Context {J : Type} `{JsonCpp J} `{!AdapterLibraries J} `{!Contract}.
Context (bind : CapabilityContract → bool → result string unit).

(** One turn of the loop that binds. *)
Lemma bind_contracts_step contract contracts p s r :
  bind_contracts bind (contract :: contracts) p s = Ok r ↔
  (contract = compiled_contract kPublish ∧ p = false ∧ bind contract true = Ok tt ∧
     bind_contracts bind contracts true s = Ok r) ∨
  (contract = compiled_contract kService ∧ ep_capability_id kService ≠ ep_capability_id kPublish ∧
     s = false ∧ bind contract false = Ok tt ∧ bind_contracts bind contracts p true = Ok r).
Proof.
  cbn [bind_contracts]. case_bool_decide as Hp; [|case_bool_decide as Hs].
  - cbn [mbind result_bind]. rewrite throw_bind_Ok, orb_true_r, orb_false_r. split.
    + intros [-> Hb]. left. apply bind_Ok in Hb as ([] & ->%contract_accepted & Hb).
      apply bind_Ok in Hb as ([] & ? & ?). done.
    + intros [(-> & -> & Hb & Hr)|(-> & Hne & _)]; [|by destruct Hne]. split; [done|].
      apply bind_Ok. exists tt. split; [by apply contract_accepted|]. apply bind_Ok. by exists tt.
  - cbn [mbind result_bind]. rewrite throw_bind_Ok, orb_true_r, orb_false_r. split.
    + intros [-> Hb]. right. apply bind_Ok in Hb as ([] & ->%contract_accepted & Hb).
      apply bind_Ok in Hb as ([] & ? & ?). done.
    + intros [(-> & _)|(-> & Hne & -> & Hb & Hr)]; [by destruct Hp|]. split; [done|].
      apply bind_Ok. exists tt. split; [by apply contract_accepted|]. apply bind_Ok. by exists tt.
  - split; [done|]. intros [(-> & _)|(-> & _)]; [by destruct Hp|by destruct Hs].
Qed.

(** C20: the bootstrap's capabilities are bound exactly when they are the two compiled
    contracts, in either order, and the runtime accepts both bindings: each contract
    is bound once, to its own callbacks. *)
Theorem capabilities_bound_exactly capabilities adapter :
  BindCapabilities bind (Some capabilities) (Some adapter) = Ok tt ↔
  ep_capability_id kService ≠ ep_capability_id kPublish ∧
  (capabilities = [compiled_contract kPublish; compiled_contract kService] ∨
   capabilities = [compiled_contract kService; compiled_contract kPublish]) ∧
  bind (compiled_contract kPublish) true = Ok tt ∧
  bind (compiled_contract kService) false = Ok tt.
Proof.
  unfold BindCapabilities. rewrite throw_bind_Ok, negb_false_iff, Nat.eqb_eq, bind_Ok. split.
  - intros [Hlen ([p s] & Hb & Ht%throw_if_Ok)].
    destruct capabilities as [|c1 [|c2 [|]]]; try done.
    apply bind_contracts_step in Hb as [(-> & _ & Hb1 & Hb)|(-> & Hne & _ & Hb1 & Hb)];
      apply bind_contracts_step in Hb as [(-> & Hf & Hb2 & Hb)|(-> & Hne' & Hf & Hb2 & Hb)];
      try done; eauto 10.
  - intros (Hne & Hcaps & Hb1 & Hb2). destruct Hcaps as [->| ->]; (split; [done|]); exists (true, true);
      (split; [|done]); apply bind_contracts_step.
    + left. do 3 (split; [done|]). apply bind_contracts_step. right. by repeat split.
    + right. do 4 (split; [done|]). apply bind_contracts_step. left. by repeat split.
Qed.

(** ** Starting and stopping *)

Lemma context_eqb_spec c c' : context_eqb c c' = true ↔ c = c'.
Proof.
  unfold context_eqb. rewrite !andb_true_iff, !bool_decide_eq_true.
  destruct c, c'; cbn. naive_solver.
Qed.

Lemma same_context_spec spec adapter different :
  same_context spec adapter different = Ok tt ↔
  FromInstanceSpec spec = Ok (native_context_ adapter).
Proof.
  unfold same_context. destruct (FromInstanceSpec spec) as [c|x]; [|done].
  rewrite throw_if_Ok, negb_false_iff, context_eqb_spec. naive_solver.
Qed.

Lemma may_start_spec spec grant expected not_applied different adapter :
  may_start spec grant expected not_applied different adapter = Ok tt ↔
  instance_spec_applied_ adapter = true ∧ FromInstanceSpec spec = Ok (native_context_ adapter) ∧
  grant = compiled_grant expected.
Proof.
  unfold may_start. rewrite throw_bind_Ok, negb_false_iff, bind_Ok.
  setoid_rewrite grant_accepted. split.
  - intros (? & [] & ?%same_context_spec & ?). done.
  - intros (? & ? & ?). split; [done|]. exists tt. by rewrite same_context_spec.
Qed.

(** A capability starts exactly when an instance specification has been applied,
    the given one describes this very ROS process, the grant is the compiled one and
    the capability is not active; starting sets its flag and nothing else, and a
    refused start changes nothing. *)
Theorem capability_starts_exactly spec grant adapter :
  let may expected :=
    instance_spec_applied_ adapter = true ∧ FromInstanceSpec spec = Ok (native_context_ adapter) ∧
    grant = compiled_grant expected in
  (∀ adapter', StartPublishCapability spec grant adapter = (Ok tt, adapter') ↔
     may kPublish ∧ publish_enabled_ adapter = false ∧
     adapter' = MkToolsAdapter (native_context_ adapter) (publishers_ adapter) true true
                  (service_enabled_ adapter)) ∧
  (∀ adapter', StartServiceCapability spec grant adapter = (Ok tt, adapter') ↔
     may kService ∧ service_enabled_ adapter = false ∧
     adapter' = MkToolsAdapter (native_context_ adapter) (publishers_ adapter) true
                  (publish_enabled_ adapter) true) ∧
  (∀ error adapter', StartPublishCapability spec grant adapter = (Err error, adapter') ∨
     StartServiceCapability spec grant adapter = (Err error, adapter') → adapter' = adapter).
Proof.
  intros may. unfold StartPublishCapability, StartServiceCapability.
  assert (∀ e n d, may_start spec grant e n d adapter = Ok tt ↔ may e) as Hmay.
  { intros. apply may_start_spec. }
  split; [|split].
  - intros adapter'. destruct (may_start _ _ kPublish _ _ _) as [[]|error] eqn:Hm.
    + apply Hmay in Hm. rewrite (proj1 Hm). destruct (publish_enabled_ adapter); naive_solver.
    + split; [done|]. intros [Hm' _]. eapply Hmay in Hm'. rewrite Hm in Hm'. done.
  - intros adapter'. destruct (may_start _ _ kService _ _ _) as [[]|error] eqn:Hm.
    + apply Hmay in Hm. rewrite (proj1 Hm). destruct (service_enabled_ adapter); naive_solver.
    + split; [done|]. intros [Hm' _]. eapply Hmay in Hm'. rewrite Hm in Hm'. done.
  - intros error adapter'.
    destruct (may_start _ _ kPublish _ _ _), (may_start _ _ kService _ _ _),
      (publish_enabled_ adapter), (service_enabled_ adapter); naive_solver.
Qed.

(** ** Sequences of calls *)

(** The lifecycle callbacks of the runtime, the master watch, and any change a
    publishing thread makes to the registry. *)
Inductive adapter_step : ToolsAdapter → ToolsAdapter → Prop :=
| step_apply spec a : adapter_step a (ApplyInstanceSpec spec a).2
| step_clear a : adapter_step a (ClearInstanceSpec a)
| step_start_publish spec grant a : adapter_step a (StartPublishCapability spec grant a).2
| step_stop_publish a : adapter_step a (StopPublishCapability a)
| step_start_service spec grant a : adapter_step a (StartServiceCapability spec grant a).2
| step_stop_service a : adapter_step a (StopServiceCapability a)
| step_probe_master answer a : adapter_step a (ProbeMasterBinding answer a).2
| step_publishing reg a :
    adapter_step a (MkToolsAdapter (native_context_ a) reg (instance_spec_applied_ a)
                      (publish_enabled_ a) (service_enabled_ a)).

Definition adapter_inv (c : NativeContext) (a : ToolsAdapter) : Prop :=
  native_context_ a = c ∧
  (publish_enabled_ a = true ∨ service_enabled_ a = true → instance_spec_applied_ a = true).

Lemma adapter_step_inv c a a' : adapter_inv c a → adapter_step a a' → adapter_inv c a'.
Proof.
  intros [Hc Hon] Hstep. destruct Hstep as [spec a|a|spec grant a|a|spec grant a|a|answer a|reg a].
  - unfold ApplyInstanceSpec. by destruct (same_context _ _ _).
  - split; [done|]. cbn. naive_solver.
  - unfold StartPublishCapability.
    destruct (may_start _ _ _ _ _ _) as [[]|] eqn:Hm; [|done]. apply may_start_spec in Hm as [Ha _].
    destruct (publish_enabled_ a); [done|]. by split.
  - split; [done|]. cbn. naive_solver.
  - unfold StartServiceCapability.
    destruct (may_start _ _ _ _ _ _) as [[]|] eqn:Hm; [|done]. apply may_start_spec in Hm as [Ha _].
    destruct (service_enabled_ a); [done|]. by split.
  - split; [done|]. cbn. naive_solver.
  - unfold ProbeMasterBinding. destruct (probeMasterBinding _ _) as [[state current] reg]. done.
  - done.
Qed.

(** C19: whatever lifecycle callbacks the runtime makes, the adapter stays bound to the
    native context it was created with, and a capability is active only while an
    instance specification is applied. *)
Theorem active_only_when_applied c a0 a :
  newToolsAdapter c = Ok a0 → rtc adapter_step a0 a →
  native_context_ a = c ∧
  (publish_enabled_ a = true ∨ service_enabled_ a = true → instance_spec_applied_ a = true).
Proof.
  intros Hnew Hr. assert (adapter_inv c a0) as HI.
  { cbn in Hnew. injection Hnew as <-. split; [done|]. cbn. naive_solver. }
  change (adapter_inv c a). clear Hnew. induction Hr as [a|a1 a2 a3 Hs _ IH]; [done|].
  apply IH. by eapply adapter_step_inv.
Qed.
End lifecycle.

(** ** A lifecycle evaluated *)

Module LifecycleDemo.
Definition created : ToolsAdapter :=
  MkToolsAdapter AdapterDemo.context (MkRegistry ∅ 0 ∅ 0 128) false false false.
Definition applied : ToolsAdapter := (ApplyInstanceSpec AdapterDemo.spec created).2.
Definition grant : EnabledCapability := compiled_grant kPublish.
Definition publishing : ToolsAdapter := (StartPublishCapability AdapterDemo.spec grant applied).2.

Example publishing_is_active : publish_enabled_ publishing = true.
Proof. vm_compute. reflexivity. Qed.
Example start_before_apply :
  (StartPublishCapability AdapterDemo.spec grant created).1 =
  Err "instance spec must be applied before publish capability start".
Proof. vm_compute. reflexivity. Qed.
Example bootstrap_binds :
  BindCapabilities (λ _ _, Ok tt) (Some [compiled_contract kService; compiled_contract kPublish])
    (Some created) = Ok tt.
Proof. vm_compute. reflexivity. Qed.
End LifecycleDemo.

Lemma active_only_when_applied_witness :
  native_context_ LifecycleDemo.publishing = AdapterDemo.context ∧
  (publish_enabled_ LifecycleDemo.publishing = true ∨
   service_enabled_ LifecycleDemo.publishing = true →
   instance_spec_applied_ LifecycleDemo.publishing = true).
Proof.
  apply (active_only_when_applied AdapterDemo.context LifecycleDemo.created); [reflexivity|].
  eapply rtc_l; [apply (step_apply AdapterDemo.spec)|].
  eapply rtc_l; [apply (step_start_publish AdapterDemo.spec LifecycleDemo.grant)|]. apply rtc_refl.
Defined.
