(* ===== verification/AdapterOperations.v ===== *)
(** * What the adapter reports

    End-to-end theorems about the two operations: nothing happens for a request
    that is not addressed to this process, the reported error class tells whether
    the native side effect can have happened, and a reported success is the
    result of the native operation. *)

From Stdlib Require Import SpecFloat.
From S2P Require Import Prelude Bytes Errors Effects Floats Decimal Libraries Instances Regex Validation ValidationLemmas InstanceSpec InstanceSpecLemmas TypeRegistry Os HelperProtocol JsonCodec ServiceInvoker ServiceInvokerLemmas HelperMain ServiceFence PublisherRegistry PublishLemmas ToolsAdapter AdapterLifecycle.
Local Open Scope Z_scope.

(** ** Error classes *)

Lemma error_class_uncertain class :
  error_class class = ERROR_CLASS_UNCERTAIN ↔ class = "uncertain".
Proof. unfold error_class. repeat case_bool_decide; naive_solver. Qed.

Lemma failure_uncertain x c t m :
  failure x = Failure c t m → c = ERROR_CLASS_UNCERTAIN ↔ is_uncertain x = true.
Proof.
  unfold failure, is_uncertain. rewrite bool_decide_eq_true. destruct x as [e|w|]; cbn.
  - intros [= <- _ _]. rewrite error_class_uncertain. split; congruence.
  - intros [= <- _ _]. split; congruence.
  - intros [= <- _ _]. split; congruence.
Qed.

(** The class of a typed error survives the report: the seven classes the program
    throws are reported as seven different classes, with the code and the message of
    the error. *)
Theorem failure_reports_the_class code message :
  failure (permanentError code message) = Failure ERROR_CLASS_PERMANENT code message ∧
  failure (transientError code message) = Failure ERROR_CLASS_TRANSIENT code message ∧
  failure (uncertainError code message) = Failure ERROR_CLASS_UNCERTAIN code message ∧
  failure (rejectedError code message) = Failure ERROR_CLASS_REJECTED code message ∧
  failure (resourceExhaustedError code message) =
    Failure ERROR_CLASS_RESOURCE_EXHAUSTED code message ∧
  failure (cancelledError code message) = Failure ERROR_CLASS_CANCELLED code message ∧
  failure (deadlineError code message) = Failure ERROR_CLASS_DEADLINE code message.
Proof. by repeat split. Qed.

(** A finished handler: refused before it did anything, or the outcome of the native
    operation, encoded. *)
Lemma handler_cases {ev st X A} (checked : fallible X) (operation : X → comp ev st A)
    (encode : A → fallible OperationResult) w w' result e :
  try_catch (x ← lift checked; a ← operation x; lift (encode a)) report_failure w =
    MkRun (Some (Ok result)) e w' →
  (∃ x, checked = Err x ∧ result = failure x ∧ e = []) ∨
  (∃ x r w1, checked = Ok x ∧ operation x w = MkRun (Some r) e w1 ∧
     match r ≫= encode with
     | Ok encoded => result = encoded
     | Err x => result = failure x
     end).
Proof.
  intros Hrun. unfold try_catch, mbind at 1, mbind at 1, comp_bind, lift in Hrun.
  destruct checked as [x|x].
  2: { left. exists x. destruct x; cbn in Hrun; [| |done]; by injection Hrun as <- <- _. }
  right. destruct (operation x w) as [[r|] e1 w1] eqn:Hop; [|done]. exists x, r, w1.
  destruct r as [a|y]; cbn in Hrun |- *.
  - destruct (encode a) as [encoded|[| |]]; cbn in Hrun; rewrite ?app_nil_r in Hrun; try done;
      injection Hrun as <- <- _; done.
  - destruct y; cbn in Hrun; rewrite ?app_nil_r in Hrun; try done; by injection Hrun as <- <- _.
Qed.

(** ** Requests *)

(** Ranges of the numeric fields. *)
Section fields.
Context {J : Type} `{JsonCpp J} `{!AdapterLibraries J}.

(** A member that is a non-empty string. *)
Definition text_field (v : J) (field : string) : Prop :=
  isMember v field = true ∧ isString (at_key v field) = true ∧ asString (at_key v field) ≠ "".

(** A member that is an integer between [minimum] and [maximum]. *)
Definition unsigned_field (v : J) (field : string) (minimum maximum : Z) : Prop :=
  isMember v field = true ∧ isIntegral (at_key v field) = true ∧
  (isInt64 (at_key v field) = true → 0 <= asInt64 (at_key v field)) ∧
  minimum <= asUInt64 (at_key v field) <= maximum.

(** A member that is a finite number between [minimum] and [maximum]. *)
Definition number_field (v : J) (field : string) (minimum maximum : double) : Prop :=
  isMember v field = true ∧ isNumeric (at_key v field) = true ∧
  is_finite (asDouble (at_key v field)) = true ∧
  SFltb (asDouble (at_key v field)) minimum = false ∧
  SFltb maximum (asDouble (at_key v field)) = false.

Definition bool_field (v : J) (field : string) : Prop :=
  isMember v field = true ∧ isBool (at_key v field) = true.

Lemma requiredString_exact (v : J) field s :
  requiredString v field = Ok s ↔ text_field v field ∧ s = asString (at_key v field).
Proof. rewrite requiredString_spec. unfold text_field. naive_solver. Qed.

Lemma requiredUInt_exact (v : J) field minimum maximum n :
  0 <= minimum → maximum < 2 ^ 32 →
  requiredUInt v field minimum maximum = Ok n ↔
  unsigned_field v field minimum maximum ∧ n = asUInt64 (at_key v field).
Proof.
  intros Hmin Hmax. unfold requiredUInt, unsigned_field. cbv zeta.
  rewrite !throw_bind_Ok, !orb_false_iff, !negb_false_iff, andb_false_iff, !Z.ltb_ge, Z.gtb_ltb,
    Z.ltb_ge, Ok_inj.
  split.
  - intros (Hm & [Hi Hn] & Hb & <-). rewrite u32_small by lia.
    split; [|done]. split; [done|]. split; [done|]. split; [|done]. intros H64. destruct Hn; [congruence|done].
  - intros [(Hm & Hi & Hn & Hb) ->]. rewrite u32_small by lia. split; [done|].
    split; [|done]. split; [done|]. destruct (isInt64 (at_key v field)); auto.
Qed.

Lemma requiredNumber_exact (v : J) field minimum maximum x :
  requiredNumber v field minimum maximum = Ok x ↔
  number_field v field minimum maximum ∧ x = asDouble (at_key v field).
Proof.
  unfold requiredNumber, number_field. cbv zeta.
  rewrite !throw_bind_Ok, !orb_false_iff, !negb_false_iff, Ok_inj. naive_solver.
Qed.

Lemma requiredBool_exact (v : J) field b :
  requiredBool v field = Ok b ↔ bool_field v field ∧ b = asBool (at_key v field).
Proof.
  unfold requiredBool, bool_field. rewrite throw_bind_Ok, orb_false_iff, !negb_false_iff, Ok_inj.
  naive_solver.
Qed.

Lemma requireObject_exact (v : J) description :
  requireObject v description = Ok tt ↔ isObject v = true.
Proof. unfold requireObject. by rewrite throw_if_Ok, negb_false_iff. Qed.

(** Names and types of ROS. *)
Definition ros_name (value : string) : Prop :=
  Z.of_nat (String.length value) <= 4096 ∧ Validation.names_validate value = None ∧
  ∃ ids, ids ≠ [] ∧ Forall is_identifier ids ∧ string_bytes value = slashed ids.

Definition ros_type (value : string) : Prop :=
  Z.of_nat (String.length value) <= 512 ∧
  ∃ package type, string_bytes value = package ++ "/"%char :: type ∧
    is_identifier package ∧ is_identifier type.

(** Two texts, the ROS name and the ROS type of a request. *)
Definition named_fields (v : J) (name type : string) : Prop :=
  text_field v name ∧ ros_name (asString (at_key v name)) ∧
  text_field v type ∧ ros_type (asString (at_key v type)).
End fields.

Section operations.
Context {J M T B : Type} `{JsonCpp J} `{!JsonCppLaws J} `{!AdapterLibraries J}
        `{!AdapterLibrariesLaws J} `{!Contract}
        `{!SchemaBytes} `{RosTime} `{!RosTimeLaws} `{BabelFish M} `{!BabelFishLaws M} `{BabelFishTypes M T B}
        `{!BabelFishTypesLaws M T B}.

(** A request for [expected] from the runtime, addressed to this process. *)
Definition addressed (expected : Endpoint) (c : NativeContext) (request : OperationRequest) : Prop :=
  let w := context request in
  ctx_capability_id w = ep_capability_id expected ∧ ctx_endpoint_id w = ep_endpoint_id expected ∧
  ctx_contract_version w = ep_contract_version expected ∧
  ctx_contract_digest w = ep_contract_digest expected ∧
  (∃ nanos, deadline w = Some nanos ∧ 0 < nanos) ∧
  subject w = Some (MkScope "ros1-native-context" (scope_key c)
                      (identity_attributes (ros_master_uri c) (ros_ip c) (ros_hostname c))).

(** Its input is JSON of the expected schema, within the request limit. *)
Definition well_encoded (expected : Endpoint) (request : OperationRequest) (v : J) : Prop :=
  let p := input request in
  encoding p = PAYLOAD_ENCODING_JSON ∧
  (∃ s, schema p = Some s ∧
     SerializeAsString s = SerializeAsString (schemaReference (ep_input_schema expected))) ∧
  Z.of_nat (String.length (value p)) <= maximum_request_bytes (ep_limits expected) ∧
  strict_parse (value p) = Ok v ∧ isObject v = true.

Lemma validateInvocationContext_spec w expected :
  validateInvocationContext w expected = Ok tt ↔
  ctx_capability_id w = ep_capability_id expected ∧ ctx_endpoint_id w = ep_endpoint_id expected ∧
  ctx_contract_version w = ep_contract_version expected ∧
  ctx_contract_digest w = ep_contract_digest expected ∧
  ∃ nanos, deadline w = Some nanos ∧ 0 < nanos.
Proof.
  unfold validateInvocationContext.
  rewrite throw_bind_Ok, throw_if_Ok, !orb_false_iff, !negb_false_iff, Z.eqb_eq, !bool_decide_eq_true.
  destruct (deadline w) as [n|]; [rewrite Z.leb_gt|]; naive_solver.
Qed.

Lemma validateSubject_spec c w :
  validateSubject c w = Ok tt ↔
  subject w = Some (MkScope "ros1-native-context" (scope_key c)
                      (identity_attributes (ros_master_uri c) (ros_ip c) (ros_hostname c))).
Proof.
  unfold validateSubject. destruct (subject w) as [[kd k attrs]|]; [|naive_solver]. cbn [InstanceSpec.kind key attributes].
  rewrite throw_bind_Ok, throw_if_Ok, !orb_false_iff, !negb_false_iff, !bool_decide_eq_true.
  pose proof (identity_attributes_spec (ros_master_uri c) (ros_ip c) (ros_hostname c) attrs) as Ha.
  split.
  - intros (-> & (((-> & Hu) & Hi) & Hh) & Hs). by rewrite (proj1 Ha).
  - intros [= -> -> E]. apply Ha in E. tauto.
Qed.

Lemma parseInput_spec request expected v :
  parseInput (input request) (schemaReference (ep_input_schema expected))
    (maximum_request_bytes (ep_limits expected)) = Ok v ↔ well_encoded expected request v.
Proof.
  unfold parseInput, well_encoded, parseStrictJson, requireObject.
  rewrite !throw_bind_Ok, orb_false_iff, !negb_false_iff, bool_decide_eq_true, Z.gtb_ltb, Z.ltb_ge, bind_Ok.
  setoid_rewrite throw_bind_Ok. setoid_rewrite negb_false_iff. setoid_rewrite Ok_inj. cbv zeta.
  assert (match schema (input request) with
          | Some actual => bool_decide (SerializeAsString actual =
              SerializeAsString (schemaReference (ep_input_schema expected)))
          | None => false
          end = true ↔ ∃ s, schema (input request) = Some s ∧
     SerializeAsString s = SerializeAsString (schemaReference (ep_input_schema expected))) as ->.
  { destruct (schema (input request)); [rewrite bool_decide_eq_true|]; naive_solver. }
  destruct (strict_parse (value (input request))); naive_solver.
Qed.

(** What the encoding of a result gives. *)
Lemma encoded_uncertain code message v sch maximum x :
  encode_result code message (success v sch maximum) = Err x → is_uncertain x = true.
Proof.
  unfold encode_result, success, writeJson. pose proof (writeString_foreign v) as Hw.
  destruct (writeString v) as [text|[y|y|]]; cbn; try done; [|by intros [= <-]..].
  destruct (throw_if _ _) eqn:Ht; cbn; [done|]. apply throw_if_Err in Ht as [_ <-]. by intros [= <-].
Qed.

Lemma encoded_success code message v sch maximum r :
  encode_result code message (success v sch maximum) = Ok r →
  ∃ text, writeString v = Ok text ∧ Z.of_nat (String.length text) <= maximum ∧
    r = Success (MkPayload PAYLOAD_ENCODING_JSON (Some sch) text) true.
Proof.
  unfold encode_result, success, writeJson. destruct (writeString v) as [text|[| |]]; cbn; try done.
  destruct (throw_if _ _) as [[]|x] eqn:Ht; cbn; [|by destruct x].
  apply throw_if_Ok in Ht. rewrite Z.gtb_ltb, Z.ltb_ge in Ht. intros [= <-]. by exists text.
Qed.

(** A result reported with another class than "uncertain" comes from an exception
    that is not uncertain: the encoding does not give one. *)
Lemma reported_certain {A} (r : fallible A) code message f sch maximum result class c m :
  match r ≫= (λ a, encode_result code message (success (f a) sch maximum)) with
  | Ok encoded => result = encoded
  | Err x => result = failure x
  end →
  result = Failure class c m → class ≠ ERROR_CLASS_UNCERTAIN →
  ∃ x, r = Err x ∧ is_uncertain x = false.
Proof.
  intros Hr Hres Hclass. assert (∀ x, result = failure x → is_uncertain x = false) as Hx.
  { intros x E. rewrite Hres in E. symmetry in E. pose proof (failure_uncertain _ _ _ _ E) as Hu.
    destruct (is_uncertain x); [|done]. by destruct Hclass; apply Hu. }
  destruct r as [a|x]; cbn in Hr; [exfalso|by eauto].
  destruct (encode_result _ _ _) as [encoded|x] eqn:He.
  - apply encoded_success in He as (text & _ & _ & ->). congruence.
  - pose proof (Hx x Hr). apply encoded_uncertain in He. congruence.
Qed.

Lemma reported_success {A} (r : fallible A) code message f sch maximum result payload committed :
  match r ≫= (λ a, encode_result code message (success (f a) sch maximum)) with
  | Ok encoded => result = encoded
  | Err x => result = failure x
  end →
  result = Success payload committed →
  ∃ a, r = Ok a ∧ committed = true ∧ encoding payload = PAYLOAD_ENCODING_JSON ∧
    schema payload = Some sch ∧ writeString (f a) = Ok (value payload) ∧
    Z.of_nat (String.length (value payload)) <= maximum.
Proof.
  intros Hr Hres. assert (∀ x, result ≠ failure x) as Hno.
  { intros [| |]; rewrite Hres; cbn; done. }
  destruct r as [a|x]; cbn in Hr; [|by destruct (Hno x)]. exists a. split; [done|].
  destruct (encode_result _ _ _) as [encoded|x] eqn:He; [|by destruct (Hno x)].
  apply encoded_success in He as (text & Hw & Hlen & ->). rewrite Hr in Hres.
  by injection Hres as <- <-.
Qed.

(** What an accepted publish request has been checked for. *)
Definition publish_bounds (p : PublishRequest J) : Prop :=
  1 <= pub_count p <= 10000 ∧ 1 <= pub_queue_size p <= 10000 ∧
  0 <= pub_wait_for_subscribers_ms p <= 300000 ∧
  is_finite (pub_rate_hz p) = true ∧ SFltb (pub_rate_hz p) kMinimumPublishRateHz = false ∧
  SFltb kMaximumPublishRateHz (pub_rate_hz p) = false ∧
  too_long (pub_count p) (pub_rate_hz p) = false ∧
  0 < pub_deadline_unix_nanos p ∧ pub_has_cancellation p = true.

(** The input of a publish: every member is known, and each of the eight is there, of
    its type and within its bounds. *)
Definition publish_input (v : J) : Prop :=
  Forall (λ m, m ∈ ["topic"; "messageType"; "message"; "publishCount"; "publishRateHz"; "latch";
                    "queueSize"; "waitForSubscribersMs"]) (getMemberNames v) ∧
  named_fields v "topic" "messageType" ∧
  isMember v "message" = true ∧ isObject (at_key v "message") = true ∧
  unsigned_field v "publishCount" 1 10000 ∧
  number_field v "publishRateHz" kMinimumPublishRateHz kMaximumPublishRateHz ∧
  too_long (asUInt64 (at_key v "publishCount")) (asDouble (at_key v "publishRateHz")) = false ∧
  bool_field v "latch" ∧ unsigned_field v "queueSize" 1 10000 ∧
  unsigned_field v "waitForSubscribersMs" 0 300000.

(** The request such an input stands for. *)
Definition publish_of (v : J) (deadline_nanos : Z) : PublishRequest J :=
  MkPublishRequest (asString (at_key v "topic")) (asString (at_key v "messageType"))
    (at_key v "message") (asUInt64 (at_key v "publishCount")) (asDouble (at_key v "publishRateHz"))
    (asBool (at_key v "latch")) (asUInt64 (at_key v "queueSize"))
    (asUInt64 (at_key v "waitForSubscribersMs")) deadline_nanos true.

Lemma publish_request_accepted enabled c request p :
  publish_request enabled c request = Ok p →
  enabled = true ∧ addressed kPublish c request ∧
  (∃ v, well_encoded kPublish request v ∧ publish_input v ∧
        p = publish_of v (deadline_nanos request)) ∧
  publish_bounds p.
Proof.
  unfold publish_request. intros Hr.
  apply throw_bind_Ok in Hr as [Hen%negb_false_iff Hr].
  apply bind_Ok in Hr as ([] & Hctx%validateInvocationContext_spec & Hr).
  apply bind_Ok in Hr as ([] & Hsub%validateSubject_spec & Hr).
  apply bind_Ok in Hr as (v & Hv%parseInput_spec & Hr).
  apply bind_Ok in Hr as ([] & Hu%reject_unknown_spec & Hr).
  apply bind_Ok in Hr as (topic & [Ht ->]%requiredString_exact & Hr).
  apply bind_Ok in Hr as (type & [Hty ->]%requiredString_exact & Hr).
  apply bind_Ok in Hr as ([] & Hname%ros_name_accepts_exactly & Hr).
  apply bind_Ok in Hr as ([] & Htype%ros_type_accepts_exactly & Hr).
  apply throw_bind_Ok in Hr as [Hmem%negb_false_iff Hr].
  apply bind_Ok in Hr as ([] & Hobj%requireObject_exact & Hr).
  apply bind_Ok in Hr as (count & [Hc ->]%requiredUInt_exact & Hr); [|unfold kMaximumPublishCount; lia..].
  apply bind_Ok in Hr as (rate & [Hrate ->]%requiredNumber_exact & Hr).
  apply throw_bind_Ok in Hr as [Hlong Hr].
  apply bind_Ok in Hr as (latched & [Hlatch ->]%requiredBool_exact & Hr).
  apply bind_Ok in Hr as (queue & [Hq ->]%requiredUInt_exact & Hr); [|unfold kMaximumQueueSize; lia..].
  apply bind_Ok in Hr as (wait & [Hw ->]%requiredUInt_exact & [= <-]); [|unfold kMaximumWaitMilliseconds; lia..].
  destruct Hctx as (? & ? & ? & ? & nanos & Hd & Hn).
  split; [done|]. split; [by repeat (split; [done|]); split; eauto|]. split.
  - exists v. split; [done|]. split; [|done]. unfold publish_input, named_fields. by split_and!.
  - unfold deadline_nanos. rewrite Hd. destruct Hc as (_ & _ & _ & Hc), Hq as (_ & _ & _ & Hq),
      Hw as (_ & _ & _ & Hw), Hrate as (_ & _ & ? & ? & ?).
    unfold publish_bounds. cbn. unfold kMaximumPublishCount, kMaximumQueueSize, kMaximumWaitMilliseconds in *.
    split_and!; done || lia.
Qed.

Section publish.
Context (os : Os) (env : PublishEnv) (enabled : bool) (c : NativeContext) (request : OperationRequest).
(** The generation provider throws no "uncertain" error and roscpp none of this
    program's. *)
Context (generation_ok : ∀ t, fails_with certain_error (generation_at env t)).
Context (subscribers_ok : ∀ t, fails_with foreign (subscribers_at env t)).
Context (w w' : world Registry) (result : OperationResult) (e : list publish_event).
Context (ran : Publish os env enabled c request w = MkRun (Some (Ok result)) e w').

Definition publish_report (published : PublishResult) : fallible OperationResult :=
  encode_result "publish_result_encoding_failed"
    "ROS1 message was published but its result could not be encoded"
    (success (published_json published) (schemaReference (ep_output_schema kPublish))
       (maximum_response_bytes (ep_limits kPublish))).

Lemma Publish_cases :
  (∃ x, publish_request enabled c request = Err x ∧ result = failure x ∧ e = []) ∨
  (∃ p r, publish_request enabled c request = Ok p ∧ publish_trace p r e ∧
     match r ≫= publish_report with
     | Ok encoded => result = encoded
     | Err x => result = failure x
     end).
Proof.
  destruct (handler_cases _ _ publish_report _ _ _ _ ran) as [?|(p & r & w1 & Hp & Hrun & Hr)];
    [by left|right].
  destruct (publish_request_accepted _ _ _ _ Hp) as (_ & _ & _ & (Hcount & _)).
  exists p, r. split; [done|]. split; [|done].
  eapply (publish_ended (M:=M) (T:=T) (B:=B) os env default_limits p); [cbn; lia|done..|lia|exact Hrun].
Qed.

(** C12: an honest failure. When [Publish] reports a failure of any class but
    "uncertain", no message was handed to roscpp. *)
Theorem reported_publish_failure_dispatched_nothing class code message :
  result = Failure class code message → class ≠ ERROR_CLASS_UNCERTAIN → NativePublish ∉ e.
Proof.
  intros Hres Hclass.
  destruct Publish_cases as [(x & _ & _ & ->)|(p & r & _ & Htrace & Hr)]; [set_solver|].
  destruct (reported_certain _ _ _ _ _ _ _ _ _ _ Hr Hres Hclass) as (x & -> & Hx).
  destruct Htrace as [(y & _ & _ & [->|[n ->]])|(n & k & -> & Hu & _)]; [set_solver..|].
  unfold uncertain_error in Hu. congruence.
Qed.

(** C14: a reported success. When [Publish] reports success, the request was accepted,
    exactly its number of messages was handed to roscpp through one lease, and the
    payload is the JSON text of that result in the compiled output schema, within
    the response limit; the side effect is reported as committed. *)
Theorem reported_publish_success payload committed :
  result = Success payload committed →
  ∃ p published entry,
    publish_request enabled c request = Ok p ∧ publish_bounds p ∧
    published_count published = pub_count p ∧ result_topic published = pub_topic p ∧
    result_message_type published = pub_message_type p ∧
    e = Leased (pub_topic p) entry :: Released (pub_topic p) entry true ::
        replicate (Z.to_nat (pub_count p)) NativePublish ∧
    committed = true ∧ encoding payload = PAYLOAD_ENCODING_JSON ∧
    schema payload = Some (schemaReference (ep_output_schema kPublish)) ∧
    writeString (published_json published) = Ok (value payload) ∧
    Z.of_nat (String.length (value payload)) <= maximum_response_bytes (ep_limits kPublish).
Proof.
  intros Hres. destruct Publish_cases as [(x & _ & Hf & _)|(p & r & Hp & Htrace & Hr)].
  { rewrite Hres in Hf. by destruct x. }
  destruct (reported_success _ _ _ _ _ _ _ _ _ Hr Hres) as (published & -> & Hrep).
  destruct Htrace as [(x & ? & _)|(entry & n & -> & Hn & Hcount & Htopic & Htype)]; [done|].
  destruct (publish_request_accepted _ _ _ _ Hp) as (_ & _ & _ & Hb).
  exists p, published, entry. replace (Z.to_nat (pub_count p)) with n by lia.
  by split_and!; try apply Hrep.
Qed.

End publish.

(** ** Service calls *)

Definition service_bounds (p : ServiceCallRequest J) : Prop :=
  0 <= req_wait_for_service_ms p <= 300000 ∧ 1 <= req_call_timeout_ms p <= 300000 ∧
  0 < req_deadline_unix_nanos p ∧ req_has_cancellation p = true.

(** The input of a call. *)
Definition service_input (v : J) : Prop :=
  Forall (λ m, m ∈ ["service"; "serviceType"; "request"; "waitForServiceMs"; "callTimeoutMs"])
    (getMemberNames v) ∧
  named_fields v "service" "serviceType" ∧
  isMember v "request" = true ∧ isObject (at_key v "request") = true ∧
  unsigned_field v "waitForServiceMs" 0 300000 ∧ unsigned_field v "callTimeoutMs" 1 300000.

(** The request such an input stands for. *)
Definition service_of (v : J) (deadline_nanos : Z) : ServiceCallRequest J :=
  MkServiceCallRequest (asString (at_key v "service")) (asString (at_key v "serviceType"))
    (at_key v "request") (asUInt64 (at_key v "waitForServiceMs"))
    (asUInt64 (at_key v "callTimeoutMs")) deadline_nanos true.

Lemma service_request_accepted enabled c request p :
  service_request enabled c request = Ok p →
  enabled = true ∧ addressed kService c request ∧
  (∃ v, well_encoded kService request v ∧ service_input v ∧
        p = service_of v (deadline_nanos request)) ∧
  service_bounds p.
Proof.
  unfold service_request. intros Hr.
  apply throw_bind_Ok in Hr as [Hen%negb_false_iff Hr].
  apply bind_Ok in Hr as ([] & Hctx%validateInvocationContext_spec & Hr).
  apply bind_Ok in Hr as ([] & Hsub%validateSubject_spec & Hr).
  apply bind_Ok in Hr as (v & Hv%parseInput_spec & Hr).
  apply bind_Ok in Hr as ([] & Hu%reject_unknown_spec & Hr).
  apply bind_Ok in Hr as (service & [Ht ->]%requiredString_exact & Hr).
  apply bind_Ok in Hr as (type & [Hty ->]%requiredString_exact & Hr).
  apply bind_Ok in Hr as ([] & Hname%ros_name_accepts_exactly & Hr).
  apply bind_Ok in Hr as ([] & Htype%ros_type_accepts_exactly & Hr).
  apply throw_bind_Ok in Hr as [Hmem%negb_false_iff Hr].
  apply bind_Ok in Hr as ([] & Hobj%requireObject_exact & Hr).
  apply bind_Ok in Hr as (wait & [Hw ->]%requiredUInt_exact & Hr); [|unfold kMaximumWaitMilliseconds; lia..].
  apply bind_Ok in Hr as (timeout & [Hc ->]%requiredUInt_exact & [= <-]); [|unfold kMaximumWaitMilliseconds; lia..].
  destruct Hctx as (? & ? & ? & ? & nanos & Hd & Hn).
  split; [done|]. split; [by repeat (split; [done|]); split; eauto|]. split.
  - exists v. split; [done|]. split; [|done]. unfold service_input, named_fields. by split_and!.
  - unfold deadline_nanos. rewrite Hd. destruct Hc as (_ & _ & _ & Hc), Hw as (_ & _ & _ & Hw).
    unfold service_bounds. cbn. unfold kMaximumWaitMilliseconds in *. split_and!; done || lia.
Qed.

Section service.
Context (os : Os) (proc : Processes) (enabled : bool) (c : NativeContext) (request : OperationRequest).
Context (w w' : world HelperProcess) (result : OperationResult) (e : list call_event).
Context (ran : CallService os proc enabled c request w = MkRun (Some (Ok result)) e w').

Definition service_report (called : ServiceCallResult J) : fallible OperationResult :=
  encode_result "service_result_encoding_failed"
    "ROS1 service executed but its result could not be encoded"
    (success (response_json_of called) (schemaReference (ep_output_schema kService))
       (maximum_response_bytes (ep_limits kService))).

Lemma CallService_cases :
  (∃ x, service_request enabled c request = Err x ∧ result = failure x ∧ e = []) ∨
  (∃ p r w1, service_request enabled c request = Ok p ∧
     call os proc default_limits kMaximumInFlight p w = MkRun (Some r) e w1 ∧
     match r ≫= service_report with
     | Ok encoded => result = encoded
     | Err x => result = failure x
     end).
Proof. exact (handler_cases _ _ service_report _ _ _ _ ran). Qed.

(** C17: no effect without a valid request. If [CallService] interacted with the system
    at all, the capability was active, the request named this capability's contract
    and this process's native context, had a deadline, and carried JSON of the
    compiled input schema: an object [v] with no unknown member in which each of the
    five members has its type and lies within its bounds, the wait and the call
    timeout included; and what was executed is the request [v] stands for. *)
Theorem service_acts_only_on_valid_requests :
  e ≠ [] →
  enabled = true ∧ addressed kService c request ∧
  ∃ v, well_encoded kService request v ∧ service_input v ∧
    service_request enabled c request = Ok (service_of v (deadline_nanos request)) ∧
    ∃ r w1, call (M:=M) (T:=T) (B:=B) os proc default_limits kMaximumInFlight
              (service_of v (deadline_nanos request)) w = MkRun (Some r) e w1.
Proof.
  intros He. destruct CallService_cases as [(x & _ & _ & ->)|(p & r & w1 & Hp & Hrun & _)]; [done|].
  destruct (service_request_accepted _ _ _ _ Hp) as (? & ? & (v & ? & ? & ->) & _).
  split; [done|]. split; [done|]. exists v. split_and!; [done..|]. eauto.
Qed.

(** What the helper of the call did of its own run before it ended or was killed. *)
Context (hos : Os) (ros : HelperRos) (hw : world unit) (eh : list helper_event).
Context (helper_ran : eh `prefix_of` events (runHelper hos ros hw)).
Context (request_delivered : helper_received eh `prefix_of` sent e).

(** A helper that received nothing made no call. *)
Lemma idle_helper : e = [] → natives eh = [].
Proof.
  intros ->. destruct (helper_safe_prefix eh _ helper_ran (runHelper_spec hos ros hw)) as [[Hn _]|Hc];
    [done|exfalso].
  destruct Hc as (header & service & md5' & payload & commit & answer & before & after & Hc).
  cbv zeta in Hc. destruct Hc as (Heh & _ & _ & Hr & Hparts & _).
  apply prefix_length in request_delivered. rewrite Heh, helper_received_app, Hr, !length_app in request_delivered.
  destruct Hparts as [Hlh _]. rewrite Hlh in request_delivered. unfold frame_size in *. cbn in *. lia.
Qed.

(** C13: an honest failure. When [CallService] reports a failure of any class but
    "uncertain", the helper never entered the native service call. *)
Theorem reported_service_failure_made_no_call class code message :
  result = Failure class code message → class ≠ ERROR_CLASS_UNCERTAIN → natives eh = [].
Proof.
  intros Hres Hclass. destruct CallService_cases as [(x & _ & _ & He)|(p & r & w1 & Hp & Hrun & Hr)];
    [by apply idle_helper|].
  destruct (service_request_accepted _ _ _ _ Hp) as (_ & _ & _ & Hb).
  destruct (reported_certain _ _ _ _ _ _ _ _ _ _ Hr Hres Hclass) as (x & -> & Hx).
  eapply (certain_failure_fence (M:=M) (T:=T) (B:=B) default_limits ltac:(cbn; lia) p
            ltac:(destruct Hb; lia) _ _ _ _ _ _ _ Hrun); eauto.
Qed.

(** C15: a reported success. When [CallService] reports success, the helper made one
    native call, of the requested service with the serialised request, and the
    payload is the JSON text of a result whose response is the codec's encoding of
    what that call answered. *)
Theorem reported_service_success payload committed :
  received e `prefix_of` helper_sent eh → result = Success payload committed →
  ∃ p called description bytes response data,
    service_request enabled c request = Ok p ∧ service_bounds p ∧
    prepared_ok (M:=M) (T:=T) (B:=B) default_limits p description bytes ∧
    natives eh = [NativeCall (string_bytes (req_service p)) (string_bytes (md5 description))
                    (serviceRequest bytes) (NativeReturned response)] ∧
    responsePayload response = Some data ∧
    response_json (M:=M) (T:=T) (B:=B) default_limits description data (res_response called) ∧
    committed = true ∧ encoding payload = PAYLOAD_ENCODING_JSON ∧
    schema payload = Some (schemaReference (ep_output_schema kService)) ∧
    writeString (response_json_of called) = Ok (value payload).
Proof.
  intros Hback Hres. destruct CallService_cases as [(x & _ & Hf & _)|(p & r & w1 & Hp & Hrun & Hr)].
  { rewrite Hres in Hf. by destruct x. }
  destruct (reported_success _ _ _ _ _ _ _ _ _ Hr Hres) as (called & -> & ? & ? & ? & ? & _).
  destruct (service_request_accepted _ _ _ _ Hp) as (_ & _ & _ & Hb).
  destruct (success_fence (M:=M) (T:=T) (B:=B) default_limits ltac:(cbn; lia) p
              ltac:(destruct Hb; lia) _ _ _ _ _ _ _ Hrun hos ros hw eh helper_ran
              request_delivered called Hback eq_refl) as (d & bytes & response & data & ? & ? & ? & ?).
  exists p, called, d, bytes, response, data. by split_and!.
Qed.

End service.
End operations.

(** ** Operations evaluated *)

Module OperationDemo.
#[global] Instance schema_bytes : SchemaBytes := type_name.

Definition request (expected : Endpoint) (text : string) : OperationRequest :=
  MkOperationRequest
    (MkWorkContext (ep_capability_id expected) (ep_endpoint_id expected)
       (ep_contract_version expected) (ep_contract_digest expected) (Some 1000000000)
       (scope AdapterDemo.spec))
    (MkPayload PAYLOAD_ENCODING_JSON (Some (schemaReference (ep_input_schema expected))) text).

(** Three messages; and a publish cancelled before its dispatch. *)
Definition publish_with (cancel : nat → bool) :=
  Publish (PublishDemo.os cancel) PublishDemo.env true AdapterDemo.context
    (request kPublish AdapterDemo.publish_text) PublishDemo.start.
Definition published := publish_with (λ _, false).
Definition cancelled := publish_with (Nat.leb 7).

Definition published_payload : Payload :=
  MkPayload PAYLOAD_ENCODING_JSON (Some (schemaReference (ep_output_schema kPublish))) "{event}".
Lemma publish_published_run :
  published = MkRun (Some (Ok (Success published_payload true))) (events published) (after published).
Proof. vm_compute. reflexivity. Qed.

Definition cancelled_result : OperationResult :=
  Failure ERROR_CLASS_CANCELLED "publish_cancelled"
    "ROS1 topic publish was cancelled before dispatch".
Lemma publish_cancelled_run :
  cancelled = MkRun (Some (Ok cancelled_result)) (events cancelled) (after cancelled).
Proof. vm_compute. reflexivity. Qed.

(** A cancellation seen between the release of the lease and the first message is
    reported as uncertain although nothing was handed to roscpp. *)
Example stopped_before_the_first_message :
  outcome (publish_with (Nat.leb 10)) =
    Some (Ok (Failure ERROR_CLASS_UNCERTAIN "publish_cancelled_after_dispatch"
                "ROS1 topic publish was cancelled after native dispatch")) ∧
  events (publish_with (Nat.leb 10)) = [Leased "/flag" 0; Released "/flag" 0 true].
Proof. vm_compute. auto. Qed.

(** A service that answers; and a helper that disappears before it is ready. *)
Definition call_with (recv : nat → RecvAnswer) :=
  CallService (Demo.os recv) Demo.processes true AdapterDemo.context
    (request kService AdapterDemo.service_text) Demo.start_world.
Definition answers (t : nat) : RecvAnswer :=
  RecvBytes (if Nat.ltb t 42 then Demo.ready else if Nat.ltb t 52 then Demo.response else [byte_of 1]).
Definition called := call_with answers.
Definition lost := call_with (λ _, RecvBytes []).

Definition called_payload : Payload :=
  MkPayload PAYLOAD_ENCODING_JSON (Some (schemaReference (ep_output_schema kService))) "{event}".
Lemma call_called_run :
  called = MkRun (Some (Ok (Success called_payload true))) (events called) (after called).
Proof. vm_compute. reflexivity. Qed.

Definition lost_result : OperationResult :=
  Failure ERROR_CLASS_TRANSIENT "service_helper_unavailable"
    "ROS1 service helper failed before dispatch: service helper disconnected".
Lemma call_lost_run : lost = MkRun (Some (Ok lost_result)) (events lost) (after lost).
Proof. vm_compute. reflexivity. Qed.

Definition helper_trace (available : list byte) : list helper_event :=
  events (runHelper (Demo.helper_os available) Demo.ros (MkWorld 0 tt)).
End OperationDemo.

Lemma reported_publish_failure_dispatched_nothing_witness :
  NativePublish ∉ events OperationDemo.cancelled.
Proof.
  eapply (reported_publish_failure_dispatched_nothing _ PublishDemo.env true AdapterDemo.context _
            ltac:(done) ltac:(done) _ _ _ _ OperationDemo.publish_cancelled_run); [reflexivity|discriminate].
Defined.

Lemma reported_publish_success_witness :
  ∃ (p : PublishRequest json) published entry,
    publish_request true AdapterDemo.context
      (OperationDemo.request kPublish AdapterDemo.publish_text) = Ok p ∧ publish_bounds p ∧
    published_count published = pub_count p ∧ result_topic published = pub_topic p ∧
    result_message_type published = pub_message_type p ∧
    events OperationDemo.published =
      Leased (pub_topic p) entry :: Released (pub_topic p) entry true ::
      replicate (Z.to_nat (pub_count p)) NativePublish ∧
    true = true ∧ PAYLOAD_ENCODING_JSON = PAYLOAD_ENCODING_JSON ∧
    schema OperationDemo.published_payload = Some (schemaReference (ep_output_schema kPublish)) ∧
    writeString (published_json published) = Ok "{event}" ∧
    Z.of_nat (String.length "{event}") <= maximum_response_bytes (ep_limits kPublish).
Proof.
  exact (reported_publish_success _ PublishDemo.env true AdapterDemo.context _
           ltac:(done) ltac:(done) _ _ _ _ OperationDemo.publish_published_run
           OperationDemo.published_payload true eq_refl).
Defined.


Lemma reported_service_failure_made_no_call_witness :
  natives (OperationDemo.helper_trace (sent (events OperationDemo.lost))) = [].
Proof.
  eapply (reported_service_failure_made_no_call _ _ _ _ _ _ _ _ _ OperationDemo.call_lost_run
            (Demo.helper_os (sent (events OperationDemo.lost))) Demo.ros (MkWorld 0 tt)).
  - apply prefix_of_self.
  - apply (bool_decide_unpack _). vm_compute. exact I.
  - reflexivity.
  - discriminate.
Defined.

Lemma reported_service_success_witness :
  ∃ (p : ServiceCallRequest json) called description bytes response data,
    service_request true AdapterDemo.context
      (OperationDemo.request kService AdapterDemo.service_text) = Ok p ∧ service_bounds p ∧
    prepared_ok (M:=msg) (T:=msg) (B:=list byte) default_limits p description bytes ∧
    natives (OperationDemo.helper_trace (sent (events OperationDemo.called))) =
      [NativeCall (string_bytes (req_service p)) (string_bytes (md5 description))
         (serviceRequest bytes) (NativeReturned response)] ∧
    responsePayload response = Some data ∧
    response_json (M:=msg) (T:=msg) (B:=list byte) default_limits description data
      (res_response called) ∧
    true = true ∧ PAYLOAD_ENCODING_JSON = PAYLOAD_ENCODING_JSON ∧
    schema OperationDemo.called_payload = Some (schemaReference (ep_output_schema kService)) ∧
    writeString (response_json_of called) = Ok "{event}".
Proof.
  eapply (reported_service_success _ _ _ _ _ _ _ _ _ OperationDemo.call_called_run
            (Demo.helper_os (sent (events OperationDemo.called))) Demo.ros (MkWorld 0 tt)
            _ ltac:(apply prefix_of_self) _ OperationDemo.called_payload).
  - apply (bool_decide_unpack _). vm_compute. exact I.
  - reflexivity.
Unshelve.
  apply (bool_decide_unpack _). vm_compute. exact I.
Defined.

Lemma service_acts_only_on_valid_requests_witness :
  true = true ∧
  addressed kService AdapterDemo.context (OperationDemo.request kService AdapterDemo.service_text) ∧
  ∃ v : json,
    well_encoded kService (OperationDemo.request kService AdapterDemo.service_text) v ∧
    service_input v ∧
    service_request true AdapterDemo.context (OperationDemo.request kService AdapterDemo.service_text) =
      Ok (service_of v 1000000000) ∧
    ∃ r w1, call (M:=msg) (T:=msg) (B:=list byte) (Demo.os OperationDemo.answers) Demo.processes
              default_limits kMaximumInFlight (service_of v 1000000000) Demo.start_world =
            MkRun (Some r) (events OperationDemo.called) w1.
Proof.
  eapply (service_acts_only_on_valid_requests _ _ _ _ _ _ _ _ _ OperationDemo.call_called_run).
  vm_compute. discriminate.
Defined.

(** The native call is made in one case and not in the other. *)
Example operation_demo_calls :
  length (natives (OperationDemo.helper_trace (sent (events OperationDemo.called)))) = 1%nat ∧
  length (natives (OperationDemo.helper_trace (sent (events OperationDemo.lost)))) = 0%nat ∧
  events OperationDemo.published =
    [Leased "/flag" 0; Released "/flag" 0 true; NativePublish; NativePublish; NativePublish].
Proof. vm_compute. auto. Qed.
