(* ===== verification/MasterWatch.v ===== *)
(** * The adapter process (src/main.cpp)

    Command line, start-up order, the loop that watches the ROS master, and the
    exit code.  The bootstrap file, the runtime client, roscpp and the other
    threads (signals, runtime callbacks, publishing threads) are answered by the
    surroundings. *)

From S2P Require Import Prelude Bytes Errors Effects Libraries Regex Validation InstanceSpec PublisherRegistry ToolsAdapter.
Local Open Scope Z_scope.

(** ** Command line *)

Inductive Bootstrap := HelpRequested | BootstrapPath (path : string).

(** [arguments] is [argv], the program name first. *)
Definition parseBootstrapPath (arguments : list string) : fallible Bootstrap :=
  match arguments with
  | [_; argument] =>
      if bool_decide (argument = "--help") || bool_decide (argument = "-h")
      then Ok HelpRequested
      else Err (StdExn "exactly --adapter-bootstrap-file PATH is required")
  | [_; option; path] =>
      if bool_decide (option = "--adapter-bootstrap-file") && negb (bool_decide (path = ""))
      then Ok (BootstrapPath path)
      else Err (StdExn "exactly --adapter-bootstrap-file PATH is required")
  | _ => Err (StdExn "exactly --adapter-bootstrap-file PATH is required")
  end.

(** ** The process *)

Inductive node_event :=
| EnvironmentApplied (context : NativeContext)
| RosInitialised
| SpinnerStarted
| RuntimeStarted
| Probed (state : MasterBindingState)
| RuntimeStopped
| SpinnerStopped
| RosShutdown.

(** [stop_requested] as this thread left it; [ros_initialised] is what
    [ros::isInitialized()] answers. *)
Record Node := MkNode {
  node_adapter : option ToolsAdapter;
  stop_requested : bool;
  environment : gmap string string;
  ros_initialised : bool
}.

Record BootstrapConfig := MkBootstrapConfig {
  initial_spec : AdapterInstanceSpec;
  capabilities : list CapabilityContract
}.

Record NodeEnv := MkNodeEnv {
  watch_bound : nat;
  bootstrap_file : string → fallible BootstrapConfig;   (* ClientConfig::FromBootstrapFile *)
  setenv_at : nat → option string;
  ros_init : fallible unit;                             (* ros::init *)
  node_start : fallible unit;                           (* NodeHandle and spinner *)
  bind_capability : CapabilityContract → bool → result string unit;
  runtime_start : result string unit;                   (* Client::Start *)
  node_ok_at : nat → bool;                              (* ros::ok() *)
  stop_at : nat → bool;                                 (* a signal or callback asked to stop *)
  generation_of : nat → fallible Z;
  others_at : nat → ToolsAdapter → ToolsAdapter;        (* other threads, between polls *)
  session_lost_at : nat → bool
}.

Definition kUnavailableExitPolls : Z := 10.

Section node.
Context {J : Type} `{JsonCpp J} `{!AdapterLibraries J} `{!Contract}.
Context (env : NodeEnv).
Abbreviation node_comp := (comp node_event Node).

Definition set_adapter (adapter : ToolsAdapter) : node_comp unit :=
  modify (λ node, MkNode (Some adapter) (stop_requested node) (environment node)
                    (ros_initialised node)).

Definition request_stop : node_comp unit :=
  modify (λ node, MkNode (node_adapter node) true (environment node) (ros_initialised node)).

(** [ros::ok() && !stop_requested] *)
Definition keep_running : node_comp bool :=
  ok ← ask (node_ok_at env);
  if negb ok then mret false
  else
    stopped ← ask (stop_at env);
    node ← get;
    mret (negb (stopped || stop_requested node)).

Definition probe_master : node_comp MasterBindingState :=
  others ← ask (others_at env);
  answer ← ask (generation_of env);
  node ← get;
  match node_adapter node with
  | None => no_result                    (* the loop runs after the construction *)
  | Some adapter =>
      let '(state, _, adapter) := ProbeMasterBinding answer (others adapter) in
      set_adapter adapter;;
      emit (Probed state);;
      mret state
  end.

(** One turn, with the counter [unavailable_polls]. *)
Definition watch_turn (unavailable_polls : Z) : node_comp (Z + unit) :=
  running ← keep_running;
  if negb running then mret (inr tt)
  else
    state ← probe_master;
    match state with
    | Changed => request_stop;; mret (inl unavailable_polls)
    | Unavailable =>
        let unavailable_polls := unavailable_polls + 1 in
        when (unavailable_polls >=? kUnavailableExitPolls) request_stop;;
        mret (inl unavailable_polls)
    | Bound | Unbound => mret (inl 0)
    end.

Definition watch_master : node_comp unit := loop (watch_bound env) watch_turn 0.

(** [ApplyEnvironment] on the environment of the process. *)
Definition apply_environment (context : NativeContext) : node_comp unit := λ w,
  let r := ApplyEnvironment (setenv_at env) context (MkWorld (tick w) (environment (local w))) in
  MkRun (outcome r) []
    (MkWorld (tick (after r))
       (MkNode (node_adapter (local w)) (stop_requested (local w)) (local (after r))
          (ros_initialised (local w)))).

(** A [false] result with its error text, as the exception [main] throws. *)
Definition or_throw (prefix : string) (r : result string unit) : fallible unit :=
  match r with Ok _ => Ok tt | Err error => Err (StdExn (prefix +:+ error)) end.

(** Up to the initialisation of ROS. *)
Definition configure (path : string) : node_comp (BootstrapConfig * NativeContext) :=
  config ← lift (bootstrap_file env path);
  native_context ← lift (FromInstanceSpec (initial_spec config));
  apply_environment native_context;;
  emit (EnvironmentApplied native_context);;
  mret (config, native_context).

Definition initialise_ros : node_comp unit :=
  lift (ros_init env);;
  modify (λ node, MkNode (node_adapter node) (stop_requested node) (environment node) true);;
  emit RosInitialised;;
  lift (node_start env);;
  emit SpinnerStarted.

(** From the initialised ROS on. *)
Definition serve (config : BootstrapConfig) (native_context : NativeContext) : node_comp Z :=
  adapter ← lift (newToolsAdapter native_context);
  set_adapter adapter;;
  lift (or_throw "" (BindCapabilities (bind_capability env) (Some (capabilities config))
                       (Some adapter)));;
  lift (or_throw "Adapter Runtime startup failed: " (runtime_start env));;
  emit RuntimeStarted;;
  watch_master;;
  emit RuntimeStopped;;
  emit SpinnerStopped;;
  emit RosShutdown;;
  session_lost ← ask (session_lost_at env);
  mret (if session_lost : bool then 2 else 0).

(** The [try] block. *)
Definition run_node (arguments : list string) : node_comp Z :=
  bootstrap ← lift (parseBootstrapPath arguments);
  match bootstrap with
  | HelpRequested => mret 0
  | BootstrapPath path =>
      configured ← configure path;
      let '(config, native_context) := configured in
      initialise_ros;;
      serve config native_context
  end.

(** The [catch] clause. *)
Definition exit_on_exception (x : exn) : node_comp Z :=
  match x with
  | OtherExn => throw x
  | _ =>
      node ← get;
      when (ros_initialised node) (emit RosShutdown);;
      mret 1
  end.

Definition main (arguments : list string) : node_comp Z :=
  try_catch (run_node arguments) exit_on_exception.
End node.
