(* ===== verification/MasterWatchLemmas.v ===== *)
(** * When the adapter process stops, and in which order it starts

    The reasons the watch ends for, the number of probes it takes to notice that the
    master is gone, and the order of the steps of the process. *)

From S2P Require Import Prelude Bytes Errors Effects Libraries Instances Regex Validation InstanceSpec InstanceSpecLemmas PublisherRegistry ToolsAdapter AdapterLifecycle MasterWatch.
Local Open Scope Z_scope.

(** The master is known to be another one, or was not reached ten times in a row. *)
Definition exit_condition (l : list MasterBindingState) : Prop :=
  last l = Some Changed ∨ replicate 10 Unavailable `suffix_of` l.

(** [n] is the length of the last row of failures. *)
Definition last_row (l : list MasterBindingState) (n : nat) : Prop :=
  ∃ p, l = p ++ replicate n Unavailable ∧ last p ≠ Some Unavailable.

Lemma last_row_fresh l s : s ≠ Unavailable → last_row (l ++ [s]) 0.
Proof. intros Hs. exists (l ++ [s]). rewrite app_nil_r, last_snoc. naive_solver. Qed.

Lemma last_row_more l n : last_row l n → last_row (l ++ [Unavailable]) (S n).
Proof.
  intros (p & -> & Hp). exists p. split; [|done]. by rewrite replicate_S_end, app_assoc.
Qed.

(** A row of [m] failures at the end is within the last row. *)
Lemma last_row_suffix l n m :
  last_row l n → replicate m Unavailable `suffix_of` l ↔ (m <= n)%nat.
Proof.
  intros (p & -> & Hp). split.
  - intros [k E]. destruct (decide (m <= n)%nat) as [|Hn]; [done|exfalso].
    replace m with (S (m - n - 1) + n)%nat in E by lia. rewrite replicate_add, app_assoc in E.
    apply app_inj_2 in E as [-> _]; [|done]. apply Hp. rewrite replicate_S_end, app_assoc. by rewrite last_snoc.
  - intros Hm. exists (p ++ replicate (n - m) Unavailable). rewrite <- app_assoc, <- replicate_add.
    do 2 f_equal. lia.
Qed.

Section watch.
Context {J : Type} `{JsonCpp J} `{!AdapterLibraries J} `{!Contract} (env : NodeEnv).

(** The surroundings asked the process to stop at some time. *)
Definition asked_to_stop : Prop := ∃ t, node_ok_at env t = false ∨ stop_at env t = true.

(** A check of the loop that starts at tick [t] finds roscpp running and no request to
    stop. *)
Definition check_passed (t : nat) : Prop := node_ok_at env t = true ∧ stop_at env (S t) = false.

Lemma failed_check_asked t : ¬ check_passed t → asked_to_stop.
Proof.
  intros Hno. destruct (node_ok_at env t) eqn:Hok; [|by exists t; left].
  exists (S t). right. apply not_false_is_true. intros Hs. by apply Hno.
Qed.

Lemma keep_running_spec div w :
  wp div (keep_running env)
    (λ r e w', e = [] ∧ local w' = local w ∧
       ∃ b, r = Ok b ∧
         (b = true → stop_requested (local w) = false ∧ check_passed (tick w) ∧ tick w' = (2 + tick w)%nat) ∧
         (b = false → stop_requested (local w) = true ∨ ¬ check_passed (tick w))) w.
Proof.
  unfold keep_running, check_passed. wp_step. wp_step.
  destruct (node_ok_at env (tick w)) eqn:Hok; cbn [negb].
  - wp_steps. cbn [local tick]. split; [done|]. split; [done|]. eexists. split; [done|].
    destruct (stop_at env (S (tick w))) eqn:Hs, (stop_requested (local w)); cbn; naive_solver.
  - wp_steps. split; [done|]. split; [done|]. eexists. split; [done|]. split; [done|]. naive_solver.
Qed.

(** A probe reports one state, leaves the flag alone and takes two ticks. *)
Lemma probe_master_spec w :
  wp True (probe_master env)
    (λ r e w', ∃ s, r = Ok s ∧ e = [Probed s] ∧ tick w' = (2 + tick w)%nat ∧
       stop_requested (local w') = stop_requested (local w)) w.
Proof.
  unfold probe_master. do 6 wp_step. cbn [local]. destruct (node_adapter (local w)) as [a|]; [|done].
  destruct (ProbeMasterBinding _ _) as [[s current] a']. unfold set_adapter. wp_steps. by exists s.
Qed.

(** The checks before each of [n] probes, the first at tick [t0], were passed. *)
Definition checks_passed (t0 n : nat) : Prop := ∀ i, (i < n)%nat → check_passed (t0 + 4 * i).

Lemma checks_passed_snoc t0 n : checks_passed t0 n → check_passed (t0 + 4 * n) → checks_passed t0 (S n).
Proof. intros Hn Ht i Hi. destruct (decide (i = n)) as [->|]; [done|]. apply Hn. lia. Qed.

(** What the events of the loop are, and when the flag is set. *)
Definition watched (t0 : nat) (n : Z) (e : list node_event) (w : world Node) : Prop :=
  ∃ l k, e = Probed <$> l ∧ (∀ l1 l2, l = l1 ++ l2 → l2 ≠ [] → ¬ exit_condition l1) ∧
    (stop_requested (local w) = true ↔ exit_condition l) ∧
    (stop_requested (local w) = false → n = Z.of_nat k ∧ last_row l k ∧ (k < 10)%nat) ∧
    tick w = (t0 + 4 * length l)%nat ∧ checks_passed t0 (length l).

(** How the loop ended. *)
Definition watch_ended (t0 : nat) (e : list node_event) : Prop :=
  ∃ l, e = Probed <$> l ∧
    (∀ l1 l2, l = l1 ++ l2 → l2 ≠ [] → ¬ exit_condition l1) ∧
    checks_passed t0 (length l) ∧
    (exit_condition l ∨ ¬ check_passed (t0 + 4 * length l)).

Lemma prefixes_snoc {A} (P : list A → Prop) l x :
  (∀ l1 l2, l = l1 ++ l2 → l2 ≠ [] → ¬ P l1) → ¬ P l →
  ∀ l1 l2, l ++ [x] = l1 ++ l2 → l2 ≠ [] → ¬ P l1.
Proof.
  intros Hp Hl l1 l2 E Hne. destruct (exists_last Hne) as (l2' & y & ->).
  rewrite app_assoc in E. apply app_inj_2 in E as [-> _]; [|done].
  destruct l2' as [|z l2']; [by rewrite app_nil_r in *|]. eapply Hp; [done|]. done.
Qed.

Lemma watch_turn_spec t0 n e w :
  watched t0 n e w →
  wp True (watch_turn env n)
    (λ r e' w', match r with
                | Ok (inl n') => watched t0 n' (e ++ e') w'
                | Ok (inr _) => watch_ended t0 (e ++ e')
                | Err _ => False
                end) w.
Proof.
  intros (l & k & -> & Hpre & Hstop & Hrow & Htick & Hchecks). unfold watch_turn.
  apply wp_bind. eapply wp_mono; [apply keep_running_spec|].
  intros r e1 w1 (-> & Hl & b & -> & Ht & Hf). cbn beta iota. destruct b; cbn [negb].
  2: { wp_step. rewrite ?app_nil_r. exists l. split_and!; [done..|]. rewrite <- Htick.
       destruct (Hf eq_refl); [left; by apply Hstop|by right]. }
  destruct (Ht eq_refl) as (Hs0 & Hpassed & Htick1). clear Ht Hf.
  destruct (Hrow Hs0) as (-> & Hk & Hlt).
  assert (¬ exit_condition l) as Hno by (intros He%Hstop; congruence).
  assert (∀ s, (Probed <$> l) ++ [Probed s] = Probed <$> (l ++ [s])) as Hsnoc.
  { intros s. by rewrite fmap_app. }
  apply wp_bind. eapply wp_mono; [apply probe_master_spec|].
  intros r e2 w2 (s & -> & -> & Htick2 & Hs). cbn beta iota. rewrite Hl, Hs0 in Hs.
  assert (∀ l1 l2, l ++ [s] = l1 ++ l2 → l2 ≠ [] → ¬ exit_condition l1) as Hpre'.
  { by apply prefixes_snoc. }
  assert (tick w2 = (t0 + 4 * length (l ++ [s]))%nat ∧ checks_passed t0 (length (l ++ [s]))) as Htime.
  { rewrite length_app. cbn [length]. rewrite Nat.add_1_r. split; [lia|]. rewrite Htick in Hpassed.
    by apply checks_passed_snoc. }
  assert (s ≠ Unavailable → s ≠ Changed → watched t0 0 (Probed <$> (l ++ [s])) w2) as Hfresh.
  { intros Hu Hc. exists (l ++ [s]), 0%nat. split; [done|]. split; [done|]. rewrite Hs.
    split; [|split; [|exact Htime]].
    - split; [done|]. intros [Hlast|Hrow']; [rewrite last_snoc in Hlast; congruence|].
      apply (last_row_suffix _ 0) in Hrow'; [lia|by apply last_row_fresh].
    - intros _. split; [done|]. split; [by apply last_row_fresh|lia]. }
  destruct s; unfold after_events; wp_steps; rewrite ?Hsnoc; cbn [app].
  - by apply Hfresh.
  - by apply Hfresh.
  - unfold request_stop. wp_steps. exists (l ++ [Changed]), k. rewrite Hsnoc. split; [done|]. split; [done|].
    cbn [local stop_requested tick]. split; [|split; [done|exact Htime]]. split; [|done].
    intros _. left. by rewrite last_snoc.
  - unfold request_stop. wp_steps. exists (l ++ [Unavailable]), (S k). rewrite Hsnoc.
    split; [done|]. split; [done|]. cbn [local stop_requested tick].
    split; [|split; [done|exact Htime]]. split; [|done].
    intros _. right. apply (last_row_suffix _ (S k)); [by apply last_row_more|].
    unfold kUnavailableExitPolls in *. lia.
  - exists (l ++ [Unavailable]), (S k). split; [done|]. split; [done|]. rewrite Hs.
    unfold kUnavailableExitPolls in *. split; [split; [done|]|split; [|exact Htime]].
    + intros [Hlast|Hrow']; [by rewrite last_snoc in Hlast|].
      apply (last_row_suffix _ (S k)) in Hrow'; [lia|by apply last_row_more].
    + intros _. split; [lia|]. split; [by apply last_row_more|lia].
Qed.

Lemma watch_master_spec w :
  stop_requested (local w) = false →
  wp True (watch_master env) (λ r e w', r = Ok tt ∧ watch_ended (tick w) e) w.
Proof.
  intros Hs. unfold watch_master.
  apply (wp_loop True (watch_turn env) (watched (tick w))
    (λ r e w', r = Ok tt ∧ watch_ended (tick w) e) (watch_bound env) I) with (e := []).
  - intros n e w0 Hw. eapply wp_mono; [by apply watch_turn_spec|].
    intros [[n'|[]]|x] e' w'; [done| |done]. by intros Hl.
  - exists [], 0%nat. split; [done|]. split.
    { intros l1 l2 E Hne. symmetry in E. apply app_eq_nil in E as [-> ->]. done. }
    rewrite Hs. split; [split; [done|]|split; [|split; [cbn; lia|intros i Hi; cbn in Hi; lia]]].
    + intros [?|[k E]]; [done|]. symmetry in E. by apply app_eq_nil in E as [_ ?].
    + intros _. split; [done|]. split; [|lia]. by exists [].
Qed.

(** C21: the watch stops for the right reason, and at once. A turn of the watch takes
    four ticks: it asks roscpp and the stop flag, then probes the master. In a watch
    that ends after the probes [l], every one of them was preceded by a check that
    found roscpp running and no request to stop; none but the last showed another
    master generation or the tenth failure in a row; and either the last one did, or
    the check that follows it found roscpp down or a request to stop. *)
Theorem watch_stops_for_a_reason w r e w' :
  stop_requested (local w) = false → watch_master env w = MkRun (Some r) e w' →
  r = Ok tt ∧ ∃ l, e = Probed <$> l ∧
    (∀ l1 l2, l = l1 ++ l2 → l2 ≠ [] → ¬ exit_condition l1) ∧
    (∀ i, (i < length l)%nat →
       node_ok_at env (tick w + 4 * i) = true ∧ stop_at env (S (tick w + 4 * i)) = false) ∧
    (exit_condition l ∨
     ¬ (node_ok_at env (tick w + 4 * length l) = true ∧
        stop_at env (S (tick w + 4 * length l)) = false)).
Proof. intros Hs Hrun. exact (wp_run True _ _ _ _ _ _ (watch_master_spec w Hs) Hrun). Qed.
End watch.

(** ** The watch ends when the master is gone or replaced *)

Section gone.
Context {J : Type} `{JsonCpp J} `{!AdapterLibraries J} `{!Contract} (env : NodeEnv).
Context (never_asked : ¬ asked_to_stop env).

(** Other threads do not forget the generation the adapter is bound to. *)
Context (generation_kept : ∀ t a,
  master_generation_ (publishers_ (others_at env t a)) = master_generation_ (publishers_ a)).

(** The adapter of a node, bound to generation [g]. *)
Definition bound_to (g : Z) (node : Node) : Prop :=
  ∃ a, node_adapter node = Some a ∧ master_generation_ (publishers_ a) = g.

Lemma keep_running_asked div w :
  wp div (keep_running env)
    (λ r e w', e = [] ∧ local w' = local w ∧ r = Ok (negb (stop_requested (local w)))) w.
Proof.
  eapply wp_mono; [apply keep_running_spec|]. intros r e w' (-> & Hl & b & -> & Ht & Hf).
  split; [done|]. split; [done|]. f_equal. destruct b.
  - by destruct (Ht eq_refl) as [-> _].
  - destruct (Hf eq_refl) as [->|?]; [done|]. destruct never_asked. by eapply failed_check_asked.
Qed.

(** The state a probe reports, for an adapter bound to [g]. *)
Definition probed_state (g : Z) (answer : fallible Z) : MasterBindingState :=
  match answer with
  | Err _ => Unavailable
  | Ok current => if current <=? 0 then Unavailable else if g =? current then Bound else Changed
  end.

Lemma probe_bound g s w :
  g ≠ 0 → bound_to g (local w) → (∀ t, probed_state g (generation_of env t) = s) →
  wp False (probe_master env)
    (λ r e w', r = Ok s ∧ e = [Probed s] ∧ bound_to g (local w') ∧
       stop_requested (local w') = stop_requested (local w)) w.
Proof.
  intros Hg (a & Ha & Hga) Hs. unfold probe_master. do 6 wp_step. cbn [local tick]. rewrite Ha.
  unfold ProbeMasterBinding.
  destruct (probeMasterBinding _ _) as [[state current] reg] eqn:Hp.
  assert (state = s ∧ master_generation_ reg = g) as [-> Hreg].
  { rewrite <- (Hs (S (tick w))). unfold probed_state, probeMasterBinding, unavailable_state, bind_generation in *.
    rewrite generation_kept, Hga in Hp. rewrite (proj2 (Z.eqb_neq g 0) Hg) in Hp.
    destruct (generation_of env (S (tick w))) as [x|x]; [destruct (x <=? 0); [|destruct (g =? x)]|];
      cbn in Hp; injection Hp as <- _ <-; (split; [done|]); by rewrite generation_kept. }
  unfold set_adapter. wp_steps. split; [done|]. split; [done|]. split; [|done].
  cbn. eexists. split; [done|]. done.
Qed.

(** One turn of the watch of a bound adapter. *)
Lemma bound_turn g s n w :
  g ≠ 0 → bound_to g (local w) → (∀ t, probed_state g (generation_of env t) = s) →
  wp False (watch_turn env n)
    (λ r e w', if stop_requested (local w) then r = Ok (inr tt) ∧ e = []
               else e = [Probed s] ∧ bound_to g (local w') ∧
                 match s with
                 | Changed => r = Ok (inl n) ∧ stop_requested (local w') = true
                 | Unavailable => r = Ok (inl (n + 1)) ∧ stop_requested (local w') = (10 <=? n + 1)
                 | _ => r = Ok (inl 0) ∧ stop_requested (local w') = false
                 end) w.
Proof.
  intros Hg Hw Hs. unfold watch_turn. apply wp_bind. eapply wp_mono; [apply keep_running_asked|].
  intros r e1 w1 (-> & Hl & ->). cbn beta iota. destruct (stop_requested (local w)) eqn:Hstop; cbn [negb].
  { by wp_step. }
  apply wp_bind. eapply wp_mono; [apply (probe_bound g s); [done|by rewrite Hl|done]|].
  intros r e2 w2 (-> & -> & Hb & Hstop2). cbn beta iota. rewrite Hl, Hstop in Hstop2.
  unfold request_stop, kUnavailableExitPolls.
  destruct s; unfold after_events; wp_steps; (split; [done|]); (split; [done|]); (split; [done|]); try done.
  - symmetry. apply Z.leb_le. lia.
  - rewrite Hstop2. symmetry. apply Z.leb_gt. lia.
Qed.

Lemma watch_ends g s w (reached : Z → list node_event → bool → Prop) (measure : Z → world Node → nat) :
  g ≠ 0 → bound_to g (local w) → (∀ t, probed_state g (generation_of env t) = s) →
  s = Unavailable ∨ s = Changed →
  reached 0 [] (stop_requested (local w)) → (measure 0%Z w < watch_bound env)%nat →
  (∀ n e w w', reached n e false → stop_requested (local w) = false →
     let n' := match s with Unavailable => n + 1 | _ => n end in
     stop_requested (local w') = match s with Unavailable => 10 <=? n + 1 | _ => true end →
     reached n' (e ++ [Probed s]) (stop_requested (local w')) ∧ (measure n' w' < measure n w)%nat) →
  ∃ n e w', watch_master env w = MkRun (Some (Ok tt)) e w' ∧ reached n e true.
Proof.
  intros Hg Hw Hs Hcase Hstart Hbound Hnext.
  assert (wp False (watch_master env) (after_events [] (λ r e w',
    r = Ok tt ∧ ∃ n, reached n e true)) w) as Hwp.
  { unfold watch_master.
    apply (wp_loop_total False (watch_turn env)
      (λ n e w, reached n e (stop_requested (local w)) ∧ bound_to g (local w)) measure); [|done|done].
    intros n e w0 [Hr Hb]. eapply wp_mono; [by apply (bound_turn g s)|].
    intros r e' w'. destruct (stop_requested (local w0)) eqn:Hstop.
    - intros [-> ->]. rewrite app_nil_r. eauto.
    - intros (-> & Hb' & Hm). specialize (Hnext n e w0 w' Hr Hstop).
      destruct Hcase as [-> | ->]; destruct Hm as [-> Hstop']; destruct (Hnext Hstop'); auto. }
  unfold wp in Hwp. destruct (watch_master env w) as [[r|] e w']; [|done].
  destruct Hwp as [-> [n Hn]]. by exists n, e, w'.
Qed.

(** C22: the watch notices. If the adapter is bound to a master and the master is gone
    for good, the watch ends after exactly ten probes; if the master was replaced, it
    ends after the first. *)
Theorem watch_ends_without_its_master g w :
  (10 < watch_bound env)%nat → g ≠ 0 → bound_to g (local w) → stop_requested (local w) = false →
  ((∀ t, probed_state g (generation_of env t) = Unavailable) →
     ∃ w', watch_master env w = MkRun (Some (Ok tt)) (replicate 10 (Probed Unavailable)) w') ∧
  ((∀ t, probed_state g (generation_of env t) = Changed) →
     ∃ w', watch_master env w = MkRun (Some (Ok tt)) [Probed Changed] w').
Proof.
  intros Hbound Hg Hw Hstop. split; intros Hstate.
  - destruct (watch_ends g Unavailable w
      (λ n e stop, 0 <= n <= 10 ∧ e = replicate (Z.to_nat n) (Probed Unavailable) ∧ stop = (10 <=? n))
      (λ n _, Z.to_nat (10 - n))) as (n & e & w' & -> & Hn & -> & Hten); auto.
    + by rewrite Hstop.
    + intros n e w1 w2 (Hn & -> & Hlt) _ n' ->. symmetry in Hlt. apply Z.leb_gt in Hlt. unfold n'.
      split; [|lia]. split; [lia|]. split; [|done].
      rewrite Z2Nat.inj_add, Nat.add_comm by lia. by rewrite <- replicate_S_end.
    + exists w'. symmetry in Hten. apply Z.leb_le in Hten. by replace n with 10 by lia.
  - destruct (watch_ends g Changed w (λ _ e stop, e = if stop : bool then [Probed Changed] else [])
      (λ _ w, if stop_requested (local w) then 0 else 1)%nat) as (n & e & w' & -> & ->); auto.
    + by rewrite Hstop.
    + rewrite Hstop. lia.
    + intros n e w1 w2 -> H1' n' H2'. rewrite H1', H2'. split; [done|lia].
    + by exists w'.
Qed.
End gone.

(** ** Start-up and exit *)

Section main.
Context {J : Type} `{JsonCpp J} `{!AdapterLibraries J} `{!Contract} (env : NodeEnv).
Context (arguments : list string).

(** The command line names a bootstrap file with a trusted specification. *)
Definition configured (path : string) (config : BootstrapConfig) (context : NativeContext) : Prop :=
  parseBootstrapPath arguments = Ok (BootstrapPath path) ∧
  bootstrap_file env path = Ok config ∧ FromInstanceSpec (initial_spec config) = Ok context.

(** The adapter, its capabilities or the runtime could not be started. *)
Definition start_refused (config : BootstrapConfig) (context : NativeContext) : Prop :=
  (∃ x, newToolsAdapter context = Err x) ∨
  (∃ adapter error, newToolsAdapter context = Ok adapter ∧
     BindCapabilities (bind_capability env) (Some (capabilities config)) (Some adapter) = Err error) ∨
  (∃ error, runtime_start env = Err error).

(** What a process did, with its exit status; [last] is the tick after its last
    interaction.  A status of 1 comes with the step that failed, and a process that
    served answers 2 exactly when the last thing it read was that its session is
    lost. *)
Inductive process_trace (last : nat) : Z → list node_event → Prop :=
| trace_help : parseBootstrapPath arguments = Ok HelpRequested → process_trace last 0 []
| trace_unconfigured :
    parseBootstrapPath arguments ≠ Ok HelpRequested →
    (∀ path config context, configured path config context →
       ∃ t error, setenv_at env t = Some error) →
    process_trace last 1 []
| trace_configured path config context x :
    configured path config context → ros_init env = Err x →
    process_trace last 1 [EnvironmentApplied context]
| trace_initialised path config context x :
    configured path config context → ros_init env = Ok tt → node_start env = Err x →
    process_trace last 1 [EnvironmentApplied context; RosInitialised; RosShutdown]
| trace_refused path config context :
    configured path config context → ros_init env = Ok tt → node_start env = Ok tt →
    start_refused config context →
    process_trace last 1 [EnvironmentApplied context; RosInitialised; SpinnerStarted; RosShutdown]
| trace_served path config context adapter started probes t :
    configured path config context → ros_init env = Ok tt → node_start env = Ok tt →
    newToolsAdapter context = Ok adapter →
    BindCapabilities (bind_capability env) (Some (capabilities config)) (Some adapter) = Ok tt →
    runtime_start env = Ok tt →
    watch_ended env started (Probed <$> probes) → last = S t →
    process_trace last (if session_lost_at env t then 2 else 0)
      ([EnvironmentApplied context; RosInitialised; SpinnerStarted; RuntimeStarted] ++
       (Probed <$> probes) ++ [RuntimeStopped; SpinnerStopped; RosShutdown]).

Lemma setEnvironment_fails name value w :
  wp True (setEnvironment (setenv_at env) name value)
    (λ r _ _, is_Ok r = false → ∃ t error, setenv_at env t = Some error) w.
Proof.
  unfold setEnvironment. wp_step. wp_step.
  destruct (setenv_at env (tick w)) as [error|] eqn:Hs; wp_steps; try done; intros _; eauto.
Qed.

Lemma apply_environment_spec context w :
  wp True (apply_environment env context)
    (λ r e w', e = [] ∧ ros_initialised (local w') = ros_initialised (local w) ∧
               stop_requested (local w') = stop_requested (local w) ∧
               (is_Ok r = false → ∃ t error, setenv_at env t = Some error)) w.
Proof.
  assert (wp True (ApplyEnvironment (setenv_at env) context)
    (λ r _ _, is_Ok r = false → ∃ t error, setenv_at env t = Some error)
    (MkWorld (tick w) (environment (local w)))) as Hf.
  { unfold ApplyEnvironment.
    apply wp_bind. eapply wp_mono; [apply setEnvironment_fails|]. intros [[]|x] ? ? Hx; [|done].
    apply wp_bind. eapply wp_mono; [apply setEnvironment_fails|]. intros [[]|x] ? ? Hy; [|done].
    eapply wp_mono; [apply setEnvironment_fails|]. by intros r ? ? Hz. }
  unfold wp, apply_environment in *. by destruct (ApplyEnvironment _ _ _) as [[r|] e w'].
Qed.

(** The runs of the [try] block, before the [catch] clause. *)
Definition node_run (r : fallible Z) (e : list node_event) (w : world Node) : Prop :=
  match r with
  | Ok status => process_trace (tick w) status e
  | Err x => ∀ last, process_trace last 1 (if ros_initialised (local w) then e ++ [RosShutdown] else e)
  end.

Lemma wp_bind_lift {A B} (r : fallible A) (k : A → comp node_event Node B)
    (Q : fallible B → list node_event → world Node → Prop) w :
  (∀ x, r = Err x → Q (Err x) [] w) → (∀ a, r = Ok a → wp True (k a) Q w) →
  wp True (lift r ≫= k) Q w.
Proof. intros He Hk. apply wp_bind, wp_lift. destruct r; [by apply Hk|by apply He]. Qed.

Lemma or_throw_Err prefix r x : or_throw prefix r = Err x → ∃ error, r = Err error.
Proof. destruct r; cbn; [done|eauto]. Qed.
Lemma or_throw_Ok prefix r u : or_throw prefix r = Ok u → r = Ok tt.
Proof. by destruct r as [[]|]. Qed.

Lemma serve_spec config context path w :
  configured path config context → ros_init env = Ok tt → node_start env = Ok tt →
  ros_initialised (local w) = true → stop_requested (local w) = false →
  wp True (serve env config context)
    (λ r e w', node_run r ([EnvironmentApplied context; RosInitialised; SpinnerStarted] ++ e) w') w.
Proof.
  intros Hconf Hros Hnode Hinit Hstop. unfold serve.
  assert (∀ x w', start_refused config context → ros_initialised (local w') = true →
    node_run (Err x) ([EnvironmentApplied context; RosInitialised; SpinnerStarted] ++ []) w') as Hearly.
  { intros x w' Hr Hi last. rewrite Hi. by apply (trace_refused last path config). }
  apply wp_bind_lift; [intros x Hx; apply Hearly; [left; eauto|done]|]. intros adapter Hadapter.
  unfold set_adapter. do 2 wp_step. apply wp_bind_lift.
  { intros x [error Hx]%or_throw_Err. apply Hearly; [right; left; eauto|done]. }
  intros [] Hbind%or_throw_Ok. apply wp_bind_lift.
  { intros x [error Hx]%or_throw_Err. apply Hearly; [right; right; eauto|done]. }
  intros [] Hrun%or_throw_Ok.
  do 2 wp_step. apply wp_bind. eapply wp_mono; [by apply watch_master_spec|].
  intros r e w1 (-> & Hended). pose proof Hended as (probes & -> & _). cbn beta iota. do 8 wp_step.
  wp_steps. rewrite <- ?app_assoc. cbn [app node_run].
  by eapply (trace_served _ path config context adapter).
Qed.

Lemma run_node_spec w :
  ros_initialised (local w) = false → stop_requested (local w) = false →
  wp True (run_node env arguments) node_run w.
Proof.
  intros Hinit Hstop. unfold run_node.
  assert (∀ x w', ros_initialised (local w') = false →
    parseBootstrapPath arguments ≠ Ok HelpRequested →
    (∀ path config context, configured path config context →
       ∃ t error, setenv_at env t = Some error) → node_run (Err x) [] w') as Hearly.
  { intros x w' Hi Hp Hc last. rewrite Hi. by apply trace_unconfigured. }
  apply wp_bind_lift.
  { intros x Hx. apply Hearly; [done|congruence|]. intros path config context (? & _). congruence. }
  intros [|path] Hargs; [wp_step; by constructor|]. unfold configure. apply wp_bind_assoc, wp_bind_lift.
  { intros x Hx. apply Hearly; [done|congruence|]. intros path' config context (? & ? & _). congruence. }
  intros config Hfile. apply wp_bind_assoc, wp_bind_lift.
  { intros x Hx. apply Hearly; [done|congruence|]. intros path' config' context (? & ? & ?). congruence. }
  intros context Hctx. apply wp_bind_assoc, wp_bind. eapply wp_mono; [apply apply_environment_spec|].
  intros [[]|x] e1 w1 (-> & Hi1 & Hs1 & Hset); rewrite Hinit in Hi1.
  2: { apply Hearly; [done|congruence|]. intros path' config' context' _. by apply Hset. }
  cbn beta iota. rewrite Hstop in Hs1.
  assert (configured path config context) as Hconf by done.
  apply wp_bind_assoc. do 3 wp_step. unfold initialise_ros. apply wp_bind_assoc, wp_bind_lift.
  { intros x Hx last. rewrite Hi1. by apply (trace_configured last path config context x). }
  intros [] Hros. apply wp_bind_assoc. do 2 wp_step. apply wp_bind_assoc. do 2 wp_step.
  apply wp_bind_assoc, wp_bind_lift.
  { intros x Hx last. by apply (trace_initialised last path config context x). }
  intros [] Hnode. do 2 wp_step. eapply wp_mono; [by apply (serve_spec config context path)|].
  intros r e w' Hr. exact Hr.
Qed.

Lemma main_spec w :
  ros_initialised (local w) = false → stop_requested (local w) = false →
  wp True (main env arguments)
    (λ r e w', match r with Ok status => process_trace (tick w') status e | Err x => x = OtherExn end) w.
Proof.
  intros Hinit Hstop. unfold main. apply wp_try_catch.
  eapply wp_mono; [by apply run_node_spec|]. intros [status|x] e w' Hr; [done|]. cbn [node_run] in Hr.
  unfold exit_on_exception. destruct x as [err|text|]; [| |by wp_step].
  all: destruct (ros_initialised (local w')) eqn:Hi; wp_steps; rewrite ?app_nil_r; congruence || apply Hr.
Qed.

(** C23: the life of the process. Every run that exits does so in one of these ways:
    it prints the usage (0); one of its steps fails (1), the bootstrap, the
    environment, ROS, the spinner, the adapter, its capabilities or the runtime, and
    ROS is shut down if it was initialised; or it serves until the watch ends for one
    of its reasons and stops the runtime, the spinner and ROS in this order, with
    status 2 if the session is lost by then and 0 otherwise. ROS is initialised only
    after the environment of the bootstrap's own native context has been applied. *)
Theorem process_runs_in_order w status e w' :
  ros_initialised (local w) = false → stop_requested (local w) = false →
  main env arguments w = MkRun (Some (Ok status)) e w' → process_trace (tick w') status e.
Proof. intros Hi Hs Hrun. exact (wp_run True _ _ _ _ _ _ (main_spec w Hi Hs) Hrun). Qed.
End main.

(** ** A process evaluated *)

Module WatchDemo.
(** A master with process id 7 that is gone after the second probe. *)
Definition env (generation : nat → fallible Z) : NodeEnv :=
  MkNodeEnv 30
    (λ _, Ok (MkBootstrapConfig AdapterDemo.spec
                [compiled_contract kPublish; compiled_contract kService]))
    (λ _, None) (Ok tt) (Ok tt) (λ _ _, Ok tt) (Ok tt) (λ _, true) (λ _, false) generation
    (λ _ a, a) (λ _, false).
Definition until (n t : nat) : fallible Z := if Nat.ltb t n then Ok 7 else Err (StdExn "refused").
Definition arguments : list string := ["node"; "--adapter-bootstrap-file"; "/run/bootstrap"].
Definition start : world Node := MkWorld 0 (MkNode None false ∅ false).
Definition life := main (env (until 12)) arguments start.

Lemma life_run : life = MkRun (Some (Ok 0)) (events life) (after life).
Proof. vm_compute. reflexivity. Qed.

(** Two probes of the master, ten of its absence. *)
Example life_events :
  events life =
  [EnvironmentApplied AdapterDemo.context; RosInitialised; SpinnerStarted; RuntimeStarted;
   Probed Bound; Probed Bound] ++ replicate 10 (Probed Unavailable) ++
  [RuntimeStopped; SpinnerStopped; RosShutdown].
Proof. vm_compute. reflexivity. Qed.

Definition bound_adapter : ToolsAdapter :=
  MkToolsAdapter AdapterDemo.context (MkRegistry ∅ 0 ∅ 7 128) true true false.
Definition watching : world Node := MkWorld 0 (MkNode (Some bound_adapter) false ∅ true).
Definition watch := watch_master (env (until 0)) watching.
Lemma watch_run : watch = MkRun (Some (Ok tt)) (events watch) (after watch).
Proof. vm_compute. reflexivity. Qed.
End WatchDemo.

Lemma watch_stops_for_a_reason_witness :
  let env := WatchDemo.env (WatchDemo.until 0) in
  Ok (E:=exn) tt = Ok tt ∧ ∃ l, events WatchDemo.watch = Probed <$> l ∧
    (∀ l1 l2, l = l1 ++ l2 → l2 ≠ [] → ¬ exit_condition l1) ∧
    (∀ i, (i < length l)%nat → node_ok_at env (0 + 4 * i) = true ∧ stop_at env (S (0 + 4 * i)) = false) ∧
    (exit_condition l ∨
     ¬ (node_ok_at env (0 + 4 * length l) = true ∧ stop_at env (S (0 + 4 * length l)) = false)).
Proof.
  apply (watch_stops_for_a_reason (WatchDemo.env (WatchDemo.until 0)) WatchDemo.watching (Ok tt)
           _ (after WatchDemo.watch)); [reflexivity|exact WatchDemo.watch_run].
Defined.

Lemma watch_ends_without_its_master_witness :
  let env := WatchDemo.env (WatchDemo.until 0) in
  ((∀ t, probed_state 7 (generation_of env t) = Unavailable) →
     ∃ w', watch_master env WatchDemo.watching =
           MkRun (Some (Ok tt)) (replicate 10 (Probed Unavailable)) w') ∧
  ((∀ t, probed_state 7 (generation_of env t) = Changed) →
     ∃ w', watch_master env WatchDemo.watching = MkRun (Some (Ok tt)) [Probed Changed] w').
Proof.
  apply (watch_ends_without_its_master (WatchDemo.env (WatchDemo.until 0))).
  - intros [t [Ht|Ht]]; discriminate.
  - reflexivity.
  - cbn. lia.
  - discriminate.
  - exists WatchDemo.bound_adapter. split; reflexivity.
  - reflexivity.
Defined.

Lemma process_runs_in_order_witness :
  process_trace (WatchDemo.env (WatchDemo.until 12)) WatchDemo.arguments (tick (after WatchDemo.life)) 0
    (events WatchDemo.life).
Proof.
  apply (process_runs_in_order (WatchDemo.env (WatchDemo.until 12)) WatchDemo.arguments
           WatchDemo.start 0 _ (after WatchDemo.life)); [reflexivity..|].
  exact WatchDemo.life_run.
Defined.
