(* ===== verification/Calendar.v ===== *)
(** * UTC dates

    [gmtime_r] and [std::put_time(..., "%Y-%m-%dT%H:%M:%S")] for the seconds of a
    [uint32_t]: the date of a day count, by the lengths of the years and months,
    and its text.  [date_of_day] is the calendar: 1970-01-01 at day 0, and the next
    day at each step. *)

From S2P Require Import Prelude Bytes Decimal.
Local Open Scope Z_scope.

Record date := MkDate { year : Z; month : Z; day : Z }.

Definition leap_year (y : Z) : bool :=
  (y mod 4 =? 0) && (negb (y mod 100 =? 0) || (y mod 400 =? 0)).

Definition year_length (y : Z) : Z := if leap_year y then 366 else 365.
Definition month_lengths (y : Z) : list Z :=
  [31; if leap_year y then 29 else 28; 31; 30; 31; 30; 31; 31; 30; 31; 30; 31].

(** The years a 32-bit number of seconds reaches, and some more. *)
Definition year_lengths : list Z := (λ i, year_length (1970 + Z.of_nat i)) <$> seq 0 200.

(** The piece of a row of pieces that position [r] falls into, counted from [m], and
    the position within it. *)
Fixpoint locate (lengths : list Z) (m r : Z) : Z * Z :=
  match lengths with
  | [] => (m, r)
  | len :: lengths => if r <? len then (m, r) else locate lengths (m + 1) (r - len)
  end.

Definition date_of_day (n : Z) : date :=
  let '(y, r) := locate year_lengths 1970 n in
  let '(m, d) := locate (month_lengths y) 1 r in
  MkDate y m (d + 1).

(** ** The calendar itself *)

Definition month_length (y m : Z) : Z := nth (Z.to_nat (m - 1)) (month_lengths y) 0.

Definition next_day (d : date) : date :=
  if day d <? month_length (year d) (month d) then MkDate (year d) (month d) (day d + 1)
  else if month d <? 12 then MkDate (year d) (month d + 1) 1
  else MkDate (year d + 1) 1 1.

(** The date after [n] days, counted one by one. *)
Definition calendar (n : nat) : date := Nat.iter n next_day (MkDate 1970 1 1).

Definition total (l : list Z) : Z := foldr Z.add 0 l.

(** Where a position falls. *)
Lemma locate_spec l m r :
  0 <= r < total l → let '(m', d) := locate l m r in
  m <= m' < m + Z.of_nat (length l) ∧ 0 <= d < nth (Z.to_nat (m' - m)) l 0.
Proof.
  revert m r. induction l as [|len l IH]; intros m r Hr; [cbn in Hr; lia|].
  cbn [locate length]. change (total (len :: l)) with (len + total l) in Hr.
  destruct (Z.ltb_spec r len) as [Hlt|Hge].
  - rewrite Z.sub_diag. split; [lia|]. exact (conj (proj1 Hr) Hlt).
  - specialize (IH (m + 1) (r - len) ltac:(lia)). destruct (locate l (m + 1) (r - len)) as [m' d].
    destruct IH as [Hm Hd]. split; [lia|].
    replace (Z.to_nat (m' - m)) with (S (Z.to_nat (m' - (m + 1)))) by lia. exact Hd.
Qed.

(** The next position: one further in the same piece, or the start of the next. *)
Lemma locate_next l m r :
  Forall (λ len, 0 < len) l → 0 <= r → r + 1 < total l →
  locate l m (r + 1) =
  let '(m', d) := locate l m r in
  if d + 1 <? nth (Z.to_nat (m' - m)) l 0 then (m', d + 1) else (m' + 1, 0).
Proof.
  intros Hpos. revert m r. induction Hpos as [|len l Hlen Hpos IH]; intros m r H0 Hr; [cbn in Hr; lia|].
  cbn [locate]. change (total (len :: l)) with (len + total l) in Hr.
  destruct (Z.ltb_spec r len) as [Hlt|Hge].
  - rewrite Z.sub_diag. change (nth (Z.to_nat 0) (len :: l) 0) with len. destruct (Z.ltb_spec (r + 1) len); [done|].
    replace (r + 1 - len) with 0 by lia. destruct Hpos as [|len' l Hlen']; cbn in *; [lia|].
    by destruct (Z.ltb_spec 0 len'); [|lia].
  - destruct (Z.ltb_spec (r + 1) len); [lia|].
    replace (r + 1 - len) with (r - len + 1) by lia. rewrite IH by lia.
    pose proof (locate_spec l (m + 1) (r - len) ltac:(lia)) as Hs.
    destruct (locate l (m + 1) (r - len)) as [m' d]. destruct Hs as [Hm _].
    by replace (Z.to_nat (m' - m)) with (S (Z.to_nat (m' - (m + 1)))) by lia.
Qed.

(** At the last position of a row the last piece is full. *)
Lemma locate_last l m r :
  Forall (λ len, 0 < len) l → 0 <= r → r + 1 = total l →
  locate l m r = (m + Z.of_nat (length l) - 1, nth (length l - 1) l 0 - 1).
Proof.
  intros Hpos. revert m r. induction Hpos as [|len l Hlen Hpos IH]; intros m r H0 Hr; cbn in *; [lia|].
  destruct Hpos as [|len' l Hlen' Hpos]; cbn in *.
  - destruct (Z.ltb_spec r len); [|lia]. f_equal; lia.
  - destruct (Z.ltb_spec r len) as [Hlt|Hge].
    + assert (0 <= total l) as Ht.
      { clear -Hpos. induction Hpos; cbn in *; [done|]. unfold total in *. lia. }
      unfold total in Ht. lia.
    + rewrite (IH (m + 1) (r - len)) by lia. rewrite Nat.sub_0_r. f_equal. lia.
Qed.

Lemma month_lengths_total y : total (month_lengths y) = year_length y.
Proof. unfold month_lengths, year_length. by destruct (leap_year y). Qed.

Lemma month_lengths_pos y : Forall (λ len, 0 < len) (month_lengths y).
Proof. unfold month_lengths. repeat constructor. by destruct (leap_year y). Qed.

Lemma year_lengths_pos : Forall (λ len, 0 < len) year_lengths.
Proof. apply Forall_fmap, Forall_true. intros i. cbn. unfold year_length. by destruct (leap_year _). Qed.

Lemma year_lengths_total : total year_lengths = 73049.
Proof. vm_compute. reflexivity. Qed.

Lemma nth_year y : 1970 <= y < 2170 → nth (Z.to_nat (y - 1970)) year_lengths 0 = year_length y.
Proof.
  intros Hy. apply nth_lookup_Some. unfold year_lengths.
  rewrite list_lookup_fmap, lookup_seq_lt by lia. cbn. do 2 f_equal. lia.
Qed.

(** A year and a position within it, from the day count. *)
Lemma locate_year n :
  0 <= n < 73049 → let '(y, r) := locate year_lengths 1970 n in
  1970 <= y < 2170 ∧ 0 <= r < total (month_lengths y).
Proof.
  intros Hn. pose proof (locate_spec year_lengths 1970 n) as Hs. rewrite year_lengths_total in Hs.
  specialize (Hs Hn). destruct (locate year_lengths 1970 n) as [y r]. destruct Hs as [Hy Hr].
  change (Z.of_nat (length year_lengths)) with 200 in Hy. rewrite nth_year in Hr by lia.
  rewrite month_lengths_total. lia.
Qed.

Lemma date_of_day_next n :
  0 <= n < 73048 → date_of_day (n + 1) = next_day (date_of_day n).
Proof.
  intros Hn. unfold date_of_day. rewrite locate_next by (rewrite ?year_lengths_total; auto using year_lengths_pos; lia).
  pose proof (locate_year n ltac:(lia)) as Hy. destruct (locate year_lengths 1970 n) as [y r].
  destruct Hy as [Hy Hr]. rewrite nth_year, <- month_lengths_total by lia.
  pose proof (locate_spec (month_lengths y) 1 r Hr) as Hm. unfold next_day, month_length.
  destruct (Z.ltb_spec (r + 1) (total (month_lengths y))) as [Hin|Hend].
  - rewrite locate_next by (auto using month_lengths_pos; lia).
    destruct (locate (month_lengths y) 1 r) as [m d] eqn:Hloc. destruct Hm as [Hm Hd]. cbn [year month day].
    change (Z.of_nat (length (month_lengths y))) with 12 in Hm.
    destruct (Z.ltb_spec (d + 1) (nth (Z.to_nat (m - 1)) (month_lengths y) 0)); [done|].
    destruct (Z.ltb_spec m 12); [done|exfalso].
    pose proof (locate_spec (month_lengths y) 1 (r + 1) ltac:(lia)) as Hs.
    rewrite locate_next, Hloc in Hs by (auto using month_lengths_pos; lia).
    rewrite (proj2 (Z.ltb_ge _ _)) in Hs by done.
    change (Z.of_nat (length (month_lengths y))) with 12 in Hs. lia.
  - rewrite (locate_last (month_lengths y) 1 r) by (auto using month_lengths_pos; lia).
    cbn [year month day]. change (1 + Z.of_nat (length (month_lengths y)) - 1) with 12.
    cbn. done.
Qed.

(** The computed date is the calendar's. *)
Lemma date_of_day_calendar n :
  (Z.of_nat n < 73049) → date_of_day (Z.of_nat n) = calendar n.
Proof.
  induction n as [|n IH]; intros Hn; [done|].
  rewrite Nat2Z.inj_succ, <- Z.add_1_r, date_of_day_next, IH by lia. done.
Qed.

Lemma date_of_day_range n :
  0 <= n < 73049 →
  1970 <= year (date_of_day n) < 2170 ∧ 1 <= month (date_of_day n) <= 12 ∧
  1 <= day (date_of_day n) <= 31.
Proof.
  intros Hn. unfold date_of_day. pose proof (locate_year n Hn) as Hy.
  destruct (locate year_lengths 1970 n) as [y r]. destruct Hy as [Hy Hr].
  pose proof (locate_spec (month_lengths y) 1 r Hr) as Hm.
  destruct (locate (month_lengths y) 1 r) as [m d]. destruct Hm as [Hm Hd]. cbn [year month day].
  change (Z.of_nat (length (month_lengths y))) with 12 in Hm.
  assert (nth (Z.to_nat (m - 1)) (month_lengths y) 0 <= 31) as H31.
  { assert (Forall (λ len, len <= 31) (month_lengths y)) as Hall.
    { unfold month_lengths. repeat constructor; try lia. by destruct (leap_year y). }
    destruct (nth_in_or_default (Z.to_nat (m - 1)) (month_lengths y) 0) as [Hin| ->]; [|lia].
    rewrite Forall_forall in Hall. apply Hall. by apply list_elem_of_In. }
  lia.
Qed.

(** ** Counting days back *)

Lemma locate_inverse l m r :
  let '(m', d) := locate l m r in m <= m' ∧ r = total (take (Z.to_nat (m' - m)) l) + d.
Proof.
  revert m r. induction l as [|len l IH]; intros m r; cbn [locate].
  - split; [lia|]. rewrite take_nil. done.
  - destruct (r <? len).
    + split; [lia|]. by rewrite Z.sub_diag.
    + specialize (IH (m + 1) (r - len)). destruct (locate l (m + 1) (r - len)) as [m' d].
      destruct IH as [Hm Hr]. split; [lia|].
      replace (Z.to_nat (m' - m)) with (S (Z.to_nat (m' - (m + 1)))) by lia.
      cbn [take total foldr]. fold (total (take (Z.to_nat (m' - (m + 1))) l)). lia.
Qed.

Definition day_of_date (d : date) : Z :=
  total (take (Z.to_nat (year d - 1970)) year_lengths) +
  total (take (Z.to_nat (month d - 1)) (month_lengths (year d))) + day d - 1.

Lemma day_of_date_of_day n : day_of_date (date_of_day n) = n.
Proof.
  unfold date_of_day, day_of_date. pose proof (locate_inverse year_lengths 1970 n) as Hy.
  destruct (locate year_lengths 1970 n) as [y r]. destruct Hy as [_ ->].
  pose proof (locate_inverse (month_lengths y) 1 r) as Hm.
  destruct (locate (month_lengths y) 1 r) as [m d]. destruct Hm as [_ ->]. cbn [year month day]. lia.
Qed.

(** ** Texts *)

Definition padded (width : nat) (n : Z) : list byte := pad_left width "0" (to_digits n).

(** [%Y-%m-%dT%H:%M:%S] *)
Definition put_time (seconds : Z) : list byte :=
  let d := date_of_day (seconds / 86400) in
  let s := seconds mod 86400 in
  padded 4 (year d) ++ "-"%char :: padded 2 (month d) ++ "-"%char :: padded 2 (day d) ++
  "T"%char :: padded 2 (s / 3600) ++ ":"%char :: padded 2 (s / 60 mod 60) ++
  ":"%char :: padded 2 (s mod 60).

(** A number of exactly [n] digits at the head of a text, and the rest. *)
Definition read_number (n : nat) (l : list byte) : option (Z * list byte) :=
  if Nat.leb n (length l) && forallb is_digit (take n l)
  then Some (digits_value 0 (take n l), drop n l) else None.

Definition read_char (c : byte) (l : list byte) : option (list byte) :=
  match l with c' :: l => if bool_decide (c' = c) then Some l else None | [] => None end.

(** The seconds a text of the form [%Y-%m-%dT%H:%M:%S] stands for, and the rest. *)
Definition read_time (l : list byte) : option (Z * list byte) :=
  '(y, l) ← read_number 4 l; l ← read_char "-" l;
  '(m, l) ← read_number 2 l; l ← read_char "-" l;
  '(d, l) ← read_number 2 l; l ← read_char "T" l;
  '(hour, l) ← read_number 2 l; l ← read_char ":" l;
  '(minute, l) ← read_number 2 l; l ← read_char ":" l;
  '(second, l) ← read_number 2 l;
  Some (day_of_date (MkDate y m d) * 86400 + hour * 3600 + minute * 60 + second, l).

Lemma read_number_padded k n l :
  (0 < k)%nat → 0 <= n < 10 ^ Z.of_nat k → read_number k (padded k n ++ l) = Some (n, l).
Proof.
  intros Hk Hn. unfold read_number, padded. set (p := pad_left k "0" (to_digits n)).
  assert (length p = k) as Hlen by (by apply length_pad_digits).
  assert (all_digits p) as Hd by (apply all_digits_pad, all_digits_to_digits; lia).
  rewrite take_app_length', drop_app_length', length_app, (proj2 (Nat.leb_le _ _)) by lia.
  assert (forallb is_digit p = true) as ->.
  { apply forallb_forall. intros c Hc. rewrite Forall_forall in Hd. apply Hd. by apply list_elem_of_In. }
  cbn [andb]. unfold p. by rewrite digits_value_pad, digits_value_to_digits by lia.
Qed.

Lemma read_char_same c l : read_char c (c :: l) = Some l.
Proof. cbn. by rewrite bool_decide_true. Qed.

(** The parts of a printed time are read back. *)
Lemma read_time_parts y m d hour minute second l :
  0 <= y < 10000 → 0 <= m < 100 → 0 <= d < 100 → 0 <= hour < 100 → 0 <= minute < 100 →
  0 <= second < 100 →
  read_time (padded 4 y ++ "-"%char :: padded 2 m ++ "-"%char :: padded 2 d ++ "T"%char ::
             padded 2 hour ++ ":"%char :: padded 2 minute ++ ":"%char :: padded 2 second ++ l) =
  Some (day_of_date (MkDate y m d) * 86400 + hour * 3600 + minute * 60 + second, l).
Proof.
  intros. unfold read_time.
  repeat (rewrite read_number_padded by (cbn; lia); cbn [mbind option_bind];
          rewrite ?read_char_same; cbn [mbind option_bind]).
  reflexivity.
Qed.

Lemma seconds_of_parts seconds :
  let s := seconds mod 86400 in
  seconds / 86400 * 86400 + s / 3600 * 3600 + s / 60 mod 60 * 60 + s mod 60 = seconds.
Proof.
  intros s. pose proof (Z.div_mod seconds 86400 ltac:(lia)) as E1. fold s in E1.
  pose proof (Z.div_mod s 60 ltac:(lia)) as E2. pose proof (Z.div_mod (s / 60) 60 ltac:(lia)) as E3.
  rewrite Z.div_div in E3 by lia. change (60 * 60) with 3600 in E3. lia.
Qed.

Lemma read_time_put_time seconds l :
  0 <= seconds < 2 ^ 32 → read_time (put_time seconds ++ l) = Some (seconds, l).
Proof.
  intros Hs. unfold put_time.
  assert (0 <= seconds / 86400 < 73049) as Hday.
  { split; [apply Z.div_pos; lia|]. apply Z.div_lt_upper_bound; lia. }
  pose proof (date_of_day_range (seconds / 86400) Hday) as (Hy & Hm & Hd).
  pose proof (day_of_date_of_day (seconds / 86400)) as Hback.
  pose proof (Z.mod_pos_bound seconds 86400 ltac:(lia)) as Hmod.
  pose proof (seconds_of_parts seconds) as Hsum. cbv zeta in Hsum. cbv zeta.
  set (s := seconds mod 86400) in *.
  destruct (date_of_day (seconds / 86400)) as [y m d]. cbn [year month day] in *.
  assert (0 <= s / 3600 < 24) by (split; [apply Z.div_pos; lia|apply Z.div_lt_upper_bound; lia]).
  pose proof (Z.mod_pos_bound (s / 60) 60 ltac:(lia)). pose proof (Z.mod_pos_bound s 60 ltac:(lia)).
  repeat (rewrite <- app_assoc; cbn [app]). rewrite read_time_parts by lia.
  by rewrite Hback, Hsum.
Qed.
