(* ===== verification/Probe.v ===== *)
(** * The probe (src/probe_main.cpp)

    A command that asks a ROS master or node a question and answers with its exit
    status: the process of a master or node, a registered topic, a received
    message, the connection state of MAVROS, a listening TCP port, or a snapshot of
    poses.  XML-RPC, roscpp, the sockets and the clocks are answered by the
    surroundings, one tick per interaction. *)

From Stdlib Require Import SpecFloat.
From S2P Require Import Prelude Bytes Errors Effects Floats Decimal Libraries Regex Validation Calendar.
Local Open Scope Z_scope.

(** [XmlRpcValue], by what [getType], [size] and [operator[]] show. *)
Inductive Value :=
| InvalidValue
| IntValue (z : Z)
| StringValue (s : string)
| ArrayValue (l : list Value)
| OtherValue.

(** Fields of a [geometry_msgs/PoseStamped]; reading one may throw. *)
Record PoseFields := MkPoseFields {
  frame_id : fallible string;
  pose_stamp : fallible (Z * Z);
  pose_number : string → string → fallible double     (* pose[part][axis] *)
}.

(** A received message: its type and what translating it gives. *)
Record PoseMessage := MkPoseMessage {
  pose_type : string;
  translated_pose : fallible PoseFields
}.

(** A message of the message modes: publisher, type, and its [connected] field. *)
Record TopicMessage := MkTopicMessage {
  publisher_name : string;
  message_type_name : string;
  connected_field : fallible bool
}.

Inductive probe_event :=
| Requested (host : string) (port : Z) (method : string) (arguments : Value)
| Subscribed (topic : string)
| Connecting (host port : string)
| Printed (text : string).

(** What standard input has for [std::cin.get] at a moment: a byte, its end, or
    nothing yet, in which case the read goes on waiting.  A signal sets the flag of
    its handler and the interrupted read is restarted. *)
Inductive InputAnswer :=
| InputByte (c : byte)
| InputEnd
| InputSilent.

Record ProbeEnv := MkProbeEnv {
  probe_bound : nat;
  stopped_at : nat → bool;                       (* the flag of the signal handler *)
  probe_now : nat → Z;                           (* steady clock *)
  wall_now : nat → Z * Z;                        (* ros::WallTime::now *)
  splitURI : string → option (string * Z);       (* ros::network::splitURI *)
  execute_at : nat → bool;                       (* executeNonBlock *)
  done_at : nat → option (bool * Value);         (* executeCheckDone: fault, result *)
  tcp_at : nat → option (option string);         (* resolved and connected: failure *)
  probe_ros_init : fallible unit;
  probe_ok_at : nat → bool;                      (* ros::ok *)
  messages_at : nat → list TopicMessage;         (* callAvailable *)
  poses_at : nat → list (string * PoseMessage);
  input_at : nat → InputAnswer                   (* std::cin.get *)
}.

(** The reader of snapshot requests and the writer of snapshots. *)
Class ProbeLibraries (J : Type) := {
  snapshot_parse : string → option J;
  snapshot_write : J → fallible string
}.

(** ** Ordered sets of strings ([std::set], [std::map] keys) *)

Fixpoint bytes_ltb (a b : list byte) : bool :=
  match a, b with
  | _, [] => false
  | [], _ :: _ => true
  | x :: a, y :: b =>
      (byte_val x <? byte_val y) || ((byte_val x =? byte_val y) && bytes_ltb a b)
  end.
Definition string_ltb (a b : string) : bool := bytes_ltb (string_bytes a) (string_bytes b).

Fixpoint set_insert (x : string) (l : list string) : list string :=
  match l with
  | [] => [x]
  | y :: l' => if string_ltb x y then x :: l else if bool_decide (x = y) then l
               else y :: set_insert x l'
  end.
Definition set_union (l l' : list string) : list string := foldr set_insert l' l.

(** [options.emplace(name, value)], [None] when the name is there. *)
Fixpoint map_emplace (name value : string) (l : list (string * string))
    : option (list (string * string)) :=
  match l with
  | [] => Some [(name, value)]
  | (name', value') :: l' =>
      if string_ltb name name' then Some ((name, value) :: l)
      else if bool_decide (name = name') then None
      else cons (name', value') <$> map_emplace name value l'
  end.

(** ** Names, addresses and times *)

Definition find_first_not_slash (l : list byte) : list byte :=
  default [] (snd <$> ((λ i, (i.1, drop i.1 l)) <$> list_find (λ c, c ≠ "/"%char) l)).

Section names.
Context {J : Type} `{!AdapterLibraries J}.

Definition absoluteName (value : string) : fallible string :=
  let name := "/" +:+ bytes_string (find_first_not_slash (string_bytes value)) in
  throw_if (bool_decide (name = "/")
            || match names_validate name with None => false | Some _ => true end)
    (StdExn "invalid ROS graph name");;
  Ok name.
End names.

(** [address.rfind(':')] *)
Fixpoint split_last_colon (l : list byte) : option (list byte * list byte) :=
  match l with
  | [] => None
  | c :: l =>
      match split_last_colon l with
      | Some (host, port) => Some (c :: host, port)
      | None => if bool_decide (c = ":"%char) then Some ([], l) else None
      end
  end.

Definition strip_brackets (host : list byte) : list byte :=
  if Nat.leb 2 (length host) && bool_decide (head host = Some "["%char)
     && bool_decide (last host = Some "]"%char)
  then take (length host - 2) (drop 1 host) else host.

Definition verify_address (address : string) : fallible (string * string) :=
  match split_last_colon (string_bytes address) with
  | None => Err (StdExn "invalid verify address")
  | Some (host, port) =>
      let host := bytes_string (strip_brackets host) in
      let host := if bool_decide (host = "") || bool_decide (host = "0.0.0.0")
                     || bool_decide (host = "::") then "127.0.0.1" else host in
      Ok (host, bytes_string port)
  end.

Definition timestamp (sec nsec : Z) : fallible string :=
  throw_if (nsec >=? 1000000000) (StdExn "invalid pose timestamp");;
  Ok (bytes_string (put_time sec ++ "."%char :: padded 9 nsec ++ ["Z"%char])).

Section probe.
Context {J : Type} `{JsonCpp J} `{!AdapterLibraries J} `{!ProbeLibraries J} (env : ProbeEnv).
Abbreviation probe_comp := (comp probe_event unit).

Definition checkDeadline (deadline : Z) : probe_comp unit :=
  stopped ← ask (stopped_at env);
  throw_when stopped (StdExn "probe cancelled");;
  now ← ask (probe_now env);
  throw_when (now >=? deadline) (StdExn "probe timed out").

(** ** XML-RPC *)

Definition rpc_result (method : string) (fault : bool) (result : Value) : fallible Value :=
  match fault, result with
  | false, ArrayValue [IntValue 1; _; value] => Ok value
  | _, _ => Err (StdExn (method +:+ " returned failure"))
  end.

Definition call (uri method : string) (args : Value) (deadline : Z) : probe_comp Value :=
  match splitURI env uri with
  | None => throw (StdExn "invalid ROS XMLRPC URI")
  | Some (host, port) =>
      throw_when ((port =? 0) || (port >? 65535)) (StdExn "invalid ROS XMLRPC URI");;
      executed ← ask (execute_at env);
      throw_when (negb executed) (StdExn (method +:+ " request failed"));;
      emit (Requested host port method args);;
      result ← loop (probe_bound env)
        (λ _ : unit,
           done ← ask (done_at env);
           match done with
           | Some result => mret (inr result)
           | None => checkDeadline deadline;; mret (inl tt)
           end) tt;
      checkDeadline deadline;;
      lift (rpc_result method result.1 result.2)
  end.

Definition arguments (value : string) : Value :=
  ArrayValue (if bool_decide (value = "") then [StringValue "/xgc_ros1_probe"]
              else [StringValue "/xgc_ros1_probe"; StringValue value]).

Definition lookup (master node : string) (deadline : Z) : probe_comp string :=
  uri ← call master "lookupNode" (arguments node) deadline;
  match uri with
  | StringValue uri => mret uri
  | _ => throw (StdExn "lookupNode did not return a URI")
  end.

(** [arguments(topic)] resized to three elements. *)
Definition topic_arguments (topic : string) : Value :=
  ArrayValue [StringValue "/xgc_ros1_probe";
              if bool_decide (topic = "") then InvalidValue else StringValue topic;
              ArrayValue [ArrayValue [StringValue "TCPROS"]]].

Definition serves_tcpros (endpoint : Value) : bool :=
  match endpoint with
  | ArrayValue [StringValue protocol; StringValue _; IntValue port] =>
      bool_decide (protocol = "TCPROS") && negb (port <=? 0)
  | _ => false
  end.

Definition publishes_topic (topic : string) (entry : Value) : bool :=
  match entry with
  | ArrayValue [StringValue name; ArrayValue (_ :: _)] => bool_decide (name = topic)
  | _ => false
  end.

Definition registered (topic : string) (state : Value) : bool :=
  match state with
  | ArrayValue [ArrayValue publishers; _; _] => existsb (publishes_topic topic) publishers
  | _ => false
  end.

Definition topicRegistered (master node topic : string) (deadline : Z) : probe_comp unit :=
  if negb (bool_decide (node = "")) then
    uri ← lookup master node deadline;
    endpoint ← call uri "requestTopic" (topic_arguments topic) deadline;
    throw_when (negb (serves_tcpros endpoint))
      (StdExn "publisher did not serve the topic over TCPROS")
  else
    state ← call master "getSystemState" (arguments "") deadline;
    throw_when (negb (registered topic state)) (StdExn "topic has no registered publisher").

(** ** TCP *)

Definition verifyTCP (address : string) (deadline : Z) : probe_comp unit :=
  if bool_decide (address = "") then mret tt
  else
    '(host, port) ← lift (verify_address address);
    emit (Connecting host port);;
    failure ← loop (probe_bound env)
      (λ done : option (option string),
         match done with
         | Some failure => mret (inr failure)
         | None =>
             checkDeadline deadline;;
             done ← ask (tcp_at env);
             mret (inl done)
         end) None;
    match failure with
    | Some message => throw (StdExn ("verify TCP listener: " +:+ message))
    | None => mret tt
    end.

(** ** Pose snapshots *)

Definition array_values (v : J) : list J := at_index v <$> seq 0 (jsize v).

Fixpoint graph_names (values : list J) : fallible (list string) :=
  match values with
  | [] => Ok []
  | value :: values =>
      throw_if (negb (isString value))
        (StdExn "pose roots/topics require absolute ROS names");;
      name ← absoluteName (asString value);
      throw_if (negb (bool_decide (asString value = name)))
        (StdExn "pose roots/topics require absolute ROS names");;
      names ← graph_names values;
      Ok (asString value :: names)
  end.

Definition graphNames (values : J) : fallible (list string) :=
  throw_if (negb (isArray values) || Nat.ltb 256 (jsize values))
    (StdExn "pose roots/topics must be arrays of at most 256 names");;
  graph_names (array_values values).

Fixpoint reject_keys (keys allowed : list string) (message : string) : fallible unit :=
  match keys with
  | [] => Ok tt
  | key :: keys =>
      throw_if (negb (bool_decide (key ∈ allowed))) (StdExn (message +:+ key));;
      reject_keys keys allowed message
  end.

(** A member that is a non-empty string. *)
Definition has_text (v : J) (key : string) : bool :=
  isMember v key && isString (at_key v key) && negb (bool_decide (asString (at_key v key) = "")).

Definition kSnapshotInputBytes : Z := 1024 * 1024.

(** The loop [while (std::cin.get(c))], on the text read so far.  It looks neither
    at the deadline nor at the flag of the signal handler. *)
Definition read_input : probe_comp (list byte) :=
  loop (probe_bound env)
    (λ text : list byte,
       answer ← ask (input_at env);
       match answer with
       | InputEnd => mret (inr text)
       | InputByte c =>
           throw_when (Z.of_nat (length text) =? kSnapshotInputBytes)
             (StdExn "pose snapshot input exceeds 1 MiB");;
           mret (inl (text ++ [c]))
       | InputSilent => mret (inl text)
       end) [].

(** The request in the text: [reader->parse] and the checks after it. *)
Definition snapshot_request (text : string) : fallible J :=
  let invalid := StdExn "pose snapshot requires exact Session, commit and 1..258 sources" in
  match snapshot_parse text with
  | None => Err invalid
  | Some request =>
      throw_if (negb (isObject request) || negb (has_text request "sessionId")
                || negb (has_text request "experimentCommitId")
                || negb (isMember request "sources" && isArray (at_key request "sources"))
                || Nat.eqb (jsize (at_key request "sources")) 0
                || Nat.ltb 258 (jsize (at_key request "sources"))) invalid;;
      reject_keys (getMemberNames request) ["sessionId"; "experimentCommitId"; "sources"]
        "unknown pose snapshot field: ";;
      Ok request
  end.

Definition readSnapshotRequest : probe_comp J :=
  text ← read_input;
  lift (snapshot_request (bytes_string text)).

(** [topic == root || topic.compare(0, root.size() + 1, root + "/") == 0] *)
Definition under_root (topic root : string) : bool :=
  bool_decide (topic = root)
  || bool_decide (take (S (String.length root)) (string_bytes topic) =
                  string_bytes root ++ ["/"%char]).

(** The loop over the published topics, with the set selected so far. *)
Fixpoint select_topics (roots : list string) (published : list Value) (selected : list string)
    : fallible (list string) :=
  match published with
  | [] => Ok selected
  | ArrayValue [StringValue topic; StringValue type] :: published =>
      select_topics roots published
        (if bool_decide (type = "geometry_msgs/PoseStamped") && existsb (under_root topic) roots
         then set_insert topic selected else selected)
  | _ :: _ => Err (StdExn "invalid published topic entry")
  end.

(** The topics of one source. *)
Definition source_topics (published : list Value) (source : J) : fallible (list string) :=
  throw_if (negb (isObject source) || negb (has_text source "instanceId"))
    (StdExn "pose source identity is required");;
  reject_keys (getMemberNames source) ["instanceId"; "revision"; "roots"; "topics"]
    "unknown pose source field: ";;
  throw_if (isMember source "revision" && negb (isUInt64 (at_key source "revision")))
    (StdExn "pose source revision must be an unsigned integer");;
  roots ← graphNames (at_key source "roots");
  exact ← graphNames (at_key source "topics");
  throw_if (bool_decide (roots = []) && bool_decide (exact = []))
    (StdExn "pose source requires roots or exact topics");;
  select_topics roots published (set_union exact []).

(** The loop over the sources, with all topics so far. *)
Fixpoint read_sources (published : list Value) (sources : list J) (topics : list string)
    : fallible (list (list string) * list string) :=
  match sources with
  | [] => Ok ([], topics)
  | source :: sources =>
      selected ← source_topics published source;
      let topics := set_union selected topics in
      throw_if (Nat.ltb 256 (length topics))
        (StdExn "pose snapshot exceeds 256 distinct topics");;
      '(rest, topics) ← read_sources published sources topics;
      Ok (selected :: rest, topics)
  end.

(** [sample[part][axis] = number] *)
Definition set_number (sample : J) (part axis : string) (number : double) : J :=
  let object := if isMember sample part then at_key sample part else emptyObject in
  set_key sample part (set_key object axis (ofDouble number)).

Definition pose_axes : list (string * string) :=
  [("position", "x"); ("position", "y"); ("position", "z");
   ("orientation", "x"); ("orientation", "y"); ("orientation", "z"); ("orientation", "w")].

(** [None]: the message is skipped. *)
Fixpoint read_axes (pose : string → string → fallible double) (axes : list (string * string))
    (sample : J) (norm : double) : fallible (option (J * double)) :=
  match axes with
  | [] => Ok (Some (sample, norm))
  | (part, axis) :: axes =>
      number ← pose part axis;
      if negb (is_finite number) then Ok None
      else read_axes pose axes (set_number sample part axis number)
             (if bool_decide (part = "orientation")
              then SFadd 53 1024 norm (SFmul 53 1024 number number) else norm)
  end.

(** 1e-12 *)
Definition kMinimumQuaternionNorm : double := S754_finite false 4951760157141521 (-92).

(** The [try] block of the callback. *)
Definition read_pose (topic : string) (message : PoseMessage) : probe_comp (option J) :=
  if negb (bool_decide (pose_type message = "geometry_msgs/PoseStamped")) then mret None
  else
    fields ← lift (translated_pose message);
    let sample := set_key emptyObject "topic" (ofString topic) in
    frame ← lift (frame_id fields);
    let sample := set_key sample "frameId" (ofString frame) in
    '(sec, nsec) ← lift (pose_stamp fields);
    text ← lift (timestamp sec nsec);
    let sample := set_key sample "sourceStamp" (ofString text) in
    '(sec, nsec) ← ask (wall_now env);
    text ← lift (timestamp sec nsec);
    let sample := set_key sample "observedAt" (ofString text) in
    read ← lift (read_axes (pose_number fields) pose_axes sample (S754_zero false));
    match read with
    | None => mret None
    | Some (sample, norm) =>
        mret (if negb (is_finite norm) || SFltb norm kMinimumQuaternionNorm then None
              else Some sample)
    end.

(** The callback of a topic: the first valid sample is kept. *)
Definition pose_callback (topic : string) (message : PoseMessage) (samples : gmap string J)
    : probe_comp (gmap string J) :=
  if bool_decide (is_Some (samples !! topic)) then mret samples
  else
    sample ← try_catch (read_pose topic message)
      (λ x, match x with OtherExn => throw x | _ => mret None end);
    mret (match sample with Some sample => <[topic := sample]> samples | None => samples end).

(** The callbacks one [callAvailable] runs, on the subscribed topics. *)
Fixpoint run_callbacks (topics : list string) (messages : list (string * PoseMessage))
    (samples : gmap string J) : probe_comp (gmap string J) :=
  match messages with
  | [] => mret samples
  | (topic, message) :: messages =>
      samples ← (if bool_decide (topic ∈ topics) then pose_callback topic message samples
                 else mret samples);
      run_callbacks topics messages samples
  end.

Fixpoint subscribe_all (topics : list string) : probe_comp unit :=
  match topics with
  | [] => mret tt
  | topic :: topics => emit (Subscribed topic);; subscribe_all topics
  end.

(** [while (samples.size() < topics.size() && ros::ok() && now < deadline && !stopped)] *)
Definition collect_samples (topics : list string) (deadline : Z) : probe_comp (gmap string J) :=
  loop (probe_bound env)
    (λ samples : gmap string J,
       if negb (Nat.ltb (size samples) (length topics)) then mret (inr samples)
       else
         ok ← ask (probe_ok_at env);
         if negb ok then mret (inr samples)
         else
           now ← ask (probe_now env);
           if negb (now <? deadline) then mret (inr samples)
           else
             stopped ← ask (stopped_at env);
             if stopped : bool then mret (inr samples)
             else
               messages ← ask (poses_at env);
               samples ← run_callbacks topics messages samples;
               mret (inl samples)) ∅.

(** The samples of one source, appended to an empty array. *)
Definition source_samples (samples : gmap string J) (selected : list string) : J :=
  foldl (λ array topic, match samples !! topic with
                        | Some sample => jappend array sample
                        | None => array
                        end) emptyArray selected.

(** [result["sources"]] with [samples] set in each source. *)
Definition sources_with_samples (samples : gmap string J) (sources : list J)
    (selected : list (list string)) : J :=
  foldl jappend emptyArray
    (zip_with (λ source topics, set_key source "samples" (source_samples samples topics))
       sources selected).

Definition poseSnapshot (master : string) (deadline : Z) : probe_comp J :=
  request ← readSnapshotRequest;
  published ← call master "getPublishedTopics" (arguments "/") deadline;
  match published with
  | ArrayValue published =>
      let sources := array_values (at_key request "sources") in
      '(selected, topics) ← lift (read_sources published sources []);
      subscribe_all topics;;
      samples ← collect_samples topics deadline;
      stopped ← ask (stopped_at env);
      throw_when stopped (StdExn "probe cancelled");;
      ok ← ask (probe_ok_at env);
      throw_when (negb ok) (StdExn "ROS shut down before pose snapshot");;
      mret (set_key request "sources" (sources_with_samples samples sources selected))
  | _ => throw (StdExn "getPublishedTopics did not return an array")
  end.

(** ** Messages of a topic *)

(** The callback, on [received] and [failure]. *)
Definition message_callback (mode node expectedType : string) (state : bool * string)
    (message : TopicMessage) : fallible (bool * string) :=
  let '(received, failure) := state in
  if negb (bool_decide (node = "")) && negb (bool_decide (publisher_name message = node))
  then Ok state
  else if received || negb (bool_decide (failure = "")) then Ok state
  else
    match (throw_if (negb (bool_decide (expectedType = ""))
                     && negb (bool_decide (message_type_name message = expectedType)))
             (StdExn ("expected " +:+ expectedType +:+ ", received " +:+ message_type_name message));;
           if bool_decide (mode = "mavros-connected") then
             throw_if (negb (bool_decide (message_type_name message = "mavros_msgs/State")))
               (StdExn "expected mavros_msgs/State");;
             connected ← connected_field message;
             throw_if (negb connected) (StdExn "MAVROS reports the FCU as disconnected")
           else Ok tt) with
    | Ok _ => Ok (true, failure)
    | Err OtherExn => Err OtherExn
    | Err x => Ok (false, exn_what x)
    end.

Fixpoint message_callbacks (mode node expectedType : string) (messages : list TopicMessage)
    (state : bool * string) : fallible (bool * string) :=
  match messages with
  | [] => Ok state
  | message :: messages =>
      state ← message_callback mode node expectedType state message;
      message_callbacks mode node expectedType messages state
  end.

Definition wait_for_message (mode node topic expectedType : string) (deadline : Z)
    : probe_comp unit :=
  emit (Subscribed topic);;
  '(received, failure) ← loop (probe_bound env)
    (λ state : bool * string,
       let '(received, failure) := state in
       if received || negb (bool_decide (failure = "")) then mret (inr state)
       else
         ok ← ask (probe_ok_at env);
         if negb ok then mret (inr state)
         else
           checkDeadline deadline;;
           messages ← ask (messages_at env);
           state ← lift (message_callbacks mode node expectedType messages state);
           mret (inl state)) (false, "");
  checkDeadline deadline;;
  throw_when (negb (bool_decide (failure = ""))) (StdExn failure);;
  throw_when (negb received) (StdExn "ROS shut down before a topic message").

(** ** The command *)

Definition kProbeOptions : list string :=
  ["--mode"; "--master-uri"; "--node"; "--topic"; "--verify-address"; "--timeout-ms";
   "--expected-type"].

(** The name/value pairs of the command line. *)
Fixpoint parse_options (args : list string) (options : list (string * string))
    : fallible (list (string * string)) :=
  match args with
  | [] => Ok options
  | [_] => Err (StdExn "options must be unique name/value pairs")
  | name :: value :: args =>
      match map_emplace name value options with
      | None => Err (StdExn "options must be unique name/value pairs")
      | Some options => parse_options args options
      end
  end.

Fixpoint option_value (options : list (string * string)) (name : string) : option string :=
  match options with
  | [] => None
  | (name', value) :: options =>
      if bool_decide (name = name') then Some value else option_value options name
  end.

Record ProbeOptions := MkProbeOptions {
  opt_mode : string;
  opt_master : string;
  opt_node : string;
  opt_topic : string;
  opt_verify : string;
  opt_type : string;
  opt_milliseconds : Z
}.

Definition valid_type_option (value : option string) : bool :=
  match value with
  | None => true
  | Some type => negb (bool_decide (type = "")) && Nat.leb (String.length type) 256
                 && regex_match type rosTypePattern
  end.

(** The checks up to the deadline; the node is checked after it. *)
Definition probe_options (args : list string) : fallible ProbeOptions :=
  options ← parse_options args [];
  reject_keys options.*1 kProbeOptions "unknown option: ";;
  let value name := default "" (option_value options name) in
  throw_if (bool_decide (value "--master-uri" = "")) (StdExn "master URI is required");;
  throw_if (negb (valid_type_option (option_value options "--expected-type")))
    (StdExn "expected type must use pkg/Type syntax");;
  let timeout := default "1000" (option_value options "--timeout-ms") in
  throw_if (bool_decide (timeout = "") || negb (forallb is_digit (string_bytes timeout)))
    (StdExn "timeout must be integer milliseconds");;
  milliseconds ← stoul timeout;
  throw_if ((milliseconds <? 1) || (milliseconds >? 86400000))
    (StdExn "timeout must be 1..86400000 milliseconds");;
  Ok (MkProbeOptions (value "--mode") (value "--master-uri") (value "--node") (value "--topic")
        (value "--verify-address") (value "--expected-type") milliseconds).

(** [getPid] of the master or of the node. *)
Definition probe_pid (options : ProbeOptions) (node : string) (deadline : Z) : probe_comp Z :=
  throw_when (bool_decide (opt_mode options = "node") && bool_decide (node = ""))
    (StdExn "node is required");;
  uri ← (if bool_decide (opt_mode options = "master") then mret (opt_master options)
         else lookup (opt_master options) node deadline);
  value ← call uri "getPid" (arguments "") deadline;
  match value with
  | IntValue pid =>
      throw_when (pid <=? 0) (StdExn "getPid did not return a positive PID");;
      mret pid
  | _ => throw (StdExn "getPid did not return a positive PID")
  end.

(** The question of the mode: [Some] text for a snapshot, otherwise the pid, 0 for
    none. *)
Definition probe_mode (options : ProbeOptions) (node : string) (deadline : Z)
    : probe_comp (string + Z) :=
  let mode := opt_mode options in
  if bool_decide (mode = "pose-snapshot") then
    snapshot ← poseSnapshot (opt_master options) deadline;
    text ← lift (snapshot_write snapshot);
    mret (inl text)
  else if bool_decide (mode = "master") || bool_decide (mode = "node") then
    pid ← probe_pid options node deadline;
    mret (inr pid)
  else if bool_decide (mode = "topic") || bool_decide (mode = "message")
          || bool_decide (mode = "mavros-connected") then
    topic ← lift (absoluteName (opt_topic options));
    (if bool_decide (mode = "topic")
     then topicRegistered (opt_master options) node topic deadline
     else wait_for_message mode node topic (opt_type options) deadline);;
    mret (inr 0)
  else throw (StdExn "unsupported probe mode").

Definition run_probe (args : list string) : probe_comp Z :=
  options ← lift (probe_options args);
  now ← ask (probe_now env);
  let deadline := now + opt_milliseconds options * 1000000 in
  node ← lift (if bool_decide (opt_node options = "") then Ok "" else absoluteName (opt_node options));
  lift (probe_ros_init env);;
  answer ← probe_mode options node deadline;
  match answer with
  | inl snapshot => emit (Printed (snapshot +:+ bytes_string [byte_of 10]));; mret 0
  | inr pid =>
      verifyTCP (opt_verify options) deadline;;
      when (negb (pid =? 0)) (emit (Printed (to_string pid +:+ bytes_string [byte_of 10])));;
      mret 0
  end.

Definition probe_failed (x : exn) : probe_comp Z :=
  match x with
  | OtherExn => throw x
  | _ =>
      stopped ← ask (stopped_at env);
      mret (if stopped : bool then 130 else 1)
  end.

(** [args] without the program name. *)
Definition probe_main (args : list string) : probe_comp Z :=
  try_catch (run_probe args) probe_failed.
End probe.
