(* ===== verification/ProbeDemo.v ===== *)
(** * Surroundings in which the probe can be run

    A master that answers after a few polls, two topics of poses, and requests over
    the concrete JSON values; the examples and witnesses evaluate the probe here. *)

From Stdlib Require Import SpecFloat.
From S2P Require Import Prelude Bytes Errors Effects Floats Libraries Instances Validation InstanceSpec InstanceSpecLemmas Probe.
Local Open Scope Z_scope.

Module ProbeDemo.
Definition source : json :=
  JObject [("instanceId", JString "uav"); ("roots", JArray [JString "/uav"]);
           ("topics", JArray [JString "/base/pose"])].
Definition request : json :=
  JObject [("sessionId", JString "s"); ("experimentCommitId", JString "c");
           ("sources", JArray [source])].

(** The published topics: one under the root, one that only starts like it. *)
Definition published : list Value :=
  [ArrayValue [StringValue "/uav/pose"; StringValue "geometry_msgs/PoseStamped"];
   ArrayValue [StringValue "/uavs/pose"; StringValue "geometry_msgs/PoseStamped"];
   ArrayValue [StringValue "/uav/odom"; StringValue "nav_msgs/Odometry"]].

#[global] Instance probe_libraries : ProbeLibraries json := {|
  snapshot_parse text := if bool_decide (text = "{}") then Some request else None;
  snapshot_write _ := Ok "{snapshot}"
|}.

Definition one : double := S754_finite false 4503599627370496 (-52).
Definition pose (number : double) : PoseMessage :=
  MkPoseMessage "geometry_msgs/PoseStamped"
    (Ok (MkPoseFields (Ok "map") (Ok (1709210096, 5)) (λ _ _, Ok number))).

(** The first pose is not a number. *)
Definition env (answer : Value) : ProbeEnv :=
  MkProbeEnv 40 (λ _, false) (λ t, Z.of_nat t * 1000000) (λ _, (1709210097, 0))
    (λ uri, if bool_decide (uri = "http://m:11311") then Some ("m", 11311) else None)
    (λ _, true)
    (λ t, if Nat.ltb t 6 then None
          else Some (false, ArrayValue [IntValue 1; StringValue ""; answer]))
    (λ _, Some None) (Ok tt) (λ _, true) (λ _, [])
    (λ t, [("/uav/pose", pose (if Nat.ltb t 18 then S754_nan else one)); ("/other", pose one)])
    (λ t, default InputEnd ([InputByte "{"%char; InputSilent; InputByte "}"%char] !! t)).

Definition start : world unit := MkWorld 0 tt.
End ProbeDemo.
