(* ===== verification/ProbeLemmas.v ===== *)
(** * Names, times and selections of the probe

    The ordered sets the probe keeps topics in, the text of a time, absolute ROS
    names, and which topics are selected for the source of a snapshot. *)

From Stdlib Require Import SpecFloat Sorted.
From S2P Require Import Prelude Bytes Errors Effects Floats Decimal Libraries Instances Regex Validation InstanceSpec InstanceSpecLemmas Calendar Probe ProbeDemo.
Local Open Scope Z_scope.

(** ** Ordered sets *)

Definition string_lt (a b : string) : Prop := string_ltb a b = true.

Lemma bytes_ltb_irrefl l : bytes_ltb l l = false.
Proof. induction l as [|c l IH]; cbn; [done|]. by rewrite Z.ltb_irrefl, Z.eqb_refl. Qed.

Lemma bytes_ltb_trans a b c : bytes_ltb a b = true → bytes_ltb b c = true → bytes_ltb a c = true.
Proof.
  revert b c. induction a as [|x a IH]; intros [|y b] [|z c]; try done. cbn.
  rewrite !orb_true_iff, !andb_true_iff, !Z.ltb_lt, !Z.eqb_eq. intros [?|[? ?]] [?|[? ?]]; try (left; lia).
  right. split; [lia|]. by eapply IH.
Qed.

Lemma bytes_ltb_total a b : bytes_ltb a b = false → a ≠ b → bytes_ltb b a = true.
Proof.
  revert b. induction a as [|x a IH]; intros [|y b]; try done. cbn.
  rewrite orb_false_iff, andb_false_iff, Z.ltb_ge, Z.eqb_neq, orb_true_iff, andb_true_iff, Z.ltb_lt, Z.eqb_eq.
  intros [Hle Hor] Hne. destruct (decide (byte_val x = byte_val y)) as [Heq|]; [|left; lia].
  right. split; [done|]. apply IH; [by destruct Hor|]. intros ->. apply Hne. f_equal.
  rewrite <- (byte_of_val x), <- (byte_of_val y). by rewrite Heq.
Qed.

#[export] Instance string_lt_irrefl : Irreflexive string_lt.
Proof. intros s. unfold complement, string_lt, string_ltb. by rewrite bytes_ltb_irrefl. Qed.
#[export] Instance string_lt_trans : Transitive string_lt.
Proof. intros a b c. apply bytes_ltb_trans. Qed.

Lemma string_lt_total a b : string_ltb a b = false → a ≠ b → string_lt b a.
Proof.
  intros Hlt Hne. apply bytes_ltb_total; [done|]. intros E. apply Hne.
  rewrite <- (bytes_string_bytes a), <- (bytes_string_bytes b). by rewrite E.
Qed.

(** The lists that stand for sets: strictly ascending. *)
Abbreviation ascending := (StronglySorted string_lt).

Lemma elem_of_set_insert x y l : y ∈ set_insert x l ↔ y = x ∨ y ∈ l.
Proof.
  induction l as [|z l IH]; cbn; [set_solver|].
  destruct (string_ltb x z); [set_solver|]. case_bool_decide; set_solver.
Qed.

Lemma set_insert_ascending x l : ascending l → ascending (set_insert x l).
Proof.
  induction 1 as [|y l Hl IH Hy]; cbn; [by repeat constructor|].
  destruct (string_ltb x y) eqn:Hxy.
  - constructor; [by constructor|]. constructor; [done|].
    eapply Forall_impl; [done|]. intros z Hz. by eapply string_lt_trans.
  - case_bool_decide as Heq; [by constructor|]. constructor; [done|].
    apply Forall_forall. intros z [->|Hz]%elem_of_set_insert.
    + by apply string_lt_total.
    + by eapply Forall_forall in Hy.
Qed.

Lemma elem_of_set_union x l l' : x ∈ set_union l l' ↔ x ∈ l ∨ x ∈ l'.
Proof.
  unfold set_union. induction l as [|y l IH]; cbn; [set_solver|].
  rewrite elem_of_set_insert, IH. set_solver.
Qed.

Lemma set_union_ascending l l' : ascending l' → ascending (set_union l l').
Proof. intros Hl. induction l as [|y l IH]; [done|]. by apply set_insert_ascending. Qed.

Lemma ascending_NoDup l : ascending l → NoDup l.
Proof.
  induction 1 as [|x l _ IH Hx]; constructor; [|done]. intros Hin.
  eapply Forall_forall in Hx; [|done]. by apply (irreflexivity string_lt x).
Qed.

(** ** Times *)

(** The seconds and nanoseconds a text of [timestamp] stands for. *)
Definition read_timestamp (l : list byte) : option (Z * Z) :=
  '(sec, l) ← read_time l; l ← read_char "." l;
  '(nsec, l) ← read_number 9 l; l ← read_char "Z" l;
  if bool_decide (l = []) then Some (sec, nsec) else None.

Lemma read_timestamp_printed sec nsec :
  0 <= sec < 2 ^ 32 → 0 <= nsec < 10 ^ 9 →
  read_timestamp (put_time sec ++ "."%char :: padded 9 nsec ++ ["Z"%char]) = Some (sec, nsec).
Proof.
  intros Hs Hn. unfold read_timestamp. rewrite read_time_put_time by done. cbn [mbind option_bind].
  rewrite read_char_same. cbn [mbind option_bind]. rewrite read_number_padded; [|lia|exact Hn].
  cbn [mbind option_bind]. by rewrite read_char_same.
Qed.

(** The printed date is the one the calendar reaches. *)
Lemma put_time_date sec :
  0 <= sec < 2 ^ 32 → ∃ rest, let d := calendar (Z.to_nat (sec / 86400)) in
    put_time sec = padded 4 (year d) ++ "-"%char :: padded 2 (month d) ++ "-"%char ::
                   padded 2 (day d) ++ "T"%char :: rest.
Proof.
  intros Hs. cbv zeta. assert (0 <= sec / 86400) by (apply Z.div_pos; lia).
  rewrite <- date_of_day_calendar, Z2Nat.id; [eexists; reflexivity|done|].
  rewrite Z2Nat.id by done. apply Z.div_lt_upper_bound; lia.
Qed.

(** C28: times are printed exactly. For the seconds and nanoseconds of a ROS stamp,
    [timestamp] refuses nanoseconds of a second or more and otherwise gives a text
    that starts with the date reached by counting days from 1970-01-01, and from
    which the seconds and the nanoseconds can be read back. *)
Theorem timestamp_roundtrip sec nsec :
  0 <= sec < 2 ^ 32 → 0 <= nsec < 2 ^ 32 →
  if nsec <? 10 ^ 9 then
    ∃ text, timestamp sec nsec = Ok text ∧
      read_timestamp (string_bytes text) = Some (sec, nsec) ∧
      ∃ rest, let d := calendar (Z.to_nat (sec / 86400)) in
        string_bytes text = padded 4 (year d) ++ "-"%char :: padded 2 (month d) ++ "-"%char ::
                            padded 2 (day d) ++ "T"%char :: rest
  else is_Ok (timestamp sec nsec) = false.
Proof.
  intros Hs Hn. unfold timestamp. rewrite Z.geb_leb.
  change (10 ^ 9) with 1000000000. destruct (Z.ltb_spec nsec 1000000000) as [Hlt|Hge].
  2: { by rewrite (proj2 (Z.leb_le _ _)). }
  rewrite (proj2 (Z.leb_gt _ _)) by done. eexists. split; [done|]. rewrite string_bytes_string. split.
  - apply read_timestamp_printed; [done|lia].
  - destruct (put_time_date sec Hs) as [rest ->]. eexists. rewrite <- app_assoc. cbn [app].
    rewrite <- app_assoc. cbn [app]. rewrite <- app_assoc. reflexivity.
Qed.

Lemma timestamp_roundtrip_witness :
  ∃ text, timestamp 1709210096 5 = Ok text ∧
    read_timestamp (string_bytes text) = Some (1709210096, 5) ∧
    ∃ rest, let d := calendar (Z.to_nat (1709210096 / 86400)) in
      string_bytes text = padded 4 (year d) ++ "-"%char :: padded 2 (month d) ++ "-"%char ::
                          padded 2 (day d) ++ "T"%char :: rest.
Proof. apply (timestamp_roundtrip 1709210096 5); lia. Defined.

Example leap_day : timestamp 1709210096 5 = Ok "2024-02-29T12:34:56.000000005Z".
Proof. vm_compute. reflexivity. Qed.

(** ** Names *)

Section names.
Context {J : Type} `{JsonCpp J} `{!AdapterLibraries J}.

(** A ROS graph name in the form the probe uses: one leading slash, something after
    it that does not start with a slash, and valid for roscpp. *)
Definition absolute_name (name : string) : Prop :=
  ∃ c rest, string_bytes name = "/"%char :: c :: rest ∧ c ≠ "/"%char ∧ names_validate name = None.

Lemma find_first_not_slash_spec l :
  match find_first_not_slash l with [] => True | c :: _ => c ≠ "/"%char end ∧
  ∃ n, l = replicate n "/"%char ++ find_first_not_slash l.
Proof.
  unfold find_first_not_slash. induction l as [|c l [IH1 [n IH2]]]; [split; [done|by exists 0%nat]|].
  cbn [list_find]. destruct (decide (c ≠ "/"%char)) as [Hc|Hc].
  - cbn. split; [done|]. by exists 0%nat.
  - apply dec_stable in Hc as ->.
    destruct (list_find (λ c, c ≠ "/"%char) l) as [[i y]|]; cbn in *.
    + split; [done|]. exists (S n). cbn. by f_equal.
    + split; [done|]. exists (S n). cbn. by f_equal.
Qed.

Lemma names_validate_None {A} (o : option A) :
  match o with None => false | Some _ => true end = false ↔ o = None.
Proof. by destruct o. Qed.

(** [absoluteName] replaces the leading slashes by one. *)
Lemma absoluteName_spec value name :
  absoluteName value = Ok name →
  absolute_name name ∧
  string_bytes name = "/"%char :: find_first_not_slash (string_bytes value).
Proof.
  unfold absoluteName. guards. rewrite orb_false_iff, bool_decide_eq_false, names_validate_None.
  intros [[Hne Hv] <-]. assert (∀ l, string_bytes ("/" +:+ bytes_string l) = "/"%char :: l) as Hb.
  { intros l. rewrite string_bytes_app, string_bytes_string. done. }
  rewrite Hb. split; [|done]. unfold absolute_name. rewrite Hb.
  destruct (find_first_not_slash_spec (string_bytes value)) as [Hhead _].
  destruct (find_first_not_slash (string_bytes value)) as [|c rest]; [done|]. by exists c, rest.
Qed.

Lemma absoluteName_fixed name : absoluteName name = Ok name ↔ absolute_name name.
Proof.
  split; [by intros [? _]%absoluteName_spec|]. intros (c & rest & Hb & Hc & Hv).
  unfold absoluteName. assert (find_first_not_slash (string_bytes name) = c :: rest) as ->.
  { rewrite Hb. unfold find_first_not_slash. cbn [list_find].
    rewrite decide_False by naive_solver. rewrite decide_True by done. done. }
  assert ("/" +:+ bytes_string (c :: rest) = name) as ->.
  { rewrite <- (bytes_string_bytes name), Hb. done. }
  guards. rewrite orb_false_iff, bool_decide_eq_false, names_validate_None. split; [|done].
  split; [|done]. intros ->. done.
Qed.

(** The texts of an array. *)
Definition texts (values : J) : list string := asString <$> array_values values.

Lemma graph_names_Ok values names :
  graph_names values = Ok names →
  names = asString <$> values ∧
  Forall (λ value, isString value = true ∧ absolute_name (asString value)) values.
Proof.
  revert names. induction values as [|value values IH]; cbn; intros names Hn; [by injection Hn as <-|].
  revert Hn. guards. intros [Hs%negb_false_iff Hn].
  apply bind_Ok in Hn as (name & Ha & Hn). revert Hn. guards.
  intros [He%negb_false_iff%bool_decide_eq_true Hn].
  apply bind_Ok in Hn as (rest & Hr & Hn). injection Hn as <-. destruct (IH _ Hr) as [-> Hall].
  split; [done|]. constructor; [|done]. split; [done|]. rewrite He at 1.
  by apply absoluteName_spec in Ha as [? _].
Qed.

Lemma graphNames_Ok values names :
  graphNames values = Ok names →
  names = texts values ∧ isArray values = true ∧ (jsize values <= 256)%nat ∧
  Forall absolute_name names.
Proof.
  unfold graphNames. guards. rewrite orb_false_iff, negb_false_iff, Nat.ltb_ge.
  intros [[Ha Hs] Hn]. destruct (graph_names_Ok _ _ Hn) as [-> Hall].
  split; [done|]. split; [done|]. split; [done|]. apply Forall_fmap.
  eapply Forall_impl; [done|]. by intros v [_ ?].
Qed.

(** ** The topics of a source *)

Lemma under_root_spec topic root :
  under_root topic root = true ↔ topic = root ∨ ∃ rest, topic = root +:+ "/" +:+ rest.
Proof.
  unfold under_root. rewrite orb_true_iff, !bool_decide_eq_true. apply or_iff_compat_l. split.
  - intros E. exists (bytes_string (drop (S (String.length root)) (string_bytes topic))).
    rewrite <- (bytes_string_bytes topic) at 1.
    rewrite <- (take_drop (S (String.length root)) (string_bytes topic)) at 1. rewrite E.
    rewrite <- (bytes_string_bytes (root +:+ _)). f_equal.
    rewrite !string_bytes_app, string_bytes_string, <- app_assoc. done.
  - intros [rest ->]. rewrite !string_bytes_app, app_assoc.
    apply take_app_length'. rewrite length_app, length_string_bytes. cbn. lia.
Qed.

(** A published topic of pose messages. *)
Definition published_pose (published : list Value) (topic : string) : Prop :=
  ArrayValue [StringValue topic; StringValue "geometry_msgs/PoseStamped"] ∈ published.

Lemma select_topics_spec roots published selected selected' :
  select_topics roots published selected = Ok selected' → ascending selected →
  ascending selected' ∧
  ∀ topic, topic ∈ selected' ↔ topic ∈ selected ∨
    (published_pose published topic ∧ ∃ root, root ∈ roots ∧ under_root topic root = true).
Proof.
  unfold published_pose. revert selected. induction published as [|entry published IH]; intros selected Hs Hsort.
  { injection Hs as <-. split; [done|]. set_solver. }
  destruct entry as [| | |l|]; try done. destruct l as [|[| |topic| |] l]; try done.
  destruct l as [|[| |type| |] l]; try done. destruct l; try done.
  cbn [select_topics] in Hs. apply IH in Hs as [Hsort' Hin].
  2: { destruct (_ && _); [by apply set_insert_ascending|done]. }
  split; [done|]. intros topic'. rewrite Hin, elem_of_cons. clear Hin.
  destruct (bool_decide (type = _)) eqn:Ht; cbn [andb].
  2: { apply bool_decide_eq_false in Ht. naive_solver. }
  apply bool_decide_eq_true in Ht as ->.
  destruct (existsb (under_root topic) roots) eqn:He.
  - apply existsb_exists in He as (root & Hr%list_elem_of_In & Hu). rewrite elem_of_set_insert. naive_solver.
  - assert (¬ ∃ root, root ∈ roots ∧ under_root topic root = true) as Hno.
    { intros (root & Hr%list_elem_of_In & Hu). enough (existsb (under_root topic) roots = true) by congruence.
      apply existsb_exists. eauto. }
    naive_solver.
Qed.

(** C26: the selection is exact. The topics subscribed for an accepted source are listed
    once each, in ascending order, and they are exactly those it names and those
    that the master lists as pose topics and that are one of its roots or lie below
    one; every name and root it gives is an absolute ROS name. *)
Theorem source_topics_exact published source selected :
  source_topics published source = Ok selected →
  ascending selected ∧ Forall absolute_name (texts (at_key source "roots")) ∧
  Forall absolute_name (texts (at_key source "topics")) ∧
  ∀ topic, topic ∈ selected ↔
    topic ∈ texts (at_key source "topics") ∨
    (published_pose published topic ∧ ∃ root, root ∈ texts (at_key source "roots") ∧
       (topic = root ∨ ∃ rest, topic = root +:+ "/" +:+ rest)).
Proof.
  unfold source_topics. guards. intros [_ Hs].
  apply bind_Ok in Hs as (_ & _ & Hs). revert Hs. guards. intros [_ Hs].
  apply bind_Ok in Hs as (roots & Hroots & Hs). apply bind_Ok in Hs as (exact & Hexact & Hs).
  revert Hs. guards. intros [_ Hs].
  apply graphNames_Ok in Hroots as (-> & _ & _ & Hr). apply graphNames_Ok in Hexact as (-> & _ & _ & He).
  apply select_topics_spec in Hs as [Hsort Hin]; [|apply set_union_ascending; constructor].
  split; [done|]. split; [done|]. split; [done|]. intros topic.
  rewrite Hin, elem_of_set_union, elem_of_nil. setoid_rewrite under_root_spec. tauto.
Qed.

(** All sources: the selections, and their union in at most 256 topics. *)
Lemma read_sources_spec published sources topics selected topics' :
  read_sources published sources topics = Ok (selected, topics') →
  ascending topics → (length topics <= 256)%nat →
  Forall2 (λ source sel, source_topics published source = Ok sel) sources selected ∧
  ascending topics' ∧ (length topics' <= 256)%nat ∧
  ∀ topic, topic ∈ topics' ↔ topic ∈ topics ∨ ∃ sel, sel ∈ selected ∧ topic ∈ sel.
Proof.
  revert topics selected topics'. induction sources as [|source sources IH]; intros topics selected topics' Hs Hsort Hlen.
  { injection Hs as <- <-. split; [done|]. split; [done|]. split; [done|]. set_solver. }
  cbn [read_sources] in Hs. apply bind_Ok in Hs as (sel & Hsel & Hs). revert Hs. guards.
  intros [Hlt%Nat.ltb_ge Hs]. apply bind_Ok in Hs as ([rest topics2] & Hrest & Hs). injection Hs as <- <-.
  apply IH in Hrest as (Hall & Hsort' & Hlen' & Hin); [|by apply set_union_ascending|done].
  split; [by constructor|]. split; [done|]. split; [done|]. intros topic. rewrite Hin, elem_of_set_union.
  set_solver.
Qed.
End names.

(** The source names one topic and has another below its root. *)
Lemma source_topics_exact_witness :
  let selected := ["/base/pose"; "/uav/pose"] in
  ascending selected ∧ Forall absolute_name (texts (at_key ProbeDemo.source "roots")) ∧
  Forall absolute_name (texts (at_key ProbeDemo.source "topics")) ∧
  ∀ topic, topic ∈ selected ↔
    topic ∈ texts (at_key ProbeDemo.source "topics") ∨
    (published_pose ProbeDemo.published topic ∧
     ∃ root, root ∈ texts (at_key ProbeDemo.source "roots") ∧
       (topic = root ∨ ∃ rest, topic = root +:+ "/" +:+ rest)).
Proof.
  apply (source_topics_exact ProbeDemo.published ProbeDemo.source). vm_compute. reflexivity.
Defined.
