(* ===== verification/ProbeRuns.v ===== *)
(** * What a successful probe has found

    For each mode the answer that a run with a result rests on: a reply of the master
    or of a node, a message, a connection, each with the moment it was in time. *)

From Stdlib Require Import SpecFloat.
From S2P Require Import Prelude Bytes Errors Effects Floats Decimal Libraries Instances Regex Validation InstanceSpec InstanceSpecLemmas Calendar Probe ProbeDemo ProbeLemmas.
Local Open Scope Z_scope.

(** [yields P m]: a result [a] of [m], with the events [e] of the run, satisfies
    [P a e]; runs that throw are not constrained. *)
Definition yields {ev st A} (P : A → list ev → Prop) (m : comp ev st A) : Prop :=
  ∀ w, wp True m (λ r e _, ∀ a, r = Ok a → P a e) w.

Section yields.
Context {ev st : Type}.

Lemma yields_ret {A} (a : A) (P : A → list ev → Prop) : P a [] → yields (st:=st) P (mret a).
Proof. intros HP w. apply wp_ret. by intros ? [= <-]. Qed.

Lemma yields_throw {A} x (P : A → list ev → Prop) : yields (st:=st) P (throw x).
Proof. intros w. by apply wp_throw. Qed.

Lemma yields_lift {A} (r : fallible A) (P : A → list ev → Prop) :
  (∀ a, r = Ok a → P a []) → yields (st:=st) P (lift r).
Proof. intros HP w. by apply wp_lift. Qed.

Lemma yields_emit x (P : unit → list ev → Prop) : P tt [x] → yields (st:=st) P (emit x).
Proof. intros HP w. apply wp_emit. by intros [] _. Qed.

Lemma yields_ask {A} (f : nat → A) (P : A → list ev → Prop) :
  (∀ t, P (f t) []) → yields (st:=st) P (ask f).
Proof. intros HP w. apply wp_ask. by intros ? [= <-]. Qed.

Lemma yields_throw_when b x (P : unit → list ev → Prop) :
  (b = false → P tt []) → yields (st:=st) P (throw_when b x).
Proof. intros HP w. apply wp_throw_when; [done|]. intros Hb [] _. by apply HP. Qed.

Lemma yields_bind {A B} (m : comp ev st A) (f : A → comp ev st B) P (Q : B → list ev → Prop) :
  yields P m → (∀ a e, P a e → yields (λ b e', Q b (e ++ e')) (f a)) → yields Q (m ≫= f).
Proof.
  intros Hm Hf w. apply wp_bind. eapply wp_mono; [apply Hm|]. intros [a|x] e w' Ha; [|done].
  by apply Hf, Ha.
Qed.

Lemma yields_mono {A} (m : comp ev st A) (P Q : A → list ev → Prop) :
  yields P m → (∀ a e, P a e → Q a e) → yields Q m.
Proof. intros Hm HQ w. eapply wp_mono; [apply Hm|]. eauto. Qed.

(** A pure step first, or a guard. *)
Lemma yields_bind_lift {A B} (r : fallible A) (f : A → comp ev st B) (Q : B → list ev → Prop) :
  (∀ a, r = Ok a → yields Q (f a)) → yields Q (lift r ≫= f).
Proof.
  intros Hf. eapply yields_bind; [apply (yields_lift r (λ a e, r = Ok a ∧ e = [])); auto|].
  intros a e [Hr ->]. by apply Hf.
Qed.

Lemma yields_bind_guard {B} b x (f : unit → comp ev st B) (Q : B → list ev → Prop) :
  (b = false → yields Q (f tt)) → yields Q (throw_when b x ≫= f).
Proof.
  intros Hf. eapply yields_bind; [apply (yields_throw_when b x (λ _ e, b = false ∧ e = [])); auto|].
  intros [] e [Hb ->]. by apply Hf.
Qed.
End yields.

Section runs.
Context {J : Type} `{JsonCpp J} `{!AdapterLibraries J} `{!ProbeLibraries J} (env : ProbeEnv).

(** At tick [t] the probe was not cancelled, and right after it in time. *)
Definition in_time (deadline : Z) (t : nat) : Prop :=
  stopped_at env t = false ∧ probe_now env (S t) < deadline.

Lemma checkDeadline_spec deadline w :
  wp True (checkDeadline env deadline)
    (λ r e _, e = [] ∧ (is_Ok r = true → in_time deadline (tick w))) w.
Proof.
  unfold checkDeadline, in_time. do 2 wp_step. apply wp_bind, wp_throw_when; [done|]. intros Hs.
  do 2 wp_step. apply wp_throw_when; [done|]. rewrite Z.geb_leb. by intros Hn%Z.leb_gt.
Qed.

(** ** XML-RPC *)

(** [method] was asked of the server at [uri], which answered [value] with success,
    and the answer was in time. *)
Definition answered (deadline : Z) (uri method : string) (args value : Value)
    (e : list probe_event) : Prop :=
  ∃ host port text t, splitURI env uri = Some (host, port) ∧ port ≠ 0 ∧ port <= 65535 ∧
    e = [Requested host port method args] ∧
    done_at env t = Some (false, ArrayValue [IntValue 1; text; value]) ∧ in_time deadline (S t).

Lemma rpc_result_Ok method fault result value :
  rpc_result method fault result = Ok value →
  fault = false ∧ ∃ text, result = ArrayValue [IntValue 1; text; value].
Proof.
  unfold rpc_result. destruct fault; [done|]. destruct result as [| | |l|]; try done.
  destruct l as [|[|z| | |] l]; try done.
  destruct (decide (z = 1)) as [->|Hz].
  - destruct l as [|text [|v [|? ?]]]; try done. intros [= <-]. eauto.
  - destruct z as [|[]|]; try done; by destruct l as [|? [|? [|? ?]]].
Qed.

Lemma call_yields uri method args deadline :
  yields (answered deadline uri method args) (call env uri method args deadline).
Proof.
  intros w. unfold call. destruct (splitURI env uri) as [[host port]|] eqn:Hu; [|by wp_step].
  apply wp_bind, wp_throw_when; [done|]. rewrite orb_false_iff, Z.eqb_neq, Z.gtb_ltb, Z.ltb_ge.
  intros [Hp0 Hp]. do 2 wp_step. apply wp_bind, wp_throw_when; [done|]. intros _.
  do 2 wp_step. apply wp_bind.
  eapply wp_mono.
  { apply (wp_loop True _ (λ _ e _, e = [])
      (λ r e w', e = [] ∧ ∀ result, r = Ok result → ∃ t, done_at env t = Some result ∧ tick w' = S t)
      (probe_bound env) I) with (e := []); [|done].
    intros [] e0 w0 ->. apply wp_bind, wp_ask. destruct (done_at env (tick w0)) as [result|] eqn:Hd.
    - apply wp_ret. split; [done|]. intros ? [= <-]. exists (tick w0). by split.
    - apply wp_bind. eapply wp_mono; [apply checkDeadline_spec|]. intros [[]|x] e w1 [-> _]; [|done].
      by apply wp_ret. }
  unfold after_events. cbn [app]. intros [[fault result]|x] e w1 [-> Hr]; [|done].
  destruct (Hr _ eq_refl) as (t & Ht & Htick). cbn [app].
  apply wp_bind. eapply wp_mono; [apply checkDeadline_spec|]. intros [[]|x] e w2 [-> Hin]; [|done].
  apply wp_lift. cbn [fst snd]. intros value Hv. apply rpc_result_Ok in Hv as [-> [text ->]].
  exists host, port, text, t. rewrite <- Htick. split_and!; auto.
Qed.

(** ** Masters, nodes and topics *)

Lemma registered_spec topic state :
  registered topic state = true ↔
  ∃ publishers subscribers services node nodes,
    state = ArrayValue [ArrayValue publishers; subscribers; services] ∧
    ArrayValue [StringValue topic; ArrayValue (node :: nodes)] ∈ publishers.
Proof.
  unfold registered. split.
  - destruct state as [| | |[|[| | |publishers|] [|b [|c [|? ?]]]]|]; try done.
    intros (entry & Hin%list_elem_of_In & He)%existsb_exists.
    destruct entry as [| | |[|[| |name| |] [|[| | |[|n ns]|] [|? ?]]]|]; try done.
    apply bool_decide_eq_true in He as ->. by exists publishers, b, c, n, ns.
  - intros (publishers & b & c & n & ns & -> & Hin). apply existsb_exists. eexists.
    split; [by apply list_elem_of_In|]. by apply bool_decide_eq_true.
Qed.

Lemma serves_tcpros_spec endpoint :
  serves_tcpros endpoint = true ↔
  ∃ host port, 0 < port ∧
    endpoint = ArrayValue [StringValue "TCPROS"; StringValue host; IntValue port].
Proof.
  split.
  - destruct endpoint as [| | |[|[| |p| |] [|[| |h| |] [|[|z| | |] [|? ?]]]]|]; try done.
    cbn. rewrite andb_true_iff, bool_decide_eq_true, negb_true_iff, Z.leb_gt. intros [-> ?]. eauto.
  - intros (h & z & Hz & ->). cbn. by rewrite (proj2 (Z.leb_gt z 0)).
Qed.

(** A message that answers the question of a message mode. *)
Definition accepted_message (mode node type : string) (m : TopicMessage) : Prop :=
  (node = "" ∨ publisher_name m = node) ∧ (type = "" ∨ message_type_name m = type) ∧
  (mode = "mavros-connected" →
     message_type_name m = "mavros_msgs/State" ∧ connected_field m = Ok true).

(** What the probe of each mode has found, with the process id it prints (0 for
    none). *)
Inductive found (o : ProbeOptions) (node : string) (deadline : Z) : Z → list probe_event → Prop :=
| found_master pid e :
    opt_mode o = "master" → 0 < pid →
    answered deadline (opt_master o) "getPid" (arguments "") (IntValue pid) e →
    found o node deadline pid e
| found_node uri pid e e' :
    opt_mode o = "node" → node ≠ "" → 0 < pid →
    answered deadline (opt_master o) "lookupNode" (arguments node) (StringValue uri) e →
    answered deadline uri "getPid" (arguments "") (IntValue pid) e' →
    found o node deadline pid (e ++ e')
| found_topic topic publishers subscribers services n nodes e :
    opt_mode o = "topic" → node = "" → absoluteName (opt_topic o) = Ok topic →
    answered deadline (opt_master o) "getSystemState" (arguments "")
      (ArrayValue [ArrayValue publishers; subscribers; services]) e →
    ArrayValue [StringValue topic; ArrayValue (n :: nodes)] ∈ publishers →
    found o node deadline 0 e
| found_publisher topic uri host port e e' :
    opt_mode o = "topic" → node ≠ "" → absoluteName (opt_topic o) = Ok topic → 0 < port →
    answered deadline (opt_master o) "lookupNode" (arguments node) (StringValue uri) e →
    answered deadline uri "requestTopic" (topic_arguments topic)
      (ArrayValue [StringValue "TCPROS"; StringValue host; IntValue port]) e' →
    found o node deadline 0 (e ++ e')
| found_message topic m t :
    opt_mode o = "message" ∨ opt_mode o = "mavros-connected" →
    absoluteName (opt_topic o) = Ok topic →
    m ∈ messages_at env t → in_time deadline (S t) →
    accepted_message (opt_mode o) node (opt_type o) m →
    found o node deadline 0 [Subscribed topic].

Lemma lookup_yields master node deadline :
  yields (λ uri, answered deadline master "lookupNode" (arguments node) (StringValue uri))
    (lookup env master node deadline).
Proof.
  unfold lookup. eapply yields_bind; [apply call_yields|]. intros [| |uri| |] e Ha; try apply yields_throw.
  apply yields_ret. by rewrite app_nil_r.
Qed.

Lemma probe_pid_yields o node deadline :
  opt_mode o = "master" ∨ opt_mode o = "node" →
  yields (λ pid e, found o node deadline pid e) (probe_pid env o node deadline).
Proof.
  intros Hm. unfold probe_pid. apply yields_bind_guard. intros Hn.
  assert (∀ value e k, (∀ pid, value = IntValue pid → 0 < pid → found o node deadline pid (e ++ k)) →
    yields (λ pid e', found o node deadline pid ((e ++ k) ++ e'))
      (match value with
       | IntValue pid => throw_when (pid <=? 0) (StdExn "getPid did not return a positive PID");; mret pid
       | _ => throw (StdExn "getPid did not return a positive PID")
       end : comp probe_event unit Z)) as Hend.
  { intros value e k Hf. destruct value as [|pid| | |]; try apply yields_throw.
    apply yields_bind_guard. intros Hp%Z.leb_gt. apply yields_ret. rewrite app_nil_r. auto. }
  destruct (bool_decide (opt_mode o = "master")) eqn:Hmaster.
  - apply bool_decide_eq_true in Hmaster.
    eapply yields_bind; [apply (yields_ret _ (λ uri e, uri = opt_master o ∧ e = [])); done|].
    intros uri e [-> ->]. eapply yields_bind; [apply call_yields|]. intros value e Ha.
    apply (Hend value [] e). intros pid -> Hpid. by apply found_master.
  - apply bool_decide_eq_false in Hmaster. destruct Hm as [|Hnode]; [done|].
    eapply yields_bind; [apply lookup_yields|]. intros uri e Hl.
    eapply yields_bind; [apply call_yields|]. intros value e' Ha. cbn beta.
    eapply yields_mono; [apply (Hend value e e')|].
    + intros pid -> Hpid. apply (found_node _ _ _ uri); try done.
      rewrite bool_decide_true in Hn by done. by apply bool_decide_eq_false in Hn.
    + intros pid e2. by rewrite app_assoc.
Qed.

Lemma topicRegistered_yields o node topic deadline :
  opt_mode o = "topic" → absoluteName (opt_topic o) = Ok topic →
  yields (λ _ e, found o node deadline 0 e) (topicRegistered env (opt_master o) node topic deadline).
Proof.
  intros Hm Ht. unfold topicRegistered. case_bool_decide as Hn; cbn [negb].
  - eapply yields_bind; [apply call_yields|]. intros state e Ha. apply yields_throw_when.
    intros Hr%negb_false_iff. rewrite app_nil_r.
    apply registered_spec in Hr as (ps & b & c & n & ns & -> & Hin). by eapply found_topic.
  - eapply yields_bind; [apply lookup_yields|]. intros uri e Hl.
    eapply yields_bind; [apply call_yields|]. intros endpoint e' Ha. apply yields_throw_when.
    intros (h & z & Hz & ->)%negb_false_iff%serves_tcpros_spec. rewrite app_nil_r. by apply (found_publisher _ _ _ topic uri h z).
Qed.

(** ** Messages *)

Lemma message_callback_received mode node type state m state' :
  message_callback mode node type state m = Ok state' → state'.1 = true →
  state.1 = true ∨ accepted_message mode node type m.
Proof.
  unfold message_callback, accepted_message. destruct state as [received failure].
  destruct (negb (bool_decide (node = "")) && _) eqn:Hnode; [intros [= <-]; by left|].
  destruct (received || _) eqn:Hr; [intros [= <-]; by left|].
  match goal with |- match ?m with _ => _ end = _ → _ => destruct m as [[]|x] eqn:Hm end.
  2: { by destruct x; intros [= <-]. }
  intros _ _. right. apply throw_bind_Ok in Hm as [Ht Hm].
  rewrite andb_false_iff, negb_false_iff, negb_false_iff, !bool_decide_eq_true in Hnode, Ht.
  split; [done|]. split; [done|]. intros ->. rewrite bool_decide_true in Hm by done.
  apply throw_bind_Ok in Hm as [Hs%negb_false_iff%bool_decide_eq_true Hm].
  apply bind_Ok in Hm as (c & Hc & Hm). apply throw_if_Ok, negb_false_iff in Hm as ->. done.
Qed.

Lemma message_callbacks_received mode node type messages state state' :
  message_callbacks mode node type messages state = Ok state' → state'.1 = true →
  state.1 = true ∨ ∃ m, m ∈ messages ∧ accepted_message mode node type m.
Proof.
  revert state. induction messages as [|m messages IH]; intros state Hs Ht.
  { injection Hs as <-. by left. }
  cbn [message_callbacks] in Hs. apply bind_Ok in Hs as (state1 & H1 & Hs).
  destruct (IH _ Hs Ht) as [Ht1|(m' & Hin & Hm)].
  - destruct (message_callback_received _ _ _ _ _ _ H1 Ht1); [by left|]. right. exists m. set_solver.
  - right. exists m'. set_solver.
Qed.

(** The subscription has received a message that answers the question. *)
Definition received_message (mode node type : string) (w : world unit) : Prop :=
  ∃ t m, m ∈ messages_at env t ∧ accepted_message mode node type m ∧ tick w = S t.

Lemma wait_turn_spec mode node type deadline state w :
  (state.1 = true → received_message mode node type w) →
  wp True
    (let '(received, failure) := state in
     if received || negb (bool_decide (failure = "")) then mret (inr state)
     else
       ok ← ask (probe_ok_at env);
       if negb ok then mret (inr state)
       else
         checkDeadline env deadline;;
         messages ← ask (messages_at env);
         state ← lift (message_callbacks mode node type messages state);
         mret (inl state))
    (λ r e w', e = [] ∧
       match r with
       | Ok (inl state') => state'.1 = true → received_message mode node type w'
       | Ok (inr state') => state'.1 = true → received_message mode node type w'
       | Err _ => True
       end) w.
Proof.
  destruct state as [received failure]. cbn [fst]. intros Hs.
  destruct (received || _) eqn:Hr; [by apply wp_ret|]. apply orb_false_iff in Hr as [-> _].
  apply wp_bind, wp_ask. destruct (negb _); [by apply wp_ret|].
  apply wp_bind. eapply wp_mono; [apply checkDeadline_spec|]. intros [[]|x] e w1 [-> _]; [|done].
  apply wp_bind, wp_ask, wp_bind, wp_lift. unfold after_events. cbn [app].
  destruct (message_callbacks _ _ _ _ _) as [state'|x] eqn:Hm; [|done]. apply wp_ret.
  split; [done|]. intros Ht. destruct (message_callbacks_received _ _ _ _ _ _ Hm Ht) as [|(m & Hin & Ha)]; [done|].
  exists (tick w1), m. auto.
Qed.

Lemma wait_for_message_yields o node topic deadline :
  opt_mode o = "message" ∨ opt_mode o = "mavros-connected" →
  absoluteName (opt_topic o) = Ok topic →
  yields (λ _ e, found o node deadline 0 e)
    (wait_for_message env (opt_mode o) node topic (opt_type o) deadline).
Proof.
  intros Hm Ht w. unfold wait_for_message. apply wp_bind, wp_emit, wp_bind.
  eapply wp_mono.
  { apply (wp_loop True _
      (λ state e w', e = [] ∧ (state.1 = true → received_message (opt_mode o) node (opt_type o) w'))
      (λ r e w', e = [] ∧ ∀ state, r = Ok state → state.1 = true →
         received_message (opt_mode o) node (opt_type o) w')
      (probe_bound env) I) with (e := []); [|done].
    intros state e0 w0 [-> Hs]. eapply wp_mono; [by apply wait_turn_spec|].
    intros [[state'|state']|x] e w1 [-> Hw]; [done| |done]. split; [done|]. by intros ? [= <-]. }
  unfold after_events. cbn [app]. intros [[received failure]|x] e w1 [-> Hr]; [|done].
  apply wp_bind. eapply wp_mono; [apply checkDeadline_spec|]. intros [[]|x] e w2 [-> Hin]; [|done].
  apply wp_bind, wp_throw_when; [done|]. intros _. apply wp_throw_when; [done|].
  intros ->%negb_false_iff [] _. unfold after_events. cbn [app].
  destruct (Hr _ eq_refl eq_refl) as (t & m & Hin' & Ha & Htick). rewrite Htick in Hin.
  apply (found_message o node deadline topic m t); auto.
Qed.

(** ** TCP *)

(** The address of a TCP check, with a connection made to it. *)
Definition listening (address : string) (e : list probe_event) : Prop :=
  (address = "" ∧ e = []) ∨
  ∃ host port t, address ≠ "" ∧ verify_address address = Ok (host, port) ∧
    tcp_at env t = Some None ∧ e = [Connecting host port].

Lemma verifyTCP_yields address deadline :
  yields (λ _ e, listening address e) (verifyTCP env address deadline).
Proof.
  unfold verifyTCP, listening. case_bool_decide as Ha; [apply yields_ret; by left|].
  apply yields_bind_lift. intros [host port] Hv.
  eapply yields_bind; [apply (yields_emit _ (λ _ e, e = [Connecting host port])); done|].
  intros [] e ->.
  eapply (yields_bind _ _ (λ failure e, e = [] ∧ ∃ t, tcp_at env t = Some failure)).
  - intros w. apply (wp_loop True _ (λ x e w', e = [] ∧ ∀ f, x = Some f → ∃ t, tcp_at env t = Some f)
      (λ r e w', ∀ f, r = Ok f → e = [] ∧ ∃ t, tcp_at env t = Some f) (probe_bound env) I) with (e := []);
      [|done].
    intros [failure|] e w0 [-> Hx].
    + apply wp_ret. intros ? [= <-]. split; [done|]. by apply Hx.
    + apply wp_bind. eapply wp_mono; [apply checkDeadline_spec|]. intros [[]|x] e w1 [-> _]; [|done].
      apply wp_bind, wp_ask, wp_ret. split; [done|]. cbn. eauto.
  - intros [message|] e [-> [t Ht]]; [apply yields_throw|]. apply yields_ret. right.
    exists host, port, t. auto.
Qed.
End runs.
