(* ===== verification/ProbeSnapshot.v ===== *)
(** * Pose snapshots: what a snapshot holds

    The samples the callbacks collect, the numbers they were read from, and the
    arrays they are put into. *)

From Stdlib Require Import SpecFloat.
From S2P Require Import Prelude Bytes Errors Effects Floats Decimal Libraries Instances Regex Validation InstanceSpec InstanceSpecLemmas Calendar Probe ProbeDemo ProbeLemmas ProbeRuns.
Local Open Scope Z_scope.

Section samples.
Context {J : Type} `{JsonCpp J} `{!AdapterLibraries J} `{!ProbeLibraries J} (env : ProbeEnv).

(** A sample that the callback of a topic made from a message that arrived. *)
Definition sampled (topic : string) (sample : J) : Prop :=
  ∃ t message w w', (topic, message) ∈ poses_at env t ∧
    read_pose env topic message w = MkRun (Some (Ok (Some sample))) [] w'.

(** The samples are of subscribed topics and come from their callbacks. *)
Definition sampled_topics (topics : list string) (samples : gmap string J) : Prop :=
  ∀ topic sample, samples !! topic = Some sample → topic ∈ topics ∧ sampled topic sample.

Lemma read_pose_silent topic message w :
  wp True (read_pose env topic message) (λ _ e _, e = []) w.
Proof.
  unfold read_pose. destruct (negb _); [by wp_step|]. apply wp_bind, wp_lift.
  destruct (translated_pose message) as [fields|]; [|done]. cbv zeta.
  apply wp_bind, wp_lift. destruct (frame_id fields); [|done].
  apply wp_bind, wp_lift. destruct (pose_stamp fields) as [[sec nsec]|]; [|done].
  apply wp_bind, wp_lift. destruct (timestamp sec nsec); [|done].
  apply wp_bind, wp_ask. destruct (wall_now env _) as [wsec wnsec].
  apply wp_bind, wp_lift. destruct (timestamp wsec wnsec); [|done].
  apply wp_bind, wp_lift. destruct (read_axes _ _ _ _) as [[[sample norm]|]|]; [|done..].
  by apply wp_ret.
Qed.

Lemma pose_callback_yields topics topic message samples t :
  topic ∈ topics → (topic, message) ∈ poses_at env t → sampled_topics topics samples →
  yields (λ samples' e, e = [] ∧ sampled_topics topics samples')
    (pose_callback env topic message samples).
Proof.
  intros Htopic Hin Hs. unfold pose_callback. destruct (bool_decide _); [by apply yields_ret|].
  eapply (yields_bind _ _ (λ sample e, e = [] ∧ ∀ s, sample = Some s → sampled topic s)).
  - intros w. apply wp_try_catch. pose proof (read_pose_silent topic message w) as Hq. unfold wp in *.
    destruct (read_pose env topic message w) as [[[sample|x]|] e w'] eqn:Hrun; [| |done].
    + subst e. intros ? [= <-]. split; [done|]. intros s ->. by exists t, message, w, w'.
    + subst e. destruct x; [apply wp_ret| |by apply wp_throw]; [by intros ? [= <-]|].
      apply wp_ret. by intros ? [= <-].
  - intros sample e [-> Hsample]. apply yields_ret. split; [done|].
    destruct sample as [s|]; [|done]. intros topic' s' [[<- <-]|[_ Hl]]%lookup_insert_Some; auto.
Qed.

Lemma run_callbacks_yields topics messages samples t :
  (∀ m, m ∈ messages → m ∈ poses_at env t) → sampled_topics topics samples →
  yields (λ samples' e, e = [] ∧ sampled_topics topics samples')
    (run_callbacks env topics messages samples).
Proof.
  revert samples. induction messages as [|[topic message] messages IH]; intros samples Hm Hs.
  { by apply yields_ret. }
  cbn [run_callbacks].
  eapply (yields_bind _ _ (λ samples' e, e = [] ∧ sampled_topics topics samples')).
  - case_bool_decide; [|by apply yields_ret]. apply (pose_callback_yields _ _ _ _ t); [done| |done].
    apply Hm. set_solver.
  - intros samples' e [-> Hs']. apply IH; [|done]. intros m Hin. apply Hm. set_solver.
Qed.

Lemma collect_samples_yields topics deadline :
  yields (λ samples e, e = [] ∧ sampled_topics topics samples) (collect_samples env topics deadline).
Proof.
  intros w. unfold collect_samples.
  apply (wp_loop True _ (λ samples e w', e = [] ∧ sampled_topics topics samples)
    (λ r e w', ∀ samples, r = Ok samples → e = [] ∧ sampled_topics topics samples)
    (probe_bound env) I) with (e := []).
  - intros samples e w0 [-> Hs]. destruct (negb (Nat.ltb _ _)).
    { apply wp_ret. by intros ? [= <-]. }
    apply wp_bind, wp_ask. destruct (negb _).
    { apply wp_ret. by intros ? [= <-]. }
    apply wp_bind, wp_ask. destruct (negb _).
    { apply wp_ret. by intros ? [= <-]. }
    apply wp_bind, wp_ask. destruct (stopped_at env _).
    { apply wp_ret. by intros ? [= <-]. }
    apply wp_bind, wp_ask, wp_bind. set (w1 := MkWorld (S _) _).
    match goal with |- context [poses_at env ?t] =>
      eapply wp_mono; [apply (run_callbacks_yields topics (poses_at env t) samples t); [done|done]|] end.
    intros [samples'|x] e w2 Hr; [|done]. destruct (Hr _ eq_refl) as [-> Hs']. by apply wp_ret.
  - split; [done|]. intros topic sample Hl. by apply lookup_empty_Some in Hl.
Qed.

Lemma subscribe_all_yields topics :
  yields (λ _ e, e = Subscribed <$> topics) (subscribe_all topics).
Proof.
  induction topics as [|topic topics IH]; [by apply yields_ret|]. cbn [subscribe_all].
  eapply yields_bind; [apply (yields_emit _ (λ _ e, e = [Subscribed topic])); done|].
  intros [] e ->. eapply yields_mono; [exact IH|]. by intros [] e ->.
Qed.

(** ** The request on standard input *)

Definition input_byte (answer : InputAnswer) : option byte :=
  match answer with InputByte c => Some c | _ => None end.

(** [text] is what standard input delivers from tick [t] until its end, [n] ticks
    later, and it is at most 1 MiB. *)
Definition input_text (t n : nat) (text : list byte) : Prop :=
  text = omap input_byte (input_at env <$> seq t n) ∧
  (∀ i, (i < n)%nat → input_at env (t + i) ≠ InputEnd) ∧ input_at env (t + n) = InputEnd ∧
  Z.of_nat (length text) <= kSnapshotInputBytes.

Lemma input_text_next t n :
  omap input_byte (input_at env <$> seq t (S n)) =
  omap input_byte (input_at env <$> seq t n) ++ from_option (λ c, [c]) [] (input_byte (input_at env (t + n))).
Proof.
  rewrite seq_S, fmap_app, omap_app. cbn. by destruct (input_byte _).
Qed.

Lemma read_input_spec w :
  wp True (read_input env)
    (λ r e _, e = [] ∧ ∀ text, r = Ok text → ∃ n, input_text (tick w) n text) w.
Proof.
  apply (wp_loop True _ (λ text e w', e = [] ∧ ∃ n, tick w' = (tick w + n)%nat ∧
      text = omap input_byte (input_at env <$> seq (tick w) n) ∧
      (∀ i, (i < n)%nat → input_at env (tick w + i) ≠ InputEnd) ∧
      Z.of_nat (length text) <= kSnapshotInputBytes) _ _ I) with (e := []).
  2: { split; [done|]. exists 0%nat. split_and!; [lia|done|lia|done]. }
  intros text e w' [-> (n & Hn & Htext & Hopen & Hlen)]. apply wp_bind, wp_ask.
  pose proof (input_text_next (tick w) n) as Hnext. rewrite Hn.
  assert (input_at env (tick w + n) ≠ InputEnd →
          ∀ i, (i < S n)%nat → input_at env (tick w + i) ≠ InputEnd) as Hgo.
  { intros He i Hi. destruct (decide (i = n)) as [->|]; [done|]. apply Hopen. lia. }
  destruct (input_at env (tick w + n)) as [c| |] eqn:Ha.
  - apply wp_bind, wp_throw_when; [done|]. rewrite Z.eqb_neq. intros Hfull. apply wp_ret. split; [done|].
    exists (S n). cbn [tick]. split_and!; [lia|by rewrite Hnext, Htext|by apply Hgo|].
    rewrite length_app. cbn. lia.
  - apply wp_ret. split; [done|]. intros ? [= <-]. by exists n.
  - apply wp_ret. split; [done|]. exists (S n). cbn [tick].
    split_and!; [lia|by rewrite Hnext, Htext, app_nil_r|by apply Hgo|done].
Qed.

(** The request that a run starting at tick [t] reads. *)
Definition request_read (t : nat) (request : J) : Prop :=
  ∃ n text, input_text t n text ∧ snapshot_request (bytes_string text) = Ok request.

Lemma readSnapshotRequest_spec w :
  wp True (readSnapshotRequest env)
    (λ r e _, e = [] ∧ ∀ request, r = Ok request → request_read (tick w) request) w.
Proof.
  unfold readSnapshotRequest. apply wp_bind. eapply wp_mono; [apply read_input_spec|].
  intros [text|x] e w' [-> Ht]; [|done]. apply wp_lift. split; [done|]. intros request Hr.
  destruct (Ht _ eq_refl) as [n Hn]. by exists n, text.
Qed.

(** The run of a snapshot: the request it read, the answer of the master, the topics
    it subscribed to and the samples it put into the request. *)
Record snapshot_run (master : string) (deadline : Z) (start : nat) (result : J) (e : list probe_event) := MkSnapshotRun {
  run_request : J;
  run_published : list Value;
  run_selected : list (list string);
  run_topics : list string;
  run_samples : gmap string J;
  run_events : list probe_event;
  run_reads : request_read start run_request;
  run_asks : answered env deadline master "getPublishedTopics" (arguments "/")
               (ArrayValue run_published) run_events;
  run_selects : read_sources run_published (array_values (at_key run_request "sources")) [] =
                Ok (run_selected, run_topics);
  run_subscribes : e = run_events ++ (Subscribed <$> run_topics);
  run_collects : sampled_topics run_topics run_samples;
  run_fills : result = set_key run_request "sources"
                (sources_with_samples run_samples (array_values (at_key run_request "sources"))
                   run_selected)
}.

Lemma poseSnapshot_yields master deadline w :
  wp True (poseSnapshot env master deadline)
    (λ r e _, ∀ result, r = Ok result → inhabited (snapshot_run master deadline (tick w) result e)) w.
Proof.
  unfold poseSnapshot. apply wp_bind. eapply wp_mono; [apply readSnapshotRequest_spec|].
  intros [request|x] e0 w1 [-> Hreq]; [|done]. specialize (Hreq _ eq_refl).
  set (start := tick w) in *. clearbody start. clear w. revert w1.
  lazymatch goal with |- ∀ w1, wp _ ?m _ w1 =>
    change (yields (λ result e, inhabited (snapshot_run master deadline start result e)) m) end.
  eapply yields_bind; [apply call_yields|]. intros value e Ha.
  destruct value as [| | |published|]; try apply yields_throw. cbv zeta.
  apply yields_bind_lift. intros [selected topics] Hsel.
  eapply yields_bind; [apply subscribe_all_yields|]. intros [] e1 ->.
  eapply yields_bind; [apply collect_samples_yields|]. intros samples e2 [-> Hs].
  eapply yields_bind; [apply (yields_ask _ (λ _ e, e = [])); done|]. intros stopped e3 ->.
  apply yields_bind_guard. intros _.
  eapply yields_bind; [apply (yields_ask _ (λ _ e, e = [])); done|]. intros ok e4 ->.
  apply yields_bind_guard. intros _. apply yields_ret. constructor.
  apply (MkSnapshotRun _ _ _ _ _ request published selected topics samples e); try done.
  by rewrite !app_nil_r.
Qed.
End samples.

(** ** The samples themselves *)

Section content.
Context {J : Type} `{JsonCpp J} `{!JsonCppLaws J} `{!AdapterLibraries J} `{!ProbeLibraries J}
  (env : ProbeEnv).

(** [sample[part][axis]] was set to [number]. *)
Definition has_number (sample : J) (part axis : string) (number : double) : Prop :=
  isMember sample part = true ∧ at_key (at_key sample part) axis = ofDouble number.

(** The parts of a sample that were set are objects. *)
Definition parts_ok (sample : J) : Prop :=
  isObject sample = true ∧
  ∀ part axis, (part, axis) ∈ pose_axes → isMember sample part = true →
    isObject (at_key sample part) = true.

Lemma set_number_spec sample part axis number :
  parts_ok sample → (part, axis) ∈ pose_axes →
  let sample' := set_number sample part axis number in
  parts_ok sample' ∧ has_number sample' part axis number ∧
  (∀ key, key ≠ part → at_key sample' key = at_key sample key) ∧
  (∀ part' axis' number', (part', axis') ≠ (part, axis) →
     has_number sample part' axis' number' → has_number sample' part' axis' number').
Proof.
  intros [Ho Hparts] Hin. unfold set_number, has_number. cbv zeta.
  set (object := if isMember sample part then _ else _).
  assert (isObject object = true) as Hobj.
  { unfold object. destruct (isMember sample part) eqn:Hm; [by eapply Hparts|by apply (emptyObject_is "")]. }
  set (inner := set_key object axis (ofDouble number)).
  assert (∀ k, isObject inner = true ∧
            at_key inner k = if decide (k = axis) then ofDouble number else at_key object k) as Hinner.
  { intros k. unfold inner. destruct (set_key_is object axis (ofDouble number) k Hobj) as (? & _ & ?). auto. }
  pose proof (λ k, set_key_is sample part inner k Ho) as Hset.
  split.
  { split; [apply (Hset "")|]. intros part' axis' Hin' Hm'. destruct (Hset part') as (_ & Hmem & ->).
    case_decide; [by apply (Hinner "")|]. rewrite Hmem, bool_decide_false in Hm' by done. by eapply Hparts. }
  split_and!.
  - destruct (Hset part) as (_ & -> & _). by rewrite bool_decide_true.
  - destruct (Hset part) as (_ & _ & ->). rewrite decide_True by done.
    destruct (Hinner axis) as [_ ->]. by rewrite decide_True.
  - intros key Hne. destruct (Hset key) as (_ & _ & ->). by rewrite decide_False.
  - intros part' axis' number' Hne [Hm Hv]. destruct (Hset part') as (_ & -> & ->). rewrite Hm, orb_true_r.
    split; [done|]. case_decide as Hp; [|done]. subst part'. destruct (Hinner axis') as [_ ->].
    rewrite decide_False by naive_solver. unfold object. by rewrite Hm.
Qed.

(** The squares of the orientation, added up. *)
Definition add_square (norm : double) (part : string) (number : double) : double :=
  if bool_decide (part = "orientation") then SFadd 53 1024 norm (SFmul 53 1024 number number) else norm.

Lemma read_axes_spec pose axes sample norm sample' norm' :
  read_axes pose axes sample norm = Ok (Some (sample', norm')) →
  parts_ok sample → NoDup axes → axes ⊆ pose_axes →
  ∃ numbers,
    Forall2 (λ pa number, pose pa.1 pa.2 = Ok number ∧ is_finite number = true ∧
                          has_number sample' pa.1 pa.2 number) axes numbers ∧
    norm' = foldl (λ n pn, add_square n pn.1 pn.2) norm (zip axes.*1 numbers) ∧
    (∀ key, key ∉ axes.*1 → at_key sample' key = at_key sample key) ∧
    (∀ part axis number, (part, axis) ∉ axes → has_number sample part axis number →
       has_number sample' part axis number).
Proof.
  revert sample norm. induction axes as [|[part axis] axes IH]; intros sample norm Hr Hp Hnd Hsub.
  { injection Hr as <- <-. exists []. by split_and!. }
  cbn [read_axes] in Hr. apply bind_Ok in Hr as (number & Hnum & Hr).
  destruct (is_finite number) eqn:Hfin; [|done]. cbn [negb] in Hr.
  destruct (set_number_spec sample part axis number Hp) as (Hp' & Hhas & Hkey & Hkeep); [set_solver|].
  apply NoDup_cons in Hnd as [Hnin Hnd].
  apply IH in Hr as (numbers & Hall & -> & Hkey' & Hkeep'); [|done|done|set_solver].
  exists (number :: numbers). split.
  { constructor; [|done]. cbn. auto. }
  split; [done|]. cbn. split.
  - intros key Hk. rewrite Hkey' by set_solver. apply Hkey. set_solver.
  - intros part' axis' number' Hn Hh. apply Hkeep'; [set_solver|]. apply Hkeep; [set_solver|done].
Qed.

(** A sample of a topic: the numbers of the message, all finite, an orientation whose
    squares add up to a finite number of at least 1e-12, its frame, its stamp and
    the time it was seen at. *)
Definition pose_sample (topic : string) (message : PoseMessage) (sample : J) : Prop :=
  pose_type message = "geometry_msgs/PoseStamped" ∧
  ∃ fields frame sec nsec stamp t seen numbers,
    translated_pose message = Ok fields ∧
    at_key sample "topic" = ofString topic ∧
    frame_id fields = Ok frame ∧ at_key sample "frameId" = ofString frame ∧
    pose_stamp fields = Ok (sec, nsec) ∧ timestamp sec nsec = Ok stamp ∧
    at_key sample "sourceStamp" = ofString stamp ∧
    timestamp (wall_now env t).1 (wall_now env t).2 = Ok seen ∧
    at_key sample "observedAt" = ofString seen ∧
    Forall2 (λ pa number, pose_number fields pa.1 pa.2 = Ok number ∧ is_finite number = true ∧
                          at_key (at_key sample pa.1) pa.2 = ofDouble number) pose_axes numbers ∧
    let norm := foldl (λ n pn, add_square n pn.1 pn.2) (S754_zero false) (zip pose_axes.*1 numbers) in
    is_finite norm = true ∧ SFltb norm kMinimumQuaternionNorm = false.

Lemma pose_axes_NoDup : NoDup pose_axes.
Proof. apply (bool_decide_unpack _). vm_compute. exact I. Qed.

(** Members set one after the other on an object. *)
Definition set_keys (sample : J) (members : list (string * J)) : J :=
  foldl (λ s m, set_key s m.1 m.2) sample members.

Lemma set_keys_spec sample members key :
  isObject sample = true → NoDup members.*1 →
  isObject (set_keys sample members) = true ∧
  (key ∉ members.*1 → at_key (set_keys sample members) key = at_key sample key ∧
     isMember (set_keys sample members) key = isMember sample key) ∧
  (∀ value, (key, value) ∈ members → at_key (set_keys sample members) key = value).
Proof.
  unfold set_keys. revert sample. induction members as [|[k v] members IH]; intros sample Ho Hnd.
  { split; [done|]. split; [done|]. set_solver. }
  cbn [foldl fst snd]. apply NoDup_cons in Hnd as [Hk Hnd].
  destruct (set_key_is sample k v key Ho) as (Ho' & Hm & Ha).
  destruct (IH (set_key sample k v) Ho' Hnd) as (Ho2 & Hkeep & Hset). split; [done|]. split.
  - intros Hin. cbn in Hin. destruct (Hkeep ltac:(set_solver)) as [-> ->]. rewrite Ha, Hm.
    rewrite decide_False, bool_decide_false by set_solver. done.
  - intros value [[= -> ->]|Hin]%elem_of_cons; [|by apply Hset]. cbn in Hk.
    destruct (Hkeep Hk) as [-> _]. rewrite Ha. by rewrite decide_True.
Qed.

Lemma read_pose_sample topic message w sample e w' :
  read_pose env topic message w = MkRun (Some (Ok (Some sample))) e w' →
  pose_sample topic message sample.
Proof.
  intros Hrun. refine (wp_run True _ (λ r _ _, ∀ sample, r = Ok (Some sample) →
    pose_sample topic message sample) _ _ _ _ _ Hrun sample eq_refl). clear Hrun sample e w'.
  unfold read_pose. destruct (bool_decide _) eqn:Ht; cbn [negb]; [|by apply wp_ret].
  apply bool_decide_eq_true in Ht. apply wp_bind, wp_lift.
  destruct (translated_pose message) as [fields|] eqn:Hf; [|done]. cbv zeta.
  apply wp_bind, wp_lift. destruct (frame_id fields) as [frame|] eqn:Hframe; [|done].
  apply wp_bind, wp_lift. destruct (pose_stamp fields) as [[sec nsec]|] eqn:Hstamp; [|done].
  apply wp_bind, wp_lift. destruct (timestamp sec nsec) as [stamp|] eqn:Hts; [|done].
  apply wp_bind, wp_ask. destruct (wall_now env _) as [wsec wnsec] eqn:Hw.
  apply wp_bind, wp_lift. destruct (timestamp wsec wnsec) as [seen|] eqn:Hseen; [|done].
  apply wp_bind, wp_lift. set (s := set_key _ _ _).
  destruct (read_axes _ _ _ _) as [[[sample' norm]|]|] eqn:Hr; [|done..]. apply wp_ret.
  destruct (negb (is_finite norm) || SFltb norm kMinimumQuaternionNorm) eqn:Hn; [done|].
  apply orb_false_iff in Hn as [Hfin%negb_false_iff Hmin]. intros ? [= <-].
  set (members := [("topic", ofString topic); ("frameId", ofString frame);
                   ("sourceStamp", ofString stamp); ("observedAt", ofString seen)]).
  change s with (set_keys emptyObject members) in Hr.
  assert (NoDup members.*1) as Hnd by (apply (bool_decide_unpack _); vm_compute; exact I).
  pose proof (λ key, set_keys_spec emptyObject members key (proj1 (emptyObject_is "")) Hnd) as Hs.
  apply read_axes_spec in Hr as (numbers & Hall & -> & Hkey & _); [|split|apply pose_axes_NoDup|done].
  - assert (∀ key value, (key, value) ∈ members → at_key sample' key = value) as Hmember.
    { intros key value Hin. rewrite Hkey; [by apply Hs|].
      clear -Hin. unfold members in Hin. rewrite !elem_of_cons, elem_of_nil in Hin.
      destruct_or!; simplify_eq; apply (bool_decide_unpack _); vm_compute; exact I. }
    split; [done|]. exists fields, frame, sec, nsec, stamp, (tick w), seen, numbers.
    rewrite Hw. split_and!; try done; try (apply Hmember; set_solver).
    eapply Forall2_impl; [done|]. unfold has_number. naive_solver.
  - apply (Hs "").
  - intros part axis Hin Hm. destruct (Hs part) as (_ & Hk & _).
    assert (part ∉ members.*1) as Hp.
    2: { rewrite (proj2 (Hk Hp)), (proj2 (emptyObject_is part)) in Hm. done. }
    clear -Hin. unfold pose_axes in Hin. rewrite !elem_of_cons, elem_of_nil in Hin.
    destruct_or!; simplify_eq; apply (bool_decide_unpack _); vm_compute; exact I.
Qed.

(** ** Arrays *)

Lemma array_values_append array value :
  isArray array = true → array_values (jappend array value) = array_values array ++ [value].
Proof.
  intros Ha. destruct (jappend_is array value Ha) as (_ & Hs & Hl & Hk). unfold array_values.
  rewrite Hs, seq_S, fmap_app. cbn. rewrite Hl. f_equal. apply list_fmap_ext.
  intros i n Hi. apply Hk. apply lookup_seq in Hi. lia.
Qed.

Lemma array_values_foldl {A} (f : A → option J) (l : list A) array :
  isArray array = true →
  array_values (foldl (λ a x, match f x with Some v => jappend a v | None => a end) array l) =
  array_values array ++ omap f l.
Proof.
  revert array. induction l as [|x l IH]; intros array Ha; [by rewrite app_nil_r|].
  cbn. destruct (f x) as [v|]; [|by apply IH].
  rewrite IH by apply (jappend_is array v Ha). by rewrite array_values_append, <- app_assoc.
Qed.

Lemma source_samples_values samples selected :
  array_values (source_samples samples selected) = omap (samples !!.) selected.
Proof.
  unfold source_samples. rewrite (array_values_foldl (samples !!.)) by apply emptyArray_is.
  unfold array_values. by rewrite (proj2 emptyArray_is).
Qed.

Lemma foldl_append_values l : array_values (foldl jappend emptyArray l) = l.
Proof.
  assert (∀ array, isArray array = true → array_values (foldl jappend array l) = array_values array ++ l) as Hl.
  { induction l as [|v l IH]; intros array Ha; [by rewrite app_nil_r|]. cbn.
    rewrite IH by apply (jappend_is array v Ha). by rewrite array_values_append, <- app_assoc. }
  rewrite Hl by apply emptyArray_is. unfold array_values. by rewrite (proj2 emptyArray_is).
Qed.

Lemma snapshot_request_object text (request : J) :
  snapshot_request text = Ok request → isObject request = true.
Proof.
  unfold snapshot_request. destruct (snapshot_parse text) as [request'|]; [|done]. guards. intros [Hg Hr].
  apply bind_Ok in Hr as (_ & _ & Hr). injection Hr as <-.
  destruct (isObject request'); [done|]. cbn in Hg. done.
Qed.

(** C25: what a snapshot contains. The request is what standard input delivered from the
    start of the run until its end, at most 1 MiB of it. A snapshot is the request
    with a list of samples added to each of its sources and nothing else changed. The topics subscribed are the
    selections of the sources, at most 256, each once; the samples of a source are
    those of its selected topics, in their order; and each sample was made from a
    pose message that arrived on its topic while the snapshot ran: its seven numbers
    are the message's and finite, and its orientation is not near zero. *)
Theorem snapshot_holds_valid_poses master deadline w result e w' :
  poseSnapshot env master deadline w = MkRun (Some (Ok result)) e w' →
  ∃ n text request published selected topics samples e0,
    input_text env (tick w) n text ∧ snapshot_request (bytes_string text) = Ok request ∧
    answered env deadline master "getPublishedTopics" (arguments "/") (ArrayValue published) e0 ∧
    e = e0 ++ (Subscribed <$> topics) ∧
    Forall2 (λ source sel, source_topics published source = Ok sel)
      (array_values (at_key request "sources")) selected ∧
    ascending topics ∧ (length topics <= 256)%nat ∧
    (∀ topic, topic ∈ topics ↔ ∃ sel, sel ∈ selected ∧ topic ∈ sel) ∧
    (∀ topic sample, samples !! topic = Some sample →
       ∃ t message, (topic, message) ∈ poses_at env t ∧ pose_sample topic message sample) ∧
    (∀ key, key ≠ "sources" → at_key result key = at_key request key) ∧
    array_values (at_key result "sources") =
      zip_with (λ source sel, set_key source "samples" (source_samples samples sel))
        (array_values (at_key request "sources")) selected ∧
    (∀ sel, array_values (source_samples samples sel) = omap (samples !!.) sel).
Proof.
  intros Hrun. pose proof (wp_run True _ _ _ _ _ _ (poseSnapshot_yields env master deadline w) Hrun) as Hy.
  destruct (Hy _ eq_refl) as [[request published selected topics samples e0 (n & text & Hinput & Hreq) Hask Hsel -> Hcol ->]].
  apply snapshot_request_object in Hreq as Ho.
  apply read_sources_spec in Hsel as (Hall & Hsort & Hlen & Hin); [|constructor|cbn; lia].
  exists n, text, request, published, selected, topics, samples, e0.
  pose proof (λ key, set_key_is request "sources" (sources_with_samples samples
    (array_values (at_key request "sources")) selected) key Ho) as Hset.
  split_and!; try done.
  - intros topic. rewrite Hin. set_solver.
  - intros topic sample Hl. destruct (Hcol _ _ Hl) as [_ (t & message & w1 & w2 & Hp & Hr)].
    exists t, message. split; [done|]. by eapply read_pose_sample.
  - intros key Hne. destruct (Hset key) as (_ & _ & ->). by rewrite decide_False.
  - destruct (Hset "sources") as (_ & _ & ->). rewrite decide_True by done. apply foldl_append_values.
  - intros sel. apply source_samples_values.
Qed.
End content.

Definition demo_snapshot :=
  poseSnapshot (ProbeDemo.env (ArrayValue ProbeDemo.published)) "http://m:11311" 30000000
    ProbeDemo.start.

(** The second topic has a sample, taken from its first valid message. *)
Example demo_snapshot_samples :
  match outcome demo_snapshot with
  | Some (Ok result) =>
      (λ s, asString (at_key s "topic")) <$>
        array_values (at_key (at_index (at_key result "sources") 0) "samples") = ["/uav/pose"]
  | _ => False
  end.
Proof. vm_compute. reflexivity. Qed.

Definition demo_result : json :=
  match outcome demo_snapshot with Some (Ok result) => result | _ => JNull end.

Lemma demo_snapshot_run :
  demo_snapshot = MkRun (Some (Ok demo_result)) (events demo_snapshot) (after demo_snapshot).
Proof. vm_compute. reflexivity. Qed.

Lemma snapshot_holds_valid_poses_witness :
  ∃ n text request published selected topics samples e0,
    let env := ProbeDemo.env (ArrayValue ProbeDemo.published) in
    input_text env 0 n text ∧ snapshot_request (bytes_string text) = Ok request ∧
    answered env 30000000 "http://m:11311" "getPublishedTopics" (arguments "/") (ArrayValue published) e0 ∧
    events demo_snapshot = e0 ++ (Subscribed <$> topics) ∧
    Forall2 (λ source sel, source_topics published source = Ok sel)
      (array_values (at_key request "sources")) selected ∧
    ascending topics ∧ (length topics <= 256)%nat ∧
    (∀ topic, topic ∈ topics ↔ ∃ sel, sel ∈ selected ∧ topic ∈ sel) ∧
    (∀ topic sample, samples !! topic = Some sample →
       ∃ t message, (topic, message) ∈ poses_at env t ∧ pose_sample env topic message sample) ∧
    (∀ key, key ≠ "sources" → at_key demo_result key = at_key request key) ∧
    array_values (at_key demo_result "sources") =
      zip_with (λ source sel, set_key source "samples" (source_samples samples sel))
        (array_values (at_key request "sources")) selected ∧
    (∀ sel, array_values (source_samples samples sel) = omap (samples !!.) sel).
Proof.
  apply (snapshot_holds_valid_poses _ _ _ ProbeDemo.start demo_result _ (after demo_snapshot)).
  exact demo_snapshot_run.
Defined.
