(* ===== verification/ProbeMain.v ===== *)
(** * The probe command: success and termination

    Exit status 0 means that the question was answered; and the command ends once it
    is cancelled or its time limit has passed, provided that a snapshot's request on
    standard input comes to its end - reading it waits without a limit. *)

From Stdlib Require Import SpecFloat.
From S2P Require Import Prelude Bytes Errors Effects Termination Floats Decimal Libraries Instances Regex Validation InstanceSpec InstanceSpecLemmas Calendar Probe ProbeDemo ProbeLemmas ProbeRuns ProbeSnapshot.
Local Open Scope Z_scope.

Section success.
Context {J : Type} `{JsonCpp J} `{!AdapterLibraries J} `{!ProbeLibraries J} (env : ProbeEnv).

(** What is printed, as a line. *)
Definition line (text : string) : string := text +:+ bytes_string [byte_of 10].

Lemma probe_options_timeout args o :
  probe_options args = Ok o → 1 <= opt_milliseconds o <= 86400000.
Proof.
  unfold probe_options. intros Ho. apply bind_Ok in Ho as (options & _ & Ho).
  apply bind_Ok in Ho as (_ & _ & Ho). cbv zeta in Ho. revert Ho. guards. intros (_ & _ & _ & Ho).
  apply bind_Ok in Ho as (ms & _ & Ho). revert Ho. guards.
  rewrite orb_false_iff, Z.ltb_ge, Z.gtb_ltb, Z.ltb_ge. by intros [? <-].
Qed.

(** A result of the question of the mode. *)
Definition mode_answer (o : ProbeOptions) (node : string) (deadline : Z) (answer : string + Z)
    (e : list probe_event) : Prop :=
  match answer with
  | inl text => opt_mode o = "pose-snapshot" ∧
      ∃ result w w', poseSnapshot env (opt_master o) deadline w = MkRun (Some (Ok result)) e w' ∧
        snapshot_write result = Ok text
  | inr pid => found env o node deadline pid e
  end.

Lemma probe_mode_yields o node deadline :
  yields (mode_answer o node deadline) (probe_mode env o node deadline).
Proof.
  unfold probe_mode. case_bool_decide as Hsnap.
  { eapply (yields_bind _ _ (λ result e, ∃ w w',
      poseSnapshot env (opt_master o) deadline w = MkRun (Some (Ok result)) e w')).
    - intros w. unfold wp.
      destruct (poseSnapshot env (opt_master o) deadline w) as [[r|] e w'] eqn:Hr; [|done].
      intros result ->. eauto.
    - intros result e (w & w' & Hr). apply yields_bind_lift. intros text Ht. apply yields_ret.
      rewrite app_nil_r. split; [done|]. by exists result, w, w'. }
  destruct (bool_decide _ || bool_decide (_ = "node")) eqn:Hpid.
  { apply orb_true_iff in Hpid. rewrite !bool_decide_eq_true in Hpid.
    eapply yields_bind; [by apply probe_pid_yields|]. intros pid e Hf. apply yields_ret.
    by rewrite app_nil_r. }
  destruct (_ || bool_decide (_ = "mavros-connected")) eqn:Htopic; [|apply yields_throw].
  rewrite !orb_true_iff, !bool_decide_eq_true in Htopic.
  apply yields_bind_lift. intros topic Ht.
  eapply (yields_bind _ _ (λ _ e, found env o node deadline 0 e)).
  - destruct (bool_decide (opt_mode o = "topic")) eqn:Hm.
    + apply topicRegistered_yields; [by apply bool_decide_eq_true in Hm|done].
    + apply bool_decide_eq_false in Hm. apply wait_for_message_yields; [naive_solver|done].
  - intros [] e Hf. apply yields_ret. by rewrite app_nil_r.
Qed.

(** The command as a whole. *)
Definition verified (o : ProbeOptions) (node : string) (deadline : Z) (e : list probe_event) : Prop :=
  (opt_mode o = "pose-snapshot" ∧
     ∃ result text e1 w w',
       poseSnapshot env (opt_master o) deadline w = MkRun (Some (Ok result)) e1 w' ∧
       snapshot_write result = Ok text ∧ e = e1 ++ [Printed (line text)]) ∨
  (∃ pid e1 e2, found env o node deadline pid e1 ∧ listening env (opt_verify o) e2 ∧
     e = e1 ++ e2 ++ (if pid =? 0 then [] else [Printed (line (to_string pid))])).

Lemma answer_yields o node deadline answer e0 :
  mode_answer o node deadline answer e0 →
  yields (λ status e, status = 0 ∧ verified o node deadline (e0 ++ e))
    (match answer with
     | inl snapshot => emit (Printed (snapshot +:+ bytes_string [byte_of 10]));; mret 0
     | inr pid =>
         verifyTCP env (opt_verify o) deadline;;
         when (negb (pid =? 0)) (emit (Printed (to_string pid +:+ bytes_string [byte_of 10])));;
         mret 0
     end).
Proof.
  destruct answer as [text|pid]; cbn [mode_answer].
  - intros (Hm & result & w & w' & Hr & Ht).
    eapply yields_bind; [apply (yields_emit _ (λ _ e, e = [Printed (line text)])); done|].
    intros [] e ->. apply yields_ret. rewrite app_nil_r. split; [done|]. left. split; [done|].
    by exists result, text, e0, w, w'.
  - intros Hf. eapply yields_bind; [apply verifyTCP_yields|]. intros [] e2 Hl.
    eapply (yields_bind _ _ (λ _ e, e = if pid =? 0 then [] else [Printed (line (to_string pid))])).
    + destruct (pid =? 0); cbn [negb when]; [by apply yields_ret|by apply yields_emit].
    + intros [] e ->. apply yields_ret. split; [done|]. right. rewrite app_nil_r. eauto 8.
Qed.

Lemma run_probe_spec args w :
  wp True (run_probe env args)
    (λ r e _, ∀ status, r = Ok status → status = 0 ∧
       ∃ o node, probe_options args = Ok o ∧
         (if bool_decide (opt_node o = "") then Ok "" else absoluteName (opt_node o)) = Ok node ∧
         verified o node (probe_now env (tick w) + opt_milliseconds o * 1000000) e) w.
Proof.
  unfold run_probe. apply wp_bind, wp_lift. destruct (probe_options args) as [o|] eqn:Ho; [|done].
  apply wp_bind, wp_ask. cbv zeta. set (deadline := _ + _). apply wp_bind, wp_lift.
  destruct (if bool_decide _ then _ else _) as [node|] eqn:Hn; [|done].
  apply wp_bind, wp_lift. destruct (probe_ros_init env) as [[]|]; [|done].
  eapply wp_mono.
  { eapply (yields_bind _ _ _ (λ status e, status = 0 ∧ verified o node deadline e));
      [apply probe_mode_yields|]. intros answer e Ha. by apply answer_yields. }
  intros r e w' Hr status ->. destruct (Hr _ eq_refl) as [-> Hv]. split; [done|]. by exists o, node.
Qed.

Lemma probe_main_spec args w :
  wp True (probe_main env args)
    (λ r e _, (∀ status, r = Ok status → status = 0 →
       ∃ o node, probe_options args = Ok o ∧
         (if bool_decide (opt_node o = "") then Ok "" else absoluteName (opt_node o)) = Ok node ∧
         verified o node (probe_now env (tick w) + opt_milliseconds o * 1000000) e) ∧
       (r = Ok 0 ∨ r = Ok 1 ∨ r = Ok 130 ∨ r = Err OtherExn)) w.
Proof.
  unfold probe_main. apply wp_try_catch. eapply wp_mono; [apply run_probe_spec|].
  intros [status|x] e w' Hr.
  - split; [naive_solver|]. destruct (Hr _ eq_refl) as [-> _]. by left.
  - unfold probe_failed. destruct x; [| |apply wp_throw; split; [done|auto]].
    all: wp_steps; (split; [by destruct (stopped_at env _); intros ? [= <-]|]);
      destruct (stopped_at env _); auto.
Qed.

(** C24: success is never reported for nothing. If the probe exits with 0, its options
    were accepted and, by the time limit they set, the question of its mode was
    answered: the master (or the node the master knows under that name) gave its
    positive process id, which is what was printed; the topic had a registered
    publisher, or the named node offered it over TCPROS; a message of the right node
    and type had arrived, for MAVROS one that says it is connected; or a snapshot
    was taken, and it is what was printed. If an address was to be checked, a
    connection to it was made. *)
Theorem probe_success_is_verified args w e w' :
  probe_main env args w = MkRun (Some (Ok 0)) e w' →
  ∃ o node, probe_options args = Ok o ∧
    (if bool_decide (opt_node o = "") then Ok "" else absoluteName (opt_node o)) = Ok node ∧
    verified o node (probe_now env (tick w) + opt_milliseconds o * 1000000) e.
Proof.
  intros Hrun. destruct (wp_run True _ _ _ _ _ _ (probe_main_spec args w) Hrun) as [Hok _]. by apply (Hok 0).
Qed.
End success.

(** ** The probe ends *)

Section termination.
Context {J : Type} `{JsonCpp J} `{!AdapterLibraries J} `{!ProbeLibraries J} (env : ProbeEnv).
Context (N : nat) (bound_ok : (N < probe_bound env)%nat).

Section deadline.
Context (deadline : Z).
(** From tick [N] on the probe is cancelled, or its deadline has passed. *)
Definition over_from : Prop :=
  (∀ t, (N <= t)%nat → stopped_at env t = true) ∨ (∀ t, (N <= t)%nat → deadline <= probe_now env t).
Context (over : over_from).

(** Passing the check takes time, and is possible only before tick [N]. *)
Lemma checkDeadline_late w :
  wp False (checkDeadline env deadline)
    (λ r _ w', (tick w <= tick w')%nat ∧
               (is_Ok r = true → (tick w < tick w')%nat ∧ (tick w < N)%nat)) w.
Proof.
  unfold checkDeadline. apply wp_bind, wp_ask, wp_bind, wp_throw_when; [intros _; unfold after_events; cbn [tick]; split; [lia|done]|].
  intros Hs. apply wp_bind, wp_ask, wp_throw_when; intros Hn; unfold after_events; cbn [tick]; (split; [lia|]); [done|].
  intros _. split; [lia|]. destruct (Nat.lt_ge_cases (tick w) N) as [|Hge]; [done|exfalso].
  destruct over as [Hstop|Hnow].
  - by rewrite Hstop in Hs.
  - specialize (Hnow (S (tick w)) ltac:(lia)). rewrite Z.geb_leb in *. cbn [tick] in *.
    apply Z.leb_gt in Hn. lia.
Qed.

Lemma ends_checkDeadline : ends (checkDeadline env deadline).
Proof. intros w. eapply wp_mono; [apply checkDeadline_late|]. by intros r e w' [? _]. Qed.

(** A turn that goes on only past the check. *)
Lemma turn_check {X A} (rest : comp probe_event unit (X + A)) :
  ends rest → turn N (checkDeadline env deadline;; rest).
Proof.
  intros Hrest w. apply wp_bind. eapply wp_mono; [apply checkDeadline_late|].
  intros [[]|x] e w1 [Hle Hlt]; [|done]. specialize (Hlt eq_refl).
  eapply wp_mono; [apply Hrest|]. intros r e' w2 Hle2. unfold after_events. cbn beta in *. split; [lia|]. intros. lia.
Qed.

Lemma turn_ask {X A C} (f : nat → C) (k : C → comp probe_event unit (X + A)) :
  (∀ c, turn N (k c)) → turn N (ask f ≫= k).
Proof.
  intros Hk w. apply wp_bind, wp_ask. eapply wp_mono; [apply Hk|]. cbn [tick].
  intros r e w' [Hle Hgo]. unfold after_events. split; [lia|]. intros x Hx. destruct (Hgo x Hx). lia.
Qed.
Hint Resolve ends_checkDeadline : xgc.

Lemma ends_call uri method args : ends (call env uri method args deadline).
Proof.
  unfold call. destruct (splitURI env uri) as [[host port]|]; [|ends_tac].
  apply ends_bind; [ends_tac|]. intros _. apply ends_bind; [ends_tac|]. intros executed.
  apply ends_bind; [ends_tac|]. intros _. apply ends_bind; [ends_tac|]. intros _.
  apply ends_bind; [|intros ?; ends_tac]. apply (ends_loop N); [done|]. intros _. apply turn_ask.
  intros [result|]; [apply turn_leave|]. apply turn_check. ends_tac.
Qed.
Hint Resolve ends_call : xgc.

Lemma ends_topicRegistered master node topic : ends (topicRegistered env master node topic deadline).
Proof. unfold topicRegistered, lookup. ends_tac. Qed.

Lemma ends_verifyTCP address : ends (verifyTCP env address deadline).
Proof.
  unfold verifyTCP. destruct (bool_decide _); [ends_tac|]. apply ends_bind; [ends_tac|].
  intros [host port]. apply ends_bind; [ends_tac|]. intros _. apply ends_bind; [|intros ?; ends_tac].
  apply (ends_loop N); [done|]. intros [failure|]; [apply turn_leave|]. apply turn_check. ends_tac.
Qed.

Lemma ends_wait_for_message mode node topic type :
  ends (wait_for_message env mode node topic type deadline).
Proof.
  unfold wait_for_message. apply ends_bind; [ends_tac|]. intros _. apply ends_bind; [|intros ?; ends_tac].
  apply (ends_loop N); [done|]. intros [received failure]. destruct (_ || _); [apply turn_leave|].
  apply turn_ask. intros ok. destruct (negb ok); [apply turn_leave|]. apply turn_check. ends_tac.
Qed.

Lemma ends_run_callbacks topics messages (samples : gmap string J) :
  ends (run_callbacks env topics messages samples).
Proof.
  revert samples. induction messages as [|[topic message] messages IH]; intros samples;
    cbn [run_callbacks]; [apply ends_ret|]. apply ends_bind; [|intros ?; apply IH]. destruct (bool_decide _); [|ends_tac].
  unfold pose_callback. destruct (bool_decide _); [ends_tac|]. unfold read_pose. ends_tac.
Qed.

Lemma ends_collect_samples topics : ends (collect_samples env topics deadline).
Proof.
  unfold collect_samples. apply (ends_loop N); [done|]. intros samples.
  destruct (negb _); [apply turn_leave|]. apply turn_ask. intros ok.
  destruct (negb ok); [apply turn_leave|]. intros w. apply wp_bind, wp_ask.
  destruct (probe_now env (tick w) <? deadline) eqn:Hnow; cbn [negb];
    [|apply wp_ret; unfold after_events; cbn [tick]; split; [lia|done]].
  apply wp_bind, wp_ask. cbn [tick]. destruct (stopped_at env (S (tick w))) eqn:Hstop.
  { apply wp_ret. unfold after_events. cbn [tick]. split; [lia|done]. }
  assert (tick w < N)%nat as HN.
  { destruct (Nat.lt_ge_cases (tick w) N) as [|Hge]; [done|exfalso]. apply Z.ltb_lt in Hnow.
    destruct over as [Hs|Hn]; [rewrite Hs in Hstop; [done|lia]|]. specialize (Hn _ Hge). lia. }
  apply wp_bind, wp_ask, wp_bind. eapply wp_mono; [apply ends_run_callbacks|].
  intros [samples'|x] e w1 Hle; cbn [tick] in Hle; [|split; [lia|done]].
  apply wp_ret. unfold after_events. split; [lia|]. intros. lia.
Qed.

Lemma ends_subscribe_all topics : ends (subscribe_all topics).
Proof. induction topics; cbn [subscribe_all]; ends_tac. Qed.
Hint Resolve ends_topicRegistered ends_verifyTCP ends_wait_for_message ends_collect_samples
  ends_subscribe_all : xgc.

(** Reading the request ends when standard input does, and no earlier. *)
Definition input_ended : Prop := ∀ t, (N <= t)%nat → input_at env t = InputEnd.

Lemma ends_readSnapshotRequest : input_ended → ends (readSnapshotRequest env).
Proof.
  intros Hended. unfold readSnapshotRequest. apply ends_bind; [|intros ?; ends_tac].
  apply (ends_loop N); [done|]. intros text w. apply wp_bind, wp_ask.
  destruct (Nat.lt_ge_cases (tick w) N) as [Hlt|Hge].
  - destruct (input_at env (tick w)); wp_steps; cbn [tick]; (split; [lia|]); intros; lia || done.
  - rewrite Hended by done. apply wp_ret. unfold after_events. cbn [tick]. split; [lia|done].
Qed.

Lemma ends_probe_mode o node :
  (opt_mode o = "pose-snapshot" → input_ended) → ends (probe_mode env o node deadline).
Proof.
  intros Hin. unfold probe_mode. case_bool_decide as Hm.
  - pose proof (ends_readSnapshotRequest (Hin Hm)). unfold poseSnapshot. ends_tac.
  - unfold probe_pid, lookup. ends_tac.
Qed.
End deadline.

End termination.

(** ** Waiting for standard input *)

(** Running the first part of a computation; one that has no result leaves the
    whole without one. *)
Section opening.
Context {ev st A B : Type} (f : A → comp ev st B) (w : world st).

Lemma lift_bind_run a : (lift (Ok a) ≫= f) w = f a w.
Proof. unfold mbind, comp_bind, lift. by destruct (f a w). Qed.

Lemma ask_bind_run (g : nat → A) :
  (ask g ≫= f) w = f (g (tick w)) (MkWorld (S (tick w)) (local w)).
Proof. unfold mbind, comp_bind, ask. by destruct (f _ _). Qed.

Lemma bind_open (m : comp ev st A) e w' : m w = MkRun None e w' → (m ≫= f) w = MkRun None e w'.
Proof. unfold mbind, comp_bind. by intros ->. Qed.

Lemma try_catch_open (m : comp ev st B) h e w' :
  m w = MkRun None e w' → try_catch m h w = MkRun None e w'.
Proof. unfold try_catch. by intros ->. Qed.
End opening.

Section waiting.
Context {J : Type} `{JsonCpp J} `{!AdapterLibraries J} `{!ProbeLibraries J} (env : ProbeEnv).

Lemma read_input_waits w :
  (∀ t, (tick w <= t)%nat → input_at env t = InputSilent) →
  read_input env w = MkRun None [] (MkWorld (tick w + probe_bound env) (local w)).
Proof.
  unfold read_input. generalize (probe_bound env) as bound. intros bound.
  match goal with |- _ → loop _ ?b ?x _ = _ => set (body := b); generalize x as text end.
  revert w. induction bound as [|bound IH]; intros w text Hs.
  { by destruct w; rewrite Nat.add_0_r. }
  cbn [loop]. unfold mbind, comp_bind, body at 1, ask, mbind, comp_bind. rewrite Hs by lia. cbn.
  rewrite IH by (cbn; intros; apply Hs; lia). cbn. by rewrite Nat.add_succ_r.
Qed.

(** C35: reading a snapshot's request has no time limit and cannot be cancelled. When
    the options ask for a snapshot, ROS is up, and standard input stays open without
    delivering anything, the probe waits for as long as it is run: it uses up every
    turn it is given (the bound of the loop is any number), has no result and asks
    the master nothing, whether or not its time limit has passed or a signal has
    arrived. *)
Theorem snapshot_waits_for_its_input args o node w :
  probe_options args = Ok o → opt_mode o = "pose-snapshot" →
  (if bool_decide (opt_node o = "") then Ok "" else absoluteName (opt_node o)) = Ok node →
  probe_ros_init env = Ok tt →
  (∀ t, (tick w < t)%nat → input_at env t = InputSilent) →
  probe_main env args w = MkRun None [] (MkWorld (S (tick w) + probe_bound env) (local w)).
Proof.
  intros Ho Hm Hn Hi Hs. unfold probe_main, run_probe. apply try_catch_open.
  rewrite Ho, lift_bind_run, ask_bind_run. cbv zeta. rewrite Hn, lift_bind_run, Hi, lift_bind_run.
  apply bind_open. unfold probe_mode. rewrite bool_decide_true by done.
  apply bind_open. unfold poseSnapshot. apply bind_open. unfold readSnapshotRequest. apply bind_open.
  apply (read_input_waits (MkWorld (S (tick w)) (local w))). exact Hs.
Qed.
End waiting.

(** ** The command evaluated *)

Definition demo_arguments : list string :=
  ["--mode"; "master"; "--master-uri"; "http://m:11311"; "--verify-address"; "[::]:80"].
Definition demo_env : ProbeEnv := ProbeDemo.env (IntValue 4711).
Definition demo_probe := probe_main demo_env demo_arguments ProbeDemo.start.

(** The master's process id is printed, after the connection. *)
Lemma demo_probe_run :
  demo_probe = MkRun (Some (Ok 0))
    [Requested "m" 11311 "getPid" (arguments ""); Connecting "127.0.0.1" "80"; Printed (line "4711")]
    (after demo_probe).
Proof. vm_compute. reflexivity. Qed.

(** A master that does not answer: the time limit is reached. *)
Example unanswered_probe :
  outcome (probe_main demo_env ["--master-uri"; "http://m:11311"; "--mode"; "master"; "--timeout-ms"; "4"]
             ProbeDemo.start) = Some (Ok 1).
Proof. vm_compute. reflexivity. Qed.

Lemma probe_success_is_verified_witness :
  ∃ o node, probe_options demo_arguments = Ok o ∧
    (if bool_decide (opt_node o = "") then Ok "" else absoluteName (opt_node o)) = Ok node ∧
    verified demo_env o node (probe_now demo_env 0 + opt_milliseconds o * 1000000)
      [Requested "m" 11311 "getPid" (arguments ""); Connecting "127.0.0.1" "80"; Printed (line "4711")].
Proof.
  apply (probe_success_is_verified demo_env demo_arguments ProbeDemo.start _ (after demo_probe)).
  exact demo_probe_run.
Defined.

(** Surroundings that never answer, and a signal at tick 20; standard input ends at
    tick 3. *)
Definition silent_env : ProbeEnv :=
  MkProbeEnv 40 (λ t, Nat.leb 20 t) (λ _, 0) (λ _, (0, 0)) (λ _, Some ("m", 11311)) (λ _, true)
    (λ _, None) (λ _, None) (Ok tt) (λ _, true) (λ _, []) (λ _, [])
    (λ t, default InputEnd ([InputSilent; InputByte "{"%char; InputByte "}"%char] !! t)).

Definition snapshot_arguments : list string :=
  ["--mode"; "pose-snapshot"; "--master-uri"; "http://m:11311"].


Example cancelled_probe :
  outcome (probe_main silent_env demo_arguments ProbeDemo.start) = Some (Ok 130) ∧
  outcome (probe_main silent_env snapshot_arguments ProbeDemo.start) = Some (Ok 130).
Proof. split; vm_compute; reflexivity. Qed.

(** Standard input stays open and silent, and from the start the probe is cancelled
    and its deadline has passed. *)
Definition blocked_env (bound : nat) : ProbeEnv :=
  MkProbeEnv bound (λ _, true) (λ t, Z.of_nat t * 86400000 * 1000000) (λ _, (0, 0))
    (λ _, Some ("m", 11311)) (λ _, true) (λ _, None) (λ _, None) (Ok tt) (λ _, true) (λ _, [])
    (λ _, []) (λ _, InputSilent).

Lemma snapshot_waits_for_its_input_witness :
  probe_main (blocked_env 1000) snapshot_arguments ProbeDemo.start =
  MkRun None [] (MkWorld 1001 tt).
Proof.
  eapply (snapshot_waits_for_its_input (blocked_env 1000)); reflexivity.
Defined.

